(* ===== verification/_CoqProject ===== *)
-Q . S2P
Prelude.v
Once.v
Text.v
Dates.v
Json.v
Diagnostics.v
Database.v
Wellformed.v
Persistence.v
PersistenceFacts.v
ResultGroups.v
Simulation.v
Publication.v
Guards.v
Controls.v
Delivery.v
Drivers.v
Transact.v
Adapter.v
AdapterFacts.v
SqlText.v
Sessions.v
Instants.v
Effects.v
Streams.v
Enrollment.v
Bridge.v
BridgeFacts.v
BridgeRoutes.v
Backend.v
BackendFacts.v
ModelWatch.v
Actions.v
ActionFacts.v
Host.v
HostFacts.v
ArgumentTypes.v
Subscriptions.v
SubscriptionFacts.v
Http.v
HttpFacts.v
Server.v
ServerFacts.v
EndToEnd.v
Live.v
LiveFacts.v
Listener.v
ListenerFacts.v
Serving.v
ServingFacts.v
Transactions.v
TransactionFacts.v
MobileTransactions.v
Executor.v
ExecutorFacts.v
ClientSockets.v
SocketFacts.v
Client.v
ClientFacts.v
Contexts.v
ClientCalls.v
Callbacks.v
CallbackFacts.v
Regexp.v
Semver.v
Versions.v
VersionFacts.v
ReleaseManifest.v
ReleaseFacts.v
Clocks.v
ClockFacts.v
