(* ===== verification/Prelude.v ===== *)
(** * AXTON: verification of the TypeScript packages

    AXTON keeps a client's local store and a backend's PostgreSQL data in step.
    Its engines are written in Rust; the TypeScript packages under
    [src/packages/] connect them to applications: the server SDK that runs a
    backend's handlers and loaders inside transactions, the PostgreSQL
    persistence it stores its progress in, and the client SDK that turns the
    runtime's messages into Promises, callbacks, watches and sockets.  This
    development models those packages and proves what makes them correct, and with
    them the scripts that release them and the clocks of their benchmark.
    Paths below are relative to [src/packages/], but those of the tools, which are
    relative to [src/].

    ** Parts and files

    Foundations.
    - [Prelude]: JavaScript values, thrown values, results and computations that
      throw without undoing their effects, objects as property lists, triples and
      the tactics the files share.
    - [Text]: strings as WTF-8 bytes, code points, white space, UTF-8 order.
    - [Dates]: the proleptic Gregorian calendar behind [Date].
    - [Json]: [JSON.stringify], [String(v)], [JSON.parse] and the round trip of
      string literals.
    - [Once]: the initialization shared by every caller until it fails.
    - [Diagnostics]: [backend/server/api/diagnostics.mts] - spans, clock and
      native records - and instrumented code as a program over it.

    Persistence ([backend/postgres/src]).
    - [Database]: the tables and each statement of [sql.mts] on them, with the
      constraints and one transaction with savepoints.
    - [Wellformed]: the namespace invariant the tables keep.
    - [Persistence]: every operation of [persistence.mts] (the host contract's
      persistence half) over [Database].
    - [PersistenceFacts], [ResultGroups], [Publication], [Guards], [Delivery]: the
      invariant, results saved and read back, the publication path against its
      general form, locks and guards, pages and positions.
    - [Simulation]: what it is for two bodies of operations to agree on every contractual
      request; [Controls]: the adapters frozen beside the SQL experiments of
      [src/integration/performance/baselines], against [Persistence].
    - [Drivers]: [driver.mts], [pg.mts], and [backend/server/bindings/retryable.mts]
      over a heap of error objects, so that shared and cyclic causes are visible.
    - [Transact]: a driver as the class [Transactor] - what a transaction body may
      rely on - with pg's, Prisma's and Drizzle's drivers as instances.
    - [Adapter], [AdapterFacts]: [persistence] of [persistence.mts], the [database]
      option built on any driver, and over pg's driver on a PostgreSQL server.
    - [SqlText]: [statements.mts] and the binding of [drizzle.mts].

    Server ([backend/server]).
    - [Sessions]: [bindings/session.mts], and the wake hub, [bound] and [run] of
      [api/backend.mts].
    - [Instants], [Effects], [Streams], [Enrollment]: [bindings/effects.mts] - what
      an application may declare about records and Streams, the two collectors -
      and [api/stream.mts], which uses a collector through the class [collector].
    - [Backend], [BackendFacts]: [createBackend]'s checks and dispatch tables and
      the Mutation batches of [api/backend.mts].
    - [Host], [HostFacts]: [bindings/host.mts], which answers the engine's requests
      by calling the application's functions; it composes [Effects], [Streams],
      [Sessions] and [Backend].
    - [ArgumentTypes]: the argument decoding of [Host] against the declared types.
    - [Http], [HttpFacts]: [connection/admission.mts], [connection/http.mts] and
      [engineError] of [bindings/native.mts].
    - [Server], [ServerFacts]: a backend at work - [run], [settle], [transaction],
      [publish] and the routes of [api/backend.mts] - over [Host], [Sessions],
      [Backend] and any database.
    - [EndToEnd]: what a database promises of its store, as the class [Maintains]; the
      adapter over pg's driver as an instance, and a backend over any - from the HTTP
      request to the committed tables.
    - [Live], [LiveFacts]: [connection/live.mts], a session as a state machine over
      an arbitrary controller.
    - [Listener], [ListenerFacts]: [connection/listener.mts] and [attachLive], the
      Promises they keep and their shutdown.
    - [Serving], [ServingFacts]: the listener, its live sessions and the wake hub of
      [Sessions] as one process.

    Client ([frontend/client-js], [frontend/client-react-native]).
    - [Bridge], [BridgeFacts]: [bindings/bridge.mts], the Promise routes and
      application callbacks of a runtime.  [BridgeRoutes] follows one request through
      it, from its route to its settlement.
    - [Actions], [ActionFacts]: [api/actions.mts], the handles of Mutation and Query
      calls, held weakly until waited for.
    - [Subscriptions], [SubscriptionFacts]: [api/subscriptions.mts].
    - [ModelWatch]: [api/model-watch.mts], the receiver of spliced rows.
    - [Transactions], [TransactionFacts]: [api/transaction.mts], [api/local.mts],
      [api/command-accounting.mts] and the transaction half of [api/unsent.mts].  A
      transaction lends its submission checks to [submitMutation] through the class
      [SubmissionHost], which both platforms implement.
    - [MobileTransactions]: [client-react-native/api/transaction.mts].
    - [Executor], [ExecutorFacts]: [bindings/connection.mts].
    - [ClientSockets], [SocketFacts]: [bindings/transport.mts] and both platforms'
      [bindings/live.mts].
    - [Contexts]: the async contexts of [runCallback], [inCallback] and savepoints, which
      the theorems on [Transactions] take with each call.
    - [Client], [ClientFacts]: [api/runtime.mts], where these meet - the guard, the
      connection and closing over [Executor], and one observer ([Observers]).
    - [ClientCalls]: opening, direct calls, action completions and Model watches of
      the same file, over [Client], [Actions] and [ModelWatch].
    - [Callbacks], [CallbackFacts]: [transaction] and [#runTransactionBody] of the
      same file, over [Client], [Bridge] and [Transactions].

    Tools ([src/scripts/release], [src/integration/performance]).
    - [Regexp]: regular expressions, the matcher of the language against what an
      expression matches.
    - [Semver], [Versions], [VersionFacts]: [scripts/release/version.mjs], the check that one
      version is recorded everywhere.
    - [ReleaseManifest], [ReleaseFacts]: [scripts/release/manifest.mjs], the inventory of a
      release and the rule for publishing it again.
    - [Clocks], [ClockFacts]: [integration/performance/support/clock.mjs] and the alignment
      and coverage of [integration/performance/timeline.mjs].

    ** How the parts interact

    A server request enters through [Listener] into [Http] or [Live], which admit it
    and hand it to [Server], whose routes call the native engine; the engine asks
    [Host] to run a handler or a loader; the handler declares records and Streams
    through [Streams] into a collector of [Effects]; [Host] stores the outcome through the operations of [Persistence],
    which send the statements of [Database], all inside one transaction that
    [Sessions] guards and a driver of [Drivers] begins, retries and ends - reached
    through [Adapter], which checks the layout first; when it committed, [Server]
    wakes the Streams it published, which is what [Live] waits for ([Serving] is that
    process).  On the client
    the runtime's events reach [Bridge]: task answers settle the Promises that
    [Actions], [Subscriptions] and [ModelWatch] observe, callbacks run the
    transactions of [Transactions] ([Callbacks] is that composition), and effects run
    in [Executor], whose HTTP requests and sockets are [ClientSockets].

    ** How code is modelled

    Synchronous code is a function; code that awaits in one known order is a
    computation over explicit state ([io]), which keeps the effects made before a
    throw.  Where several pieces of asynchronous code interleave, the component is
    a state with one [step] per continuation or call from outside, a continuation
    that is not ready does nothing, and the theorems quantify over every sequence
    of steps - every interleaving the event loop could choose and more.  Code that
    is not in the packages (the Rust engine, the platform, a database tool, the
    application) is a parameter, or the choice of events.

    ** What the theorems show

    - Persistence: the namespace invariant survives every call, a stored outcome is
      immutable until a later batch, groups of results are saved as one at a time
      and read back in order, the one-statement publication equals the general one,
      locks are taken once each in canonical order, pages are cursor-closed.  Built
      on pg's driver, the committed namespace stays well-formed whatever HTTP requests,
      transactions and publications a backend serves and however its transactions fail
      and retry ([EndToEnd.backend_namespace_wf]); on any driver, no request's statement is
      sent before the layout was found fresh.  The adapters frozen before each SQL
      experiment answer as the present one does, with at least as many statements.
    - Drivers: a transaction is attempted within its retry budget, waits are
      bounded, an attempt releases its client once, the classification of errors is
      reachability - and does not terminate on one kind of cyclic error.
    - Server: sessions complete exactly when nothing failed or was left unawaited;
      only committed Streams are woken; what may be declared is bounded and refused
      atomically; canonical forms are canonical; every operation of a started backend
      is dispatched to its own function; every batch member is answered; a failed
      request makes its transaction impossible to commit; every HTTP request is
      answered once, past every check; a live session gives back what it took.  An
      operation of a backend that is acknowledged was committed with nothing failed or
      left running, and woke its own Streams only; a request's transaction is bound
      and released once; [publish] settles by its session; a listener that closes
      takes nothing new and stops its server when all it accepted has settled;
      arguments reach handlers with their declared types; tracing changes neither
      results nor states.  In a whole serving process the hub wakes exactly the sessions
      that listen, and by the time the server is told to close every session has given
      back its controller, its Streams and its pulls.
    - Client: every request settles once, callbacks run once, calls settle or roll
      back, watches refine the publisher's history, one live handle per
      subscription, a transaction succeeds only when nothing it did was refused,
      unawaited or left failed, effects end once, frames are conveyed in order with
      their losses announced, React Native's transaction behaves as Node's, a
      stopped watch is silent and given back, and only the one live connection of
      an open client holds platform work.  Across guard, bridge and handle, a
      transaction's call resolves only when its callback returned, its handle finished
      well and the runtime completed it, and it rejects with the callback's own error.
      An async context names exactly the callback it runs in ([Contexts.contexts_exact]),
      and no header an application names can stand for a connection's credentials
      ([SocketFacts.connection_credentials]).
    - Tools: [isSemver] accepts the grammar of Semantic Versioning and nothing else; an
      empty release report means, and is meant by, a repository consistent at one version
      ([VersionFacts.check_consistent]); a manifest is written only of exactly the
      expected files, and verifies exactly the directories that hold the same files
      ([ReleaseFacts.write_exact], [verify_written]); a version is skipped only when the
      registry holds the same bytes or files ([npmState_rule], [pubState_skip]); a placed
      reading is within its uncertainty, and the coverage gaps are exactly what no span
      covers ([ClockFacts.alignment_sound], [unattributed_exact]).

    Where the code departs from what it means to do, a lemma exhibits the run (for
    instance [Drivers.isRetryable_adapter_cycle], [Instants.instant_leaves_range],
    [TransactionFacts.failed_opening_stays_active],
    [TransactionFacts.enclosing_failure_forgotten],
    [AdapterFacts.swallowed_error_resolves]).

    ** Bounds and fuel

    - [Json.parse] runs with twice the text's length plus two: every call consumes a
      character or leaves a container.
    - [Persistence.batchesOf] and [guardRuns] run with the length of their list, which
      every group shortens by at least one ([Guards.batchesOf_concat],
      [Guards.guardRuns_ok]).
    - [Backend.pushLoop] runs with the number of members, of which every turn answers
      at least one; [BackendFacts.push_covers] shows that every member is answered.
    - [Drivers.retryLoop] runs with the retry budget, which the source counts down too.
    - [Host.decodeActionValue] runs with the depth of the declared type.
    - [Drivers.isRetryableTransactionError] takes its fuel as an argument and answers
      [None] when it runs out: the source itself need not terminate, and the theorems
      say when it answers and that more fuel never helps on a cycle.
    - [Clocks.offset] runs with the number of edges: a turn visits a domain that was not
      visited and has an edge ([ClockFacts.resolve_total]).
    - [Regexp.loop] and [search] run with what is left to read, of which every iteration
      and every turn consumes a character ([Regexp.run_complete]).
    Everything else is structural recursion.

    ** Not modelled

    - Getters, proxies and inherited properties of application values: an object is
      the list of its own enumerable properties.
    - The diagnostics calls inside the other components: [Diagnostics] proves that
      they change nothing the wrapped code does, so the components leave them out.
    - Row locks and isolation levels: the tables are those one transaction sees.
    - Platform timers, sockets, [fetch], [WeakRef] support and the loading of the native
      addons, which appear as parameters or events; URL parsing is the class
      [ClientSockets.Urls], and the hashes, registries and [tar] of the release scripts are
      parameters of [ReleaseManifest].
    - What a command of a transaction's callback does besides its handle's
      accounting: [Callbacks] gives the task to [Bridge] and its settlement to
      [Transactions], and a provisional call or a local callback registered meanwhile
      is an event of the rest of the client.
    - One state of the whole client: [Callbacks] links transactions to [Bridge] and the
      guard, [ClientCalls] links calls and watches to their registries, and what the
      Bridge delivers to [Actions] and [Subscriptions] is an arbitrary event of theirs,
      which covers every order the runtime could choose.
    - Clearing the hub while sessions live ([closeLive]): [Serving] leaves it to the end.
    - The layout of trace events on tracks ([placeTrees]) and the benchmark's runners and
      reports, which start processes and print tables; the argument parsing of the
      release scripts.
    - Files whose bodies are types, constants and re-exports: the [index] modules,
      [backend/server/api/schema.mts] and [bindings/host-contract.mts].
    - Generated code, integration tests, examples and the documentation site, which use
      the packages and are not part of them; the Rust crates and the Dart and mobile
      bindings, which are not TypeScript. *)
From stdpp Require Export base gmap strings list pretty.
From Stdlib Require Export ZArith Lia.

Declare Scope axton_scope.
Delimit Scope axton_scope with axton.
#[export] Set Default Goal Selector "!".
(** [value] nests lists; the schemes stdlib would register for them are not used. *)
Set Warnings "-register-all".

(** * JavaScript values

    A number is a double, seen through what the code asks of it: an integral
    double by its value, any other finite double by the text [Number::toString]
    gives it (that text determines the double), the infinities and NaN.  The
    sign of zero is not observable in the modelled code.  An object is the list
    of its own enumerable properties in enumeration order.  Strings are the
    WTF-8 bytes of the JavaScript string (see [Text.v]). *)
Inductive number :=
| NInt (z : Z)
| NFrac (spelling : string)
| NInf (negative : bool)
| NNaN.

Inductive value :=
| VUndef
| VNull
| VBool (b : bool)
| VNum (n : number)
| VBig (z : Z)
| VStr (s : string)
| VDate (millis : option Z)
| VFun (id : nat)
| VArr (items : list value)
| VObj (fields : list (string * value)).

#[export] Instance number_eq_dec : EqDecision number.
Proof. solve_decision. Defined.
#[export] Instance value_inhabited : Inhabited value := populate VUndef.

(** [Number.MAX_SAFE_INTEGER] *)
Definition MAX_SAFE : Z := 9007199254740991.

(** [Number.isSafeInteger]: false for anything that is not a number. *)
Definition isSafeInteger (v : value) : bool :=
  match v with
  | VNum (NInt z) => (- MAX_SAFE <=? z)%Z && (z <=? MAX_SAFE)%Z
  | _ => false
  end.

(** [Number.isFinite] *)
Definition isFinite (n : number) : bool :=
  match n with NInt _ | NFrac _ => true | NInf _ | NNaN => false end.

Definition isArray (v : value) : bool :=
  match v with VArr _ => true | _ => false end.

(** [value === null || value === undefined] *)
Definition nullish (v : value) : bool :=
  match v with VUndef | VNull => true | _ => false end.

(** [Boolean(value)] *)
Definition truthy (v : value) : bool :=
  match v with
  | VUndef | VNull | VNum NNaN => false
  | VBool b => b
  | VNum (NInt z) => negb (z =? 0)%Z
  | VBig z => negb (z =? 0)%Z
  | VStr s => negb (String.eqb s EmptyString)
  | _ => true
  end.

(** [typeof value === "object" && value !== null] *)
Definition isObject (v : value) : bool :=
  match v with VDate _ | VArr _ | VObj _ => true | _ => false end.

(** * Thrown values

    One constructor per error class the packages throw; [Thrown] is any other
    value an application, a driver or the native addon throws. *)
Inductive execution := Rejected | Unknown.

Inductive exn :=
| Error (message : string)
| TypeError (message : string)
| EngineError (code message : string) (details : option (list (string * value)))
| TaskError (message : string) (details : value)          (* an [Error] with [details] *)
| MutationRejected (code : string)
| EnrollmentOverflow (message : string)
| CallError (code : string) (how : execution) (cause : option exn)
| Thrown (v : value).

(** ** Results and effectful computations *)
Inductive result (A : Type) :=
| Ok (a : A)
| Throw (e : exn).
Arguments Ok {A} a.
Arguments Throw {A} e.

#[export] Instance result_ret : MRet result := λ A a, Ok a.
#[export] Instance result_bind : MBind result := λ A B f m,
  match m with Ok a => f a | Throw e => Throw e end.

#[export] Instance result_fmap : FMap result := λ A B f m,
  match m with Ok a => Ok (f a) | Throw e => Throw e end.

(** A computation over a state [S] that returns or throws.  The state a throw
    leaves behind is kept: JavaScript undoes no effect when it throws. *)
Definition io (S A : Type) : Type := S → result A * S.
#[export] Instance io_ret {S} : MRet (io S) := λ A a s, (Ok a, s).
#[export] Instance io_bind {S} : MBind (io S) := λ A B f m s,
  match m s with (Ok a, s') => f a s' | (Throw e, s') => (Throw e, s') end.
#[export] Instance io_fmap {S} : FMap (io S) := λ A B f m s,
  let '(r, s') := m s in (f <$> r, s').
Definition throw {S A} (e : exn) : io S A := λ s, (Throw e, s).
(** A synchronous check, run inside a computation. *)
Definition check {S A} (r : result A) : io S A := λ s, (r, s).
(** [try { m } catch (e) { h(e) }] *)
Definition catch {S A} (m : io S A) (h : exn → io S A) : io S A := λ s,
  match m s with (Ok a, s') => (Ok a, s') | (Throw e, s') => h e s' end.
(** [try { m } finally { f }]: [f] runs on both exits and cannot itself throw. *)
Definition finally {S A} (m : io S A) (f : S → S) : io S A := λ s,
  let '(r, s') := m s in (r, f s').
Definition gets {S A} (f : S → A) : io S A := λ s, (Ok (f s), s).
Definition modify {S} (f : S → S) : io S unit := λ s, (Ok tt, f s).

Notation "'raise' m" := (Throw (Error m)) (at level 10, m at level 9) : axton_scope.
Notation "'guard!' b 'else' e ; k" := (if b then k else e)
  (at level 100, b at level 99, e at level 99, k at level 200, right associativity) : axton_scope.

(** [for (const x of l) await f(x);] *)
Fixpoint forEach {S A} (f : A → io S unit) (l : list A) : io S unit :=
  match l with
  | [] => mret tt
  | x :: l' => _ ← f x; forEach f l'
  end.

(** * Objects as property lists *)
Fixpoint fieldOf {A} (key : string) (l : list (string * A)) : option A :=
  match l with
  | [] => None
  | (k, a) :: l' => if String.eqb k key then Some a else fieldOf key l'
  end.

(** [value.key] of a value that is neither null nor undefined. *)
Definition get (v : value) (key : string) : value :=
  match v with VObj fields => default VUndef (fieldOf key fields) | _ => VUndef end.

(** [value.key]: reading a property of null or undefined throws. *)
Definition dot (v : value) (key : string) : result value :=
  if nullish v then Throw (TypeError "Cannot read properties") else Ok (get v key).
(** [v ?? w] *)
Definition coalesce (v w : value) : value := if nullish v then w else v.
(** [===] on primitive values; two objects built apart are never identical. *)
Definition strictEq (v w : value) : bool :=
  match v, w with
  | VUndef, VUndef | VNull, VNull => true
  | VBool a, VBool b => Bool.eqb a b
  | VNum NNaN, _ => false
  | VNum a, VNum b => bool_decide (a = b)
  | VBig a, VBig b => (a =? b)%Z
  | VStr a, VStr b => String.eqb a b
  | VFun a, VFun b => Nat.eqb a b
  | _, _ => false
  end.
(** Setting a property: in place, or at the end. *)
Fixpoint setField {A} (key : string) (a : A) (l : list (string * A)) : list (string * A) :=
  match l with
  | [] => [(key, a)]
  | (k, b) :: l' => if String.eqb k key then (k, a) :: l' else (k, b) :: setField key a l'
  end.

Lemma fieldOf_setField {A} k j (a : A) l :
  fieldOf j (setField k a l) = if String.eqb k j then Some a else fieldOf j l.
Proof.
  induction l as [|[i b] l IH]; simpl; [done|].
  destruct (String.eqb_spec i k) as [->|Hik]; simpl.
  - by destruct (String.eqb k j).
  - rewrite IH. destruct (String.eqb_spec i j), (String.eqb_spec k j); congruence.
Qed.
Lemma fieldOf_setField_ne {A} k j (a : A) l : k ≠ j → fieldOf j (setField k a l) = fieldOf j l.
Proof. intros H. rewrite fieldOf_setField. by destruct (String.eqb_spec k j). Qed.
Lemma setField_id {A} k (a : A) l : fieldOf k l = Some a → setField k a l = l.
Proof.
  induction l as [|[i b] l IH]; simpl; [done|].
  destruct (String.eqb_spec i k); intros ?; simplify_eq; [done|]. by rewrite IH.
Qed.
Lemma fieldOf_elem_of {A} key (l : list (string * A)) a :
  fieldOf key l = Some a → (key, a) ∈ l.
Proof.
  induction l as [|[k x] l IH]; simpl; [done|].
  destruct (String.eqb_spec k key); intros ?; simplify_eq; set_solver.
Qed.

Lemma fieldOf_NoDup {A} key (l : list (string * A)) a :
  NoDup l.*1 → (key, a) ∈ l → fieldOf key l = Some a.
Proof.
  induction l as [|[k x] l IH]; simpl; [set_solver|].
  rewrite NoDup_cons, elem_of_cons. intros [Hk Hl] [?|Hin]; simplify_eq.
  - by rewrite String.eqb_refl.
  - destruct (String.eqb_spec k key) as [->|]; [|auto].
    destruct Hk. apply list_elem_of_fmap. by exists (key, a).
Qed.

(** [map.delete(key)] *)
Definition removeKey {A} (key : string) (l : list (string * A)) : list (string * A) :=
  filter (λ p, p.1 ≠ key) l.

(** ** Keys *)
Lemma setField_keys_new {A} k (a : A) l : k ∉ l.*1 → (setField k a l).*1 = l.*1 ++ [k].
Proof.
  induction l as [|[j x] l IH]; cbn; [done|]. intros Hk.
  destruct (String.eqb_spec j k) as [->|]; [set_solver|]. cbn. rewrite IH; [done|set_solver].
Qed.
Lemma setField_keys_old {A} k (a : A) l : k ∈ l.*1 → (setField k a l).*1 = l.*1.
Proof.
  induction l as [|[j x] l IH]; cbn; [set_solver|]. intros Hk.
  destruct (String.eqb_spec j k) as [->|]; cbn; [done|]. rewrite IH; [done|set_solver].
Qed.
Lemma setField_elem {A} k (a : A) l p : p ∈ setField k a l → p = (k, a) ∨ p ∈ l.
Proof.
  induction l as [|[j x] l IH]; cbn; [set_solver|].
  destruct (String.eqb_spec j k) as [->|]; rewrite !elem_of_cons; naive_solver.
Qed.
Lemma fieldOf_Some_key {A} k l (a : A) : fieldOf k l = Some a → k ∈ l.*1.
Proof. intros H%fieldOf_elem_of. apply list_elem_of_fmap. by exists (k, a). Qed.
Lemma fieldOf_None_key {A} k (l : list (string * A)) : fieldOf k l = None → k ∉ l.*1.
Proof.
  induction l as [|[j x] l IH]; cbn; [set_solver|]. destruct (String.eqb_spec j k); [done|set_solver].
Qed.
Lemma removeKey_keys {A} k (l : list (string * A)) : (removeKey k l).*1 = filter (λ j, j ≠ k) l.*1.
Proof.
  unfold removeKey. induction l as [|[j x] l IH]; [done|]. cbn [fmap list_fmap fst].
  rewrite !filter_cons. cbn [fst]. case_decide; [cbn; by rewrite <- IH|done].
Qed.
Lemma removeKey_elem {A} k (l : list (string * A)) p : p ∈ removeKey k l ↔ p.1 ≠ k ∧ p ∈ l.
Proof. unfold removeKey. by rewrite list_elem_of_filter. Qed.
Lemma removeKey_fresh {A} k (l : list (string * A)) : k ∉ l.*1 → removeKey k l = l.
Proof.
  unfold removeKey. induction l as [|[j x] l IH]; [done|]. intros Hk. cbn in Hk. rewrite filter_cons.
  rewrite decide_True by (cbn; set_solver). rewrite IH; [done|set_solver].
Qed.

Lemma fieldOf_removeKey_ne {A} k j (l : list (string * A)) : k ≠ j → fieldOf j (removeKey k l) = fieldOf j l.
Proof.
  intros Hne. unfold removeKey. induction l as [|[i x] l IH]; [done|]. rewrite filter_cons. cbn [fst].
  case_decide; cbn; [by rewrite IH|]. destruct (String.eqb_spec i j) as [->|]; [|done].
  by destruct (decide (j = k)).
Qed.

Lemma filter_keys_NoDup {K A} (P : K * A → Prop) `{∀ p, Decision (P p)} l :
  NoDup l.*1 → NoDup (filter P l).*1.
Proof.
  induction l as [|[k a] l IH]; cbn [fmap list_fmap]; [done|]. rewrite NoDup_cons. intros [Hk Hl].
  rewrite filter_cons. case_decide; [|auto]. cbn. apply NoDup_cons. split; [|auto].
  intros Hin. apply Hk. apply list_elem_of_fmap in Hin as (q & Hq & Hin).
  apply list_elem_of_filter in Hin as [_ Hin]. apply list_elem_of_fmap. eauto.
Qed.

(** * Lists

    [[...new Set(l)]]: the first occurrence of every element, in order. *)
Section uniq.
Context {A : Type} `{EqDecision A}.

Fixpoint uniq_from (seen l : list A) : list A :=
  match l with
  | [] => []
  | x :: l' =>
      if decide (x ∈ seen) then uniq_from seen l' else x :: uniq_from (x :: seen) l'
  end.
Definition uniq (l : list A) : list A := uniq_from [] l.

Lemma elem_of_uniq_from seen l x : x ∈ uniq_from seen l ↔ x ∈ l ∧ x ∉ seen.
Proof.
  revert seen; induction l as [|y l IH]; intros seen; simpl; [set_solver|].
  case_decide as Hd; [rewrite IH; set_solver|].
  rewrite elem_of_cons, IH.
  destruct (decide (x = y)) as [->|]; [|set_solver].
  split; intros _; [split; [by left|done]|by left].
Qed.
Lemma elem_of_uniq l x : x ∈ uniq l ↔ x ∈ l.
Proof. unfold uniq. rewrite elem_of_uniq_from. set_solver. Qed.
Lemma NoDup_uniq_from seen l : NoDup (uniq_from seen l).
Proof.
  revert seen; induction l as [|y l IH]; intros seen; simpl; [constructor|].
  case_decide; [auto|]. constructor; [|auto].
  rewrite elem_of_uniq_from. set_solver.
Qed.
Lemma NoDup_uniq l : NoDup (uniq l).
Proof. apply NoDup_uniq_from. Qed.
Lemma uniq_from_length seen l : length (uniq_from seen l) ≤ length l.
Proof.
  revert seen; induction l as [|y l IH]; intros seen; simpl; [done|].
  case_decide; simpl; [pose proof (IH seen)|pose proof (IH (y :: seen))]; lia.
Qed.
Lemma uniq_from_length_eq seen l :
  length (uniq_from seen l) = length l ↔ NoDup l ∧ ∀ x, x ∈ l → x ∉ seen.
Proof.
  revert seen; induction l as [|y l IH]; intros seen; simpl.
  { split; [split; [constructor|set_solver]|done]. }
  case_decide as Hd; simpl.
  - pose proof (uniq_from_length seen l). split; [lia|]. set_solver.
  - rewrite NoDup_cons. rewrite Nat.succ_inj_wd, IH. set_solver.
Qed.
(** [new Set(l).size === l.length] holds exactly when nothing repeats. *)
Lemma uniq_length_eq l : length (uniq l) = length l ↔ NoDup l.
Proof. unfold uniq. rewrite uniq_from_length_eq. set_solver. Qed.
Lemma uniq_from_id seen l : NoDup l → (∀ x, x ∈ l → x ∉ seen) → uniq_from seen l = l.
Proof.
  revert seen; induction l as [|y l IH]; intros seen; simpl; [done|].
  rewrite NoDup_cons. intros [Hy Hl] Hs.
  rewrite decide_False by set_solver. f_equal. apply IH; set_solver.
Qed.
Lemma uniq_id l : NoDup l → uniq l = l.
Proof. intros. apply uniq_from_id; set_solver. Qed.
End uniq.

(** ** [Array.prototype.map] with a callback that may throw *)
Lemma mapM_Ok {A B} (f : A → result B) l k :
  mapM f l = Ok k ↔ Forall2 (λ x y, f x = Ok y) l k.
Proof.
  revert k; induction l as [|x l IH]; intros k.
  - split; [intros [= <-]; constructor|]. by inversion 1.
  - simpl. split.
    + destruct (f x) as [y|e] eqn:Hx; simpl; [|discriminate].
      destruct (mapM f l) as [k'|e] eqn:Hl; simpl; [|discriminate].
      intros [= <-]. constructor; [done|]. by apply IH.
    + inversion 1 as [|? y ? k' Hx Hl]; subst.
      rewrite Hx; simpl. apply IH in Hl. by rewrite Hl.
Qed.
Lemma mapM_Ok_length {A B} (f : A → result B) l k :
  mapM f l = Ok k → length k = length l.
Proof. rewrite mapM_Ok. intros H. symmetry. exact (Forall2_length _ _ _ H). Qed.
Lemma mapM_pure {A B} (f : A → B) l : mapM (M := result) (λ x, Ok (f x)) l = Ok (f <$> l).
Proof. induction l as [|x l IH]; simpl; [done|]. by rewrite IH. Qed.
Lemma mapM_ext_elem {A B} (f g : A → result B) l :
  (∀ x, x ∈ l → f x = g x) → mapM f l = mapM g l.
Proof.
  induction l as [|x l IH]; intros H; simpl; [done|].
  rewrite (H x) by set_solver. by rewrite IH by set_solver.
Qed.

(** * Automation

    [invert_io] takes apart a hypothesis [m s = (r, s')] about a monadic
    computation, one bind at a time. *)
Lemma io_bind_inv {S A B} (m : io S A) (f : A → io S B) s r s' :
  (m ≫= f) s = (r, s') →
  (∃ a s1, m s = (Ok a, s1) ∧ f a s1 = (r, s')) ∨
  (∃ e, m s = (Throw e, s') ∧ r = Throw e).
Proof.
  unfold mbind, io_bind. destruct (m s) as [[a|e] s1]; intros H; [left; eauto|].
  right. exists e. by simplify_eq.
Qed.
Lemma io_bind_Ok {S A B} (m : io S A) (f : A → io S B) s a s1 :
  m s = (Ok a, s1) → (m ≫= f) s = f a s1.
Proof. unfold mbind, io_bind. by intros ->. Qed.
Lemma io_bind_Throw {S A B} (m : io S A) (f : A → io S B) s e s1 :
  m s = (Throw e, s1) → (m ≫= f) s = (Throw e, s1).
Proof. unfold mbind, io_bind. by intros ->. Qed.
Lemma check_bind {S A B} (a : A) (f : A → io S B) s : (check (Ok a) ≫= f) s = f a s.
Proof. done. Qed.
Lemma check_bind_inv {S A B} (m : result A) (f : A → io S B) s r s' :
  (check m ≫= f) s = (r, s') →
  match m with Ok a => f a s = (r, s') | Throw e => r = Throw e ∧ s' = s end.
Proof. destruct m; [done|]. intros H. cbv in H. by simplify_eq. Qed.
Lemma result_bind_inv {A B} (m : result A) (f : A → result B) b :
  m ≫= f = Ok b → ∃ a, m = Ok a ∧ f a = Ok b.
Proof. destruct m; simpl; [eauto|discriminate]. Qed.

(** ** Triples

    [triple P m Q]: started in a state satisfying [P], [m] ends with a result and
    a state satisfying [Q]; a throw is one of the results. *)
Definition triple {S A} (P : S → Prop) (m : io S A) (Q : result A → S → Prop) : Prop :=
  ∀ s, P s → Q (m s).1 (m s).2.
(** [m] keeps [P] whether it returns or throws. *)
Definition preserves {S A} (P : S → Prop) (m : io S A) : Prop := triple P m (λ _, P).

Section triples.
Context {S : Type} (P : S → Prop).
Lemma triple_bind {A B} (m : io S A) (f : A → io S B) R Q :
  triple P m (λ r s, match r with Ok a => R a s | Throw e => Q (Throw e) s end) →
  (∀ a, triple (R a) (f a) Q) → triple P (m ≫= f) Q.
Proof.
  intros Hm Hf s Hs. specialize (Hm s Hs). unfold mbind, io_bind.
  destruct (m s) as [[a|e] s1]; simpl in *; [by apply Hf|done].
Qed.
Lemma triple_weaken {A} (m : io S A) (P' : S → Prop) (Q Q' : result A → S → Prop) :
  triple P m Q → (∀ s, P' s → P s) → (∀ r s, Q r s → Q' r s) → triple P' m Q'.
Proof. intros Hm HP HQ s Hs. by apply HQ, Hm, HP. Qed.
Lemma preserves_bind {A B} (m : io S A) (f : A → io S B) :
  preserves P m → (∀ a, preserves P (f a)) → preserves P (m ≫= f).
Proof.
  intros Hm Hf. apply (triple_bind _ _ (λ _, P)); [|done].
  intros s Hs. specialize (Hm s Hs). by destruct (m s).1.
Qed.
Lemma preserves_ret {A} (a : A) : preserves P (mret a).
Proof. by intros s. Qed.
Lemma preserves_throw {A} e : preserves P (throw (A := A) e).
Proof. by intros s. Qed.
Lemma preserves_check {A} (r : result A) : preserves P (check r).
Proof. by intros s. Qed.
Lemma preserves_case {A} (b : bool) (m n : io S A) :
  (b = true → preserves P m) → (b = false → preserves P n) → preserves P (if b then m else n).
Proof. destruct b; auto. Qed.
Lemma preserves_if {A} (b : bool) (m n : io S A) :
  preserves P m → preserves P n → preserves P (if b then m else n).
Proof. by destruct b. Qed.
Lemma preserves_option {A B} (o : option A) (f : A → io S B) n :
  (∀ a, preserves P (f a)) → preserves P n →
  preserves P (match o with Some a => f a | None => n end).
Proof. destruct o; auto. Qed.
Lemma preserves_forEach {A} (f : A → io S unit) l :
  (∀ a, a ∈ l → preserves P (f a)) → preserves P (forEach f l).
Proof.
  induction l as [|a l IH]; intros Hf; simpl; [apply preserves_ret|].
  apply preserves_bind; [apply Hf; by left|]. intros _. apply IH. intros. apply Hf. by right.
Qed.
Lemma preserves_mapM {A B} (f : A → io S B) l :
  (∀ a, a ∈ l → preserves P (f a)) → preserves P (mapM f l).
Proof.
  induction l as [|a l IH]; intros Hf; simpl; [apply preserves_ret|].
  apply preserves_bind; [apply Hf; by left|]. intros b.
  apply preserves_bind; [apply IH; intros; apply Hf; by right|]. intros. apply preserves_ret.
Qed.
End triples.

Ltac case_if :=
  match goal with
  | |- context [if ?b then _ else _] => destruct b eqn:?
  | H : context [if ?b then _ else _] |- _ => destruct b eqn:?
  end.
Ltac invert_io H :=
  apply io_bind_inv in H; destruct H as [(? & ? & ? & H)|(? & ? & ?)].

Create HintDb axton.
Create Rewrite HintDb axton.
#[export] Hint Resolve preserves_ret preserves_throw preserves_check : axton.
#[export] Hint Resolve NoDup_uniq elem_of_uniq : axton.
#[export] Hint Rewrite @elem_of_uniq @elem_of_uniq_from : axton.
