(* ===== verification/Once.v ===== *)
(** An initialization shared by every caller until it fails: the pattern of
    [initialize] in [backend/server/api/backend.mts] and of [initialize] in
    [backend/postgres/src/persistence.mts],
    [initializing ??= Promise.resolve().then(task).catch(...)].

    [initializeStep] is the promise variable as a state machine, for callers that
    interleave; [once] is one call of [initialize] as a computation. *)
From S2P Require Import Prelude.

Inductive initialization := Idle | Initializing | Initialized.
#[export] Instance initialization_eq_dec : EqDecision initialization.
Proof. solve_decision. Defined.

(** ** The variable, for callers that interleave *)
Inductive initialize_event := Ask | Validated | Refused.
(** The next state, and whether the database is asked. *)
Definition initializeStep (s : initialization) (e : initialize_event) : initialization * bool :=
  match e, s with
  | Ask, Idle => (Initializing, true)
  | Ask, _ => (s, false)
  | Validated, Initializing => (Initialized, false)
  | Refused, Initializing => (Idle, false)
  | _, _ => (s, false)
  end.
(** How many validations of [l] are asked of the database from [s]. *)
Fixpoint asked (s : initialization) (l : list initialize_event) : nat :=
  match l with
  | [] => 0
  | e :: l => let '(s', b) := initializeStep s e in (if b then S (asked s' l) else asked s' l)
  end.
(** Without a refusal the database is asked at most once, however many callers
    there are. *)
Lemma asked_once s l : Refused ∉ l → asked s l ≤ match s with Idle => 1 | _ => 0 end.
Proof.
  revert s. induction l as [|e l IH]; intros s Hl; [destruct s; cbn; lia|].
  assert (Refused ∉ l) as Hl' by (intros H; apply Hl; by right).
  assert (e ≠ Refused) as He by (intros ->; apply Hl; by left).
  pose proof (IH Idle Hl') as H0. pose proof (IH Initializing Hl') as H1. pose proof (IH Initialized Hl') as H2.
  cbn in H0, H1, H2. destruct e, s; try done; cbn in *; lia.
Qed.

(** ** One call *)
Class Slot (S : Type) := {
  slot : S → initialization;
  setSlot : initialization → S → S;
  slot_set i s : slot (setSlot i s) = i }.

Section once.
Context {S : Type} `{!Slot S}.
Variable task : io S unit.
(** What the validation under way settles with, for a caller that finds one. *)
Variable join : io S unit.

Definition once : io S unit := λ s,
  match slot s with
  | Initialized => (Ok tt, s)
  | Initializing => join s
  | Idle =>
      match task (setSlot Initializing s) with
      | (Ok _, s) => (Ok tt, setSlot Initialized s)
      | (Throw e, s) => (Throw e, setSlot Idle s)
      end
  end.

(** A caller that gets through finds the task done, its own or an earlier one. *)
Lemma once_Ok s s' : slot s ≠ Initializing → once s = (Ok tt, s') →
  slot s' = Initialized ∧
  (s' = s ∨ ∃ s1, slot s = Idle ∧ task (setSlot Initializing s) = (Ok tt, s1) ∧ s' = setSlot Initialized s1).
Proof.
  unfold once. destruct (slot s) eqn:Hs; [|done|by intros _ [= <-]; auto].
  destruct (task _) as [[[]|e] s1] eqn:Ht; [|done]. intros _ [= <-].
  rewrite slot_set. eauto 10.
Qed.
Lemma once_Throw s s' e : slot s ≠ Initializing → once s = (Throw e, s') →
  slot s = Idle ∧ slot s' = Idle ∧ ∃ s1, task (setSlot Initializing s) = (Throw e, s1) ∧ s' = setSlot Idle s1.
Proof.
  unfold once. destruct (slot s) eqn:Hs; [|done|done].
  destruct (task _) as [[[]|e'] s1] eqn:Ht; [done|]. intros _ [= <- <-]. rewrite slot_set. eauto 10.
Qed.
(** [once] keeps what its task, the other validation and the variable keep. *)
Lemma once_preserves (P : S → Prop) :
  (∀ i s, P s → P (setSlot i s)) → preserves P task → preserves P join → preserves P once.
Proof.
  intros Hset Ht Hj s Hs. unfold once. destruct (slot s); [|by apply Hj|done].
  specialize (Ht _ (Hset Initializing _ Hs)). destruct (task _) as [[?|?] s1]; by apply Hset.
Qed.
End once.
