(* ===== verification/Text.v ===== *)
(** JavaScript strings.

    A JavaScript string is modelled by its WTF-8 bytes (UTF-8, where an
    unpaired surrogate is encoded like any other code point), as a Rocq
    [string].  This file has the code points of a string, which
    [[...text].map((c) => c.codePointAt(0))] iterates, [String.prototype.trim]
    and the string literal [JSON.stringify] prints, with the round trips the
    components rely on. *)
From S2P Require Import Prelude.
From Stdlib Require Import Ascii.
Open Scope Z_scope.

(** * Bytes *)
Definition byte (c : ascii) : Z := Z.of_N (N_of_ascii c).
Definition char (z : Z) : ascii := ascii_of_N (Z.to_N z).
Fixpoint bytes (s : string) : list Z :=
  match s with EmptyString => [] | String c s' => byte c :: bytes s' end.
Fixpoint of_bytes (l : list Z) : string :=
  match l with [] => EmptyString | b :: l' => String (char b) (of_bytes l') end.

Lemma byte_bound c : 0 ≤ byte c < 256.
Proof. unfold byte. pose proof (N_ascii_bounded c). lia. Qed.
Lemma char_byte c : char (byte c) = c.
Proof. unfold char, byte. rewrite N2Z.id. apply ascii_N_embedding. Qed.
Lemma byte_char z : 0 ≤ z < 256 → byte (char z) = z.
Proof. intros. unfold char, byte. rewrite N_ascii_embedding; lia. Qed.
Lemma byte_inj c d : byte c = byte d → c = d.
Proof. intros H. by rewrite <- (char_byte c), H, char_byte. Qed.
Lemma of_bytes_bytes s : of_bytes (bytes s) = s.
Proof. induction s as [|c s IH]; simpl; [done|]. by rewrite char_byte, IH. Qed.
Lemma bytes_of_bytes l : Forall (λ b, 0 ≤ b < 256) l → bytes (of_bytes l) = l.
Proof. induction 1; simpl; [done|]. by rewrite byte_char, IHForall. Qed.
Lemma bytes_inj s t : bytes s = bytes t → s = t.
Proof. intros H. by rewrite <- (of_bytes_bytes s), H, of_bytes_bytes. Qed.
Lemma bytes_bound s : Forall (λ b, 0 ≤ b < 256) (bytes s).
Proof. induction s; simpl; constructor; auto using byte_bound. Qed.

(** * Code points *)
Definition MAX_CODE_POINT : Z := 0x10FFFF.
Definition codePoint (cp : Z) : Prop := 0 ≤ cp ≤ MAX_CODE_POINT.

(** One code point's bytes. *)
Definition utf8 (cp : Z) : list Z :=
  if cp <? 0x80 then [cp]
  else if cp <? 0x800 then [0xC0 + cp / 64; 0x80 + cp mod 64]
  else if cp <? 0x10000 then
    [0xE0 + cp / 4096; 0x80 + cp / 64 mod 64; 0x80 + cp mod 64]
  else [0xF0 + cp / 262144; 0x80 + cp / 4096 mod 64;
        0x80 + cp / 64 mod 64; 0x80 + cp mod 64].

(** The code points of a byte sequence, by the lead byte of each; a sequence cut
    short stands for itself (no string of the program has one). *)
Fixpoint decode (l : list Z) : list Z :=
  match l with
  | [] => []
  | b0 :: l1 =>
      if b0 <? 0x80 then b0 :: decode l1
      else if b0 <? 0xE0 then
        match l1 with
        | b1 :: l2 => ((b0 - 0xC0) * 64 + (b1 - 0x80)) :: decode l2
        | [] => [b0]
        end
      else if b0 <? 0xF0 then
        match l1 with
        | b1 :: b2 :: l3 =>
            ((b0 - 0xE0) * 4096 + (b1 - 0x80) * 64 + (b2 - 0x80)) :: decode l3
        | _ => b0 :: l1
        end
      else
        match l1 with
        | b1 :: b2 :: b3 :: l4 =>
            ((b0 - 0xF0) * 262144 + (b1 - 0x80) * 4096
              + (b2 - 0x80) * 64 + (b3 - 0x80)) :: decode l4
        | _ => b0 :: l1
        end
  end.

Definition codePoints (s : string) : list Z := decode (bytes s).
Definition fromCodePoints (cps : list Z) : string := of_bytes (concat (utf8 <$> cps)).

Lemma utf8_bytes cp : codePoint cp → Forall (λ b, 0 ≤ b < 256) (utf8 cp).
Proof.
  unfold codePoint, MAX_CODE_POINT, utf8. intros H.
  repeat case_match; repeat constructor; Z.to_euclidean_division_equations; lia.
Qed.
Ltac lead := first [rewrite (proj2 (Z.ltb_ge _ _)) by (Z.to_euclidean_division_equations; lia)
                   |rewrite (proj2 (Z.ltb_lt _ _)) by (Z.to_euclidean_division_equations; lia)].
Lemma decode_utf8 cp l : codePoint cp → decode (utf8 cp ++ l) = cp :: decode l.
Proof.
  unfold codePoint, MAX_CODE_POINT, utf8. intros H.
  repeat case_match; rewrite ?Z.ltb_lt, ?Z.ltb_ge in *;
    cbn [app decode]; repeat lead; f_equal; Z.to_euclidean_division_equations; lia.
Qed.
Lemma decode_concat cps : Forall codePoint cps → decode (concat (utf8 <$> cps)) = cps.
Proof.
  induction 1 as [|cp cps Hcp _ IH]; [done|].
  cbn [fmap list_fmap concat]. by rewrite decode_utf8, IH.
Qed.
Lemma codePoints_from cps : Forall codePoint cps → codePoints (fromCodePoints cps) = cps.
Proof.
  intros H. unfold codePoints, fromCodePoints. rewrite bytes_of_bytes.
  - by apply decode_concat.
  - induction H as [|cp cps Hcp _ IH]; [constructor|].
    cbn [fmap list_fmap concat]. apply Forall_app; auto using utf8_bytes.
Qed.

(** A well-formed string: the encoding of some code points. *)
Definition isText (s : string) : Prop := ∃ cps, Forall codePoint cps ∧ s = fromCodePoints cps.
Lemma isText_from s : isText s → s = fromCodePoints (codePoints s) ∧ Forall codePoint (codePoints s).
Proof. intros (cps & H & ->). by rewrite codePoints_from. Qed.

(** * [String.prototype.trim]

    White space and line terminators of the ECMAScript grammar. *)
Definition isWhite (cp : Z) : bool :=
  ((9 <=? cp) && (cp <=? 13)) || (cp =? 32) || (cp =? 160) || (cp =? 0x1680)
  || ((0x2000 <=? cp) && (cp <=? 0x200A)) || (cp =? 0x2028) || (cp =? 0x2029)
  || (cp =? 0x202F) || (cp =? 0x205F) || (cp =? 0x3000) || (cp =? 0xFEFF).

Fixpoint dropWhite (cps : list Z) : list Z :=
  match cps with
  | [] => []
  | cp :: cps' => if isWhite cp then dropWhite cps' else cps
  end.
Definition trimCodePoints (cps : list Z) : list Z :=
  reverse (dropWhite (reverse (dropWhite cps))).
Definition trim (s : string) : string := fromCodePoints (trimCodePoints (codePoints s)).
(** [s.trim() === ""] *)
Definition blank (s : string) : bool := String.eqb (trim s) EmptyString.

Lemma dropWhite_nil cps : dropWhite cps = [] ↔ Forall (λ c, isWhite c = true) cps.
Proof.
  induction cps as [|c cps IH]; simpl; [done|].
  rewrite Forall_cons. destruct (isWhite c); [tauto|]. by split; [|intros []].
Qed.
Lemma fromCodePoints_nil cps : fromCodePoints cps = EmptyString ↔ cps = [].
Proof.
  split; [|by intros ->]. unfold fromCodePoints.
  destruct cps as [|c cps]; [done|]. cbn [fmap list_fmap concat].
  unfold utf8. by repeat case_match.
Qed.
Lemma blank_spec s : blank s = true ↔ Forall (λ c, isWhite c = true) (codePoints s).
Proof.
  unfold blank, trim, trimCodePoints. rewrite String.eqb_eq, fromCodePoints_nil.
  rewrite <- dropWhite_nil. split.
  - intros H. apply (f_equal reverse) in H. rewrite reverse_involutive in H. simpl in H.
    apply dropWhite_nil in H.
    destruct (dropWhite (codePoints s)) as [|c l] eqn:Hd; [done|exfalso].
    assert (isWhite c = false) as Hc.
    { clear H. revert Hd. induction (codePoints s) as [|a m IH]; simpl; [done|].
      destruct (isWhite a) eqn:Ha; [auto|]. intros; simplify_eq. done. }
    rewrite Forall_forall in H. specialize (H c).
    rewrite H in Hc; [done|]. rewrite elem_of_reverse. set_solver.
  - intros ->. done.
Qed.

(** * Lexicographic order *)
Fixpoint lex (x y : list Z) : comparison :=
  match x, y with
  | [], [] => Eq
  | [], _ :: _ => Lt
  | _ :: _, [] => Gt
  | a :: x', b :: y' => match a ?= b with Eq => lex x' y' | c => c end
  end.

Lemma lex_Eq x y : lex x y = Eq ↔ x = y.
Proof.
  revert y; induction x as [|a x IH]; intros [|b y]; simpl; try done.
  destruct (Z.compare_spec a b) as [->|H|H].
  - rewrite IH. split; [by intros ->|by intros [=]].
  - split; [done|]. intros [= -> ->]. lia.
  - split; [done|]. intros [= -> ->]. lia.
Qed.
Lemma lex_antisym x y : lex y x = CompOpp (lex x y).
Proof.
  revert y; induction x as [|a x IH]; intros [|b y]; simpl; try done.
  rewrite Z.compare_antisym. destruct (a ?= b); simpl; auto.
Qed.
Lemma lex_trans x y z : lex x y = Lt → lex y z = Lt → lex x z = Lt.
Proof.
  revert y z; induction x as [|a x IH]; intros [|b y] [|c z]; simpl; try done.
  destruct (Z.compare_spec a b), (Z.compare_spec b c), (Z.compare_spec a c);
    subst; try done; try lia; eauto.
Qed.
Lemma lex_app l x y : lex (l ++ x) (l ++ y) = lex x y.
Proof. induction l as [|a l IH]; simpl; [done|]. by rewrite Z.compare_refl. Qed.

Ltac lex_cases :=
  repeat match goal with
    |- context [match ?a ?= ?b with _ => _ end] => destruct (Z.compare_spec a b); try lia
    end; try done.
Lemma lex_utf8_Lt a b x y : codePoint a → codePoint b → a < b →
  lex (utf8 a ++ x) (utf8 b ++ y) = Lt.
Proof.
  unfold codePoint, MAX_CODE_POINT, utf8. intros Ha Hb Hab.
  repeat case_match; rewrite ?Z.ltb_lt, ?Z.ltb_ge in *; try lia; cbn [app lex];
    lex_cases; Z.to_euclidean_division_equations; lia.
Qed.
(** The order of UTF-8 bytes is the order of code points. *)
Lemma lex_utf8 x y : Forall codePoint x → Forall codePoint y →
  lex (concat (utf8 <$> x)) (concat (utf8 <$> y)) = lex x y.
Proof.
  intros Hx; revert y; induction Hx as [|a x Ha _ IH]; intros y Hy.
  { destruct Hy as [|b y]; [done|]. cbn. unfold utf8. by repeat case_match. }
  destruct Hy as [|b y Hb Hy].
  { cbn. unfold utf8. by repeat case_match. }
  cbn [fmap list_fmap concat lex].
  destruct (Z.compare_spec a b) as [->|?|?].
  - rewrite lex_app. auto.
  - by apply lex_utf8_Lt.
  - rewrite lex_antisym, lex_utf8_Lt; done.
Qed.
