(* ===== verification/Dates.v ===== *)
(** The calendar of ECMAScript dates, as far as the packages use it.

    A time value counts milliseconds from 1970-01-01T00:00:00Z.  [dayFromYear]
    and the month table are those of the language specification; [makeTime] is
    what [setUTCFullYear]/[setUTCHours] compute from in-range fields and
    [toISOString] prints a time value. *)
From S2P Require Import Prelude Text.
Open Scope Z_scope.

Definition MS_PER_DAY : Z := 86400000.

Definition leapYear (year : Z) : bool :=
  (year mod 4 =? 0) && (negb (year mod 100 =? 0) || (year mod 400 =? 0)).

(** The day number of January 1st of [year]. *)
Definition dayFromYear (year : Z) : Z :=
  365 * (year - 1970) + (year - 1969) / 4 - (year - 1901) / 100 + (year - 1601) / 400.

(** Days of the year before month [month] (1 to 12). *)
Definition monthStart (leap : bool) (month : Z) : Z :=
  let k := if leap then 1 else 0 in
  match month with
  | 1 => 0 | 2 => 31 | 3 => 59 + k | 4 => 90 + k | 5 => 120 + k | 6 => 151 + k
  | 7 => 181 + k | 8 => 212 + k | 9 => 243 + k | 10 => 273 + k | 11 => 304 + k
  | _ => 334 + k
  end.
Definition monthDays (leap : bool) (month : Z) : Z :=
  match month with
  | 2 => if leap then 29 else 28
  | 4 | 6 | 9 | 11 => 30
  | _ => 31
  end.

Definition makeDay (year month day : Z) : Z :=
  dayFromYear year + monthStart (leapYear year) month + (day - 1).
Definition makeTime (year month day hour minute second millis : Z) : Z :=
  makeDay year month day * MS_PER_DAY
  + hour * 3600000 + minute * 60000 + second * 1000 + millis.

(** The year a day number falls in: an estimate, corrected by at most one. *)
Definition yearFromDay (day : Z) : Z :=
  let year := day * 400 / 146097 + 1970 in
  if dayFromYear (year + 1) <=? day then year + 1
  else if day <? dayFromYear year then year - 1 else year.
Definition monthFromDay (leap : bool) (within : Z) : Z :=
  if within <? monthStart leap 2 then 1 else if within <? monthStart leap 3 then 2
  else if within <? monthStart leap 4 then 3 else if within <? monthStart leap 5 then 4
  else if within <? monthStart leap 6 then 5 else if within <? monthStart leap 7 then 6
  else if within <? monthStart leap 8 then 7 else if within <? monthStart leap 9 then 8
  else if within <? monthStart leap 10 then 9 else if within <? monthStart leap 11 then 10
  else if within <? monthStart leap 12 then 11 else 12.

Record civil := Civil {
  civil_year : Z; civil_month : Z; civil_day : Z;
  civil_hour : Z; civil_minute : Z; civil_second : Z; civil_millis : Z }.

Definition civilOf (time : Z) : civil :=
  let day := time / MS_PER_DAY in
  let rest := time mod MS_PER_DAY in
  let year := yearFromDay day in
  let leap := leapYear year in
  let within := day - dayFromYear year in
  let month := monthFromDay leap within in
  Civil year month (within - monthStart leap month + 1)
    (rest / 3600000) (rest / 60000 mod 60) (rest / 1000 mod 60) (rest mod 1000).

(** Decimal digits of [n], left-padded with zeros to [width]. *)
Fixpoint digits (width : nat) (n : Z) : string :=
  match width with
  | O => EmptyString
  | S w => digits w (n / 10) +:+ String (char (48 + n mod 10)) EmptyString
  end.

(** [Date.prototype.toISOString]: four-digit years plain, others signed with six. *)
Definition isoYear (year : Z) : string :=
  if (0 <=? year) && (year <=? 9999) then digits 4 year
  else if year <? 0 then "-" +:+ digits 6 (- year) else "+" +:+ digits 6 year.
Definition toISOString (time : Z) : string :=
  let c := civilOf time in
  isoYear (civil_year c) +:+ "-" +:+ digits 2 (civil_month c) +:+ "-" +:+ digits 2 (civil_day c)
  +:+ "T" +:+ digits 2 (civil_hour c) +:+ ":" +:+ digits 2 (civil_minute c) +:+ ":"
  +:+ digits 2 (civil_second c) +:+ "." +:+ digits 3 (civil_millis c) +:+ "Z".

Example iso_epoch : toISOString 0 = "1970-01-01T00:00:00.000Z".
Proof. reflexivity. Qed.
Example iso_before : toISOString (-1) = "1969-12-31T23:59:59.999Z".
Proof. reflexivity. Qed.
Example iso_2000 : toISOString 951827696789 = "2000-02-29T12:34:56.789Z".
Proof. reflexivity. Qed.

(** ** The calendar is consistent *)
Lemma dayFromYear_succ year :
  dayFromYear (year + 1) = dayFromYear year + 365 + (if leapYear year then 1 else 0).
Proof.
  unfold dayFromYear, leapYear.
  destruct (year mod 4 =? 0) eqn:H4, (year mod 100 =? 0) eqn:H100, (year mod 400 =? 0) eqn:H400;
    rewrite ?Z.eqb_eq, ?Z.eqb_neq in *; cbn [andb orb negb];
    Z.to_euclidean_division_equations; lia.
Qed.
Lemma yearFromDay_spec day :
  dayFromYear (yearFromDay day) ≤ day < dayFromYear (yearFromDay day + 1).
Proof.
  unfold yearFromDay. set (y := day * 400 / 146097 + 1970).
  assert (146097 * (y - 1970) ≤ day * 400 < 146097 * (y - 1969)) as Hy.
  { subst y. Z.to_euclidean_division_equations; lia. }
  clearbody y.
  destruct (dayFromYear (y + 1) <=? day) eqn:H1;
    [|destruct (day <? dayFromYear y) eqn:H2];
    rewrite ?Z.leb_le, ?Z.leb_gt, ?Z.ltb_lt, ?Z.ltb_ge in *; unfold dayFromYear in *;
    Z.to_euclidean_division_equations; lia.
Qed.

Definition validCivil (c : civil) : Prop :=
  1 ≤ civil_month c ≤ 12 ∧
  1 ≤ civil_day c ≤ monthDays (leapYear (civil_year c)) (civil_month c) ∧
  0 ≤ civil_hour c < 24 ∧ 0 ≤ civil_minute c < 60 ∧
  0 ≤ civil_second c < 60 ∧ 0 ≤ civil_millis c < 1000.
Definition timeOf (c : civil) : Z :=
  makeTime (civil_year c) (civil_month c) (civil_day c)
    (civil_hour c) (civil_minute c) (civil_second c) (civil_millis c).

Lemma month_cases m : 1 ≤ m ≤ 12 →
  m = 1 ∨ m = 2 ∨ m = 3 ∨ m = 4 ∨ m = 5 ∨ m = 6 ∨ m = 7 ∨ m = 8 ∨ m = 9 ∨ m = 10
  ∨ m = 11 ∨ m = 12.
Proof. lia. Qed.
Lemma monthFromDay_spec (leap : bool) within : 0 ≤ within < 365 + (if leap then 1 else 0) →
  let m := monthFromDay leap within in
  1 ≤ m ≤ 12 ∧ monthStart leap m ≤ within < monthStart leap m + monthDays leap m.
Proof.
  intros H. unfold monthFromDay.
  destruct leap; cbn [monthStart] in *;
    repeat case_match; rewrite ?Z.ltb_lt, ?Z.ltb_ge in *; cbn; lia.
Qed.
Lemma monthFromDay_start leap m d : 1 ≤ m ≤ 12 → 1 ≤ d ≤ monthDays leap m →
  monthFromDay leap (monthStart leap m + (d - 1)) = m.
Proof.
  intros Hm Hd. unfold monthFromDay.
  destruct (month_cases m Hm) as [->|[->|[->|[->|[->|[->|[->|[->|[->|[->|[->| ->]]]]]]]]]]];
    destruct leap; cbn [monthStart monthDays] in *;
    repeat case_match; rewrite ?Z.ltb_lt, ?Z.ltb_ge in *; lia.
Qed.
Lemma monthStart_bound (leap : bool) m d : 1 ≤ m ≤ 12 → 1 ≤ d ≤ monthDays leap m →
  0 ≤ monthStart leap m + (d - 1) < 365 + (if leap then 1 else 0).
Proof.
  intros Hm Hd.
  destruct (month_cases m Hm) as [->|[->|[->|[->|[->|[->|[->|[->|[->|[->|[->| ->]]]]]]]]]]];
    destruct leap; cbn [monthStart monthDays] in *; lia.
Qed.

Lemma dayFromYear_mono y k : 0 ≤ k → dayFromYear y ≤ dayFromYear (y + k).
Proof. unfold dayFromYear. Z.to_euclidean_division_equations; lia. Qed.
Lemma yearFromDay_unique y day :
  dayFromYear y ≤ day < dayFromYear (y + 1) → yearFromDay day = y.
Proof.
  intros H. pose proof (yearFromDay_spec day) as H'.
  set (z := yearFromDay day) in *. clearbody z.
  destruct (Z.lt_trichotomy z y) as [Hlt|[?|Hlt]]; [exfalso|done|exfalso].
  - pose proof (dayFromYear_mono (z + 1) (y - (z + 1)) ltac:(lia)) as Hm.
    replace (z + 1 + (y - (z + 1))) with y in Hm by lia. lia.
  - pose proof (dayFromYear_mono (y + 1) (z - (y + 1)) ltac:(lia)) as Hm.
    replace (y + 1 + (z - (y + 1))) with z in Hm by lia. lia.
Qed.

Lemma civilOf_valid t : validCivil (civilOf t).
Proof.
  unfold validCivil, civilOf, MS_PER_DAY. cbn.
  set (d := t / 86400000). set (y := yearFromDay d).
  pose proof (yearFromDay_spec d) as Hy. fold y in Hy.
  pose proof (dayFromYear_succ y) as Hs.
  pose proof (monthFromDay_spec (leapYear y) (d - dayFromYear y) ltac:(lia)) as Hm.
  cbn in Hm.
  repeat split; try lia; Z.to_euclidean_division_equations; lia.
Qed.
Lemma timeOf_civilOf t : timeOf (civilOf t) = t.
Proof.
  unfold timeOf, makeTime, makeDay, civilOf, MS_PER_DAY. cbn [civil_year civil_month
    civil_day civil_hour civil_minute civil_second civil_millis].
  Z.to_euclidean_division_equations; lia.
Qed.
Lemma civilOf_timeOf c : validCivil c → civilOf (timeOf c) = c.
Proof.
  destruct c as [y m d h mi s ms]. unfold validCivil, timeOf, makeTime; cbn.
  intros (Hm & Hd & Hh & Hmi & Hs & Hms).
  set (day := makeDay y m d).
  set (rest := h * 3600000 + mi * 60000 + s * 1000 + ms).
  assert (day * MS_PER_DAY + h * 3600000 + mi * 60000 + s * 1000 + ms
          = rest + day * MS_PER_DAY) as -> by (subst rest; lia).
  assert (0 ≤ rest < MS_PER_DAY) as Hr by (subst rest; unfold MS_PER_DAY; lia).
  unfold civilOf. rewrite Z.div_add, Z.mod_add by (unfold MS_PER_DAY; lia).
  rewrite Z.div_small, Z.mod_small, Z.add_0_l by done.
  assert (yearFromDay day = y) as ->.
  { apply yearFromDay_unique. rewrite dayFromYear_succ. unfold day, makeDay.
    pose proof (monthStart_bound _ _ _ Hm Hd). lia. }
  replace (day - dayFromYear y) with (monthStart (leapYear y) m + (d - 1))
    by (subst day; unfold makeDay; lia).
  rewrite monthFromDay_start by done. subst rest.
  f_equal; Z.to_euclidean_division_equations; lia.
Qed.

(** A time value is determined by its valid fields. *)
Lemma timeOf_inj c c' : validCivil c → validCivil c' → timeOf c = timeOf c' → c = c'.
Proof. intros H H' E. by rewrite <- (civilOf_timeOf c), E, civilOf_timeOf. Qed.
