(* ===== verification/Json.v ===== *)
(** [JSON.stringify], as the packages use it.

    [quote] prints a string literal and [unquote] reads one back; the round
    trip makes the texts the packages compare as keys ([pairId],
    [canonicalJson]) faithful.  [serialize] prints a value through a replacer
    that either changes a leaf or throws. *)
From S2P Require Import Prelude Text Dates.
From Stdlib Require Import Ascii.
Open Scope Z_scope.

(** * String literals *)
Definition QUOTE : ascii := char 34.
Definition BACKSLASH : ascii := char 92.
Definition hexDigit (n : Z) : ascii := if n <? 10 then char (48 + n) else char (87 + n).
Definition hexValue (c : ascii) : option Z :=
  let b := byte c in
  if (48 <=? b) && (b <=? 57) then Some (b - 48)
  else if (97 <=? b) && (b <=? 102) then Some (b - 87)
  else if (65 <=? b) && (b <=? 70) then Some (b - 55) else None.
(** [\uXXXX] *)
Definition unicodeEscape (cp : Z) (rest : string) : string :=
  String BACKSLASH (String "u" (String (hexDigit (cp / 4096)) (String (hexDigit (cp / 256 mod 16))
    (String (hexDigit (cp / 16 mod 16)) (String (hexDigit (cp mod 16)) rest))))).
Definition escapeByte (c : ascii) (rest : string) : string :=
  let b := byte c in
  if b =? 34 then String BACKSLASH (String QUOTE rest)
  else if b =? 92 then String BACKSLASH (String BACKSLASH rest)
  else if b =? 8 then String BACKSLASH (String "b" rest)
  else if b =? 12 then String BACKSLASH (String "f" rest)
  else if b =? 10 then String BACKSLASH (String "n" rest)
  else if b =? 13 then String BACKSLASH (String "r" rest)
  else if b =? 9 then String BACKSLASH (String "t" rest)
  else if b <? 32 then unicodeEscape b rest
  else String c rest.
(** The bytes of an unpaired surrogate, U+D800 to U+DFFF. *)
Definition surrogate (c c1 c2 : ascii) : bool :=
  (byte c =? 0xED) && (0xA0 <=? byte c1) && (byte c1 <=? 0xBF)
  && (0x80 <=? byte c2) && (byte c2 <=? 0xBF).
Definition surrogateValue (c1 c2 : ascii) : Z :=
  0xD000 + (byte c1 - 0x80) * 64 + (byte c2 - 0x80).
Fixpoint escape (s rest : string) : string :=
  match s with
  | EmptyString => rest
  | String c s1 =>
      match s1 with
      | String c1 (String c2 s2) =>
          if surrogate c c1 c2 then unicodeEscape (surrogateValue c1 c2) (escape s2 rest)
          else escapeByte c (escape s1 rest)
      | _ => escapeByte c (escape s1 rest)
      end
  end.
(** [JSON.stringify] of a string, followed by [rest]. *)
Definition quoteThen (s rest : string) : string :=
  String QUOTE (escape s (String QUOTE rest)).
Definition quote (s : string) : string := quoteThen s EmptyString.

(** Read a literal's contents up to its closing quote: the string and what follows. *)
Fixpoint unescape (t : string) : option (string * string) :=
  match t with
  | EmptyString => None
  | String c t1 =>
      if byte c =? 34 then Some (EmptyString, t1)
      else if byte c =? 92 then
        match t1 with
        | String e t2 =>
            let one (b : Z) :=
              match unescape t2 with Some (s, r) => Some (String (char b) s, r) | None => None end in
            if byte e =? 117 then
              match t2 with
              | String a (String b (String c' (String d t3))) =>
                  match hexValue a, hexValue b, hexValue c', hexValue d, unescape t3 with
                  | Some a, Some b, Some c', Some d, Some (s, r) =>
                      Some (of_bytes (utf8 (a * 4096 + b * 256 + c' * 16 + d)) +:+ s, r)
                  | _, _, _, _, _ => None
                  end
              | _ => None
              end
            else if byte e =? 98 then one 8 else if byte e =? 102 then one 12
            else if byte e =? 110 then one 10 else if byte e =? 114 then one 13
            else if byte e =? 116 then one 9
            else if byte e =? 34 then one 34 else if byte e =? 92 then one 92
            else if byte e =? 47 then one 47 else None
        | EmptyString => None
        end
      else if byte c <? 32 then None
      else match unescape t1 with Some (s, r) => Some (String c s, r) | None => None end
  end.
Definition unquote (t : string) : option (string * string) :=
  match t with
  | String c t1 => if byte c =? 34 then unescape t1 else None
  | EmptyString => None
  end.

Lemma all_bytes (P : ascii → Prop) : (∀ z, 0 ≤ z < 256 → P (char z)) → ∀ c, P c.
Proof. intros H c. rewrite <- (char_byte c). apply H, byte_bound. Qed.

Lemma unescape_escapeByte c t s r :
  unescape t = Some (s, r) → unescape (escapeByte c t) = Some (String c s, r).
Proof.
  intros H. destruct c as [[] [] [] [] [] [] [] []]; simpl; rewrite H; reflexivity.
Qed.

Definition surrogate_ok (c1 c2 : ascii) : bool :=
  let cp := surrogateValue c1 c2 in
  match hexValue (hexDigit (cp / 4096)), hexValue (hexDigit (cp / 256 mod 16)),
        hexValue (hexDigit (cp / 16 mod 16)), hexValue (hexDigit (cp mod 16)) with
  | Some a, Some b, Some c, Some d =>
      String.eqb (of_bytes (utf8 (a * 4096 + b * 256 + c * 16 + d)))
        (String (char 0xED) (String c1 (String c2 EmptyString)))
  | _, _, _, _ => false
  end.
Definition range (from : Z) (n : nat) : list Z := (λ k, from + Z.of_nat k) <$> seq 0 n.
Lemma elem_of_range z from n : from ≤ z < from + Z.of_nat n → z ∈ range from n.
Proof.
  intros H. apply list_elem_of_fmap. exists (Z.to_nat (z - from)). split; [lia|].
  apply elem_of_seq. lia.
Qed.
Lemma surrogate_ok_table :
  forallb (λ a, forallb (λ b, surrogate_ok (char a) (char b)) (range 128 64)) (range 160 32) = true.
Proof. vm_compute. reflexivity. Qed.
Lemma surrogate_ok_all c c1 c2 : surrogate c c1 c2 = true → surrogate_ok c1 c2 = true.
Proof.
  unfold surrogate. rewrite !andb_true_iff, !Z.leb_le. intros [[[[_ ?] ?] ?] ?].
  pose proof surrogate_ok_table as Ht. rewrite forallb_forall in Ht.
  specialize (Ht (byte c1)). rewrite char_byte, forallb_forall in Ht.
  specialize (Ht ltac:(apply list_elem_of_In, elem_of_range; lia) (byte c2)).
  rewrite char_byte in Ht. apply Ht, list_elem_of_In, elem_of_range; lia.
Qed.
Lemma string_app_cons c s t : String c s +:+ t = String c (s +:+ t).
Proof. reflexivity. Qed.
Lemma string_app_assoc (s t u : string) : (s +:+ t) +:+ u = s +:+ (t +:+ u).
Proof. induction s as [|c s IH]; [done|]. by rewrite !string_app_cons, IH. Qed.
Lemma unescape_surrogate c c1 c2 t s r : surrogate c c1 c2 = true →
  unescape t = Some (s, r) →
  unescape (unicodeEscape (surrogateValue c1 c2) t) = Some (String c (String c1 (String c2 s)), r).
Proof.
  intros Hs Ht. pose proof (surrogate_ok_all _ _ _ Hs) as Hok.
  assert (c = char 0xED) as ->.
  { unfold surrogate in Hs. rewrite !andb_true_iff, Z.eqb_eq in Hs.
    destruct Hs as [[[[Hc _] _] _] _]. by rewrite <- (char_byte c), Hc. }
  unfold surrogate_ok in Hok. unfold unicodeEscape.
  cbn [unescape]. change (byte BACKSLASH =? 34) with false.
  change (byte BACKSLASH =? 92) with true. change (byte "u" =? 117) with true. cbv iota.
  repeat match type of Hok with
    context [hexValue ?x] => destruct (hexValue x); [|discriminate Hok]
    end.
  rewrite Ht. cbv iota.
  apply String.eqb_eq in Hok. rewrite Hok. reflexivity.
Qed.
Lemma unescape_escape s rest :
  unescape (escape s (String QUOTE rest)) = Some (s, rest).
Proof.
  induction s as [s IH] using (induction_ltof1 _ String.length); unfold ltof in IH.
  destruct s as [|c [|c1 [|c2 s2]]]; cbn [escape]; [done|..].
  - by apply unescape_escapeByte.
  - apply unescape_escapeByte. apply (IH (String c1 EmptyString)). simpl; lia.
  - destruct (surrogate c c1 c2) eqn:Hs.
    + apply unescape_surrogate; [done|]. apply IH. simpl; lia.
    + apply unescape_escapeByte. apply (IH (String c1 (String c2 s2))). simpl; lia.
Qed.
(** [JSON.parse(JSON.stringify(s)) === s], with whatever follows left over. *)
Lemma unquote_quote s rest : unquote (quoteThen s rest) = Some (s, rest).
Proof. unfold unquote, quoteThen. change (byte QUOTE =? 34) with true. apply unescape_escape. Qed.
Lemma quoteThen_inj s s' r r' : quoteThen s r = quoteThen s' r' → s = s' ∧ r = r'.
Proof.
  intros H. pose proof (unquote_quote s r) as E. rewrite H, unquote_quote in E. by simplify_eq.
Qed.
Lemma quote_inj s s' : quote s = quote s' → s = s'.
Proof. intros H. by apply quoteThen_inj in H as [-> _]. Qed.
Lemma escape_app s r t : escape s r +:+ t = escape s (r +:+ t).
Proof.
  induction s as [s IH] using (induction_ltof1 _ String.length); unfold ltof in IH.
  assert (∀ c r, escapeByte c r +:+ t = escapeByte c (r +:+ t)) as Hb.
  { intros c r0. unfold escapeByte, unicodeEscape. by repeat case_match. }
  destruct s as [|c [|c1 [|c2 s2]]]; cbn [escape]; [done|..].
  - apply Hb.
  - rewrite Hb. f_equal. apply (IH (String c1 EmptyString)). simpl; lia.
  - destruct (surrogate c c1 c2).
    + unfold unicodeEscape. rewrite !string_app_cons, IH; [done|]. simpl; lia.
    + rewrite Hb. f_equal. apply (IH (String c1 (String c2 s2))). simpl; lia.
Qed.
Lemma quoteThen_app s r : quoteThen s r = quote s +:+ r.
Proof. unfold quote, quoteThen. rewrite string_app_cons, escape_app. done. Qed.

(** * [JSON.stringify] *)
Definition numberText (n : number) : string :=
  match n with NInt z => pretty z | NFrac text => text | NInf _ | NNaN => "null" end.
Definition leafText (v : value) : result (option string) :=
  match v with
  | VNull => Ok (Some "null")
  | VBool b => Ok (Some (if b then "true" else "false"))
  | VNum n => Ok (Some (numberText n))
  | VStr s => Ok (Some (quote s))
  | VBig _ => Throw (TypeError "Do not know how to serialize a BigInt")
  | _ => Ok None
  end.
Definition member (key text : string) : string := quote key +:+ ":" +:+ text.

(** [String(v)]: the texts of a Date and of a function are left empty. *)
Fixpoint toText (v : value) : string :=
  match v with
  | VUndef => "undefined"
  | VNull => "null"
  | VBool b => if b then "true" else "false"
  | VNum (NInf neg) => if neg then "-Infinity" else "Infinity"
  | VNum NNaN => "NaN"
  | VNum n => numberText n
  | VBig z => pretty z
  | VStr s => s
  | VArr l => String.concat "," ((λ x, if nullish x then EmptyString else toText x) <$> l)
  | VObj _ => "[object Object]"
  | VDate _ | VFun _ => EmptyString
  end.

Section serialize.
(** Called with every item after its [toJSON]; it answers an object unchanged. *)
Variable replacer : value → result value.

Fixpoint serialize (v : value) : result (option string) :=
  match v with
  | VArr items =>
      _ ← replacer v;
      parts ← (fix go l := match l with
        | [] => Ok []
        | x :: l' => text ← serialize x; texts ← go l'; Ok (default "null" text :: texts)
        end) items;
      Ok (Some ("[" +:+ String.concat "," parts +:+ "]"))
  | VObj fields =>
      _ ← replacer v;
      parts ← (fix go l := match l with
        | [] => Ok []
        | (key, x) :: l' =>
            text ← serialize x; texts ← go l';
            Ok (match text with Some text => member key text :: texts | None => texts end)
        end) fields;
      Ok (Some ("{" +:+ String.concat "," parts +:+ "}"))
  | VDate millis =>
      item ← replacer (match millis with Some t => VStr (toISOString t) | None => VNull end);
      leafText item
  | _ => item ← replacer v; leafText item
  end.
End serialize.

(** [JSON.stringify(v)] without a replacer. *)
Definition stringify (v : value) : result (option string) := serialize Ok v.

Example stringify_ex :
  stringify (VObj [("a", VArr [VUndef; VNum (NInt 1); VNum NNaN]); ("b", VUndef)])
  = Ok (Some ("{" +:+ member "a" "[null,1,null]" +:+ "}")).
Proof. vm_compute. reflexivity. Qed.

(** * [JSON.parse]

    A numeral with a fraction or an exponent is kept by its text. *)
Definition isDigit (c : ascii) : bool := (48 <=? byte c) && (byte c <=? 57).
Definition jsonSpace (c : ascii) : bool :=
  (byte c =? 32) || (byte c =? 9) || (byte c =? 10) || (byte c =? 13).
Fixpoint skipSpace (t : string) : string :=
  match t with String c t' => if jsonSpace c then skipSpace t' else t | EmptyString => t end.
(** The longest prefix of characters satisfying [p], and the rest. *)
Fixpoint spanString (p : ascii → bool) (t : string) : string * string :=
  match t with
  | String c t' => if p c then let '(a, r) := spanString p t' in (String c a, r) else (EmptyString, t)
  | EmptyString => (EmptyString, t)
  end.
Fixpoint digitsValue (acc : Z) (t : string) : Z :=
  match t with String c t' => digitsValue (acc * 10 + (byte c - 48)) t' | EmptyString => acc end.
Definition numeralChar (c : ascii) : bool :=
  isDigit c || (byte c =? 46) || (byte c =? 101) || (byte c =? 69) || (byte c =? 43) || (byte c =? 45).
Definition parseNumeral (t : string) : option number :=
  let '(sign, body) :=
    match t with String "-" t' => (-1, t') | _ => (1, t) end in
  let '(whole, tail) := spanString isDigit body in
  match whole, tail with
  | EmptyString, _ => None
  | String "0" (String _ _), _ => None
  | _, EmptyString => Some (NInt (sign * digitsValue 0 whole))
  | _, _ => Some (NFrac t)
  end.
Definition literal (word : string) (v : value) (t : string) : option (value * string) :=
  if String.prefix word t
  then Some (v, String.substring (String.length word) (String.length t - String.length word) t)
  else None.

Fixpoint parseValue (fuel : nat) (t : string) : option (value * string) :=
  match fuel with
  | O => None
  | S fuel =>
      match skipSpace t with
      | EmptyString => None
      | String c t1 as t0 =>
          if byte c =? 34 then
            match unescape t1 with Some (s, r) => Some (VStr s, r) | None => None end
          else if byte c =? 91 then
            match skipSpace t1 with
            | String "]" r => Some (VArr [], r)
            | _ => match parseItems fuel t1 with Some (l, r) => Some (VArr l, r) | None => None end
            end
          else if byte c =? 123 then
            match skipSpace t1 with
            | String "}" r => Some (VObj [], r)
            | _ => match parseMembers fuel [] t1 with Some (l, r) => Some (VObj l, r) | None => None end
            end
          else if byte c =? 116 then literal "true" (VBool true) t0
          else if byte c =? 102 then literal "false" (VBool false) t0
          else if byte c =? 110 then literal "null" VNull t0
          else
            let '(text, r) := spanString numeralChar t0 in
            match parseNumeral text with Some n => Some (VNum n, r) | None => None end
      end
  end
with parseItems (fuel : nat) (t : string) : option (list value * string) :=
  match fuel with
  | O => None
  | S fuel =>
      match parseValue fuel t with
      | None => None
      | Some (v, r) =>
          match skipSpace r with
          | String "," r' =>
              match parseItems fuel r' with Some (l, r2) => Some (v :: l, r2) | None => None end
          | String "]" r' => Some ([v], r')
          | _ => None
          end
      end
  end
with parseMembers (fuel : nat) (done : list (string * value)) (t : string)
  : option (list (string * value) * string) :=
  match fuel with
  | O => None
  | S fuel =>
      match unquote (skipSpace t) with
      | None => None
      | Some (key, r) =>
          match skipSpace r with
          | String ":" r1 =>
              match parseValue fuel r1 with
              | None => None
              | Some (v, r2) =>
                  match skipSpace r2 with
                  | String "," r3 => parseMembers fuel (setField key v done) r3
                  | String "}" r3 => Some (setField key v done, r3)
                  | _ => None
                  end
              end
          | _ => None
          end
      end
  end.
(** Every call consumes a character or leaves a container: twice the length is enough. *)
Definition parse (t : string) : result value :=
  match parseValue (2 * String.length t + 2) t with
  | Some (v, r) =>
      match skipSpace r with
      | EmptyString => Ok v
      | _ => Throw (TypeError "SyntaxError")
      end
  | None => Throw (TypeError "SyntaxError")
  end.

(** [Number(value)]: a text is read as PostgreSQL prints a bigint; any other text is NaN. *)
Definition toNumber (v : value) : number :=
  match v with
  | VNum n => n
  | VBig z => NInt z
  | VNull => NInt 0
  | VBool b => NInt (if b then 1 else 0)
  | VStr s => match parseNumeral s with Some (NInt z) => NInt z | _ => NNaN end
  | VDate (Some t) => NInt t
  | _ => NNaN
  end.

Example parse_ex : parse ("{" +:+ member "a" "[null, -12,true ]" +:+ "}")
  = Ok (VObj [("a", VArr [VNull; VNum (NInt (-12)); VBool true])]).
Proof. vm_compute. reflexivity. Qed.
