(* ===== verification/Diagnostics.v ===== *)
(** Performance records: [backend/server/api/diagnostics.mts].

    Instrumented code is a [prog]: its own steps on a state [S], and the calls the
    packages make on [Diagnostics].  The asynchronous context is the argument
    [AsyncLocalStorage] passes down implicitly; a native callback runs outside it.
    The receiver and the clock are parameters with a state [Q] of their own. *)
From S2P Require Import Prelude Text Json.
Open Scope Z_scope.
Open Scope axton_scope.

Inductive record_kind := KSpan | KEvent | KLoss | KClock.
(** [AxtonTraceRecord]; [schemaVersion] is 1. *)
Record trace_record := TraceRecord {
  r_kind : record_kind; r_name : string; r_source : string; r_clockDomain : string;
  r_spanId : option string; r_parent : option string;
  r_startUs : Z; r_durationUs : option Z;
  r_attributes : list (string * value) }.
(** What the storage holds while a span runs. *)
Record span_context := SpanContext { c_span : string; c_operation : string }.
(** [`${++this.next}`] *)
Definition idText (n : nat) : string := pretty (Z.of_nat n).

Section diagnostics.
Context {S Q : Type}.
(** [receiver.record], which may throw, where there is a receiver. *)
Variable receiver : option (trace_record → Q → result unit * Q).
(** [process.hrtime.bigint()] *)
Variable hrtime : Q → Z * Q.
Variable clockDomain : string.
Variable processName : string.                   (* [`node:${process.pid}`] *)

Record tracing := Tracing { next : nat; origin : Z; outside : Q }.
Definition traced (A : Type) : Type := option span_context → io (tracing * S) A.
Definition set_outside (q : Q) (t : tracing) : tracing := Tracing (next t) (origin t) q.

Definition deliver (f : trace_record → Q → result unit * Q) (r : trace_record) (t : tracing) : tracing :=
  set_outside (f r (outside t)).2 t.
(** [record] *)
Definition record (r : trace_record) (t : tracing) : tracing :=
  match receiver with None => t | Some f => deliver f r t end.
Definition readClock (t : tracing) : Z * tracing := let '(z, q) := hrtime (outside t) in (z, set_outside q t).
(** The constructor *)
Definition newDiagnostics (q : Q) : tracing :=
  let '(origin, q) := hrtime q in
  match receiver with
  | None => Tracing 0 origin q
  | Some _ =>
      let offset := Z.quot origin 1000 in
      record (TraceRecord KClock "clock.origin" "node" clockDomain None None 0 None
        [("referenceClockDomain", VStr processName); ("offsetLowerUs", VNum (NInt offset));
         ("offsetUpperUs", VNum (NInt (offset + 1))); ("method", VStr "shared-node-hrtime-origin")])
        (Tracing 0 origin q)
  end.

Definition outcomeText {A} (r : result A) : string := match r with Ok _ => "success" | Throw _ => "error" end.
(** [recordedSpan]; [syncSpan] does the same around a body that answers at once. *)
Definition recordedSpan {A} (name : string) (attributes : list (string * value)) (body : traced A) : traced A :=
  λ parent '(t, s),
    let spanId := idText (Datatypes.S (next t)) in
    let operationId := match parent with
                       | Some p => c_operation p
                       | None => (clockDomain +:+ ":" +:+ spanId)%string
                       end in
    let '(start, t) := readClock (Tracing (Datatypes.S (next t)) (origin t) (outside t)) in
    let '(r, (t, s)) := body (Some (SpanContext spanId operationId)) (t, s) in
    let '(now, t) := readClock t in
    (r, (record (TraceRecord KSpan name "node" clockDomain (Some spanId) (c_span <$> parent)
           (Z.quot (start - origin t) 1000) (Some (Z.quot (now - start) 1000))
           (setField "outcome" (VStr (outcomeText r)) (setField "operationId" (VStr operationId) attributes))) t, s)).
Definition span {A} (name : string) (attributes : list (string * value)) (body : traced A) : traced A :=
  match receiver with None => body | Some _ => recordedSpan name attributes body end.
Definition syncSpan {A} (name : string) (attributes : list (string * value)) (body : traced A) : traced A :=
  match receiver with None => body | Some _ => recordedSpan name attributes body end.
(** [native]: the engine's own records, under the operation in course. *)
Definition withOperation (context : option span_context) (attributes : list (string * value)) : list (string * value) :=
  match context with Some c => setField "operationId" (VStr (c_operation c)) attributes | None => attributes end.
Definition native (records : list trace_record) (dropped : Z) : traced unit := λ context '(t, s),
  let t := foldl (λ t r, record (TraceRecord (r_kind r) (r_name r) (r_source r) (r_clockDomain r)
             (r_spanId r) (r_parent r) (r_startUs r) (r_durationUs r) (withOperation context (r_attributes r))) t)
             t records in
  if dropped =? 0 then (Ok tt, (t, s))
  else
    let '(now, t) := readClock t in
    (Ok tt, (record (TraceRecord KLoss "diagnostics.dropped" "node" clockDomain None None
               (Z.quot (now - origin t) 1000) None
               [("records", VNum (NInt dropped));
                ("operationId", match context with Some c => VStr (c_operation c) | None => VUndef end)]) t, s)).
(** [bind]: the answered function runs in the context of the binding. *)
Definition bind {A} (context : option span_context) (body : traced A) : traced A := λ calling,
  match context with Some c => body (Some c) | None => body calling end.

(** ** Instrumented programs *)
Inductive prog : Type → Type :=
| Do {A} (m : io S A) : prog A
| Bind {A B} (m : prog A) (k : A → prog B) : prog B
| Try {A} (m : prog A) (h : exn → prog A) : prog A
| Span {A} (sync : bool) (name : string) (attributes : list (string * value)) (body : prog A) : prog A
| Native (records : list trace_record) (dropped : Z) : prog unit
| Callback {A} (body : prog A) : prog A.         (* bound here, called by the addon outside any context *)
Fixpoint run {A} (p : prog A) : traced A :=
  match p in prog A return traced A with
  | Do m => λ _ '(t, s), let '(r, s) := m s in (r, (t, s))
  | Bind m k => λ c w, match run m c w with (Ok a, w) => run (k a) c w | (Throw e, w) => (Throw e, w) end
  | Try m h => λ c w, match run m c w with (Ok a, w) => (Ok a, w) | (Throw e, w) => run (h e) c w end
  | Span sync name attributes body => if sync then syncSpan name attributes (run body) else span name attributes (run body)
  | Native records dropped => native records dropped
  | Callback body => λ c, bind c (run body) None
  end.
(** The program without its instrumentation. *)
Fixpoint plain {A} (p : prog A) : io S A :=
  match p in prog A return io S A with
  | Do m => m
  | Bind m k => λ s, match plain m s with (Ok a, s) => plain (k a) s | (Throw e, s) => (Throw e, s) end
  | Try m h => λ s, match plain m s with (Ok a, s) => (Ok a, s) | (Throw e, s) => plain (h e) s end
  | Span _ _ _ body => plain body
  | Native _ _ => λ s, (Ok tt, s)
  | Callback body => plain body
  end.

(** * Theorems *)
Lemma span_either {A} (sync : bool) name attributes (body : traced A) :
  (if sync then syncSpan name attributes body else span name attributes body) = span name attributes body.
Proof. by destruct sync. Qed.

(** C38: observations never decide outcomes.  An instrumented program answers or
    throws what it does without its instrumentation and leaves the same state,
    whether records are collected or not, whatever the receiver throws, in any
    context and on any clock. *)
Theorem diagnostics_transparent {A} (p : prog A) context t s :
  (run p context (t, s)).1 = (plain p s).1 ∧ (run p context (t, s)).2.2 = (plain p s).2.
Proof.
  revert context t s. induction p as [A m|A B m IHm k IHk|A m IHm h IHh|A sync name attributes body IH|records dropped|A body IH];
    intros context t s; cbn [run plain].
  - by destruct (m s).
  - destruct (IHm context t s) as [H1 H2]. destruct (run m context (t, s)) as [r [t1 s1]], (plain m s) as [r' s'].
    cbn in H1, H2. subst. destruct r'; [apply IHk|done].
  - destruct (IHm context t s) as [H1 H2]. destruct (run m context (t, s)) as [r [t1 s1]], (plain m s) as [r' s'].
    cbn in H1, H2. subst. destruct r'; [done|apply IHh].
  - rewrite span_either. unfold span, recordedSpan. destruct receiver as [f|]; [|apply IH]. destruct (readClock _) as [start t1].
    match goal with |- context [run body ?c (t1, s)] => destruct (IH c t1 s) as [H1 H2]; destruct (run body c (t1, s)) as [r [t2 s2]] end.
    by destruct (readClock t2) as [now t3].
  - unfold native. cbv zeta. destruct (dropped =? 0); [done|]. by destruct (readClock _) as [now t1].
  - unfold bind. destruct context; apply IH.
Qed.
End diagnostics.

(** ** The records form a forest

    A receiver that keeps what it is given, whatever it then throws. *)
Definition ownSpan (r : trace_record) : bool :=
  match r_kind r with KSpan => String.eqb (r_source r) "node" | _ => false end.
Definition spanIds (l : list trace_record) : list string := omap (λ r, if ownSpan r then r_spanId r else None) l.
Definition operationOf (r : trace_record) : option value := fieldOf "operationId" (r_attributes r).

Section forest.
Context {S C : Type}.
Variable answers : trace_record → result unit.
Variable tick : C → Z * C.
Variable clockDomain : string.
Abbreviation Q := (list trace_record * C)%type.
Definition collect (r : trace_record) (q : Q) : result unit * Q := (answers r, (q.1 ++ [r], q.2)).
Definition clock (q : Q) : Z * Q := let '(z, c) := tick q.2 in (z, (q.1, c)).
Abbreviation run := (run (S := S) (Some collect) clock clockDomain).
Definition log (t : tracing (Q := Q)) : list trace_record := (outside t).1.

(** The engine's own records come from another source. *)
Fixpoint foreign {A} (p : prog (S := S) A) : Prop :=
  match p with
  | Do _ => True
  | Bind m k => foreign m ∧ ∀ a, foreign (k a)
  | Try m h => foreign m ∧ ∀ e, foreign (h e)
  | Span _ _ _ body | Callback body => foreign body
  | Native records _ => Forall (λ r, r_source r ≠ "node"%string) records
  end.

(** Where a span hangs: under the context it ran in, or under a span that ends
    later, always in one operation; a root starts its own operation. *)
Definition hangs (c : option span_context) (later : list trace_record) (r : trace_record) : Prop :=
  match r_parent r with
  | Some q =>
      (∃ p, c = Some p ∧ q = c_span p ∧ operationOf r = Some (VStr (c_operation p))) ∨
      (∃ r', r' ∈ later ∧ ownSpan r' = true ∧ r_spanId r' = Some q ∧ operationOf r' = operationOf r)
  | None => c = None ∧ ∃ id, r_spanId r = Some id ∧ operationOf r = Some (VStr (clockDomain +:+ ":" +:+ id))
  end.
Record forest (n : nat) (c : option span_context) (l : list trace_record) (m : nat) : Prop := {
  forest_next : (n ≤ m)%nat;
  forest_ids : Forall (λ id, ∃ k, (n < k ≤ m)%nat ∧ id = idText k) (spanIds l);
  forest_distinct : NoDup (spanIds l);
  forest_hangs i r : l !! i = Some r → ownSpan r = true → hangs c (drop (Datatypes.S i) l) r }.

Lemma idText_inj j k : idText j = idText k → j = k.
Proof. unfold idText. intros H%(inj _). lia. Qed.
Lemma spanIds_app l k : spanIds (l ++ k) = spanIds l ++ spanIds k.
Proof. apply omap_app. Qed.
Lemma forest_nil n c : forest n c [] n.
Proof. by split; [|constructor..|]. Qed.
Lemma hangs_more c l k r : hangs c l r → hangs c (l ++ k) r.
Proof.
  unfold hangs. destruct (r_parent r); [|done]. intros [H|(r' & H & ?)]; [by left|right].
  exists r'. rewrite elem_of_app. auto.
Qed.
Lemma forest_app n c l m k m' : forest n c l m → forest m c k m' → forest n c (l ++ k) m'.
Proof.
  intros [H1 H2 H3 H4] [K1 K2 K3 K4]. split; [lia| | |].
  - rewrite spanIds_app. apply Forall_app. split; eapply Forall_impl; try done; cbn;
      intros id (j & Hj & ->); exists j; (split; [lia|done]).
  - rewrite spanIds_app. apply NoDup_app. split_and!; [done| |done]. intros id Hl Hk.
    rewrite Forall_forall in H2, K2. destruct (H2 _ Hl) as (j & Hj & ->), (K2 _ Hk) as (j' & Hj' & Heq).
    apply idText_inj in Heq. lia.
  - intros i r. rewrite lookup_app_Some. intros [Hr|[Hi Hr]] Hs.
    + apply lookup_lt_Some in Hr as Hlt. rewrite drop_app_le by lia. apply hangs_more. by apply H4.
    + rewrite drop_app_ge by lia. replace (Datatypes.S i - length l)%nat with (Datatypes.S (i - length l)) by lia.
      by apply K4.
Qed.
Lemma forest_foreign n c l : Forall (λ r, ownSpan r = false) l → forest n c l n.
Proof.
  intros Hl. assert (spanIds l = []) as He.
  { induction Hl as [|r l Hr Hl IH]; [done|]. unfold spanIds in *. cbn. by rewrite Hr. }
  split; [done|by rewrite He|rewrite He; constructor|]. intros i r Hi Hs.
  rewrite Forall_lookup in Hl. rewrite (Hl _ _ Hi) in Hs. done.
Qed.
Lemma readClock_log t : log (readClock clock t).2 = log t ∧ next (readClock clock t).2 = next t ∧ origin (readClock clock t).2 = origin t.
Proof. unfold readClock, clock, log. destruct (tick _) as [z c]. done. Qed.
Lemma record_log r t : log (record (Some collect) r t) = log t ++ [r] ∧ next (record (Some collect) r t) = next t.
Proof. done. Qed.
(** A span's own record is the root of what ran inside it. *)
Lemma forest_span n c op l m r :
  c_operation <$> c = None ∨ c_operation <$> c = Some op →
  (c = None → op = (clockDomain +:+ ":" +:+ idText (Datatypes.S n))%string) →
  forest (Datatypes.S n) (Some (SpanContext (idText (Datatypes.S n)) op)) l m →
  ownSpan r = true → r_spanId r = Some (idText (Datatypes.S n)) → r_parent r = c_span <$> c →
  operationOf r = Some (VStr op) →
  forest n c (l ++ [r]) m.
Proof.
  intros Hop Hroot [H1 H2 H3 H4] Hr Hid Hpar Hopr.
  assert (spanIds [r] = [idText (Datatypes.S n)]) as Hids by (unfold spanIds; cbn; by rewrite Hr, Hid).
  split; [lia| | |].
  - rewrite spanIds_app, Hids. apply Forall_app. split.
    + eapply Forall_impl; [done|]. cbn. intros id (k & Hk & ->). exists k. split; [lia|done].
    + apply Forall_singleton. exists (Datatypes.S n). split; [lia|done].
  - rewrite spanIds_app, Hids. apply NoDup_app. split_and!; [done| |apply NoDup_singleton].
    intros id Hl ->%list_elem_of_singleton. rewrite Forall_forall in H2. destruct (H2 _ Hl) as (k & Hk & Heq).
    apply idText_inj in Heq. lia.
  - intros i x. rewrite lookup_app_Some. intros [Hx|[Hi Hx]] Hs.
    + apply lookup_lt_Some in Hx as Hlt. rewrite drop_app_le by lia. specialize (H4 _ _ Hx Hs). unfold hangs in *.
      destruct (r_parent x) as [q|]; [|by destruct H4]. right.
      destruct H4 as [(p & [= <-] & -> & Ho)|(r' & Hin & ?)].
      * exists r. rewrite elem_of_app, list_elem_of_singleton. split_and!; [by right|done|done|]. by rewrite Hopr, Ho.
      * exists r'. rewrite elem_of_app. auto.
    + apply list_lookup_singleton_Some in Hx as [_ <-]. unfold hangs. rewrite Hpar, Hopr, Hid.
      destruct c as [p|]; cbn.
      * left. exists p. split_and!; [done..|]. destruct Hop as [|[= ->]]; done.
      * split; [done|]. exists (idText (Datatypes.S n)). by rewrite <- Hroot.
Qed.
Lemma native_log c records (t : tracing (Q := Q)) : Forall (λ r, r_source r ≠ "node"%string) records →
  ∃ l, let t' := foldl (λ t r, record (Some collect) (TraceRecord (r_kind r) (r_name r) (r_source r) (r_clockDomain r)
         (r_spanId r) (r_parent r) (r_startUs r) (r_durationUs r) (withOperation c (r_attributes r))) t) t records in
    log t' = log t ++ l ∧ next t' = next t ∧ Forall (λ r, ownSpan r = false) l.
Proof.
  intros Hr. revert t. induction Hr as [|r records Hr _ IH]; intros t; [exists []; by rewrite app_nil_r|].
  cbn [foldl]. match goal with |- context [foldl _ ?t1 records] => destruct (IH t1) as (l & H1 & H2 & H3) end.
  cbv zeta. rewrite H1, H2, (proj1 (record_log _ t)), <- app_assoc.
  eexists. split_and!; [done|done|]. constructor; [|done]. unfold ownSpan. cbn. apply String.eqb_neq in Hr.
  rewrite Hr. by destruct (r_kind r).
Qed.
Lemma run_forest {A} (p : prog A) : foreign p → ∀ c t s,
  ∃ l, log (run p c (t, s)).2.1 = log t ++ l ∧ forest (next t) c l (next (run p c (t, s)).2.1).
Proof.
  induction p as [A m|A B m IHm k IHk|A m IHm h IHh|A sync name attributes body IH|records dropped|A body IH];
    cbn [foreign Diagnostics.run]; intros Hf c t s.
  - destruct (m s). exists []. rewrite app_nil_r. split; [done|apply forest_nil].
  - destruct Hf as [Hm Hk]. destruct (IHm Hm c t s) as (l & H1 & H2).
    destruct (run m c (t, s)) as [[a|e] [t1 s1]]; [|eauto]. cbn in H1, H2.
    destruct (IHk a (Hk a) c t1 s1) as (k' & H3 & H4). exists (l ++ k'). rewrite H3, H1, <- app_assoc.
    split; [done|by eapply forest_app].
  - destruct Hf as [Hm Hh]. destruct (IHm Hm c t s) as (l & H1 & H2).
    destruct (run m c (t, s)) as [[a|e] [t1 s1]]; [eauto|]. cbn in H1, H2.
    destruct (IHh e (Hh e) c t1 s1) as (k' & H3 & H4). exists (l ++ k'). rewrite H3, H1, <- app_assoc.
    split; [done|by eapply forest_app].
  - rewrite span_either. unfold span, recordedSpan. set (op := match c with Some p => _ | None => _ end).
    destruct (readClock_log (Tracing (Datatypes.S (next t)) (origin t) (outside t))) as (R1 & R2 & R3).
    destruct (readClock clock _) as [start t1]. cbn [snd] in R1, R2.
    destruct (IH Hf (Some (SpanContext (idText (Datatypes.S (next t))) op)) t1 s) as (l & H1 & H2).
    destruct (run body _ (t1, s)) as [r [t2 s2]]. cbn [fst snd] in H1, H2.
    destruct (readClock_log t2) as (K1 & K2 & _). destruct (readClock clock t2) as [now t3]. cbn [snd] in K1, K2.
    cbn [fst snd]. rewrite (proj1 (record_log _ t3)), (proj2 (record_log _ t3)), K1, K2, H1, R1, <- app_assoc.
    eexists. split; [done|]. rewrite R2 in H2. cbn [next] in H2.
    eapply (forest_span _ _ op); [destruct c; [by right|by left]|by intros ->|exact H2|done..|].
    unfold operationOf. cbn [r_attributes]. by rewrite !fieldOf_setField.
  - unfold native. cbv zeta. destruct (native_log c records t Hf) as (l & H1 & H2 & H3). cbv zeta in H1, H2.
    destruct (dropped =? 0).
    + exists l. cbn [fst snd]. rewrite H1, H2. split; [done|by apply forest_foreign].
    + match goal with |- context [readClock clock ?x] => destruct (readClock_log x) as (R1 & R2 & _); destruct (readClock clock x) as [now t1] end.
      cbn [fst snd] in *. rewrite (proj1 (record_log _ t1)), (proj2 (record_log _ t1)), R1, R2, H1, H2, <- app_assoc.
      eexists. split; [done|]. apply forest_foreign. apply Forall_app. by split; [|apply Forall_singleton].
  - unfold bind. destruct c as [p|]; by apply IH.
Qed.
End forest.

(** Spans nest.  However an instrumented program spans, catches and is called
    back, the spans it records have distinct ids, and each either starts an
    operation of its own or is the child of a span that ends later and belongs to
    the same operation. *)
Theorem spans_nest {S C A} (answers : trace_record → result unit) (tick : C → Z * C) clockDomain
    (p : prog (S := S) A) n z q s :
  foreign p →
  ∃ l, log (run (Some (collect answers)) (clock tick) clockDomain p None (Tracing n z ([], q), s)).2.1 = l ∧
    NoDup (spanIds l) ∧
    ∀ i r, l !! i = Some r → ownSpan r = true →
      match r_parent r with
      | None => ∃ id, r_spanId r = Some id ∧ operationOf r = Some (VStr (clockDomain +:+ ":" +:+ id))
      | Some q => ∃ r', r' ∈ drop (Datatypes.S i) l ∧ ownSpan r' = true ∧ r_spanId r' = Some q ∧
                    operationOf r' = operationOf r
      end.
Proof.
  intros Hp. destruct (run_forest answers tick clockDomain p Hp None (Tracing n z ([], q)) s) as (l & Hl & [_ _ Hd Hh]).
  exists l. split_and!; [done|done|]. intros i r Hi Hr. specialize (Hh i r Hi Hr). unfold hangs in Hh.
  destruct (r_parent r) as [q0|]; [|by destruct Hh]. destruct Hh as [(p0 & [=] & _)|Hh]; exact Hh.
Qed.
Definition demo_prog : prog (S := nat) unit :=
  Span false "server.transaction" [] (Bind (Span false "host.load" [] (Do (λ n, (Ok tt, Datatypes.S n))))
    (λ _, Try (Callback (Span true "host.decode" [] (Do (throw (Error "bad"))))) (λ _, Do (mret tt)))).
Lemma spans_nest_witness :
  ∃ l, log (run (Some (collect (λ _, raise "ignored"))) (clock (λ c, (c, c + 1500))) "backend:1:1" demo_prog None
              (Tracing 0 0 ([], 0), 0%nat)).2.1 = l ∧
    NoDup (spanIds l) ∧
    ∀ i r, l !! i = Some r → ownSpan r = true →
      match r_parent r with
      | None => ∃ id, r_spanId r = Some id ∧ operationOf r = Some (VStr ("backend:1:1" +:+ ":" +:+ id))
      | Some q => ∃ r', r' ∈ drop (Datatypes.S i) l ∧ ownSpan r' = true ∧ r_spanId r' = Some q ∧
                    operationOf r' = operationOf r
      end.
Proof.
  apply (spans_nest (λ _, raise "ignored") (λ c, (c, c + 1500)) "backend:1:1" demo_prog 0 0 0 0%nat).
  cbn. repeat split.
Defined.
Example demo_spans : spanIds (log (run (Some (collect (λ _, raise "ignored"))) (clock (λ c, (c, c + 1500))) "backend:1:1"
  demo_prog None (Tracing 0 0 ([], 0), 0%nat)).2.1) = ["2"; "3"; "1"]%string.
Proof. vm_compute. reflexivity. Qed.
