(* ===== verification/Database.v ===== *)
(** The framework's PostgreSQL namespace: the tables [migration.sql] creates and
    the statements of [sql.mts] on them.

    A statement is the SQL text's name with its typed parameters; [exec] gives
    its rows and its effect on one transaction's view of the tables.  The
    PRIMARY KEY, UNIQUE, FOREIGN KEY and CHECK constraints raise the SQLSTATE
    the server raises and leave the tables as they were.  Row locks and
    isolation are not visible to a single transaction and are not modelled;
    where SQL leaves the row order open, the order of [map_to_list] is used. *)
From S2P Require Import Prelude Text Json.
From stdpp Require Import sorting.
Open Scope Z_scope.

(** * Tables *)
Inductive kind := Upsert | Remove.
#[export] Instance kind_eq_dec : EqDecision kind.
Proof. solve_decision. Defined.
Definition kindText (k : kind) : string := match k with Upsert => "upsert" | Remove => "remove" end.

(** [axton_store] *)
Record store_row := StoreRow {
  principal : string;
  bound_stream : string;
  last_processed_batch_id : Z;
  progress : Z;
  current_digest : option string;
  current_count : option Z;
  last_digest : option string;
  last_count : option Z;
  bootstrap_prepared : bool;
  start_cursor : option Z }.
(** [axton_mutation_result], without its key *)
Record result_row := ResultRow { mutation_id : Z; result_json : value }.
(** [axton_stream_record], without its key *)
Record position := Position { cursor : Z; position_kind : kind }.
(** (model, identity_key) *)
Abbreviation key := (string * string)%type.

Record db := Db {
  streams : gmap string Z;                        (* axton_stream: head *)
  records : gmap key Z;                           (* axton_record: id *)
  next_record : Z;                                (* its IDENTITY sequence *)
  stores : gmap string store_row;                 (* axton_store *)
  results : gmap (string * Z * Z) result_row;     (* axton_mutation_result by (store, batch, ordinal) *)
  members : gmap (string * Z) position;           (* axton_stream_record by (stream, record id) *)
  cursors : option (gmap key Z) }.                (* pg_temp.axton_publication_cursor by (stream, scope) *)

Definition set_streams f d :=
  Db (f (streams d)) (records d) (next_record d) (stores d) (results d) (members d) (cursors d).
Definition set_records f n d :=
  Db (streams d) (f (records d)) n (stores d) (results d) (members d) (cursors d).
Definition set_stores f d :=
  Db (streams d) (records d) (next_record d) (f (stores d)) (results d) (members d) (cursors d).
Definition set_results f d :=
  Db (streams d) (records d) (next_record d) (stores d) (f (results d)) (members d) (cursors d).
Definition set_members f d :=
  Db (streams d) (records d) (next_record d) (stores d) (results d) (f (members d)) (cursors d).
Definition set_cursors c d :=
  Db (streams d) (records d) (next_record d) (stores d) (results d) (members d) c.

Definition empty_db : db := Db ∅ ∅ 1 ∅ ∅ ∅ None.

(** ** Constraints of the migration *)
Definition counter (n : Z) : bool := (0 <=? n) && (n <=? MAX_SAFE).
Definition positive_counter (n : Z) : bool := (1 <=? n) && (n <=? MAX_SAFE).
(** CHECKs of [axton_stream] *)
Definition check_stream (head : Z) : bool := counter head.
(** CHECKs of [axton_store] *)
Definition check_store (r : store_row) : bool :=
  counter (last_processed_batch_id r) && counter (progress r)
  && match start_cursor r with Some c => counter c | None => true end
  && match current_digest r, current_count r with
     | None, None => progress r =? 0
     | Some _, Some count => positive_counter count && (progress r <? count)
     | _, _ => false
     end
  && match last_digest r, last_count r with
     | None, None => last_processed_batch_id r =? 0
     | Some _, Some count => (0 <? last_processed_batch_id r) && positive_counter count
     | _, _ => false
     end.
(** CHECKs of [axton_mutation_result] *)
Definition check_result (batch ordinal : Z) (r : result_row) : bool :=
  positive_counter batch && positive_counter (mutation_id r) && counter ordinal.
(** CHECKs of [axton_stream_record] *)
Definition check_member (p : position) : bool := positive_counter (cursor p).

(** ** SQLSTATEs *)
Definition sqlError (state : string) : exn := Thrown (VObj [("code", VStr state)]).
Definition NOT_NULL := sqlError "23502".
Definition FOREIGN_KEY := sqlError "23503".
Definition UNIQUE := sqlError "23505".
Definition CHECK_VIOLATION := sqlError "23514".
Definition UNDEFINED_TABLE := sqlError "42P01".
Definition CARDINALITY := sqlError "21000".

(** * Rows as a driver answers them

    A bigint column reaches the code as a number, a bigint or a text, by the
    driver; [toNumber] reads it back. *)
Class Columns := {
  bigint : Z → value;
  bigint_toNumber z : toNumber (bigint z) = NInt z;
  bigint_some z : nullish (bigint z) = false }.
Definition numberColumns : Columns.
Proof. refine {| bigint z := VNum (NInt z) |}; done. Defined.
Definition bigintColumns : Columns.
Proof. refine {| bigint z := VBig z |}; done. Defined.

Abbreviation row := (list (string * value)).
(** [row.column] *)
Definition column (r : row) (name : string) : value := default VUndef (fieldOf name r).
(** A nullable column. *)
Definition nullable {A} (f : A → value) (o : option A) : value := from_option f VNull o.

(** [v->>'field'] of a JSON value, as text. *)
Definition jsonText (v : value) (field : string) : option string :=
  match get v field with
  | VStr s => Some s
  | VUndef | VNull => None
  | w => match stringify w with Ok t => t | Throw _ => None end
  end.
(** [(v->>'publish')::boolean] for a JSON boolean or null *)
Definition jsonBool (v : value) (field : string) : bool :=
  match get v field with VBool b => b | _ => false end.
Definition jsonBigint (v : value) (field : string) : option Z :=
  match get v field with VNum (NInt z) => Some z | _ => None end.
Definition jsonKey (v : value) : option key :=
  match jsonText v "model", jsonText v "identityKey" with
  | Some m, Some i => Some (m, i)
  | _, _ => None
  end.

(** * Statements of [sql.mts] *)
Section statements.
Context `{Columns}.
Abbreviation rows := (list row).

(** [HEAD], and the same SELECT of [deliveryHead] *)
Definition sql_head (stream : string) : io db rows := λ d,
  (Ok match streams d !! stream with Some h => [[("head", bigint h)]] | None => [] end, d).

(** [LOCK_STREAMS]: the existing rows, in the given order. *)
Definition sql_lock_streams (names : list string) : io db rows := λ d,
  (Ok ((λ s, [("stream", VStr s)]) <$> filter (λ s, is_Some (streams d !! s)) names), d).

(** ** Tracking *)
Definition tracking_row (s : string) (k : key) : row :=
  [("stream", VStr s); ("model", VStr k.1); ("identity_key", VStr k.2)].
Definition live (d : db) (s : string) (id : Z) : bool :=
  match members d !! (s, id) with Some p => bool_decide (position_kind p = Upsert) | None => false end.
Definition tracking_rows (want : string → key → bool) (d : db) : rows :=
  '(k, id) ← map_to_list (records d);
  '(s, _) ← map_to_list (streams d);
  if live d s id && want s k then [tracking_row s k] else [].
Definition wants (v : value) (k : key) : bool := bool_decide (jsonKey v = Some k).
(** [READ_TRACKING] *)
Definition sql_read_tracking (recs pairs : list value) : io db rows := λ d,
  (Ok (tracking_rows (λ s k,
     existsb (λ v, wants v k) recs ||
     existsb (λ v, wants v k && bool_decide (jsonText v "stream" = Some s)) pairs) d), d).
(** [READ_TRACKING_PAIR] *)
Definition sql_read_tracking_pair (model identityKey stream : string) : io db rows := λ d,
  (Ok (tracking_rows (λ s k, bool_decide (k = (model, identityKey)) && bool_decide (s = stream)) d), d).
(** [READ_TRACKING_RECORD] *)
Definition sql_read_tracking_record (model identityKey : string) : io db rows := λ d,
  (Ok (tracking_rows (λ _ k, bool_decide (k = (model, identityKey))) d), d).

(** ** Stores and batches *)
Definition new_store (who stream : string) : store_row :=
  StoreRow who stream 0 0 None None None None false None.
(** [V05_STORE_INSERT] *)
Definition sql_store_insert (id who stream : string) : io db rows := λ d,
  match stores d !! id with
  | Some _ => (Ok [], d)
  | None => (Ok [], set_stores <[id := new_store who stream]> d)
  end.
(** [V05_STORE_INSPECT] *)
Definition sql_store_inspect (id : string) : io db rows := λ d,
  (Ok match stores d !! id with
      | Some r => [[("principal", VStr (principal r)); ("stream", VStr (bound_stream r))]]
      | None => [] end, d).
(** [V05_STORE_LOCK] *)
Definition store_columns (r : store_row) : row :=
  [("principal", VStr (principal r)); ("stream", VStr (bound_stream r));
   ("last_processed_batch_id", bigint (last_processed_batch_id r));
   ("progress", bigint (progress r));
   ("current_digest", nullable VStr (current_digest r));
   ("current_count", nullable bigint (current_count r));
   ("last_digest", nullable VStr (last_digest r));
   ("last_count", nullable bigint (last_count r))].
Definition sql_store_lock (id : string) : io db rows := λ d,
  (Ok match stores d !! id with Some r => [store_columns r] | None => [] end, d).

(** An UPDATE of one store row, under the table's CHECKs. *)
Definition update_store (id : string) (r : store_row) (d : db) : result db :=
  if check_store r then Ok (set_stores <[id := r]> d) else Throw CHECK_VIOLATION.
Definition begun (digest : string) (count : Z) (r : store_row) : store_row :=
  StoreRow (principal r) (bound_stream r) (last_processed_batch_id r) (progress r)
    (Some digest) (Some count) (last_digest r) (last_count r)
    (bootstrap_prepared r) (start_cursor r).
(** [V05_BATCH_BEGIN] *)
Definition sql_batch_begin (id : string) (batch : Z) (digest : string) (count : Z) : io db rows := λ d,
  match stores d !! id with
  | Some r =>
      if (last_processed_batch_id r =? batch - 1) && bool_decide (current_digest r = None)
         && (progress r =? 0)
      then match update_store id (begun digest count r) d with
           | Ok d' =>
               (Ok [[("id", VStr id)]],
                set_results (filter (λ e, ¬ (e.1.1.1 = id ∧ e.1.1.2 < batch))) d')
           | Throw e => (Throw e, d)
           end
      else (Ok [], d)
  | None => (Ok [], d)
  end.
(** [V05_RESULT_READ] *)
Definition sql_result_read (id : string) (batch ordinal : Z) : io db rows := λ d,
  (Ok match results d !! (id, batch, ordinal) with
      | Some r => [[("result", result_json r)]] | None => [] end, d).
(** [V05_RESULTS_READ] *)
Definition batch_results (id : string) (batch : Z) (d : db) : list (Z * result_row) :=
  '(i, b, o, r) ← map_to_list (results d);
  if String.eqb i id && (b =? batch) then [(o, r)] else [].
Definition by_ordinal (a b : Z * result_row) : Prop := a.1 ≤ b.1.
#[global] Instance by_ordinal_dec : RelDecision by_ordinal.
Proof. intros a b. unfold by_ordinal. apply _. Defined.
Definition sql_results_read (id : string) (batch : Z) : io db rows := λ d,
  (Ok ((λ e, [("result", result_json e.2)]) <$> merge_sort by_ordinal (batch_results id batch d)), d).

(** The progress a saved suffix [ordinal .. upto) leaves: the last one of the
    batch ends it. *)
Definition advanced (batch upto : Z) (count : Z) (r : store_row) : store_row :=
  if upto =? count
  then StoreRow (principal r) (bound_stream r) batch 0 None None
         (current_digest r) (current_count r) (bootstrap_prepared r) (start_cursor r)
  else StoreRow (principal r) (bound_stream r) (last_processed_batch_id r) upto
         (current_digest r) (current_count r) (last_digest r) (last_count r)
         (bootstrap_prepared r) (start_cursor r).
(** INSERT one result: its NOT NULL, CHECKs, PRIMARY KEY and UNIQUE. *)
Definition duplicate_mutation (id : string) (batch mutation : Z) (d : db) : bool :=
  existsb (λ e, mutation_id e.2 =? mutation) (batch_results id batch d).
Definition insert_result (id : string) (batch ordinal : Z) (mutation : option Z) (v : value) (d : db) : result db :=
  match mutation with
  | None => Throw NOT_NULL
  | Some m =>
      let r := ResultRow m v in
      if negb (check_result batch ordinal r) then Throw CHECK_VIOLATION
      else if duplicate_mutation id batch m d
              || bool_decide (is_Some (results d !! (id, batch, ordinal)))
      then Throw UNIQUE
      else Ok (set_results <[(id, batch, ordinal) := r]> d)
  end.
Fixpoint insert_results (id : string) (batch ordinal : Z) (l : list value) (d : db) : result db :=
  match l with
  | [] => Ok d
  | v :: l' =>
      d' ← insert_result id batch ordinal (jsonBigint v "mutationId") v d;
      insert_results id batch (ordinal + 1) l' d'
  end.
(** [V05_RESULT_SAVE] *)
Definition sql_result_save (id : string) (batch ordinal count : Z) (mutation : option Z) (v : value)
  : io db rows := λ d,
  match stores d !! id with
  | Some r =>
      if (last_processed_batch_id r =? batch - 1) && (progress r =? ordinal)
         && bool_decide (current_count r = Some count)
      then match (d1 ← update_store id (advanced batch (ordinal + 1) count r) d;
                  insert_result id batch ordinal mutation v d1) with
           | Ok d2 => (Ok [[("store_id", VStr id)]], d2)
           | Throw e => (Throw e, d)
           end
      else (Ok [], d)
  | None => (Ok [], d)
  end.
(** [V05_RESULTS_SAVE] *)
Definition sql_results_save (id : string) (batch ordinal count size : Z) (digest : string)
    (l : list value) : io db rows := λ d,
  match stores d !! id with
  | Some r =>
      if (last_processed_batch_id r =? batch - 1) && (progress r =? ordinal)
         && bool_decide (current_count r = Some count)
         && bool_decide (current_digest r = Some digest)
         && (0 <? size) && (ordinal + size <=? count)
      then match (d1 ← update_store id (advanced batch (ordinal + size) count r) d;
                  insert_results id batch ordinal l d1) with
           | Ok d2 => (Ok ((λ _, [("store_id", VStr id)]) <$> l), d2)
           | Throw e => (Throw e, d)
           end
      else (Ok [], d)
  | None => (Ok [], d)
  end.

(** ** Canonical identities *)
(** [ENSURE_IDENTITIES]: every input is inserted or touched, in input order; a
    key named twice in one statement is refused. *)
Fixpoint ensure_all (seen : list key) (group : list value) (d : db) : result (rows * db) :=
  match group with
  | [] => Ok ([], d)
  | v :: group' =>
      match jsonKey v with
      | None => Throw NOT_NULL
      | Some k =>
          if bool_decide (k ∈ seen) then Throw CARDINALITY
          else
            let d' := match records d !! k with
                      | Some _ => set_records id (next_record d + 1) d
                      | None => set_records <[k := next_record d]> (next_record d + 1) d
                      end in
            '(more, d2) ← ensure_all (k :: seen) group' d';
            Ok ([("model", VStr k.1); ("identity_key", VStr k.2)] :: more, d2)
      end
  end.
Definition sql_ensure_identities (group : list value) : io db rows := λ d,
  match ensure_all [] group d with Ok (r, d') => (Ok r, d') | Throw e => (Throw e, d) end.
(** [LOCK_IDENTITIES] *)
Definition sql_lock_identities (group : list value) : io db rows := λ d,
  (Ok ((λ k : key, [("model", VStr k.1); ("identity_key", VStr k.2)]) <$>
       uniq (filter (λ k, is_Some (records d !! k)) (omap jsonKey group))), d).

(** ** Positions *)
Definition record_id (d : db) (v : value) : option Z :=
  k ← jsonKey v; records d !! k.
Definition member_at (d : db) (stream : string) (v : value) : option position :=
  id ← record_id d v; members d !! (stream, id).
Definition position_columns (ord : Z) (p : option position) : row :=
  [("ord", bigint ord); ("cursor", nullable bigint (cursor <$> p));
   ("kind", nullable (λ k, VStr (kindText k)) (position_kind <$> p))].
(** [V05_POSITIONS_READ_BATCH] *)
Definition sql_positions_read_batch (stream : string) (group : list value) : io db rows := λ d,
  (Ok (imap (λ i v, position_columns (Z.of_nat i + 1) (member_at d stream v)) group), d).
(** [V05_POSITION_READ] *)
Definition sql_position_read (stream model identityKey : string) : io db rows := λ d,
  (Ok [position_columns 1 (id ← records d !! (model, identityKey); members d !! (stream, id))], d).

(** ** Publication *)
(** [V05_PUBLICATION_CURSORS] *)
Definition sql_publication_cursors : io db rows := λ d,
  (Ok [], match cursors d with Some _ => d | None => set_cursors (Some ∅) d end).
(** The [reserved]/[saved] part of the reserving statements: the scope's cursor,
    [None] when the Stream's head is at the last safe integer. *)
Definition reserve (stream scope : string) (d : db) : result (option Z * db) :=
  match cursors d with
  | None => Throw UNDEFINED_TABLE
  | Some m =>
      match m !! (stream, scope) with
      | Some c => Ok (Some c, d)
      | None =>
          let fresh h := Ok (Some h, set_cursors (Some (<[(stream, scope) := h]> m))
                                       (set_streams <[stream := h]> d)) in
          match streams d !! stream with
          | None => fresh 1
          | Some h => if h <? MAX_SAFE then fresh (h + 1) else Ok (None, d)
          end
      end
  end.
(** [V05_RESERVE_CURSOR] *)
Definition sql_reserve_cursor (stream scope : string) : io db rows := λ d,
  match reserve stream scope d with
  | Ok (Some c, d') => (Ok [[("cursor", bigint c)]], d')
  | Ok (None, d') => (Ok [], d')
  | Throw e => (Throw e, d)
  end.
(** INSERT ... ON CONFLICT DO UPDATE of one membership row. *)
Definition upsert_member (stream : string) (id : Z) (cur : option Z) (d : db) : result db :=
  match cur with
  | None => Throw NOT_NULL
  | Some c =>
      let p := Position c Upsert in
      if negb (check_member p) then Throw CHECK_VIOLATION
      else if bool_decide (is_Some (streams d !! stream))
      then Ok (set_members <[(stream, id) := p]> d) else Throw FOREIGN_KEY
  end.
(** The [written] part of the applying statements: [target] gives the membership
    row an input writes, if any, and its cursor; two inputs for one row are refused. *)
Fixpoint write_members (target : value → option (string * Z * option Z))
    (seen : list (string * Z)) (group : list value) (d : db) : result db :=
  match group with
  | [] => Ok d
  | v :: group' =>
      match target v with
      | None => write_members target seen group' d
      | Some (s, id, cur) =>
          if bool_decide ((s, id) ∈ seen) then Throw CARDINALITY
          else d' ← upsert_member s id cur d;
               write_members target ((s, id) :: seen) group' d'
      end
  end.
Definition applied_columns (ord : Z) (represented : bool) (p : option position) : row :=
  [("ord", bigint ord); ("represented", VBool represented);
   ("cursor", nullable bigint (cursor <$> p));
   ("kind", nullable (λ k, VStr (kindText k)) (position_kind <$> p))].
(** The joins read the membership a published input wrote and, for the others,
    the membership before the statement. *)
Definition wanted_target (d : db) (v : value) : option (string * Z * option Z) :=
  if jsonBool v "publish"
  then s ← jsonText v "stream"; id ← record_id d v; Some (s, id, jsonBigint v "cursor")
  else None.
Definition member_of (d : db) (v : value) : option position :=
  s ← jsonText v "stream"; member_at d s v.
(** [V05_APPLY_MEMBERS_BATCH] *)
Definition sql_apply_members_batch (group : list value) : io db rows := λ d,
  match write_members (wanted_target d) [] group d with
  | Throw e => (Throw e, d)
  | Ok d' =>
      (Ok (imap (λ i v, applied_columns (Z.of_nat i + 1) (bool_decide (is_Some (record_id d v)))
                  (if jsonBool v "publish" then member_of d' v else member_of d v)) group), d')
  end.
(** [V05_RESERVE_APPLY_MEMBERS] *)
Definition sql_reserve_apply_members (stream scope : string) (group : list value) : io db rows := λ d,
  match reserve stream scope d with
  | Throw e => (Throw e, d)
  | Ok (c, d1) =>
      let target v :=
        match c with
        | None => None
        | Some c => id ← record_id d v; Some (stream, id, Some c)
        end in
      match write_members target [] group d1 with
      | Throw e => (Throw e, d)
      | Ok d2 =>
          (Ok (imap (λ i v,
             applied_columns (Z.of_nat i + 1) (bool_decide (is_Some (record_id d v)))
               (if bool_decide (is_Some c) then member_at d2 stream v else None)
             ++ [("overflow", VBool (bool_decide (c = None)))]) group), d2)
      end
  end.

(** ** Bootstrap and delivery *)
(** The [bootstrapState] SELECT *)
Definition sql_bootstrap_state (id : string) : io db rows := λ d,
  (Ok match stores d !! id with
      | Some r => [[("bootstrap_prepared", VBool (bootstrap_prepared r))]] | None => [] end, d).
Definition bootstrapped (d : db) (r : store_row) : store_row :=
  StoreRow (principal r) (bound_stream r) (last_processed_batch_id r) (progress r)
    (current_digest r) (current_count r) (last_digest r) (last_count r)
    true (Some (default 0 (streams d !! bound_stream r))).
(** The [finishBootstrap] UPDATE *)
Definition sql_finish_bootstrap (id : string) : io db rows := λ d,
  match stores d !! id with
  | None => (Ok [], d)
  | Some r => match update_store id (bootstrapped d r) d with
              | Ok d' => (Ok [], d')
              | Throw e => (Throw e, d)
              end
  end.
Record candidate := Candidate { cand_key : key; cand_position : position }.
(** [ORDER BY s.cursor, r.model COLLATE "C", r.identity_key COLLATE "C"] *)
Definition cand_compare (a b : candidate) : comparison :=
  match cursor (cand_position a) ?= cursor (cand_position b) with
  | Eq => match lex (bytes (cand_key a).1) (bytes (cand_key b).1) with
          | Eq => lex (bytes (cand_key a).2) (bytes (cand_key b).2)
          | c => c end
  | c => c
  end.
Definition cand_le (a b : candidate) : Prop := cand_compare a b ≠ Gt.
#[global] Instance cand_le_dec : RelDecision cand_le.
Proof. intros a b. unfold cand_le. apply _. Defined.
(** The membership rows of [stream] whose record satisfies [want]. *)
Definition stream_members (stream : string) (want : key → position → bool) (d : db) : list candidate :=
  '(k, id) ← map_to_list (records d);
  match members d !! (stream, id) with
  | Some p => if want k p then [Candidate k p] else []
  | None => []
  end.
(** The [count] of tracked keys, with one row per matching input. *)
Definition sql_tracked_count (stream : string) (group : list value) : io db rows := λ d,
  (Ok [[("n", bigint (Z.of_nat (length (filter (λ v, is_Some (member_at d stream v)) group))))]], d).
Definition candidate_columns (c : candidate) : row :=
  [("model", VStr (cand_key c).1); ("identity_key", VStr (cand_key c).2);
   ("cursor", bigint (cursor (cand_position c)));
   ("kind", VStr (kindText (position_kind (cand_position c))))].
(** [FETCH FIRST n ROWS WITH TIES] on rows ordered by cursor *)
Fixpoint take_while_cursor (c : Z) (l : list candidate) : list candidate :=
  match l with
  | x :: l' => if cursor (cand_position x) =? c then x :: take_while_cursor c l' else []
  | [] => []
  end.
Definition with_ties (n : nat) (l : list candidate) : list candidate :=
  match last (take n l) with
  | Some x => take n l ++ take_while_cursor (cursor (cand_position x)) (drop n l)
  | None => []
  end.
(** The [deliveryCandidates] SELECT, whole or paged. *)
Definition delivery_want (after : Z) (models : option (list string)) (keys : list value)
    (k : key) (p : position) : bool :=
  (after <? cursor p)
  && match models with
     | None => true
     | Some ms => bool_decide (k.1 ∈ ms) || existsb (λ v, wants v k) keys
     end.
Definition sql_delivery_candidates (stream : string) (after : Z) (models : option (list string))
    (keys : list value) (limit : Z) (page : option Z) : io db rows := λ d,
  let sorted := merge_sort cand_le (stream_members stream (delivery_want after models keys) d) in
  let rows := match page with
              | None => sorted
              | Some n => with_ties (Z.to_nat n) sorted
              end in
  (Ok (candidate_columns <$> take (Z.to_nat limit) rows), d).

(** * Executing one statement

    A statement of [sql.mts] or of [persistence.mts] with the JavaScript values
    of its parameters; a [jsonb] parameter is kept as the value whose JSON the
    code sends.  A parameter the column's type refuses is the driver's error. *)
Definition INVALID_PARAMETER := sqlError "22P02".
Definition text (v : value) : result string :=
  match v with VStr s => Ok s | _ => Throw INVALID_PARAMETER end.
Definition int8 (v : value) : result Z :=
  match v with VNum (NInt z) => Ok z | _ => Throw INVALID_PARAMETER end.
Definition textArray (v : value) : result (option (list string)) :=
  match v with
  | VNull => Ok None
  | VArr l => Some <$> mapM text l
  | _ => Throw INVALID_PARAMETER
  end.

Inductive statement :=
| HEAD (stream : value)
| LOCK_STREAMS (names : value)
| READ_TRACKING (recs pairs : value)
| READ_TRACKING_PAIR (model identityKey stream : value)
| READ_TRACKING_RECORD (model identityKey : value)
| V05_STORE_INSERT (id principal stream : value)
| V05_STORE_INSPECT (id : value)
| V05_STORE_LOCK (id : value)
| V05_BATCH_BEGIN (id batch digest count : value)
| V05_RESULT_READ (id batch ordinal : value)
| V05_RESULTS_READ (id batch : value)
| V05_RESULT_SAVE (id batch ordinal count mutation outcome : value)
| V05_RESULTS_SAVE (id batch ordinal count size digest outcomes : value)
| V05_PUBLICATION_CURSORS
| V05_RESERVE_CURSOR (stream scope : value)
| ENSURE_IDENTITIES (group : value)
| LOCK_IDENTITIES (group : value)
| V05_POSITIONS_READ_BATCH (stream group : value)
| V05_POSITION_READ (stream model identityKey : value)
| V05_APPLY_MEMBERS_BATCH (group : value)
| V05_RESERVE_APPLY_MEMBERS (stream scope group : value)
| BOOTSTRAP_STATE (id : value)
| FINISH_BOOTSTRAP (id : value)
| TRACKED_COUNT (stream group : value)
| DELIVERY_CANDIDATES (stream after models keys limit : value) (page : option value)
| DELIVERY_NOW
| CHECK_LAYOUT
| SAVEPOINT (name : string)
| ROLLBACK_TO_SAVEPOINT (name : string)
| RELEASE_SAVEPOINT (name : string).

(** [jsonb_array_elements]: only an array has elements. *)
Definition elements (v : value) : result (list value) :=
  match v with VArr l => Ok l | _ => Throw INVALID_PARAMETER end.

Definition with_param {A B} (p : result A) (f : A → io db B) : io db B := check p ≫= f.

Lemma with_param_Ok {A B} (a : A) (f : A → io db B) d : with_param (Ok a) f d = f a d.
Proof. done. Qed.

(** A statement on the tables.  The statements of the session (savepoints, the
    clock, the catalog) belong to [run]. *)
Definition exec (s : statement) : io db rows :=
  match s with
  | HEAD a => with_param (text a) sql_head
  | LOCK_STREAMS l => with_param (elements l ≫= mapM text) sql_lock_streams
  | READ_TRACKING a b =>
      with_param (elements a) (λ a, with_param (elements b) (sql_read_tracking a))
  | READ_TRACKING_PAIR m i s =>
      with_param (text m) (λ m, with_param (text i) (λ i, with_param (text s)
        (sql_read_tracking_pair m i)))
  | READ_TRACKING_RECORD m i =>
      with_param (text m) (λ m, with_param (text i) (sql_read_tracking_record m))
  | V05_STORE_INSERT i p s =>
      with_param (text i) (λ i, with_param (text p) (λ p, with_param (text s) (sql_store_insert i p)))
  | V05_STORE_INSPECT i => with_param (text i) sql_store_inspect
  | V05_STORE_LOCK i => with_param (text i) sql_store_lock
  | V05_BATCH_BEGIN i b g n =>
      with_param (text i) (λ i, with_param (int8 b) (λ b, with_param (text g) (λ g,
        with_param (int8 n) (sql_batch_begin i b g))))
  | V05_RESULT_READ i b o =>
      with_param (text i) (λ i, with_param (int8 b) (λ b, with_param (int8 o) (sql_result_read i b)))
  | V05_RESULTS_READ i b =>
      with_param (text i) (λ i, with_param (int8 b) (sql_results_read i))
  | V05_RESULT_SAVE i b o n m v =>
      with_param (text i) (λ i, with_param (int8 b) (λ b, with_param (int8 o) (λ o,
        with_param (int8 n) (λ n,
          sql_result_save i b o n (match m with VNum (NInt z) => Some z | _ => None end) v))))
  | V05_RESULTS_SAVE i b o n k g l =>
      with_param (text i) (λ i, with_param (int8 b) (λ b, with_param (int8 o) (λ o,
        with_param (int8 n) (λ n, with_param (int8 k) (λ k, with_param (text g) (λ g,
          with_param (elements l) (sql_results_save i b o n k g)))))))
  | V05_PUBLICATION_CURSORS => sql_publication_cursors
  | V05_RESERVE_CURSOR s c => with_param (text s) (λ s, with_param (text c) (sql_reserve_cursor s))
  | ENSURE_IDENTITIES l => with_param (elements l) sql_ensure_identities
  | LOCK_IDENTITIES l => with_param (elements l) sql_lock_identities
  | V05_POSITIONS_READ_BATCH s l =>
      with_param (text s) (λ s, with_param (elements l) (sql_positions_read_batch s))
  | V05_POSITION_READ s m i =>
      with_param (text s) (λ s, with_param (text m) (λ m, with_param (text i) (sql_position_read s m)))
  | V05_APPLY_MEMBERS_BATCH l => with_param (elements l) sql_apply_members_batch
  | V05_RESERVE_APPLY_MEMBERS s c l =>
      with_param (text s) (λ s, with_param (text c) (λ c, with_param (elements l)
        (sql_reserve_apply_members s c)))
  | BOOTSTRAP_STATE i => with_param (text i) sql_bootstrap_state
  | FINISH_BOOTSTRAP i => with_param (text i) sql_finish_bootstrap
  | TRACKED_COUNT s l => with_param (text s) (λ s, with_param (elements l) (sql_tracked_count s))
  | DELIVERY_CANDIDATES s a ms ks n p =>
      with_param (text s) (λ s, with_param (int8 a) (λ a, with_param (textArray ms) (λ ms,
        with_param (elements ks) (λ ks, with_param (int8 n) (λ n,
          match p with
          | None => sql_delivery_candidates s a ms ks n None
          | Some p => with_param (int8 p) (λ p, sql_delivery_candidates s a ms ks n (Some p))
          end)))))
  | DELIVERY_NOW | CHECK_LAYOUT | SAVEPOINT _ | ROLLBACK_TO_SAVEPOINT _ | RELEASE_SAVEPOINT _ =>
      throw INVALID_PARAMETER
  end.
End statements.

(** * One transaction *)
Record txn := Txn {
  tables : db;
  savepoints : list (string * db);   (* the innermost first *)
  aborted : bool;
  legacy : bool;                     (* an old framework table is in the catalog *)
  now : Z }.
Definition NO_SAVEPOINT := sqlError "3B001".
Definition IN_FAILED_TRANSACTION := sqlError "25P02".

(** A rolled-back sequence keeps its values. *)
Definition keep_sequence (n : Z) (d : db) : db := set_records id n d.
(** The stack from the innermost savepoint of that name. *)
Fixpoint from_savepoint (name : string) (l : list (string * db)) : option (db * list (string * db)) :=
  match l with
  | [] => None
  | (n, d) :: l' => if String.eqb n name then Some (d, l) else from_savepoint name l'
  end.

Section run.
Context `{Columns}.
Definition on_tables (m : io db (list row)) : io txn (list row) := λ t,
  match m (tables t) with
  | (Ok r, d) => (Ok r, Txn d (savepoints t) (aborted t) (legacy t) (now t))
  | (Throw e, d) => (Throw e, Txn d (savepoints t) true (legacy t) (now t))
  end.
Definition abort (e : exn) : io txn (list row) := λ t,
  (Throw e, Txn (tables t) (savepoints t) true (legacy t) (now t)).

(** A statement inside the transaction: any error aborts it, after which only
    ROLLBACK TO an earlier savepoint is accepted. *)
Definition run (s : statement) : io txn (list row) := λ t,
  match s with
  | ROLLBACK_TO_SAVEPOINT name =>
      match from_savepoint name (savepoints t) with
      | Some (d, l) =>
          (Ok [], Txn (keep_sequence (next_record (tables t)) d) l false (legacy t) (now t))
      | None => abort NO_SAVEPOINT t
      end
  | _ =>
      if aborted t then (Throw IN_FAILED_TRANSACTION, t) else
      match s with
      | SAVEPOINT name =>
          (Ok [], Txn (tables t) ((name, tables t) :: savepoints t) false (legacy t) (now t))
      | RELEASE_SAVEPOINT name =>
          match from_savepoint name (savepoints t) with
          | Some (_, l) => (Ok [], Txn (tables t) (drop 1 l) false (legacy t) (now t))
          | None => abort NO_SAVEPOINT t
          end
      | DELIVERY_NOW => (Ok [[("now", bigint (now t))]], t)
      | CHECK_LAYOUT => (Ok [[("legacy", VBool (legacy t))]], t)
      | _ => on_tables (exec s) t
      end
  end.
End run.

(** BEGIN on the committed tables, and what COMMIT leaves of the transaction's:
    the temporary table is emptied. *)
Definition begin (d : db) (legacy : bool) (now : Z) : txn := Txn d [] false legacy now.
Definition commit (t : txn) : db :=
  set_cursors (match cursors (tables t) with Some _ => Some ∅ | None => None end) (tables t).
