(* ===== verification/Wellformed.v ===== *)
(** The invariant of the framework's tables: what the CHECKs and the references
    say of them, and what only the statements of [sql.mts] together guarantee --
    the retained results of a Store are exactly the settled prefix of its current
    batch or the whole of its last one, and no position or reserved cursor lies
    past its Stream's head.  Every statement preserves it. *)
From S2P Require Import Prelude Text Json Database.
Open Scope Z_scope.

(** The batch whose results are kept, and how many of them. *)
Definition retained (r : store_row) : Z * Z :=
  match current_digest r with
  | None => (last_processed_batch_id r, default 0 (last_count r))
  | Some _ => (last_processed_batch_id r + 1, progress r)
  end.
(** A cursor of [stream] that its head has reached. *)
Definition reached (d : db) (stream : string) (c : Z) : Prop :=
  ∃ h, streams d !! stream = Some h ∧ 1 ≤ c ≤ h.
Definition known_id (d : db) (id : Z) : Prop := ∃ k, records d !! k = Some id.

Record wf (d : db) : Prop := Wf {
  wf_stores : ∀ id r, stores d !! id = Some r → check_store r = true;
  wf_result : ∀ id b o x, results d !! (id, b, o) = Some x →
    check_result b o x = true ∧ is_Some (stores d !! id);
  wf_retained : ∀ id r b o, stores d !! id = Some r →
    is_Some (results d !! (id, b, o)) ↔ b = (retained r).1 ∧ 0 ≤ o < (retained r).2;
  wf_heads : ∀ s h, streams d !! s = Some h → 1 ≤ h ≤ MAX_SAFE;
  wf_ids : ∀ k i, records d !! k = Some i → 1 ≤ i < next_record d;
  wf_identity : ∀ k j i, records d !! k = Some i → records d !! j = Some i → k = j;
  wf_members : ∀ s i p, members d !! (s, i) = Some p → reached d s (cursor p) ∧ known_id d i;
  wf_cursors : ∀ m s c n, cursors d = Some m → m !! (s, c) = Some n → reached d s n;
  wf_sequence : 1 ≤ next_record d }.

Lemma wf_empty : wf empty_db.
Proof. by split; intros; simplify_map_eq. Qed.

(** ** Reading the CHECKs *)
Lemma check_store_spec r : check_store r = true ↔
  0 ≤ last_processed_batch_id r ≤ MAX_SAFE ∧ 0 ≤ progress r ≤ MAX_SAFE ∧
  (∀ c, start_cursor r = Some c → 0 ≤ c ≤ MAX_SAFE) ∧
  ((current_digest r = None ∧ current_count r = None ∧ progress r = 0) ∨
   (∃ g n, current_digest r = Some g ∧ current_count r = Some n ∧ 1 ≤ n ≤ MAX_SAFE ∧ progress r < n)) ∧
  ((last_digest r = None ∧ last_count r = None ∧ last_processed_batch_id r = 0) ∨
   (∃ g n, last_digest r = Some g ∧ last_count r = Some n ∧ 1 ≤ n ≤ MAX_SAFE ∧ 0 < last_processed_batch_id r)).
Proof.
  destruct r as [who st last done cg cn lg ln prep start]. unfold check_store, counter, positive_counter; simpl.
  rewrite !andb_true_iff, !Z.leb_le.
  assert ((match start with Some c => (0 <=? c) && (c <=? MAX_SAFE) | None => true end = true) ↔
          (∀ c, start = Some c → 0 ≤ c ≤ MAX_SAFE)) as ->.
  { destruct start as [c|]; [|by split].
    rewrite andb_true_iff, !Z.leb_le. split; [by intros ? ? [= <-]|auto]. }
  destruct cg as [cg|], cn as [cn|], lg as [lg|], ln as [ln|];
    rewrite ?andb_true_iff, ?Z.ltb_lt, ?Z.leb_le, ?Z.eqb_eq;
    split; intros H; decompose [and or ex] H; simplify_eq;
    split_and!; eauto 10; try (by exfalso); try (left; split_and!; done);
    try (right; eexists _, _; split_and!; eauto; lia); try lia; auto.
Qed.

Section statements.
Context `{Columns}.

(** ** Stores *)
Lemma wf_store_insert id who stream d :
  wf d → wf (sql_store_insert id who stream d).2.
Proof.
  intros W. unfold sql_store_insert. destruct (stores d !! id) eqn:Hid; [done|]. simpl.
  destruct W as [Ws Wr Wt Wh Wi Wk Wm Wc Wq]. split; simpl; eauto.
  - intros i r. rewrite lookup_insert_Some. intros [[<- <-]|[? Hr]]; [done|eauto].
  - intros i b o x Hx. destruct (Wr _ _ _ _ Hx) as [? [r Hr]].
    split; [done|]. rewrite lookup_insert_is_Some'. right. by exists r.
  - intros i r b o. rewrite lookup_insert_Some. intros [[<- <-]|[? Hr]]; [|eauto].
    simpl. split; [|lia]. intros [x Hx].
    destruct (Wr _ _ _ _ Hx) as [_ [r Hr]]. congruence.
Qed.

(** A store row replaced together with its results: what has to be shown. *)
Lemma wf_store_update id r r' rs d :
  wf d → stores d !! id = Some r → check_store r' = true →
  (∀ i b o, i ≠ id → rs !! (i, b, o) = results d !! (i, b, o)) →
  (∀ b o, is_Some (rs !! (id, b, o)) ↔ b = (retained r').1 ∧ 0 ≤ o < (retained r').2) →
  (∀ b o x, rs !! (id, b, o) = Some x → check_result b o x = true) →
  wf (set_results (λ _, rs) (set_stores <[id := r']> d)).
Proof.
  intros [Ws Wr Wt Wh Wi Wk Wm Wc Wq] Hr Hc Hother Hret Hchk. split; simpl; eauto.
  - intros i x. rewrite lookup_insert_Some. intros [[<- <-]|[? Hx]]; [done|eauto].
  - intros i b o x Hx. destruct (decide (i = id)) as [->|Hi].
    + split; [eauto|]. by rewrite lookup_insert_eq.
    + rewrite Hother in Hx by done. destruct (Wr _ _ _ _ Hx). by rewrite lookup_insert_ne.
  - intros i x b o. rewrite lookup_insert_Some. intros [[<- <-]|[Hi Hx]]; [auto|].
    rewrite Hother by done. eauto.
Qed.
Lemma set_results_const f d : set_results f d = set_results (λ _, f (results d)) d.
Proof. done. Qed.
Lemma set_results_id d : set_results (λ _, results d) d = d.
Proof. by destruct d. Qed.

Lemma wf_batch_begin id batch digest count d :
  wf d → wf (sql_batch_begin id batch digest count d).2.
Proof.
  intros W. unfold sql_batch_begin. destruct (stores d !! id) as [r|] eqn:Hr; [|done].
  destruct (_ && _) eqn:Hg; [|done]. unfold update_store.
  destruct (check_store (begun digest count r)) eqn:Hc; [|done]. simpl.
  rewrite !andb_true_iff, Z.eqb_eq, bool_decide_eq_true, Z.eqb_eq in Hg.
  destruct Hg as [[Hb Hnone] Hp].
  rewrite set_results_const.
  eapply wf_store_update; [done|done|done|..].
  - intros i b o Hi. apply option_eq. intros x. rewrite map_lookup_filter_Some. simpl. naive_solver.
  - intros b o. unfold retained; simpl. rewrite Hp. split; [|lia].
    intros [x Hx]. apply map_lookup_filter_Some in Hx as [Hx Hn]. simpl in Hx, Hn.
    assert (is_Some (results d !! (id, b, o))) as Hs by eauto.
    eapply (wf_retained d W) in Hs; [|done]. unfold retained in Hs. rewrite Hnone in Hs. simpl in Hs.
    destruct Hn. split; [done|lia].
  - intros b o x Hx. apply map_lookup_filter_Some in Hx as [Hx _]. simpl in Hx.
    by apply (wf_result d W) in Hx as [? _].
Qed.

(** Inserting results writes the ordinals from [ordinal] on, and nothing else. *)
Lemma insert_result_spec id batch ordinal m v d d' :
  insert_result id batch ordinal m v d = Ok d' →
  ∃ x, check_result batch ordinal x = true ∧ result_json x = v ∧
    results d !! (id, batch, ordinal) = None ∧ Some (mutation_id x) = m ∧
    d' = set_results (<[(id, batch, ordinal) := x]>) d.
Proof.
  unfold insert_result. destruct m as [m|]; [|done].
  destruct (check_result _ _ _) eqn:Hc; simpl; [|done].
  destruct (duplicate_mutation _ _ _ _); simpl; [done|].
  case_bool_decide as Hs; [done|]. intros [= <-].
  eexists. split_and!; [done|done|by apply eq_None_not_Some|done|done].
Qed.
Lemma insert_results_spec id batch l ordinal d d' :
  insert_results id batch ordinal l d = Ok d' →
  ∃ rs, d' = set_results (λ _, rs) d ∧
    (∀ k, k.1 ≠ (id, batch) → rs !! k = results d !! k) ∧
    (∀ o x, rs !! (id, batch, o) = Some x →
       results d !! (id, batch, o) = Some x ∨ check_result batch o x = true) ∧
    (∀ o, is_Some (rs !! (id, batch, o)) ↔
       is_Some (results d !! (id, batch, o)) ∨ ordinal ≤ o < ordinal + Z.of_nat (length l)).
Proof.
  revert ordinal d. induction l as [|v l IH]; intros ordinal d; simpl.
  - intros [= <-]. exists (results d). rewrite set_results_id.
    split_and!; auto. intros o. split; [auto|]. intros [?|?]; [done|lia].
  - intros Hi. apply result_bind_inv in Hi as (d1 & H1 & H2).
    apply insert_result_spec in H1 as (x & Hc & _ & _ & _ & ->).
    apply IH in H2 as (rs & -> & Ho & Hx & Hs). simpl in *. exists rs. split_and!.
    + done.
    + intros k Hk. rewrite Ho by done. rewrite lookup_insert_ne; [done|]. by intros <-.
    + intros o y Hy. destruct (Hx o y Hy) as [Hl|]; [|auto].
      rewrite lookup_insert_Some in Hl. destruct Hl as [[[= ->] <-]|[_ ?]]; auto.
    + intros o. rewrite Hs, lookup_insert_is_Some.
      assert ((id, batch, ordinal) = (id, batch, o) ↔ ordinal = o) as Hq
        by (split; [by intros [= ->]|by intros ->]).
      split.
      * intros [[?%Hq|[_ ?]]|?]; [right; lia|by left|right; lia].
      * intros [?|?]; [|destruct (decide (ordinal = o)) as [->|?]].
        -- destruct (decide (ordinal = o)) as [->|Hne]; left; [by left|right].
           split; [|done]. by rewrite Hq.
        -- left. by left.
        -- right. lia.
Qed.

Lemma wf_advance id batch ordinal upto count r rs d :
  wf d → stores d !! id = Some r →
  last_processed_batch_id r = batch - 1 → progress r = ordinal → current_count r = Some count →
  check_store (advanced batch upto count r) = true → ordinal ≤ upto →
  (∀ k, k.1 ≠ (id, batch) → rs !! k = results d !! k) →
  (∀ o x, rs !! (id, batch, o) = Some x →
     results d !! (id, batch, o) = Some x ∨ check_result batch o x = true) →
  (∀ o, is_Some (rs !! (id, batch, o)) ↔
     is_Some (results d !! (id, batch, o)) ∨ ordinal ≤ o < upto) →
  wf (set_results (λ _, rs) (set_stores <[id := advanced batch upto count r]> d)).
Proof.
  intros W Hr Hb Hp Hn Hc Hle Ho Hx Hs.
  assert (check_store r = true) as Hcr by eauto using wf_stores.
  apply check_store_spec in Hcr as (? & ? & _ & [(_ & ? & _)|(g & n & Hg & Hn' & ? & ?)] & _);
    [congruence|]. rewrite Hn in Hn'. simplify_eq.
  assert (retained r = (batch, progress r)) as Hret.
  { unfold retained. rewrite Hg. f_equal. lia. }
  eapply wf_store_update; [done|done|done|..].
  - intros i b o Hi. apply Ho. simpl. congruence.
  - intros b o. assert (retained (advanced batch upto n r) = (batch, upto)) as ->.
    { unfold advanced, retained. destruct (Z.eqb_spec upto n) as [->|]; simpl.
      - by rewrite Hn.
      - rewrite Hg. f_equal. lia. }
    simpl. destruct (decide (b = batch)) as [->|Hne].
    + rewrite Hs, (wf_retained d W) by done. rewrite Hret. simpl. lia.
    + rewrite Ho by (simpl; congruence). rewrite (wf_retained d W) by done. rewrite Hret. simpl. tauto.
  - intros b o x Hxx. destruct (decide (b = batch)) as [->|Hne].
    + destruct (Hx _ _ Hxx) as [Hold|]; [|done]. by apply (wf_result d W) in Hold as [? _].
    + rewrite Ho in Hxx by (simpl; congruence). by apply (wf_result d W) in Hxx as [? _].
Qed.
Lemma wf_results_save id batch ordinal count size digest l d :
  size = Z.of_nat (length l) →
  wf d → wf (sql_results_save id batch ordinal count size digest l d).2.
Proof.
  intros Hsize W. unfold sql_results_save. destruct (stores d !! id) as [r|] eqn:Hr; [|done].
  destruct (_ && _) eqn:Hg; [|done].
  rewrite !andb_true_iff, !bool_decide_eq_true, !Z.eqb_eq, Z.leb_le, Z.ltb_lt in Hg.
  destruct Hg as [[[[[Hb Hp] Hn] Hdig] Hpos] Hup].
  unfold update_store. destruct (check_store _) eqn:Hc; simpl; [|done].
  destruct (insert_results _ _ _ _ _) as [d2|e] eqn:Hi; simpl; [|done].
  apply insert_results_spec in Hi as (rs & -> & Ho & Hx & Hs). simpl in *.
  eapply wf_advance; eauto; [lia|]. intros o. rewrite Hs. by rewrite Hsize.
Qed.
Lemma wf_result_save id batch ordinal count mutation v d :
  wf d → wf (sql_result_save id batch ordinal count mutation v d).2.
Proof.
  intros W. unfold sql_result_save. destruct (stores d !! id) as [r|] eqn:Hr; [|done].
  destruct (_ && _) eqn:Hg; [|done].
  rewrite !andb_true_iff, !bool_decide_eq_true, !Z.eqb_eq in Hg. destruct Hg as [[Hb Hp] Hn].
  unfold update_store. destruct (check_store _) eqn:Hc; simpl; [|done].
  destruct (insert_result _ _ _ _ _ _) as [d2|e] eqn:Hi; simpl; [|done].
  apply insert_result_spec in Hi as (x & Hxc & _ & Hnone & _ & ->). simpl in *.
  rewrite set_results_const. eapply (wf_advance _ _ ordinal); eauto; [lia|..].
  - intros k Hk. rewrite lookup_insert_ne; [done|]. by intros <-.
  - intros o y. rewrite lookup_insert_Some. intros [[[= ->] <-]|[_ ?]]; auto.
  - intros o. simpl. rewrite lookup_insert_is_Some. split.
    + intros [[= ->]|[_ ?]]; [right; lia|by left].
    + intros [?|?]; [|left; f_equal; lia].
      destruct (decide (ordinal = o)) as [->|]; [by left|right; split; [congruence|done]].
Qed.
Lemma wf_finish_bootstrap id d : wf d → wf (sql_finish_bootstrap id d).2.
Proof.
  intros W. unfold sql_finish_bootstrap. destruct (stores d !! id) as [r|] eqn:Hr; [|done].
  unfold update_store. destruct (check_store _) eqn:Hc; [|done]. simpl.
  pose proof (wf_store_update id r (bootstrapped d r) (results d) d W Hr Hc) as Hw.
  assert (∀ d', set_results (λ _, results d) (set_stores <[id := bootstrapped d r]> d) = d' → wf d')
    as Hk; [|by eapply Hk; destruct d].
  intros d' <-. apply Hw; [done| |].
  - intros b o. exact (wf_retained d W id r b o Hr).
  - intros b o x Hx. by apply (wf_result d W) in Hx as [? _].
Qed.

(** ** Identities *)
Lemma wf_skip_sequence d n : next_record d ≤ n → wf d → wf (set_records id n d).
Proof.
  intros Hn [Ws Wr Wt Wh Wi Wk Wm Wc Wq]. split; simpl; eauto; [|lia].
  intros k i Hk. specialize (Wi _ _ Hk). unfold id. lia.
Qed.
Lemma wf_new_record d k : records d !! k = None →
  wf d → wf (set_records <[k := next_record d]> (next_record d + 1) d).
Proof.
  intros Hk [Ws Wr Wt Wh Wi Wk Wm Wc Wq]. split; simpl; eauto; [..|lia].
  - intros j i. rewrite lookup_insert_Some. intros [[<- <-]|[? Hj]]; [lia|].
    specialize (Wi _ _ Hj). lia.
  - intros j1 j2 i. rewrite !lookup_insert_Some. intros [[<- <-]|[? H1]] [[<- H2]|[? H2]]; auto.
    + specialize (Wi _ _ H2). lia.
    + subst. specialize (Wi _ _ H1). lia.
    + eauto.
  - intros s i p Hp. destruct (Wm _ _ _ Hp) as [? [j Hj]]. split; [done|].
    exists j. simpl. rewrite lookup_insert_ne; [done|]. congruence.
Qed.
Definition ensure_one (k : key) (d : db) : db :=
  match records d !! k with
  | Some _ => set_records id (next_record d + 1) d
  | None => set_records <[k := next_record d]> (next_record d + 1) d
  end.
Lemma wf_ensure_one k d : wf d → wf (ensure_one k d).
Proof.
  intros W. unfold ensure_one. destruct (records d !! k) eqn:Hk.
  - apply wf_skip_sequence; [lia|done].
  - by apply wf_new_record.
Qed.
Lemma wf_ensure_all seen group d rows d' : ensure_all seen group d = Ok (rows, d') → wf d → wf d'.
Proof.
  revert seen d rows. induction group as [|v group IH]; intros seen d rows; simpl.
  { by intros [= <- <-]. }
  destruct (jsonKey v) as [k|]; [|done]. case_bool_decide; [done|]. fold (ensure_one k d).
  intros He W. apply result_bind_inv in He as ([more d2] & He & [= <- <-]).
  eapply IH; [done|]. by apply wf_ensure_one.
Qed.

(** ** Publication *)
Lemma wf_publication_cursors d : wf d → wf (sql_publication_cursors d).2.
Proof.
  intros W. unfold sql_publication_cursors. destruct (cursors d) eqn:Hc; [done|].
  destruct W as [Ws Wr Wt Wh Wi Wk Wm Wc Wq]. split; simpl; eauto.
  intros m s c n [= <-]. by rewrite lookup_empty.
Qed.
(** Heads only grow. *)
Definition heads_le (d d' : db) : Prop :=
  ∀ s h, streams d !! s = Some h → ∃ h', streams d' !! s = Some h' ∧ h ≤ h'.
Lemma reached_mono d d' s c : heads_le d d' → reached d s c → reached d' s c.
Proof. intros Hh (h & Hs & ?). destruct (Hh _ _ Hs) as (h' & ? & ?). exists h'. split; [done|lia]. Qed.
#[global] Instance heads_le_refl : Reflexive heads_le.
Proof. intros d s h ?. by exists h. Qed.
#[global] Instance heads_le_trans : Transitive heads_le.
Proof.
  intros d1 d2 d3 H1 H2 s h Hs. destruct (H1 _ _ Hs) as (h1 & Hs1 & ?).
  destruct (H2 _ _ Hs1) as (h2 & ? & ?). exists h2. split; [done|lia].
Qed.
Lemma wf_reserve stream scope d c d' :
  wf d → reserve stream scope d = Ok (c, d') →
  wf d' ∧ heads_le d d' ∧ records d' = records d ∧ (∀ n, c = Some n → reached d' stream n).
Proof.
  intros W. unfold reserve. destruct (cursors d) as [m|] eqn:Hm; [|done].
  destruct (m !! (stream, scope)) as [n|] eqn:Hn.
  { intros [= <- <-]. split_and!; [done|done|done|].
    intros ? [= <-]. by eapply (wf_cursors d W). }
  assert (∀ h, 1 ≤ h ≤ MAX_SAFE → (∀ h0, streams d !! stream = Some h0 → h0 ≤ h) →
    let d1 := set_cursors (Some (<[(stream, scope) := h]> m)) (set_streams <[stream := h]> d) in
    wf d1 ∧ heads_le d d1 ∧ records d1 = records d ∧ (∀ n, Some h = Some n → reached d1 stream n))
    as Hfresh.
  { intros h Hh Hle d1. assert (heads_le d d1) as Hm1.
    { intros s h0 Hs. simpl. destruct (decide (s = stream)) as [->|].
      - exists h. rewrite lookup_insert_eq. auto.
      - exists h0. rewrite lookup_insert_ne by done. split; [done|lia]. }
    assert (reached d1 stream h) as Hr.
    { exists h. simpl. rewrite lookup_insert_eq. split; [done|lia]. }
    split_and!; [|done|done|by intros ? [= <-]].
    destruct W as [Ws Wr Wt Wh Wi Wk Wm Wc Wq]. split; try done.
    - intros s h0. simpl. rewrite lookup_insert_Some. intros [[<- <-]|[? ?]]; eauto.
    - intros s i p Hp. destruct (Wm _ _ _ Hp). eauto using reached_mono.
    - intros m' s c' n. simpl. intros [= <-]. rewrite lookup_insert_Some.
      intros [[[= <- <-] <-]|[_ Hl]]; [done|]. eauto using reached_mono. }
  destruct (streams d !! stream) as [h|] eqn:Hs.
  - destruct (Z.ltb_spec h MAX_SAFE).
    + intros [= <- <-]. apply Hfresh; [pose proof (wf_heads d W _ _ Hs); lia|].
      intros ? [= <-]. lia.
    + intros [= <- <-]. split_and!; done.
  - intros [= <- <-]. apply Hfresh; [unfold MAX_SAFE; lia|]. done.
Qed.

Lemma wf_upsert stream i c d d' :
  wf d → known_id d i → (∀ n, c = Some n → reached d stream n) →
  upsert_member stream i c d = Ok d' →
  wf d' ∧ streams d' = streams d ∧ records d' = records d.
Proof.
  intros W Hi Hc. unfold upsert_member. destruct c as [n|]; [|done].
  destruct (check_member _); simpl; [|done]. case_bool_decide; [|done].
  intros [= <-]. split; [|done].
  destruct W as [Ws Wr Wt Wh Wi Wk Wm Wc Wq]. split; simpl; eauto.
  intros s j p. rewrite lookup_insert_Some. intros [[[= <- <-] <-]|[_ Hp]]; simpl.
  - split; [by apply Hc|done].
  - by apply Wm in Hp.
Qed.
Lemma wf_write_members target seen group d d' :
  (∀ v s i c, v ∈ group → target v = Some (s, i, c) →
     known_id d i ∧ ∀ n, c = Some n → reached d s n) →
  wf d → write_members target seen group d = Ok d' →
  wf d' ∧ streams d' = streams d ∧ records d' = records d.
Proof.
  revert seen d. induction group as [|v group IH]; intros seen d Ht W; simpl.
  { by intros [= <-]. }
  destruct (target v) as [[[s i] c]|] eqn:Hv; [|intros; eapply IH; eauto; set_solver].
  case_bool_decide; [done|]. intros Hw. apply result_bind_inv in Hw as (d1 & H1 & H2).
  destruct (Ht v s i c) as [Hi Hc]; [by left|done|].
  apply wf_upsert in H1 as (W1 & Hs1 & Hr1); [|done..].
  apply IH in H2 as (W2 & Hs2 & Hr2); [|..|done].
  - rewrite Hs2, Hr2. auto.
  - intros w s' i' c' Hw Htw. unfold known_id, reached. rewrite Hs1, Hr1.
    eapply Ht; [by right|done].
Qed.

(** The cursors an applying statement is given are reached by their Streams. *)
Definition covered (d : db) (group : list value) : Prop :=
  ∀ v s i c, v ∈ group → wanted_target d v = Some (s, i, Some c) → reached d s c.
Lemma record_id_known d v i : record_id d v = Some i → known_id d i.
Proof. unfold record_id. intros (k & _ & Hk)%bind_Some. by exists k. Qed.
Lemma wf_apply_members group d :
  covered d group → wf d →
  wf (sql_apply_members_batch group d).2 ∧
  streams (sql_apply_members_batch group d).2 = streams d.
Proof.
  intros Hc W. unfold sql_apply_members_batch.
  destruct (write_members _ _ _ _) as [d'|e] eqn:Hw; simpl; [|done].
  apply wf_write_members in Hw as (W' & Hs & _); [done| |done].
  intros v s i c Hv Ht. split.
  - unfold wanted_target in Ht. destruct (jsonBool v "publish"); [|done].
    apply bind_Some in Ht as (? & _ & Ht). apply bind_Some in Ht as (j & Hj & [= -> -> _]).
    eauto using record_id_known.
  - intros n ->. eauto.
Qed.
Lemma wf_reserve_apply stream scope group d :
  wf d → wf (sql_reserve_apply_members stream scope group d).2.
Proof.
  intros W. unfold sql_reserve_apply_members.
  destruct (reserve stream scope d) as [[c d1]|e] eqn:Hr; simpl; [|done].
  apply wf_reserve in Hr as (W1 & Hh & Hrec & Hc); [|done].
  destruct (write_members _ _ _ _) as [d2|e] eqn:Hw; simpl; [|done].
  apply wf_write_members in Hw as (W' & _ & _); [done| |done].
  intros v s i c' Hv Ht. destruct c as [c|]; [|done].
  apply bind_Some in Ht as (j & Hj & [= <- <- <-]). split.
  - unfold known_id. rewrite Hrec. exact (record_id_known _ _ _ Hj).
  - intros n [= <-]. auto.
Qed.
Lemma wf_reserve_cursor stream scope d : wf d →
  wf (sql_reserve_cursor stream scope d).2 ∧ heads_le d (sql_reserve_cursor stream scope d).2.
Proof.
  intros W. unfold sql_reserve_cursor.
  destruct (reserve stream scope d) as [[[c|] d1]|e] eqn:Hr; simpl; [..|done];
    apply wf_reserve in Hr as (? & ? & _); done.
Qed.

(** ** Every statement *)
Definition statement_ok (d : db) (s : statement) : Prop :=
  match s with
  | V05_RESULTS_SAVE _ _ _ _ size _ l =>
      ∀ z es, size = VNum (NInt z) → l = VArr es → z = Z.of_nat (length es)
  | V05_APPLY_MEMBERS_BATCH l => ∀ es, l = VArr es → covered d es
  | _ => True
  end.
Lemma with_param_wf {A B} (p : result A) (f : A → io db B) (d : db) :
  wf d → (∀ a, p = Ok a → wf (f a d).2) → wf (with_param p f d).2.
Proof. intros W Hf. unfold with_param, mbind, io_bind, check. destruct p; simpl; eauto. Qed.
Ltac params := repeat (apply with_param_wf; [assumption|intros ? ?]).
Lemma exec_wf s d : statement_ok d s → wf d → wf (exec s d).2.
Proof.
  intros Hok W. destruct s; simpl; try assumption; params; simpl; try assumption.
  - by apply wf_store_insert.
  - by apply wf_batch_begin.
  - by apply wf_result_save.
  - apply wf_results_save; [|done].
    match goal with Hs : int8 ?size = Ok ?z, Hl : elements ?l = Ok ?es |- ?z = Z.of_nat (length ?es) =>
      destruct size as [| | |[]| | | | | |]; simplify_eq/=;
      destruct l; simplify_eq/=; eauto
    end.
  - by apply wf_publication_cursors.
  - by apply wf_reserve_cursor.
  - unfold sql_ensure_identities. destruct (ensure_all _ _ _) as [[]|] eqn:He; simpl; [|done].
    by eapply wf_ensure_all.
  - apply wf_apply_members; [|done]. apply Hok. destruct group; simplify_eq/=; done.
  - by apply wf_reserve_apply.
  - by apply wf_finish_bootstrap.
  - destruct page; params; by apply W.
Qed.

(** ** What only grows *)
Definition grows (d d' : db) : Prop :=
  heads_le d d' ∧ records d ⊆ records d' ∧ next_record d ≤ next_record d'.
#[global] Instance grows_refl : Reflexive grows.
Proof. by intros d. Qed.
#[global] Instance grows_trans : Transitive grows.
Proof.
  intros d1 d2 d3 (? & ? & ?) (? & ? & ?). split_and!; [by etrans|by etrans|lia].
Qed.
Lemma grows_same d d' :
  streams d' = streams d → records d' = records d → next_record d' = next_record d → grows d d'.
Proof. unfold grows, heads_le. intros -> -> ->. split_and!; [eauto with lia|done|lia]. Qed.
Lemma with_param_grows {A B} (p : result A) (f : A → io db B) (d : db) :
  (∀ a, grows d (f a d).2) → grows d (with_param p f d).2.
Proof. intros Hf. unfold with_param, mbind, io_bind, check. by destruct p; simpl. Qed.
Lemma insert_results_grows id batch l ordinal d d' :
  insert_results id batch ordinal l d = Ok d' → grows d d'.
Proof. intros (rs & -> & _)%insert_results_spec. by apply grows_same. Qed.
Lemma ensure_one_grows k d : grows d (ensure_one k d).
Proof.
  assert (∀ d', streams d' = streams d → heads_le d d') as Hh
    by (intros d' Hd s h; rewrite Hd; eauto with lia).
  unfold ensure_one. destruct (records d !! k) eqn:Hk; (split; [by apply Hh|split; simpl; [|lia]]).
  - done.
  - by apply insert_subseteq.
Qed.
Lemma ensure_all_grows seen group d rows d' : ensure_all seen group d = Ok (rows, d') → grows d d'.
Proof.
  revert seen d rows. induction group as [|v group IH]; intros seen d rows; simpl.
  { by intros [= <- <-]. }
  destruct (jsonKey v) as [k|]; [|done]. case_bool_decide; [done|]. fold (ensure_one k d).
  intros He. apply result_bind_inv in He as ([more d2] & He & [= <- <-]).
  etrans; [apply ensure_one_grows|]. by eapply IH.
Qed.
Lemma reserve_grows stream scope d c d' : reserve stream scope d = Ok (c, d') → grows d d'.
Proof.
  unfold reserve. repeat case_match; intros; simplify_eq; try done;
    (split; [|split; [done|simpl; lia]]); intros s h Hs; simpl;
    (destruct (decide (s = stream)) as [->|];
      [rewrite lookup_insert_eq; eexists; split; [done|];
       rewrite ?Z.ltb_lt in *; simplify_eq; lia
      |rewrite lookup_insert_ne by done; eauto with lia]).
Qed.
Lemma write_members_grows target seen group d d' :
  write_members target seen group d = Ok d' → grows d d'.
Proof.
  revert seen d. induction group as [|v group IH]; intros seen d; simpl.
  { by intros [= <-]. }
  destruct (target v) as [[[s i] c]|]; [|eauto]. case_bool_decide; [done|].
  intros Hw. apply result_bind_inv in Hw as (d1 & H1 & H2).
  etrans; [|by eapply IH]. unfold upsert_member in H1. repeat case_match; simplify_eq.
  by apply grows_same.
Qed.
Lemma update_store_grows id r d d' : update_store id r d = Ok d' → grows d d'.
Proof. unfold update_store. case_match; intros; simplify_eq. by apply grows_same. Qed.
Lemma exec_grows s d : grows d (exec s d).2.
Proof.
  destruct s; simpl; try done; repeat (apply with_param_grows; intros); try done.
  - unfold sql_store_insert. case_match; [done|]. by apply grows_same.
  - unfold sql_batch_begin. destruct (stores d !! a) as [r|]; [|done]. case_if; [|done].
    destruct (update_store _ _ _) as [d'|] eqn:Hu; [|done].
    apply update_store_grows in Hu. etrans; [exact Hu|]. by apply grows_same.
  - unfold sql_result_save. destruct (stores d !! a) as [r|]; [|done]. case_if; [|done].
    destruct (_ ≫= _) as [d'|] eqn:Hu; [|done]. apply result_bind_inv in Hu as (d1 & H1 & H2).
    etrans; [by eapply update_store_grows|].
    apply insert_result_spec in H2 as (x & _ & _ & _ & _ & ->). by apply grows_same.
  - unfold sql_results_save. destruct (stores d !! a) as [r|]; [|done]. case_if; [|done].
    destruct (_ ≫= _) as [d'|] eqn:Hu; [|done]. apply result_bind_inv in Hu as (d1 & H1 & H2).
    etrans; [by eapply update_store_grows|]. by eapply insert_results_grows.
  - unfold sql_publication_cursors. case_match; [done|]. by apply grows_same.
  - unfold sql_reserve_cursor. repeat case_match; simpl; try done; by eapply reserve_grows.
  - unfold sql_ensure_identities. repeat case_match; simpl; try done. by eapply ensure_all_grows.
  - unfold sql_apply_members_batch. case_match; simpl; try done. by eapply write_members_grows.
  - unfold sql_reserve_apply_members.
    destruct (reserve _ _ _) as [[c d1]|] eqn:Hr; simpl; [|done].
    destruct (write_members _ _ _ _) as [d2|] eqn:Hw; simpl; [|done].
    etrans; [by eapply reserve_grows|by eapply write_members_grows].
  - unfold sql_finish_bootstrap. repeat case_match; simpl; try done. by eapply update_store_grows.
  - destruct page; repeat (apply with_param_grows; intros); done.
Qed.
End statements.

(** * Transactions

    Every savepoint keeps a well-formed state whose sequence is behind the
    current one. *)
Record wf_txn (t : txn) : Prop := WfTxn {
  wf_tables : wf (tables t);
  wf_savepoints : Forall (λ e, wf e.2 ∧ next_record e.2 ≤ next_record (tables t)) (savepoints t) }.

Lemma wf_begin d legacy now : wf d → wf_txn (begin d legacy now).
Proof. intros W. by split; [|constructor]. Qed.
Lemma wf_commit t : wf_txn t → wf (commit t).
Proof.
  intros [[Ws Wr Wt Wh Wi Wk Wm Wc Wq] _]. unfold commit. split; simpl; eauto.
  intros m s c n Hm. destruct (cursors (tables t)); simplify_eq. by rewrite lookup_empty.
Qed.

Lemma wf_keep_sequence n d : wf d → next_record d ≤ n → wf (keep_sequence n d).
Proof. intros. by apply wf_skip_sequence. Qed.
Lemma from_savepoint_elem name l d l' :
  from_savepoint name l = Some (d, l') → (name, d) ∈ l ∧ l' `suffix_of` l ∧ ∃ n l2, l' = (n, d) :: l2.
Proof.
  induction l as [|[n d0] l IH]; simpl; [done|]. destruct (String.eqb_spec n name) as [->|].
  - intros [= <- <-]. split_and!; [by left|done|eauto].
  - intros (? & ? & ?)%IH. split_and!; [by right|by apply suffix_cons_r|done].
Qed.
Lemma Forall_suffix {A} (P : A → Prop) l l' : l' `suffix_of` l → Forall P l → Forall P l'.
Proof. intros [k ->]. rewrite Forall_app. tauto. Qed.

Section run.
Context `{Columns}.
Lemma wf_on_tables (m : io db (list row)) t :
  wf (m (tables t)).2 → grows (tables t) (m (tables t)).2 →
  wf_txn t → wf_txn (on_tables m t).2.
Proof.
  intros W (_ & _ & Hn) [_ Hs]. unfold on_tables.
  destruct (m (tables t)) as [[r|e] d]; simpl in *; split; simpl; try done;
    (eapply Forall_impl; [exact Hs|]; simpl; intros ? [? ?]; split; [done|lia]).
Qed.
Lemma run_wf s t : statement_ok (tables t) s → wf_txn t → wf_txn (run s t).2.
Proof.
  intros Hok W. pose proof W as [Wd Ws].
  assert (wf_txn (on_tables (exec s) t).2) as Hexec
    by (apply wf_on_tables; auto using exec_wf, exec_grows).
  destruct s; simpl; try (case_match; [done|exact Hexec]); try (case_match; simpl; done).
  - case_match; [done|]. split; simpl; [done|]. constructor; [|done]. simpl. split; [done|lia].
  - destruct (from_savepoint name (savepoints t)) as [[d l]|] eqn:Hl; simpl; [|by split].
    apply from_savepoint_elem in Hl as (Hin & Hsuf & _).
    rewrite Forall_forall in Ws. destruct (Ws _ Hin) as [Wd0 Hn]. simpl in *.
    split; simpl; [by apply wf_keep_sequence|].
    eapply Forall_suffix; [done|]. by apply Forall_forall.
  - case_match; [done|].
    destruct (from_savepoint name (savepoints t)) as [[d l]|] eqn:Hl; simpl; [|by split].
    apply from_savepoint_elem in Hl as (_ & Hsuf & _).
    split; simpl; [done|]. by apply Forall_drop, (Forall_suffix _ _ _ Hsuf).
Qed.
(** Outside a rollback, heads and identities only grow. *)
Lemma run_grows s t : (∀ name, s ≠ ROLLBACK_TO_SAVEPOINT name) →
  grows (tables t) (tables (run s t).2).
Proof.
  intros Hs. assert (grows (tables t) (tables (on_tables (exec s) t).2)) as Hexec.
  { unfold on_tables. pose proof (exec_grows s (tables t)).
    by destruct (exec s (tables t)) as [[r|e] d]. }
  destruct s; simpl; try (case_match; [done|exact Hexec]); try (case_match; simpl; done).
  - by destruct (Hs name).
  - by repeat case_match.
Qed.
End run.
