(* ===== verification/Persistence.v ===== *)
(** The persistence half of the host contract:
    [backend/postgres/src/persistence.mts].

    [answer05] and [answerInitialized] are the code's switches, over an abstract
    query function; the theorems run them on the tables of [Database.v].  A
    request and an answer are JavaScript values; the request is the engine's
    host contract, so an array of it is an array, null or missing. *)
From S2P Require Import Prelude Text Json Database.
From stdpp Require Import sorting.
Open Scope Z_scope.
Open Scope axton_scope.

(** * Guards *)
Definition safe (v : value) : result Z :=
  match toNumber v with
  | NInt z => if (0 <=? z) && (z <=? MAX_SAFE) then Ok z
              else raise "Stored counter outside safe range"
  | _ => raise "Stored counter outside safe range"
  end.
Definition positiveCounter (v : value) : result Z :=
  match toNumber v with
  | NInt z => if (1 <=? z) && (z <=? MAX_SAFE) then Ok z
              else raise "Stored counter outside safe positive range"
  | _ => raise "Stored counter outside safe positive range"
  end.
Definition streamName (v : value) : result string :=
  match v with
  | VStr s =>
      if blank s then raise ("Invalid tracking stream " +:+ quote s) else Ok s
  | _ =>
      text ← stringify v;
      raise ("Invalid tracking stream " +:+ default "undefined" text)
  end.
Definition STREAM_BATCH : nat := 1000.
Arguments STREAM_BATCH : simpl never.

(** [batches]: consecutive groups of at most [size], by the index loop's steps. *)
Fixpoint batchesOf {A} (size : nat) (fuel : nat) (items : list A) : list (list A) :=
  match fuel, items with
  | S fuel, _ :: _ => take size items :: batchesOf size fuel (drop size items)
  | _, _ => []
  end.
Definition batches {A} (items : list A) : list (list A) :=
  batchesOf STREAM_BATCH (length items) items.

(** [byteOrder]: the difference of the first code points that differ, else of
    the lengths. *)
Fixpoint firstDifference (x y : list Z) : Z :=
  match x, y with
  | a :: x', b :: y' => if a =? b then firstDifference x' y' else a - b
  | _, _ => Z.of_nat (length x) - Z.of_nat (length y)
  end.
Definition byteOrder (a b : string) : Z := firstDifference (codePoints a) (codePoints b).
Definition byte_le (a b : string) : Prop := byteOrder a b ≤ 0.
#[export] Instance byte_le_dec : RelDecision byte_le.
Proof. intros a b. unfold byte_le. apply _. Defined.

Definition fieldsOf (v : value) (fields : list string) (what : string) : result value :=
  match v with
  | VObj l =>
      match filter (λ e : string * value, e.1 ∉ fields) l with
      | [] => Ok v
      | e :: _ => raise ("Unknown " +:+ what +:+ " field " +:+ e.1)
      end
  | VDate _ => Ok v
  | _ => raise (what +:+ " must be an object")
  end.
Definition nonEmpty (v : value) (what : string) : result string :=
  match v with
  | VStr s => if String.eqb s EmptyString then raise (what +:+ " must be a non-empty string") else Ok s
  | _ => raise (what +:+ " must be a non-empty string")
  end.
Definition isString (v : value) : option string := match v with VStr s => Some s | _ => None end.
Definition strings (v : value) (what : string) : result (list string) :=
  match v with
  | VArr items =>
      match mapM isString items with
      | Some l => if (length (uniq l) =? length l)%nat then Ok l
                  else raise (what +:+ " repeats an entry")
      | None => raise (what +:+ " must be an array of strings")
      end
  | _ => raise (what +:+ " must be an array of strings")
  end.
Definition json (v : value) : result value :=
  match v with VStr s => parse s | _ => Ok v end.

(** A record key: the request's object and its two checked names. *)
Record key_fields := KeyFields { own : value; model : string; identityKey : string }.
Definition spread (v : value) : list (string * value) :=
  match v with VObj l => l | _ => [] end.
Definition keyOf (v : value) (extra : list string) : result key_fields :=
  k ← fieldsOf v ("model" :: "identityKey" :: extra) "record key";
  m ← nonEmpty (get k "model") "record model";
  i ← nonEmpty (get k "identityKey") "record identityKey";
  Ok (KeyFields (VObj (setField "identityKey" (VStr i) (setField "model" (VStr m) (spread k)))) m i).
(** [pairId] of an object with these [stream], [model] and [identityKey] *)
Definition pairId (stream : value) (model identityKey : string) : result string :=
  default EmptyString <$> stringify (VArr [stream; VStr model; VStr identityKey]).
Definition pairIdOf (k : key_fields) : result string :=
  pairId (get (own k) "stream") (model k) (identityKey k).
Definition arrayOf (v : value) (what : string) : result (list value) :=
  match v with VArr l => Ok l | _ => raise (what +:+ " must be an array") end.
Definition unique (l : list key_fields) (what : string) : result unit :=
  ids ← mapM pairIdOf l;
  if (length (uniq ids) =? length ids)%nat then Ok tt else raise (what +:+ " repeats a key").

(** * Operations *)
Section operations.
Context {S : Type} (q : statement → io S (list row)).
Notation "'let!' x ':=' r 'in' k" := (mbind (M := io S) (λ x, k) (check r))
  (at level 100, x pattern at level 99, r at level 99, k at level 200).

Definition num (z : Z) : value := VNum (NInt z).
Lemma safe_num z : 0 ≤ z ≤ MAX_SAFE → safe (num z) = Ok z.
Proof. intros. unfold safe, num. simpl. by rewrite !(proj2 (Z.leb_le _ _)) by lia. Qed.
Lemma positiveCounter_num z : 1 ≤ z ≤ MAX_SAFE → positiveCounter (num z) = Ok z.
Proof. intros. unfold positiveCounter, num. simpl. by rewrite !(proj2 (Z.leb_le _ _)) by lia. Qed.
(** [canonical order]: every name after its predecessor. *)
Fixpoint ascending (l : list string) : bool :=
  match l with
  | a :: (b :: _) as l' => (byteOrder a b <? 0) && ascending l'
  | _ => true
  end.
Definition lockStreams (r : value) : io S value :=
  let! request := fieldsOf r ["op"; "streams"] "lockStreams" in
  let! streams := strings (get request "streams") "lockStreams streams" in
  guard! negb (length streams =? 0)%nat else throw (Error "lockStreams needs at least one Stream");
  let! _ := mapM (λ s, streamName (VStr s)) streams in
  guard! ascending streams else throw (Error "lockStreams needs canonical order");
  _ ← forEach (λ group, _ ← q (LOCK_STREAMS (VArr (VStr <$> group))); mret tt) (batches streams);
  mret VNull.

(** [const [row] = await q(...)] *)
Definition first (s : statement) : io S (option row) := rows ← q s; mret (head rows).

Definition bootstrapState (r : value) : io S value :=
  o ← first (BOOTSTRAP_STATE (get r "storeId"));
  match o with
  | None => throw (Error "Store missing")
  | Some row => mret (column row "bootstrap_prepared")
  end.
Definition finishBootstrap (r : value) : io S value :=
  _ ← q (FINISH_BOOTSTRAP (get r "storeId")); mret VNull.
(** [deliveryHead], and [head] of [answerInitialized] *)
Definition deliveryHead (r : value) : io S value :=
  o ← first (HEAD (get r "stream"));
  match o with
  | None => mret (num 0)
  | Some row => let! h := safe (column row "head") in mret (num h)
  end.
Definition deliveryNow : io S value :=
  o ← first DELIVERY_NOW;
  let! row := from_option Ok (Throw (TypeError "Cannot read properties")) o in
  let! t := safe (column row "now") in mret (num t).

Definition items (v : value) : list value := match v with VArr l => l | _ => [] end.
Definition candidateOf (row : row) : result value :=
  c ← positiveCounter (column row "cursor");
  Ok (VObj [("model", column row "model"); ("identityKey", column row "identity_key");
            ("cursor", num c); ("kind", column row "kind")]).
Definition checkTracked (stream : value) (group : list value) : io S unit :=
  rows ← q (TRACKED_COUNT stream (VArr group));
  let! row := from_option Ok (Throw (TypeError "Cannot read properties")) (head rows) in
  let! n := safe (column row "n") in
  guard! n =? Z.of_nat (length group) else throw (Error "delivery.identity_untracked");
  mret tt.
Definition deliveryCandidates (r : value) : io S value :=
  let keys := get r "keys" in
  let! capacity := safe (get r "capacity") in
  let cap := capacity `min` 100000 in
  _ ← forEach (checkTracked (get r "stream")) (batches (items keys));
  let! pageSize :=
    if nullish (get r "pageSize") then Ok None
    else n ← positiveCounter (get r "pageSize"); Ok (Some (n `min` cap)) in
  let! after := safe (get r "after") in
  rows ← q (DELIVERY_CANDIDATES (get r "stream") (num after) (get r "models")
              (coalesce keys (VArr [])) (num (cap + 1)) ((λ n, num (n + 1)) <$> pageSize));
  guard! negb (cap <? Z.of_nat (length rows)) else mret VNull;
  let! found := mapM candidateOf rows in
  mret (VArr found).

Definition inspectStore (r : value) : io S value :=
  o ← first (V05_STORE_INSPECT (get r "storeId"));
  mret (match o with
        | Some row => VObj [("principal", column row "principal"); ("stream", column row "stream")]
        | None => VNull end).
Definition nullableSafe (v : value) : result value :=
  match v with VNull => Ok VNull | _ => num <$> safe v end.
Definition claimStore (r : value) : io S value :=
  o ← first (V05_STORE_LOCK (get r "storeId"));
  o ← match o with
      | Some row => mret (Some row)
      | None =>
          _ ← q (V05_STORE_INSERT (get r "storeId") (get r "principal") (get r "stream"));
          first (V05_STORE_LOCK (get r "storeId"))
      end;
  match o with
  | None => throw (Error "Store missing")
  | Some row =>
      let! last := safe (column row "last_processed_batch_id") in
      let! done := safe (column row "progress") in
      let! count := nullableSafe (column row "current_count") in
      let! lastCount := nullableSafe (column row "last_count") in
      mret (VObj [("principal", column row "principal"); ("stream", column row "stream");
        ("lastProcessedBatchId", num last); ("progress", num done);
        ("currentDigest", column row "current_digest"); ("currentCount", count);
        ("lastDigest", column row "last_digest"); ("lastCount", lastCount)])
  end.

Definition beginBatch (r : value) : io S value :=
  rows ← q (V05_BATCH_BEGIN (get r "storeId") (get r "batchId") (get r "digest") (get r "count"));
  guard! (length rows =? 1)%nat else throw (Error "Batch admission state changed");
  mret VNull.
Definition readResult (r : value) : io S value :=
  o ← first (V05_RESULT_READ (get r "storeId") (get r "batchId") (get r "ordinal"));
  match o with
  | Some row => check (json (column row "result"))
  | None => mret VNull
  end.
Definition readResults (r : value) : io S value :=
  rows ← q (V05_RESULTS_READ (get r "storeId") (get r "batchId"));
  let! l := mapM (λ row, json (column row "result")) rows in
  mret (VArr l).
Definition saveResult (r : value) : io S value :=
  let! mutation := dot (get r "result") "mutationId" in
  rows ← q (V05_RESULT_SAVE (get r "storeId") (get r "batchId") (get r "ordinal")
              (get r "count") mutation (get r "result"));
  guard! (length rows =? 1)%nat else throw (Error "Batch progress state changed");
  mret VNull.
Definition saveResults (r : value) : io S value :=
  let! results := arrayOf (get r "results") "group results" in
  guard! negb ((length results =? 0)%nat || (32 <? Z.of_nat (length results)))
    else throw (Error "Invalid result group size");
  let! ordinal := safe (get r "ordinal") in
  let! count := positiveCounter (get r "count") in
  guard! negb (count <? ordinal + Z.of_nat (length results))
    else throw (Error "Invalid result group range");
  rows ← q (V05_RESULTS_SAVE (get r "storeId") (get r "batchId") (num ordinal) (num count)
              (num (Z.of_nat (length results))) (get r "digest") (VArr results));
  guard! (length rows =? length results)%nat else throw (Error "Batch progress state changed");
  mret VNull.

Definition trackingPair (row : row) : value :=
  VObj [("stream", column row "stream"); ("model", column row "model");
        ("identityKey", column row "identity_key")].
Definition readTracking (r : value) : io S value :=
  let! records := arrayOf (get r "records") "tracking records" in
  let! pairs := arrayOf (get r "pairs") "tracking pairs" in
  match records, pairs with
  | [], [] => mret (VArr [])
  | [], [p] =>
      let! key := keyOf p ["stream"] in
      let! s := streamName (get (own key) "stream") in
      rows ← q (READ_TRACKING_PAIR (VStr (model key)) (VStr (identityKey key)) (VStr s));
      mret (VArr (trackingPair <$> rows))
  | [p], [] =>
      let! record := keyOf p [] in
      rows ← q (READ_TRACKING_RECORD (VStr (model record)) (VStr (identityKey record)));
      mret (VArr (trackingPair <$> rows))
  | _, _ =>
      rows ← q (READ_TRACKING (VArr records) (VArr pairs));
      mret (VArr (trackingPair <$> rows))
  end.

(** The guard's mode, as [===] compares it. *)
Definition mode (k : key_fields) : value := get (own k) "mode".
Definition guardMode (k : key_fields) : bool :=
  bool_decide (toText (mode k) ∈ ["ensure"; "lock"]).
Definition guard_before (a b : key_fields) : bool :=
  negb ((0 <? byteOrder (model a) (model b))
        || (String.eqb (model a) (model b) && (0 <=? byteOrder (identityKey a) (identityKey b)))).
Fixpoint checkGuards (prior : option key_fields) (l : list key_fields) : result unit :=
  match l with
  | [] => Ok tt
  | k :: l' =>
      if negb (guardMode k) then raise "invalid guard mode"
      else if from_option (λ p, negb (guard_before p k)) false prior
      then raise "guards must be canonically ordered"
      else checkGuards (Some k) l'
  end.
(** The longest run of at most [n] guards of one mode, and the rest. *)
Fixpoint sameMode (m : value) (n : nat) (l : list key_fields) : list key_fields * list key_fields :=
  match n, l with
  | Datatypes.S n, k :: l' =>
      if strictEq (mode k) m then let '(run, rest) := sameMode m n l' in (k :: run, rest) else ([], l)
  | _, _ => ([], l)
  end.
Definition guardRun (group : list key_fields) (m : value) : io S (list bool) :=
  let sent := VArr (own <$> group) in
  rows ← q (if strictEq m (VStr "lock") then LOCK_IDENTITIES sent else ENSURE_IDENTITIES sent);
  let! represented := mapM (λ row,
    pairId VUndef (toText (column row "model")) (toText (column row "identity_key"))) rows in
  let! ids := mapM pairIdOf group in
  mret ((λ id, bool_decide (id ∈ represented)) <$> ids).
Fixpoint guardRuns (fuel : nat) (l : list key_fields) : io S (list bool) :=
  match fuel, l with
  | Datatypes.S fuel, k :: l' =>
      let '(run, rest) := sameMode (mode k) (STREAM_BATCH - 1) l' in
      here ← guardRun (k :: run) (mode k);
      more ← guardRuns fuel rest;
      mret (here ++ more)
  | _, _ => mret []
  end.
Definition guardRecords (r : value) : io S value :=
  let! raw := arrayOf (get r "records") "guards" in
  let! records := mapM (λ v, keyOf v ["mode"]) raw in
  let! _ := unique records "guards" in
  let! _ := checkGuards None records in
  result ← guardRuns (length records) records;
  mret (VArr (VBool <$> result)).

(** [targetPositions] and, requiring every position, [readPositions] *)
Definition positionOf (required : bool) (stream : value) (k : key_fields) (row : row) : result value :=
  match column row "cursor" with
  | VNull => if required then raise "missing Stream position" else Ok VNull
  | c => c ← positiveCounter c;
         Ok (VObj [("stream", stream); ("model", VStr (model k));
                   ("identityKey", VStr (identityKey k)); ("cursor", num c);
                   ("kind", column row "kind")])
  end.
Definition positionGroup (required : bool) (stream : value) (group : list key_fields)
  : io S (list value) :=
  rows ← q (match group with
            | [k] => V05_POSITION_READ stream (VStr (model k)) (VStr (identityKey k))
            | _ => V05_POSITIONS_READ_BATCH stream (VArr (own <$> group))
            end);
  guard! (length rows =? length group)%nat else throw (Error "position cardinality mismatch");
  check (mapM (λ e, positionOf required stream e.1 e.2) (zip group rows)).
Definition positions (required : bool) (r : value) : io S value :=
  let! raw := arrayOf (get r "records") "positions" in
  let! records := mapM (λ v, keyOf v []) raw in
  found ← mapM (positionGroup required (get r "stream")) (batches records);
  mret (VArr (concat found)).

(** ** Publication *)
Definition stream_of (d : key_fields) : value := get (own d) "stream".
Definition publish (d : key_fields) : value := get (own d) "publish".
Definition livePosition (d : key_fields) (row : row) : result value :=
  guard! truthy (column row "represented") else raise "missing canonical record metadata";
  guard! strictEq (column row "kind") (VStr "upsert") else raise "unpublished pair has no live position";
  c ← positiveCounter (column row "cursor");
  Ok (VObj [("stream", stream_of d); ("model", VStr (model d));
            ("identityKey", VStr (identityKey d)); ("cursor", num c); ("kind", VStr "upsert")]).
Definition overflow (stream : string) : exn :=
  Error ("Stream " +:+ stream +:+ " head counter overflow").
(** One Stream, a bounded publish-only run: reserve and write in one statement. *)
Definition applyReserving (stream : string) (scope : value) (deltas : list key_fields) : io S value :=
  rows ← q (V05_RESERVE_APPLY_MEMBERS (VStr stream) scope (VArr (own <$> deltas)));
  guard! (length rows =? length deltas)%nat else throw (Error "member cardinality mismatch");
  let! l := mapM (λ e : key_fields * row,
    if truthy (column e.2 "overflow") then Throw (overflow stream) else livePosition e.1 e.2)
    (zip deltas rows) in
  mret (VArr l).
Definition reserveCursors (scope : value) (streams : list string) : io S (list (string * Z)) :=
  mapM (λ stream,
    o ← first (V05_RESERVE_CURSOR (VStr stream) scope);
    match o with
    | None => throw (overflow stream)
    | Some row => let! c := positiveCounter (column row "cursor") in mret (stream, c)
    end) streams.
Definition withCursor (cursors : list (string * Z)) (d : key_fields) : result value :=
  s ← streamName (stream_of d);
  Ok (VObj (setField "cursor" (from_option num VUndef (fieldOf (toText (stream_of d)) cursors))
             (setField "stream" (VStr s) (spread (own d))))).
Definition applyGroup (cursors : list (string * Z)) (group : list key_fields) : io S (list value) :=
  let! sent := mapM (withCursor cursors) group in
  rows ← q (V05_APPLY_MEMBERS_BATCH (VArr sent));
  guard! (length rows =? length group)%nat else throw (Error "member cardinality mismatch");
  check (mapM (λ e : key_fields * row, livePosition e.1 e.2) (zip group rows)).
Definition applyGeneral (streams : list string) (scope : value) (deltas : list key_fields) : io S value :=
  cursors ← reserveCursors scope streams;
  found ← mapM (applyGroup cursors) (batches deltas);
  mret (VArr (concat found)).
Definition publishedStreams (deltas : list key_fields) : result (list string) :=
  names ← mapM (λ d, streamName (stream_of d)) (filter (λ d, truthy (publish d)) deltas);
  Ok (merge_sort byte_le (uniq names)).
Definition applyDeltas (r : value) (deltas : list key_fields) : io S value :=
  let! _ := unique deltas "deltas" in
  let! streams := publishedStreams deltas in
  _ ← (if (length streams =? 0)%nat then mret [] else q V05_PUBLICATION_CURSORS);
  let scope := coalesce (get r "publicationScope") (VStr EmptyString) in
  match streams with
  | [stream] =>
      if (length deltas <=? STREAM_BATCH)%nat
         && forallb (λ d, strictEq (publish d) (VBool true)) deltas
      then applyReserving stream scope deltas
      else applyGeneral streams scope deltas
  | _ => applyGeneral streams scope deltas
  end.
Definition applyStreamMembers (r : value) : io S value :=
  let! raw := arrayOf (get r "deltas") "deltas" in
  let! deltas := mapM (λ v, keyOf v ["identity"; "stream"; "publish"]) raw in
  applyDeltas r deltas.

(** * Dispatch *)
Definition opOf (r : value) : string := match get r "op" with VStr s => s | _ => EmptyString end.
Definition answer05 (r : value) : io S value :=
  let op := opOf r in
  if String.eqb op "bootstrapState" then bootstrapState r
  else if String.eqb op "finishBootstrap" then finishBootstrap r
  else if String.eqb op "deliveryHead" then deliveryHead r
  else if String.eqb op "deliveryNow" then deliveryNow
  else if String.eqb op "deliveryCandidates" then deliveryCandidates r
  else if String.eqb op "handleBootstrap05" then throw (Error "bootstrap belongs to application host")
  else if String.eqb op "inspectStore" then inspectStore r
  else if String.eqb op "claimStore" then claimStore r
  else if String.eqb op "beginBatch" then beginBatch r
  else if String.eqb op "readResult" then readResult r
  else if String.eqb op "readResults" then readResults r
  else if String.eqb op "saveResult" then saveResult r
  else if String.eqb op "saveResults" then saveResults r
  else if String.eqb op "readTracking" then readTracking r
  else if String.eqb op "guardRecords" then guardRecords r
  else if String.eqb op "targetPositions" then positions false r
  else if String.eqb op "readPositions" then positions true r
  else if String.eqb op "applyStreamMembers" then applyStreamMembers r
  else throw (Error ("unsupported protocol05 persistence operation " +:+ toText (get r "op"))).

Definition savepointName (n : Z) : string := "axton_mutation_" +:+ pretty n.
(** The three savepoint operations: the ordinal is a positive safe integer. *)
Definition savepointOp (command : string → statement) (r : value) : io S value :=
  match get r "ordinal" with
  | VNum (NInt n) =>
      if (1 <=? n) && (n <=? MAX_SAFE)
      then _ ← q (command (savepointName n)); mret VNull
      else throw (Error "Invalid savepoint ordinal")
  | _ => throw (Error "Invalid savepoint ordinal")
  end.
Definition answerInitialized (r : value) : io S value :=
  let op := opOf r in
  if String.eqb op "protocol05" then answer05 (get r "request")
  else if String.eqb op "head" then deliveryHead r
  else if String.eqb op "lockStreams" then lockStreams r
  else if bool_decide (op ∈ ["readTracking"; "guardRecords"; "applyStreamMembers"]) then answer05 r
  else if String.eqb op "savepoint" then savepointOp SAVEPOINT r
  else if String.eqb op "rollback" then savepointOp ROLLBACK_TO_SAVEPOINT r
  else if String.eqb op "release" then savepointOp RELEASE_SAVEPOINT r
  else throw (Error ("Unsupported persistence operation " +:+ toText (get r "op"))).

Definition requireFreshLayout : io S unit :=
  o ← first CHECK_LAYOUT;
  match o with
  | Some row =>
      if strictEq (column row "legacy") (VBool false) then mret tt
      else throw (Error "installed legacy framework layout: protocol 5 requires a fresh namespace; existing data is unchanged")
  | None => throw (Error "installed legacy framework layout: protocol 5 requires a fresh namespace; existing data is unchanged")
  end.
Definition answer (r : value) : io S value := _ ← requireFreshLayout; answerInitialized r.
End operations.
