(* ===== verification/PersistenceFacts.v ===== *)
(** What the persistence operations of [Persistence.v] guarantee, run on the
    tables of [Database.v]. *)
From S2P Require Import Prelude Text Json Database Wellformed Persistence.
From stdpp Require Import sorting.
Open Scope Z_scope.
Open Scope axton_scope.

(** * What one statement keeps, an operation keeps

    [plain] leaves out the statements that need their own argument. *)
Definition plain (s : statement) : Prop :=
  match s with
  | V05_APPLY_MEMBERS_BATCH _ | V05_BATCH_BEGIN _ _ _ _ | ROLLBACK_TO_SAVEPOINT _ => False
  | V05_RESULTS_SAVE _ _ _ _ size _ l =>
      ∀ z es, size = VNum (NInt z) → l = VArr es → z = Z.of_nat (length es)
  | _ => True
  end.

Section operations.
Context {S : Type} (q : statement → io S (list row)) (P : S → Prop).
Hypothesis keeps : ∀ s, plain s → preserves P (q s).

Lemma preserves_first s : plain s → preserves P (first q s).
Proof. intros. apply preserves_bind; [by apply keeps|intros; apply preserves_ret]. Qed.
Ltac step :=
  first
    [ apply preserves_ret | apply preserves_throw | apply preserves_check
    | apply preserves_first; exact I | apply keeps; exact I
    | apply preserves_bind; [|intros ?]
    | apply preserves_if | apply preserves_option; [intros ?|]
    | apply preserves_forEach; intros | apply preserves_mapM; intros ].
Ltac steps := repeat step.

Lemma lockStreams_keeps r : preserves P (lockStreams q r).
Proof. unfold lockStreams. steps. Qed.
Lemma deliveryHead_keeps r : preserves P (deliveryHead q r).
Proof. unfold deliveryHead. steps. Qed.
Lemma deliveryCandidates_keeps r : preserves P (deliveryCandidates q r).
Proof. unfold deliveryCandidates, checkTracked. steps. Qed.
Lemma claimStore_keeps r : preserves P (claimStore q r).
Proof. unfold claimStore. steps. Qed.
Lemma saveResults_keeps r : preserves P (saveResults q r).
Proof. unfold saveResults. steps. apply keeps. by intros z es [= <-] [= <-]. Qed.
Lemma readTracking_keeps r : preserves P (readTracking q r).
Proof. unfold readTracking. steps. destruct a as [|? [|? ?]], a0 as [|? [|? ?]]; steps. Qed.
Lemma guardRuns_keeps fuel l : preserves P (guardRuns q fuel l).
Proof.
  revert l; induction fuel as [|fuel IH]; intros l; cbn [guardRuns]; [apply preserves_ret|].
  destruct l as [|k l]; [apply preserves_ret|].
  destruct (sameMode (mode k) (STREAM_BATCH - 1) l) as [run0 rest].
  apply preserves_bind; [|intros; apply preserves_bind; [apply IH|intros; apply preserves_ret]].
  unfold guardRun. steps. case_if; by apply keeps.
Qed.
Lemma guardRecords_keeps r : preserves P (guardRecords q r).
Proof. unfold guardRecords. steps. apply guardRuns_keeps. Qed.
Lemma positions_keeps b r : preserves P (positions q b r).
Proof.
  unfold positions, positionGroup. steps. apply keeps. by case_match; [|case_match].
Qed.
Lemma savepointOp_keeps c r : (∀ name, preserves P (q (c name))) → preserves P (savepointOp q c r).
Proof. intros Hc. unfold savepointOp. repeat case_match; steps. apply Hc. Qed.

Lemma answer05_keeps r :
  (opOf r = "beginBatch" → preserves P (beginBatch q r)) →
  (opOf r = "applyStreamMembers" → preserves P (applyStreamMembers q r)) →
  preserves P (answer05 q r).
Proof.
  intros Hbegin Happly. unfold answer05.
  repeat first
    [ apply preserves_throw | apply saveResults_keeps
    | apply readTracking_keeps | apply guardRecords_keeps | apply positions_keeps
    | apply claimStore_keeps | apply deliveryCandidates_keeps | apply deliveryHead_keeps
    | by apply Hbegin | by apply Happly
    | apply preserves_case; [intros Hop%String.eqb_eq|intros _] ].
  all: steps.
Qed.
(** All of [answerInitialized]. *)
Definition answered (r : value) : value :=
  if String.eqb (opOf r) "protocol05" then get r "request" else r.
Lemma answerInitialized_keeps r :
  (opOf r = "rollback" → ∀ name, preserves P (q (ROLLBACK_TO_SAVEPOINT name))) →
  (opOf (answered r) = "beginBatch" → preserves P (beginBatch q (answered r))) →
  (opOf (answered r) = "applyStreamMembers" → preserves P (applyStreamMembers q (answered r))) →
  preserves P (answerInitialized q r).
Proof.
  intros Hback Hbegin Happly. unfold answerInitialized, answered in *.
  destruct (String.eqb (opOf r) "protocol05") eqn:Hop; [by apply answer05_keeps|].
  repeat first
    [ apply preserves_throw | by apply answer05_keeps | apply lockStreams_keeps
    | apply deliveryHead_keeps
    | apply savepointOp_keeps; intros; first [by apply Hback | apply keeps; exact I]
    | apply preserves_case; [intros ?%String.eqb_eq|intros _]
    | apply preserves_if ].
Qed.
End operations.

(** * Every call keeps the namespace well-formed *)
Section wellformed.
Context `{Columns}.

Lemma preserves_run s : plain s → preserves wf_txn (run s).
Proof. intros Hs t W. apply run_wf; [|done]. by destruct s. Qed.
(** The cursors [reserveCursors] answers are reached by their Streams. *)
Definition cursors_reached (cursors : list (string * Z)) (t : txn) : Prop :=
  wf_txn t ∧ Forall (λ e, reached (tables t) e.1 e.2) cursors.
Lemma cursors_reached_run cursors s t :
  (∀ name, s ≠ ROLLBACK_TO_SAVEPOINT name) → statement_ok (tables t) s →
  cursors_reached cursors t → cursors_reached cursors (run s t).2.
Proof.
  intros Hs Hok [W Hc]. split; [by apply run_wf|].
  destruct (run_grows s t Hs) as [Hh _].
  eapply Forall_impl; [done|]. eauto using reached_mono.
Qed.
Lemma positiveCounter_bigint z c : positiveCounter (bigint z) = Ok c → c = z.
Proof. unfold positiveCounter. rewrite bigint_toNumber. case_match; by intros [= ->]. Qed.
Lemma reserve_run stream scope rows row t : wf_txn t →
  (run (V05_RESERVE_CURSOR (VStr stream) scope) t).1 = Ok rows → head rows = Some row →
  ∃ c, row = [("cursor", bigint c)] ∧
       reached (tables (run (V05_RESERVE_CURSOR (VStr stream) scope) t).2) stream c.
Proof.
  intros [W _]. simpl. destruct (aborted t); [done|]. unfold on_tables. simpl.
  unfold with_param, mbind, io_bind, check. simpl.
  destruct (text scope) as [sc|]; simpl; [|done]. unfold sql_reserve_cursor.
  destruct (reserve stream sc (tables t)) as [[[c|] d1]|e] eqn:Hr; simpl; intros; simplify_eq/=.
  exists c. split; [done|]. apply wf_reserve in Hr as (_ & _ & _ & Hc); [|done]. by apply Hc.
Qed.
Lemma reserveCursors_reached scope streams pre :
  triple (cursors_reached pre) (reserveCursors run scope streams)
    (λ r t, match r with Ok cs => cursors_reached (pre ++ cs) t | Throw _ => wf_txn t end).
Proof.
  unfold reserveCursors. revert pre. induction streams as [|stream streams IH]; intros pre; simpl.
  { intros t Ht. simpl. by rewrite app_nil_r. }
  apply (triple_bind _ _ _ (λ e, cursors_reached (pre ++ [e]))).
  - apply (triple_bind _ _ _ (λ o t, cursors_reached pre t ∧
      ∀ row, o = Some row → ∃ c, row = [("cursor", bigint c)] ∧ reached (tables t) stream c)).
    + intros t Ht. unfold first, mbind, io_bind. cbv beta.
      pose proof (cursors_reached_run pre (V05_RESERVE_CURSOR (VStr stream) scope) t
        ltac:(done) ltac:(done) Ht) as Hk.
      pose proof (λ rows row, reserve_run stream scope rows row t (proj1 Ht)) as Hr.
      destruct (run _ t) as [[rows|e] t']; simpl in *; [|by destruct Hk].
      split; [done|]. intros row Hrow. eauto.
    + intros [row|]; [|intros t [[W _] _]; exact W]. intros t [Hk Hr].
      destruct (Hr row eq_refl) as (c & -> & Hc). unfold mbind, io_bind, check; simpl.
      destruct (positiveCounter _) as [c'|] eqn:Hp; simpl; [|by destruct Hk].
      apply positiveCounter_bigint in Hp as ->. destruct Hk as [W Hf].
      split; [done|]. apply Forall_app. split; [done|]. by repeat constructor.
  - intros e. apply (triple_bind _ _ _ (λ cs, cursors_reached (pre ++ e :: cs))); [|intros cs t Ht; exact Ht].
    eapply triple_weaken; [apply (IH (pre ++ [e]))|done|].
    intros [cs|err] t; [by rewrite <- app_assoc|done].
Qed.

Lemma streamName_Ok v s : streamName v = Ok s → v = VStr s ∧ blank s = false.
Proof.
  destruct v as [| | | | |s0| | | |]; unfold streamName;
    try (intros H1; apply result_bind_inv in H1 as (? & _ & H1); discriminate H1).
  destruct (blank s0) eqn:Hb; [done|]. by intros [= ->].
Qed.
Lemma withCursor_Ok cursors d v : withCursor cursors d = Ok v →
  ∃ s, stream_of d = VStr s ∧ get v "stream" = VStr s ∧
       get v "cursor" = from_option num VUndef (fieldOf s cursors) ∧
       (∀ key, key ≠ "stream" → key ≠ "cursor" → get v key = get (VObj (spread (own d))) key).
Proof.
  unfold withCursor. intros H1. apply result_bind_inv in H1 as (s & Hs & [= <-]).
  apply streamName_Ok in Hs as [Hs _]. exists s. rewrite Hs. split; [done|].
  split; [|split].
  1,2: unfold get; by rewrite !fieldOf_setField.
  intros key Hk1 Hk2. unfold get. rewrite !fieldOf_setField.
  destruct (String.eqb_spec "cursor" key); [congruence|].
  destruct (String.eqb_spec "stream" key); [congruence|]. done.
Qed.
Lemma group_covered cursors group sent t :
  cursors_reached cursors t → mapM (withCursor cursors) group = Ok sent → covered (tables t) sent.
Proof.
  intros [_ Hc] Hm v s i c Hv Ht. apply mapM_Ok in Hm.
  destruct (list_elem_of_lookup_1 _ _ Hv) as [n Hn].
  destruct (Forall2_lookup_r _ _ _ _ _ Hm Hn) as (d & _ & Hd).
  apply withCursor_Ok in Hd as (s0 & _ & Hs & Hcur & _).
  unfold wanted_target in Ht. destruct (jsonBool v "publish"); [|done].
  unfold jsonText in Ht. rewrite Hs in Ht. simpl in Ht.
  apply bind_Some in Ht as (j & _ & [= -> _ Hj]). unfold jsonBigint in Hj. rewrite Hcur in Hj.
  destruct (fieldOf s cursors) as [c'|] eqn:Hf; simplify_eq/=.
  apply fieldOf_elem_of in Hf. rewrite Forall_forall in Hc. exact (Hc _ Hf).
Qed.
Lemma applyGroup_reached cursors group :
  preserves (cursors_reached cursors) (applyGroup run cursors group).
Proof.
  unfold applyGroup. intros t Ht. unfold mbind, io_bind, check.
  destruct (mapM _ group) as [sent|e] eqn:Hm; [|done].
  pose proof (cursors_reached_run cursors (V05_APPLY_MEMBERS_BATCH (VArr sent)) t) as Hk.
  destruct (run _ t) as [[rows|e] t']; simpl in Hk |- *.
  - case_if; simpl; apply Hk; try done; by intros es [= <-]; eauto using group_covered.
  - apply Hk; try done. by intros es [= <-]; eauto using group_covered.
Qed.
Lemma applyGeneral_wf streams scope deltas : preserves wf_txn (applyGeneral run streams scope deltas).
Proof.
  unfold applyGeneral. apply (triple_bind _ _ _ (λ cs, cursors_reached cs)).
  - eapply triple_weaken; [apply (reserveCursors_reached scope streams [])| |by intros [] ?].
    intros t W. split; [done|constructor].
  - intros cs. apply triple_weaken with (P := cursors_reached cs)
      (Q := λ _, cursors_reached cs); [|done|by intros ? ? []].
    apply preserves_bind; [|intros; apply preserves_ret].
    apply preserves_mapM. intros. apply applyGroup_reached.
Qed.
Lemma applyReserving_wf stream scope deltas : preserves wf_txn (applyReserving run stream scope deltas).
Proof.
  unfold applyReserving. apply preserves_bind; [by apply preserves_run|intros].
  apply preserves_if; [|apply preserves_throw].
  apply preserves_bind; [apply preserves_check|intros; apply preserves_ret].
Qed.
Lemma applyStreamMembers_wf r : preserves wf_txn (applyStreamMembers run r).
Proof.
  unfold applyStreamMembers, applyDeltas.
  repeat (apply preserves_bind; [|intros]); try apply preserves_check.
  - apply preserves_if; [apply preserves_ret|by apply preserves_run].
  - destruct a2 as [|stream [|? ?]]; try apply applyGeneral_wf.
    apply preserves_if; [apply applyReserving_wf|apply applyGeneral_wf].
Qed.
Lemma beginBatch_wf r : preserves wf_txn (beginBatch run r).
Proof.
  unfold beginBatch. apply preserves_bind; [intros t W; by apply run_wf|].
  intros. apply preserves_if; [apply preserves_ret|apply preserves_throw].
Qed.
Lemma answer_keeps_wf r : preserves wf_txn (answerInitialized run r).
Proof.
  apply (answerInitialized_keeps run wf_txn).
  - apply preserves_run.
  - intros _ name t W. by apply run_wf.
  - intros. apply beginBatch_wf.
  - intros. apply applyStreamMembers_wf.
Qed.
End wellformed.

(** C26: whatever the engine asks, and whether the call answers or throws, a
    transaction's tables and every savepoint of it stay well-formed: the results
    kept of a Store are exactly the settled prefix of its current batch or its
    whole last batch, counters stay safe integers, ids are unique, and no
    position or reserved cursor lies past the head of its Stream. *)
Theorem answerInitialized_wf `{Columns} r t :
  wf_txn t → wf_txn (answerInitialized run r t).2.
Proof. apply answer_keeps_wf. Qed.
(** A transaction that claims a Store, begins a batch of two and saves its first
    outcome. *)
Definition demo_claim : value :=
  VObj [("op", VStr "protocol05"); ("request", VObj [("op", VStr "claimStore");
    ("storeId", VStr "store"); ("principal", VStr "ann"); ("stream", VStr "user:ann")])].
Definition demo_begin : value :=
  VObj [("op", VStr "protocol05"); ("request", VObj [("op", VStr "beginBatch");
    ("storeId", VStr "store"); ("batchId", num 1); ("digest", VStr "d"); ("count", num 2)])].
Definition demo_save : value :=
  VObj [("op", VStr "protocol05"); ("request", VObj [("op", VStr "saveResult");
    ("storeId", VStr "store"); ("batchId", num 1); ("ordinal", num 0); ("count", num 2);
    ("result", VObj [("mutationId", num 7); ("status", VStr "completed")])])].
Definition demo_call (r : value) (t : txn) : txn :=
  (answerInitialized (run (H := numberColumns)) r t).2.
Definition demo_txn : txn :=
  demo_call demo_save (demo_call demo_begin (demo_call demo_claim (begin empty_db false 0))).
Lemma answerInitialized_wf_witness :
  wf_txn (begin empty_db false 0) ∧ wf_txn (demo_call demo_claim (begin empty_db false 0)).
Proof.
  assert (wf_txn (begin empty_db false 0)) as W by apply wf_begin, wf_empty.
  split; [exact W|]. unfold demo_call. apply answerInitialized_wf. exact W.
Defined.

(** * Settled outcomes *)
Section outcomes.
Context `{Columns}.

Lemma insert_result_keeps id batch ordinal m v d d' k x :
  insert_result id batch ordinal m v d = Ok d' → results d !! k = Some x → results d' !! k = Some x.
Proof.
  intros (y & _ & _ & Hn & _ & ->)%insert_result_spec Hk. simpl.
  rewrite lookup_insert_ne; [done|]. intros <-. congruence.
Qed.
Lemma insert_results_keeps id batch l ordinal d d' k x :
  insert_results id batch ordinal l d = Ok d' → results d !! k = Some x → results d' !! k = Some x.
Proof.
  revert ordinal d. induction l as [|v l IH]; intros ordinal d; simpl; [by intros [= <-]|].
  intros (d1 & H1 & H2)%result_bind_inv Hk. eauto using insert_result_keeps.
Qed.
Lemma update_store_results id r d d' : update_store id r d = Ok d' → results d' = results d.
Proof. unfold update_store. case_match; by intros [= <-]. Qed.
Lemma ensure_all_results seen group d rows d' :
  ensure_all seen group d = Ok (rows, d') → results d' = results d.
Proof.
  revert seen d rows. induction group as [|v group IH]; intros seen d rows; simpl.
  { by intros [= <- <-]. }
  destruct (jsonKey v) as [k|]; [|done]. case_bool_decide; [done|].
  intros ([more d2] & He & [= <- <-])%result_bind_inv. apply IH in He as ->. by case_match.
Qed.
Lemma reserve_results stream scope d c d' : reserve stream scope d = Ok (c, d') → results d' = results d.
Proof. unfold reserve. repeat case_match; intros; by simplify_eq. Qed.
Lemma write_members_results target seen group d d' :
  write_members target seen group d = Ok d' → results d' = results d.
Proof.
  revert seen d. induction group as [|v group IH]; intros seen d; simpl; [by intros [= <-]|].
  destruct (target v) as [[[s i] c]|]; [|eauto]. case_bool_decide; [done|].
  intros (d1 & H1 & H2)%result_bind_inv. apply IH in H2 as ->.
  unfold upsert_member in H1. repeat case_match; by simplify_eq.
Qed.
Lemma with_param_keeps {A B} (P : db → Prop) (p : result A) (f : A → io db B) (d : db) :
  P d → (∀ a, P (f a d).2) → P (with_param p f d).2.
Proof. intros Hd Hf. unfold with_param, mbind, io_bind, check. destruct p; simpl; eauto. Qed.
(** Only [V05_BATCH_BEGIN] takes a stored result away. *)
Lemma exec_result_kept s d k x :
  (∀ i b g n, s ≠ V05_BATCH_BEGIN i b g n) →
  results d !! k = Some x → results (exec s d).2 !! k = Some x.
Proof.
  intros Hs Hk. destruct s; simpl; try done;
    repeat (apply (with_param_keeps (λ d, results d !! k = Some x)); [assumption|intros]); try done.
  - unfold sql_store_insert. by case_match.
  - by destruct (Hs id batch digest count).
  - unfold sql_result_save. destruct (stores d !! a) as [r|]; [|done]. case_if; [|done].
    destruct (_ ≫= _) as [d'|] eqn:Hu; [|done]. apply result_bind_inv in Hu as (d1 & H1 & H2).
    eapply insert_result_keeps; [done|]. by rewrite (update_store_results _ _ _ _ H1).
  - unfold sql_results_save. destruct (stores d !! a) as [r|]; [|done]. case_if; [|done].
    destruct (_ ≫= _) as [d'|] eqn:Hu; [|done]. apply result_bind_inv in Hu as (d1 & H1 & H2).
    eapply insert_results_keeps; [done|]. by rewrite (update_store_results _ _ _ _ H1).
  - unfold sql_publication_cursors. by case_match.
  - unfold sql_reserve_cursor. destruct (reserve _ _ _) as [[[c|] d1]|] eqn:Hr; simpl; [..|done];
      by rewrite (reserve_results _ _ _ _ _ Hr).
  - unfold sql_ensure_identities. destruct (ensure_all _ _ _) as [[rows d1]|] eqn:He; simpl; [|done].
    by rewrite (ensure_all_results _ _ _ _ _ He).
  - unfold sql_apply_members_batch. destruct (write_members _ _ _ _) as [d1|] eqn:He; simpl; [|done].
    by rewrite (write_members_results _ _ _ _ _ He).
  - unfold sql_reserve_apply_members. destruct (reserve _ _ _) as [[c d1]|] eqn:Hr; simpl; [|done].
    destruct (write_members _ _ _ _) as [d2|] eqn:He; simpl; [|done].
    by rewrite (write_members_results _ _ _ _ _ He), (reserve_results _ _ _ _ _ Hr).
  - unfold sql_finish_bootstrap. destruct (stores d !! a) as [r|]; [|done].
    destruct (update_store _ _ _) as [d1|] eqn:Hu; [|done].
    simpl. by rewrite (update_store_results _ _ _ _ Hu).
  - destruct page; repeat (apply (with_param_keeps (λ d, results d !! k = Some x)); [assumption|intros]); done.
Qed.
Definition holds (k : string * Z * Z) (x : result_row) (t : txn) : Prop := results (tables t) !! k = Some x.
Lemma run_result_kept s k x :
  (∀ i b g n, s ≠ V05_BATCH_BEGIN i b g n) → (∀ n, s ≠ ROLLBACK_TO_SAVEPOINT n) →
  preserves (holds k x) (run s).
Proof.
  intros Hb Hr t Ht. assert (holds k x (on_tables (exec s) t).2) as Hexec.
  { unfold holds, on_tables. pose proof (exec_result_kept s (tables t) k x Hb Ht).
    by destruct (exec s (tables t)) as [[r|e] d]. }
  destruct s; simpl; try (case_match; [done|exact Hexec]); try (case_match; simpl; done).
  - by destruct (Hr name).
  - by repeat case_match.
Qed.
Lemma holds_applyStreamMembers k x r : preserves (holds k x) (applyStreamMembers run r).
Proof.
  assert (∀ s, (∀ i b g n, s ≠ V05_BATCH_BEGIN i b g n) → (∀ n, s ≠ ROLLBACK_TO_SAVEPOINT n) →
    preserves (holds k x) (run s)) as Hr by (intros; by apply run_result_kept).
  assert (∀ l s deltas, preserves (holds k x) (applyGeneral run l s deltas)) as Hg.
  { intros. unfold applyGeneral. apply preserves_bind; [|intros; apply preserves_bind].
    - unfold reserveCursors, first. apply preserves_mapM. intros.
      apply preserves_bind; [apply preserves_bind; [by apply Hr|intros; apply preserves_ret]|].
      intros [?|]; [|apply preserves_throw].
      apply preserves_bind; [apply preserves_check|intros; apply preserves_ret].
    - apply preserves_mapM. intros. unfold applyGroup.
      apply preserves_bind; [apply preserves_check|intros].
      apply preserves_bind; [by apply Hr|intros].
      apply preserves_if; [apply preserves_check|apply preserves_throw].
    - intros. apply preserves_ret. }
  unfold applyStreamMembers, applyDeltas.
  repeat (apply preserves_bind; [|intros]); try apply preserves_check.
  - apply preserves_if; [apply preserves_ret|by apply Hr].
  - destruct a2 as [|stream [|? ?]]; try apply Hg. apply preserves_if; [|apply Hg].
    unfold applyReserving. apply preserves_bind; [by apply Hr|intros].
    apply preserves_if; [|apply preserves_throw].
    apply preserves_bind; [apply preserves_check|intros; apply preserves_ret].
Qed.
Lemma begin_result_kept id batch digest count i b o x (d : db) :
  results d !! (i, b, o) = Some x → ¬ (id = i ∧ b < batch) →
  results (sql_batch_begin id batch digest count d).2 !! (i, b, o) = Some x.
Proof.
  intros Hx Hn. unfold sql_batch_begin. destruct (stores d !! id) as [r|]; [|done].
  case_if; [|done]. destruct (update_store _ _ _) as [d'|] eqn:Hu; [|done]. simpl.
  apply map_lookup_filter_Some. rewrite (update_store_results _ _ _ _ Hu). split; [done|].
  simpl. naive_solver.
Qed.
End outcomes.

(** C9: a stored mutation outcome is immutable.  Outside a rollback no call
    rewrites it, and the only call that takes it away is the [beginBatch] of a
    later batch of the same Store. *)
Theorem stored_result_immutable `{Columns} r t id b o x :
  opOf r ≠ "rollback" → results (tables t) !! (id, b, o) = Some x →
  results (tables (answerInitialized run r t).2) !! (id, b, o) = Some x ∨
  (opOf (answered r) = "beginBatch" ∧ get (answered r) "storeId" = VStr id ∧
   ∃ batch, get (answered r) "batchId" = num batch ∧ b < batch).
Proof.
  intros Hop Hx.
  set (req := answered r).
  assert ((get req "storeId" = VStr id ∧ ∃ batch, get req "batchId" = num batch ∧ b < batch) ∨
    ¬ (get req "storeId" = VStr id ∧ ∃ batch, get req "batchId" = num batch ∧ b < batch)) as Hd.
  { destruct (get req "storeId") as [| | | | |s| | | |]; try (right; by intros [? _]).
    destruct (decide (s = id)) as [->|]; [|right; intros [? _]; congruence].
    destruct (get req "batchId") as [| | |[n| | |]| | | | | |];
      try (right; intros (_ & ? & ? & _); discriminate).
    destruct (decide (b < n)); [left; eauto|right]. intros (_ & m & Hm & ?).
    unfold num in Hm. by simplify_eq. }
  destruct (decide (opOf req = "beginBatch")) as [Hb|Hb]; [destruct Hd as [Hd|Hd]|];
    [right; split; [done|exact Hd]|left..];
    revert t Hx; apply (answerInitialized_keeps run (holds (id, b, o) x));
    try done; try (intros; apply holds_applyStreamMembers);
    try (intros s Hs; apply run_result_kept; by intros; destruct s).
  intros _ t Hx. unfold beginBatch, mbind, io_bind. fold req.
  assert (holds (id, b, o) x
    (run (V05_BATCH_BEGIN (get req "storeId") (get req "batchId") (get req "digest") (get req "count")) t).2)
    as Hk.
  { simpl. destruct (aborted t); [done|].
    unfold on_tables, holds. simpl. unfold with_param, mbind, io_bind, check.
    destruct (text (get req "storeId")) as [i|] eqn:Hi; simpl; [|done].
    destruct (int8 (get req "batchId")) as [n|] eqn:Hn; simpl; [|done].
    destruct (text (get req "digest")) as [g|]; simpl; [|done].
    destruct (int8 (get req "count")) as [c|]; simpl; [|done].
    pose proof (begin_result_kept i n g c id b o x (tables t) Hx) as Hkept.
    destruct (sql_batch_begin i n g c (tables t)) as [[rows|e] d']; simpl in *;
      (apply Hkept; intros [-> Hlt]; apply Hd; split;
        [destruct (get req "storeId"); by simplify_eq/=|];
       exists n; split; [|done]; destruct (get req "batchId") as [| | |[]| | | | | |]; by simplify_eq/=). }
  destruct (run _ t) as [[rows|e] t']; [|done]. simpl in Hk. by case_if.
Qed.
Lemma stored_result_immutable_witness :
  let x := ResultRow 7 (VObj [("mutationId", num 7); ("status", VStr "completed")]) in
  results (tables demo_txn) !! ("store", 1, 0) = Some x ∧
  (results (tables (demo_call demo_save demo_txn)) !! ("store", 1, 0) = Some x ∨
   (opOf (answered demo_save) = "beginBatch" ∧ get (answered demo_save) "storeId" = VStr "store" ∧
    ∃ batch, get (answered demo_save) "batchId" = num batch ∧ 1 < batch)).
Proof.
  assert (results (tables demo_txn) !! ("store", 1, 0) =
    Some (ResultRow 7 (VObj [("mutationId", num 7); ("status", VStr "completed")]))) as Hx
    by (vm_compute; reflexivity).
  split; [exact Hx|]. unfold demo_call. apply stored_result_immutable; [vm_compute; discriminate|exact Hx].
Defined.
