(* ===== verification/ResultGroups.v ===== *)
(** Saving mutation outcomes: a group of results is saved exactly as one result
    at a time would be, and what is read back is what was saved, in order. *)
From S2P Require Import Prelude Text Json Database Wellformed Persistence PersistenceFacts.
From stdpp Require Import sorting.
Open Scope Z_scope.
Open Scope axton_scope.

Section groups.
Context `{Columns}.

(** The requests of the engine for one result and for a group. *)
Definition resultRequest (id : string) (batch ordinal count : Z) (v : value) : value :=
  VObj [("op", VStr "saveResult"); ("storeId", VStr id); ("batchId", num batch);
        ("ordinal", num ordinal); ("count", num count); ("result", v)].
Definition groupRequest (id : string) (batch ordinal count : Z) (digest : string) (l : list value) : value :=
  VObj [("op", VStr "saveResults"); ("storeId", VStr id); ("batchId", num batch);
        ("ordinal", num ordinal); ("count", num count); ("digest", VStr digest); ("results", VArr l)].
(** The results one by one, at consecutive ordinals. *)
Fixpoint saveEach (id : string) (batch ordinal count : Z) (l : list value) : io db value :=
  match l with
  | [] => mret VNull
  | v :: l' => _ ← answer05 exec (resultRequest id batch ordinal count v);
               saveEach id batch (ordinal + 1) count l'
  end.

(** ** Store and result writes commute *)
Lemma insert_result_stores f id batch ordinal m v d :
  insert_result id batch ordinal m v (set_stores f d) =
  set_stores f <$> insert_result id batch ordinal m v d.
Proof.
  unfold insert_result, duplicate_mutation, batch_results. destruct m as [m|]; [|done]. simpl.
  destruct (negb _); [done|]. by destruct (_ || _).
Qed.
Lemma insert_results_stores f id batch l ordinal d :
  insert_results id batch ordinal l (set_stores f d) =
  set_stores f <$> insert_results id batch ordinal l d.
Proof.
  revert ordinal d. induction l as [|v l IH]; intros ordinal d; simpl; [done|].
  rewrite insert_result_stores.
  destruct (insert_result _ _ _ _ _ d) as [d'|]; simpl; [apply IH|done].
Qed.
Lemma insert_result_same_stores id batch ordinal m v d d' :
  insert_result id batch ordinal m v d = Ok d' → stores d' = stores d.
Proof. by intros (x & _ & _ & _ & _ & ->)%insert_result_spec. Qed.
Lemma insert_results_same_stores id batch l ordinal d d' :
  insert_results id batch ordinal l d = Ok d' → stores d' = stores d.
Proof. by intros (rs & -> & _)%insert_results_spec. Qed.

(** Progress inside a batch keeps the row's CHECKs. *)
Lemma advanced_check batch upto count r :
  check_store r = true → last_processed_batch_id r = batch - 1 → current_count r = Some count →
  0 ≤ upto ≤ count → batch ≤ MAX_SAFE → check_store (advanced batch upto count r) = true.
Proof.
  intros Hc Hb Hn Hu Hm. apply check_store_spec in Hc.
  destruct Hc as (Hlast & Hp & Hs & [(_ & ? & _)|(g & n & Hg & Hn' & Hn1 & Hpn)] & Hl); [congruence|].
  rewrite Hn in Hn'. simplify_eq. apply check_store_spec. unfold advanced.
  destruct (Z.eqb_spec upto n) as [->|Hne]; simpl.
  - split; [lia|]. split; [unfold MAX_SAFE; lia|]. split; [done|]. split; [by left|].
    right. exists g, n. split; [done|]. split; [done|]. lia.
  - split; [done|]. split; [lia|]. split; [done|]. split; [|done].
    right. exists g, n. split; [done|]. split; [done|]. lia.
Qed.

(** ** One statement each *)
Definition admits (id : string) (batch ordinal count : Z) (r : store_row) : bool :=
  (last_processed_batch_id r =? batch - 1) && (progress r =? ordinal)
  && bool_decide (current_count r = Some count).
(** Where the guarded write of [n] results ends, without the row's CHECKs. *)
Definition saved (id : string) (batch ordinal count : Z) (r : store_row) (l : list value) (d : db) : result db :=
  set_stores <[id := advanced batch (ordinal + Z.of_nat (length l)) count r]>
    <$> insert_results id batch ordinal l d.

Lemma saveResult_saved id batch ordinal count v d r :
  stores d !! id = Some r → admits id batch ordinal count r = true →
  check_store (advanced batch (ordinal + 1) count r) = true →
  match saved id batch ordinal count r [v] d with
  | Ok d' => answer05 exec (resultRequest id batch ordinal count v) d = (Ok VNull, d')
  | Throw _ => ∃ e, answer05 exec (resultRequest id batch ordinal count v) d = (Throw e, d)
  end.
Proof.
  intros Hr Ha Hc. change (answer05 exec (resultRequest id batch ordinal count v))
    with (saveResult exec (resultRequest id batch ordinal count v)).
  unfold saveResult, saved. simpl insert_results.
  change (get (resultRequest id batch ordinal count v) "result") with v.
  unfold mbind, io_bind, result_bind, check. unfold dot. destruct (nullish v) eqn:Hn.
  { assert (jsonBigint v "mutationId" = None) as -> by (by destruct v). simpl. eauto. }
  simpl. unfold with_param, mbind, io_bind, check. simpl. unfold sql_result_save. rewrite Hr.
  unfold admits in Ha. rewrite Ha. unfold update_store. rewrite Hc. simpl.
  change (match get v "mutationId" with VNum (NInt z) => Some z | _ => None end)
    with (jsonBigint v "mutationId").
  rewrite insert_result_stores.
  destruct (insert_result _ _ _ _ _ d) as [d'|e]; simpl; eauto.
Qed.
Lemma saveResults_saved id batch ordinal count digest l d r :
  stores d !! id = Some r → admits id batch ordinal count r = true →
  current_digest r = Some digest → (1 ≤ length l ≤ 32)%nat →
  0 ≤ ordinal → ordinal + Z.of_nat (length l) ≤ count ≤ MAX_SAFE →
  check_store (advanced batch (ordinal + Z.of_nat (length l)) count r) = true →
  match saved id batch ordinal count r l d with
  | Ok d' => answer05 exec (groupRequest id batch ordinal count digest l) d = (Ok VNull, d')
  | Throw _ => ∃ e, answer05 exec (groupRequest id batch ordinal count digest l) d = (Throw e, d)
  end.
Proof.
  intros Hr Ha Hg Hl Ho Hcnt Hc.
  change (answer05 exec (groupRequest id batch ordinal count digest l))
    with (saveResults exec (groupRequest id batch ordinal count digest l)).
  assert (sql_results_save id batch ordinal count (Z.of_nat (length l)) digest l d =
    match saved id batch ordinal count r l d with
    | Ok d' => (Ok ((λ _, [("store_id", VStr id)]) <$> l), d')
    | Throw e => (Throw e, d)
    end) as Hsql.
  { unfold sql_results_save, saved. rewrite Hr. unfold admits in Ha. rewrite Ha, Hg.
    rewrite bool_decide_true by done.
    rewrite (proj2 (Z.ltb_lt 0 _)), (proj2 (Z.leb_le _ count)) by lia. cbn [andb].
    unfold update_store. rewrite Hc. cbn. rewrite insert_results_stores.
    by destruct (insert_results _ _ _ _ d). }
  unfold saveResults. simpl get. simpl arrayOf.
  rewrite !check_bind. rewrite (proj2 (Nat.eqb_neq _ _)) by lia.
  rewrite (proj2 (Z.ltb_ge _ _)) by lia. cbn [orb negb].
  rewrite safe_num, positiveCounter_num by lia. rewrite !check_bind.
  rewrite (proj2 (Z.ltb_ge _ _)) by lia. cbn [negb].
  unfold mbind at 1 2, io_bind at 1 2. cbn [exec].
  unfold text, int8, Database.elements, num. rewrite !with_param_Ok, Hsql.
  destruct (saved _ _ _ _ _ _ _); [|eauto]. by rewrite length_fmap, Nat.eqb_refl.
Qed.

(** One at a time ends where the group ends. *)
Lemma saved_cons id batch ordinal count r v l d :
  l ≠ [] → ordinal + 1 ≠ count → last_processed_batch_id r = batch - 1 →
  saved id batch ordinal count r (v :: l) d =
  (d1 ← saved id batch ordinal count r [v] d;
   saved id batch (ordinal + 1) count (advanced batch (ordinal + 1) count r) l d1).
Proof.
  intros Hl Hne Hb. unfold saved. simpl.
  destruct (insert_result _ _ _ _ _ d) as [d1|e]; simpl; [|done].
  rewrite insert_results_stores.
  destruct (insert_results _ _ _ l d1) as [d2|e]; simpl; [|done].
  replace (ordinal + Z.of_nat (Datatypes.S (length l))) with (ordinal + 1 + Z.of_nat (length l)) by lia.
  f_equal. unfold set_stores; simpl. f_equal. rewrite insert_insert_eq. f_equal.
  unfold advanced. rewrite (proj2 (Z.eqb_neq (ordinal + 1) _)) by done. by case_if.
Qed.
Lemma saveEach_saved id batch count l ordinal d r :
  stores d !! id = Some r → admits id batch ordinal count r = true → check_store r = true →
  l ≠ [] → 0 ≤ ordinal → ordinal + Z.of_nat (length l) ≤ count → batch ≤ MAX_SAFE →
  match saved id batch ordinal count r l d with
  | Ok d' => saveEach id batch ordinal count l d = (Ok VNull, d')
  | Throw _ => ∃ e d', saveEach id batch ordinal count l d = (Throw e, d')
  end.
Proof.
  revert ordinal d r. induction l as [|v l IH]; intros ordinal d r Hr Ha Hc Hne Ho Hn Hm; [done|].
  pose proof Ha as Hadm. unfold admits in Hadm.
  rewrite !andb_true_iff, bool_decide_eq_true, !Z.eqb_eq in Hadm. destruct Hadm as [[Hb Hp] Hcnt].
  simpl in Hn.
  assert (check_store (advanced batch (ordinal + 1) count r) = true) as Hc1
    by (apply advanced_check; auto; lia).
  pose proof (saveResult_saved id batch ordinal count v d r Hr Ha Hc1) as Hone.
  cbn [saveEach]. destruct (decide (l = [])) as [->|Hl].
  { destruct (saved id batch ordinal count r [v] d) as [d1|e].
    - by rewrite (io_bind_Ok _ _ _ _ _ Hone).
    - destruct Hone as [e' He]. exists e', d. by rewrite (io_bind_Throw _ _ _ _ _ He). }
  assert (ordinal + 1 ≠ count) as Hlt by (destruct l; [done|simpl in Hn; lia]).
  rewrite saved_cons by done.
  destruct (saved id batch ordinal count r [v] d) as [d1|e] eqn:Hs; simpl.
  - rewrite (io_bind_Ok _ _ _ _ _ Hone). apply IH; try done; [..|lia|lia].
    + unfold saved in Hs. destruct (insert_results _ _ _ _ d) as [d0|] eqn:Hi; simplify_eq/=.
      by rewrite lookup_insert_eq.
    + unfold advanced, admits. rewrite (proj2 (Z.eqb_neq (ordinal + 1) _)) by done. simpl.
      by rewrite Hb, !Z.eqb_refl, bool_decide_true.
  - destruct Hone as [e' He]. exists e', d. by rewrite (io_bind_Throw _ _ _ _ _ He).
Qed.
(** Refused by the guards, nothing is saved either way. *)
Lemma saveResult_refused id batch ordinal count v d :
  (∀ r, stores d !! id = Some r → admits id batch ordinal count r = false) →
  ∃ e, answer05 exec (resultRequest id batch ordinal count v) d = (Throw e, d).
Proof.
  intros Hr. change (answer05 exec (resultRequest id batch ordinal count v))
    with (saveResult exec (resultRequest id batch ordinal count v)).
  unfold saveResult. simpl get. unfold dot. destruct (nullish v); [eexists; done|].
  rewrite check_bind. unfold mbind, io_bind. cbn [exec]. unfold text, int8, num.
  rewrite !with_param_Ok. unfold sql_result_save.
  destruct (stores d !! id) as [r|]; [|eexists; done].
  specialize (Hr r eq_refl). unfold admits in Hr. rewrite Hr. by eexists.
Qed.
Lemma saveResults_refused id batch ordinal count digest l d :
  (∀ r, stores d !! id = Some r → admits id batch ordinal count r = false) →
  ∃ e, answer05 exec (groupRequest id batch ordinal count digest l) d = (Throw e, d).
Proof.
  intros Hr. change (answer05 exec (groupRequest id batch ordinal count digest l))
    with (saveResults exec (groupRequest id batch ordinal count digest l)).
  unfold saveResults. simpl get. simpl arrayOf. rewrite !check_bind.
  destruct (length l =? 0)%nat eqn:Hl; [eexists; done|].
  case_if; [|eexists; done].
  destruct (safe (num ordinal)) as [o|] eqn:Ho; [|eexists; done]. rewrite check_bind.
  destruct (positiveCounter (num count)) as [n|] eqn:Hn; [|eexists; done]. rewrite check_bind.
  assert (o = ordinal ∧ n = count) as [-> ->].
  { unfold safe, positiveCounter, num in Ho, Hn. simpl in Ho, Hn. by repeat case_if; simplify_eq. }
  case_if; [|eexists; done].
  unfold mbind, io_bind. cbn [exec]. unfold text, int8, Database.elements, num.
  rewrite !with_param_Ok. unfold sql_results_save.
  assert ((length (@nil row) =? length l)%nat = false) as Hl' by (by rewrite Nat.eqb_sym).
  destruct (stores d !! id) as [r|]; [|rewrite Hl'; by eexists].
  specialize (Hr r eq_refl). unfold admits in Hr. rewrite Hr. cbn [andb]. rewrite Hl'. by eexists.
Qed.
End groups.

(** A transaction whose Store has a begun batch of two. *)
Definition demo_begun : txn := demo_call demo_begin (demo_call demo_claim (begin empty_db false 0)).
Definition demo_outcome (mutation : Z) : value :=
  VObj [("mutationId", num mutation); ("status", VStr "completed")].
Definition demo_row : store_row :=
  StoreRow "ann" "user:ann" 0 0 (Some "d"%string) (Some 2) None None false None.
Lemma demo_begun_wf : wf (tables demo_begun).
Proof. apply (answer_keeps_wf demo_begin), (answer_keeps_wf demo_claim), wf_begin, wf_empty. Defined.

(** C16: [saveResults] is [saveResult] repeated.  For a group of 1 to 32 results
    that fits its batch, either both succeed and leave the same tables, or both
    fail -- and a failing group, unlike the repetition, leaves the tables as
    they were.  The digest, which only the group statement compares, is the one
    the batch was begun with. *)
Theorem saveResults_saveEach `{Columns} id batch ordinal count digest l d :
  wf d → (1 ≤ length l ≤ 32)%nat →
  0 ≤ ordinal → ordinal + Z.of_nat (length l) ≤ count ≤ MAX_SAFE → batch ≤ MAX_SAFE →
  (∀ r g, stores d !! id = Some r → current_digest r = Some g → g = digest) →
  (∃ d', answer05 exec (groupRequest id batch ordinal count digest l) d = (Ok VNull, d') ∧
         saveEach id batch ordinal count l d = (Ok VNull, d')) ∨
  (∃ e e' d', answer05 exec (groupRequest id batch ordinal count digest l) d = (Throw e, d) ∧
              saveEach id batch ordinal count l d = (Throw e', d')).
Proof.
  intros W Hl Ho Hn Hb Hg.
  destruct l as [|v l]; [simpl in Hl; lia|].
  destruct (stores d !! id) as [r|] eqn:Hr; [destruct (admits id batch ordinal count r) eqn:Ha|].
  - pose proof Ha as Hadm. unfold admits in Hadm.
    rewrite !andb_true_iff, bool_decide_eq_true, !Z.eqb_eq in Hadm. destruct Hadm as [[Hlast Hp] Hcnt].
    pose proof (wf_stores d W _ _ Hr) as Hc.
    assert (current_digest r = Some digest) as Hdig.
    { apply check_store_spec in Hc as (_ & _ & _ & [(_ & ? & _)|(g & n & Hd & _)] & _); [congruence|].
      rewrite Hd. f_equal. eauto. }
    assert (check_store (advanced batch (ordinal + Z.of_nat (length (v :: l))) count r) = true)
      as Hca by (apply advanced_check; auto; lia).
    pose proof (saveResults_saved id batch ordinal count digest (v :: l) d r Hr Ha Hdig Hl Ho Hn Hca) as Hall.
    pose proof (saveEach_saved id batch count (v :: l) ordinal d r Hr Ha Hc ltac:(done) Ho
      ltac:(lia) Hb) as Heach.
    destruct (saved _ _ _ _ _ _ _) as [d'|e]; [left; eauto|right].
    destruct Hall as [e1 He1], Heach as (e2 & d2 & He2). by exists e1, e2, d2.
  - right. destruct (saveResults_refused id batch ordinal count digest (v :: l) d) as [e He]; [naive_solver|].
    destruct (saveResult_refused id batch ordinal count v d) as [e' He']; [naive_solver|].
    exists e, e', d. split; [done|]. cbn [saveEach]. by rewrite (io_bind_Throw _ _ _ _ _ He').
  - right. destruct (saveResults_refused id batch ordinal count digest (v :: l) d) as [e He]; [naive_solver|].
    destruct (saveResult_refused id batch ordinal count v d) as [e' He']; [naive_solver|].
    exists e, e', d. split; [done|]. cbn [saveEach]. by rewrite (io_bind_Throw _ _ _ _ _ He').
Qed.
Lemma saveResults_saveEach_witness :
  let d := tables demo_begun in
  let l := [demo_outcome 7; demo_outcome 8] in
  (∃ d', answer05 (exec (H := numberColumns)) (groupRequest "store" 1 0 2 "d" l) d = (Ok VNull, d') ∧
         saveEach (H := numberColumns) "store" 1 0 2 l d = (Ok VNull, d')) ∨
  (∃ e e' d', answer05 (exec (H := numberColumns)) (groupRequest "store" 1 0 2 "d" l) d = (Throw e, d) ∧
              saveEach (H := numberColumns) "store" 1 0 2 l d = (Throw e', d')).
Proof.
  apply saveResults_saveEach; try (simpl; unfold MAX_SAFE; lia).
  - apply demo_begun_wf.
  - intros r g Hr. assert (stores (tables demo_begun) !! "store" = Some demo_row) as Hd
      by (vm_compute; reflexivity).
    rewrite Hd in Hr. injection Hr as <-. simpl. congruence.
Defined.

(** * Reading back *)
Section read.
Context `{Columns}.

Lemma elem_of_batch_results id batch d o x :
  (o, x) ∈ batch_results id batch d ↔ results d !! (id, batch, o) = Some x.
Proof.
  unfold batch_results. rewrite list_elem_of_bind. split.
  - intros ([[[i b] p] r] & Hin & Hm). apply elem_of_map_to_list in Hm.
    destruct (String.eqb_spec i id) as [->|]; simpl in Hin; [|set_solver].
    destruct (Z.eqb_spec b batch) as [->|]; simpl in Hin; [|set_solver].
    apply list_elem_of_singleton in Hin. by simplify_eq.
  - intros Hx. exists (id, batch, o, x). rewrite elem_of_map_to_list. split; [|done].
    rewrite String.eqb_refl, Z.eqb_refl. simpl. by left.
Qed.
Lemma NoDup_batch_results id batch d : NoDup (batch_results id batch d).
Proof.
  unfold batch_results. assert (∀ l : list (string * Z * Z * result_row), NoDup l →
    NoDup (l ≫= λ '(i, b, o, r), if String.eqb i id && (b =? batch) then [(o, r)] else [])) as Hn.
  { intros l Hl. induction Hl as [|[[[i b] o] r] l Hin Hl IH]; [constructor|]. simpl.
    destruct (String.eqb_spec i id) as [->|]; simpl; [|done].
    destruct (Z.eqb_spec b batch) as [->|]; simpl; [|done].
    constructor; [|done]. rewrite list_elem_of_bind.
    intros ([[[i b] p] r'] & Hx & Hm).
    destruct (String.eqb_spec i id) as [->|]; simpl in Hx; [|set_solver].
    destruct (Z.eqb_spec b batch) as [->|]; simpl in Hx; [|set_solver].
    apply list_elem_of_singleton in Hx. by simplify_eq. }
  apply Hn, NoDup_map_to_list.
Qed.
#[local] Instance by_ordinal_total : Total by_ordinal.
Proof. intros a b. unfold by_ordinal. lia. Qed.
#[local] Instance by_ordinal_trans : Transitive by_ordinal.
Proof. intros a b c. unfold by_ordinal. lia. Qed.

(** The result kept at an ordinal, of a prefix of [n] results. *)
Definition kept (id : string) (batch : Z) (d : db) (i : nat) : Z * result_row :=
  (Z.of_nat i, default (ResultRow 0 VNull) (results d !! (id, batch, Z.of_nat i))).
Lemma sorted_results id batch d n :
  (∀ o, is_Some (results d !! (id, batch, o)) ↔ 0 ≤ o < Z.of_nat n) →
  merge_sort by_ordinal (batch_results id batch d) = kept id batch d <$> seq 0 n.
Proof.
  intros Hn.
  assert (∀ o x, (o, x) ∈ kept id batch d <$> seq 0 n ↔ (o, x) ∈ batch_results id batch d) as Hel.
  { intros o x. rewrite elem_of_batch_results, list_elem_of_fmap. unfold kept. split.
    - intros (i & [= -> ->] & Hi%elem_of_seq).
      destruct (proj2 (Hn (Z.of_nat i))) as [y Hy]; [lia|]. by rewrite Hy.
    - intros Hx. destruct (proj1 (Hn o)) as [? ?]; [by eexists|].
      exists (Z.to_nat o). rewrite Z2Nat.id, Hx by lia. split; [done|]. apply elem_of_seq. lia. }
  apply (StronglySorted_unique_strong by_ordinal).
  - intros [o x] [p y]. rewrite merge_sort_Permutation, Hel, !elem_of_batch_results.
    unfold by_ordinal; simpl. intros Hx Hy ? ?. assert (o = p) as -> by lia. congruence.
  - apply (StronglySorted_merge_sort _).
  - clear. generalize 0%nat. induction n as [|n IH]; intros s; simpl; constructor; [apply IH|].
    apply Forall_fmap, Forall_forall. intros i Hi%elem_of_seq. unfold by_ordinal, kept; simpl. lia.
  - rewrite merge_sort_Permutation. apply NoDup_Permutation.
    + apply NoDup_batch_results.
    + apply (NoDup_fmap_2_strong _ _); [|apply NoDup_seq].
      intros i j _ _ [= Hij _]. lia.
    + intros [o x]. by rewrite Hel.
Qed.
Definition readRequest (id : string) (batch : Z) : value :=
  VObj [("op", VStr "readResults"); ("storeId", VStr id); ("batchId", num batch)].
(** A stored result is the object the engine saved. *)
Definition parsed (v : value) : Prop := ∀ s, v ≠ VStr s.
Lemma readResults_kept id batch d n :
  (∀ o, is_Some (results d !! (id, batch, o)) ↔ 0 ≤ o < Z.of_nat n) →
  (∀ o x, results d !! (id, batch, o) = Some x → parsed (result_json x)) →
  answer05 exec (readRequest id batch) d
  = (Ok (VArr ((λ i, result_json (kept id batch d i).2) <$> seq 0 n)), d).
Proof.
  intros Hn Hp. change (answer05 exec (readRequest id batch)) with (readResults exec (readRequest id batch)).
  unfold readResults. simpl get. unfold mbind, io_bind at 1. cbn [exec]. unfold text, int8, num.
  rewrite !with_param_Ok. unfold sql_results_read. rewrite (sorted_results _ _ _ n) by done.
  assert (∀ l, (∀ e, e ∈ l → parsed (result_json e.2)) →
    mapM (λ r, json (column r "result")) ((λ e : Z * result_row, [("result", result_json e.2)]) <$> l)
    = Ok ((λ e, result_json e.2) <$> l)) as Hm.
  { intros l Hl. apply mapM_Ok, Forall2_fmap, Forall_Forall2_diag, Forall_forall.
    intros [o x] Hx. specialize (Hl _ Hx). simpl in *. unfold column; simpl.
    destruct (result_json x) as [| | | | |s| | | |]; try done. by destruct (Hl s). }
  unfold io_bind, check. rewrite Hm; [by rewrite <- list_fmap_compose|].
  intros e (i & -> & Hi%elem_of_seq)%list_elem_of_fmap. unfold kept; simpl.
  destruct (proj2 (Hn (Z.of_nat i))) as [y Hy]; [lia|]. rewrite Hy. simpl. eauto.
Qed.

Lemma insert_results_lookup id batch l ordinal d d' j v :
  insert_results id batch ordinal l d = Ok d' → l !! j = Some v →
  ∃ x, results d' !! (id, batch, ordinal + Z.of_nat j) = Some x ∧ result_json x = v.
Proof.
  revert ordinal d j. induction l as [|w l IH]; intros ordinal d j; simpl; [done|].
  intros (d1 & H1 & H2)%result_bind_inv Hj. destruct j as [|j]; simplify_eq/=.
  - apply insert_result_spec in H1 as (x & _ & Hx & _ & _ & ->). exists x. split; [|done].
    eapply insert_results_keeps; [done|]. simpl. rewrite Z.add_0_r. by rewrite lookup_insert_eq.
  - destruct (IH _ _ _ H2 Hj) as (x & ? & ?). exists x. split; [|done].
    by replace (ordinal + Z.of_nat (Datatypes.S j)) with (ordinal + 1 + Z.of_nat j) by lia.
Qed.
End read.

(** A group that was saved: the batch's results were the first [progress], they are
    kept, and the group follows them. *)
Lemma saveResults_extends `{Columns} id batch ordinal count digest l d d' :
  wf d → (1 ≤ length l ≤ 32)%nat → 0 ≤ ordinal → ordinal + Z.of_nat (length l) ≤ count ≤ MAX_SAFE →
  batch ≤ MAX_SAFE → (∀ r g, stores d !! id = Some r → current_digest r = Some g → g = digest) →
  answer05 exec (groupRequest id batch ordinal count digest l) d = (Ok VNull, d') →
  ∃ n : nat,
    (∀ o, is_Some (results d !! (id, batch, o)) ↔ 0 ≤ o < Z.of_nat n) ∧
    (∀ o, is_Some (results d' !! (id, batch, o)) ↔ 0 ≤ o < Z.of_nat (n + length l)) ∧
    (∀ o x, results d !! (id, batch, o) = Some x → results d' !! (id, batch, o) = Some x) ∧
    (∀ j v, l !! j = Some v → ∃ x, results d' !! (id, batch, Z.of_nat (n + j)) = Some x ∧ result_json x = v).
Proof.
  intros W Hl Ho Hn Hb Hg Hsave.
  destruct (stores d !! id) as [r|] eqn:Hr.
  2:{ destruct (saveResults_refused id batch ordinal count digest l d) as [e He];
      [rewrite Hr; by intros ? [= <-]|congruence]. }
  destruct (admits id batch ordinal count r) eqn:Ha.
  2:{ destruct (saveResults_refused id batch ordinal count digest l d) as [e He];
      [rewrite Hr; by intros ? [= <-]|congruence]. }
  pose proof Ha as Hadm. unfold admits in Hadm.
  rewrite !andb_true_iff, bool_decide_eq_true, !Z.eqb_eq in Hadm. destruct Hadm as [[Hlast Hprog] Hcnt].
  pose proof (wf_stores d W _ _ Hr) as Hc.
  assert (current_digest r = Some digest) as Hdig.
  { apply check_store_spec in Hc as (_ & _ & _ & [(_ & ? & _)|(g & n & Hd & _)] & _); [congruence|].
    rewrite Hd. f_equal. eauto. }
  pose proof (saveResults_saved id batch ordinal count digest l d r Hr Ha Hdig Hl Ho Hn
    ltac:(apply advanced_check; auto; lia)) as Hall.
  assert (saved id batch ordinal count r l d = Ok d') as Hs.
  { destruct (saved _ _ _ _ _ _ _) as [d2|]; [congruence|]. destruct Hall as [e2 He]. congruence. }
  unfold saved in Hs. destruct (insert_results id batch ordinal l d) as [d1|] eqn:Hi; simplify_eq/=.
  assert (∀ o, is_Some (results d !! (id, batch, o)) ↔ 0 ≤ o < progress r) as Hpre.
  { intros o. rewrite (wf_retained d W) by done. unfold retained. rewrite Hdig. simpl. lia. }
  pose proof Hi as (rs & Hd1 & _ & _ & Hpost)%insert_results_spec.
  exists (Z.to_nat (progress r)). split; [|split; [|split]].
  - intros o. rewrite Hpre. lia.
  - intros o. rewrite Hd1. simpl. rewrite Hpost, Hpre. lia.
  - intros o x. apply (insert_results_keeps _ _ _ _ _ _ _ _ Hi).
  - intros j v Hj. replace (Z.of_nat (Z.to_nat (progress r) + j)) with (progress r + Z.of_nat j) by lia.
    apply (insert_results_lookup _ _ _ _ _ _ _ _ Hi Hj).
Qed.

