(* ===== verification/Simulation.v ===== *)
(** An operation of [Persistence.v] only sees its query function: two runs whose
    queries answer alike, in related states, answer alike. *)
From S2P Require Import Prelude Text Json Database Persistence.
Open Scope axton_scope.

Definition simulates {S T A} (R : S → T → Prop) (m : io S A) (n : io T A) : Prop :=
  ∀ s t, R s t → (m s).1 = (n t).1 ∧ R (m s).2 (n t).2.
Section simulation.
Context {S T : Type} (R : S → T → Prop).
Lemma simulates_ret {A} (a : A) : simulates R (mret a) (mret a).
Proof. by intros s t. Qed.
Lemma simulates_throw {A} e : simulates R (throw (A := A) e) (throw e).
Proof. by intros s t. Qed.
Lemma simulates_check {A} (r : result A) : simulates R (check r) (check r).
Proof. by intros s t. Qed.
Lemma simulates_bind {A B} (m : io S A) n (f : A → io S B) g :
  simulates R m n → (∀ a, simulates R (f a) (g a)) → simulates R (m ≫= f) (n ≫= g).
Proof.
  intros Hm Hf s t Hst. destruct (Hm s t Hst) as [H1 H2]. unfold mbind, io_bind.
  destruct (m s) as [[a|e] s1], (n t) as [[b|e'] t1]; cbn in *; simplify_eq; [by apply Hf|done].
Qed.
Lemma simulates_if {A} (b : bool) (m m' : io S A) n n' :
  simulates R m n → simulates R m' n' → simulates R (if b then m else m') (if b then n else n').
Proof. by destruct b. Qed.
Lemma simulates_mapM {A B} (f : A → io S B) g l :
  (∀ a, simulates R (f a) (g a)) → simulates R (mapM f l) (mapM g l).
Proof.
  intros Hf. induction l as [|a l IH]; [apply simulates_ret|]. cbn.
  apply simulates_bind; [done|intros]. apply simulates_bind; [done|intros]. apply simulates_ret.
Qed.
Lemma simulates_forEach {A} (f : A → io S unit) g l :
  (∀ a, simulates R (f a) (g a)) → simulates R (forEach f l) (forEach g l).
Proof.
  intros Hf. induction l as [|a l IH]; [apply simulates_ret|]. cbn [forEach]. by apply simulates_bind.
Qed.
End simulation.

(** [Hq] relates the two queries. *)
Ltac sim_with Hq := repeat first
  [ apply simulates_ret | apply simulates_throw | apply simulates_check | apply Hq
  | apply simulates_bind; [|intros ?] | apply simulates_if
  | apply simulates_mapM; intros | apply simulates_forEach; intros | case_match ].

Section operations.
Context {S T : Type} (R : S → T → Prop) (p : statement → io S (list row)) (q : statement → io T (list row)).
Hypothesis Hq : ∀ s, simulates R (p s) (q s).
Ltac sim := sim_with Hq.
Lemma guardRuns_sim fuel l : simulates R (guardRuns p fuel l) (guardRuns q fuel l).
Proof.
  revert l. induction fuel as [|fuel IH]; intros l; cbn [guardRuns]; [apply simulates_ret|].
  destruct l as [|k l]; [apply simulates_ret|].
  destruct (sameMode (mode k) (STREAM_BATCH - 1) l) as [here rest].
  apply simulates_bind; [unfold guardRun; sim|intros]. apply simulates_bind; [apply IH|intros]. apply simulates_ret.
Qed.
Lemma readTracking_sim r : simulates R (readTracking p r) (readTracking q r).
Proof. unfold readTracking. sim. Qed.
Lemma applyStreamMembers_sim r : simulates R (applyStreamMembers p r) (applyStreamMembers q r).
Proof.
  unfold applyStreamMembers, applyDeltas, applyReserving, applyGeneral, reserveCursors, applyGroup, first. cbv zeta. sim.
Qed.
Lemma answer05_sim r : simulates R (answer05 p r) (answer05 q r).
Proof.
  unfold answer05. repeat (apply simulates_if).
  all: try apply simulates_throw.
  - unfold bootstrapState, first. sim.
  - unfold finishBootstrap. sim.
  - unfold deliveryHead, first. sim.
  - unfold deliveryNow, first. sim.
  - unfold deliveryCandidates, checkTracked. sim.
  - unfold inspectStore, first. sim.
  - unfold claimStore, first. sim.
  - unfold beginBatch. sim.
  - unfold readResult, first. sim.
  - unfold readResults. sim.
  - unfold saveResult. sim.
  - unfold saveResults. sim.
  - apply readTracking_sim.
  - unfold guardRecords. sim. apply guardRuns_sim.
  - unfold positions, positionGroup. sim.
  - unfold positions, positionGroup. sim.
  - apply applyStreamMembers_sim.
Qed.
Lemma answerInitialized_sim r : simulates R (answerInitialized p r) (answerInitialized q r).
Proof.
  unfold answerInitialized.
  repeat first [apply answer05_sim | apply simulates_throw | apply simulates_if].
  - unfold deliveryHead, first. sim.
  - unfold lockStreams. sim.
  - unfold savepointOp. sim.
  - unfold savepointOp. sim.
  - unfold savepointOp. sim.
Qed.
End operations.
