(* ===== verification/Publication.v ===== *)
(** Publishing memberships: the single-statement path of [applyStreamMembers]
    does exactly what the general path does. *)
From S2P Require Import Prelude Text Json Database Wellformed Persistence PersistenceFacts.
From stdpp Require Import sorting.
Open Scope Z_scope.
Open Scope axton_scope.

(** The operation without its fast path: every run reserves its cursors first and
    then writes its groups. *)
Definition applyDeltasGeneral {S} (q : statement → io S (list row)) (r : value) (deltas : list key_fields)
    : io S value :=
  _ ← check (unique deltas "deltas");
  streams ← check (publishedStreams deltas);
  _ ← (if (length streams =? 0)%nat then mret [] else q V05_PUBLICATION_CURSORS);
  applyGeneral q streams (coalesce (get r "publicationScope") (VStr EmptyString)) deltas.

Lemma keyOf_Ok v extra k : keyOf v extra = Ok k →
  get (own k) "model" = VStr (model k) ∧ get (own k) "identityKey" = VStr (identityKey k) ∧
  ∃ l, own k = VObj l.
Proof.
  unfold keyOf. intros (w & _ & H1)%result_bind_inv. apply result_bind_inv in H1 as (m & _ & H1).
  apply result_bind_inv in H1 as (i & _ & [= <-]). simpl.
  rewrite !fieldOf_setField. simpl. eauto.
Qed.
(** What every delta of the operation satisfies. *)
Definition keyed (d : key_fields) : Prop :=
  get (own d) "model" = VStr (model d) ∧ get (own d) "identityKey" = VStr (identityKey d).
Lemma keyed_key d : keyed d → jsonKey (own d) = Some (model d, identityKey d).
Proof. intros [Hm Hi]. unfold jsonKey, jsonText. by rewrite Hm, Hi. Qed.

Section fast.
Context `{Columns}.

Lemma batches_one {A} (l : list A) : l ≠ [] → (length l ≤ STREAM_BATCH)%nat → batches l = [l].
Proof.
  intros Hne Hl. unfold batches. destruct l as [|a l]; [done|]. cbn [length batchesOf].
  rewrite take_ge, drop_ge by done. by destruct (length l).
Qed.

(** ** Writing a run of memberships under one cursor *)
Definition target (d : db) (stream : string) (c : Z) (v : value) : option (string * Z * option Z) :=
  id ← record_id d v; Some (stream, id, Some c).
Lemma write_members_map {A} (f g : A → value) t u seen (l : list A) d :
  (∀ a, a ∈ l → t (f a) = u (g a)) →
  write_members t seen (f <$> l) d = write_members u seen (g <$> l) d.
Proof.
  revert seen d. induction l as [|a l IH]; intros seen d Ht; [done|]. cbn [fmap list_fmap write_members].
  rewrite (Ht a) by (by left). destruct (u (g a)) as [[[s i] c]|]; [|apply IH; intros; apply Ht; by right].
  case_bool_decide; [done|]. destruct (upsert_member s i c d); [|done].
  apply IH. intros. apply Ht. by right.
Qed.
(** With distinct keys, an existing Stream and a stored cursor nothing is refused. *)
Lemma write_members_total d0 stream c l seen d :
  1 ≤ c ≤ MAX_SAFE → is_Some (streams d !! stream) → wf d0 →
  NoDup (omap jsonKey l) →
  (∀ v i, v ∈ l → record_id d0 v = Some i → (stream, i) ∉ seen) →
  ∃ d', write_members (target d0 stream c) seen l d = Ok d'.
Proof.
  intros Hc Hs W. revert seen d Hs. induction l as [|v l IH]; intros seen d Hs Hnd Hseen; simpl; [eauto|].
  assert (NoDup (omap jsonKey l)) as Hnd'.
  { simpl in Hnd. destruct (jsonKey v); [by apply NoDup_cons in Hnd as []|done]. }
  unfold target at 1, mbind, option_bind.
  destruct (record_id d0 v) as [i|] eqn:Hi; [|apply IH; auto; intros; eapply Hseen; [by right|done]].
  rewrite bool_decide_false by (eapply Hseen; [by left|done]).
  unfold upsert_member, check_member, positive_counter. simpl.
  rewrite !(proj2 (Z.leb_le _ _)) by lia. simpl. rewrite bool_decide_true by done. simpl.
  apply IH; simpl; [done|done|].
  intros w j Hw Hj. rewrite not_elem_of_cons. split; [|eapply Hseen; [by right|done]].
  intros [= <-]. unfold record_id in Hi, Hj.
  apply bind_Some in Hi as (k & Hk & Hki), Hj as (k' & Hk' & Hkj).
  assert (k = k') as <- by (eapply (wf_identity d0 W); eauto).
  simpl in Hnd. rewrite Hk in Hnd. apply NoDup_cons in Hnd as [Hnin _].
  destruct Hnin. apply list_elem_of_omap. eauto.
Qed.

(** ** What the run's deltas are sent as *)
Definition sentAs (stream : string) (c : Z) (d : key_fields) : value :=
  VObj (setField "cursor" (num c) (setField "stream" (VStr stream) (spread (own d)))).
Lemma get_sentAs stream c d l key : own d = VObj l → key ≠ "cursor" → key ≠ "stream" →
  get (sentAs stream c d) key = get (own d) key.
Proof.
  intros Ho Hc Hs. unfold sentAs, get. rewrite Ho. simpl. rewrite !fieldOf_setField.
  destruct (String.eqb_spec "cursor" key); [congruence|].
  by destruct (String.eqb_spec "stream" key); [congruence|].
Qed.
Lemma jsonKey_sentAs stream c d l : own d = VObj l → jsonKey (sentAs stream c d) = jsonKey (own d).
Proof. intros Ho. unfold jsonKey, jsonText. by rewrite !(get_sentAs _ _ _ _ _ Ho). Qed.
Lemma withCursor_sentAs stream c d :
  stream_of d = VStr stream → blank stream = false →
  withCursor [(stream, c)] d = Ok (sentAs stream c d).
Proof.
  intros Hs Hb. unfold withCursor. rewrite Hs. simpl. rewrite Hb. simpl.
  by rewrite String.eqb_refl.
Qed.

Record run_of (stream : string) (deltas : list key_fields) : Prop := {
  run_nonempty : deltas ≠ [];
  run_bounded : (length deltas ≤ STREAM_BATCH)%nat;
  run_stream d : d ∈ deltas → stream_of d = VStr stream;
  run_publish d : d ∈ deltas → publish d = VBool true;
  run_keyed d : d ∈ deltas → keyed d ∧ ∃ l, own d = VObj l;
  run_name : blank stream = false;
  run_NoDup : NoDup ((λ d, (model d, identityKey d)) <$> deltas) }.

Lemma run_keys stream deltas : run_of stream deltas →
  omap jsonKey (own <$> deltas) = (λ d, (model d, identityKey d)) <$> deltas.
Proof.
  intros R. pose proof (run_keyed _ _ R) as Hk. clear R.
  induction deltas as [|d l IH]; [done|]. simpl.
  destruct (Hk d) as [Hd _]; [by left|]. rewrite (keyed_key _ Hd). f_equal. apply IH.
  intros. apply Hk. by right.
Qed.

(** The rows of both statements read the same to [livePosition]. *)
Lemma livePosition_same d ord rep p extra :
  livePosition d (applied_columns ord rep p ++ extra) = livePosition d (applied_columns ord rep p).
Proof. done. Qed.
Lemma positions_same stream d1 d2 c deltas :
  run_of stream deltas →
  mapM (λ e : key_fields * row,
    if truthy (column e.2 "overflow") then Throw (overflow stream) else livePosition e.1 e.2)
    (zip deltas (imap (λ i v, applied_columns (Z.of_nat i + 1) (bool_decide (is_Some (record_id d1 v)))
                    (member_at d2 stream v) ++ [("overflow", VBool false)]) (own <$> deltas)))
  = mapM (λ e : key_fields * row, livePosition e.1 e.2)
    (zip deltas (imap (λ i v, applied_columns (Z.of_nat i + 1) (bool_decide (is_Some (record_id d1 v)))
                    (if jsonBool v "publish" then member_of d2 v else member_of d1 v))
                  (sentAs stream c <$> deltas))).
Proof.
  intros R.
  assert (∀ l (f g : nat → key_fields → row),
    (∀ i d, d ∈ l → (if truthy (column (f i d) "overflow") then Throw (overflow stream)
                     else livePosition d (f i d)) = livePosition d (g i d)) →
    mapM (λ e : key_fields * row,
      if truthy (column e.2 "overflow") then Throw (overflow stream) else livePosition e.1 e.2)
      (zip l (imap f l))
    = mapM (λ e : key_fields * row, livePosition e.1 e.2) (zip l (imap g l))) as Hgen.
  { induction l as [|d l IH]; intros f g Hfg; [done|]. cbn [zip imap zip_with mapM].
    simpl. rewrite Hfg by (by left).
    rewrite (IH (f ∘ S) (g ∘ S)); [done|]. intros i d' Hd'. apply Hfg. by right. }
  rewrite !imap_fmap. apply Hgen. intros i d Hd. cbn [compose].
  destruct (run_keyed _ _ R d Hd) as [_ [l Ho]].
  assert (jsonBool (sentAs stream c d) "publish" = true) as ->.
  { unfold jsonBool. rewrite (get_sentAs _ _ _ _ _ Ho) by done.
    change (get (own d) "publish") with (publish d). by rewrite (run_publish _ _ R). }
  assert (record_id d1 (sentAs stream c d) = record_id d1 (own d)) as ->
    by (unfold record_id; by rewrite (jsonKey_sentAs _ _ _ _ Ho)).
  assert (member_of d2 (sentAs stream c d) = member_at d2 stream (own d)) as ->; [|done].
  unfold member_of, member_at, record_id, jsonText. rewrite (jsonKey_sentAs _ _ _ _ Ho).
  unfold sentAs, get. simpl. by rewrite !fieldOf_setField.
Qed.

Lemma reserve_records stream scope d c d' :
  reserve stream scope d = Ok (c, d') → records d' = records d.
Proof. unfold reserve. repeat case_match; intros; by simplify_eq. Qed.
Lemma record_id_same d d' v : records d' = records d → record_id d' v = record_id d v.
Proof. unfold record_id. by intros ->. Qed.

Lemma reserveCursors_one stream sc d : wf d →
  reserveCursors exec (VStr sc) [stream] d =
  match reserve stream sc d with
  | Ok (Some c, d') => (Ok [(stream, c)], d')
  | Ok (None, d') => (Throw (overflow stream), d')
  | Throw e => (Throw e, d)
  end.
Proof.
  intros W. unfold reserveCursors, first. cbn [mapM]. unfold mbind, io_bind. cbn [exec].
  unfold text. rewrite !with_param_Ok. unfold sql_reserve_cursor.
  destruct (reserve stream sc d) as [[[c|] d']|e] eqn:Hr; try done.
  apply wf_reserve in Hr as (W' & _ & _ & Hc); [|done].
  destruct (Hc c eq_refl) as (h & Hh & Hle). pose proof (wf_heads d' W' _ _ Hh).
  cbn [head mret io_ret option_ret]. unfold mret, io_ret. cbn [head].
  unfold column. simpl. unfold positiveCounter. rewrite bigint_toNumber.
  by rewrite !(proj2 (Z.leb_le _ _)) by lia.
Qed.
Lemma applyGroup_one stream c deltas d :
  run_of stream deltas → wf d → reached d stream c →
  ∃ d2, write_members (target d stream c) [] (own <$> deltas) d = Ok d2 ∧
  applyGroup exec [(stream, c)] deltas d =
  (mapM (λ e : key_fields * row, livePosition e.1 e.2)
    (zip deltas (imap (λ i v, applied_columns (Z.of_nat i + 1) (bool_decide (is_Some (record_id d v)))
       (if jsonBool v "publish" then member_of d2 v else member_of d v)) (sentAs stream c <$> deltas))), d2).
Proof.
  intros R W (h & Hh & Hc). pose proof (wf_heads d W _ _ Hh).
  destruct (write_members_total d stream c (own <$> deltas) [] d) as [d2 Hw];
    [lia|by eexists|done| |set_solver|].
  { rewrite (run_keys _ _ R). apply (run_NoDup _ _ R). }
  exists d2. split; [done|]. unfold applyGroup.
  rewrite (mapM_ext_elem _ (λ d, Ok (sentAs stream c d)))
    by (intros; apply withCursor_sentAs; [by eapply run_stream|by eapply run_name]).
  rewrite mapM_pure, check_bind. unfold mbind, io_bind. cbn [exec]. unfold Database.elements.
  rewrite with_param_Ok. unfold sql_apply_members_batch.
  rewrite (write_members_map (sentAs stream c) own _ (target d stream c)).
  - rewrite Hw. rewrite length_imap, length_fmap, Nat.eqb_refl. done.
  - intros a Ha. destruct (run_keyed _ _ R a Ha) as [_ [l Ho]]. unfold wanted_target, target.
    assert (jsonBool (sentAs stream c a) "publish" = true) as ->.
    { unfold jsonBool. rewrite (get_sentAs _ _ _ _ _ Ho) by done.
      change (get (own a) "publish") with (publish a). by rewrite (run_publish _ _ R). }
    assert (record_id d (sentAs stream c a) = record_id d (own a)) as ->
      by (unfold record_id; by rewrite (jsonKey_sentAs _ _ _ _ Ho)).
    assert (jsonText (sentAs stream c a) "stream" = Some stream) as ->
      by (unfold jsonText, sentAs, get; by rewrite !fieldOf_setField).
    assert (jsonBigint (sentAs stream c a) "cursor" = Some c) as ->
      by (unfold jsonBigint, sentAs, get; by rewrite !fieldOf_setField).
    done.
Qed.
Lemma applyReserving_general stream scope deltas d :
  run_of stream deltas → wf d →
  applyReserving exec stream scope deltas d = applyGeneral exec [stream] scope deltas d.
Proof.
  intros R W. destruct (text scope) as [sc|e] eqn:Hsc.
  2:{ unfold applyReserving, applyGeneral, reserveCursors, first. cbn [mapM].
      unfold mbind, io_bind. cbn [exec]. rewrite Hsc. done. }
  assert (scope = VStr sc) as -> by (destruct scope; by simplify_eq/=).
  unfold applyGeneral. pose proof (reserveCursors_one stream sc d W) as Hcur.
  unfold applyReserving. unfold mbind at 1, io_bind at 1. cbn [exec].
  unfold text, Database.elements. rewrite !with_param_Ok. unfold sql_reserve_apply_members.
  destruct (reserve stream sc d) as [[c d1]|e] eqn:Hr.
  2:{ by rewrite (io_bind_Throw _ _ _ _ _ Hcur). }
  pose proof (reserve_records _ _ _ _ _ Hr) as Hrec.
  apply wf_reserve in Hr as (W1 & _ & _ & Hc); [|done].
  destruct c as [c|].
  - rewrite (io_bind_Ok _ _ _ _ _ Hcur). rewrite batches_one by apply R.
    destruct (applyGroup_one stream c deltas d1 R W1 (Hc c eq_refl)) as (d2 & Hw & Hg).
    rewrite <- (list_fmap_id (own <$> deltas)), (write_members_map id id _ (target d1 stream c)), list_fmap_id, Hw.
    2:{ intros v _. unfold target. by rewrite (record_id_same d d1). }
    rewrite length_imap, length_fmap, Nat.eqb_refl. cbn [mapM].
    unfold mbind, io_bind, check. rewrite Hg. rewrite bool_decide_true by done.
    rewrite bool_decide_false by done.
    rewrite <- (positions_same stream d1 d2 c deltas R).
    erewrite (imap_ext _ _ (own <$> deltas)).
    2:{ intros i v _. by rewrite <- (record_id_same d d1 v Hrec). }
    match goal with |- match ?m with _ => _ end = _ => destruct m as [l|e] end; [|done].
    unfold mret, io_ret. simpl. by rewrite app_nil_r.
  - rewrite (io_bind_Throw _ _ _ _ _ Hcur).
    assert (∀ l (e0 : db), write_members (λ _ : value, None) [] l e0 = Ok e0) as Hnone
      by (intros l e0; induction l; auto).
    rewrite Hnone. rewrite length_imap, length_fmap, Nat.eqb_refl.
    pose proof (run_nonempty _ _ R). destruct deltas as [|a l]; [done|].
    unfold mbind, io_bind, check. cbn. done.
Qed.
End fast.

Lemma strictEq_true v : strictEq v (VBool true) = true → v = VBool true.
Proof. destruct v as [| |[]|[]| | | | | |]; by simpl. Qed.
Lemma publishedStreams_one deltas stream :
  publishedStreams deltas = Ok [stream] → (∀ d, d ∈ deltas → publish d = VBool true) →
  deltas ≠ [] ∧ blank stream = false ∧ ∀ d, d ∈ deltas → stream_of d = VStr stream.
Proof.
  unfold publishedStreams. intros Hs Hp.
  assert (filter (λ d, truthy (publish d)) deltas = deltas) as Hf.
  { induction deltas as [|d l IH]; [done|]. rewrite filter_cons.
    rewrite decide_True by (rewrite (Hp d) by (by left); done). f_equal.
    assert (∀ d, d ∈ l → publish d = VBool true) as Hp' by (intros; apply Hp; by right).
    clear -Hp'. induction l as [|d l IH]; [done|]. rewrite filter_cons.
    rewrite decide_True by (rewrite (Hp' d) by (by left); done). f_equal. apply IH.
    intros; apply Hp'. by right. }
  rewrite Hf in Hs. apply result_bind_inv in Hs as (names & Hn & [= Hm]).
  assert (uniq names = [stream]) as Hu.
  { apply Permutation_singleton_r. rewrite <- Hm. by rewrite merge_sort_Permutation. }
  assert (∀ s, s ∈ names → s = stream) as Hall.
  { intros s Hin. rewrite <- elem_of_uniq, Hu in Hin. by apply list_elem_of_singleton in Hin. }
  apply mapM_Ok in Hn. split_and!.
  - intros ->. apply Forall2_nil_inv_l in Hn as ->. done.
  - assert (stream ∈ names) as Hin by (rewrite <- elem_of_uniq, Hu; by left).
    apply list_elem_of_lookup in Hin as [i Hi].
    destruct (Forall2_lookup_r _ _ _ _ _ Hn Hi) as (d & _ & Hd). by apply streamName_Ok in Hd as [_ ?].
  - intros d Hd. apply list_elem_of_lookup in Hd as [i Hi].
    destruct (Forall2_lookup_l _ _ _ _ _ Hn Hi) as (s & Hsi & Hs).
    apply streamName_Ok in Hs as [-> _]. f_equal. by eapply Hall, list_elem_of_lookup_2.
Qed.
Lemma unique_NoDup deltas what stream :
  unique deltas what = Ok tt → (∀ d, d ∈ deltas → stream_of d = VStr stream) →
  NoDup ((λ d, (model d, identityKey d)) <$> deltas).
Proof.
  unfold unique. intros Hu Hs. apply result_bind_inv in Hu as (ids & Hids & Hd).
  destruct (length (uniq ids) =? length ids)%nat eqn:Hl; [|done].
  apply Nat.eqb_eq, uniq_length_eq in Hl. apply mapM_Ok in Hids.
  assert (ids = (λ k : string * string, match pairId (VStr stream) k.1 k.2 with Ok s => s | Throw _ => EmptyString end)
    <$> ((λ d, (model d, identityKey d)) <$> deltas)) as Heq.
  { clear Hd Hl. induction Hids as [|d id l ids Hid Hids IH]; [done|]. cbn [fmap list_fmap].
    rewrite <- IH by (intros; apply Hs; by right). f_equal.
    unfold pairIdOf in Hid. unfold stream_of in Hs. rewrite Hs in Hid by (by left). cbn [fst snd]. by rewrite Hid. }
  rewrite Heq in Hl. by eapply NoDup_fmap_1.
Qed.

(** The single-statement path of [applyStreamMembers] is the general one.
    For every request, a run of deltas that qualifies for
    [V05_RESERVE_APPLY_MEMBERS] is answered -- positions, errors and their
    order -- and leaves the tables exactly as reserving first and writing in
    groups would. *)
Lemma applyStreamMembers_general `{Columns} r d :
  wf d →
  applyStreamMembers exec r d =
  (raw ← check (arrayOf (get r "deltas") "deltas");
   deltas ← check (mapM (λ v, keyOf v ["identity"; "stream"; "publish"]) raw);
   applyDeltasGeneral exec r deltas) d.
Proof.
  intros W. unfold applyStreamMembers, applyDeltas, applyDeltasGeneral.
  unfold mbind, io_bind, check.
  destruct (arrayOf _ _) as [raw|]; [|done].
  destruct (mapM _ raw) as [deltas|] eqn:Hkeys; [|done].
  destruct (unique deltas "deltas") as [[]|] eqn:Hu; [|done].
  destruct (publishedStreams deltas) as [streams|] eqn:Hs; [|done].
  destruct streams as [|stream [|? ?]]; [done| |done].
  cbn [length Nat.eqb exec]. unfold sql_publication_cursors.
  set (d1 := match cursors d with Some _ => d | None => _ end).
  assert (wf d1) as W1 by apply (wf_publication_cursors d W).
  destruct (_ && _) eqn:Hfast; [|done]. apply andb_true_iff in Hfast as [Hl Hp].
  apply Nat.leb_le in Hl. rewrite forallb_forall in Hp.
  assert (∀ d, d ∈ deltas → publish d = VBool true) as Hpub
    by (intros; apply strictEq_true, Hp, list_elem_of_In; done).
  destruct (publishedStreams_one _ _ Hs Hpub) as (Hne & Hb & Hst).
  apply applyReserving_general; [|done]. split; auto.
  - intros k Hk. apply list_elem_of_lookup in Hk as [i Hi]. apply mapM_Ok in Hkeys.
    destruct (Forall2_lookup_r _ _ _ _ _ Hkeys Hi) as (v & _ & Hv).
    apply keyOf_Ok in Hv as (? & ? & ?). split; [split; done|done].
  - by eapply unique_NoDup.
Qed.
Definition demo_identities : db :=
  (exec (H := numberColumns) (ENSURE_IDENTITIES (VArr
    [VObj [("model", VStr "task"); ("identityKey", VStr "1")];
     VObj [("model", VStr "task"); ("identityKey", VStr "2")]])) empty_db).2.
Definition demo_publish : value :=
  VObj [("op", VStr "applyStreamMembers"); ("deltas", VArr
    [VObj [("model", VStr "task"); ("identityKey", VStr "1"); ("stream", VStr "s"); ("publish", VBool true)];
     VObj [("model", VStr "task"); ("identityKey", VStr "2"); ("stream", VStr "s"); ("publish", VBool true)]])].
