(* ===== verification/Guards.v ===== *)
(** Canonical order and the operations that depend on it: [lockStreams] and
    [guardRecords]. *)
From S2P Require Import Prelude Text Json Database Wellformed Persistence PersistenceFacts.
From stdpp Require Import sorting.
Open Scope Z_scope.
Open Scope axton_scope.

(** * Groups of at most [STREAM_BATCH] *)
Lemma batchesOf_concat {A} size fuel (l : list A) :
  (0 < size)%nat → (length l ≤ fuel)%nat → concat (batchesOf size fuel l) = l.
Proof.
  intros Hs. revert l. induction fuel as [|fuel IH]; intros l Hl; [by destruct l; simpl in *; [|lia]|].
  destruct l as [|a l]; [done|]. cbn [batchesOf concat]. rewrite IH.
  - apply take_drop.
  - rewrite length_drop. simpl in *. lia.
Qed.
Lemma batches_concat {A} (l : list A) : concat (batches l) = l.
Proof. apply batchesOf_concat; unfold STREAM_BATCH; lia. Qed.
Lemma batchesOf_bounded {A} size fuel (l : list A) g :
  (0 < size)%nat → g ∈ batchesOf size fuel l → (1 ≤ length g ≤ size)%nat.
Proof.
  intros Hs. revert l. induction fuel as [|fuel IH]; intros l; simpl; [set_solver|].
  destruct l as [|a l]; [set_solver|]. rewrite elem_of_cons. intros [->|?]; [|eauto].
  rewrite length_take. simpl. lia.
Qed.
Lemma batches_bounded {A} (l : list A) g : g ∈ batches l → (1 ≤ length g ≤ STREAM_BATCH)%nat.
Proof. apply batchesOf_bounded. unfold STREAM_BATCH. lia. Qed.

(** * [byteOrder] *)
Lemma firstDifference_lex x y : (firstDifference x y ?= 0) = lex x y.
Proof.
  revert y. induction x as [|a x IH]; intros [|b y]; simpl; try done.
  destruct (Z.eqb_spec a b) as [->|Hne]; [by rewrite Z.compare_refl|].
  destruct (Z.compare_spec a b), (Z.compare_spec (a - b) 0); lia || done.
Qed.
Lemma byteOrder_lex a b : (byteOrder a b ?= 0) = lex (codePoints a) (codePoints b).
Proof. apply firstDifference_lex. Qed.
Lemma byteOrder_trans a b c : byteOrder a b < 0 → byteOrder b c < 0 → byteOrder a c < 0.
Proof.
  unfold Z.lt. rewrite !byteOrder_lex. apply lex_trans.
Qed.
Lemma byteOrder_irrefl a : byteOrder a a = 0.
Proof. apply Z.compare_eq_iff. rewrite byteOrder_lex. by apply lex_Eq. Qed.

(** [byteOrder] is UTF-8 byte order: on well-formed strings its sign is the
    comparison of their UTF-8 encodings, and zero means equal. *)
Theorem byteOrder_utf8 a b :
  isText a → isText b →
  (byteOrder a b ?= 0) = lex (bytes a) (bytes b) ∧ (byteOrder a b = 0 ↔ a = b).
Proof.
  intros Ha Hb. destruct (isText_from a Ha) as [Hea Ca], (isText_from b Hb) as [Heb Cb].
  assert ((byteOrder a b ?= 0) = lex (bytes a) (bytes b)) as Hcmp.
  { rewrite byteOrder_lex. rewrite <- (lex_utf8 _ _ Ca Cb).
    assert (∀ s, s = fromCodePoints (codePoints s) → Forall codePoint (codePoints s) →
      concat (utf8 <$> codePoints s) = bytes s) as Hs.
    { intros s Hs Hc. rewrite Hs at 2. unfold fromCodePoints. rewrite bytes_of_bytes; [done|].
      clear Hs. induction Hc; [constructor|]. cbn [fmap list_fmap concat].
      apply Forall_app; auto using utf8_bytes. }
    by rewrite !Hs. }
  split; [done|]. rewrite <- Z.compare_eq_iff, Hcmp, lex_Eq. split; [apply bytes_inj|by intros ->].
Qed.
Lemma byteOrder_utf8_witness :
  (byteOrder "task" "team" ?= 0) = lex (bytes "task") (bytes "team") ∧
  (byteOrder "task" "team" = 0 ↔ "task"%string = "team"%string).
Proof.
  apply byteOrder_utf8.
  - exists [116; 97; 115; 107]. split; [|vm_compute; reflexivity].
    unfold codePoint, MAX_CODE_POINT. repeat constructor; lia.
  - exists [116; 101; 97; 109]. split; [|vm_compute; reflexivity].
    unfold codePoint, MAX_CODE_POINT. repeat constructor; lia.
Defined.

(** * [lockStreams] *)
Lemma ascending_spec l : ascending l = true ↔ Sorted (λ a b, byteOrder a b < 0) l.
Proof.
  induction l as [|a l IH]; [by split|]. destruct l as [|b l]; [by split; repeat constructor|].
  cbn [ascending]. rewrite andb_true_iff, IH, Z.ltb_lt. split.
  - intros [? ?]. constructor; [done|]. by constructor.
  - intros Hs. inversion Hs as [|? ? ? Hd]; subst. inversion Hd; subst. done.
Qed.
Lemma ascending_NoDup l : ascending l = true → NoDup l.
Proof.
  rewrite ascending_spec. intros Hs. apply Sorted_StronglySorted in Hs.
  2:{ intros ? ? ?. apply byteOrder_trans. }
  induction Hs as [|a l Hs IH Ha]; constructor; [|done].
  intros Hin. rewrite Forall_forall in Ha. specialize (Ha _ Hin). rewrite byteOrder_irrefl in Ha. lia.
Qed.

#[local] Instance VStr_inj : Inj (=) (=) VStr.
Proof. by intros ? ? [=]. Qed.

(** A query function that only records what it is sent. *)
Definition recording (s : statement) : io (list statement) (list row) := λ log, (Ok [], log ++ [s]).
Lemma forEach_record (f : list string → statement) groups log :
  forEach (λ g, _ ← recording (f g); mret tt) groups log = (Ok tt, log ++ (f <$> groups)).
Proof.
  revert log. induction groups as [|g groups IH]; intros log; simpl.
  - by rewrite app_nil_r.
  - unfold mbind, io_bind, recording, mret, io_ret in *. rewrite IH. by rewrite <- app_assoc.
Qed.
Definition lockRequest (streams : list value) : value :=
  VObj [("op", VStr "lockStreams"); ("streams", VArr streams)].

Definition canonicalNames (names : list value) (l : list string) : Prop :=
  names = VStr <$> l ∧ l ≠ [] ∧ Forall (λ s, blank s = false) l ∧
  Sorted (λ a b, byteOrder a b < 0) l.

(** [lockStreams] accepts exactly the non-empty lists of names, none blank,
    in strictly ascending canonical order.  An accepted list is locked in that
    order, each Stream in one statement of at most [STREAM_BATCH]; a refused one
    sends nothing. *)
Theorem lockStreams_sends names :
  (∃ l groups, canonicalNames names l ∧
     lockStreams recording (lockRequest names) [] =
       (Ok VNull, (λ g, LOCK_STREAMS (VArr (VStr <$> g))) <$> groups) ∧
     concat groups = l ∧ Forall (λ g, (1 ≤ length g ≤ STREAM_BATCH)%nat) groups) ∨
  ((∃ e, lockStreams recording (lockRequest names) [] = (Throw e, [])) ∧
   ¬ ∃ l, canonicalNames names l).
Proof.
  unfold canonicalNames.
  unfold lockStreams. change (fieldsOf (lockRequest names) ["op"; "streams"] "lockStreams")
    with (Ok (lockRequest names)). rewrite check_bind.
  change (get (lockRequest names) "streams") with (VArr names). unfold strings.
  assert (∀ l, mapM isString (VStr <$> l) = Some l) as Hstr.
  { intros l. apply mapM_Some_2, Forall2_fmap_l, Forall_Forall2_diag, Forall_true. done. }
  destruct (mapM isString names) as [l|] eqn:Hn.
  2:{ right. split; [by eexists|]. intros (l & -> & _). by rewrite Hstr in Hn. }
  assert (names = VStr <$> l) as ->.
  { apply mapM_Some in Hn. induction Hn as [|v s vs l Hv _ IH]; [done|].
    cbn [fmap list_fmap]. rewrite IH. destruct v; simplify_eq/=; done. }
  destruct (length (uniq l) =? length l)%nat eqn:Hu.
  2:{ right. split; [by eexists|]. intros (l' & Heq & _ & _ & Hs). apply (inj (fmap VStr)) in Heq as <-.
      apply Nat.eqb_neq in Hu. destruct Hu. apply uniq_length_eq.
      by apply ascending_NoDup, ascending_spec. }
  rewrite check_bind. destruct (length l =? 0)%nat eqn:H0; cbn [negb].
  { right. split; [by eexists|]. intros (l' & Heq & Hne & _). apply (inj (fmap VStr)) in Heq as <-.
    by apply Nat.eqb_eq, length_zero_iff_nil in H0. }
  destruct (mapM (λ s, streamName (VStr s)) l) as [l2|e] eqn:Hb.
  2:{ right. split; [by eexists|]. intros (l' & Heq & _ & Hbl & _). apply (inj (fmap VStr)) in Heq as <-.
      assert (mapM (λ s, streamName (VStr s)) l = Ok l) as Hok; [|congruence].
      apply mapM_Ok, Forall_Forall2_diag. eapply Forall_impl; [done|]. simpl. by intros s ->. }
  rewrite check_bind. assert (Forall (λ s, blank s = false) l) as Hblank.
  { apply mapM_Ok in Hb. clear -Hb. induction Hb as [|s x l l2 Hs _ IH]; constructor; [|done].
    apply streamName_Ok in Hs as [[= <-] Hs]. exact Hs. }
  destruct (ascending l) eqn:Ha.
  2:{ right. split; [by eexists|]. intros (l' & Heq & _ & _ & Hs). apply (inj (fmap VStr)) in Heq as <-.
      apply ascending_spec in Hs. congruence. }
  left. exists l, (batches l). split.
  { split; [done|]. split; [intros ->; discriminate H0|]. split; [done|by apply ascending_spec]. }
  split_and!.
  - rewrite (io_bind_Ok _ _ _ _ _ (forEach_record _ _ _)). done.
  - apply batches_concat.
  - apply Forall_forall. intros g. apply batches_bounded.
Qed.

(** * [guardRecords] *)
Section guards.
Context `{Columns}.

(** A guard: its key, and whether it ensures ([true]) or only locks. *)
Definition modeText (ensure : bool) : string := if ensure then "ensure" else "lock".
Definition guardValue (g : key * bool) : value :=
  VObj [("model", VStr g.1.1); ("identityKey", VStr g.1.2); ("mode", VStr (modeText g.2))].
Definition guardRequest (gs : list (key * bool)) : value :=
  VObj [("op", VStr "guardRecords"); ("records", VArr (guardValue <$> gs))].
Definition guardFields (g : key * bool) : key_fields := KeyFields (guardValue g) g.1.1 g.1.2.
Definition named (g : key * bool) : Prop := g.1.1 ≠ EmptyString ∧ g.1.2 ≠ EmptyString.
Definition guardOrder (a b : key * bool) : Prop :=
  byteOrder a.1.1 b.1.1 < 0 ∨ a.1.1 = b.1.1 ∧ byteOrder a.1.2 b.1.2 < 0.

Lemma keyOf_guard g : named g → keyOf (guardValue g) ["mode"] = Ok (guardFields g).
Proof.
  destruct g as [[m i] e]. intros [Hm Hi]; simpl in Hm, Hi. unfold keyOf. simpl.
  destruct (String.eqb_spec m EmptyString); [done|]. simpl.
  by destruct (String.eqb_spec i EmptyString).
Qed.
(** [pairId] of a key without a Stream *)
Definition keyId (k : key) : string :=
  "[" +:+ String.concat "," ["null"; quote k.1; quote k.2] +:+ "]".
Lemma pairId_key k : pairId VUndef k.1 k.2 = Ok (keyId k).
Proof. done. Qed.
#[global] Instance keyId_inj : Inj (=) (=) keyId.
Proof.
  intros [m i] [m' i']. unfold keyId. simpl. rewrite !string_app_assoc, <- !quoteThen_app.
  intros [= E]. apply (f_equal (String QUOTE)) in E.
  apply (quoteThen_inj m m' ("," +:+ quoteThen i "]") ("," +:+ quoteThen i' "]")) in E as [<- E].
  injection E as E. apply (f_equal (String QUOTE)) in E.
  by apply (quoteThen_inj i i' "]" "]") in E as [<- _].
Qed.
Lemma pairIdOf_guard g : pairIdOf (guardFields g) = Ok (keyId g.1).
Proof. done. Qed.

Lemma checkGuards_ok prior gs :
  Sorted guardOrder gs → (∀ p g, prior = Some p → head gs = Some g → guardOrder p g) →
  checkGuards (guardFields <$> prior) (guardFields <$> gs) = Ok tt.
Proof.
  revert prior. induction gs as [|g gs IH]; intros prior Hs Hp; [done|].
  cbn [fmap list_fmap checkGuards].
  assert (guardMode (guardFields g) = true) as ->.
  { by destruct g as [[? ?] []]. }
  assert (from_option (λ p, negb (guard_before p (guardFields g))) false (guardFields <$> prior) = false) as ->.
  { destruct prior as [p|]; [|done]. simpl. unfold guard_before. simpl.
    rewrite negb_involutive. apply orb_false_iff.
    destruct (Hp p g eq_refl eq_refl) as [Hlt|[-> Hlt]].
    - rewrite (proj2 (Z.ltb_ge _ _)) by lia. split; [done|].
      destruct (String.eqb_spec p.1.1 g.1.1) as [Heq|]; [|done].
      rewrite Heq, byteOrder_irrefl in Hlt. lia.
    - rewrite byteOrder_irrefl, String.eqb_refl. split; [done|]. apply Z.leb_gt. lia. }
  cbn [negb]. apply (IH (Some g)); [by inversion Hs|].
  intros p g' [= <-] Hh. inversion Hs as [|? ? _ Hd]; subst.
  destruct gs; simplify_eq/=. by inversion Hd.
Qed.

Lemma sameMode_guards e n gs :
  ∃ group rest, sameMode (VStr (modeText e)) n (guardFields <$> gs) =
    (guardFields <$> group, guardFields <$> rest) ∧ gs = group ++ rest ∧
    Forall (λ g, g.2 = e) group.
Proof.
  revert gs. induction n as [|n IH]; intros gs; [by exists [], gs|].
  destruct gs as [|g gs]; [by exists [], []|]. cbn [fmap list_fmap sameMode].
  destruct (decide (g.2 = e)) as [He|He].
  - assert (strictEq (mode (guardFields g)) (VStr (modeText e)) = true) as ->
      by (destruct g as [[? ?] []], e; done).
    destruct (IH gs) as (group & rest & Hsm & -> & Hg).
    exists (g :: group), rest. rewrite Hsm. split_and!; [done|done|by constructor].
  - assert (strictEq (mode (guardFields g)) (VStr (modeText e)) = false) as ->
      by (destruct g as [[? ?] []], e; done).
    by exists [], (g :: gs).
Qed.

Definition represented (d : db) (g : key * bool) : bool :=
  g.2 || bool_decide (is_Some (records d !! g.1)).
Lemma ensure_all_ok seen gs d :
  NoDup gs.*1 → (∀ g, g ∈ gs → g.1 ∉ seen) →
  ∃ d', ensure_all seen (guardValue <$> gs) d =
          Ok ((λ g, [("model", VStr g.1.1); ("identity_key", VStr g.1.2)]) <$> gs, d') ∧
        ∀ k, is_Some (records d' !! k) ↔ is_Some (records d !! k) ∨ k ∈ gs.*1.
Proof.
  revert seen d. induction gs as [|g gs IH]; intros seen d Hnd Hseen.
  { exists d. split; [done|]. set_solver. }
  apply NoDup_cons in Hnd as [Hg Hnd]. cbn [fmap list_fmap ensure_all].
  assert (jsonKey (guardValue g) = Some g.1) as -> by (by destruct g as [[? ?] ?]).
  rewrite bool_decide_false by (apply Hseen; by left). fold (ensure_one g.1 d).
  destruct (IH (g.1 :: seen) (ensure_one g.1 d)) as (d' & -> & Hk); [done| |].
  { intros g' Hg'. rewrite not_elem_of_cons. split; [|apply Hseen; by right].
    intros Heq. destruct Hg. rewrite <- Heq. by apply list_elem_of_fmap_2. }
  exists d'. split; [done|]. intros k. rewrite Hk, elem_of_cons. unfold ensure_one.
  destruct (records d !! g.1) eqn:Hr; simpl.
  - unfold id. split; [intuition|]. intros [?|[->|?]]; [by left|left; by rewrite Hr|by right].
  - rewrite lookup_insert_is_Some'. intuition congruence.
Qed.
Lemma guardRun_ok group e d :
  Forall (λ g, g.2 = e) group → NoDup group.*1 →
  ∃ d', guardRun exec (guardFields <$> group) (VStr (modeText e)) d =
          (Ok (represented d <$> group), d') ∧
        ∀ k, is_Some (records d' !! k) ↔ is_Some (records d !! k) ∨ (k, true) ∈ group.
Proof.
  intros He Hnd. unfold guardRun.
  assert (own <$> (guardFields <$> group) = guardValue <$> group) as -> by (by rewrite <- list_fmap_compose).
  assert (∀ (d0 : db) ks, mapM (λ r : row, pairId VUndef (toText (column r "model")) (toText (column r "identity_key")))
     ((λ k : key, [("model", VStr k.1); ("identity_key", VStr k.2)]) <$> ks) = Ok (keyId <$> ks)) as Hrows.
  { intros _ ks. apply mapM_Ok, Forall2_fmap, Forall_Forall2_diag, Forall_true. done. }
  assert (mapM pairIdOf (guardFields <$> group) = Ok ((λ g, keyId g.1) <$> group)) as Hids.
  { apply mapM_Ok, Forall2_fmap, Forall_Forall2_diag, Forall_true. done. }
  assert (∀ (ks : list key) f, (∀ g, g ∈ group → (g.1 ∈ ks ↔ f g = true)) →
    (λ id, bool_decide (id ∈ keyId <$> ks)) <$> ((λ g : key * bool, keyId g.1) <$> group) = f <$> group) as Hfin.
  { intros ks f Hf. rewrite <- list_fmap_compose. apply list_fmap_ext. intros _ g Hg%list_elem_of_lookup_2.
    simpl. specialize (Hf g Hg). destruct (f g).
    - apply bool_decide_eq_true. rewrite (list_elem_of_fmap_inj keyId). by apply Hf.
    - apply bool_decide_eq_false. rewrite (list_elem_of_fmap_inj keyId). intros Hin. by apply Hf in Hin. }
  destruct e; cbn [modeText strictEq String.eqb Ascii.eqb Bool.eqb].
  - destruct (ensure_all_ok [] group d Hnd) as (d' & Hens & Hk); [set_solver|].
    exists d'. unfold mbind, io_bind. cbn [exec]. unfold Database.elements. rewrite with_param_Ok.
    unfold sql_ensure_identities. rewrite Hens. unfold check.
    pose proof (Hrows d group.*1) as Hr. rewrite <- list_fmap_compose in Hr. unfold compose in Hr.
    rewrite Hr, Hids. split.
    + unfold mret, io_ret. f_equal. f_equal. apply Hfin. intros g Hg. unfold represented.
      rewrite Forall_forall in He. rewrite (He g Hg). simpl. split; [done|]. intros _. by apply list_elem_of_fmap_2.
    + intros k. rewrite Hk. rewrite Forall_forall in He.
      enough (k ∈ group.*1 ↔ (k, true) ∈ group) by tauto. rewrite list_elem_of_fmap. split.
      * intros ([k' e] & -> & Hin). pose proof (He _ Hin) as Heq. simpl in Heq. by subst.
      * intros Hin. by exists (k, true).
  - exists d. unfold mbind, io_bind. cbn [exec]. unfold Database.elements. rewrite with_param_Ok.
    unfold sql_lock_identities, check.
    assert (omap jsonKey (guardValue <$> group) = group.*1) as ->.
    { clear. induction group as [|[[m i] e] l IH]; [done|]. cbn. f_equal. exact IH. }
    rewrite (Hrows d), Hids. split.
    + unfold mret, io_ret. f_equal. f_equal. apply Hfin. intros g Hg. unfold represented.
      rewrite Forall_forall in He. rewrite (He g Hg). simpl.
      rewrite elem_of_uniq, list_elem_of_filter, bool_decide_eq_true.
      split; [tauto|]. intros ?. split; [done|]. by apply list_elem_of_fmap_2.
    + intros k. rewrite Forall_forall in He. split; [by left|]. intros [?|Hin]; [done|].
      pose proof (He _ Hin). done.
Qed.
Lemma guardRuns_ok fuel gs d :
  (length gs ≤ fuel)%nat → NoDup gs.*1 →
  ∃ d', guardRuns exec fuel (guardFields <$> gs) d = (Ok (represented d <$> gs), d') ∧
        ∀ k, is_Some (records d' !! k) ↔ is_Some (records d !! k) ∨ (k, true) ∈ gs.
Proof.
  revert gs d. induction fuel as [|fuel IH]; intros gs d Hf Hnd.
  { destruct gs; [|simpl in Hf; lia]. exists d. split; [done|]. set_solver. }
  destruct gs as [|g gs]; [exists d; split; [done|set_solver]|].
  destruct (sameMode_guards g.2 (STREAM_BATCH - 1) gs) as (group & rest & Hsm & Hgs & Hg).
  change (guardRuns exec (Datatypes.S fuel) (guardFields <$> g :: gs) d) with
    ((let '(run0, rest0) := sameMode (VStr (modeText g.2)) (STREAM_BATCH - 1) (guardFields <$> gs) in
      here ← guardRun exec (guardFields g :: run0) (VStr (modeText g.2));
      more ← guardRuns exec fuel rest0;
      mret (here ++ more)) d).
  rewrite Hsm. subst gs. change (guardFields g :: (guardFields <$> group)) with (guardFields <$> (g :: group)).
  change (g :: group ++ rest) with ((g :: group) ++ rest) in Hnd.
  rewrite fmap_app in Hnd. apply NoDup_app in Hnd as (Hnd1 & Hdisj & Hnd2).
  destruct (guardRun_ok (g :: group) g.2 d) as (d1 & H1 & Hk1); [by constructor|done|].
  rewrite (io_bind_Ok _ _ _ _ _ H1).
  destruct (IH rest d1) as (d2 & H2 & Hk2); [simpl in Hf; rewrite length_app in Hf; lia|done|].
  rewrite (io_bind_Ok _ _ _ _ _ H2). exists d2. split.
  - unfold mret, io_ret. f_equal. f_equal.
    change (g :: group ++ rest) with ((g :: group) ++ rest). rewrite fmap_app. f_equal.
    apply list_fmap_ext. intros _ g' Hg'%list_elem_of_lookup_2. unfold represented. f_equal.
    apply bool_decide_ext. rewrite Hk1. split; [|by left]. intros [?|Hin]; [done|exfalso].
    apply (Hdisj g'.1); [by apply (list_elem_of_fmap_2 fst _ (g'.1, true))|by apply list_elem_of_fmap_2].
  - intros k. rewrite Hk2, Hk1. change (g :: group ++ rest) with ((g :: group) ++ rest).
    rewrite elem_of_app. tauto.
Qed.
End guards.

(** [guardRecords] answers, guard by guard, whether the record is
    represented: always after an [ensure], and after a [lock] exactly when its
    identity was already stored.  Afterwards precisely the ensured identities
    have been added, however the guards interleave and however they are grouped
    into statements. *)
Theorem guardRecords_answers `{Columns} gs d :
  Forall named gs → NoDup gs.*1 → Sorted guardOrder gs →
  ∃ d', guardRecords exec (guardRequest gs) d = (Ok (VArr (VBool <$> (represented d <$> gs))), d') ∧
        ∀ k, is_Some (records d' !! k) ↔ is_Some (records d !! k) ∨ (k, true) ∈ gs.
Proof.
  intros Hn Hnd Hs. unfold guardRecords. simpl get. unfold arrayOf. rewrite check_bind.
  assert (mapM (λ v, keyOf v ["mode"]) (guardValue <$> gs) = Ok (guardFields <$> gs)) as ->.
  { apply mapM_Ok, Forall2_fmap, Forall_Forall2_diag. eapply Forall_impl; [done|].
    apply keyOf_guard. }
  rewrite check_bind.
  assert (unique (guardFields <$> gs) "guards" = Ok tt) as ->.
  { unfold unique. assert (mapM pairIdOf (guardFields <$> gs) = Ok (keyId <$> gs.*1)) as ->.
    { apply mapM_Ok. rewrite <- (list_fmap_compose fst keyId).
      apply Forall2_fmap, Forall_Forall2_diag, Forall_true. done. }
    unfold mbind, result_bind. rewrite (proj2 (Nat.eqb_eq _ _)); [done|].
    apply uniq_length_eq, (NoDup_fmap_2 keyId), Hnd. }
  rewrite check_bind. 
  pose proof (checkGuards_ok None gs Hs ltac:(done)) as Hc. simpl in Hc. rewrite Hc, check_bind.
  rewrite length_fmap. destruct (guardRuns_ok (length gs) gs d) as (d' & Hr & Hk); [done..|].
  exists d'. by rewrite (io_bind_Ok _ _ _ _ _ Hr).
Qed.
Lemma guardRecords_answers_witness :
  let gs := [(("list", "1"), false); (("task", "1"), true); (("task", "2"), false)] in
  ∃ d', guardRecords (exec (H := numberColumns)) (guardRequest gs) empty_db
          = (Ok (VArr (VBool <$> (represented empty_db <$> gs))), d') ∧
        ∀ k, is_Some (records d' !! k) ↔ is_Some (records empty_db !! k) ∨ (k, true) ∈ gs.
Proof.
  apply guardRecords_answers.
  - repeat constructor; simpl; discriminate.
  - apply (bool_decide_unpack _). vm_compute. exact I.
  - constructor; [constructor; [constructor; constructor|constructor; right]|constructor; left].
    + split; [reflexivity|vm_compute; reflexivity].
    + vm_compute; reflexivity.
Defined.
