(* ===== verification/Controls.v ===== *)
(** The optimised persistence against its frozen controls.

    Three experiments kept the adapter they were measured against
    ([integration/performance/baselines/2026-10-28-*-sql/control/persistence.mts]):
    one without the single-statement publication, one without the single-key
    tracking reads, one without the single-key position read.  Each control is the
    switch of [answer05] over the operations it has of its own; the others are the
    present ones, text for text.  The theorem is what the experiments assume: the
    present adapter answers what each control answers and leaves the tables the
    same, and never sends more statements. *)
From S2P Require Import Prelude Text Json Database Wellformed Persistence PersistenceFacts Simulation Publication Guards.
Open Scope Z_scope.
Open Scope axton_scope.

(** * The controls *)
Section controls.
Context {S : Type} (q : statement → io S (list row)).
Notation "'let!' x ':=' r 'in' k" := (mbind (M := io S) (λ x, k) (check r))
  (at level 100, x pattern at level 99, r at level 99, k at level 200).

(** [readTracking] of the publication and tracking controls *)
Definition trackingOneQuery (r : value) : io S value :=
  rows ← q (READ_TRACKING (get r "records") (get r "pairs"));
  mret (VArr (trackingPair <$> rows)).
(** [targetPositions] and [readPositions] of all three *)
Definition positionBatch (required : bool) (stream : value) (group : list key_fields) : io S (list value) :=
  rows ← q (V05_POSITIONS_READ_BATCH stream (VArr (own <$> group)));
  guard! (length rows =? length group)%nat else throw (Error "position cardinality mismatch");
  check (mapM (λ e, positionOf required stream e.1 e.2) (zip group rows)).
Definition positionsBatched (required : bool) (r : value) : io S value :=
  let! raw := arrayOf (get r "records") "positions" in
  let! records := mapM (λ v, keyOf v []) raw in
  found ← mapM (positionBatch required (get r "stream")) (batches records);
  mret (VArr (concat found)).
(** [applyStreamMembers] of the publication control *)
Definition applyReserved (r : value) : io S value :=
  let! raw := arrayOf (get r "deltas") "deltas" in
  let! deltas := mapM (λ v, keyOf v ["identity"; "stream"; "publish"]) raw in
  applyDeltasGeneral q r deltas.

(** The switch of [answer05], over the operations that changed *)
Definition switch (tracking : value → io S value) (place : bool → value → io S value) (apply : value → io S value)
    (r : value) : io S value :=
  let op := opOf r in
  if String.eqb op "bootstrapState" then bootstrapState q r
  else if String.eqb op "finishBootstrap" then finishBootstrap q r
  else if String.eqb op "deliveryHead" then deliveryHead q r
  else if String.eqb op "deliveryNow" then deliveryNow q
  else if String.eqb op "deliveryCandidates" then deliveryCandidates q r
  else if String.eqb op "handleBootstrap05" then throw (Error "bootstrap belongs to application host")
  else if String.eqb op "inspectStore" then inspectStore q r
  else if String.eqb op "claimStore" then claimStore q r
  else if String.eqb op "beginBatch" then beginBatch q r
  else if String.eqb op "readResult" then readResult q r
  else if String.eqb op "readResults" then readResults q r
  else if String.eqb op "saveResult" then saveResult q r
  else if String.eqb op "saveResults" then saveResults q r
  else if String.eqb op "readTracking" then tracking r
  else if String.eqb op "guardRecords" then guardRecords q r
  else if String.eqb op "targetPositions" then place false r
  else if String.eqb op "readPositions" then place true r
  else if String.eqb op "applyStreamMembers" then apply r
  else throw (Error ("unsupported protocol05 persistence operation " +:+ toText (get r "op"))).
Definition publicationControl : value → io S value := switch trackingOneQuery positionsBatched applyReserved.
Definition trackingControl : value → io S value := switch trackingOneQuery positionsBatched (applyStreamMembers q).
Definition positionControl : value → io S value := switch (readTracking q) positionsBatched (applyStreamMembers q).

Inductive control := PublicationSql | TrackingSql | PositionSql.
Definition controlAnswer05 (c : control) : value → io S value :=
  match c with
  | PublicationSql => publicationControl
  | TrackingSql => trackingControl
  | PositionSql => positionControl
  end.
(** [answerInitialized], the same text in all three *)
Definition controlInitialized (c : control) (r : value) : io S value :=
  let op := opOf r in
  if String.eqb op "protocol05" then controlAnswer05 c (get r "request")
  else if String.eqb op "head" then deliveryHead q r
  else if String.eqb op "lockStreams" then lockStreams q r
  else if bool_decide (op ∈ ["readTracking"; "guardRecords"; "applyStreamMembers"]) then controlAnswer05 c r
  else if String.eqb op "savepoint" then savepointOp q SAVEPOINT r
  else if String.eqb op "rollback" then savepointOp q ROLLBACK_TO_SAVEPOINT r
  else if String.eqb op "release" then savepointOp q RELEASE_SAVEPOINT r
  else throw (Error ("Unsupported persistence operation " +:+ toText (get r "op"))).

Lemma switch_present r : switch (readTracking q) (positions q) (applyStreamMembers q) r = answer05 q r.
Proof. done. Qed.
End controls.

(** * Requests of the host contract
    A tracking request names records and pairs by well-formed keys; the single-key
    reads check them, the general statement does not. *)
Definition isOk {A} (r : result A) : bool := match r with Ok _ => true | Throw _ => false end.
Definition pairKey (v : value) : result string := k ← keyOf v ["stream"]; streamName (get (own k) "stream").
Definition trackable (r : value) : bool :=
  match get r "records", get r "pairs" with
  | VArr records, VArr pairs => forallb (λ v, isOk (keyOf v [])) records && forallb (λ v, isOk (pairKey v)) pairs
  | _, _ => false
  end.
Definition contractual (r : value) : Prop :=
  (opOf r = "readTracking"%string → trackable r = true) ∧
  (opOf r = "protocol05"%string → opOf (get r "request") = "readTracking"%string → trackable (get r "request") = true).

(** * Counting the statements of a call *)
Section agree.
Context `{Columns}.
Definition counted (s : statement) : io (nat * db) (list row) := λ w,
  let '(r, d) := exec s w.2 in (r, (Datatypes.S w.1, d)).

(** The second run answers what the first answers, and costs no less. *)
Definition improves (m m' : io (nat * db) value) : Prop :=
  ∀ n d, wf d → (m (n, d)).1 = (m' (n, d)).1 ∧ (m (n, d)).2.2 = (m' (n, d)).2.2 ∧
                ((m (n, d)).2.1 ≤ (m' (n, d)).2.1)%nat.
Lemma improves_refl m : improves m m.
Proof. done. Qed.
Lemma improves_if (b : bool) m m' k k' :
  (b = true → improves m m') → improves k k' → improves (if b then m else k) (if b then m' else k').
Proof. destruct b; auto. Qed.

(** ** Tracking *)
Lemma tracking_rows_ext (f g : string → key → bool) d :
  (∀ s k, f s k = g s k) → tracking_rows f d = tracking_rows g d.
Proof.
  intros Hf. unfold tracking_rows. apply list_bind_ext; [|done]. intros [k id].
  apply list_bind_ext; [|done]. intros [s h]. by rewrite Hf.
Qed.
Lemma tracking_rows_none d : tracking_rows (λ _ _, false) d = [].
Proof.
  unfold tracking_rows. generalize (map_to_list (streams d)). intros m.
  induction (map_to_list (records d)) as [|[k id] l IH]; [done|]. cbn. rewrite IH, app_nil_r. clear IH.
  induction m as [|[s h] m IHm]; [done|]. cbn. rewrite andb_false_r. exact IHm.
Qed.
Lemma fieldsOf_Ok v fields what w : fieldsOf v fields what = Ok w → w = v.
Proof. unfold fieldsOf. destruct v; try done; [congruence|]. by destruct (filter _ _); intros [= <-]. Qed.
Lemma nonEmpty_Ok v what s : nonEmpty v what = Ok s → v = VStr s.
Proof. unfold nonEmpty. destruct v; try done. by destruct (String.eqb _ _); intros [= <-]. Qed.
(** A checked key is the request's object, its two names checked. *)
Lemma keyOf_names v extra k : keyOf v extra = Ok k →
  get v "model" = VStr (model k) ∧ get v "identityKey" = VStr (identityKey k) ∧
  own k = VObj (setField "identityKey" (VStr (identityKey k)) (setField "model" (VStr (model k)) (spread v))).
Proof.
  unfold keyOf. intros (w & ->%fieldsOf_Ok & H1)%result_bind_inv.
  apply result_bind_inv in H1 as (m & Hm%nonEmpty_Ok & H1).
  by apply result_bind_inv in H1 as (i & Hi%nonEmpty_Ok & [= <-]).
Qed.
Lemma keyOf_wants v extra k : keyOf v extra = Ok k → jsonKey v = Some (model k, identityKey k).
Proof. intros (Hm & Hi & _)%keyOf_names. unfold jsonKey, jsonText. by rewrite Hm, Hi. Qed.
Lemma keyOf_own v extra k key : keyOf v extra = Ok k → key ≠ "model"%string → key ≠ "identityKey"%string →
  get (own k) key = get v key.
Proof.
  intros (Hm & _ & Ho)%keyOf_names Hne Hne'. rewrite Ho. destruct v; try done. unfold get. cbn.
  rewrite !fieldOf_setField.
  destruct (String.eqb_spec "identityKey" key); [congruence|]. by destruct (String.eqb_spec "model" key); [congruence|].
Qed.
Lemma wants_bool v k k' : jsonKey v = Some k' → wants v k = bool_decide (k = k').
Proof. intros Hv. unfold wants. rewrite Hv. apply bool_decide_ext. split; congruence. Qed.
Lemma trackingOneQuery_run r n d recs pairs :
  get r "records" = VArr recs → get r "pairs" = VArr pairs →
  trackingOneQuery counted r (n, d) =
  (Ok (VArr (trackingPair <$> tracking_rows (λ s k, existsb (λ v, wants v k) recs ||
     existsb (λ v, wants v k && bool_decide (jsonText v "stream" = Some s)) pairs) d)), (Datatypes.S n, d)).
Proof. intros Hr Hp. unfold trackingOneQuery. by rewrite Hr, Hp. Qed.
Lemma tracking_improves r : trackable r = true → improves (readTracking counted r) (trackingOneQuery counted r).
Proof.
  unfold trackable. destruct (get r "records") as [| | | | | | | |recs|] eqn:Hr; try done.
  destruct (get r "pairs") as [| | | | | | | |pairs|] eqn:Hp; try done.
  intros [Hrecs Hpairs]%andb_true_iff n d _. rewrite (trackingOneQuery_run r n d recs pairs Hr Hp).
  unfold readTracking. rewrite Hr, Hp. unfold mbind, io_bind, check, arrayOf.
  destruct recs as [|v [|v' recs]], pairs as [|p [|p' pairs]]; try done.
  - cbn. rewrite tracking_rows_none. cbn. split_and!; [done..|lia].
  - cbn in Hpairs. rewrite andb_true_r in Hpairs. unfold pairKey in Hpairs.
    destruct (keyOf p ["stream"]) as [k|] eqn:Hk; [|done]. cbn in Hpairs. unfold arrayOf, check.
    destruct (streamName (get (own k) "stream")) as [s|] eqn:Hs; [|done].
    unfold counted. cbn. rewrite !with_param_Ok. cbn. split_and!; [|done|lia].
    do 3 f_equal. apply tracking_rows_ext. intros s' k'. rewrite orb_false_r, (wants_bool _ _ _ (keyOf_wants _ _ _ Hk)).
    f_equal. apply streamName_Ok in Hs as [Hs _].
    rewrite (keyOf_own _ _ _ "stream" Hk) in Hs by done. unfold jsonText. rewrite Hs.
    apply bool_decide_ext. split; congruence.
  - cbn in Hrecs. rewrite andb_true_r in Hrecs. destruct (keyOf v []) as [k|] eqn:Hk; [|done].
    unfold counted. cbn. rewrite !with_param_Ok. cbn. split_and!; [|done|lia].
    do 3 f_equal. apply tracking_rows_ext. intros s' k'.
    by rewrite !orb_false_r, (wants_bool _ _ _ (keyOf_wants _ _ _ Hk)).
Qed.

(** ** Positions *)
Lemma mapM_io_ext {S A B} (f g : A → io S B) l s :
  (∀ a w, a ∈ l → f a w = g a w) → mapM f l s = mapM g l s.
Proof.
  revert s. induction l as [|a l IH]; intros s Hf; [done|]. cbn. unfold mbind, io_bind.
  rewrite Hf by (by left). destruct (g a s) as [[b|e] s']; [|done].
  rewrite IH; [done|]. intros. apply Hf. by right.
Qed.
Lemma positionGroup_batched required stream group w :
  (∀ k, k ∈ group → keyed k) →
  positionGroup counted required stream group w = positionBatch counted required stream group w.
Proof.
  intros Hk. destruct group as [|k [|k' group]]; [done| |done].
  assert (keyed k) as Hkk by (apply Hk; by left).
  assert (counted (V05_POSITION_READ stream (VStr (model k)) (VStr (identityKey k))) w
          = counted (V05_POSITIONS_READ_BATCH stream (VArr (own <$> [k]))) w) as Hq.
  { unfold counted, exec. cbn. destruct (text stream) as [s|]; [|done]. cbn.
    rewrite !with_param_Ok. unfold sql_position_read, sql_positions_read_batch. cbn [imap].
    unfold member_at, record_id. by rewrite (keyed_key _ Hkk). }
  unfold positionGroup, positionBatch, mbind, io_bind. by rewrite Hq.
Qed.
Lemma positions_batched required r w :
  positions counted required r w = positionsBatched counted required r w.
Proof.
  unfold positions, positionsBatched, mbind, io_bind, check.
  destruct (arrayOf _ _) as [raw|]; [|done]. destruct (mapM _ raw) as [l|] eqn:Hl; [|done].
  rewrite (mapM_io_ext _ (positionBatch counted required (get r "stream"))); [done|].
  intros group w' Hg. apply positionGroup_batched. intros k Hk.
  assert (k ∈ l) as Hin.
  { rewrite <- (batches_concat l). apply list_elem_of_In, in_concat. exists group. by rewrite <- !list_elem_of_In. }
  apply mapM_Ok in Hl. apply list_elem_of_lookup in Hin as [i Hi].
  destruct (Forall2_lookup_r _ _ _ _ _ Hl Hi) as (v & _ & Hv). by apply keyOf_Ok in Hv as (? & ? & _).
Qed.

(** ** Publication *)
Lemma counted_sim s : simulates (λ w d, w.2 = d) (counted s) (exec s).
Proof. intros [n d] d' [=->]. unfold counted. cbn. by destruct (exec s d') as [r e]. Qed.
Lemma counted_answers {A} (m : io (nat * db) A) m' n d :
  simulates (λ w d, w.2 = d) m m' → (m (n, d)).1 = (m' d).1 ∧ (m (n, d)).2.2 = (m' d).2.
Proof. intros Hs. by apply Hs. Qed.
Lemma applyGeneral_sim streams scope deltas :
  simulates (λ w d, w.2 = d) (applyGeneral counted streams scope deltas) (applyGeneral exec streams scope deltas).
Proof. unfold applyGeneral, reserveCursors, applyGroup, first. sim_with counted_sim. Qed.
Lemma applyReserved_sim r : simulates (λ w d, w.2 = d) (applyReserved counted r) (applyReserved exec r).
Proof.
  unfold applyReserved, applyDeltasGeneral, applyGeneral, reserveCursors, applyGroup, first. sim_with counted_sim.
Qed.
(** A run never gives statements back. *)
Definition spent (n : nat) (w : nat * db) : Prop := (n ≤ w.1)%nat.
Lemma counted_spends n s : preserves (spent n) (counted s).
Proof. intros [k d] Hk. unfold counted. cbn. destruct (exec s d). unfold spent in *. cbn in *. lia. Qed.
Lemma applyGroup_spends n cursors group : preserves (spent n) (applyGroup counted cursors group).
Proof.
  unfold applyGroup. apply preserves_bind; [apply preserves_check|intros].
  apply preserves_bind; [apply counted_spends|intros]. apply preserves_if; [apply preserves_check|apply preserves_throw].
Qed.
Lemma applyGeneral_spends stream scope deltas n d :
  (Datatypes.S n ≤ (applyGeneral counted [stream] scope deltas (n, d)).2.1)%nat.
Proof.
  unfold applyGeneral, reserveCursors, first. cbn [mapM]. unfold mbind, io_bind, counted at 1. cbn [fst snd].
  destruct (exec (V05_RESERVE_CURSOR (VStr stream) scope) d) as [[rows|e] d1]; [|cbn; lia].
  unfold mret, io_ret. cbn. destruct (head rows) as [row|]; [|cbn; lia].
  unfold check. destruct (positiveCounter (column row "cursor")) as [c|e]; [|cbn; lia].
  assert (spent (Datatypes.S n) (mapM (applyGroup counted [(stream, c)]) (batches deltas) (Datatypes.S n, d1)).2) as Hs.
  { apply (preserves_mapM (spent (Datatypes.S n))); [intros; apply applyGroup_spends|]. unfold spent. cbn. lia. }
  by destruct (mapM (applyGroup counted [(stream, c)]) (batches deltas) (Datatypes.S n, d1)) as [[found|e] w].
Qed.
Lemma applyReserving_spends stream scope deltas n d :
  (applyReserving counted stream scope deltas (n, d)).2.1 = Datatypes.S n.
Proof.
  unfold applyReserving, mbind, io_bind, counted. cbn [fst snd].
  destruct (exec _ d) as [[rows|e] d1]; [|done]. destruct (_ =? _)%nat; [|done].
  unfold check. by destruct (mapM _ _).
Qed.
Lemma applyDeltas_cost r deltas n d :
  ((applyDeltas counted r deltas (n, d)).2.1 ≤ (applyDeltasGeneral counted r deltas (n, d)).2.1)%nat.
Proof.
  unfold applyDeltas, applyDeltasGeneral. unfold mbind, io_bind, check.
  destruct (unique deltas "deltas"); [|done]. destruct (publishedStreams deltas) as [streams|]; [|done].
  destruct streams as [|stream [|? ?]]; [done| |done]. cbn [length Nat.eqb]. cbv zeta.
  destruct (counted V05_PUBLICATION_CURSORS (n, d)) as [[rows|e] [k d1]]; [|done].
  destruct ((length deltas <=? STREAM_BATCH)%nat && _); [|done].
  rewrite applyReserving_spends. apply applyGeneral_spends.
Qed.
Lemma apply_improves r : improves (applyStreamMembers counted r) (applyReserved counted r).
Proof.
  intros n d W. destruct (counted_answers _ _ n d (applyStreamMembers_sim _ _ _ counted_sim r)) as [-> ->].
  destruct (counted_answers _ _ n d (applyReserved_sim r)) as [-> ->].
  rewrite (applyStreamMembers_general r d W). split_and!; [done..|].
  unfold applyStreamMembers, applyReserved. unfold mbind, io_bind, check.
  destruct (arrayOf _ _); [|done]. destruct (mapM _ _); [|done]. apply applyDeltas_cost.
Qed.

(** ** The present adapter *)
Lemma answer05_improves c r :
  (opOf r = "readTracking"%string → trackable r = true) →
  improves (answer05 counted r) (controlAnswer05 counted c r).
Proof.
  intros Hr. rewrite <- switch_present.
  assert (∀ b, improves (positions counted b r) (positionsBatched counted b r)) as Hpos.
  { intros b n d _. by rewrite positions_batched. }
  assert (∀ t t' p p' a a',
    (opOf r = "readTracking"%string → improves (t r) (t' r)) → (∀ b, improves (p b r) (p' b r)) →
    improves (a r) (a' r) → improves (switch counted t p a r) (switch counted t' p' a' r)) as Hsw.
  { intros t t' p p' a a' Ht Hp Ha. unfold switch.
    repeat (apply improves_if; [try (intros _; apply improves_refl)|]).
    all: auto using improves_refl. by intros ?%String.eqb_eq; apply Ht. }
  destruct c; cbn; unfold publicationControl, trackingControl, positionControl; apply Hsw; auto using improves_refl,
    tracking_improves, apply_improves.
Qed.
End agree.

(** C6: the optimised persistence refines its frozen controls.  On a well-formed
    namespace, every request of the host contract gets from the present adapter the
    answer -- or the error -- that each of the three controls gives, leaves the
    tables as the control leaves them, and costs at most as many statements.  So a
    single-statement publication reserves, writes and reports exactly what a
    reservation followed by grouped writes does, and the single-key reads of
    tracking and positions answer what the batch statements answer. *)
Theorem controls_agree `{Columns} c r n d :
  wf d → contractual r →
  let present := answerInitialized counted r (n, d) in
  let frozen := controlInitialized counted c r (n, d) in
  present.1 = frozen.1 ∧ present.2.2 = frozen.2.2 ∧ (present.2.1 ≤ frozen.2.1)%nat.
Proof.
  intros W [Hr Hp]. revert n d W. change (improves (answerInitialized counted r) (controlInitialized counted c r)).
  unfold answerInitialized, controlInitialized.
  repeat (apply improves_if; [try (intros _; apply improves_refl)|]); try apply improves_refl.
  - intros Hop%String.eqb_eq. apply answer05_improves. auto.
  - intros _. apply answer05_improves. auto.
Qed.
Lemma controls_agree_witness :
  let present := answerInitialized (counted (H := numberColumns)) demo_publish (0%nat, demo_identities) in
  let frozen := controlInitialized (counted (H := numberColumns)) PublicationSql demo_publish (0%nat, demo_identities) in
  (present.2.1, frozen.2.1) = (2%nat, 3%nat) ∧
  present.1 = frozen.1 ∧ present.2.2 = frozen.2.2 ∧ (present.2.1 ≤ frozen.2.1)%nat.
Proof.
  split; [vm_compute; reflexivity|].
  apply (controls_agree (H := numberColumns) PublicationSql demo_publish 0).
  - apply exec_wf; [exact I|apply wf_empty].
  - split; [by intros [=]|by intros [=]].
Defined.
