(* ===== verification/Delivery.v ===== *)
(** Reading a Stream: positions of records, and the pages of delivery
    candidates. *)
From S2P Require Import Prelude Text Json Database Wellformed Persistence PersistenceFacts Guards.
From stdpp Require Import sorting.
Open Scope Z_scope.
Open Scope axton_scope.

Section delivery.
Context `{Columns}.

(** ** Ordered pages *)
Lemma cand_compare_antisym a b : cand_compare b a = CompOpp (cand_compare a b).
Proof.
  unfold cand_compare. rewrite (Z.compare_antisym (cursor (cand_position a))).
  destruct (cursor (cand_position a) ?= _); simpl; try done.
  rewrite (lex_antisym (bytes (cand_key a).1)).
  destruct (lex (bytes (cand_key a).1) _); simpl; try done. apply lex_antisym.
Qed.
#[global] Instance cand_le_total : Total cand_le.
Proof.
  intros a b. unfold cand_le. rewrite (cand_compare_antisym a b).
  destruct (cand_compare a b); simpl; [by left|by left|by right].
Qed.
Lemma cand_le_cursor a b : cand_le a b → cursor (cand_position a) ≤ cursor (cand_position b).
Proof.
  unfold cand_le, cand_compare.
  destruct (Z.compare_spec (cursor (cand_position a)) (cursor (cand_position b))); try lia. done.
Qed.
Definition cursor_sorted (l : list candidate) : Prop :=
  StronglySorted (λ a b, cursor (cand_position a) ≤ cursor (cand_position b)) l.
Lemma matched_sorted l : cursor_sorted (merge_sort cand_le l).
Proof.
  apply Sorted_StronglySorted; [intros ? ? ?; lia|].
  pose proof (Sorted_merge_sort cand_le l) as Hs. induction Hs as [|a m Hs IH Hd]; constructor; [done|].
  destruct Hd; constructor. by apply cand_le_cursor.
Qed.
Lemma take_while_cursor_prefix c l : take_while_cursor c l `prefix_of` l.
Proof.
  induction l as [|x l IH]; simpl; [done|]. case_if; [by apply prefix_cons|apply prefix_nil].
Qed.
Lemma take_while_cursor_rest c l rest : cursor_sorted l →
  (∀ x, x ∈ l → c ≤ cursor (cand_position x)) → l = take_while_cursor c l ++ rest →
  ∀ y, y ∈ rest → c < cursor (cand_position y).
Proof.
  induction l as [|x l IH]; intros Hs Hc; simpl.
  { intros <-. set_solver. }
  inversion Hs as [|? ? Hs' Hall]; subst.
  destruct (Z.eqb_spec (cursor (cand_position x)) c) as [Hx|Hx].
  - intros [= Heq]. apply IH; [done|intros; apply Hc; by right|done].
  - simpl. intros <- y Hy. pose proof (Hc x ltac:(by left)).
    apply elem_of_cons in Hy as [->|Hy]; [lia|].
    rewrite Forall_forall in Hall. specialize (Hall _ Hy). lia.
Qed.
Lemma with_ties_prefix n l : with_ties n l `prefix_of` l.
Proof.
  unfold with_ties. destruct (last (take n l)); [|apply prefix_nil].
  rewrite <- (take_drop n l) at 3. apply prefix_app, take_while_cursor_prefix.
Qed.
Lemma sorted_last l x y : cursor_sorted l → last l = Some x → y ∈ l →
  cursor (cand_position y) ≤ cursor (cand_position x).
Proof.
  intros Hs Hl Hy. apply last_Some in Hl as [l' ->].
  apply elem_of_app in Hy as [Hy|Hy%list_elem_of_singleton]; [|by subst].
  unfold cursor_sorted in Hs. apply StronglySorted_app in Hs as [Hall _].
  apply Hall; [done|by left].
Qed.
(** A page never leaves a row behind that ties with one of its rows. *)
Lemma with_ties_closed n l x y : cursor_sorted l →
  x ∈ with_ties n l → y ∈ l → cursor (cand_position y) ≤ cursor (cand_position x) → y ∈ with_ties n l.
Proof.
  intros Hs Hx Hy Hle. unfold with_ties in *.
  destruct (last (take n l)) as [z|] eqn:Hl; [|set_solver].
  pose proof Hs as Hs'. unfold cursor_sorted in Hs'.
  rewrite <- (take_drop n l) in Hs'. apply StronglySorted_app in Hs' as (Hall & Ht & Hd).
  pose proof (take_while_cursor_prefix (cursor (cand_position z)) (drop n l)) as [rest Hrest].
  assert (z ∈ take n l) as Hz by (apply last_Some in Hl as [? ->]; apply elem_of_app; right; by left).
  assert (∀ w, w ∈ rest → cursor (cand_position z) < cursor (cand_position w)) as Hlt.
  { apply (take_while_cursor_rest _ (drop n l)); [done| |done]. intros w Hw. by apply Hall. }
  rewrite <- (take_drop n l), Hrest in Hy. rewrite !elem_of_app in Hy. rewrite elem_of_app.
  destruct Hy as [Hy|[Hy|Hy]]; [by left|by right|exfalso].
  specialize (Hlt _ Hy).
  assert (cursor (cand_position x) ≤ cursor (cand_position z)); [|lia].
  apply elem_of_app in Hx as [Hx|Hx].
  - exact (sorted_last _ _ _ Ht Hl Hx).
  - clear -Hx. induction (drop n l) as [|w m IH]; simpl in Hx; [set_solver|].
    destruct (Z.eqb_spec (cursor (cand_position w)) (cursor (cand_position z))); [|set_solver].
    apply elem_of_cons in Hx as [->|Hx]; [lia|auto].
Qed.
Lemma with_ties_length n l : (0 < n)%nat → with_ties n l = l ∨ (n ≤ length (with_ties n l))%nat.
Proof.
  intros Hn. unfold with_ties. destruct (decide (length l ≤ n)%nat) as [Hl|Hl].
  - left. rewrite take_ge, drop_ge by done. destruct (last l) eqn:Hlast.
    + by rewrite app_nil_r.
    + by apply last_None in Hlast.
  - right. destruct (last (take n l)) eqn:Hlast.
    + rewrite length_app, length_take. lia.
    + apply last_None in Hlast. apply (f_equal length) in Hlast. rewrite length_take in Hlast. simpl in Hlast. lia.
Qed.

(** ** The operation *)
Definition candidateRequest (stream : string) (after capacity : Z) (models : option (list string))
    (keys : list value) (pageSize : option Z) : value :=
  VObj [("op", VStr "deliveryCandidates"); ("stream", VStr stream); ("after", num after);
        ("capacity", num capacity);
        ("models", match models with Some l => VArr (VStr <$> l) | None => VNull end);
        ("keys", VArr keys);
        ("pageSize", match pageSize with Some n => num n | None => VNull end)].
Definition candidateValue (c : candidate) : value :=
  VObj [("model", VStr (cand_key c).1); ("identityKey", VStr (cand_key c).2);
        ("cursor", num (cursor (cand_position c))); ("kind", VStr (kindText (position_kind (cand_position c))))].
Definition matched (stream : string) (after : Z) (models : option (list string)) (keys : list value)
    (d : db) : list candidate :=
  merge_sort cand_le (stream_members stream (delivery_want after models keys) d).
(** The rows of the statement, before its LIMIT. *)
Definition page (n : option Z) (l : list candidate) : list candidate :=
  match n with None => l | Some n => with_ties (Z.to_nat (n + 1)) l end.

Lemma checkTracked_ok stream group d :
  Forall (λ v, is_Some (member_at d stream v)) group → Z.of_nat (length group) ≤ MAX_SAFE →
  checkTracked exec (VStr stream) group d = (Ok tt, d).
Proof.
  intros Hall Hm. unfold checkTracked, mbind, io_bind. cbn [exec]. unfold text, Database.elements.
  rewrite !with_param_Ok. unfold sql_tracked_count. cbn [head from_option]. unfold check.
  assert (filter (λ v, is_Some (member_at d stream v)) group = group) as ->.
  { induction Hall as [|v l Hv _ IH]; [done|]. rewrite filter_cons_True by done.
    f_equal. apply IH. simpl in Hm. lia. }
  unfold column; simpl. unfold safe. rewrite bigint_toNumber.
  rewrite !(proj2 (Z.leb_le _ _)) by lia. simpl. by rewrite Z.eqb_refl.
Qed.
Lemma candidateOf_columns c : 1 ≤ cursor (cand_position c) ≤ MAX_SAFE →
  candidateOf (candidate_columns c) = Ok (candidateValue c).
Proof.
  intros Hc. unfold candidateOf, column, positiveCounter. simpl. rewrite bigint_toNumber.
  by rewrite !(proj2 (Z.leb_le _ _)) by lia.
Qed.
Lemma stream_members_bounds stream want d c : wf d → c ∈ stream_members stream want d →
  1 ≤ cursor (cand_position c) ≤ MAX_SAFE.
Proof.
  intros W Hc. unfold stream_members in Hc. apply list_elem_of_bind in Hc as ([k id] & Hc & _).
  destruct (members d !! (stream, id)) as [p|] eqn:Hp; [|set_solver].
  case_if; [|set_solver]. apply list_elem_of_singleton in Hc as ->. simpl.
  apply (wf_members d W) in Hp as [(h & Hh & ?) _]. pose proof (wf_heads d W _ _ Hh). lia.
Qed.
Lemma keys_tracked stream keys d :
  Forall (λ v, is_Some (member_at d stream v)) keys →
  forEach (checkTracked exec (VStr stream)) (batches keys) d = (Ok tt, d).
Proof.
  intros Hk. assert (Forall (λ g, Forall (λ v, is_Some (member_at d stream v)) g ∧
    (length g ≤ STREAM_BATCH)%nat) (batches keys)) as Hg.
  { apply Forall_forall. intros g Hg. pose proof (batches_bounded _ _ Hg). split; [|lia].
    apply Forall_forall. intros v Hv. rewrite Forall_forall in Hk. apply Hk.
    rewrite <- (batches_concat keys). apply list_elem_of_In, in_concat.
    exists g. by rewrite <- !list_elem_of_In. }
  induction Hg as [|g l [Hg Hl] _ IH]; [done|]. cbn [forEach].
  rewrite (io_bind_Ok _ _ _ _ _ (checkTracked_ok stream g d Hg ltac:(unfold STREAM_BATCH, MAX_SAFE in *; lia))).
  apply IH.
Qed.
Lemma textArray_models models :
  textArray (match models with Some l => VArr (VStr <$> l) | None => VNull end) = Ok models.
Proof.
  destruct models as [l|]; [|done]. simpl.
  assert (mapM text (VStr <$> l) = Ok l) as ->; [|done].
  apply mapM_Ok, Forall2_fmap_l, Forall_Forall2_diag, Forall_true. done.
Qed.
Lemma deliveryCandidates_rows stream after capacity models keys pageSize d :
  wf d → Forall (λ v, is_Some (member_at d stream v)) keys →
  0 ≤ after ≤ MAX_SAFE → 0 ≤ capacity ≤ MAX_SAFE → (∀ n, pageSize = Some n → 1 ≤ n ≤ MAX_SAFE) →
  let cap := capacity `min` 100000 in
  let rows := page ((λ n, n `min` cap) <$> pageSize) (matched stream after models keys d) in
  deliveryCandidates exec (candidateRequest stream after capacity models keys pageSize) d =
  (Ok (if cap <? Z.of_nat (length rows) then VNull else VArr (candidateValue <$> rows)), d).
Proof.
  intros W Hk Ha Hc Hp cap rows. unfold deliveryCandidates. cbv zeta.
  set (req := candidateRequest _ _ _ _ _ _).
  change (get req "keys") with (VArr keys). change (get req "capacity") with (num capacity).
  change (get req "stream") with (VStr stream). change (get req "after") with (num after).
  change (get req "models") with (match models with Some l => VArr (VStr <$> l) | None => VNull end).
  change (get req "pageSize") with (match pageSize with Some n => num n | None => VNull end).
  rewrite (safe_num capacity) by done. rewrite check_bind. fold cap. unfold items.
  rewrite (io_bind_Ok _ _ _ _ _ (keys_tracked stream keys d Hk)).
  assert ((if nullish (match pageSize with Some n => num n | None => VNull end) then Ok None
    else n ← positiveCounter (match pageSize with Some n => num n | None => VNull end);
         Ok (Some (n `min` cap))) = Ok ((λ n, n `min` cap) <$> pageSize)) as ->.
  { destruct pageSize as [n|]; [|done]. simpl nullish.
    by rewrite positiveCounter_num by auto. }
  rewrite check_bind, (safe_num after), check_bind by done. unfold coalesce. simpl nullish.
  unfold mbind, io_bind at 1. cbn [exec]. unfold text, Database.elements. unfold num, int8.
  rewrite !with_param_Ok, textArray_models, !with_param_Ok.
  assert (∀ o : option Z, (match (λ n, VNum (NInt (n + 1))) <$> o with
      | None => sql_delivery_candidates stream after models keys (cap + 1) None
      | Some p => with_param (match p with VNum (NInt z) => Ok z | _ => Throw INVALID_PARAMETER end)
          (λ p, sql_delivery_candidates stream after models keys (cap + 1) (Some p)) end) d =
    (Ok (candidate_columns <$> take (Z.to_nat (cap + 1)) (page o (matched stream after models keys d))), d)) as Hq.
  { by intros [n|]. }
  rewrite Hq. fold rows. unfold io_bind. clear Hq.
  assert (0 ≤ cap) by lia.
  rewrite length_fmap, length_take.
  destruct (Z.ltb_spec cap (Z.of_nat (length rows))).
  - rewrite (proj2 (Z.ltb_lt _ _)) by lia. done.
  - rewrite (proj2 (Z.ltb_ge _ _)) by lia. cbn [negb]. rewrite take_ge by lia.
    assert (mapM candidateOf (candidate_columns <$> rows) = Ok (candidateValue <$> rows)) as ->; [|done].
    apply mapM_Ok, Forall2_fmap, Forall_Forall2_diag, Forall_forall. intros c Hin.
    apply candidateOf_columns. eapply (stream_members_bounds stream _ d); [done|].
    rewrite <- (merge_sort_Permutation cand_le). fold (matched stream after models keys d).
    unfold rows, page in Hin. destruct pageSize as [n|]; simpl in Hin; [|done].
    by eapply elem_of_prefix, with_ties_prefix.
Qed.
End delivery.

(** C33: a page of delivery candidates.  Over the rows of the Stream after the
    bound that the models and keys select, in cursor order, [deliveryCandidates]
    answers a prefix that never separates rows of one cursor and is longer than
    the page size unless it is everything -- or null, exactly when that prefix
    exceeds the capacity, which is at most 100000.  Without a page size the
    prefix is the whole selection. *)
Theorem deliveryCandidates_page `{Columns} stream after capacity models keys pageSize d :
  wf d → Forall (λ v, is_Some (member_at d stream v)) keys →
  0 ≤ after ≤ MAX_SAFE → 0 ≤ capacity ≤ MAX_SAFE → (∀ n, pageSize = Some n → 1 ≤ n ≤ MAX_SAFE) →
  let all := matched stream after models keys d in
  let cap := capacity `min` 100000 in
  ∃ rows, rows `prefix_of` all ∧
    (∀ x y, x ∈ rows → y ∈ all → cursor (cand_position y) ≤ cursor (cand_position x) → y ∈ rows) ∧
    (rows = all ∨ ∃ n, pageSize = Some n ∧ n `min` cap < Z.of_nat (length rows)) ∧
    deliveryCandidates exec (candidateRequest stream after capacity models keys pageSize) d =
      (Ok (if cap <? Z.of_nat (length rows) then VNull else VArr (candidateValue <$> rows)), d).
Proof.
  intros W Hk Ha Hc Hp all cap. eexists. split; [|split; [|split]]; cycle 3.
  - by apply deliveryCandidates_rows.
  - destruct pageSize; [apply with_ties_prefix|done].
  - intros x y. destruct pageSize; [|done]. apply with_ties_closed, matched_sorted.
  - destruct pageSize as [n|]; [|by left]. simpl. specialize (Hp n eq_refl).
    destruct (with_ties_length (Z.to_nat (n `min` cap + 1)) all) as [Hall|Hlen]; [lia|by left|].
    right. exists n. split; [done|]. fold cap. fold all. lia.
Qed.
Definition demo_published : db :=
  (exec (H := numberColumns) (V05_RESERVE_APPLY_MEMBERS (VStr "s") (VStr "")
     (VArr [VObj [("model", VStr "task"); ("identityKey", VStr "1")];
            VObj [("model", VStr "task"); ("identityKey", VStr "2")]]))
   (exec (H := numberColumns) V05_PUBLICATION_CURSORS
     (exec (H := numberColumns) (ENSURE_IDENTITIES (VArr
       [VObj [("model", VStr "task"); ("identityKey", VStr "1")];
        VObj [("model", VStr "task"); ("identityKey", VStr "2")]])) empty_db).2).2).2.
Lemma demo_published_wf : wf demo_published.
Proof. do 3 (apply exec_wf; [exact I|]). apply wf_empty. Defined.
(** A page of one keeps the two rows that share its cursor. *)
Lemma deliveryCandidates_page_witness :
  length (matched "s" 0 None [] demo_published) = 2%nat ∧
  ∃ rows, rows `prefix_of` matched "s" 0 None [] demo_published ∧
    (∀ x y, x ∈ rows → y ∈ matched "s" 0 None [] demo_published →
       cursor (cand_position y) ≤ cursor (cand_position x) → y ∈ rows) ∧
    (rows = matched "s" 0 None [] demo_published ∨
      ∃ n, Some 1 = Some n ∧ n `min` (10 `min` 100000) < Z.of_nat (length rows)) ∧
    deliveryCandidates (exec (H := numberColumns)) (candidateRequest "s" 0 10 None [] (Some 1)) demo_published =
      (Ok (if 10 `min` 100000 <? Z.of_nat (length rows) then VNull else VArr (candidateValue <$> rows)),
       demo_published).
Proof.
  split; [vm_compute; reflexivity|].
  apply deliveryCandidates_page; [apply demo_published_wf|constructor|unfold MAX_SAFE; lia..|].
  intros n [= <-]. unfold MAX_SAFE. lia.
Defined.

(** * Positions *)
Lemma mapM_concat {A B} (f : A → result B) ls :
  mapM f (concat ls) = concat (A := B) <$> mapM (mapM f) ls.
Proof.
  assert (∀ l k, mapM f (l ++ k) = (x ← mapM f l; y ← mapM f k; Ok (x ++ y))) as Happ.
  { induction l as [|a l IH]; intros k; simpl; [by destruct (mapM f k)|].
    destruct (f a); simpl; [|done]. rewrite IH. destruct (mapM f l); simpl; [|done].
    by destruct (mapM f k). }
  induction ls as [|l ls IH]; [done|]. cbn [concat]. rewrite Happ, IH. cbn [mapM].
  destruct (mapM f l); simpl; [|done]. by destruct (mapM (mapM f) ls).
Qed.
Lemma mapM_reader {S A B} (f : A → result B) (m : A → io S B) (s : S) l :
  (∀ a, a ∈ l → m a s = (f a, s)) → mapM m l s = (mapM f l, s).
Proof.
  induction l as [|a l IH]; intros Hm; [done|]. cbn [mapM].
  unfold mbind, io_bind. rewrite (Hm a) by (by left).
  unfold mbind, io_bind in IH. unfold mret, io_ret, result_bind in *.
  destruct (f a); [|done]. rewrite IH by (intros; apply Hm; by right).
  by destruct (mapM f l).
Qed.

Section positions.
Context `{Columns}.

#[local] Arguments positiveCounter : simpl never.
Definition recordValue (k : key) : value := VObj [("model", VStr k.1); ("identityKey", VStr k.2)].
Definition recordFields (k : key) : key_fields := KeyFields (recordValue k) k.1 k.2.
Definition positionRequest (op stream : string) (keys : list key) : value :=
  VObj [("op", VStr op); ("stream", VStr stream); ("records", VArr (recordValue <$> keys))].
(** A record's position, or null; a required one must exist. *)
Definition positionAt (required : bool) (stream : string) (d : db) (k : key) : result value :=
  match id ← records d !! k; members d !! (stream, id) with
  | Some p => Ok (VObj [("stream", VStr stream); ("model", VStr k.1); ("identityKey", VStr k.2);
                        ("cursor", num (cursor p)); ("kind", VStr (kindText (position_kind p)))])
  | None => if required then raise "missing Stream position" else Ok VNull
  end.
Lemma keyOf_record k : k.1 ≠ EmptyString → k.2 ≠ EmptyString →
  keyOf (recordValue k) [] = Ok (recordFields k).
Proof.
  destruct k as [m i]; simpl. intros Hm Hi. unfold keyOf. simpl.
  destruct (String.eqb_spec m EmptyString); [done|]. simpl.
  by destruct (String.eqb_spec i EmptyString).
Qed.
Lemma positionOf_columns required stream d k ord : wf d →
  positionOf required (VStr stream) (recordFields k)
    (position_columns ord (id ← records d !! k; members d !! (stream, id))) = positionAt required stream d k.
Proof.
  intros W. unfold positionOf, positionAt.
  destruct (id ← records d !! k; members d !! (stream, id)) as [p|] eqn:Hp; [|done].
  apply bind_Some in Hp as (id & _ & Hp). apply (wf_members d W) in Hp as [(h & Hh & ?) _].
  pose proof (wf_heads d W _ _ Hh). unfold column. simpl.
  pose proof (bigint_some (cursor p)) as Hn. assert (positiveCounter (bigint (cursor p)) = Ok (cursor p)) as Hc.
  { unfold positiveCounter. rewrite bigint_toNumber. by rewrite !(proj2 (Z.leb_le _ _)) by lia. }
  destruct (bigint (cursor p)); try discriminate Hn. all: first [by rewrite Hc|discriminate Hc].
Qed.
Lemma positionGroup_ok required stream group d : wf d →
  positionGroup exec required (VStr stream) (recordFields <$> group) d =
  (mapM (positionAt required stream d) group, d).
Proof.
  intros W. unfold positionGroup, mbind, io_bind.
  assert (∀ rows, length rows = length group →
    (∀ i k, group !! i = Some k → rows !! i =
      Some (position_columns (Z.of_nat i + 1) (id ← records d !! k; members d !! (stream, id)))) →
    mapM (λ e : key_fields * row, positionOf required (VStr stream) e.1 e.2)
      (zip (recordFields <$> group) rows) = mapM (positionAt required stream d) group) as Hrows.
  { intros rows. revert rows. generalize 0 as base.
    enough (∀ base rows, length rows = length group →
      (∀ i k, group !! i = Some k → rows !! i =
        Some (position_columns (base + Z.of_nat i + 1) (id ← records d !! k; members d !! (stream, id)))) →
      mapM (λ e : key_fields * row, positionOf required (VStr stream) e.1 e.2)
        (zip (recordFields <$> group) rows) = mapM (positionAt required stream d) group) as He.
    { intros _ rows Hl Hr. by apply (He 0). }
    induction group as [|k group IH]; intros base rows Hl Hr; [done|].
    destruct rows as [|r rows]; [done|]. pose proof (Hr 0%nat k eq_refl) as H0. simplify_eq/=.
    rewrite positionOf_columns by done. destruct (positionAt required stream d k); simpl; [|done].
    rewrite (IH (base + 1)); [done|done|]. intros i j Hj. specialize (Hr (Datatypes.S i) j Hj). simpl in Hr.
    rewrite Hr. do 2 f_equal. lia. }
  destruct group as [|k [|k2 group]].
  - done.
  - cbn [fmap list_fmap exec]. unfold text. rewrite !with_param_Ok. unfold sql_position_read, check.
    cbn [length Nat.eqb]. rewrite (Hrows [_]); [done|done|].
    intros [|i] k' Hk; simplify_eq/=. by destruct k' as [m i].
  - set (l := k :: k2 :: group) in *.
    change (match recordFields <$> l with [k0] => _ | _ => _ end)
      with (V05_POSITIONS_READ_BATCH (VStr stream) (VArr (own <$> (recordFields <$> l)))).
    cbn [exec]. unfold text, Database.elements. rewrite !with_param_Ok. unfold sql_positions_read_batch.
    rewrite length_imap, !length_fmap, Nat.eqb_refl. unfold check. rewrite Hrows; [done| |].
    + by rewrite length_imap, !length_fmap.
    + intros i j Hj. rewrite list_lookup_imap, !list_lookup_fmap, Hj. by destruct j as [m i0].
Qed.
Lemma batches_fmap {A B} (f : A → B) (l : list A) : batches (f <$> l) = fmap (M := list) f <$> batches l.
Proof.
  unfold batches. rewrite length_fmap. generalize (length l) as fuel. intros fuel. revert l.
  induction fuel as [|fuel IH]; intros l; [done|]. destruct l as [|a l]; [done|].
  change (f <$> a :: l) with (f a :: (f <$> l)). cbn [batchesOf].
  change (f a :: (f <$> l)) with (f <$> a :: l). rewrite <- fmap_take, <- fmap_drop, IH. done.
Qed.
End positions.

(** [targetPositions] and [readPositions] answer the records' positions in
    the order asked, duplicates included, whatever the size of the request and
    of its statements; only [readPositions] refuses a record without one. *)
Theorem positions_aligned `{Columns} required stream op keys d :
  wf d → Forall (λ k, k.1 ≠ EmptyString ∧ k.2 ≠ EmptyString) keys →
  positions exec required (positionRequest op stream keys) d =
  (VArr <$> mapM (positionAt required stream d) keys, d).
Proof.
  intros W Hk. unfold positions. simpl get. unfold arrayOf. rewrite check_bind.
  assert (mapM (λ v, keyOf v []) (recordValue <$> keys) = Ok (recordFields <$> keys)) as ->.
  { apply mapM_Ok, Forall2_fmap, Forall_Forall2_diag. eapply Forall_impl; [done|].
    intros k [? ?]. by apply keyOf_record. }
  rewrite check_bind, batches_fmap.
  assert (mapM (positionGroup exec required (VStr stream)) (fmap (M := list) recordFields <$> batches keys) d =
    (mapM (mapM (positionAt required stream d)) (batches keys), d)) as Hm.
  { assert (∀ l, mapM (positionGroup exec required (VStr stream)) (fmap (M := list) recordFields <$> l) d =
      mapM (λ g, positionGroup exec required (VStr stream) (recordFields <$> g)) l d) as ->.
    { generalize d. intros d0 l. revert d0. induction l as [|g l IH]; intros d0; [done|].
      cbn [fmap list_fmap mapM]. unfold mbind, io_bind.
      destruct (positionGroup _ _ _ _ d0) as [[x|e] d1]; [|done].
      pose proof (IH d1) as IH'. unfold mbind, io_bind in IH'. by rewrite IH'. }
    apply mapM_reader. intros g _. by apply positionGroup_ok. }
  unfold mbind, io_bind in Hm |- *. rewrite Hm.
  rewrite <- (batches_concat keys) at 2. rewrite mapM_concat.
  by destruct (mapM (mapM (positionAt required stream d)) (batches keys)).
Qed.
Lemma positions_aligned_witness :
  positions (exec (H := numberColumns)) false
    (positionRequest "targetPositions" "s" [("task", "2"); ("task", "9"); ("task", "2")]) demo_published =
  (VArr <$> mapM (positionAt false "s" demo_published) [("task", "2"); ("task", "9"); ("task", "2")],
   demo_published).
Proof.
  apply positions_aligned; [apply demo_published_wf|]. repeat constructor; simpl; discriminate.
Defined.
