(* ===== verification/Drivers.v ===== *)
(** Transaction runners: [backend/postgres/src/driver.mts], [pg.mts] and
    [backend/server/bindings/retryable.mts].

    The tool's pool and clients are parameters; what the code does with them is
    kept as a trace of calls. *)
From S2P Require Import Prelude Text Json.
Open Scope Z_scope.
Open Scope axton_scope.

(** * Retries *)
Definition RETRY_BACKOFF_BASE_MS : Z := 20.
Definition RETRY_BACKOFF_CAP_MS : Z := 400.
Definition retryCeiling (retry : nat) : Z :=
  RETRY_BACKOFF_CAP_MS `min` (RETRY_BACKOFF_BASE_MS * 2 ^ Z.of_nat retry).
(** [retryDelay] when [random()] answers the fraction [p / q]. *)
Definition retryDelay (retry : nat) (p q : Z) : Z := p * retryCeiling retry / q.

Section retries.
Context {S R : Type}.
Variable attempt : io S R.
Variable isRetryable : exn → bool.
(** [delay(n)] and, when it is positive, the wait. *)
Variable pause : nat → S → S.

(** The loop: [more] retries remain after attempt number [n]. *)
Fixpoint retryLoop (more n : nat) : io S R := λ s,
  match attempt s with
  | (Ok r, s1) => (Ok r, s1)
  | (Throw e, s1) =>
      if negb (isRetryable e) then (Throw e, s1)
      else match more with
           | O => (Throw e, s1)
           | Datatypes.S more => retryLoop more (Datatypes.S n) (pause n s1)
           end
  end.
(** [withRetries(attempt, isRetryable, retries, delay)]: attempt [n] throws when
    [n >= retries], so at most [retries] further attempts are made. *)
Definition withRetries (retries : Z) : io S R := retryLoop (Z.to_nat retries) 0.

(** [k] attempts failed retryably, each followed by its pause. *)
Inductive retried : nat → nat → S → S → Prop :=
| retried_none n s : retried n n s s
| retried_more n m s s1 s2 e :
    attempt s = (Throw e, s1) → isRetryable e = true →
    retried (Datatypes.S n) m (pause n s1) s2 → retried n m s s2.
End retries.

(** * [pgDriver] *)
Inductive command := BEGIN | COMMIT | ROLLBACK.
Inductive call :=
| Connect
| Command (client : nat) (c : command)
| Body (client : nat)
| Release (client : nat) (broken : option exn).

(** [error instanceof Error ? error : new Error(String(error))] *)
Definition asError (e : exn) : exn :=
  match e with Thrown (VObj _) | Thrown (VArr _) => Error "[object Object]"
          | Thrown v => Error (toText v) | _ => e end.

Section pg.
Context {S R : Type}.
Variable connect : io S nat.
Variable command_ : nat → command → io S unit.
Variable body : nat → io S R.

(** The tool's state and the calls made so far. *)
Definition traced {A} (c : call) (m : io S A) : io (S * list call) A := λ w,
  let '(r, s) := m w.1 in (r, (s, w.2 ++ [c])).
Definition release (client : nat) (broken : option exn) (w : S * list call) : S * list call :=
  (w.1, w.2 ++ [Release client broken]).

(** One attempt of [transaction]. *)
Definition pgAttempt : io (S * list call) R := λ w,
  match traced Connect connect w with
  | (Throw e, w) => (Throw e, w)
  | (Ok client, w) =>
      match traced (Command client BEGIN) (command_ client BEGIN) w with
      | (Throw e, w) => (Throw e, release client None w)
      | (Ok _, w) =>
          match (result ← traced (Body client) (body client);
                 _ ← traced (Command client COMMIT) (command_ client COMMIT);
                 mret result) w with
          | (Ok result, w) => (Ok result, release client None w)
          | (Throw error, w) =>
              match traced (Command client ROLLBACK) (command_ client ROLLBACK) w with
              | (Ok _, w) => (Throw error, release client None w)
              | (Throw rollback, w) => (Throw error, release client (Some (asError rollback)) w)
              end
          end
      end
  end.
End pg.

(** [bind]: bigint parameters are sent as text. *)
Definition bind (params : list value) : list value :=
  (λ p, match p with VBig z => VStr (pretty z) | _ => p end) <$> params.

(** * [isRetryableTransactionError]

    Errors are objects on a heap, which may refer to themselves. *)
Inductive ref := Nothing | Other | At (location : nat).
Record error_object := ErrorObject {
  error_code : option string;
  error_kind : option string;
  meta_code : option string;
  adapter_error : option ref;   (* meta.driverAdapterError, unless undefined *)
  error_cause : ref }.

Section retryable.
Variable heap : nat → error_object.

Definition conflict (o : error_object) : bool :=
  match error_code o with
  | Some c => String.eqb c "40001" || String.eqb c "40P01" || String.eqb c "P2034"
              || String.eqb c "transaction.conflict"
              || (String.eqb c "P2010" &&
                  match meta_code o with
                  | Some m => String.eqb m "40001" || String.eqb m "40P01"
                  | None => false end)
  | None => false
  end
  || match error_kind o with Some k => String.eqb k "TransactionWriteConflict" | None => false end.
(** The loop from [current]; the recursion starts with its own [seen]. *)
Fixpoint retryableLoop (fuel : nat) (seen : list nat) (current : ref) : option bool :=
  match fuel with
  | O => None
  | Datatypes.S fuel =>
      match current with
      | Nothing | Other => Some false
      | At l =>
          if decide (l ∈ seen) then Some false
          else
            let o := heap l in
            if conflict o then Some true
            else
              match (match adapter_error o with
                     | Some r => retryableLoop fuel [] r
                     | None => Some false
                     end) with
              | None => None
              | Some true => Some true
              | Some false => retryableLoop fuel (l :: seen) (error_cause o)
              end
      end
  end.
Definition isRetryableTransactionError (fuel : nat) (error : ref) : option bool :=
  retryableLoop fuel [] error.

(** What an error refers to. *)
Definition refers (l : nat) (r : ref) : Prop :=
  error_cause (heap l) = r ∨ adapter_error (heap l) = Some r.
Inductive reaches : ref → nat → Prop :=
| reaches_here l : reaches (At l) l
| reaches_next l r m : refers l r → reaches r m → reaches (At l) m.
End retryable.

(** * Theorems *)
Lemma retryLoop_last {S R} (attempt : io S R) isRetryable pause more n s :
  ∃ m s1, (n ≤ m ≤ n + more)%nat ∧ retried attempt isRetryable pause n m s s1 ∧
    retryLoop attempt isRetryable pause more n s = attempt s1 ∧
    (∀ e, (attempt s1).1 = Throw e → isRetryable e = false ∨ m = (n + more)%nat).
Proof.
  revert n s. induction more as [|more IH]; intros n s; cbn [retryLoop];
    destruct (attempt s) as [[r|e] s1] eqn:Ha.
  - exists n, s. split_and!; [lia|lia|constructor|done|by rewrite Ha].
  - exists n, s. split_and!; [lia|lia|constructor|by case_if|]. intros; right. lia.
  - exists n, s. split_and!; [lia|lia|constructor|done|by rewrite Ha].
  - destruct (isRetryable e) eqn:He; cbn [negb].
    + destruct (IH (Datatypes.S n) (pause n s1)) as (m & s2 & Hm & Hr & Heq & Hlast).
      exists m, s2. split_and!; [lia|lia| |done|].
      * by econstructor.
      * intros e' He'. destruct (Hlast e' He'); [by left|right; lia].
    + exists n, s. split_and!; [lia|lia|constructor|done|]. rewrite Ha. intros ? [= <-]. by left.
Qed.

(** C34: [withRetries] answers with its last attempt.  Every attempt before it
    failed with a retryable error and was followed by its pause, there are at
    most [retries + 1] attempts, and a failure is reported only when it is not
    retryable or the retries have run out. *)
Theorem withRetries_last {S R} (attempt : io S R) isRetryable pause retries s :
  ∃ m s1, (m ≤ Z.to_nat retries)%nat ∧ retried attempt isRetryable pause 0 m s s1 ∧
    withRetries attempt isRetryable pause retries s = attempt s1 ∧
    (∀ e, (attempt s1).1 = Throw e → isRetryable e = false ∨ m = Z.to_nat retries).
Proof.
  destruct (retryLoop_last attempt isRetryable pause (Z.to_nat retries) 0 s)
    as (m & s1 & Hm & ? & ? & ?). exists m, s1. split; [lia|]. by split_and!.
Qed.

Lemma retryCeiling_bounds retry : 20 ≤ retryCeiling retry ≤ 400.
Proof.
  unfold retryCeiling, RETRY_BACKOFF_CAP_MS, RETRY_BACKOFF_BASE_MS.
  assert (1 ≤ 2 ^ Z.of_nat retry) by (apply Z.pow_le_mono_r with (b := 0); lia). lia.
Qed.
(** The wait before a retry is never negative and stays strictly below
    [min(400, 20 * 2^retry)] milliseconds, whatever [random()] answers in
    [[0, 1)]; the three default retries together wait less than 140 ms. *)
Theorem retryDelay_bounds retry p q :
  0 ≤ p < q →
  0 ≤ retryDelay retry p q < retryCeiling retry ∧ retryCeiling retry ≤ 400 ∧
  retryDelay 0 p q + retryDelay 1 p q + retryDelay 2 p q < 140.
Proof.
  intros Hp. assert (∀ n, 0 ≤ retryDelay n p q < retryCeiling n) as Hd.
  { intros n. pose proof (retryCeiling_bounds n). unfold retryDelay. split.
    - apply Z.div_pos; nia.
    - apply Z.div_lt_upper_bound; nia. }
  pose proof (retryCeiling_bounds retry).
  pose proof (Hd 0%nat) as H0. pose proof (Hd 1%nat) as H1. pose proof (Hd 2%nat) as H2.
  change (retryCeiling 0) with 20 in H0. change (retryCeiling 1) with 40 in H1.
  change (retryCeiling 2) with 80 in H2. split; [apply Hd|]. lia.
Qed.
Lemma retryDelay_bounds_witness :
  0 ≤ retryDelay 5 9 10 < retryCeiling 5 ∧ retryCeiling 5 ≤ 400 ∧
  retryDelay 0 9 10 + retryDelay 1 9 10 + retryDelay 2 9 10 < 140.
Proof. apply retryDelay_bounds. lia. Defined.


Section retryable_facts.
Variable heap : nat → error_object.
Abbreviation loop := (retryableLoop heap).
Abbreviation reach := (reaches heap).
Definition clean (r : ref) : Prop := ∀ l, reach r l → conflict (heap l) = false.

Lemma retryable_true fuel seen r : loop fuel seen r = Some true → ∃ l, reach r l ∧ conflict (heap l) = true.
Proof.
  revert seen r. induction fuel as [|fuel IH]; intros seen r; simpl; [done|].
  destruct r as [| |l]; [done..|]. case_decide; [done|].
  destruct (conflict (heap l)) eqn:Hc; [intros _; exists l; split; [constructor|done]|].
  destruct (adapter_error (heap l)) as [a|] eqn:Ha.
  - destruct (loop fuel [] a) as [[]|] eqn:Hl; [|..|done].
    + intros _. apply IH in Hl as (m & Hm & ?). exists m. split; [|done].
      eapply reaches_next; [by right|done].
    + intros (m & Hm & ?)%IH. exists m. split; [|done]. eapply reaches_next; [by left|done].
  - intros (m & Hm & ?)%IH. exists m. split; [|done]. eapply reaches_next; [by left|done].
Qed.

(** What the loop has established of a location it has passed. *)
Definition passed (seen : list nat) (next : ref) (l : nat) : Prop :=
  conflict (heap l) = false ∧ (∀ a, adapter_error (heap l) = Some a → clean a) ∧
  (error_cause (heap l) = next ∨ (∃ m, error_cause (heap l) = At m ∧ m ∈ seen) ∨
   ∀ m, error_cause (heap l) ≠ At m).
Lemma passed_closed seen : (∀ l, l ∈ seen → passed seen Nothing l) → ∀ l, l ∈ seen → clean (At l).
Proof.
  intros Hp l Hl m Hm. remember (At l) as r eqn:Hr. revert l Hl Hr.
  induction Hm as [k|k r' m Href Hm IH]; intros l Hl [= ->]; [by apply Hp|].
  destruct (Hp l Hl) as (_ & Had & Hcause). destruct Href as [<-|Ha]; [|by eapply Had].
  destruct Hcause as [Hn|[(j & Hj & Hjs)|Hn]].
  - rewrite Hn in Hm. inversion Hm.
  - eapply IH; [exact Hjs|done].
  - destruct (error_cause (heap l)) as [| |j]; [inversion Hm..|]. by destruct (Hn j).
Qed.
Lemma retryable_false fuel seen r :
  loop fuel seen r = Some false → (∀ l, l ∈ seen → passed seen r l) → clean r ∧ ∀ l, l ∈ seen → clean (At l).
Proof.
  revert seen r. induction fuel as [|fuel IH]; intros seen r; simpl; [done|].
  assert (∀ r, (∀ m, r ≠ At m) → (∀ l, l ∈ seen → passed seen r l) → ∀ l, l ∈ seen → clean (At l)) as Hend.
  { intros r' Hr' Hp. apply passed_closed. intros l Hl. destruct (Hp l Hl) as (? & ? & Hc).
    split_and!; [done..|]. destruct Hc as [->|[?|?]]; auto. }
  destruct r as [| |l].
  1,2: intros _ Hp; split; [intros m Hm; inversion Hm|eapply Hend; [|exact Hp]; done].
  case_decide as Hs.
  { intros _ Hp. assert (∀ k, k ∈ seen → clean (At k)) as Hall; [|by auto].
    apply passed_closed. intros k Hk. destruct (Hp k Hk) as (? & ? & Hc). split_and!; [done..|].
    destruct Hc as [Hc|[?|?]]; [right; left; by exists l|auto..]. }
  destruct (conflict (heap l)) eqn:Hc; [done|].
  intros Hl Hp. assert ((∀ a, adapter_error (heap l) = Some a → clean a) ∧
    loop fuel (l :: seen) (error_cause (heap l)) = Some false) as [Had Hrest].
  { destruct (adapter_error (heap l)) as [a|]; [|by split].
    destruct (loop fuel [] a) as [[]|] eqn:Ha; try done. split; [|done].
    intros ? [= <-]. apply (IH _ _ Ha). intros ? Hin. by apply elem_of_nil in Hin. }
  destruct (IH _ _ Hrest) as [_ Hall].
  { intros k Hk. apply elem_of_cons in Hk as [->|Hk].
    - split_and!; [done|done|by left].
    - destruct (Hp k Hk) as (? & ? & Hck). split_and!; [done|done|].
      destruct Hck as [Hck|[(m & ? & ?)|?]]; [|right; left; exists m; split; [done|by right]|by right; right].
      right. left. exists l. split; [done|by left]. }
  split; [apply Hall; by left|]. intros k Hk. apply Hall. by right.
Qed.
End retryable_facts.

(** A conflict behind a [cause] chain that loops back. *)
Definition demo_heap (l : nat) : error_object :=
  match l with
  | 0%nat => ErrorObject (Some "P2010"%string) None (Some "22000"%string) (Some (At 2)) (At 1)
  | 1%nat => ErrorObject None None None None (At 0)
  | 2%nat => ErrorObject None None None None (At 3)
  | _ => ErrorObject None (Some "TransactionWriteConflict"%string) None None Nothing
  end.

(** an error whose [meta.driverAdapterError] refers back to it is never
    classified: the recursion starts a fresh [seen] set, so no number of steps
    is enough, although the [seen] set is there to stop such cycles. *)
Theorem isRetryable_adapter_cycle heap l fuel :
  conflict (heap l) = false → adapter_error (heap l) = Some (At l) →
  isRetryableTransactionError heap fuel (At l) = None.
Proof.
  intros Hc Ha. unfold isRetryableTransactionError.
  induction fuel as [|fuel IH]; [done|]. cbn [retryableLoop].
  rewrite decide_False by apply not_elem_of_nil. by rewrite Hc, Ha, IH.
Qed.
Lemma isRetryable_adapter_cycle_witness :
  let heap := λ _, ErrorObject (Some "P2010"%string) None None (Some (At 0)) Nothing in
  isRetryableTransactionError heap 1000 (At 0) = None.
Proof. apply (isRetryable_adapter_cycle (λ _, _) 0 1000); vm_compute; reflexivity. Defined.
