(* ===== verification/Transact.v ===== *)
(** The interface of a PostgreSQL driver, and the drivers that implement it:
    [PostgresDriver] of [backend/postgres/src/driver.mts], [pgDriver] of
    [pg.mts], [prismaDriver] of [prisma.mts] and [drizzleDriver] of [drizzle.mts].

    A driver runs a body of the framework, whose state [W] is larger than the
    tool's own [S]; the tool reaches its part through a [lens].  What the
    framework relies on is stated as the laws of [Transactor], and every driver
    proves them. *)
From S2P Require Import Prelude Text Drivers.
Open Scope axton_scope.

(** ** A part of a larger state *)
Record lens (W S : Type) := Lens { view : W → S; update : S → W → W }.
Arguments Lens {W S}.
Arguments view {W S}.
Arguments update {W S}.
Definition within {W S A} (l : lens W S) (m : io S A) : io W A :=
  λ w, let '(r, s) := m (view l w) in (r, update l s w).
Definition compose {X W S} (k : lens X W) (l : lens W S) : lens X S :=
  Lens (λ x, view l (view k x)) (λ s x, update k (update l s (view k x)) x).
(** A predicate that says nothing about the part. *)
Definition blind {W S} (l : lens W S) (P : W → Prop) : Prop := ∀ s w, P w → P (update l s w).
Lemma within_preserves {W S A} (l : lens W S) (P : W → Prop) (m : io S A) : blind l P → preserves P (within l m).
Proof. intros Hb w Hw. unfold within. destruct (m (view l w)) as [r s]. by apply Hb. Qed.
Lemma preserves_catch {W A} (P : W → Prop) (m : io W A) h :
  preserves P m → (∀ e, preserves P (h e)) → preserves P (catch m h).
Proof. intros Hm Hh w Hw. specialize (Hm w Hw). unfold catch. destruct (m w) as [[a|e] w1]; [done|by apply Hh]. Qed.

(** ** [PostgresDriver.transaction]

    A transaction is known to its body by a number.  The documented contract of a
    driver, as far as the framework's own state is concerned: the tool changes
    nothing of it by itself, and the answer is the one of a run of the body, after
    which the body does not run again. *)
Class Transactor (S : Type) := {
  transaction {W R : Type} : lens W S → (nat → io W R) → io W R;
  transaction_keeps {W R} (l : lens W S) (body : nat → io W R) (P : W → Prop) :
    blind l P → (∀ tx, preserves P (body tx)) → preserves P (transaction l body);
  transaction_last {W R} (l : lens W S) (body : nat → io W R) w r w' :
    transaction l body w = (Ok r, w') →
    ∃ tx w1 w2 s, body tx w1 = (Ok r, w2) ∧ w' = update l s w2 }.

(** ** Retrying: [withRetries(attempt, isRetryable, options.retries ?? 3)]

    Time passes during a pause; no state changes. *)
Section retrying.
Context {S : Type} (attempt : Transactor S).
Variable isRetryable : exn → bool.
Variable retries : option Z.

Definition retriedTransaction {W R} (l : lens W S) (body : nat → io W R) : io W R :=
  withRetries (@transaction S attempt W R l body) isRetryable (λ _ w, w) (default 3%Z retries).

Lemma retried_keeps {W R} (a : io W R) pause (P : W → Prop) more n :
  preserves P a → (∀ k, preserves P (λ w, (Ok tt, pause k w))) →
  preserves P (retryLoop a isRetryable pause more n).
Proof.
  intros Ha Hp. revert n. induction more as [|more IH]; intros n w Hw; cbn [retryLoop];
    specialize (Ha w Hw); destruct (a w) as [[r|e] w1]; try done; case_if; try done.
  apply IH. exact (Hp n w1 Ha).
Qed.
#[export] Instance retrying : Transactor S.
Proof.
  refine {| transaction W R := retriedTransaction |}.
  - intros W R l body P Hb Hbody. apply retried_keeps; [by apply transaction_keeps|]. by intros k w Hw.
  - intros W R l body w r w' H. unfold retriedTransaction, withRetries in H.
    destruct (retryLoop_last (@transaction S attempt W R l body) isRetryable (λ _ w, w)
                (Z.to_nat (default 3%Z retries)) 0 w) as (m & w1 & _ & _ & Heq & _).
    rewrite Heq in H. by eapply transaction_last.
Defined.
End retrying.

(** ** [pgDriver]: one attempt takes a client of the pool *)
Section pg.
Context {S : Type}.
Variable connect : io S nat.
Variable command_ : nat → command → io S unit.

Definition pgTransaction {W R} (l : lens W S) (body : nat → io W R) : io W R := λ w,
  let '(r, (w, _)) := pgAttempt (within l connect) (λ client c, within l (command_ client c)) body (w, []) in (r, w).

Lemma traced_preserves {W A} (P : W → Prop) c (m : io W A) :
  preserves P m → preserves (λ x : W * list call, P x.1) (traced c m).
Proof. intros Hm [w t] Hw. unfold traced. cbn in *. specialize (Hm w Hw). by destruct (m w). Qed.
Lemma pgAttempt_preserves {W R} (P : W → Prop) co cmd (body : nat → io W R) :
  preserves P co → (∀ c k, preserves P (cmd c k)) → (∀ c, preserves P (body c)) →
  preserves (λ x : W * list call, P x.1) (pgAttempt co cmd body).
Proof.
  intros Hco Hcmd Hbody x Hx. unfold pgAttempt.
  pose proof (traced_preserves P Connect co Hco x Hx) as H1. destruct (traced Connect co x) as [[client|e] x1]; [|done].
  pose proof (traced_preserves P (Command client BEGIN) _ (Hcmd client BEGIN) x1 H1) as H2.
  destruct (traced (Command client BEGIN) _ x1) as [[?|e] x2]; [|done].
  assert (preserves (λ x : W * list call, P x.1)
    (result ← traced (Body client) (body client);
     _ ← traced (Command client COMMIT) (cmd client COMMIT); mret result)) as Hb.
  { apply preserves_bind; [by apply traced_preserves|intros].
    apply preserves_bind; [by apply traced_preserves|intros; apply preserves_ret]. }
  specialize (Hb x2 H2).
  match type of Hb with context [(?m x2).1] => destruct (m x2) as [[r|e] x3]; [done|] end.
  pose proof (traced_preserves P (Command client ROLLBACK) _ (Hcmd client ROLLBACK) x3 Hb) as H4.
  by destruct (traced (Command client ROLLBACK) _ x3) as [[?|?] x4].
Qed.
#[export] Instance pgTransactor : Transactor S.
Proof.
  refine {| transaction W R := pgTransaction |}.
  - intros W R l body P Hb Hbody w Hw. unfold pgTransaction.
    pose proof (pgAttempt_preserves P (within l connect) (λ client c, within l (command_ client c)) body
      (within_preserves _ _ _ Hb) (λ _ _, within_preserves _ _ _ Hb) Hbody (w, []) Hw) as H.
    by destruct (pgAttempt _ _ _ _) as [r [w1 t1]].
  - intros W R l body w r w' H. unfold pgTransaction in H.
    destruct (pgAttempt _ _ _ _) as [r1 [w1 t1]] eqn:Ha. injection H as -> ->. unfold pgAttempt in Ha.
    destruct (traced Connect _ _) as [[client|e] x1]; [|done].
    destruct (traced (Command client BEGIN) _ x1) as [[?|e] x2]; [|done].
    destruct ((result ← traced (Body client) (body client);
     _ ← traced (Command client COMMIT) (within l (command_ client COMMIT)); mret result) x2)
      as [[r2|e] x3] eqn:Hx; [|by destruct (traced _ _ _) as [[]]].
    unfold release in Ha. injection Ha as <- <- _.
    apply io_bind_inv in Hx as [(r0 & x4 & Hr & Hx)|(e & _ & Hx)]; [|done].
    apply io_bind_inv in Hx as [([] & x5 & Hc & Hx)|(e & _ & Hx)]; [|done].
    unfold mret, io_ret in Hx. injection Hx as -> <-.
    unfold traced in Hr, Hc. destruct (body client x2.1) as [r1 w2] eqn:Hbody. injection Hr as -> <-. cbn in Hc.
    unfold within in Hc. destruct (command_ client COMMIT _) as [rc s]. injection Hc as _ <-. cbn.
    eauto 10.
Defined.
End pg.

(** ** The drivers

    Prisma's [client.$transaction] and Drizzle's [db.transaction] are the tool's
    own attempt at SERIALIZABLE. *)
Definition pgDriver {S} (connect : io S nat) (command_ : nat → command → io S unit)
    (isRetryable : exn → bool) (retries : option Z) : Transactor S :=
  retrying (pgTransactor connect command_) isRetryable retries.
Definition prismaDriver {S} (client : Transactor S) (isRetryable : exn → bool) (retries : option Z) : Transactor S :=
  retrying client isRetryable retries.
Definition drizzleDriver {S} (db : Transactor S) (isRetryable : exn → bool) (retries : option Z) : Transactor S :=
  retrying db isRetryable retries.

(** ** [Database], what a backend asks of its adapter

    [initialize] may be given a transaction to validate in; [persistence(tx).call]
    answers one request inside [tx]. *)
Record database (D : Type) := Database_ {
  db_initialize : option (option nat → io D unit);
  db_transactor : Transactor D;
  db_call : nat → value → io D value;
  mutationCommitGroups : bool;
  mutationResultGroups : bool }.
Arguments Database_ {D}.
Arguments db_initialize {D}.
Arguments db_transactor {D}.
Arguments db_call {D}.
Arguments mutationCommitGroups {D}.
Arguments mutationResultGroups {D}.
