(* ===== verification/Adapter.v ===== *)
(** The [database] option built on a driver: [persistence] of
    [backend/postgres/src/persistence.mts], over the interface [Transactor] of
    [Transact.v] and the operations of [Persistence.v].

    The adapter's state beside the tool's is the [initializing] variable, shared
    by every transaction of the process; [sent] records the statements the driver
    ran and how each ended, which no code reads. *)
From S2P Require Import Prelude Once Text Json Database Wellformed Persistence PersistenceFacts Drivers Transact.
Open Scope Z_scope.
Open Scope axton_scope.

Definition sent_statement : Type := nat * statement * result (list row).
Record adapter (S : Type) := Adapter_ { tool : S; initializing : initialization; sent : list sent_statement }.
Arguments Adapter_ {S}.
Arguments tool {S}.
Arguments initializing {S}.
Arguments sent {S}.
Definition toolLens {S} : lens (adapter S) S := Lens tool (λ s a, Adapter_ s (initializing a) (sent a)).
#[export] Instance adapterSlot {S} : Slot (adapter S).
Proof. by refine {| slot := initializing; setSlot i a := Adapter_ (tool a) i (sent a) |}. Defined.

Section adapter.
Context {S : Type} (driver : Transactor S).
(** [driver.query(tx, sql, params)] *)
Variable driverQuery : nat → statement → io S (list row).
(** What another caller's validation settles with, for one that finds it running. *)
Variable join : io (adapter S) unit.

Definition query (tx : nat) (s : statement) : io (adapter S) (list row) := λ a,
  let '(r, t) := driverQuery tx s (tool a) in (r, Adapter_ t (initializing a) (sent a ++ [(tx, s, r)])).
(** [check] *)
Definition layoutCheck (retained : nat) : io (adapter S) unit := requireFreshLayout (query retained).
Definition validation (tx : option nat) : io (adapter S) unit :=
  match tx with
  | None => @transaction S driver _ _ toolLens layoutCheck
  | Some tx => layoutCheck tx
  end.
Definition initialize (tx : option nat) : io (adapter S) unit := once (validation tx) join.
(** [transaction(body)] of the answered object *)
Definition databaseTransaction {R} (body : nat → io (adapter S) R) : io (adapter S) R :=
  @transaction S driver _ _ toolLens body.
(** [persistence(tx).call(request)] *)
Definition persistenceCall (tx : nat) (request : value) : io (adapter S) value :=
  _ ← initialize (Some tx); answerInitialized (query tx) request.

(** The adapter as a part of a larger state, and the object it answers *)
#[export] Instance adapterTransactor : Transactor (adapter S).
Proof.
  refine {| transaction W R l body := @transaction S driver W R (compose l toolLens) body |}.
  - intros W R l body P Hb Hbody. apply transaction_keeps; [|done]. intros s w Hw. by apply Hb.
  - intros W R l body w r w' (tx & w1 & w2 & s & Hbody & ->)%transaction_last. eauto 10.
Defined.
Definition persistence : database (adapter S) :=
  Database_ (Some initialize) adapterTransactor persistenceCall true true.

(** The backend's uses of the object, in any order; an error of one does not
    stop the next. *)
Inductive use :=
| Initialize (tx : option nat)
| Calls (requests : list value).                  (* a transaction making these calls *)
Definition useStep (u : use) : io (adapter S) unit :=
  match u with
  | Initialize tx => initialize tx
  | Calls requests =>
      databaseTransaction (λ tx, forEach (λ r, _ ← persistenceCall tx r; mret tt) requests)
  end.
Definition adapterRun (l : list use) (a : adapter S) : adapter S := foldl (λ a u, (useStep u a).2) a l.
End adapter.

(** * Every statement follows a validated layout *)

(** A layout that was found fresh. *)
Definition freshLayout (x : sent_statement) : Prop :=
  x.1.2 = CHECK_LAYOUT ∧ ∃ row rows, x.2 = Ok (row :: rows) ∧ strictEq (column row "legacy") (VBool false) = true.
(** Anything but the layout's own check follows one that found it fresh. *)
Definition gated (l : list sent_statement) : Prop :=
  ∀ before x after, l = before ++ x :: after → x.1.2 = CHECK_LAYOUT ∨ Exists freshLayout before.
Record layout_ok {S} (a : adapter S) : Prop := {
  layout_gated : gated (sent a);
  layout_known : initializing a = Initialized → Exists freshLayout (sent a) }.

Lemma gated_snoc l x : gated l → x.1.2 = CHECK_LAYOUT ∨ Exists freshLayout l → gated (l ++ [x]).
Proof.
  intros Hl Hx before y after Heq. destruct after as [|z after _] using rev_ind.
  - apply app_inj_tail in Heq as [-> ->]. done.
  - rewrite app_comm_cons, app_assoc in Heq. apply app_inj_tail in Heq as [-> _]. by eapply Hl.
Qed.

(** Any operation keeps what every statement keeps. *)
Section every.
Context {S : Type} (q : statement → io S (list row)) (P : S → Prop).
Hypothesis Hq : ∀ s, preserves P (q s).
Ltac keep := repeat first
  [ apply preserves_ret | apply preserves_throw | apply preserves_check | apply Hq
  | apply preserves_bind; [|intros ?] | apply preserves_if | apply preserves_option; [intros ?|]
  | apply preserves_mapM; intros | case_match ].
Lemma applyStreamMembers_every r : preserves P (applyStreamMembers q r).
Proof.
  unfold applyStreamMembers, applyDeltas, applyReserving, applyGeneral, reserveCursors, applyGroup. cbv zeta. keep.
Qed.
Lemma answerInitialized_every r : preserves P (answerInitialized q r).
Proof.
  apply answerInitialized_keeps; intros; try apply Hq; [unfold beginBatch; keep|apply applyStreamMembers_every].
Qed.
Lemma requireFreshLayout_every : preserves P (requireFreshLayout q).
Proof. unfold requireFreshLayout, first. keep. Qed.
End every.

Section gate.
Context {S : Type} (driver : Transactor S).
Variable driverQuery : nat → statement → io S (list row).
Variable join : io (adapter S) unit.
Abbreviation query := (query driverQuery).
(** A caller that joins gets through once the running validation succeeded. *)
Hypothesis join_ok : ∀ a, layout_ok a →
  layout_ok (join a).2 ∧ ((join a).1 = Ok tt → Exists freshLayout (sent (join a).2)).

Lemma blind_gated : blind toolLens (λ a : adapter S, gated (sent a)).
Proof. by intros s a. Qed.
Lemma layoutCheck_gated tx : preserves (λ a, gated (sent a)) (layoutCheck driverQuery tx).
Proof.
  unfold layoutCheck, requireFreshLayout, first. apply preserves_bind.
  - apply preserves_bind; [|intros; apply preserves_ret]. intros a Ha. unfold Adapter.query.
    destruct (driverQuery tx CHECK_LAYOUT (tool a)) as [r t]. apply gated_snoc; [done|by left].
  - intros o. apply preserves_option; [intros; apply preserves_if|]; auto with axton.
Qed.
(** A check that gets through is a fresh layout, the last statement sent. *)
Lemma layoutCheck_Ok tx a a' : layoutCheck driverQuery tx a = (Ok tt, a') → Exists freshLayout (sent a').
Proof.
  unfold layoutCheck, requireFreshLayout, first. intros H.
  apply io_bind_inv in H as [(o & a1 & Ho & H)|(e & _ & H)]; [|done].
  apply io_bind_inv in Ho as [(rows & a2 & Hq & Ho)|(e & _ & Ho)]; [|done].
  unfold mret, io_ret in Ho. injection Ho as <- <-.
  unfold Adapter.query in Hq. destruct (driverQuery tx CHECK_LAYOUT (tool a)) as [r t]. injection Hq as -> <-.
  destruct rows as [|row rows]; [done|]. cbn [head] in H.
  destruct (strictEq (column row "legacy") (VBool false)) eqn:Hrow; [|done].
  unfold mret, io_ret in H. injection H as <-. apply Exists_app. right. constructor. split; [done|]. eauto.
Qed.
Lemma validation_gated tx : preserves (λ a, gated (sent a)) (validation driver driverQuery tx).
Proof.
  destruct tx; [apply layoutCheck_gated|].
  apply (transaction_keeps _ _ (λ a, gated (sent a))); [apply blind_gated|apply layoutCheck_gated].
Qed.
Lemma validation_Ok tx a a' : validation driver driverQuery tx a = (Ok tt, a') → Exists freshLayout (sent a').
Proof.
  destruct tx; [apply layoutCheck_Ok|]. intros (tx & a1 & a2 & s & Hc & ->)%transaction_last.
  by apply layoutCheck_Ok in Hc.
Qed.
(** [initialize] keeps the invariant; getting through it means a fresh layout. *)
Lemma initialize_gate tx a : layout_ok a →
  layout_ok (initialize driver driverQuery join tx a).2 ∧
  ((initialize driver driverQuery join tx a).1 = Ok tt →
   Exists freshLayout (sent (initialize driver driverQuery join tx a).2)).
Proof.
  intros Ha. unfold initialize, once. cbn [slot adapterSlot]. destruct (initializing a) eqn:Hi.
  - set (a0 := setSlot Initializing a).
    assert (gated (sent a0)) as H0 by apply Ha. pose proof (validation_gated tx a0 H0) as Hg.
    destruct (validation driver driverQuery tx a0) as [[[]|e] a1] eqn:Hv; cbn in *.
    + apply validation_Ok in Hv. by split; [|done].
    + by split.
  - by apply join_ok.
  - split; [done|]. intros _. by apply Ha.
Qed.
Lemma query_open tx s : preserves (λ a, layout_ok a ∧ Exists freshLayout (sent a)) (query tx s).
Proof.
  intros a [[Hg Hk] Hf]. unfold Adapter.query. destruct (driverQuery tx s (tool a)) as [r t]. cbn.
  assert (Exists freshLayout (sent a ++ [(tx, s, r)])) by (apply Exists_app; by left).
  split; [|done]. split; [|done]. cbn. apply gated_snoc; auto.
Qed.
Lemma persistenceCall_gate tx r : preserves layout_ok (persistenceCall driver driverQuery join tx r).
Proof.
  intros a Ha. unfold persistenceCall, mbind, io_bind.
  pose proof (initialize_gate (Some tx) a Ha) as [H1 H2].
  destruct (initialize driver driverQuery join (Some tx) a) as [[[]|e] a1]; [|done]. cbn in *.
  exact (proj1 (answerInitialized_every (query tx) (λ a, layout_ok a ∧ Exists freshLayout (sent a))
    (query_open tx) r a1 (conj H1 (H2 eq_refl)))).
Qed.
Lemma use_gate u : preserves layout_ok (useStep driver driverQuery join u).
Proof.
  destruct u as [tx|requests]; cbn [useStep].
  - intros a Ha. by apply initialize_gate.
  - unfold databaseTransaction. apply transaction_keeps; [by intros s a [? ?]|]. intros tx.
    apply preserves_forEach. intros r _. apply preserves_bind; [apply persistenceCall_gate|].
    intros. apply preserves_ret.
Qed.
Lemma run_gate l a : layout_ok a → layout_ok (adapterRun driver driverQuery join l a).
Proof.
  unfold adapterRun. revert a. induction l as [|u l IH]; intros a Ha; [done|]. cbn [foldl].
  apply IH. by apply use_gate.
Qed.
End gate.
