(* ===== verification/AdapterFacts.v ===== *)
(** The adapter end to end: it never sends a request's statement before the
    layout was found fresh, and over a PostgreSQL server the committed namespace
    stays well-formed whatever is asked of it. *)
From S2P Require Import Prelude Once Text Json Database Wellformed Persistence PersistenceFacts Simulation Drivers Transact Adapter.
Open Scope Z_scope.
Open Scope axton_scope.

Definition newAdapter {S} (t : S) : adapter S := Adapter_ t Idle [].

(** C27: no statement of a request reaches the database before a check found the
    namespace's layout fresh.  The check is shared by every caller of the process,
    a failed one is repeated by the next caller, and this holds for every driver
    that obeys its contract, whatever the database answers and however calls,
    transactions and retries follow one another. *)
Theorem adapter_gated {S} (driver : Transactor S) driverQuery join l (t : S) :
  (∀ a, layout_ok a → layout_ok (join a).2 ∧ ((join a).1 = Ok tt → Exists freshLayout (sent (join a).2))) →
  gated (sent (adapterRun driver driverQuery join l (newAdapter t))).
Proof.
  intros Hj. apply run_gate; [done|]. split; [|done]. intros before x after H.
  by destruct before.
Qed.

(** ** A PostgreSQL server

    The committed tables, and for every client the transaction it has open with
    the version it started from.  Another commit in between makes the COMMIT fail
    to serialize; the COMMIT of an aborted transaction rolls it back and reports
    no error. *)
Record server := Server_ {
  committed : db; version : nat;
  opened : gmap nat (nat * txn);
  catalog : bool;                                 (* an old framework table exists *)
  clock : Z; clients : nat }.
Definition SERIALIZATION_FAILURE : exn := sqlError "40001".

Section server.
Context `{Columns}.
Definition connect : io server nat := λ s,
  (Ok (clients s), Server_ (committed s) (version s) (opened s) (catalog s) (clock s) (Datatypes.S (clients s))).
Definition close_ (client : nat) (d : db) (v : nat) (s : server) : server :=
  Server_ d v (delete client (opened s)) (catalog s) (clock s) (clients s).
(** What a transaction that ends without committing leaves: the ids it drew. *)
Definition abandoned (t : txn) (d : db) : db :=
  keep_sequence (Z.max (next_record d) (next_record (tables t))) d.
Definition serverCommand (client : nat) (c : command) : io server unit := λ s,
  match c, opened s !! client with
  | BEGIN, _ =>
      (Ok tt, Server_ (committed s) (version s)
                (<[client := (version s, begin (committed s) (catalog s) (clock s))]> (opened s))
                (catalog s) (clock s) (clients s))
  | COMMIT, Some (v, t) =>
      if aborted t then (Ok tt, close_ client (abandoned t (committed s)) (version s) s)
      else if Nat.eqb v (version s) then (Ok tt, close_ client (commit t) (Datatypes.S (version s)) s)
      else (Throw SERIALIZATION_FAILURE, close_ client (abandoned t (committed s)) (version s) s)
  | ROLLBACK, Some (v, t) => (Ok tt, close_ client (abandoned t (committed s)) (version s) s)
  | _, None => (Ok tt, s)
  end.
Definition serverQuery (client : nat) (st : statement) : io server (list row) := λ s,
  match opened s !! client with
  | Some (v, t) =>
      let '(r, t) := run st t in
      (r, Server_ (committed s) (version s) (<[client := (v, t)]> (opened s)) (catalog s) (clock s) (clients s))
  | None => (Throw (Error "Client was closed and is not queryable"), s)
  end.

Record server_ok (s : server) : Prop := {
  committed_ok : wf (committed s);
  opened_ok client v t : opened s !! client = Some (v, t) → wf_txn t }.

Lemma abandoned_wf t d : wf d → wf (abandoned t d).
Proof. intros. apply wf_keep_sequence; [done|lia]. Qed.
Lemma close_ok client d v s : wf d → server_ok s → server_ok (close_ client d v s).
Proof.
  intros Hd [_ Ho]. split; [done|]. intros c w t. unfold close_. cbn. rewrite lookup_delete_Some.
  intros [_ Hl]. by eapply Ho.
Qed.
Lemma connect_ok : preserves server_ok connect.
Proof. intros s [Hc Ho]. by split. Qed.
Lemma serverCommand_ok client c : preserves server_ok (serverCommand client c).
Proof.
  intros s Hs. pose proof Hs as [Hc Ho]. unfold serverCommand.
  destruct c, (opened s !! client) as [[v t]|] eqn:Hl; cbn; try done.
  all: try (by apply close_ok; [apply abandoned_wf|]).
  1-2: split; cbn; [done|]; intros c w u; rewrite lookup_insert_Some;
    intros [[<- [= <- <-]]|[_ Hu]]; [by apply wf_begin|by eapply Ho].
  case_if; [by apply close_ok; [apply abandoned_wf|]|]. case_if.
  - apply close_ok; [|done]. apply wf_commit. by eapply Ho.
  - by apply close_ok; [apply abandoned_wf|].
Qed.

(** *** A call is the call on the client's own transaction *)
Abbreviation adapterQuery := (Adapter.query serverQuery).
Definition adapter_ok (a : adapter server) : Prop := server_ok (tool a).
(** The client's transaction is [t] of an otherwise well-formed server. *)
Definition serving (tx : nat) (a : adapter server) (t : txn) : Prop :=
  (∃ v, opened (tool a) !! tx = Some (v, t)) ∧ wf (committed (tool a)) ∧
  ∀ client v u, client ≠ tx → opened (tool a) !! client = Some (v, u) → wf_txn u.
Lemma query_serving tx st : simulates (serving tx) (adapterQuery tx st) (run st).
Proof.
  intros a t ([v Hv] & Hc & Ho). unfold Adapter.query, serverQuery. rewrite Hv.
  destruct (run st t) as [r t1]. cbn. split; [done|]. split_and!; [|done|].
  - exists v. cbn. by rewrite lookup_insert_eq.
  - cbn. intros client w u Hne. rewrite lookup_insert_ne by done. by apply Ho.
Qed.
Lemma answer_ok tx r : preserves adapter_ok (answerInitialized (adapterQuery tx) r).
Proof.
  intros a Ha. destruct (opened (tool a) !! tx) as [[v t]|] eqn:Hl.
  - assert (serving tx a t) as Hs.
    { split_and!; [by eexists|apply Ha|]. intros client w u _ Hu. by eapply opened_ok. }
    destruct (answerInitialized_sim _ _ _ (query_serving tx) r a t Hs) as (_ & [w Hw] & Hc & Ho).
    split; [done|]. intros client w' u Hu. destruct (decide (client = tx)) as [->|Hne]; [|by eapply Ho].
    rewrite Hw in Hu. simplify_eq. apply answer_keeps_wf. by eapply opened_ok.
  - refine (proj1 (answerInitialized_every (adapterQuery tx)
      (λ a, adapter_ok a ∧ opened (tool a) !! tx = None) _ r a (conj Ha Hl))).
    intros st b [Hb Hn]. unfold Adapter.query, serverQuery. rewrite Hn. by split.
Qed.
Lemma layoutCheck_ok tx : preserves adapter_ok (layoutCheck serverQuery tx).
Proof.
  unfold layoutCheck, requireFreshLayout, first.
  apply preserves_bind; [|intros o; apply preserves_option; [intros; apply preserves_if|]; auto with axton].
  apply preserves_bind; [|intros; apply preserves_ret]. intros a [Hc Ho].
  unfold Adapter.query, serverQuery. destruct (opened (tool a) !! tx) as [[v t]|] eqn:Hl; [|by split].
  pose proof (run_wf CHECK_LAYOUT t I (Ho _ _ _ Hl)) as Hr.
  destruct (run CHECK_LAYOUT t) as [r t1]. split; [done|]. cbn. intros client w u. rewrite lookup_insert_Some.
  intros [[<- [= <- <-]]|[_ Hu]]; [done|by eapply Ho].
Qed.

Section uses.
Variable isRetryable : exn → bool.
Variable retries : option Z.
Variable join : io (adapter server) unit.
Hypothesis join_ok : preserves adapter_ok join.
Definition postgres : Transactor server := pgDriver connect serverCommand isRetryable retries.

(** A transaction keeps what its body, and a change of the server that keeps it
    well-formed, both keep: for the adapter's own calls and for a backend's. *)
Lemma driver_keeps {W R} (l : lens W server) (P : W → Prop) (body : nat → io W R) :
  (∀ w, P w → server_ok (view l w)) → (∀ s w, P w → server_ok s → P (update l s w)) →
  (∀ tx, preserves P (body tx)) → preserves P (@transaction _ postgres _ _ l body).
Proof.
  intros Hview Hupdate Hb. apply retried_keeps; [|by intros k w Hw]. intros w Hw. cbn. unfold pgTransaction.
  assert (∀ A (m : io server A), preserves server_ok m → preserves P (within l m)) as Hin.
  { intros A m Hm x Hx. specialize (Hm _ (Hview _ Hx)). unfold within. destruct (m (view l x)). by apply Hupdate. }
  pose proof (pgAttempt_preserves P (within l connect) (λ client c, within l (serverCommand client c)) body
    (Hin _ _ connect_ok) (λ client c, Hin _ _ (serverCommand_ok client c)) Hb (w, []) Hw) as H1.
  by destruct (pgAttempt _ _ _ _) as [r [w1 t1]].
Qed.
Lemma transaction_ok {R} (body : nat → io (adapter server) R) :
  (∀ tx, preserves adapter_ok (body tx)) → preserves adapter_ok (databaseTransaction postgres body).
Proof. apply driver_keeps; by intros. Qed.
Lemma initialize_ok tx : preserves adapter_ok (initialize postgres serverQuery join tx).
Proof.
  apply once_preserves; [by intros i a|destruct tx; [apply layoutCheck_ok|]|done].
  apply transaction_ok, layoutCheck_ok.
Qed.
Lemma persistenceCall_ok tx r : preserves adapter_ok (persistenceCall postgres serverQuery join tx r).
Proof. apply preserves_bind; [apply initialize_ok|]. intros. apply answer_ok. Qed.
Lemma useStep_ok u : preserves adapter_ok (useStep postgres serverQuery join u).
Proof.
  destruct u as [tx|requests]; [apply initialize_ok|]. apply transaction_ok. intros tx.
  apply preserves_forEach. intros r _. apply preserves_bind; [apply persistenceCall_ok|intros; apply preserves_ret].
Qed.
Lemma adapterRun_ok l a : adapter_ok a → adapter_ok (adapterRun postgres serverQuery join l a).
Proof.
  unfold adapterRun. revert a. induction l as [|u l IH]; intros a Ha; [done|]. cbn [foldl].
  apply IH. by apply useStep_ok.
Qed.
End uses.
End server.

(** The committed namespace is well-formed whatever the adapter is used for.  Through
    the [pg] driver -- with its retries, its serialization failures at COMMIT and
    its rollbacks -- any sequence of initializations and transactions of any
    requests leaves the committed tables with every namespace invariant: exact
    settled prefixes, safe counters, unique ids, positions behind their heads. *)
Theorem committed_namespace_wf `{Columns} isRetryable retries join l s :
  preserves adapter_ok join → server_ok s →
  wf (committed (tool (adapterRun (postgres isRetryable retries) serverQuery join l (newAdapter s)))).
Proof. intros Hj Hs. by apply adapterRun_ok. Qed.

(** A fresh server, two backend calls in one transaction, and what is left. *)
Definition demo_server : server := Server_ empty_db 0 ∅ false 1700000000000 0.
Definition demo_driver : Transactor server := postgres (λ _, false) None.
Definition demo_run (l : list use) : adapter server :=
  adapterRun demo_driver (serverQuery (H := numberColumns)) (throw (Error "joined")) l (newAdapter demo_server).
Definition demo_uses : list use := [Initialize None; Calls [demo_claim; demo_begin]; Calls [demo_save]].
Lemma demo_server_ok : server_ok demo_server.
Proof. split; [apply wf_empty|]. intros client v t H. unfold demo_server in H. cbn in H. by rewrite lookup_empty in H. Qed.
Lemma adapter_gated_witness :
  gated (sent (demo_run demo_uses)) ∧ (length (sent (demo_run demo_uses)) = 6)%nat.
Proof.
  split; [|vm_compute; reflexivity].
  apply (adapter_gated demo_driver (serverQuery (H := numberColumns)) (throw (Error "joined")) demo_uses demo_server).
  intros a Ha. split; [exact Ha|]. intros H. discriminate H.
Defined.
Lemma committed_namespace_wf_witness :
  wf (committed (tool (demo_run demo_uses))) ∧
  is_Some (stores (committed (tool (demo_run demo_uses))) !! "store"%string).
Proof.
  split; [|vm_compute; eexists; reflexivity].
  apply (committed_namespace_wf (H := numberColumns) (λ _, false) None (throw (Error "joined")) demo_uses demo_server).
  - intros a Ha. exact Ha.
  - exact demo_server_ok.
Defined.

(** A body that swallows the error of a statement returns; PostgreSQL answers its
    COMMIT by rolling the aborted transaction back, without an error, and
    [transaction] resolves although nothing was committed. *)
Definition swallowing (tx : nat) : io (adapter server) unit :=
  _ ← answerInitialized (Adapter.query (serverQuery (H := numberColumns)) tx) demo_claim;
  catch (_ ← Adapter.query (serverQuery (H := numberColumns)) tx (HEAD VNull); mret tt) (λ _, mret tt).
Lemma swallowed_error_resolves :
  let '(r, a) := databaseTransaction demo_driver swallowing (newAdapter demo_server) in
  r = Ok tt ∧ stores (committed (tool a)) !! "store"%string = None.
Proof. vm_compute. by split. Qed.
