(* ===== verification/SqlText.v ===== *)
(** SQL text on its way to a tool: [sqlStatements] of [statements.mts] and
    [bindDrizzle] of [drizzle.mts]. *)
From Stdlib Require Import Ascii.
From S2P Require Import Prelude Text Json.
Open Scope Z_scope.
Open Scope axton_scope.

(** [s.slice(n)] *)
Fixpoint dropString (n : nat) (s : string) : string :=
  match n, s with
  | S n, String _ s => dropString n s
  | _, _ => s
  end.
(** The text from here through the first [close], and what follows it; the whole
    text when [close] is not in it. *)
Fixpoint cutAfter (close s : string) : string * string :=
  if String.prefix close s then (close, dropString (String.length close) s)
  else match s with
       | EmptyString => (EmptyString, EmptyString)
       | String c s => let '(a, r) := cutAfter close s in (String c a, r)
       end.

(** ** [sqlStatements] *)
Definition NEWLINE : string := String (char 10) EmptyString.
Definition APOSTROPHE : ascii := char 39.
Definition identStart (c : ascii) : bool :=
  ((65 <=? byte c) && (byte c <=? 90)) || ((97 <=? byte c) && (byte c <=? 122)) || (byte c =? 95).
Definition identPart (c : ascii) : bool := identStart c || isDigit c.
(** A dollar-quote tag at the head: a dollar, an optional identifier, a dollar. *)
Definition dollarTag (s : string) : option string :=
  match s with
  | String "$" s' =>
      match s' with
      | String "$" _ => Some "$$"
      | String c _ =>
          if identStart c then
            let '(tag, r) := spanString identPart s' in
            match r with String "$" _ => Some ("$" +:+ tag +:+ "$") | _ => None end
          else None
      | EmptyString => None
      end
  | _ => None
  end.

(** One turn of the loop on a non-empty text. *)
Inductive turn :=
| Skip (added rest : string)     (* a comment: [added] stands for it *)
| Take (taken rest : string)     (* copied to the statement *)
| Finish (rest : string).        (* a top-level semicolon *)
Definition scanTurn (c : ascii) (text : string) : turn :=
  let rest := String c text in
  if String.prefix "--" rest then Skip NEWLINE (cutAfter NEWLINE rest).2
  else if String.prefix "/*" rest then Skip " " (cutAfter "*/" (dropString 2 rest)).2
  else match dollarTag rest with
  | Some tag =>
      let '(body, r) := cutAfter tag (dropString (String.length tag) rest) in Take (tag +:+ body) r
  | None =>
      if (byte c =? 39) || (byte c =? 34) then
        let '(body, r) := cutAfter (String c EmptyString) text in Take (String c body) r
      else if byte c =? 59 then Finish text
      else Take (String c EmptyString) text
  end.
Definition pushStatement (current : string) : list string :=
  if String.eqb (trim current) EmptyString then [] else [trim current].
Fixpoint scanStatements (fuel : nat) (current text : string) : list string :=
  match fuel, text with
  | S fuel, String c rest =>
      match scanTurn c rest with
      | Skip added r => scanStatements fuel (current +:+ added) r
      | Take taken r => scanStatements fuel (current +:+ taken) r
      | Finish r => pushStatement current ++ scanStatements fuel EmptyString r
      end
  | _, _ => pushStatement current
  end.
(** Every turn consumes a character, so the text's length is enough. *)
Definition sqlStatements (text : string) : list string :=
  scanStatements (String.length text) EmptyString text.

(** ** [bindDrizzle] *)
Inductive chunk := Raw (text : string) | Param (v : value).
(** [$n] at the head of a text: its digits and what follows. *)
Definition placeholder (s : string) : option (string * string) :=
  match s with
  | String "$" s' =>
      let '(digits, r) := spanString isDigit s' in
      if String.eqb digits EmptyString then None else Some (digits, r)
  | _ => None
  end.
Definition bound (params : list value) (digits : string) : value :=
  match digitsValue 0 digits with
  | Zpos n =>
      match params !! (Pos.to_nat n - 1)%nat with
      | Some (VBig z) => VStr (pretty z)
      | Some v => v
      | None => VUndef
      end
  | _ => VUndef
  end.
(** [last] is the text since the last placeholder. *)
Fixpoint bindFrom (fuel : nat) (params : list value) (last text : string) : list chunk :=
  match fuel with
  | O => [Raw (last +:+ text)]
  | S fuel =>
      match placeholder text with
      | Some (digits, r) => Raw last :: Param (bound params digits) :: bindFrom fuel params EmptyString r
      | None =>
          match text with
          | EmptyString => [Raw last]
          | String c rest => bindFrom fuel params (last +:+ String c EmptyString) rest
          end
      end
  end.
Definition bindDrizzle (text : string) (params : list value) : list chunk :=
  bindFrom (S (String.length text)) params EmptyString text.

(** * Theorems

    ** Pieces of SQL text

    A statement body as the scanner sees it, with what it keeps of each piece. *)
Definition ordinary (c : ascii) : bool :=
  negb ((byte c =? 36) || (byte c =? 39) || (byte c =? 34) || (byte c =? 59)
        || (byte c =? 45) || (byte c =? 47)).
(** [body ++ close] closes at its end and not before. *)
Definition closes (close body : string) : Prop :=
  cutAfter close (body +:+ close) = (body +:+ close, EmptyString).
Inductive piece :=
| Plain (c : ascii)                      (* neither a quote, a dollar, a dash, a slash nor a semicolon *)
| Operator (a c : ascii)                 (* a dash or a slash that opens no comment *)
| LineComment (body : string)
| BlockComment (body : string)
| Quoted (q : ascii) (body : string)     (* a string or a quoted identifier *)
| Dollar (tag body : string).            (* a dollar-quoted body *)
Definition piece_ok (p : piece) : Prop :=
  match p with
  | Plain c => ordinary c = true
  | Operator a c => (byte a = 45 ∨ byte a = 47) ∧ ordinary c = true ∧ byte c ≠ 42
  | LineComment b => closes NEWLINE b
  | BlockComment b => closes "*/" b
  | Quoted q b => (byte q = 39 ∨ byte q = 34) ∧ closes (String q EmptyString) b
  | Dollar tag b => (∀ t, dollarTag (tag +:+ t) = Some tag) ∧ closes tag b
  end.
Definition spelling (p : piece) : string :=
  match p with
  | Plain c => String c EmptyString
  | Operator a c => String a (String c EmptyString)
  | LineComment b => "--" +:+ b +:+ NEWLINE
  | BlockComment b => "/*" +:+ b +:+ "*/"
  | Quoted q b => String q (b +:+ String q EmptyString)
  | Dollar tag b => tag +:+ b +:+ tag
  end.
Definition kept (p : piece) : string :=
  match p with LineComment _ => NEWLINE | BlockComment _ => " " | _ => spelling p end.
Definition text_of (f : piece → string) (l : list piece) : string := foldr (λ p t, f p +:+ t) EmptyString l.
(** Bodies, each ended by a semicolon. *)
Definition script (bodies : list (list piece)) : string :=
  foldr (λ b t, text_of spelling b +:+ String ";" t) EmptyString bodies.

Lemma app_nil_s (s : string) : s +:+ EmptyString = s.
Proof. induction s as [|c s IH]; [done|]. by rewrite string_app_cons, IH. Qed.
Lemma length_app_s (s t : string) : String.length (s +:+ t) = (String.length s + String.length t)%nat.
Proof. induction s as [|c s IH]; [done|]. rewrite string_app_cons. simpl. by rewrite IH. Qed.
Lemma prefix_app (p s t : string) : String.prefix p s = true → String.prefix p (s +:+ t) = true.
Proof.
  revert s. induction p as [|c p IH]; intros s; [by destruct (s +:+ t)|].
  destruct s as [|d s]; [done|]. rewrite string_app_cons. simpl.
  destruct (ascii_dec c d); [apply IH|done].
Qed.
Lemma prefix_app_inv (p s t : string) : (String.length p ≤ String.length s)%nat →
  String.prefix p (s +:+ t) = true → String.prefix p s = true.
Proof.
  revert s. induction p as [|c p IH]; intros s Hl; [by destruct s|].
  destruct s as [|d s]; [simpl in Hl; lia|]. rewrite string_app_cons. simpl.
  destruct (ascii_dec c d); [apply IH; simpl in Hl; lia|done].
Qed.
Lemma prefix_drop (p s : string) : String.prefix p s = true → s = p +:+ dropString (String.length p) s.
Proof.
  revert s. induction p as [|c p IH]; intros s; [done|].
  destruct s as [|d s]; [done|]. simpl. destruct (ascii_dec c d) as [->|]; [|done].
  intros Hp. rewrite string_app_cons. f_equal. by apply IH.
Qed.
Lemma dropString_app (p s : string) : dropString (String.length p) (p +:+ s) = s.
Proof. induction p as [|c p IH]; [by destruct s|exact IH]. Qed.
Lemma prefix_self (p s : string) : String.prefix p (p +:+ s) = true.
Proof.
  induction p as [|c p IH]; [by destruct s|]. rewrite string_app_cons. simpl.
  by destruct (ascii_dec c c).
Qed.

(** A body that closes at its end does so whatever follows. *)
Lemma closes_app close body t :
  closes close body → cutAfter close (body +:+ close +:+ t) = (body +:+ close, t).
Proof.
  unfold closes. induction body as [|c body IH].
  - intros _. change (EmptyString +:+ close +:+ t) with (close +:+ t).
    change (EmptyString +:+ close) with close.
    destruct close as [|d close]; [by destruct t|].
    assert (cutAfter (String d close) (String d close +:+ t) =
      (String d close, dropString (String.length (String d close)) (String d close +:+ t))) as ->.
    { change (String d close +:+ t) with (String d (close +:+ t)). unfold cutAfter. fold cutAfter.
      rewrite <- (string_app_cons d close t). by rewrite prefix_self. }
    by rewrite dropString_app.
  - rewrite !string_app_cons. cbn [cutAfter]. intros Hc.
    destruct (String.prefix close (String c (body +:+ close))) eqn:Hp.
    + exfalso. injection Hc as H1 H2. apply prefix_drop in Hp. rewrite H2, app_nil_s in Hp.
      apply (f_equal String.length) in Hp. simpl in Hp. rewrite length_app_s in Hp. lia.
    + destruct (String.prefix close (String c (body +:+ close +:+ t))) eqn:Hp'.
      { exfalso. rewrite <- string_app_assoc, <- string_app_cons in Hp'.
        apply prefix_app_inv in Hp'; [congruence|]. simpl. rewrite length_app_s. lia. }
      destruct (cutAfter close (body +:+ close)) as [a r]. injection Hc as -> ->.
      by rewrite IH.
Qed.

(** ** One turn reads one piece *)
Lemma prefix_cons c p d s : String.prefix (String c p) (String d s) = true →
  c = d ∧ String.prefix p s = true.
Proof. simpl. by destruct (ascii_dec c d). Qed.
Lemma ordinary_turn c t : ordinary c = true → scanTurn c t = Take (String c EmptyString) t.
Proof.
  unfold ordinary, scanTurn. rewrite negb_true_iff, !orb_false_iff, !Z.eqb_neq.
  intros [[[[[H36 H39] H34] H59] H45] H47].
  destruct (String.prefix "--" (String c t)) eqn:Hp; [apply prefix_cons in Hp as [<- _]; done|].
  destruct (String.prefix "/*" (String c t)) eqn:Hq; [apply prefix_cons in Hq as [<- _]; done|].
  assert (dollarTag (String c t) = None) as ->.
  { unfold dollarTag. by destruct c as [[] [] [] [] [] [] [] []]. }
  by rewrite !(proj2 (Z.eqb_neq _ _)).
Qed.
Lemma dollarTag_head s tag : dollarTag s = Some tag → ∃ t, s = String (char 36) t.
Proof.
  destruct s as [|c s]; [done|]. intros H1. exists s. f_equal.
  by destruct c as [[] [] [] [] [] [] [] []].
Qed.
Lemma closes_skip c b : byte c ≠ 10 → closes NEWLINE b → closes NEWLINE (String c b).
Proof.
  unfold closes. intros Hc Hb. rewrite string_app_cons. cbn [cutAfter].
  destruct (String.prefix NEWLINE (String c (b +:+ NEWLINE))) eqn:Hp.
  { apply prefix_cons in Hp as [<- _]. by destruct Hc. }
  by rewrite Hb.
Qed.
Lemma piece_turn p t : piece_ok p → match p with Operator _ _ => False | _ => True end →
  ∃ c rest, spelling p +:+ t = String c rest ∧
    (scanTurn c rest = Skip (kept p) t ∨ scanTurn c rest = Take (kept p) t).
Proof.
  destruct p as [c|a c|b|b|q b|tag b]; intros Hok Hp; try done; cbn [spelling kept] in *.
  - exists c, t. split; [done|]. right. by apply ordinary_turn.
  - exists "-"%char, ("-" +:+ b +:+ NEWLINE +:+ t). split; [by rewrite !string_app_assoc|]. left.
    unfold scanTurn. change (String "-" ("-" +:+ b +:+ NEWLINE +:+ t)) with ("--" +:+ (b +:+ NEWLINE +:+ t)).
    rewrite prefix_self. f_equal.
    assert (closes NEWLINE ("--" +:+ b)) as Hc.
    { change ("--" +:+ b) with (String "-" (String "-" b)). by repeat apply closes_skip. }
    change ("--" +:+ (b +:+ NEWLINE +:+ t)) with (("--" +:+ b) +:+ NEWLINE +:+ t).
    by rewrite (closes_app _ _ _ Hc).
  - exists "/"%char, ("*" +:+ b +:+ "*/" +:+ t). split; [by rewrite !string_app_assoc|]. left.
    unfold scanTurn. change (String "/" ("*" +:+ b +:+ "*/" +:+ t)) with ("/*" +:+ (b +:+ "*/" +:+ t)).
    change (String.prefix "--" ("/*" +:+ (b +:+ "*/" +:+ t))) with false. cbv iota.
    rewrite prefix_self. f_equal.
    change (dropString 2 ("/*" +:+ b +:+ "*/" +:+ t)) with (dropString 0 (b +:+ "*/" +:+ t)).
    assert (∀ s, dropString 0 s = s) as -> by (by intros []). by rewrite (closes_app _ _ _ Hok).
  - destruct Hok as [Hq Hc]. exists q, ((b +:+ String q EmptyString) +:+ t). split; [done|]. right.
    assert (q = char 39 ∨ q = char 34) as Hqc by (destruct Hq; [left|right]; by apply byte_inj).
    rewrite string_app_assoc. unfold scanTurn.
    assert (String.prefix "--" (String q (b +:+ String q "" +:+ t)) = false) as ->
      by (destruct Hqc as [-> | ->]; done).
    assert (String.prefix "/*" (String q (b +:+ String q "" +:+ t)) = false) as ->
      by (destruct Hqc as [-> | ->]; done).
    assert (dollarTag (String q (b +:+ String q "" +:+ t)) = None) as ->
      by (destruct Hqc as [-> | ->]; done).
    rewrite (closes_app _ _ _ Hc).
    assert ((byte q =? 39) || (byte q =? 34) = true) as -> by (destruct Hq as [-> | ->]; done).
    done.
  - destruct Hok as [Htag Hc]. pose proof (Htag (b +:+ tag +:+ t)) as Hd.
    pose proof Hd as [rest Hr]%dollarTag_head. exists (char 36), rest. split; [by rewrite !string_app_assoc|].
    right. unfold scanTurn. rewrite <- Hr, Hd.
    assert (String.prefix "--" (tag +:+ b +:+ tag +:+ t) = false) as -> by (by rewrite Hr).
    assert (String.prefix "/*" (tag +:+ b +:+ tag +:+ t) = false) as -> by (by rewrite Hr).
    rewrite dropString_app. by rewrite (closes_app _ _ _ Hc).
Qed.
Lemma operator_turns a c t : (byte a = 45 ∨ byte a = 47) → ordinary c = true → byte c ≠ 42 →
  scanTurn a (String c t) = Take (String a EmptyString) (String c t).
Proof.
  intros Ha Hc H42. assert (a = char 45 ∨ a = char 47) as Hac by (destruct Ha; [left|right]; by apply byte_inj).
  assert (byte c ≠ 45) as H45.
  { unfold ordinary in Hc. rewrite negb_true_iff, !orb_false_iff, !Z.eqb_neq in Hc. tauto. }
  unfold scanTurn.
  destruct (String.prefix "--" (String a (String c t))) eqn:Hp.
  { apply prefix_cons in Hp as [_ [Hp _]%prefix_cons]. destruct H45. by rewrite <- Hp. }
  destruct (String.prefix "/*" (String a (String c t))) eqn:Hq.
  { apply prefix_cons in Hq as [_ [Hq _]%prefix_cons]. destruct H42. by rewrite <- Hq. }
  assert (dollarTag (String a (String c t)) = None) as -> by (destruct Hac as [-> | ->]; done).
  by destruct Hac as [-> | ->].
Qed.

(** Reading a whole body from within a statement. *)
Lemma scan_body l : Forall piece_ok l → ∀ fuel current t,
  (String.length (text_of spelling l +:+ t) ≤ fuel)%nat →
  ∃ fuel', (String.length t ≤ fuel')%nat ∧
    scanStatements fuel current (text_of spelling l +:+ t) =
    scanStatements fuel' (current +:+ text_of kept l) t.
Proof.
  induction 1 as [|p l Hp Hl IH]; intros fuel current t Hf.
  { exists fuel. cbn [text_of foldr] in *. rewrite app_nil_s. done. }
  cbn [text_of foldr] in Hf |- *. fold (text_of spelling l) in *. fold (text_of kept l).
  rewrite string_app_assoc in Hf |- *.
  assert (∀ f (cur : string), (String.length (text_of spelling l +:+ t) ≤ f)%nat → ∃ fuel',
    (String.length t ≤ fuel')%nat ∧
    scanStatements f (cur +:+ kept p) (text_of spelling l +:+ t) =
    scanStatements fuel' (cur +:+ kept p +:+ text_of kept l) t) as Hnext.
  { intros f cur Hlen. destruct (IH f (cur +:+ kept p) t Hlen) as (f' & ? & Heq).
    exists f'. split; [done|]. by rewrite Heq, string_app_assoc. }
  destruct (match p with Operator _ _ => true | _ => false end) eqn:Hop.
  - destruct p as [|a c| | | |]; try done. destruct Hp as (Ha & Hc & H42).
    cbn [spelling kept] in *. rewrite !string_app_cons in Hf |- *. change ("" +:+ ?s) with s in *.
    change (EmptyString +:+ (text_of spelling l +:+ t)) with (text_of spelling l +:+ t) in *.
    destruct fuel as [|[|fuel]]; [simpl in Hf; lia..|]. cbn [scanStatements].
    rewrite operator_turns by done. cbn [scanStatements]. rewrite ordinary_turn by done.
    rewrite string_app_assoc. apply Hnext. simpl in Hf. lia.
  - destruct (piece_turn p (text_of spelling l +:+ t) Hp) as (c & rest & Heq & Hturn); [by destruct p|].
    assert (String.length (text_of spelling l +:+ t) < String.length (String c rest))%nat as Hlen.
    { rewrite <- Heq, !length_app_s. assert (0 < String.length (spelling p))%nat; [|lia].
      destruct p as [| | | | |tag b]; simpl; try lia. destruct Hp as [Hp _].
      specialize (Hp EmptyString). apply dollarTag_head in Hp as [r Hr].
      destruct tag; [done|simpl; lia]. }
    rewrite Heq in Hf |- *. destruct fuel as [|fuel]; [simpl in Hf; lia|]. cbn [scanStatements].
    destruct Hturn as [-> | ->]; apply Hnext; simpl in *; lia.
Qed.
Lemma scan_script bodies : Forall (Forall piece_ok) bodies → ∀ fuel,
  (String.length (script bodies) ≤ fuel)%nat →
  scanStatements fuel EmptyString (script bodies) = concat ((λ b, pushStatement (text_of kept b)) <$> bodies).
Proof.
  induction 1 as [|b bodies Hb _ IH]; intros fuel Hf; [by destruct fuel|].
  cbn [script foldr] in Hf |- *. fold (script bodies) in *.
  destruct (scan_body b Hb fuel EmptyString _ Hf) as (f' & Hf' & ->).
  destruct f' as [|f']; [simpl in Hf'; lia|]. cbn [scanStatements fmap list_fmap concat].
  change (scanTurn ";" (script bodies)) with (Finish (script bodies)). cbv iota.
  rewrite IH by (simpl in Hf'; lia). done.
Qed.

Example sqlStatements_ex :
  sqlStatements ("CREATE a; -- x;y" +:+ NEWLINE +:+ "DO $f$ begin; end $f$ ; /* ; */ SELECT 'it''s;' ;; ")
  = ["CREATE a"; "DO $f$ begin; end $f$"; "SELECT 'it''s;'"].
Proof. vm_compute. reflexivity. Qed.
Example bindDrizzle_ex :
  bindDrizzle "a=$2 AND b=$1" [VStr "x"; VBig 5]
  = [Raw "a="; Param (VStr "5"); Raw " AND b="; Param (VStr "x"); Raw ""].
Proof. vm_compute. reflexivity. Qed.


(** ** Placeholders *)
Lemma spanString_split p s : ∀ a r, spanString p s = (a, r) → s = a +:+ r.
Proof.
  induction s as [|c s IH]; simpl; intros a r; [by intros [= <- <-]|].
  destruct (p c); [|by intros [= <- <-]]. destruct (spanString p s) as [a' r'].
  intros [= <- <-]. rewrite string_app_cons. f_equal. by apply IH.
Qed.
Lemma placeholder_split s d r : placeholder s = Some (d, r) → s = "$" +:+ d +:+ r ∧ d ≠ EmptyString.
Proof.
  destruct s as [|c s]; [done|]. intros Hp.
  assert (c = char 36) as -> by (by destruct c as [[] [] [] [] [] [] [] []]).
  simpl in Hp. destruct (spanString isDigit s) as [d' r'] eqn:Hs.
  destruct (String.eqb_spec d' EmptyString); [done|]. injection Hp as <- <-.
  apply spanString_split in Hs as ->. done.
Qed.
(** Text and placeholder by turns. *)
Definition woven (segments : list (string * string)) (tail : string) : string :=
  foldr (λ e t, e.1 +:+ "$" +:+ e.2 +:+ t) tail segments.
(** No suffix of the text is a placeholder. *)
Definition unbound (s : string) : Prop := ∀ a b, s = a +:+ b → placeholder b = None.
Lemma placeholder_app b t : placeholder b ≠ None → placeholder (b +:+ t) ≠ None.
Proof.
  destruct b as [|c b]; [done|]. intros Hp. rewrite string_app_cons.
  assert (c = char 36) as -> by (by destruct c as [[] [] [] [] [] [] [] []]).
  simpl in Hp |- *. destruct b as [|d b]; [done|]. rewrite string_app_cons. simpl in *.
  destruct (isDigit d); [|done]. by destruct (spanString isDigit (b +:+ t)), (spanString isDigit b).
Qed.
Lemma snoc_split s c a b : s +:+ String c EmptyString = a +:+ b → b ≠ EmptyString →
  ∃ b', b = b' +:+ String c EmptyString ∧ s = a +:+ b'.
Proof.
  revert s. induction a as [|d a IH]; intros s Heq Hb.
  - exists s. change (EmptyString +:+ b) with b in Heq. by subst b.
  - destruct s as [|e s]; rewrite ?string_app_cons in Heq.
    + injection Heq as -> Heq. destruct a; [|done]. by destruct Hb.
    + injection Heq as -> Heq. destruct (IH s Heq Hb) as (b' & -> & ->). by exists b'.
Qed.
Lemma bindFrom_woven fuel params last text :
  (String.length text < fuel)%nat →
  (∀ a b, last = a +:+ b → b ≠ EmptyString → placeholder (b +:+ text) = None) →
  ∃ segments tail, last +:+ text = woven segments tail ∧
    bindFrom fuel params last text =
      concat ((λ e, [Raw e.1; Param (bound params e.2)]) <$> segments) ++ [Raw tail] ∧
    Forall (λ e, e.2 ≠ EmptyString ∧ unbound e.1) segments ∧ unbound tail.
Proof.
  revert last text. induction fuel as [|fuel IH]; intros last text Hf Hlast; [lia|]. cbn [bindFrom].
  assert (unbound last) as Hun.
  { intros a b Hab. destruct b as [|c b]; [done|]. specialize (Hlast a _ Hab ltac:(done)).
    destruct (placeholder (String c b)) eqn:Hb; [|done].
    destruct (placeholder_app (String c b) text); [by rewrite Hb|done]. }
  destruct (placeholder text) as [[d r]|] eqn:Hp.
  - apply placeholder_split in Hp as [-> Hd].
    destruct (IH EmptyString r) as (seg & tail & Heq & Hb & Hall & Ht).
    { change ("$" +:+ d +:+ r) with (String "$" (d +:+ r)) in Hf. simpl in Hf. rewrite length_app_s in Hf. lia. }
    { intros a b Hab Hne. destruct a; [|done]. by destruct Hne. }
    exists ((last, d) :: seg), tail. split_and!; [| |by constructor|done].
    + cbn [woven foldr fst snd]. fold (woven seg tail). by rewrite <- Heq.
    + by rewrite Hb.
  - destruct text as [|c text].
    + exists [], last. rewrite app_nil_s. split_and!; [done|done|constructor|done].
    + destruct (IH (last +:+ String c EmptyString) text) as (seg & tail & Heq & Hb & Hall & Ht).
      * simpl in Hf; lia.
      * intros a b Hab Hne. destruct (snoc_split _ _ _ _ Hab Hne) as (b' & -> & ->).
        rewrite string_app_assoc. change (String c EmptyString +:+ text) with (String c text).
        destruct b' as [|e b']; [exact Hp|]. by apply (Hlast a).
      * exists seg, tail. by rewrite string_app_assoc in Heq.
Qed.

(** [bindDrizzle] keeps the statement: its chunks are the text cut at
    every placeholder, in order, with parameter [n] (a bigint as text) in the
    place of the placeholder numbered [n]. *)
Theorem bindDrizzle_woven text params :
  ∃ segments tail, text = woven segments tail ∧
    bindDrizzle text params =
      concat ((λ e, [Raw e.1; Param (bound params e.2)]) <$> segments) ++ [Raw tail] ∧
    Forall (λ e, e.2 ≠ EmptyString ∧ unbound e.1) segments ∧ unbound tail.
Proof.
  apply (bindFrom_woven _ params EmptyString); [lia|].
  intros a b Hab Hne. destruct a; [|done]. by destruct Hne.
Qed.
