(* ===== verification/Sessions.v ===== *)
(** Transaction sessions and wakes: [backend/server/bindings/session.mts], and
    [WakeHub], [bound] and [run] of [backend/server/api/backend.mts].

    A tracked operation settles some time after it starts; the session sees the
    starts and the settlements as events.  A promise is known by its being
    pending, not by its identity, so [pending] is a count. *)
From S2P Require Import Prelude Text Drivers.
Open Scope Z_scope.
Open Scope axton_scope.

(** * Session *)
Record session := Session_ {
  publicationScope : option string;
  failed : value + exn;             (* undefined or null, or what a tracked operation threw *)
  closed : bool;
  pending : nat;
  touched : list string;
  savepointSets : gmap Z (list string) }.
Definition newSession : session := Session_ None (inl VUndef) false 0 [] ∅.

(** What a thrown value is to [??]: undefined and null, or something else. *)
Definition thrown (e : exn) : value + exn :=
  match e with Thrown VUndef => inl VUndef | Thrown VNull => inl VNull | _ => inr e end.
Definition asExn (f : value + exn) : exn := match f with inl v => Thrown v | inr e => e end.
(** [a ??= e], [a ?? e] *)
Definition keepFirst (f : value + exn) (e : exn) : value + exn :=
  match f with inl _ => thrown e | inr _ => f end.

Definition set_failed f s := Session_ (publicationScope s) f (closed s) (pending s) (touched s) (savepointSets s).
Definition set_pending n s := Session_ (publicationScope s) (failed s) (closed s) n (touched s) (savepointSets s).
Definition set_touched t s := Session_ (publicationScope s) (failed s) (closed s) (pending s) t (savepointSets s).
Definition set_sets m s := Session_ (publicationScope s) (failed s) (closed s) (pending s) (touched s) m.
Definition set_closed s := Session_ (publicationScope s) (failed s) true (pending s) (touched s) (savepointSets s).

(** [track]: the operation becomes pending, unless the session is closed. *)
Definition track (s : session) : result session :=
  if closed s then raise "transaction session closed" else Ok (set_pending (S (pending s)) s).
(** A tracked operation settles. *)
Definition settled (r : result unit) (s : session) : session :=
  let s := set_pending (pred (pending s)) s in
  match r with Ok _ => s | Throw e => set_failed (keepFirst (failed s) e) s end.
(** [touched.add(stream)] *)
Definition touch (stream : string) (s : session) : session :=
  if decide (stream ∈ touched s) then s else set_touched (touched s ++ [stream]) s.
Definition savepoint (ordinal : Z) (s : session) : session :=
  set_sets (<[ordinal := touched s]> (savepointSets s)) s.
Definition rollback (ordinal : Z) (s : session) : session :=
  set_touched (default [] (savepointSets s !! ordinal)) s.
Definition release (ordinal : Z) (s : session) : session :=
  set_sets (delete ordinal (savepointSets s)) s.

(** What happens to a session while its operation runs. *)
Inductive session_event :=
| Started
| Settled (r : result unit)
| Touched (stream : string)
| Savepoint (ordinal : Z)
| RolledBack (ordinal : Z)
| Released (ordinal : Z).
Definition sessionStep (s : session) (e : session_event) : session :=
  match e with
  | Started => match track s with Ok s => s | Throw _ => s end
  | Settled r => settled r s
  | Touched stream => touch stream s
  | Savepoint n => savepoint n s
  | RolledBack n => rollback n s
  | Released n => release n s
  end.
Definition sessionRun (s : session) (l : list session_event) : session := foldl sessionStep s l.

(** [assertCommittable], when [pending] operations were unfinished at its start
    and [s] is the session once all have settled. *)
Definition assertCommittable (unfinished : nat) (s : session) : result unit :=
  match failed s with
  | inr e => Throw e
  | inl VNull => Throw (Thrown VNull)
  | inl _ =>
      if (0 <? unfinished)%nat then raise "unawaited transaction operations"
      else if closed s then raise "transaction session closed" else Ok tt
  end.

(** * [bound]

    [before] happens while the operation runs, [after] until nothing is pending;
    the operation itself ends with [outcome]. *)
Section bound.
Context {R : Type}.
(** [s1] is the session as the operation left it, [s2] once nothing is pending. *)
Definition boundResult (s1 s2 : session) (outcome : result R) : result (R * list string) :=
  match (match outcome with
         | Ok r => _ ← assertCommittable (pending s1) s2; Ok (r, touched s2)
         | Throw e => Throw e
         end) with
  | Ok a => Ok a
  | Throw e => Throw (match failed s2 with inr f => f | inl _ => e end)
  end.
Definition boundOutcome (before after : list session_event) (outcome : result R)
    : result (R * list string) :=
  let s1 := sessionRun newSession before in
  boundResult s1 (sessionRun s1 after) outcome.
End bound.
(** [sessions.has(tx)]: a transaction serves one session at a time.  [tx] is
    known by a number, [sessions] are those being served. *)
Definition bind_ (tx : nat) (sessions : list nat) : result (list nat) :=
  if decide (tx ∈ sessions)
  then raise "transaction already bound: AXTON is serving it; declare through its own handles"
  else Ok (tx :: sessions).
Definition unbind (tx : nat) (sessions : list nat) : list nat := filter (λ t, t ≠ tx) sessions.

(** * [run]

    The adapter's transaction runs the body once per attempt and commits it; the
    state is the attempt's number and the [committed] variable. *)
Section run.
Context {R : Type}.
Variable body : nat → result (R * list string).   (* [bound] in attempt [n] *)
Variable commit : nat → result unit.
Variable isRetryable : exn → bool.
Variable retries : Z.
Definition runAttempt : io (nat * list string) R := λ s,
  match body s.1 with
  | Throw e => (Throw e, (S s.1, s.2))
  | Ok (r, published) =>
      match commit s.1 with
      | Ok _ => (Ok r, (S s.1, published))
      | Throw e => (Throw e, (S s.1, published))
      end
  end.
(** The answer of [run] and the Streams it notifies. *)
Definition runTransaction : result R * list string :=
  match withRetries runAttempt isRetryable (λ _ s, s) retries (0%nat, []) with
  | (Ok r, s) => (Ok r, s.2)
  | (Throw e, _) => (Throw e, [])
  end.
End run.

(** * [WakeHub]

    A listener set is shared with the closures that unsubscribe from it, so it
    has an identity of its own. *)
Record hub := Hub {
  sets : gmap nat (list nat);          (* set objects: their wakes, in insertion order *)
  listeners : gmap string nat;         (* the map of the hub *)
  next_set : nat }.
Definition newHub : hub := Hub ∅ ∅ 0.
Definition members_of (h : hub) (set : nat) : list nat := default [] (sets h !! set).
Definition addOnce (x : nat) (l : list nat) : list nat := if decide (x ∈ l) then l else l ++ [x].
(** [subscribe] answers the hub and the set the returned closure holds. *)
Definition subscribe (stream : string) (wake : nat) (h : hub) : hub * nat :=
  match listeners h !! stream with
  | Some set => (Hub (<[set := addOnce wake (members_of h set)]> (sets h)) (listeners h) (next_set h), set)
  | None =>
      let set := next_set h in
      (Hub (<[set := [wake]]> (sets h)) (<[stream := set]> (listeners h)) (S set), set)
  end.
(** The closure [subscribe] returned. *)
Definition unsubscribe (stream : string) (wake set : nat) (h : hub) : hub :=
  let left := filter (λ w, w ≠ wake) (members_of h set) in
  Hub (<[set := left]> (sets h))
    (if decide (left = []) then delete stream (listeners h) else listeners h) (next_set h).
Definition listening (h : hub) (stream : string) : list nat :=
  from_option (members_of h) [] (listeners h !! stream).
(** The wakes [notify] queues, in order. *)
Definition notify (streams : list string) (h : hub) : list nat :=
  uniq streams ≫= listening h.
Definition clear (h : hub) : hub := Hub (sets h) ∅ (next_set h).

(** * Theorems *)
Lemma sessionRun_app s l k : sessionRun s (l ++ k) = sessionRun (sessionRun s l) k.
Proof. apply foldl_app. Qed.
Lemma failed_kept s l e : failed s = inr e → failed (sessionRun s l) = inr e.
Proof.
  revert s. induction l as [|ev l IH]; intros s Hf; [done|]. simpl. apply IH.
  destruct ev; simpl; try done.
  - unfold track. by destruct (closed s).
  - unfold settled. destruct r; simpl; [done|]. by rewrite Hf.
  - unfold touch. by case_decide.
Qed.
(** The first tracked operation that failed with something. *)
Definition failure (ev : session_event) : option exn :=
  match ev with
  | Settled (Throw e) => match thrown e with inr _ => Some e | inl _ => None end
  | _ => None
  end.
Definition firstFailure (l : list session_event) : option exn := head (omap failure l).
Lemma failed_run s l :
  failed s = inl VUndef → (∀ e, Settled (Throw e) ∈ l → e ≠ Thrown VNull) →
  failed (sessionRun s l) = match firstFailure l with Some e => inr e | None => inl VUndef end.
Proof.
  revert s. induction l as [|ev l IH]; intros s Hs Hnull; [done|]. simpl.
  assert (∀ e, Settled (Throw e) ∈ l → e ≠ Thrown VNull) as Hnull' by (intros; apply Hnull; by right).
  assert (∀ s', failed s' = inl VUndef → failure ev = None →
    failed (sessionRun s' l) = match firstFailure (ev :: l) with Some e => inr e | None => inl VUndef end) as Hnext.
  { intros s' Hs' Hev. rewrite IH by done. unfold firstFailure. simpl. by rewrite Hev. }
  destruct ev as [|[[]|e]| | | |]; simpl; try (by apply Hnext).
  - apply Hnext; [|done]. unfold track. by destruct (closed s).
  - destruct (thrown e) as [v|e'] eqn:He.
    + apply Hnext; [|simpl; by rewrite He]. unfold settled. simpl. rewrite Hs. simpl. rewrite He.
      pose proof (Hnull e ltac:(by left)). unfold thrown in He. destruct e; try done.
      destruct v0; by simplify_eq.
    + unfold firstFailure. simpl. rewrite He. simpl. apply failed_kept. unfold settled. simpl.
      rewrite Hs. simpl. unfold thrown in He |- *. destruct e; try done. by destruct v.
  - apply Hnext; [|done]. unfold touch. by case_decide.
Qed.
Lemma closed_run s l : closed (sessionRun s l) = closed s.
Proof.
  revert s. induction l as [|ev l IH]; intros s; [done|]. simpl. rewrite IH.
  destruct ev as [|[]| | | |]; simpl; try done.
  - unfold track. by destruct (closed s) eqn:?.
  - unfold touch. by case_decide.
Qed.

(** An operation bound to a transaction completes exactly when it returned,
    none of its tracked operations failed and none was unfinished when it
    returned; it then publishes the Streams touched and not rolled back.
    Otherwise it throws the first failure of a tracked operation, else its own
    error, else the unawaited operations.  (A tracked operation that throws
    [undefined] does not count as failed.) *)
Theorem bound_outcome {R} before after (outcome : result R) :
  (∀ e, Settled (Throw e) ∈ before ++ after → e ≠ Thrown VNull) →
  boundOutcome before after outcome =
  match firstFailure (before ++ after), outcome with
  | Some e, _ => Throw e
  | None, Throw e => Throw e
  | None, Ok r =>
      if (0 <? pending (sessionRun newSession before))%nat
      then raise "unawaited transaction operations"
      else Ok (r, touched (sessionRun newSession (before ++ after)))
  end.
Proof.
  intros Hnull. unfold boundOutcome, boundResult. cbv zeta. rewrite <- sessionRun_app.
  pose proof (failed_run newSession (before ++ after) eq_refl Hnull) as Hf.
  pose proof (closed_run newSession (before ++ after)) as Hc.
  unfold assertCommittable. rewrite Hf, Hc.
  destruct (firstFailure (before ++ after)), outcome; simpl; try done. by case_if.
Qed.
Lemma bound_outcome_witness :
  let e := Error "constraint" in
  boundOutcome [Started; Settled (Throw e); Started] [Settled (Ok tt)] (Ok 1%nat) = Throw e.
Proof.
  apply (bound_outcome [Started; Settled (Throw (Error "constraint")); Started] [Settled (Ok tt)] (Ok 1%nat)).
  intros e He. simpl in He. rewrite !elem_of_cons in He. 
  destruct He as [He|[He|[He|[He|He]]]]; try discriminate He; [|by apply elem_of_nil in He].
  injection He as ->. discriminate.
Defined.
(** A tracked operation that throws [undefined] is lost. *)
Lemma undefined_failure_commits :
  boundOutcome [Started; Settled (Throw (Thrown VUndef))] [] (Ok 1%nat) = Ok (1%nat, []).
Proof. reflexivity. Qed.

Lemma savepointSets_run n s l :
  Forall (λ ev, ev ≠ Savepoint n ∧ ev ≠ Released n) l →
  savepointSets (sessionRun s l) !! n = savepointSets s !! n.
Proof.
  revert s. induction l as [|ev l IH]; intros s Hl; [done|]. apply Forall_cons in Hl as [[Hs Hr] Hl].
  simpl. rewrite IH by done. destruct ev as [|[]|?|m|m|m]; simpl; try done.
  - unfold track. by destruct (closed s).
  - unfold touch. by case_decide.
  - rewrite lookup_insert_ne; [done|]. by intros ->.
  - rewrite lookup_delete_ne; [done|]. by intros ->.
Qed.
(** rolling back to a savepoint restores the Streams touched before it,
    whatever was touched, saved or rolled back in between under other ordinals. *)
Theorem rollback_restores n s l :
  Forall (λ ev, ev ≠ Savepoint n ∧ ev ≠ Released n) l →
  touched (sessionRun s (Savepoint n :: l ++ [RolledBack n])) = touched s.
Proof.
  intros Hl. change (sessionRun s (Savepoint n :: l ++ [RolledBack n]))
    with (sessionRun (savepoint n s) (l ++ [RolledBack n])).
  rewrite sessionRun_app. simpl. rewrite savepointSets_run by done. simpl.
  by rewrite lookup_insert_eq.
Qed.
Lemma rollback_restores_witness :
  touched (sessionRun newSession [Touched "a"; Savepoint 1; Touched "b"; Savepoint 2; RolledBack 2; RolledBack 1])
  = ["a"%string].
Proof.
  apply (rollback_restores 1 (sessionRun newSession [Touched "a"]) [Touched "b"; Savepoint 2; RolledBack 2]).
  repeat constructor; discriminate.
Defined.

Section run_facts.
Context {R : Type}.
Variable body : nat → result (R * list string).
Variable commit : nat → result unit.
Variable isRetryable : exn → bool.

(** Attempt [k] failed with [e], in its body or at its COMMIT. *)
Definition attemptFails (k : nat) (e : exn) : Prop :=
  body k = Throw e ∨ ∃ a, body k = Ok a ∧ commit k = Throw e.
Lemma runAttempt_spec (s : nat * list string) :
  match runAttempt body commit s with
  | (Ok r, s') => s' = (S s.1, s'.2) ∧ body s.1 = Ok (r, s'.2) ∧ commit s.1 = Ok tt
  | (Throw e, s') => s'.1 = S s.1 ∧ attemptFails s.1 e
  end.
Proof.
  unfold runAttempt, attemptFails. destruct (body s.1) as [[r p]|e]; simpl; [|by split; [|left]].
  destruct (commit s.1) as [[]|e]; simpl; [done|]. split; [done|right]. by eexists.
Qed.
Lemma retried_attempts n m s s' :
  retried (runAttempt body commit) isRetryable (λ _ s, s) n m s s' → s.1 = n →
  s'.1 = m ∧ ∀ k, (n ≤ k < m)%nat → ∃ e, attemptFails k e ∧ isRetryable e = true.
Proof.
  induction 1 as [|n m s s1 s2 e Ha He Hr IH]; intros Hn; [split; [done|lia]|].
  pose proof (runAttempt_spec s) as Hs. rewrite Ha in Hs. destruct Hs as [Hs1 Hf].
  destruct IH as [Hm Hk]; [lia|]. split; [done|]. intros k Hkr.
  destruct (decide (k = n)) as [->|]; [|apply Hk; lia]. exists e. by rewrite <- Hn.
Qed.
End run_facts.

(** Wakes follow the commit.  [run] notifies exactly the Streams published
    by the attempt whose COMMIT succeeded -- never those of an attempt that was
    rolled back or retried -- and nothing at all when it throws. *)
Theorem run_wakes {R} (body : nat → result (R * list string)) commit isRetryable retries :
  ∃ n, (n ≤ Z.to_nat retries)%nat ∧
    (∀ k, (k < n)%nat → ∃ e, attemptFails body commit k e ∧ isRetryable e = true) ∧
    ((∃ r published, body n = Ok (r, published) ∧ commit n = Ok tt ∧
        runTransaction body commit isRetryable retries = (Ok r, published)) ∨
     (∃ e, attemptFails body commit n e ∧ (isRetryable e = false ∨ n = Z.to_nat retries) ∧
        runTransaction body commit isRetryable retries = (Throw e, []))).
Proof.
  unfold runTransaction, withRetries.
  destruct (retryLoop_last (runAttempt body commit) isRetryable (λ _ s, s) (Z.to_nat retries) 0 (0%nat, []))
    as (n & s1 & Hn & Hr & -> & Hlast).
  destruct (retried_attempts body commit isRetryable _ _ _ _ Hr eq_refl) as [Hs1 Hk].
  exists n. split; [lia|]. split; [intros k Hkn; apply Hk; lia|].
  pose proof (runAttempt_spec body commit s1) as Hs. rewrite Hs1 in Hs.
  destruct (runAttempt body commit s1) as [[r|e] s2].
  - left. exists r, s2.2. by destruct Hs as (_ & ? & ?).
  - right. exists e. destruct Hs as [_ ?]. split; [done|]. split; [|done]. by apply Hlast.
Qed.

(** ** The hub *)
Record hub_ok (h : hub) : Prop := {
  hub_fresh stream set : listeners h !! stream = Some set → (set < next_set h)%nat;
  hub_apart a b set : listeners h !! a = Some set → listeners h !! b = Some set → a = b }.
Lemma newHub_ok : hub_ok newHub.
Proof. by split; intros; simplify_map_eq. Qed.
Lemma subscribe_ok stream wake h : hub_ok h → hub_ok (subscribe stream wake h).1.
Proof.
  intros [Hf Ha]. unfold subscribe. destruct (listeners h !! stream) as [set|] eqn:Hs; simpl; [by split|].
  split; simpl.
  - intros s set. rewrite lookup_insert_Some. intros [[<- <-]|[_ Hl]]; [lia|]. specialize (Hf _ _ Hl). lia.
  - intros a b set. rewrite !lookup_insert_Some. intros [[<- <-]|[? H1]] [[<- H2]|[? H2]]; try done.
    + specialize (Hf _ _ H2). lia.
    + subst. specialize (Hf _ _ H1). lia.
    + by eapply Ha.
Qed.
Lemma unsubscribe_ok stream wake set h : hub_ok h → hub_ok (unsubscribe stream wake set h).
Proof.
  intros [Hf Ha]. unfold unsubscribe. split; simpl; case_decide; try done;
    intros *; rewrite ?lookup_delete_Some; naive_solver.
Qed.

(** subscriptions.  Subscribing adds one wake to one Stream, once; calling
    the answered closure while its set is the Stream's own removes that wake and
    no other.  Every other Stream's listeners stay as they were. *)
Theorem wakeHub_subscriptions stream wake set h other :
  hub_ok h →
  listening (subscribe stream wake h).1 other =
    (if decide (other = stream) then addOnce wake (listening h stream) else listening h other) ∧
  (listeners h !! stream = Some set →
   listening (unsubscribe stream wake set h) other =
     (if decide (other = stream) then filter (λ w, w ≠ wake) (listening h stream) else listening h other)).
Proof.
  intros [Hf Ha]. split.
  - unfold subscribe, listening. destruct (listeners h !! stream) as [s0|] eqn:Hs; simpl.
    + destruct (decide (other = stream)) as [->|Hne].
      * rewrite Hs. simpl. unfold members_of. simpl. by rewrite lookup_insert_eq.
      * destruct (listeners h !! other) as [s1|] eqn:Ho; [|done]. simpl. unfold members_of. simpl.
        rewrite lookup_insert_ne; [done|]. intros ->. destruct Hne. by eapply Ha.
    + destruct (decide (other = stream)) as [->|Hne].
      * rewrite lookup_insert_eq. simpl. unfold members_of. simpl. rewrite lookup_insert_eq. done.
      * rewrite lookup_insert_ne by done. destruct (listeners h !! other) as [s1|] eqn:Ho; [|done].
        simpl. unfold members_of. simpl. rewrite lookup_insert_ne; [done|].
        specialize (Hf _ _ Ho). lia.
  - intros Hs. unfold unsubscribe, listening. simpl. rewrite Hs. simpl.
    destruct (decide (other = stream)) as [->|Hne].
    + destruct (decide (filter (λ w, w ≠ wake) (members_of h set) = [])) as [He|].
      * rewrite lookup_delete_eq. simpl. by rewrite He.
      * rewrite Hs. simpl. unfold members_of. simpl. by rewrite lookup_insert_eq.
    + assert ((if decide (filter (λ w, w ≠ wake) (members_of h set) = [])
               then delete stream (listeners h) else listeners h) !! other = listeners h !! other) as ->.
      { case_decide; [by rewrite lookup_delete_ne|done]. }
      destruct (listeners h !! other) as [s1|] eqn:Ho; [|done]. simpl. unfold members_of. simpl.
      rewrite lookup_insert_ne; [done|]. intros ->. destruct Hne. by eapply Ha.
Qed.
Lemma wakeHub_subscriptions_witness :
  let h := (subscribe "s" 1 newHub).1 in
  listening (subscribe "s" 2 h).1 "s" = [1%nat; 2%nat] ∧
  (listeners h !! "s"%string = Some 0%nat → listening (unsubscribe "s" 2 0 h) "s" = [1%nat]).
Proof.
  apply (wakeHub_subscriptions "s" 2 0 (subscribe "s" 1 newHub).1 "s").
  apply subscribe_ok, newHub_ok.
Defined.
(** Called twice, a closure can take away a later subscriber: its own set is
    empty, so it deletes the Stream's new one. *)
Lemma unsubscribe_twice_drops stream a b h :
  hub_ok h → listeners h !! stream = None →
  let '(h1, s1) := subscribe stream a h in
  let '(h2, s2) := subscribe stream b (unsubscribe stream a s1 h1) in
  listening h2 stream = [b] ∧ listening (unsubscribe stream a s1 h2) stream = [].
Proof.
  intros Hok Hs. unfold subscribe at 1. rewrite Hs. simpl.
  unfold subscribe, unsubscribe. simpl. unfold members_of. simpl. rewrite lookup_insert_eq. simpl.
  rewrite filter_cons_False by (by intros []). simpl. rewrite filter_nil. simpl.
  rewrite lookup_delete_eq. simpl. unfold listening; simpl. rewrite lookup_insert_eq. simpl.
  unfold members_of; simpl. rewrite lookup_insert_eq. split; [done|].
  rewrite lookup_insert_ne by lia. rewrite lookup_insert_eq. simpl. rewrite filter_nil. simpl.
  by rewrite lookup_delete_eq.
Qed.
