(* ===== verification/Instants.v ===== *)
(** Date-time identities: [zoned] and [instant] of
    [backend/server/bindings/effects.mts]. *)
From Stdlib Require Import Ascii.
From S2P Require Import Prelude Text Dates Json.
Open Scope Z_scope.
Open Scope axton_scope.

(** ** [ZONED.exec]

    Four or two decimal digits, a literal character, then the rest. *)
Fixpoint takeDigits (n : nat) (acc : Z) (s : string) : option (Z * string) :=
  match n, s with
  | O, _ => Some (acc, s)
  | S n, String c s => if isDigit c then takeDigits n (acc * 10 + (byte c - 48)) s else None
  | S _, EmptyString => None
  end.
Definition takeChar (code : Z) (s : string) : option string :=
  match s with String c s => if byte c =? code then Some s else None | EmptyString => None end.
Definition takeField (n : nat) (code : Z) (s : string) : option (Z * string) :=
  '(z, s) ← takeDigits n 0 s; s ← takeChar code s; Some (z, s).

Record zoned_parts := ZonedParts {
  z_year : Z; z_month : Z; z_day : Z; z_hour : Z; z_minute : Z; z_second : Z;
  z_fraction : string;                 (* its digits, empty when absent *)
  z_offset : option (bool * Z * Z) }.  (* negative, hours, minutes; [None] for Z *)
(** The fraction and the zone, which end the text.  A fraction has one to nine
    digits; the zone cannot start with one, so the match never backtracks. *)
Definition takeFraction (s : string) : option (string * string) :=
  match s with
  | String "." r =>
      let '(digits, r) := spanString isDigit r in
      if (1 <=? String.length digits)%nat && (String.length digits <=? 9)%nat then Some (digits, r) else None
  | _ => Some (EmptyString, s)
  end.
Definition takeZone (s : string) : option (option (bool * Z * Z)) :=
  match s with
  | String c r =>
      if (byte c =? 90) || (byte c =? 122) then
        match r with EmptyString => Some None | _ => None end
      else if (byte c =? 43) || (byte c =? 45) then
        '(h, r) ← takeField 2 58 r; '(m, r) ← takeDigits 2 0 r;
        match r with EmptyString => Some (Some (byte c =? 45, h, m)) | _ => None end
      else None
  | EmptyString => None
  end.
Definition zonedParts (s : string) : option zoned_parts :=
  '(year, s) ← takeField 4 45 s;
  '(month, s) ← takeField 2 45 s;
  '(day, s) ← takeField 2 84 s;
  '(hour, s) ← takeField 2 58 s;
  '(minute, s) ← takeField 2 58 s;
  '(second, s) ← takeDigits 2 0 s;
  '(fraction, s) ← takeFraction s;
  offset ← takeZone s;
  Some (ZonedParts year month day hour minute second fraction offset).

Definition zoned (s : string) : bool :=
  match zonedParts s with
  | None => false
  | Some p =>
      (1 <=? z_month p) && (z_month p <=? 12) && (1 <=? z_day p)
      && (z_day p <=? monthDays (leapYear (z_year p)) (z_month p))
      && (z_hour p <? 24) && (z_minute p <? 60) && (z_second p <? 60)
      && match z_offset p with Some (_, h, m) => (h <? 24) && (m <? 60) | None => true end
  end.
(** The first three digits of the fraction, padded with zeros. *)
Definition millisOf (fraction : string) : Z :=
  digitsValue 0 (String.substring 0 3 (fraction +:+ "000")).
Definition offsetOf (p : zoned_parts) : Z :=
  match z_offset p with
  | None => 0
  | Some (neg, h, m) => (if neg : bool then -1 else 1) * (h * 60 + m)
  end.
(** The time value [instant] prints. *)
Definition instantTime (p : zoned_parts) : Z :=
  makeTime (z_year p) (z_month p) (z_day p) (z_hour p) (z_minute p) (z_second p) (millisOf (z_fraction p))
  - offsetOf p * 60000.
(** [instant]: a text [ZONED] does not match has no parts to destructure. *)
Definition instant (s : string) : result string :=
  match zonedParts s with
  | Some p => Ok (toISOString (instantTime p))
  | None => Throw (TypeError "Cannot read properties of null")
  end.

Example instant_ex : instant "2024-02-29T23:30:00.1239-01:30" = Ok "2024-03-01T01:00:00.123Z".
Proof. vm_compute. reflexivity. Qed.

(** ** Reading printed fields back *)
Lemma takeDigits_table n width :
  forallb (λ z, match takeDigits width 0 (digits width z) with Some (y, EmptyString) => z =? y | _ => false end)
    (range 0 n) = true →
  ∀ z, 0 ≤ z < Z.of_nat n → takeDigits width 0 (digits width z) = Some (z, EmptyString).
Proof.
  intros Ht z Hz. rewrite forallb_forall in Ht.
  specialize (Ht z ltac:(apply list_elem_of_In, elem_of_range; lia)).
  destruct (takeDigits width 0 (digits width z)) as [[y [|]]|]; try done. apply Z.eqb_eq in Ht. by subst.
Qed.
Lemma takeDigits_app width acc s t z :
  takeDigits width acc s = Some (z, EmptyString) → takeDigits width acc (s +:+ t) = Some (z, t).
Proof.
  revert acc s. induction width as [|w IH]; intros acc s; simpl.
  - by intros [= -> ->].
  - destruct s as [|c s]; [done|]. rewrite string_app_cons. destruct (isDigit c); [apply IH|done].
Qed.
Lemma takeDigits_4 z t : 0 ≤ z ≤ 9999 → takeDigits 4 0 (digits 4 z +:+ t) = Some (z, t).
Proof.
  intros. apply takeDigits_app, (takeDigits_table (Z.to_nat 10000)); [vm_compute; reflexivity|lia].
Qed.
Lemma takeDigits_2 z t : 0 ≤ z < 100 → takeDigits 2 0 (digits 2 z +:+ t) = Some (z, t).
Proof.
  intros. apply takeDigits_app, (takeDigits_table 100); [vm_compute; reflexivity|lia].
Qed.
Lemma millisOf_digits z : 0 ≤ z < 1000 → millisOf (digits 3 z) = z.
Proof.
  intros Hz. assert (forallb (λ z, millisOf (digits 3 z) =? z) (range 0 1000) = true) as Ht
    by (vm_compute; reflexivity).
  rewrite forallb_forall in Ht. apply Z.eqb_eq, Ht, list_elem_of_In, elem_of_range. lia.
Qed.
Lemma takeFraction_3 z : 0 ≤ z < 1000 →
  takeFraction ("." +:+ digits 3 z +:+ "Z") = Some (digits 3 z, "Z"%string).
Proof.
  intros Hz. assert (forallb (λ z, match takeFraction ("." +:+ digits 3 z +:+ "Z") with
    | Some (a, b) => String.eqb a (digits 3 z) && String.eqb b "Z" | None => false end) (range 0 1000) = true)
    as Ht by (vm_compute; reflexivity).
  rewrite forallb_forall in Ht.
  specialize (Ht z ltac:(apply list_elem_of_In, elem_of_range; lia)).
  destruct (takeFraction _) as [[a b]|]; [|done].
  apply andb_true_iff in Ht as [->%String.eqb_eq ->%String.eqb_eq]. done.
Qed.
Lemma takeField_2 z code c t : 0 ≤ z < 100 → byte c = code →
  takeField 2 code (digits 2 z +:+ String c EmptyString +:+ t) = Some (z, t).
Proof.
  intros Hz Hc. unfold takeField. rewrite takeDigits_2 by done.
  cbn [mbind option_bind takeChar String.append]. rewrite string_app_cons. simpl. by rewrite Hc, Z.eqb_refl.
Qed.
Lemma takeField_4 z code c t : 0 ≤ z ≤ 9999 → byte c = code →
  takeField 4 code (digits 4 z +:+ String c EmptyString +:+ t) = Some (z, t).
Proof.
  intros Hz Hc. unfold takeField. rewrite takeDigits_4 by done.
  cbn [mbind option_bind takeChar String.append]. rewrite string_app_cons. simpl. by rewrite Hc, Z.eqb_refl.
Qed.
Lemma zonedParts_iso t :
  0 ≤ civil_year (civilOf t) ≤ 9999 →
  let c := civilOf t in
  zonedParts (toISOString t) = Some (ZonedParts (civil_year c) (civil_month c) (civil_day c)
    (civil_hour c) (civil_minute c) (civil_second c) (digits 3 (civil_millis c)) None).
Proof.
  intros Hy c. pose proof (civilOf_valid t) as (Hm & Hd & Hh & Hmi & Hs & Hms).
  assert (monthDays (leapYear (civil_year (civilOf t))) (civil_month (civilOf t)) ≤ 31)
    as Hday by (unfold monthDays; repeat case_match; lia).
  unfold zonedParts, toISOString. cbv zeta. fold c in Hday, Hy, Hm, Hd, Hh, Hmi, Hs, Hms |- *. unfold isoYear.
  rewrite !(proj2 (Z.leb_le _ _)) by lia. cbn [andb].
  rewrite takeField_4 by (done || lia). cbn [mbind option_bind].
  rewrite (takeField_2 (civil_month c)) by (done || lia). cbn [mbind option_bind].
  rewrite (takeField_2 (civil_day c)) by (done || lia). cbn [mbind option_bind].
  rewrite (takeField_2 (civil_hour c)) by (done || lia). cbn [mbind option_bind].
  rewrite (takeField_2 (civil_minute c)) by (done || lia). cbn [mbind option_bind].
  rewrite takeDigits_2 by lia. cbn [mbind option_bind]. rewrite takeFraction_3 by lia. done.
Qed.

Lemma instant_iso t :
  0 ≤ civil_year (civilOf t) ≤ 9999 → instant (toISOString t) = Ok (toISOString t).
Proof.
  intros Hy. pose proof (zonedParts_iso _ Hy) as Hiso. cbv zeta in Hiso.
  pose proof (civilOf_valid t) as (Hm & Hd & Hh & Hmi & Hs & Hms).
  unfold instant. rewrite Hiso. f_equal. f_equal. unfold instantTime, offsetOf.
  cbn [z_month z_day z_hour z_minute z_second z_offset z_year z_fraction].
  rewrite millisOf_digits by lia. rewrite <- (timeOf_civilOf t) at 8. unfold timeOf. lia.
Qed.
Lemma zonedParts_digit c s : isDigit c = false → zonedParts (String c s) = None.
Proof. intros H. unfold zonedParts, takeField. cbn [takeDigits]. by rewrite H. Qed.
(** A printed time value is read back only with a four-digit year. *)
Lemma zonedParts_year t p : zonedParts (toISOString t) = Some p → 0 ≤ civil_year (civilOf t) ≤ 9999.
Proof.
  intros H. destruct (decide (0 ≤ civil_year (civilOf t) ≤ 9999)) as [|Hn]; [done|exfalso].
  unfold toISOString, isoYear in H. cbv zeta in H.
  assert ((0 <=? civil_year (civilOf t)) && (civil_year (civilOf t) <=? 9999) = false) as Hb
    by (apply andb_false_iff; rewrite !Z.leb_gt; lia).
  rewrite Hb in H. destruct (_ <? 0); rewrite string_app_assoc, string_app_cons, zonedParts_digit in H; done.
Qed.
Lemma instant_again s c : instant s = Ok c → zoned c = true → instant c = Ok c.
Proof.
  intros Hs Hz. assert (∃ t, c = toISOString t) as [t ->].
  { unfold instant in Hs. destruct (zonedParts s) as [p|]; simplify_eq. by eexists. }
  apply instant_iso. unfold zoned in Hz. destruct (zonedParts (toISOString t)) as [q|] eqn:Hq; [|done].
  by apply zonedParts_year in Hq.
Qed.

(** [instant] is a canonical form.  On any date-time [zoned] accepts whose
    UTC instant falls in the years 0 to 9999, it answers a date-time [zoned]
    accepts and [instant] itself answers unchanged; two accepted texts of one
    instant (to the millisecond) get the same spelling. *)
Theorem instant_canonical s p :
  zoned s = true → zonedParts s = Some p → 0 ≤ civil_year (civilOf (instantTime p)) ≤ 9999 →
  ∃ c, instant s = Ok c ∧ zoned c = true ∧ instant c = Ok c ∧
    ∀ s' p', zonedParts s' = Some p' → instantTime p' = instantTime p → instant s' = Ok c.
Proof.
  intros Hz Hp Hy. exists (toISOString (instantTime p)).
  pose proof (zonedParts_iso _ Hy) as Hiso. cbv zeta in Hiso.
  pose proof (civilOf_valid (instantTime p)) as (Hm & Hd & Hh & Hmi & Hs & Hms).
  split; [unfold instant; by rewrite Hp|]. split; [|split].
  - unfold zoned. rewrite Hiso. cbn [z_month z_day z_hour z_minute z_second z_offset z_year].
    rewrite !andb_true_iff, !Z.leb_le, !Z.ltb_lt. lia.
  - by apply instant_iso.
  - intros s' p' Hp' Heq. unfold instant. by rewrite Hp', Heq.
Qed.
Lemma instant_canonical_witness :
  ∃ c, instant "2024-02-29T23:30:00.1239-01:30" = Ok c ∧ zoned c = true ∧ instant c = Ok c ∧
    ∀ s' p', zonedParts s' = Some p' → instantTime p' = 1709254800123 → instant s' = Ok c.
Proof.
  apply (instant_canonical "2024-02-29T23:30:00.1239-01:30"
    (ZonedParts 2024 2 29 23 30 0 "1239" (Some (true, 1, 30)))); [vm_compute; reflexivity..|].
  vm_compute. split; discriminate.
Defined.

(** outside those years the answer is not canonical.  A date-time accepted
    in year 0 or 9999 whose offset carries it out of the range is answered with
    a six-digit year, which [zoned] refuses and [instant] cannot read again. *)
Theorem instant_leaves_range :
  zoned "9999-12-31T23:59:59-00:01" = true ∧
  instant "9999-12-31T23:59:59-00:01" = Ok "+010000-01-01T00:00:59.000Z" ∧
  zoned "+010000-01-01T00:00:59.000Z" = false ∧
  instant "+010000-01-01T00:00:59.000Z" = Throw (TypeError "Cannot read properties of null") ∧
  zoned "0000-01-01T00:00:00+00:01" = true ∧
  instant "0000-01-01T00:00:00+00:01" = Ok "-000001-12-31T23:59:00.000Z" ∧
  zoned "-000001-12-31T23:59:00.000Z" = false.
Proof. vm_compute. tauto. Qed.
