(* ===== verification/Effects.v ===== *)
(** Record declarations: the shared half of
    [backend/server/bindings/effects.mts].

    The configured Models are validated once ([entriesOf]); a declaration
    resolves its record references against them ([reference], [list]) into owned
    identities, each component encoded and then spelled canonically. *)
From Stdlib Require Import Ascii.
From S2P Require Import Prelude Text Dates Json Instants.
Open Scope Z_scope.
Open Scope axton_scope.

(** [lowerFirst], on names that start with an ASCII character, as the
    identifiers of a compiled schema do. *)
Definition lowerChar (c : ascii) : ascii :=
  if (65 <=? byte c) && (byte c <=? 90) then char (byte c + 32) else c.
Definition lowerFirst (name : string) : string :=
  match name with String c s => String (lowerChar c) s | EmptyString => EmptyString end.
(** [String.prototype.toLowerCase] of an ASCII text. *)
Fixpoint toLowerCase (s : string) : string :=
  match s with String c s => String (lowerChar c) (toLowerCase s) | EmptyString => EmptyString end.

(** [`${JSON.stringify(value)}`] *)
Definition jsonText (v : value) : result string :=
  t ← serialize Ok v; Ok (default "undefined" t).

(** ** [UUID.test], a character class per position *)
Definition hexClass (c : ascii) : bool := match hexValue c with Some _ => true | None => false end.
Definition oneOf (s : string) (c : ascii) : bool :=
  existsb (λ z, z =? byte c) (bytes s).
Definition uuidPattern : list (ascii → bool) :=
  replicate 8 hexClass ++ [oneOf "-"] ++ replicate 4 hexClass ++ [oneOf "-"]
  ++ [oneOf "12345678"] ++ replicate 3 hexClass ++ [oneOf "-"]
  ++ [oneOf "89abAB"] ++ replicate 3 hexClass ++ [oneOf "-"] ++ replicate 12 hexClass.
Fixpoint matches (pattern : list (ascii → bool)) (s : string) : bool :=
  match pattern, s with
  | [], EmptyString => true
  | p :: pattern, String c s => p c && matches pattern s
  | _, _ => false
  end.
Definition isUuid (s : string) : bool := matches uuidPattern s.

(** ** Identity components *)
Inductive component :=
| CEnum (values : list string) | CString | CUuid | CBoolean | CInt | CFloat | CDateTime.

Definition expected (c : component) : string :=
  match c with
  | CEnum values => "one of " +:+ String.concat ", " values
  | CString => "a string"
  | CUuid => "a UUID (36 characters, RFC 4122 variant, version 1 to 8)"
  | CBoolean => "a boolean"
  | CInt => "a safe integer"
  | CFloat => "a finite number"
  | CDateTime => "a valid Date or a zoned RFC 3339 date-time string"
  end.
(** [encode]: [None] is [INVALID]. *)
Definition encode (c : component) (v : value) : option value :=
  match c, v with
  | CEnum values, VStr s => if bool_decide (s ∈ values) then Some v else None
  | CString, VStr _ => Some v
  | CUuid, VStr s => if isUuid s then Some v else None
  | CBoolean, VBool _ => Some v
  | CInt, _ => if isSafeInteger v then Some v else None
  | CFloat, VNum n => if isFinite n then Some v else None
  | CDateTime, VDate (Some t) => if zoned (toISOString t) then Some (VStr (toISOString t)) else None
  | CDateTime, VStr s => if zoned s then Some v else None
  | _, _ => None
  end.
(** [spell]: how an encoded component is spelled canonically. *)
Definition spell (c : component) (v : value) : result value :=
  match c, v with
  | CUuid, VStr s => Ok (VStr (toLowerCase s))
  | CDateTime, VStr s => t ← instant s; Ok (VStr t)
  | CUuid, _ | CDateTime, _ => Throw (TypeError "not a function")
  | _, _ => Ok v
  end.

(** A configured Model and enum, as the compiled schema holds them. *)
Record effect_model := EffectModel {
  m_name : value; m_identity : option (list string); m_fields : list (string * value) }.
Definition effect_enum : Type := string * option (list string).

(** [new Map(enums.map((en) => [en.name, en.values ?? []]))]: the last wins. *)
Definition enumValues (enums : list effect_enum) (name : string) : option (list string) :=
  fieldOf name ((λ en, (en.1, default [] en.2)) <$> reverse enums).

Definition componentOf (model field : string) (type : value) (enums : list effect_enum) : result component :=
  let kind := get type "kind" in
  let name := get type "name" in
  let unsupported :=
    text ← jsonText type;
    raise (model +:+ " identity field " +:+ field +:+ " has an unsupported type " +:+ text) in
  match kind with
  | VStr "enum" =>
      match (match name with VStr n => enumValues enums n | _ => None end) with
      | Some values => Ok (CEnum values)
      | None => raise (model +:+ " identity field " +:+ field
                       +:+ " names an enum the configuration does not declare")
      end
  | VStr "scalar" =>
      match name with
      | VStr "string" => Ok CString
      | VStr "uuid" => Ok CUuid
      | VStr "boolean" => Ok CBoolean
      | VStr "int" => Ok CInt
      | VStr "float" => Ok CFloat
      | VStr "dateTime" => Ok CDateTime
      | _ => unsupported
      end
  | _ => unsupported
  end.

(** ** [entriesOf] *)
Definition identity : Type := list (string * value).
Record entry := Entry {
  e_name : string; e_key : string; e_components : list (string * component) }.
(** [entry.scalar], falsy unless the identity is one named field. *)
Definition scalar (e : entry) : option string :=
  match e_components e with
  | [(field, _)] => if String.eqb field EmptyString then None else Some field
  | _ => None
  end.

Definition entryOf (enums : list effect_enum) (name : string) (m : effect_model) : result entry :=
  match m_identity m with
  | None | Some [] => raise ("Model " +:+ name +:+ " declares no identity fields")
  | Some fields =>
      components ← mapM (λ field,
        match fieldOf field (m_fields m) with
        | None => raise (name +:+ " identity field " +:+ field +:+ " is not one of its fields")
        | Some type => c ← componentOf name field type enums; Ok (field, c)
        end) fields;
      Ok (Entry name (lowerFirst name) components)
  end.
(** [owners] maps the accessors taken so far to their Models. *)
Fixpoint entriesFrom (enums : list effect_enum) (owners : list (string * string))
    (models : list effect_model) : result (list entry) :=
  match models with
  | [] => Ok []
  | m :: rest =>
      match m_name m with
      | VStr name =>
          guard! negb (String.eqb name EmptyString) else raise "every Model descriptor needs a name";
          let key := lowerFirst name in
          match fieldOf key owners with
          | Some other => raise ("Models " +:+ other +:+ " and " +:+ name
              +:+ " both generate the accessor " +:+ key +:+ "; rename one")
          | None =>
              e ← entryOf enums name m;
              entries ← entriesFrom enums ((key, name) :: owners) rest;
              Ok (e :: entries)
          end
      | _ => raise "every Model descriptor needs a name"
      end
  end.
Definition entriesOf (models : list effect_model) (enums : list effect_enum) : result (list entry) :=
  entriesFrom enums [] models.

(** [canonical]: every component spelled canonically, in identity order. *)
Definition canonical (e : entry) (id : identity) : result identity :=
  mapM (λ fc, v ← spell fc.2 (default VUndef (fieldOf fc.1 id)); Ok (fc.1, v)) (e_components e).
Definition encodeField (e : entry) (v : value) (caller : string) (fc : string * component)
    : result (string * value) :=
  let raw := get v fc.1 in
  if nullish raw then
    raise (caller +:+ ": " +:+ e_name e +:+ " identity field " +:+ fc.1 +:+ " is missing")
  else match encode fc.2 raw with
       | None => raise (caller +:+ ": " +:+ e_name e +:+ " identity field " +:+ fc.1
                        +:+ " must be " +:+ expected fc.2)
       | Some encoded => Ok (fc.1, encoded)
       end.
Definition snapshot (e : entry) (v : value) (caller : string) : result identity :=
  guard! isObject v else raise (caller +:+ ": " +:+ e_name e +:+ " identity must be an object");
  copy ← mapM (encodeField e v caller) (e_components e);
  canonical e copy.

(** ** [declarationsOf] *)
Record declarations_of := DeclarationsOf {
  d_entries : list entry; d_loaded : option (list string) }.

Definition publishable (d : declarations_of) (model caller : string) : result unit :=
  match d_loaded d with
  | Some loaded =>
      if bool_decide (model ∈ loaded) then Ok tt
      else raise (caller +:+ ": Model " +:+ model
                  +:+ " has no Loader, so it is device-only and cannot be published")
  | None => Ok tt
  end.
(** [byName.get] *)
Definition byName (d : declarations_of) (model : string) : option entry :=
  find (λ e, String.eqb (e_name e) model) (d_entries d).
Definition reference (d : declarations_of) (v : value) (caller : string) : result (entry * identity) :=
  match isObject v, get v "model" with
  | true, VStr model =>
      match byName d model with
      | None => raise (caller +:+ ": unknown Model " +:+ model)
      | Some e =>
          _ ← publishable d model caller;
          id ← snapshot e (get v "identity") caller;
          Ok (e, id)
      end
  | _, _ => raise (caller
      +:+ ": each element must be a record reference such as Todo({ id }); a raw identity names no Model")
  end.
Definition listOf (d : declarations_of) (records : value) (caller : string)
    : result (list (entry * identity)) :=
  match records with
  | VArr items => mapM (λ v, reference d v caller) items
  | _ => raise (caller +:+ ": expected an array of record references")
  end.
Definition streamName (name : value) : result unit :=
  match name with
  | VStr s => if blank s then raise "stream: a Stream name must be a nonblank string" else Ok tt
  | _ => raise "stream: a Stream name must be a nonblank string"
  end.
Definition declarationsOf (models : list effect_model) (enums : list effect_enum)
    (loaded : option (list string)) : result declarations_of :=
  entries ← entriesOf models enums; Ok (DeclarationsOf entries loaded).

(** [LONE_SURROGATE.test] *)
Fixpoint loneSurrogate (s : string) : bool :=
  match s with
  | EmptyString => false
  | String c s1 =>
      match s1 with
      | String c1 (String c2 _) => surrogate c c1 c2 || loneSurrogate s1
      | _ => false
      end
  end.

(** ** [canonicalJson] *)

(** UTF-16 code units, whose order [Array.prototype.sort] follows. *)
Definition units (s : string) : list Z :=
  concat ((λ cp, if cp <? 0x10000 then [cp]
                 else [0xD800 + (cp - 0x10000) / 1024; 0xDC00 + (cp - 0x10000) mod 1024]) <$> codePoints s).
Fixpoint insertKey {A} (x : string * A) (l : list (string * A)) : list (string * A) :=
  match l with
  | [] => [x]
  | y :: l' => match lex (units x.1) (units y.1) with Gt => y :: insertKey x l' | _ => x :: l end
  end.
Definition sortKeys {A} (l : list (string * A)) : list (string * A) := foldr insertKey [] l.

Fixpoint canonicalJson (v : value) : result string :=
  match v with
  | VArr items =>
      parts ← (fix go l := match l with
        | [] => Ok []
        | x :: l' => text ← canonicalJson x; texts ← go l'; Ok (text :: texts)
        end) items;
      Ok ("[" +:+ String.concat "," parts +:+ "]")
  | VObj fields =>
      members ← (fix go l := match l with
        | [] => Ok []
        | (key, x) :: l' => text ← canonicalJson x; texts ← go l'; Ok ((key, text) :: texts)
        end) fields;
      Ok ("{" +:+ String.concat "," ((λ m, member m.1 m.2) <$> sortKeys members) +:+ "}")
  | VDate _ => Ok "{}"
  | _ => text ← leafText v; Ok (default "undefined" text)
  end.

(** An intent of the host contract: a tracked Stream/record pair, or an
    invalidated record with its selected Streams. *)
Inductive intent :=
| Track (stream model : string) (id : identity)
| Invalidate (streams : option (list string)) (model : string) (id : identity).
Definition recordValue (model : string) (id : identity) : value :=
  VObj [("model", VStr model); ("identity", VObj id)].
Definition intentValue (i : intent) : value :=
  match i with
  | Track stream model id =>
      VObj [("kind", VStr "track"); ("stream", VStr stream); ("record", recordValue model id)]
  | Invalidate streams model id =>
      VObj [("kind", VStr "invalidate");
            ("streams", match streams with Some l => VArr (VStr <$> l) | None => VNull end);
            ("record", recordValue model id)]
  end.
Definition enrollmentBytes (i : intent) : result Z :=
  text ← canonicalJson (intentValue i); Ok (Z.of_nat (String.length text)).

(** ** Snapshots are canonical *)
Lemma lowerChar_idem c : lowerChar (lowerChar c) = lowerChar c.
Proof. destruct c as [[] [] [] [] [] [] [] []]; reflexivity. Qed.
Lemma toLowerCase_idem s : toLowerCase (toLowerCase s) = toLowerCase s.
Proof. induction s as [|c s IH]; simpl; [done|]. by rewrite lowerChar_idem, IH. Qed.

Lemma encode_spell c v w x : encode c v = Some w → spell c w = Ok x →
  (c = CDateTime → ∃ s, x = VStr s ∧ zoned s = true) → spell c x = Ok x.
Proof.
  intros He Hs Hz. destruct c, w; cbn in Hs; simplify_eq; try done.
  - cbn. by rewrite toLowerCase_idem.
  - destruct (instant s) as [t|] eqn:Ht; [|done]. cbn in Hs. simplify_eq.
    destruct (Hz eq_refl) as (u & [= ->] & Hu). cbn. by rewrite (instant_again _ _ Ht Hu).
Qed.
Lemma fields_keys {A} (g : string * component → result (string * A)) l k :
  (∀ fc p, g fc = Ok p → p.1 = fc.1) → mapM g l = Ok k → k.*1 = l.*1.
Proof.
  intros Hg. rewrite mapM_Ok. induction 1 as [|fc p l k Hp _ IH]; [done|]. cbn.
  by rewrite IH, (Hg _ _ Hp).
Qed.
(** A component of an identity: found by its field, whatever the order. *)
Lemma fields_lookup {A} (g : string * component → result (string * A)) l k fc p :
  (∀ fc p, g fc = Ok p → p.1 = fc.1) → mapM g l = Ok k → NoDup l.*1 →
  fc ∈ l → g fc = Ok p → fieldOf fc.1 k = Some p.2.
Proof.
  intros Hg Hm Hd Hin Hp. apply fieldOf_NoDup; [by rewrite (fields_keys _ _ _ Hg Hm)|].
  apply mapM_Ok in Hm. apply list_elem_of_lookup in Hin as [i Hi].
  destruct (Forall2_lookup_l _ _ _ _ _ Hm Hi) as (q & Hq & Hgq).
  rewrite Hp in Hgq. simplify_eq. rewrite <- (Hg _ _ Hp), <- surjective_pairing.
  by eapply list_elem_of_lookup_2.
Qed.
Lemma canonical_key (e : entry) (id : identity) (fc : string * component) (p : string * value) :
  (v ← spell fc.2 (default VUndef (fieldOf fc.1 id)); Ok (fc.1, v)) = Ok p → p.1 = fc.1.
Proof. destruct (spell _ _); [|done]. by intros [= <-]. Qed.
Lemma encodeField_key e v caller fc p : encodeField e v caller fc = Ok p → p.1 = fc.1.
Proof.
  unfold encodeField. destruct (nullish _); [done|]. destruct (encode _ _); [|done]. by intros [= <-].
Qed.
(** Every date of an identity is one [zoned] accepts. *)
Definition datesInRange (e : entry) (id : identity) : Prop :=
  ∀ field, (field, CDateTime) ∈ e_components e → ∃ s, fieldOf field id = Some (VStr s) ∧ zoned s = true.

(** An owned identity is canonical.  Resolving a reference spells every
    component so that spelling it again changes nothing, hence two spellings
    of one record (the case of a UUID, the zone of an instant) enroll as the
    same pair; the exception is a date carried out of the four-digit years. *)
Theorem snapshot_canonical e v caller id :
  NoDup (e_components e).*1 → snapshot e v caller = Ok id → datesInRange e id →
  canonical e id = Ok id.
Proof.
  intros Hd Hs Hz. unfold snapshot in Hs. destruct (isObject v); [|done].
  destruct (mapM (encodeField e v caller) _) as [copy|] eqn:Hc; [|done]. cbn [mbind result_bind] in Hs.
  unfold canonical in *. apply mapM_Ok. pose proof Hs as Hm. apply mapM_Ok in Hm.
  apply Forall2_same_length_lookup. split; [by eapply Forall2_length|].
  intros i fc p Hfc Hp. pose proof (Forall2_lookup_lr _ _ _ _ _ _ Hm Hfc Hp) as Hfp.
  assert (fc ∈ e_components e) as Hin by (by eapply list_elem_of_lookup_2).
  rewrite (fields_lookup _ _ _ _ _ (canonical_key e copy) Hs Hd Hin Hfp).
  destruct fc as [field c]. cbn [fst snd] in *.
  pose proof Hc as Hce. apply mapM_Ok in Hce. destruct (Forall2_lookup_l _ _ _ _ _ Hce Hfc) as (q & Hq & Heq).
  pose proof (fields_lookup _ _ _ _ _ (encodeField_key e v caller) Hc Hd Hin Heq) as Hlook.
  cbn [fst] in Hlook. rewrite Hlook in Hfp. change (default VUndef (Some q.2)) with q.2 in Hfp.
  destruct (spell c q.2) as [x|] eqn:Hx; [|done]. cbn in Hfp. simplify_eq. change (default VUndef (Some (field, x).2)) with x.
  unfold encodeField in Heq. cbn [fst snd] in Heq. destruct (nullish _); [done|].
  destruct (encode c (get v field)) as [w|] eqn:Hw; [|done]. simplify_eq. cbn [snd] in Hx.
  rewrite (encode_spell _ _ _ _ Hw Hx); [done|].
  intros ->. destruct (Hz _ Hin) as (s & Hsz & Hzz). exists s. split; [|done].
  pose proof (fields_lookup _ _ _ _ (field, x) (canonical_key e copy) Hs Hd Hin) as Hid.
  cbn [fst snd] in Hid. rewrite Hid in Hsz; [by simplify_eq|].
  rewrite Hlook. cbn. cbn in Hx. by rewrite Hx.
Qed.
Definition demo_entry : entry := Entry "Event" "event" [("id", CUuid); ("at", CDateTime)].
Definition demo_event : value :=
  VObj [("id", VStr "0190A5B4-7C1E-7D10-8F00-0123456789AB"); ("at", VStr "2024-02-29T23:30:00-01:30")].
Lemma snapshot_canonical_witness :
  canonical demo_entry [("id", VStr "0190a5b4-7c1e-7d10-8f00-0123456789ab"); ("at", VStr "2024-03-01T01:00:00.000Z")] =
  Ok [("id", VStr "0190a5b4-7c1e-7d10-8f00-0123456789ab"); ("at", VStr "2024-03-01T01:00:00.000Z")].
Proof.
  apply (snapshot_canonical demo_entry demo_event "invalidate").
  - apply NoDup_ListNoDup. repeat constructor; simpl; intuition congruence.
  - vm_compute. reflexivity.
  - intros field Hf. cbn in Hf. rewrite !elem_of_cons in Hf. destruct Hf as [Hf|[Hf|Hf]]; simplify_eq.
    + exists "2024-03-01T01:00:00.000Z"%string. split; vm_compute; reflexivity.
    + by apply not_elem_of_nil in Hf.
Defined.

Example entries_ex : entriesOf
  [EffectModel (VStr "Todo") (Some ["id"]) [("id", VObj [("kind", VStr "scalar"); ("name", VStr "uuid")])]] [] =
  Ok [Entry "Todo" "todo" [("id", CUuid)]].
Proof. vm_compute. reflexivity. Qed.
