(* ===== verification/Streams.v ===== *)
(** Stream handles and collectors: [backend/server/api/stream.mts] over the
    interface [collector], and the two collectors of
    [backend/server/bindings/effects.mts] that implement it, [effectsFor] (a
    Mutation or a transaction) and [trackingEffectsFor] (a Load or Bootstrap). *)
From S2P Require Import Prelude Text Dates Json Instants Effects.
Open Scope Z_scope.
Open Scope axton_scope.

(** ** [StreamCollector] *)
Record collector (S : Type) := Collector {
  c_entries : list entry;
  c_guard : ∀ A : Type, io S A → io S A;
  c_check : string → io S unit;
  c_name : value → io S unit;
  c_publishable : string → string → result unit;
  c_list : value → string → result (list (entry * identity));
  c_record : list intent → string → io S unit }.
Arguments Collector {S}.
Arguments c_entries {S}.
Arguments c_guard {S} _ {A}.
Arguments c_check {S}.
Arguments c_name {S}.
Arguments c_publishable {S}.
Arguments c_list {S}.
Arguments c_record {S}.

(** [Array.isArray(value) ? value : [value]] *)
Definition arrayed (v : value) : list value := match v with VArr l => l | _ => [v] end.
(** A scalar stands for the identity object of a one-field Model. *)
Definition wrapScalar (e : entry) (v : value) : value :=
  match scalar e, v with
  | Some _, VArr _ | Some _, VObj _ | None, _ => v
  | Some field, _ => VObj [(field, v)]
  end.

Section streams.
Context {S : Type}.
Variable c : collector S.

Definition operands (v : value) (caller : string) (e : option entry) : io S (list (string * identity)) :=
  _ ← c_check c caller;
  match e with
  | None =>
      resolved ← check (c_list c (VArr (arrayed v)) caller);
      mret ((λ r, (e_name r.1, r.2)) <$> resolved)
  | Some e =>
      _ ← check (c_publishable c (e_name e) caller);
      check (mapM (λ v, id ← snapshot e (wrapScalar e v) caller; Ok (e_name e, id)) (arrayed v))
  end.
(** A call of the namespace, or of one of its members, the accessor of a Model. *)
Definition namespace (caller : string) (body : list (string * identity) → io S unit)
    (accessor : option string) (v : value) : io S unit :=
  match accessor with
  | None => c_guard c (records ← operands v caller None; body records)
  | Some key =>
      match find (λ e, String.eqb (e_key e) key) (c_entries c) with
      | Some e => c_guard c (records ← operands v (caller +:+ "." +:+ key) (Some e); body records)
      | None => throw (TypeError "not a function")
      end
  end.
Definition streamInvalidate (streams : option (list string)) : option string → value → io S unit :=
  namespace "invalidate" (λ records, c_record c
    (match streams with
     | Some [] => []
     | _ => (λ r, Invalidate streams r.1 r.2) <$> records
     end) "invalidate").
(** The names a handle is made over; the handle itself is these names. *)
Definition streamHandle (v : value) : io S (list string) :=
  c_guard c (
    _ ← c_check c "stream";
    match v with
    | VStr _ | VArr _ =>
        names ← mapM (λ name,
          _ ← c_name c name;
          match name with VStr s => mret s | _ => throw (TypeError "not a string") end) (arrayed v);
        mret (uniq names)
    | _ => throw (Error "stream: names must be a string or array")
    end).
Definition tracks (names : list string) (records : list (string * identity)) : list intent :=
  stream ← names; (λ r, Track stream r.1 r.2) <$> records.
Definition streamTrack (names : list string) : option string → value → io S unit :=
  namespace "stream.track" (λ records, c_record c (tracks names records) "stream.track").
End streams.

Definition closedError (caller : string) : exn :=
  Error (caller +:+ ": the callback has settled and its declarations are closed").

(** ** [effectsFor] *)
Record effects := Effects { open : bool; declarations : list intent }.
Definition newEffects : effects := Effects true [].
Definition effectsCollector (d : declarations_of) : collector effects :=
  Collector (d_entries d) (λ A body, body)
    (λ caller s, if open s then (Ok tt, s) else (Throw (closedError caller), s))
    (λ name, check (streamName name))
    (publishable d) (listOf d)
    (λ intents _, modify (λ s, Effects (open s) (declarations s ++ intents))).
Definition settlement (s : effects) : list intent := declarations s.
Definition close (s : effects) : effects := Effects false (declarations s).

(** ** [trackingEffectsFor] *)
Definition LOAD_ENROLLMENT_PAIRS : Z := 1000.
Definition LOAD_ENROLLMENT_BYTES : Z := 1024 * 1024.
Inductive failure_kind := Overflow | Invalid.
Record tracking := Tracking {
  t_open : bool; t_failed : option (failure_kind * exn);
  t_pairs : list (string * intent); t_bytes : Z }.
Definition newTracking : tracking := Tracking true None [] 0.

Definition kindOf (e : exn) : failure_kind :=
  match e with EnrollmentOverflow _ => Overflow | _ => Invalid end.
(** The first overflow, else the first refusal. *)
Definition keepFailure (e : exn) (s : tracking) : tracking :=
  match t_failed s, kindOf e with
  | None, k | Some (Invalid, _), Overflow as k => Tracking (t_open s) (Some (k, e)) (t_pairs s) (t_bytes s)
  | Some _, _ => s
  end.
Definition declare {A} (body : io tracking A) : io tracking A :=
  catch body (λ e s, (Throw e, keepFailure e s)).
Definition trackingOpen (caller : string) : io tracking unit :=
  λ s, if t_open s then (Ok tt, s) else (Throw (closedError caller), s).
Definition trackingName (name : value) : result unit :=
  _ ← streamName name;
  match name with
  | VStr s => if loneSurrogate s
              then raise "stream: a Stream name must be Unicode text, without a lone surrogate" else Ok tt
  | _ => Ok tt
  end.

Section enrollment.
Variable d : declarations_of.
Variable page : bool.

(** One intent resolved: its key and the captured declaration. *)
Definition captured (caller : string) (i : intent) : result (string * intent) :=
  match i with
  | Invalidate _ _ _ => raise "Load streams only track records"
  | Track stream model id =>
      match byName d model with
      | None => Throw (TypeError "Cannot read properties")
      | Some e =>
          id ← canonical e id;
          guard! negb (existsb (λ p, match p.2 with VStr s => loneSurrogate s | _ => false end) id)
          else raise (caller +:+ ": identity must be Unicode text, without a lone surrogate");
          key ← canonicalJson (VArr [VStr stream; VStr (e_name e); VObj id]);
          Ok (key, Track stream (e_name e) id)
      end
  end.
Definition known {A} (key : string) (l : list (string * A)) : bool :=
  match fieldOf key l with Some _ => true | None => false end.
(** The loop of [record]: [fresh] pairs of [more] bytes, beside those of [s]. *)
Fixpoint enroll (s : tracking) (caller : string) (intents : list intent)
    (fresh : list (string * intent)) (more : Z) : result (list (string * intent) * Z) :=
  match intents with
  | [] => Ok (fresh, more)
  | i :: rest =>
      '(key, intent) ← captured caller i;
      if known key (t_pairs s) || known key fresh then enroll s caller rest fresh more
      else
        let fresh := fresh ++ [(key, intent)] in
        size ← (if page then enrollmentBytes intent else Ok 0);
        let more := more + size in
        guard! negb (page && (LOAD_ENROLLMENT_PAIRS <? Z.of_nat (length (t_pairs s) + length fresh)))
        else Throw (EnrollmentOverflow (caller +:+ ": the Load page tracks more than 1000 Stream/record pairs"));
        guard! negb (page && (LOAD_ENROLLMENT_BYTES <? t_bytes s + more))
        else Throw (EnrollmentOverflow (caller
               +:+ ": the Load page's tracking encodes to more than 1048576 bytes"));
        enroll s caller rest fresh more
  end.
Definition trackingRecord (intents : list intent) (caller : string) : io tracking unit :=
  declare (λ s,
    match enroll s caller intents [] 0 with
    | Ok (fresh, more) => (Ok tt, Tracking (t_open s) (t_failed s) (t_pairs s ++ fresh) (t_bytes s + more))
    | Throw e => (Throw e, s)
    end).
Definition trackingCollector : collector tracking :=
  Collector (d_entries d) (@declare)
    (λ caller, declare (trackingOpen caller))
    (λ name, check (trackingName name))
    (publishable d) (listOf d) trackingRecord.

(** The collector's methods, as the host and the handler call them; a handler
    keeps every handle it made. *)
Inductive collector_call :=
| MakeStream (names : value)
| TrackThrough (handle : nat) (accessor : option string) (records : value)
| CloseCollector.
Definition handler : Type := tracking * list (list string).
Definition collectorStep (call : collector_call) (h : handler) : handler :=
  let '(s, handles) := h in
  match call with
  | MakeStream names =>
      match declare (streamHandle trackingCollector names) s with
      | (Ok names, s) => (s, handles ++ [names])
      | (Throw _, s) => (s, handles)
      end
  | TrackThrough handle accessor records =>
      match handles !! handle with
      | Some names => ((streamTrack trackingCollector names accessor records s).2, handles)
      | None => h
      end
  | CloseCollector => (Tracking false (t_failed s) (t_pairs s) (t_bytes s), handles)
  end.
Definition collectorRun (calls : list collector_call) : handler :=
  foldl (λ h call, collectorStep call h) (newTracking, []) calls.
(** [tracking] *)
Definition trackingOf (s : tracking) : list intent := (t_pairs s).*2.
End enrollment.

Definition tracking_page : bool := true.       (* [loadEffectsFor] *)
Definition tracking_bootstrap : bool := false. (* [bootstrapEffectsFor] *)
