(* ===== verification/Enrollment.v ===== *)
(** What a Load's declarations enroll: the bounds, the atomicity of a refused
    declaration and the failure that outlives a caught error. *)
From S2P Require Import Prelude Text Dates Json Instants Effects Streams.
Open Scope Z_scope.

Ltac inv_ret H := unfold mret, io_ret in H; simplify_eq.

(** ** What a run keeps *)
Definition sumOf (l : list Z) : Z := foldr Z.add 0 l.
Definition publishedStream (name : string) : Prop := blank name = false ∧ loneSurrogate name = false.
Section enrolled.
Variable d : declarations_of.
Variable page : bool.

(** A captured pair: its own key, an accepted Stream, a publishable Model. *)
Definition pair_ok (p : string * intent) : Prop :=
  ∃ stream model id, p.2 = Track stream model id ∧
    canonicalJson (VArr [VStr stream; VStr model; VObj id]) = Ok p.1 ∧
    publishedStream stream ∧ (∃ e, byName d model = Some e) ∧ publishable d model EmptyString = Ok tt.
Record enrolled (s : tracking) : Prop := {
  enrolled_keys : NoDup (t_pairs s).*1;
  enrolled_pairs : Forall pair_ok (t_pairs s);
  enrolled_page : page = true →
    Z.of_nat (length (t_pairs s)) ≤ LOAD_ENROLLMENT_PAIRS ∧ t_bytes s ≤ LOAD_ENROLLMENT_BYTES ∧
    ∃ sizes, mapM enrollmentBytes (trackingOf s) = Ok sizes ∧ t_bytes s = sumOf sizes }.
End enrolled.

(** The first pair of every key not seen before. *)
Fixpoint firsts (seen : list string) (l : list (string * intent)) : list (string * intent) :=
  match l with
  | [] => []
  | p :: l => if bool_decide (p.1 ∈ seen) then firsts seen l else p :: firsts (seen ++ [p.1]) l
  end.

Lemma known_elem {A} key (l : list (string * A)) : known key l = bool_decide (key ∈ l.*1).
Proof.
  unfold known. induction l as [|[k a] l IH]; [done|]. cbn [fieldOf fmap list_fmap fst].
  destruct (String.eqb_spec k key) as [->|Hne].
  - symmetry. apply bool_decide_eq_true. by left.
  - rewrite IH. apply bool_decide_ext. rewrite elem_of_cons. split; [auto|intros [<-|]; [done|auto]].
Qed.
Lemma mapM_app {A B} (f : A → result B) l k a b :
  mapM f l = Ok a → mapM f k = Ok b → mapM f (l ++ k) = Ok (a ++ b).
Proof. rewrite !mapM_Ok. apply Forall2_app. Qed.
Lemma sumOf_app l k : sumOf (l ++ k) = sumOf l + sumOf k.
Proof. unfold sumOf. induction l as [|x l IH]; simpl; [done|]. rewrite IH. lia. Qed.

Section facts.
Variable d : declarations_of.
Variable page : bool.
#[local] Abbreviation enroll := (enroll d page).

(** The loop adds the new pairs of its intents, in order, and their bytes. *)
Lemma enroll_firsts s caller intents : ∀ fresh more fresh' more',
  enroll s caller intents fresh more = Ok (fresh', more') →
  ∃ caps, mapM (captured d caller) intents = Ok caps ∧
    fresh' = fresh ++ firsts ((t_pairs s).*1 ++ fresh.*1) caps.
Proof.
  induction intents as [|i rest IH]; intros fresh more fresh' more'; cbn [Streams.enroll mapM].
  - intros [= <- <-]. exists []. simpl. by rewrite app_nil_r.
  - destruct (captured d caller i) as [[key intent]|e] eqn:Hc; [|done].
    cbn [mbind result_bind]. rewrite !known_elem.
    destruct (bool_decide (key ∈ (t_pairs s).*1) || bool_decide (key ∈ fresh.*1)) eqn:Hk.
    + intros H. apply IH in H as (caps & -> & ->). exists ((key, intent) :: caps). split; [done|].
      cbn [firsts fst]. rewrite bool_decide_true; [done|].
      rewrite elem_of_app. apply orb_true_iff in Hk as [H|H]; apply bool_decide_eq_true in H; auto.
    + destruct (if page then _ else _) as [size|e]; [|done]. cbn [mbind result_bind].
      do 2 (destruct (negb _); [|done]). intros H. apply IH in H as (caps & -> & ->).
      exists ((key, intent) :: caps). split; [done|]. cbn [firsts fst].
      apply orb_false_iff in Hk as [H1 H2]; apply bool_decide_eq_false in H1, H2.
      rewrite bool_decide_false by set_solver.
      rewrite !fmap_app, <- !app_assoc. done.
Qed.
Lemma enroll_bounds s caller intents : ∀ fresh more fresh' more',
  page = true → enroll s caller intents fresh more = Ok (fresh', more') →
  (∃ sizes, mapM enrollmentBytes fresh.*2 = Ok sizes ∧ more = sumOf sizes) →
  Z.of_nat (length (t_pairs s) + length fresh) ≤ LOAD_ENROLLMENT_PAIRS →
  t_bytes s + more ≤ LOAD_ENROLLMENT_BYTES →
  Z.of_nat (length (t_pairs s) + length fresh') ≤ LOAD_ENROLLMENT_PAIRS ∧
  t_bytes s + more' ≤ LOAD_ENROLLMENT_BYTES ∧
  ∃ sizes, mapM enrollmentBytes fresh'.*2 = Ok sizes ∧ more' = sumOf sizes.
Proof.
  intros fresh more fresh' more' Hpage. revert fresh more fresh' more'.
  induction intents as [|i rest IH]; intros fresh more fresh' more'; cbn [Streams.enroll].
  - intros [= <- <-]; auto.
  - destruct (captured d caller i) as [[key intent]|e]; [|done]. cbn [mbind result_bind].
    destruct (known key _ || _); [apply IH|]. rewrite Hpage. cbn [andb].
    destruct (enrollmentBytes intent) as [size|e] eqn:Hs; [|done]. cbn [mbind result_bind].
    destruct (LOAD_ENROLLMENT_PAIRS <? _) eqn:Hp; [done|].
    destruct (LOAD_ENROLLMENT_BYTES <? _) eqn:Hb; [done|].
    cbn [negb]. apply Z.ltb_ge in Hp, Hb. intros H (sizes & Hm & ->) Hl Hy. rewrite <- Hpage in H. eapply IH; [exact H|..|done|done].
    exists (sizes ++ [size]). split; [|rewrite sumOf_app; simpl; lia].
    rewrite fmap_app. apply mapM_app; [done|]. simpl. by rewrite Hs.
Qed.

Lemma firsts_NoDup l : ∀ seen, NoDup seen → NoDup (seen ++ (firsts seen l).*1).
Proof.
  induction l as [|p l IH]; intros seen Hs; simpl; [by rewrite app_nil_r|].
  case_bool_decide; [auto|]. cbn [fmap list_fmap].
  specialize (IH (seen ++ [p.1])). rewrite <- app_assoc in IH. apply IH.
  apply NoDup_app. split_and!; [done|set_solver|apply NoDup_singleton].
Qed.
Lemma firsts_subset seen l p : p ∈ firsts seen l → p ∈ l.
Proof.
  revert seen. induction l as [|q l IH]; intros seen; simpl; [done|].
  case_bool_decide; rewrite !elem_of_cons; [eauto|]. intros [->|]; eauto.
Qed.

(** An intent of a valid Stream and a publishable Model is captured as a valid pair. *)
Lemma byName_name model e : byName d model = Some e → e_name e = model.
Proof. unfold byName. intros H. apply find_some in H as [_ H]. by apply String.eqb_eq. Qed.
Lemma byName_exists e : e ∈ d_entries d → ∃ e', byName d (e_name e) = Some e'.
Proof.
  intros He. unfold byName. destruct (find _ _) as [e'|] eqn:Hf; [eauto|].
  eapply find_none in Hf; [|by apply list_elem_of_In]. rewrite String.eqb_refl in Hf. done.
Qed.
Lemma publishable_caller model c c' : publishable d model c = Ok tt → publishable d model c' = Ok tt.
Proof. unfold publishable. by repeat case_match. Qed.
Definition intent_ok (i : intent) : Prop :=
  match i with
  | Track stream model _ => publishedStream stream ∧ publishable d model EmptyString = Ok tt
  | Invalidate _ _ _ => False
  end.
Lemma captured_ok caller i p : intent_ok i → captured d caller i = Ok p → pair_ok d p.
Proof.
  destruct i as [stream model id|]; [|done]. intros [Hs Hp]. unfold captured.
  destruct (byName d model) as [e|] eqn:He; [|done].
  destruct (canonical e id) as [id'|]; [|done]. cbn [mbind result_bind].
  destruct (existsb _ id'); [done|]. cbn [negb].
  destruct (canonicalJson _) as [key|] eqn:Hk; [|done]. intros [= <-].
  rewrite (byName_name _ _ He) in *. exists stream, model, id'. split_and!; eauto.
Qed.

Lemma trackingRecord_enrolled intents caller s :
  Forall intent_ok intents → enrolled d page s →
  enrolled d page (trackingRecord d page intents caller s).2.
Proof.
  intros Hi [Hk Hp Hb]. unfold trackingRecord, declare, catch.
  destruct (enroll s caller intents [] 0) as [[fresh more]|e] eqn:He; cbn [snd].
  - pose proof (enroll_firsts _ _ _ _ _ _ _ He) as (caps & Hcaps & Hf). rewrite app_nil_l, app_nil_r in Hf.
    split; cbn [t_pairs t_bytes].
    + rewrite fmap_app, Hf. by apply firsts_NoDup.
    + apply Forall_app. split; [done|]. rewrite Hf. apply Forall_forall. intros p Hin.
      apply firsts_subset in Hin. apply mapM_Ok in Hcaps.
      apply list_elem_of_lookup in Hin as [k Hin].
      destruct (Forall2_lookup_r _ _ _ _ _ Hcaps Hin) as (i & Hii & Hci).
      eapply captured_ok; [|exact Hci]. eapply Forall_lookup_1; eauto.
    + intros Hpage. destruct (Hb Hpage) as (Hl & Hy & sizes & Hm & Hsum).
      destruct (enroll_bounds _ _ _ _ _ _ _ Hpage He) as (Hl' & Hy' & sizes' & Hm' & Hsum').
      { by exists []. }
      { simpl. lia. }
      { lia. }
      rewrite length_app. split_and!; [done..|]. exists (sizes ++ sizes').
      unfold trackingOf in *. cbn [t_pairs]. rewrite fmap_app, sumOf_app. split; [by apply mapM_app|lia].
  - unfold keepFailure. repeat case_match; by split.
Qed.

(** ** One declaration *)
Lemma keepFailure_idem e s : keepFailure e (keepFailure e s) = keepFailure e s.
Proof. destruct s as [o [[[] e0]|] ps b], e; reflexivity. Qed.
Lemma keepFailure_enrolled e s : enrolled d page s → enrolled d page (keepFailure e s).
Proof. intros [Hk Hp Hb]. unfold keepFailure. repeat case_match; by split. Qed.
Lemma declare_throw {A} (body : io tracking A) e s s' :
  body s = (Throw e, s') → declare body s = (Throw e, keepFailure e s').
Proof. unfold declare, catch. by intros ->. Qed.
Lemma declare_ok {A} (body : io tracking A) a s s' : body s = (Ok a, s') → declare body s = (Ok a, s').
Proof. unfold declare, catch. by intros ->. Qed.

Lemma listOf_publishable v caller l :
  listOf d v caller = Ok l → Forall (λ r, publishable d (e_name r.1) EmptyString = Ok tt) l.
Proof.
  destruct v; try done. cbn [listOf]. rewrite mapM_Ok. induction 1 as [|x r items l Hr _ IH]; [done|].
  constructor; [|done]. clear IH. unfold reference in Hr.
  destruct (isObject x); [|done]. destruct (get x "model"); try done.
  destruct (byName d s) as [e|] eqn:He; [|done].
  destruct (publishable d s caller) as [[]|] eqn:Hp; [|done]. cbn [mbind result_bind] in Hr.
  destruct (snapshot _ _ _); [|done]. cbn in Hr. simplify_eq. cbn [fst].
  rewrite (byName_name _ _ He). by eapply publishable_caller.
Qed.
Definition records_ok (records : list (string * identity)) : Prop :=
  Forall (λ r, publishable d r.1 EmptyString = Ok tt) records.
Lemma operands_spec v caller oe s r s' :
  operands (trackingCollector d page) v caller oe s = (r, s') →
  match r with
  | Ok records => s' = s ∧ t_open s = true ∧ records_ok records
  | Throw e => keepFailure e s' = keepFailure e s
  end.
Proof.
  unfold operands. intros H.
  apply io_bind_inv in H as [([] & s1 & H1 & H)|(e & H1 & ->)].
  - cbn [c_check trackingCollector] in H1. unfold declare, catch, trackingOpen in H1.
    destruct (t_open s) eqn:Ho; [|done]. simplify_eq.
    destruct oe as [e|].
    + cbn [c_publishable trackingCollector] in H. apply check_bind_inv in H.
      destruct (publishable d (e_name e) caller) as [[]|x] eqn:Hp; [|by destruct H as [-> ->]].
      unfold check in H. destruct (mapM (M := result) _ (arrayed v)) as [records|x] eqn:Hm; simplify_eq; [|done].
      split_and!; [done..|]. apply mapM_Ok in Hm. unfold records_ok.
      induction Hm as [|y z l k Hy _ IH]; [done|]. constructor; [|done].
      destruct (snapshot _ _ _); [|done]. simpl in Hy. simplify_eq. simpl.
      by eapply publishable_caller.
    + cbn [c_list trackingCollector] in H. apply check_bind_inv in H.
      destruct (listOf d (VArr (arrayed v)) caller) as [l|x] eqn:Hl; [|by destruct H as [-> ->]].
      unfold mret, io_ret in H. simplify_eq.
      split_and!; [done..|]. unfold records_ok. apply Forall_fmap. by apply listOf_publishable in Hl.
  - cbn [c_check trackingCollector] in H1. unfold declare, catch, trackingOpen in H1.
    destruct (t_open s) eqn:Ho; simplify_eq. apply keepFailure_idem.
Qed.

(** A member of the namespace: its caller's name and its Model. *)
Definition callerOf (accessor : option string) : string :=
  "stream.track" +:+ match accessor with Some key => "." +:+ key | None => EmptyString end.
Definition entryOfAccessor (accessor : option string) : option entry :=
  key ← accessor; find (λ e, String.eqb (e_key e) key) (d_entries d).
Definition resolvedAs (names : list string) (caller : string) (oe : option entry) (v : value)
    (s s' : tracking) : Prop :=
  t_open s = true ∧ ∃ records caps more,
    operands (trackingCollector d page) v caller oe s = (Ok records, s) ∧ records_ok records ∧
    mapM (captured d "stream.track") (tracks names records) = Ok caps ∧
    s' = Tracking true (t_failed s) (t_pairs s ++ firsts (t_pairs s).*1 caps) (t_bytes s + more) ∧
    trackingRecord d page (tracks names records) "stream.track" s = (Ok tt, s').
Lemma tracked_spec names v caller oe s r s' :
  declare (records ← operands (trackingCollector d page) v caller oe;
           trackingRecord d page (tracks names records) "stream.track") s = (r, s') →
  match r with
  | Throw e => s' = keepFailure e s
  | Ok _ => resolvedAs names caller oe v s s'
  end.
Proof.
  unfold declare at 1, catch. destruct ((operands _ _ _ _ ≫= _) s) as [r1 s1] eqn:H.
  apply io_bind_inv in H as [(records & s2 & H1 & H)|(e & H1 & ->)].
  - pose proof (operands_spec _ _ _ _ _ _ H1) as (-> & Ho & Hr).
    pose proof H as Hrec. unfold trackingRecord, declare, catch in H.
    destruct (enroll s "stream.track" _ [] 0) as [[fresh more]|e] eqn:He; simplify_eq.
    + intros ?; simplify_eq. apply enroll_firsts in He as (caps & Hcaps & ->).
      rewrite app_nil_l, app_nil_r in *. split; [done|]. rewrite Ho in *.
      exists records, caps, more. done.
    + intros ?; simplify_eq. apply keepFailure_idem.
  - pose proof (operands_spec _ _ _ _ _ _ H1) as Hk. intros ?; simplify_eq. done.
Qed.
Definition accessible (accessor : option string) : Prop :=
  match accessor with None => True | Some key => ∃ e, e ∈ d_entries d ∧ e_key e = key end.
Lemma streamTrack_spec names accessor v s r s' :
  streamTrack (trackingCollector d page) names accessor v s = (r, s') →
  match r with
  | Throw e => s' = keepFailure e s ∨ ¬ accessible accessor ∧ s' = s
  | Ok _ => resolvedAs names (callerOf accessor) (entryOfAccessor accessor) v s s'
  end.
Proof.
  unfold streamTrack, namespace. destruct accessor as [key|].
  - cbn [c_entries trackingCollector]. destruct (find _ _) as [e|] eqn:Hf.
    + intros H. apply tracked_spec in H. destruct r; [|by left].
      unfold entryOfAccessor. cbn [mbind option_bind]. by rewrite Hf.
    + intros [= <- <-]. right. split; [|done]. intros (e & He & Hk).
      eapply find_none in Hf; [|by apply list_elem_of_In]. by rewrite Hk, String.eqb_refl in Hf.
  - intros H. apply tracked_spec in H. destruct r; [done|]. by left.
Qed.
Lemma tracks_ok names records :
  Forall publishedStream names → records_ok records → Forall intent_ok (tracks names records).
Proof.
  intros Hn Hr. apply Forall_forall. intros i Hi. unfold tracks in Hi.
  apply list_elem_of_bind in Hi as (stream & Hi & Hs). apply list_elem_of_fmap in Hi as ([m id] & -> & Hin).
  split; [exact (proj1 (Forall_forall _ _) Hn _ Hs)|].
  exact (proj1 (Forall_forall _ _) Hr _ Hin).
Qed.
Lemma resolvedAs_enrolled names caller oe v s s' :
  Forall publishedStream names → enrolled d page s → resolvedAs names caller oe v s s' → enrolled d page s'.
Proof.
  intros Hn Hs (_ & records & _ & _ & _ & Hr & _ & _ & Hrec).
  pose proof (trackingRecord_enrolled (tracks names records) "stream.track" s) as H.
  rewrite Hrec in H. apply H; [|done]. by apply tracks_ok.
Qed.
Lemma streamHandle_spec v s r s' :
  declare (streamHandle (trackingCollector d page) v) s = (r, s') →
  match r with
  | Ok names => s' = s ∧ t_open s = true ∧ NoDup names ∧ Forall publishedStream names
  | Throw e => s' = keepFailure e s
  end.
Proof.
  unfold streamHandle. cbn [c_guard trackingCollector].
  assert (∀ (l : list value) s r s', mapM (M := io tracking) (λ name,
      _ ← c_name (trackingCollector d page) name;
      match name with VStr s => mret s | _ => throw (TypeError "not a string") end) l s = (r, s') →
    s' = s ∧ ∀ names, r = Ok names → Forall publishedStream names) as Hnames.
  { clear. induction l as [|x l IH]; intros s r s' H.
    - cbn [mapM] in H. inv_ret H. split; [done|]. intros ? [= <-]. constructor.
    - cbn [mapM] in H.
      assert (∀ r1 s1, (_ ← c_name (trackingCollector d page) x;
          match x with VStr s => mret s | _ => throw (TypeError "not a string") end) s = (r1, s1) →
        s1 = s ∧ ∀ name, r1 = Ok name → publishedStream name) as Hone.
      { clear. intros r1 s1 H. cbn [c_name trackingCollector] in H. apply check_bind_inv in H.
        unfold trackingName, streamName in H. destruct x; try (by destruct H as [-> ->]).
        destruct (blank s0) eqn:Hb; [by destruct H as [-> ->]|]. cbn [mbind result_bind] in H.
        destruct (loneSurrogate s0) eqn:Hl; [by destruct H as [-> ->]|].
        inv_ret H. split; [done|]. by intros ? [= <-]. }
      apply io_bind_inv in H as [(name & s1 & H1 & H)|(e & H1 & ->)].
      + apply Hone in H1 as [-> Hx].
        apply io_bind_inv in H as [(names & s2 & H2 & H)|(e & H2 & ->)].
        * apply IH in H2 as [-> Hn]. inv_ret H. split; [done|]. intros ? [= <-]. constructor; auto.
        * by apply IH in H2 as [-> _].
      + by apply Hone in H1 as [-> _]. }
  unfold declare, catch. cbn [c_check trackingCollector]. intros H.
  match type of H with context [(?m ≫= ?f) s] => destruct ((m ≫= f) s) as [r1 s1] eqn:H1 end.
  apply io_bind_inv in H1 as [([] & s2 & H2 & H1)|(e & H2 & ->)].
  - unfold declare, catch, trackingOpen in H2. destruct (t_open s) eqn:Ho; [|done]. simplify_eq.
    destruct v; try (unfold throw in H1; simplify_eq; apply keepFailure_idem).
    all: apply io_bind_inv in H1 as [(names & s3 & H3 & H1)|(e & H3 & ->)];
      apply Hnames in H3 as [-> Hn]; [inv_ret H1; simplify_eq|simplify_eq; apply keepFailure_idem].
    all: split_and!; [done..|apply NoDup_uniq|].
    all: apply Forall_forall; intros x Hx; rewrite elem_of_uniq in Hx.
    all: exact (proj1 (Forall_forall _ _) (Hn _ eq_refl) _ Hx).
  - unfold declare, catch, trackingOpen in H2. destruct (t_open s); simplify_eq.
    by rewrite !keepFailure_idem.
Qed.

(** ** A handler's calls *)
Definition handler_ok (h : handler) : Prop :=
  enrolled d page h.1 ∧ Forall (Forall publishedStream) h.2.
Lemma collectorStep_ok call h : handler_ok h → handler_ok (collectorStep d page call h).
Proof.
  destruct h as [s handles]. intros [Hs Hh]. destruct call as [names|handle accessor v|]; simpl.
  - destruct (declare _ s) as [[l|e] s'] eqn:H; apply streamHandle_spec in H.
    + destruct H as (-> & _ & _ & Hl). split; [done|]. apply Forall_app. by repeat constructor.
    + subst. split; [by apply keepFailure_enrolled|done].
  - destruct (handles !! handle) as [names|] eqn:Hn; [|done]. split; [|done]. cbn [fst].
    destruct (streamTrack _ _ _ _ s) as [r s'] eqn:H. apply streamTrack_spec in H. cbn [snd].
    destruct r as [|e]; [|destruct H as [->|[_ ->]]; [by apply keepFailure_enrolled|done]].
    eapply resolvedAs_enrolled; [|done..]. eapply (Forall_lookup_1 (Forall publishedStream)); eauto.
  - split; [|done]. destruct Hs. by split.
Qed.
Lemma collectorRun_ok calls : handler_ok (collectorRun d page calls).
Proof.
  unfold collectorRun. assert (handler_ok (newTracking, [])) as H0.
  { split; [|done]. split; [constructor|done|]. intros _. split_and!; [done..|]. by exists []. }
  revert H0. generalize (newTracking, [] : list (list string)).
  induction calls as [|call calls IH]; intros h Hh; [done|]. apply IH, collectorStep_ok, Hh.
Qed.

(** What a later call leaves of an earlier state. *)
Definition sticks (s s' : tracking) : Prop :=
  (∃ more, t_pairs s' = t_pairs s ++ more) ∧
  (t_open s = false → t_open s' = false ∧ t_pairs s' = t_pairs s) ∧
  (t_failed s ≠ None → t_failed s' ≠ None) ∧
  (∀ e, t_failed s = Some (Overflow, e) → t_failed s' = Some (Overflow, e)).
#[local] Instance sticks_preorder : PreOrder sticks.
Proof.
  split.
  - intros s. split_and!; try done. exists []. by rewrite app_nil_r.
  - intros s1 s2 s3 ([l1 H1] & O1 & F1 & K1) ([l2 H2] & O2 & F2 & K2).
    split_and!; [|intros H; destruct (O1 H) as [? E1]; destruct (O2 ltac:(done)) as [? E2]; by rewrite E2, E1|auto..].
    exists (l1 ++ l2). by rewrite H2, H1, app_assoc.
Qed.
Lemma keepFailure_sticks e s : sticks s (keepFailure e s).
Proof.
  destruct s as [o [[[] f]|] ps b]; unfold sticks, keepFailure; cbn; destruct (kindOf e); cbn;
    split_and!; try done; exists []; by rewrite app_nil_r.
Qed.
Lemma collectorStep_sticks call h : sticks h.1 (collectorStep d page call h).1.
Proof.
  destruct h as [s handles], call as [names|handle accessor v|]; simpl.
  - destruct (declare _ s) as [[l|e] s'] eqn:H; apply streamHandle_spec in H; cbn [fst].
    + destruct H as (-> & _). done.
    + subst. apply keepFailure_sticks.
  - destruct (handles !! handle) as [names|]; [|done]. cbn [fst].
    destruct (streamTrack _ _ _ _ s) as [r s'] eqn:H. apply streamTrack_spec in H. cbn [snd].
    destruct r as [|e]; [|destruct H as [->|[_ ->]]; [apply keepFailure_sticks|done]].
    destruct H as (Ho & records & caps & more & _ & _ & _ & -> & _).
    unfold sticks. cbn. rewrite Ho. split_and!; try done. by eexists.
  - unfold sticks. cbn. split_and!; try done. exists []. by rewrite app_nil_r.
Qed.
Lemma collectorRun_sticks more calls :
  sticks (collectorRun d page calls).1 (collectorRun d page (calls ++ more)).1.
Proof.
  unfold collectorRun. rewrite foldl_app. generalize (foldl (λ h call, collectorStep d page call h) (newTracking, []) calls).
  induction more as [|call more IH]; intros h; [done|]. simpl.
  etransitivity; [apply collectorStep_sticks|apply IH].
Qed.
End facts.

(** ** The theorems *)

(** C37: whatever a Load handler calls, in whatever order, errors caught or not,
    its enrollment is within bounds: distinct pairs only, each the canonical
    key of an accepted Stream and a publishable Model, and on a page at most
    1000 of them whose encodings sum to the byte count kept, at most 1 MiB. *)
Theorem enrollment_bounded d page calls :
  let s := (collectorRun d page calls).1 in
  NoDup (t_pairs s).*1 ∧ Forall (pair_ok d) (t_pairs s) ∧
  (page = false ∨
   Z.of_nat (length (trackingOf s)) ≤ 1000 ∧ t_bytes s ≤ 1048576 ∧
   ∃ sizes, mapM enrollmentBytes (trackingOf s) = Ok sizes ∧ t_bytes s = sumOf sizes).
Proof.
  intros s. destruct (collectorRun_ok d page calls) as [[Hk Hp Hb] _]. split_and!; [done..|].
  destruct page; [right|by left]. destruct (Hb eq_refl) as (Hl & Hy & Hs).
  unfold trackingOf. rewrite length_fmap. done.
Qed.

(** A track call is all or nothing.  Accepted, it adds exactly the new
    pairs of its names and records, each once, in order, and was made while the
    collector was open; refused, it adds nothing and the refusal is kept. *)
Theorem streamTrack_atomic d page names accessor v s :
  match streamTrack (trackingCollector d page) names accessor v s with
  | (Ok _, s') =>
      t_open s = true ∧ ∃ records caps more,
        operands (trackingCollector d page) v (callerOf accessor) (entryOfAccessor d accessor) s = (Ok records, s) ∧
        mapM (captured d "stream.track") (tracks names records) = Ok caps ∧
        s' = Tracking true (t_failed s) (t_pairs s ++ firsts (t_pairs s).*1 caps) (t_bytes s + more)
  | (Throw e, s') => s' = keepFailure e s ∨ ¬ accessible d accessor ∧ s' = s
  end.
Proof.
  destruct (streamTrack _ _ _ _ s) as [[[]|e] s'] eqn:H; apply streamTrack_spec in H; [|done].
  destruct H as (Ho & records & caps & more & Hop & _ & Hc & -> & _). split; [done|].
  by exists records, caps, more.
Qed.

(** A refused declaration is never forgotten, and an overflow replaces any
    other refusal for good; pairs are only ever added, and none after the
    collector closed. *)
Theorem failure_sticky d page calls more :
  sticks (collectorRun d page calls).1 (collectorRun d page (calls ++ more)).1.
Proof. apply collectorRun_sticks. Qed.
