(* ===== verification/Bridge.v ===== *)
(** The SDK side of a client runtime: [frontend/client-js/bindings/bridge.mts].

    The bridge keeps maps from request identifiers to Promise routes, from
    transaction requests to application callbacks, and from observers and effect
    kinds to listeners.  A run interleaves calls of the API, events the runtime
    published and continuations of started callbacks, one [step] each.  A
    listener is an identifier: the parameter [listener] says which API calls it
    makes when called and whether it throws.  The carrier is the parameter
    [refuses]: given everything sent so far, whether it refuses a message. *)
From S2P Require Import Prelude Text Dates Json Effects.
Open Scope Z_scope.
Open Scope axton_scope.

(** [strictJson] of [api/values.mts] *)
Definition finiteItem (item : value) : result value :=
  match item with
  | VNum n => if isFinite n then Ok item else raise "JSON numbers must be finite"
  | _ => Ok item
  end.
Definition strictJson (v : value) : result string :=
  t ← serialize finiteItem v; Ok (default "undefined" t).

(** ** Events of the runtime *)
Inductive operation :=
| CallbackOp (requestId transactionId : string)
| MutationLocalOp (requestId transactionId companionId : string)
| OtherOp (kind : string) (payload : value).
Inductive completion :=
| Completed (value : value)
| Failed (error : option string) (details : option value).
Inductive event_type :=
| CallCompletedType | ObserverChangedType | ReportType | CancelEffectType | TransactionCallStateType.
Inductive event :=
| TaskCompleted (requestId : string) (outcome : completion)
| EffectAsked (effectId : string) (op : operation)
| RuntimeClosed
| ObserverChanged (observerId : string) (snapshot : value)
| CancelEffect (effectId : string)
| TransactionCallState (payload : value)
| CallCompleted (payload : value)
| Report (payload : value)
| UnknownEvent.

(** ** State *)
(** A transaction's callback or a submission's [local] callback: the effect that
    asked for it last, whether that effect was cancelled, what it threw, whether
    its [started] Promise is resolved and whether its continuation was taken. *)
Record callback := Callback {
  transaction_of : option string;    (* for a [local] callback *)
  scope_of : option string;
  effectId_of : option string; cancelled : bool; thrown : option exn;
  started : bool; resumed : bool }.

(** What the bridge does to the outside, in order. *)
Inductive output :=
| Submit (message : value)                           (* runtimeSubmit *)
| Settled (requestId : string) (outcome : result value)
| Rejected_ (e : exn)                                (* a Promise never routed *)
| Called (fn : nat) (e : event)                      (* a listener *)
| Snapshot (observerId : string) (fn : nat) (snapshot : value)
| EffectHandler (fn : nat) (effectId : string) (op : operation)
| Hook (fn : nat) (v : value)
| Reported (e : exn)                                 (* reportCallbackError *)
| Start (requestId effectId transactionId : string) (companionId : option string)
| Ran (requestId : string)                           (* an application callback begins *)
| Detach
| CloseResolved.

Record bridge := Bridge {
  issued : Z;
  routes : list (string * option nat);               (* with the [settled] hook *)
  callbacks : list (string * callback);
  locals : list (string * callback);
  listeners : list (event_type * nat);
  effects : list (string * nat);
  observers : list (string * nat);
  dispatching : bool;
  closing : bool;
  settleClose : bool;
  closed : bool;
  keepAlive : bool;
  output_log : list output }.
Definition newBridge : bridge := Bridge 0 [] [] [] [] [] [] false false false false false [].


Definition set_routes r b := Bridge (issued b) r (callbacks b) (locals b) (listeners b) (effects b)
  (observers b) (dispatching b) (closing b) (settleClose b) (closed b) (keepAlive b) (output_log b).
Definition set_callbacks c b := Bridge (issued b) (routes b) c (locals b) (listeners b) (effects b)
  (observers b) (dispatching b) (closing b) (settleClose b) (closed b) (keepAlive b) (output_log b).
Definition set_locals c b := Bridge (issued b) (routes b) (callbacks b) c (listeners b) (effects b)
  (observers b) (dispatching b) (closing b) (settleClose b) (closed b) (keepAlive b) (output_log b).
Definition set_listeners l b := Bridge (issued b) (routes b) (callbacks b) (locals b) l (effects b)
  (observers b) (dispatching b) (closing b) (settleClose b) (closed b) (keepAlive b) (output_log b).
Definition set_effects e b := Bridge (issued b) (routes b) (callbacks b) (locals b) (listeners b) e
  (observers b) (dispatching b) (closing b) (settleClose b) (closed b) (keepAlive b) (output_log b).
Definition set_observers o b := Bridge (issued b) (routes b) (callbacks b) (locals b) (listeners b) (effects b)
  o (dispatching b) (closing b) (settleClose b) (closed b) (keepAlive b) (output_log b).
Definition set_dispatching d b := Bridge (issued b) (routes b) (callbacks b) (locals b) (listeners b) (effects b)
  (observers b) d (closing b) (settleClose b) (closed b) (keepAlive b) (output_log b).
Definition set_close c s b := Bridge (issued b) (routes b) (callbacks b) (locals b) (listeners b) (effects b)
  (observers b) (dispatching b) c s (closed b) (keepAlive b) (output_log b).
Definition set_closed b := Bridge (issued b) (routes b) (callbacks b) (locals b) (listeners b) (effects b)
  (observers b) (dispatching b) (closing b) (settleClose b) true (keepAlive b) (output_log b).
Definition set_keepAlive k b := Bridge (issued b) (routes b) (callbacks b) (locals b) (listeners b) (effects b)
  (observers b) (dispatching b) (closing b) (settleClose b) (closed b) k (output_log b).
Definition issue b := Bridge (issued b + 1) (routes b) (callbacks b) (locals b) (listeners b) (effects b)
  (observers b) (dispatching b) (closing b) (settleClose b) (closed b) (keepAlive b) (output_log b).
Definition emit_ o b := Bridge (issued b) (routes b) (callbacks b) (locals b) (listeners b) (effects b)
  (observers b) (dispatching b) (closing b) (settleClose b) (closed b) (keepAlive b) (output_log b ++ [o]).

(** [#hold]: the timer runs exactly while a route or the close is outstanding. *)
Definition outstanding (b : bridge) : bool :=
  match routes b with [] => settleClose b | _ => true end.
Definition hold (b : bridge) : bridge := set_keepAlive (outstanding b) b.

(** [#settle]: remove the route of [requestId], once. *)
Definition settle (requestId : string) (b : bridge) : option (option nat) * bridge :=
  (fieldOf requestId (routes b), hold (set_routes (removeKey requestId (routes b)) b)).
Definition forget (requestId : string) (b : bridge) : bridge :=
  set_locals (removeKey requestId (locals b)) (set_callbacks (removeKey requestId (callbacks b)) b).

(** ** API calls *)
Inductive api :=
| Task (command : list (string * value)) (hook : option nat)
| Transaction
| TransactionCommand (transactionId : string) (scope : option string) (command : list (string * value))
| SubmitMutation (transactionId : string) (scope : option string) (command : list (string * value))
    (hasLocal : bool) (hook : option nat)
| LocalCommand (requestId companionId : string) (command : list (string * value))
| EffectResult (effectId : string) (outcome : value)
| On (type : event_type) (fn : nat)
| Off (type : event_type) (fn : nat)
| Observe (observerId : string) (fn : nat)
| Unobserve (observerId : string) (fn : nat)
| OnEffect (kind : string) (fn : nat)
| OffEffect (kind : string) (fn : nat)
| Close.

Definition str_field (key s : string) : string * value := (key, VStr s).
Definition scopeField (scope : option string) : list (string * value) :=
  match scope with Some s => [str_field "scope" s] | None => [] end.
Definition taskMessage (requestId : string) (command : list (string * value)) : value :=
  VObj [str_field "type" "task"; str_field "requestId" requestId; ("command", VObj command)].
Definition commandMessage (requestId transactionId : string) (scope companionId : option string)
    (command : list (string * value)) : value :=
  VObj ([str_field "type" "transactionCommand"; str_field "requestId" requestId;
         str_field "transactionId" transactionId] ++ scopeField scope
        ++ match companionId with Some c => [str_field "companionId" c] | None => [] end
        ++ [("command", VObj command)]).
Definition callbackResult (effectId transactionId : string) (companionId : option string)
    (rest : list (string * value)) : value :=
  VObj ([str_field "type" "callbackResult"; str_field "effectId" effectId;
         str_field "transactionId" transactionId]
        ++ match companionId with Some c => [str_field "companionId" c] | None => [] end ++ rest).

Section bridge.
(** The carrier's answer to a message, after everything it was sent before. *)
Variable refuses : list output → value → option exn.
(** The API calls a listener makes synchronously, and what it throws. *)
Variable listener : nat → output → list api * option exn.

(** [runtimeSubmit(runtimeId, strictJson(message))] *)
Definition submit (message : value) : io bridge unit := λ b,
  match strictJson message with
  | Throw e => (Throw e, b)
  | Ok _ => match refuses (output_log b) message with
            | Some e => (Throw e, b)
            | None => (Ok tt, emit_ (Submit message) b)
            end
  end.
(** [#answer]: after close the runtime no longer wants it; a refusal is dropped. *)
Definition answer (message : value) (b : bridge) : bridge :=
  if closed b then b else (submit message b).2.

(** [#route]: register a route under a fresh identifier, then admit. *)
Definition route (envelope : string → value) (register : string → bridge → bridge) (hook : option nat)
    (b : bridge) : bridge :=
  let b := issue b in
  let requestId := pretty (issued b) in
  let b := hold (set_routes (setField requestId hook (routes b)) b) in
  match submit (envelope requestId) (register requestId b) with
  | (Ok _, b) => b
  | (Throw e, b) =>
      let '(r, b) := settle requestId b in
      forget requestId (match r with Some _ => emit_ (Settled requestId (Throw e)) b | None => b end)
  end.
Definition submitRouted (envelope : string → value) (register : string → bridge → bridge)
    (hook : option nat) (b : bridge) : bridge :=
  if closing b || closed b then emit_ (Rejected_ (Error "client_closed")) b
  else route envelope register hook b.

Definition newCallback (transactionId scope : option string) : callback :=
  Callback transactionId scope None false None false false.
(** Add a listener to a [Set], which ignores one it has. *)
Definition sameType (t u : event_type) : bool :=
  match t, u with
  | CallCompletedType, CallCompletedType | ObserverChangedType, ObserverChangedType
  | ReportType, ReportType | CancelEffectType, CancelEffectType
  | TransactionCallStateType, TransactionCallStateType => true
  | _, _ => false
  end.
Definition addListener (p : event_type * nat) (l : list (event_type * nat)) : list (event_type * nat) :=
  if existsb (λ q, sameType p.1 q.1 && Nat.eqb p.2 q.2) l then l else l ++ [p].
(** [close] *)
Definition closeBridge (b : bridge) : bridge :=
  if closing b then b
  else if closed b then emit_ CloseResolved (set_close true (settleClose b) b)
  else
    let b := hold (set_close false true b) in
    match submit (VObj [str_field "type" "close"]) b with
    | (_, b) => set_close true (settleClose b) b
    end.

Definition call (c : api) (b : bridge) : bridge :=
  match c with
  | Task command hook => submitRouted (λ r, taskMessage r command) (λ _ b, b) hook b
  | Transaction =>
      submitRouted (λ r, taskMessage r [str_field "kind" "transaction"])
        (λ r b, set_callbacks (setField r (newCallback None None) (callbacks b)) b) None b
  | TransactionCommand t scope command =>
      submitRouted (λ r, commandMessage r t scope None command) (λ _ b, b) None b
  | SubmitMutation t scope command hasLocal hook =>
      submitRouted (λ r, commandMessage r t scope None command)
        (λ r b, if hasLocal : bool then set_locals (setField r (newCallback (Some t) scope) (locals b)) b else b)
        hook b
  | LocalCommand requestId companionId command =>
      match fieldOf requestId (locals b) with
      | Some l =>
          submitRouted (λ r, commandMessage r (default EmptyString (transaction_of l)) (scope_of l)
                               (Some companionId) command) (λ _ b, b) None b
      | None => b
      end
  | EffectResult effectId outcome =>
      answer (VObj [str_field "type" "effectResult"; str_field "effectId" effectId; ("outcome", outcome)]) b
  | On type fn => set_listeners (addListener (type, fn) (listeners b)) b
  | Off type fn =>
      set_listeners (base.filter (λ p, negb (sameType p.1 type && Nat.eqb p.2 fn) = true) (listeners b)) b
  | Observe observerId fn => if closed b then b else set_observers (setField observerId fn (observers b)) b
  | Unobserve observerId fn =>
      if bool_decide (fieldOf observerId (observers b) = Some fn)
      then set_observers (removeKey observerId (observers b)) b else b
  | OnEffect kind fn => set_effects (setField kind fn (effects b)) b
  | OffEffect kind fn =>
      if bool_decide (fieldOf kind (effects b) = Some fn)
      then set_effects (removeKey kind (effects b)) b else b
  | Close => closeBridge b
  end.
Definition calls (l : list api) (b : bridge) : bridge := foldl (λ b c, call c b) b l.

(** Call application code: what it did, and what it threw. *)
Definition invoke (o : output) (fn : nat) (b : bridge) : option exn * bridge :=
  let '(l, e) := listener fn o in (e, calls l (emit_ o b)).
(** [try { fn(...) } catch (error) { reportCallbackError(error) }] *)
Definition guarded (o : output) (fn : nat) (b : bridge) : bridge :=
  let '(e, b) := invoke o fn b in
  match e with Some e => emit_ (Reported e) b | None => b end.

(** ** Dispatch *)
Definition typeOf (e : event) : option event_type :=
  match e with
  | ObserverChanged _ _ => Some ObserverChangedType
  | CancelEffect _ => Some CancelEffectType
  | TransactionCallState _ => Some TransactionCallStateType
  | CallCompleted _ => Some CallCompletedType
  | Report _ => Some ReportType
  | _ => None
  end.
Definition emit (type : event_type) (e : event) (b : bridge) : bridge :=
  foldl (λ b p, guarded (Called p.2 e) p.2 b) b (base.filter (λ p, sameType p.1 type = true) (listeners b)).
Definition snapshot (observerId : string) (v : value) (b : bridge) : bridge :=
  match fieldOf observerId (observers b) with
  | None => b
  | Some fn =>
      let b := match get v "closed" with
               | VBool true => set_observers (removeKey observerId (observers b)) b
               | _ => b
               end in
      guarded (Snapshot observerId fn v) fn b
  end.
(** [#cancelCallback] *)
Definition cancel (effectId : string) (c : callback) : callback :=
  if bool_decide (effectId_of c = Some effectId)
  then Callback (transaction_of c) (scope_of c) (effectId_of c) true (thrown c) (started c) (resumed c) else c.
Definition cancelCallback (effectId : string) (b : bridge) : bridge :=
  set_locals ((λ p, (p.1, cancel effectId p.2)) <$> locals b)
    (set_callbacks ((λ p, (p.1, cancel effectId p.2)) <$> callbacks b) b).
(** A callback asked for: its Promise resolves once. *)
Definition asked (effectId : string) (c : callback) : callback :=
  Callback (transaction_of c) (scope_of c) (Some effectId) (cancelled c) (thrown c) true (resumed c).
Definition startWith (requestId effectId transactionId : string) (companionId : option string)
    (c : callback) (b : bridge) : bridge :=
  if started c then b else emit_ (Start requestId effectId transactionId companionId) b.
Definition effect (effectId : string) (op : operation) (b : bridge) : bridge :=
  match op with
  | CallbackOp requestId transactionId =>
      match fieldOf requestId (callbacks b) with
      | None => answer (callbackResult effectId transactionId None
                  [("ok", VBool false); str_field "error" "unknown transaction"]) b
      | Some c => startWith requestId effectId transactionId None c
                    (set_callbacks (setField requestId (asked effectId c) (callbacks b)) b)
      end
  | MutationLocalOp requestId transactionId companionId =>
      match fieldOf requestId (locals b) with
      | None => answer (callbackResult effectId transactionId (Some companionId)
                  [("ok", VBool false); str_field "error" "unknown mutation"]) b
      | Some c => startWith requestId effectId transactionId (Some companionId) c
                    (set_locals (setField requestId (asked effectId c) (locals b)) b)
      end
  | OtherOp kind _ =>
      match fieldOf kind (effects b) with
      | None => answer (VObj [str_field "type" "effectResult"; str_field "effectId" effectId;
                  ("outcome", VObj [("ok", VBool false);
                     ("error", VObj [str_field "message" "unsupported effect"])])]) b
      | Some fn => guarded (EffectHandler fn effectId op) fn b
      end
  end.
(** An [Error], with the runtime's reason when it gave one. *)
Definition taskError (message : string) (details : option value) : exn :=
  match details with Some d => TaskError message d | None => Error message end.
Definition taskCompleted (requestId : string) (outcome : completion) (b : bridge) : bridge :=
  let '(r, b) := settle requestId b in
  let cb := match fieldOf requestId (callbacks b) with
            | Some c => Some c | None => fieldOf requestId (locals b) end in
  let b := forget requestId b in
  match r with
  | None => b
  | Some hook =>
      match outcome with
      | Completed v =>
          match hook with
          | None => emit_ (Settled requestId (Ok v)) b
          | Some fn =>
              let '(e, b) := invoke (Hook fn v) fn b in
              emit_ (Settled requestId (match e with Some e => Throw e | None => Ok v end)) b
          end
      | Failed error details =>
          emit_ (Settled requestId (Throw
            match cb ≫= thrown with
            | Some e => e
            | None => taskError (default "task failed" error) details
            end)) b
      end
  end.
Definition terminate (b : bridge) : bridge :=
  if closed b then b
  else
    let settled := routes b in
    let b := set_observers [] (set_locals [] (set_callbacks [] (set_routes [] (set_closed b)))) in
    let b := foldl (λ b p, emit_ (Settled p.1 (Throw (Error "client_closed"))) b) b settled in
    let b := emit_ Detach b in
    let resolves := settleClose b in
    let b := hold (set_close true false b) in
    if resolves then emit_ CloseResolved b else b.
Definition dispatch (e : event) (b : bridge) : bridge :=
  match e with
  | TaskCompleted requestId outcome => taskCompleted requestId outcome b
  | EffectAsked effectId op => effect effectId op b
  | RuntimeClosed => terminate b
  | ObserverChanged observerId v => snapshot observerId v (emit ObserverChangedType e b)
  | CancelEffect effectId => emit CancelEffectType e (cancelCallback effectId b)
  | TransactionCallState _ => emit TransactionCallStateType e b
  | CallCompleted _ => emit CallCompletedType e b
  | Report _ => emit ReportType e b
  | UnknownEvent => b
  end.
(** [#drain], over what [runtimeDrain] answers each time it is called. *)
Fixpoint drainLoop (answers : list (result (list event))) (b : bridge) : bridge :=
  if closed b then b
  else match answers with
       | Ok ((_ :: _) as events) :: answers => drainLoop answers (foldl (λ b e, dispatch e b) b events)
       | _ => b
       end.
Definition drain (answers : list (result (list event))) (b : bridge) : bridge :=
  if dispatching b then b
  else set_dispatching false (drainLoop answers (set_dispatching true b)).

(** ** Continuations of a started callback *)
Definition callbackOf (requestId : string) (local : bool) (b : bridge) : option callback :=
  fieldOf requestId (if local then locals b else callbacks b).
(** It runs unless its effect was cancelled or its route is gone. *)
Definition mayRun (requestId : string) (local : bool) (b : bridge) : bool :=
  match callbackOf requestId local b, fieldOf requestId (routes b) with
  | Some c, Some _ => negb (cancelled c)
  | _, _ => false
  end.
Definition resume (c : callback) : callback :=
  Callback (transaction_of c) (scope_of c) (effectId_of c) (cancelled c) (thrown c) (started c) true.
Definition begin (requestId : string) (local : bool) (b : bridge) : bridge :=
  match callbackOf requestId local b with
  | Some c =>
      if started c && negb (resumed c) then
        let runs := mayRun requestId local b in
        let b := if local then set_locals (setField requestId (resume c) (locals b)) b
                 else set_callbacks (setField requestId (resume c) (callbacks b)) b in
        if runs then emit_ (Ran requestId) b else b
      else b
  | None => b
  end.
(** It ended: the thrown value is retained, and the effect answered. *)
Definition retain (e : exn) (c : callback) : callback :=
  Callback (transaction_of c) (scope_of c) (effectId_of c) (cancelled c) (Some e) (started c) (resumed c).
Definition finish (requestId effectId transactionId : string) (companionId : option string)
    (outcome : result (list (string * value))) (error : string) (b : bridge) : bridge :=
  let b := match outcome with
           | Ok _ => b
           | Throw e =>
               let update l := match fieldOf requestId l with
                               | Some c => setField requestId (retain e c) l | None => l end in
               match companionId with
               | Some _ => set_locals (update (locals b)) b
               | None => set_callbacks (update (callbacks b)) b
               end
           end in
  answer (callbackResult effectId transactionId companionId
    (match outcome with Ok fields => ("ok", VBool true) :: fields
                   | Throw _ => [("ok", VBool false); str_field "error" error] end)) b.

(** ** Runs

    A [Begin] is the continuation of a resolved [started] Promise and does
    nothing without one.  A [Finish] is the end of a callback; a run that has one
    without its [Begin] is more than the code can do. *)
Inductive step_ :=
| Api (c : api)
| Wake (answers : list (result (list event)))
| Begin (requestId : string) (local : bool)
| Finish (requestId effectId transactionId : string) (companionId : option string)
    (outcome : result (list (string * value))) (error : string).
Definition step (s : step_) (b : bridge) : bridge :=
  match s with
  | Api c => call c b
  | Wake answers => drain answers b
  | Begin requestId local => begin requestId local b
  | Finish requestId effectId transactionId companionId outcome error =>
      finish requestId effectId transactionId companionId outcome error b
  end.
(** A bridge is opened by its first route, the [open] request. *)
Definition opened (request : list (string * value)) : bridge :=
  route (λ r, VObj (request ++ [str_field "type" "open"; ("protocol", VNum (NInt 5)); str_field "requestId" r]))
    (λ _ b, b) None newBridge.
Definition run (request : list (string * value)) (steps : list step_) : bridge :=
  foldl (λ b s, step s b) (opened request) steps.
End bridge.
