(* ===== verification/BridgeFacts.v ===== *)
(** Promise routes and application callbacks of the bridge: settled exactly
    once, run at most once, and the process kept alive exactly as long. *)
From S2P Require Import Prelude Text Dates Json Effects Bridge.
Open Scope Z_scope.

(** ** Keys of property lists *)
(** ** What the log says *)
Definition settledId (o : output) : option string := match o with Settled r _ => Some r | _ => None end.
Definition ranId (o : output) : option string := match o with Ran r => Some r | _ => None end.
Definition settledIds (l : list output) : list string := omap settledId l.
Definition ranIds (l : list output) : list string := omap ranId l.
Definition silent (o : output) : Prop := settledId o = None ∧ ranId o = None.
(** No callback runs after its route settled. *)
Definition ordered (l : list output) : Prop :=
  ∀ l1 r l2, l = l1 ++ Ran r :: l2 → r ∉ settledIds l1.

Lemma settledIds_app l k : settledIds (l ++ k) = settledIds l ++ settledIds k.
Proof. apply omap_app. Qed.
Lemma ranIds_app l k : ranIds (l ++ k) = ranIds l ++ ranIds k.
Proof. apply omap_app. Qed.
Lemma silent_ids l : Forall silent l → settledIds l = [] ∧ ranIds l = [].
Proof.
  induction 1 as [|o l [Hs Hr] _ [IH1 IH2]]; [done|]. unfold settledIds, ranIds. cbn.
  by rewrite Hs, Hr.
Qed.
Lemma ordered_snoc l o : ordered l → (∀ r, o = Ran r → r ∉ settledIds l) → ordered (l ++ [o]).
Proof.
  intros Hl Ho l1 r l2 Heq. destruct l2 as [|x l2 _] using rev_ind.
  - apply app_inj_tail in Heq as [-> ->]. by apply Ho.
  - rewrite app_comm_cons, app_assoc in Heq. apply app_inj_tail in Heq as [-> _]. by eapply Hl.
Qed.
Lemma ordered_app l k : ordered l → (∀ o, o ∈ k → ranId o = None) → ordered (l ++ k).
Proof.
  revert l. induction k as [|o k IH]; intros l Hl Hk; [by rewrite app_nil_r|].
  rewrite cons_middle, app_assoc. apply IH; [|set_solver].
  apply ordered_snoc; [done|]. intros r ->. specialize (Hk (Ran r)). set_solver.
Qed.

(** ** The invariant

    [flight] lists the requests whose route was taken and whose Promise is not
    settled yet, while application code runs. *)
Definition owned (flight : list string) (b : bridge) : list string :=
  flight ++ settledIds (output_log b) ++ (routes b).*1.
Definition candidates (b : bridge) : list (string * callback) := callbacks b ++ locals b.
Record inv (flight : list string) (b : bridge) : Prop := {
  inv_issued : 0 ≤ issued b;
  inv_nodup : NoDup (owned flight b);
  inv_owned : ∀ k, k ∈ owned flight b ↔ ∃ n, 1 ≤ n ≤ issued b ∧ k = pretty n;
  inv_alive : keepAlive b = outstanding b;
  inv_closed : closed b = true →
    routes b = [] ∧ callbacks b = [] ∧ locals b = [] ∧ closing b = true;
  inv_candidates : NoDup (candidates b).*1;
  inv_routed : ∀ k, k ∈ (candidates b).*1 → k ∈ (routes b).*1;
  inv_ran : NoDup (ranIds (output_log b));
  inv_ran_owned : ∀ k, k ∈ ranIds (output_log b) → k ∈ owned flight b;
  inv_resumed : ∀ k c, (k, c) ∈ candidates b → k ∈ ranIds (output_log b) → resumed c = true;
  inv_ordered : ordered (output_log b) }.

(** The part of the state the invariant reads. *)
Definition core (b : bridge) :=
  (issued b, routes b, (callbacks b, locals b), (closing b, settleClose b, closed b, keepAlive b)).
(** [b'] differs from [b] by listeners and by silent outputs. *)
Definition quiet (b b' : bridge) : Prop :=
  core b' = core b ∧ ∃ l, output_log b' = output_log b ++ l ∧ Forall silent l.
#[global] Instance quiet_preorder : PreOrder quiet.
Proof.
  split.
  - intros b. split; [done|]. exists []. by rewrite app_nil_r.
  - intros b1 b2 b3 [H1 (l1 & L1 & S1)] [H2 (l2 & L2 & S2)]. split; [congruence|].
    exists (l1 ++ l2). rewrite L2, L1, app_assoc. split; [done|by apply Forall_app].
Qed.
Lemma quiet_inv flight b b' : quiet b b' → inv flight b → inv flight b'.
Proof.
  intros [Hc (l & Hl & Hs)] [H1 H2 H3 H4 H5 H6 H7 H8 H9 H10 H11]. unfold core in Hc.
  injection Hc as Ci Cr Cc Cl Cg Cs Cd Ck.
  destruct (silent_ids _ Hs) as [Hset Hran].
  assert (settledIds (output_log b') = settledIds (output_log b)) as Es
    by (by rewrite Hl, settledIds_app, Hset, app_nil_r).
  assert (ranIds (output_log b') = ranIds (output_log b)) as Er
    by (by rewrite Hl, ranIds_app, Hran, app_nil_r).
  assert (outstanding b' = outstanding b) as Eo by (unfold outstanding; by rewrite Cr, Cs).
  assert (owned flight b' = owned flight b) as Ew by (unfold owned; congruence).
  assert (candidates b' = candidates b) as Ec by (unfold candidates; congruence).
  split; rewrite ?Es, ?Er, ?Ew, ?Ec, ?Eo; try congruence; try done.
  - intros k. rewrite H3. by replace (issued b') with (issued b) by congruence.
  - intros Hcl. replace (closed b') with (closed b) in Hcl by congruence.
    destruct (H5 Hcl) as (? & ? & ? & ?). split_and!; congruence.
  - intros k Hk. replace (routes b') with (routes b) by congruence. auto.
  - rewrite Hl. apply ordered_app; [done|]. intros o Ho.
    exact (proj2 (proj1 (Forall_forall _ _) Hs _ Ho)).
Qed.
Lemma quiet_emit o b : silent o → quiet b (emit_ o b).
Proof. intros Ho. split; [done|]. exists [o]. split; [done|]. by apply Forall_singleton. Qed.
Lemma quiet_observers o b : quiet b (set_observers o b).
Proof. split; [done|]. exists []. by rewrite app_nil_r. Qed.
Lemma quiet_listeners l b : quiet b (set_listeners l b).
Proof. split; [done|]. exists []. by rewrite app_nil_r. Qed.
Lemma quiet_effects l b : quiet b (set_effects l b).
Proof. split; [done|]. exists []. by rewrite app_nil_r. Qed.
Lemma quiet_dispatching d b : quiet b (set_dispatching d b).
Proof. split; [done|]. exists []. by rewrite app_nil_r. Qed.
#[export] Hint Resolve quiet_observers quiet_listeners quiet_effects quiet_dispatching : axton.
#[export] Hint Extern 2 (quiet _ (emit_ _ _)) => apply quiet_emit; done : axton.

(** ** Routes opened and taken *)
Lemma hold_id b : keepAlive b = outstanding b → hold b = b.
Proof. intros H. unfold hold. rewrite <- H. by destruct b. Qed.
Definition fresh (b : bridge) : string := pretty (issued b + 1).
Lemma fresh_owned flight b : inv flight b → fresh b ∉ owned flight b.
Proof. intros Hb Hk. apply (inv_owned _ _ Hb) in Hk as (n & Hn & Heq). apply pretty_Z_inj in Heq. lia. Qed.
Definition openRoute (hook : option nat) (b : bridge) : bridge :=
  let b := issue b in hold (set_routes (setField (pretty (issued b)) hook (routes b)) b).
Lemma openRoute_inv flight hook b : inv flight b → closed b = false → inv flight (openRoute hook b).
Proof.
  intros Hb Hc. pose proof (fresh_owned _ _ Hb) as Hf. unfold owned, fresh in Hf.
  assert (pretty (issued b + 1) ∉ (routes b).*1) as Hr by set_solver.
  destruct Hb as [H1 H2 H3 H4 H5 H6 H7 H8 H9 H10 H11].
  assert (∀ k, k ∈ owned flight (openRoute hook b) ↔ k = pretty (issued b + 1) ∨ k ∈ owned flight b) as Hown.
  { intros k. unfold owned, openRoute. cbn. rewrite setField_keys_new by done. set_solver. }
  split; cbn; try done.
  - lia.
  - unfold owned, openRoute. cbn. rewrite setField_keys_new, !app_assoc by done.
    apply NoDup_app. unfold owned in H2. rewrite <- app_assoc. split_and!; [done| |apply NoDup_singleton].
    set_solver.
  - intros k. rewrite Hown, H3. split.
    + intros [->|(n & Hn & ->)]; [exists (issued b + 1)|exists n]; split; (lia || done).
    + intros (n & Hn & ->). destruct (decide (n = issued b + 1)) as [->|]; [by left|right].
      exists n. split; [lia|done].
  - congruence.
  - intros k Hk. rewrite setField_keys_new by done. set_solver.
  - intros k Hk. rewrite Hown. right. auto.
Qed.
Lemma openRoute_fresh flight hook b :
  inv flight b → (fresh b ∉ (candidates (openRoute hook b)).*1) ∧ (fresh b ∉ ranIds (output_log b)) ∧
  fieldOf (fresh b) (routes (openRoute hook b)) = Some hook.
Proof.
  intros Hb. pose proof (fresh_owned _ _ Hb) as Hf. split_and!.
  - intros Hk. apply (inv_routed _ _ Hb) in Hk. unfold owned in Hf. set_solver.
  - intros Hk. by apply (inv_ran_owned _ _ Hb) in Hk.
  - cbn. rewrite fieldOf_setField. unfold fresh. by rewrite String.eqb_refl.
Qed.

(** Taking a route with its callback. *)
Lemma candidates_forget r b : candidates (forget r b) = removeKey r (candidates b).
Proof. unfold candidates, forget, removeKey. cbn. by rewrite filter_app. Qed.
Lemma take_inv flight r h b : inv flight b → fieldOf r (routes b) = Some h →
  inv (r :: flight) (forget r (settle r b).2).
Proof.
  intros [H1 H2 H3 H4 H5 H6 H7 H8 H9 H10 H11] Hr%fieldOf_Some_key.
  set (b' := forget r (settle r b).2).
  assert (Permutation (owned (r :: flight) b') (owned flight b)) as Hown.
  { unfold owned, b'. cbn. rewrite removeKey_keys. rewrite Permutation_middle. apply Permutation_app_head.
    rewrite Permutation_middle. apply Permutation_app_head.
    assert (NoDup (routes b).*1) as Hd.
    { unfold owned in H2. apply NoDup_app in H2 as (_ & _ & H2). by apply NoDup_app in H2 as (_ & _ & H2). }
    clear -Hr Hd. induction (routes b).*1 as [|k l IH]; [set_solver|].
    apply NoDup_cons in Hd as [Hk Hd]. rewrite filter_cons. destruct (decide (k = r)) as [->|Hne].
    - rewrite decide_False by tauto. apply perm_skip.
      rewrite <- (app_nil_r (filter _ l)). clear IH Hr Hd.
      induction l as [|x l IH]; [done|]. rewrite filter_cons, decide_True by set_solver. cbn.
      apply perm_skip, IH. set_solver.
    - rewrite decide_True by done. rewrite (perm_swap k r). apply perm_skip, IH; [set_solver|done]. }
  assert (candidates b' = removeKey r (candidates b)) as Hcand by exact (candidates_forget r (settle r b).2).
  split; try done.
  - by rewrite Hown.
  - intros k. rewrite Hown. apply H3.
  - intros Hc. destruct (H5 Hc) as (E & _ & _ & _). rewrite E in Hr. set_solver.
  - rewrite Hcand, removeKey_keys. by apply NoDup_filter.
  - intros k. rewrite Hcand, removeKey_keys. cbn. rewrite removeKey_keys, !list_elem_of_filter. naive_solver.
  - intros k Hk. rewrite Hown. by apply H9.
  - intros k c. rewrite Hcand, removeKey_elem. intros [_ Hin]. by apply H10.
Qed.
Lemma settled_inv flight r o b : inv (r :: flight) b → inv flight (emit_ (Settled r o) b).
Proof.
  intros [H1 H2 H3 H4 H5 H6 H7 H8 H9 H10 H11].
  set (b' := emit_ (Settled r o) b).
  assert (Permutation (owned flight b') (owned (r :: flight) b)) as Hown.
  { unfold owned, b'. cbn. rewrite settledIds_app. cbn. rewrite (Permutation_app_comm (settledIds _) [r]).
    cbn. by rewrite <- Permutation_middle. }
  assert (ranIds (output_log b') = ranIds (output_log b)) as Er
    by (unfold b'; cbn; rewrite ranIds_app; cbn; by rewrite app_nil_r).
  split; rewrite ?Er; try done.
  - by rewrite Hown.
  - intros k. by rewrite Hown.
  - intros k Hk. rewrite Hown. auto.
  - unfold b'. cbn. apply ordered_app; [done|]. set_solver.
Qed.
Lemma settle_absent flight r b : inv flight b → fieldOf r (routes b) = None → forget r (settle r b).2 = b.
Proof.
  intros Hb Hr%fieldOf_None_key.
  assert (r ∉ (candidates b).*1) as Hc by (intros Hk; by apply (inv_routed _ _ Hb) in Hk).
  unfold candidates in Hc. rewrite fmap_app, elem_of_app in Hc.
  assert ((settle r b).2 = b) as ->.
  { unfold settle. cbn [snd]. rewrite removeKey_fresh by done.
    pose proof (inv_alive _ _ Hb) as Ha. destruct b. cbn in *. unfold hold, outstanding in *. cbn in *. by rewrite <- Ha. }
  unfold forget. cbn. rewrite (removeKey_fresh r (callbacks b)), (removeKey_fresh r (locals b)) by tauto.
  by destruct b.
Qed.

(** ** Callbacks registered and updated *)
Lemma candidates_inv flight b b' :
  inv flight b → core (set_locals (locals b) (set_callbacks (callbacks b) b')) = core b →
  output_log b' = output_log b → (candidates b').*1 = (candidates b).*1 →
  (∀ k c', (k, c') ∈ candidates b' → ∃ c, (k, c) ∈ candidates b ∧ (resumed c = true → resumed c' = true)) →
  (candidates b = [] → callbacks b' = [] ∧ locals b' = []) →
  inv flight b'.
Proof.
  intros [H1 H2 H3 H4 H5 H6 H7 H8 H9 H10 H11] Hc Hl Hk He Hn.
  unfold core in Hc. cbn in Hc. injection Hc as Ci Cr Cg Cs Cd Ck.
  assert (outstanding b' = outstanding b) as Eo by (unfold outstanding; by rewrite Cr, Cs).
  assert (owned flight b' = owned flight b) as Ew by (unfold owned; by rewrite Hl, Cr).
  split; rewrite ?Hl, ?Ew, ?Hk, ?Eo, ?Ci, ?Cr, ?Ck; try done.
  - intros Hcl. rewrite Cd in Hcl. destruct (H5 Hcl) as (E1 & E2 & E3 & E4).
    destruct Hn as [N1 N2]; [unfold candidates; by rewrite E2, E3|]. split_and!; try done. by rewrite Cg.
  - intros k c' Hin Hr. destruct (He _ _ Hin) as (c & Hin' & Himp). apply Himp. by eapply H10.
Qed.
Lemma setField_resumed (g : callback → callback) k c l :
  (resumed c = true → resumed (g c) = true) → fieldOf k l = Some c →
  (setField k (g c) l).*1 = l.*1 ∧
  ∀ j c', (j, c') ∈ setField k (g c) l → ∃ c0, (j, c0) ∈ l ∧ (resumed c0 = true → resumed c' = true).
Proof.
  intros Hg Hc. split; [by eapply setField_keys_old, fieldOf_Some_key|].
  intros j c' [Heq|Hin]%setField_elem; [|eauto]. simplify_eq. exists c. split; [by apply fieldOf_elem_of|done].
Qed.
Lemma update_callback_inv flight g k c b :
  (resumed c = true → resumed (g c) = true) → fieldOf k (callbacks b) = Some c →
  inv flight b → inv flight (set_callbacks (setField k (g c) (callbacks b)) b).
Proof.
  intros Hg Hc Hb. destruct (setField_resumed g _ _ _ Hg Hc) as [Hk He].
  apply (candidates_inv _ b); try done.
  - unfold candidates. cbn. by rewrite !fmap_app, Hk.
  - intros j c'. unfold candidates. cbn. rewrite elem_of_app. intros [Hin|Hin].
    + destruct (He _ _ Hin) as (c0 & ? & ?). exists c0. rewrite elem_of_app. auto.
    + exists c'. rewrite elem_of_app. auto.
  - unfold candidates. intros [Hn _]%app_eq_nil. by rewrite Hn in Hc.
Qed.
Lemma update_local_inv flight g k c b :
  (resumed c = true → resumed (g c) = true) → fieldOf k (locals b) = Some c →
  inv flight b → inv flight (set_locals (setField k (g c) (locals b)) b).
Proof.
  intros Hg Hc Hb. destruct (setField_resumed g _ _ _ Hg Hc) as [Hk He].
  apply (candidates_inv _ b); try done.
  - unfold candidates. cbn. by rewrite !fmap_app, Hk.
  - intros j c'. unfold candidates. cbn. rewrite elem_of_app. intros [Hin|Hin].
    + exists c'. rewrite elem_of_app. auto.
    + destruct (He _ _ Hin) as (c0 & ? & ?). exists c0. rewrite elem_of_app. auto.
  - unfold candidates. intros [_ Hn]%app_eq_nil. by rewrite Hn in Hc.
Qed.
Lemma cancelCallback_inv flight effectId b : inv flight b → inv flight (cancelCallback effectId b).
Proof.
  intros Hb. assert (∀ c, resumed (cancel effectId c) = resumed c) as Hr
    by (intros c; unfold cancel; by case_bool_decide).
  apply (candidates_inv _ b); try done.
  - unfold candidates. cbn. rewrite !fmap_app, <- !list_fmap_compose. done.
  - intros k c'. unfold candidates. cbn. rewrite <- fmap_app.
    intros ([k0 c0] & Heq & Hin)%list_elem_of_fmap. cbn in Heq. simplify_eq. exists c0.
    split; [done|]. by rewrite Hr.
  - unfold candidates. intros [H1 H2]%app_eq_nil. cbn. by rewrite H1, H2.
Qed.
Definition registers (register : string → bridge → bridge) : Prop :=
  ∀ r b, register r b = b ∨
    ∃ c, resumed c = false ∧
      (register r b = set_callbacks (setField r c (callbacks b)) b ∨
       register r b = set_locals (setField r c (locals b)) b).
(** The callback of a route just opened. *)
Lemma register_inv flight register r h b :
  registers register → inv flight b → closed b = false → (r ∉ (candidates b).*1) → (r ∉ ranIds (output_log b)) →
  fieldOf r (routes b) = Some h → inv flight (register r b).
Proof.
  intros Hreg Hb Hcl Hc Hran Hr%fieldOf_Some_key.
  destruct (Hreg r b) as [->|(c & Hrc & Heq)]; [done|].
  assert ((r ∉ (callbacks b).*1) ∧ (r ∉ (locals b).*1)) as [Hcc Hll]
    by (unfold candidates in Hc; rewrite fmap_app, elem_of_app in Hc; tauto).
  assert (Permutation (candidates (register r b)).*1 (r :: (candidates b).*1)) as Hperm.
  { unfold candidates. destruct Heq as [-> | ->]; cbn; rewrite !fmap_app, setField_keys_new by done.
    - rewrite <- app_assoc. cbn. by rewrite Permutation_middle.
    - rewrite app_assoc. by rewrite Permutation_app_comm. }
  assert (∀ k c', (k, c') ∈ candidates (register r b) → k = r ∨ (k, c') ∈ candidates b) as Helem.
  { unfold candidates. intros k c'. destruct Heq as [-> | ->]; cbn; rewrite !elem_of_app.
    - intros [[|]%setField_elem|]; [simplify_eq; auto|auto..].
    - intros [|[|]%setField_elem]; [auto|simplify_eq; auto|auto]. }
  destruct Hb as [H1 H2 H3 H4 H5 H6 H7 H8 H9 H10 H11].
  assert (issued (register r b) = issued b ∧ routes (register r b) = routes b ∧
    output_log (register r b) = output_log b ∧ keepAlive (register r b) = keepAlive b ∧
    settleClose (register r b) = settleClose b ∧ closed (register r b) = closed b) as (E1 & E2 & E3 & E4 & E5 & E6)
    by (by destruct Heq as [-> | ->]).
  assert (owned flight (register r b) = owned flight b) as Ew by (unfold owned; by rewrite E2, E3).
  split; rewrite ?E1, ?E2, ?E3, ?E4, ?E6, ?Ew; try done.
  - unfold outstanding. by rewrite E2, E5.
  - congruence.
  - rewrite Hperm. by constructor.
  - intros k. rewrite Hperm, elem_of_cons. intros [->|]; auto.
  - intros k c' [->|Hin]%Helem Hk; [done|by eapply H10].
Qed.

(** ** Every step keeps the invariant *)
Section steps.
Variable refuses : list output → value → option exn.
Variable listener : nat → output → list api * option exn.

Lemma submit_quiet message b : quiet b (submit refuses message b).2.
Proof.
  unfold submit. destruct (strictJson message); [|done]. destruct (refuses _ _); [done|].
  by apply quiet_emit.
Qed.
Lemma answer_quiet message b : quiet b (answer refuses message b).
Proof. unfold answer. destruct (closed b); [done|apply submit_quiet]. Qed.

Lemma route_inv flight envelope register hook b :
  registers register → inv flight b → closed b = false →
  inv flight (route refuses envelope register hook b).
Proof.
  intros Hreg Hb Hc. pose proof (openRoute_inv flight hook b Hb Hc) as Ho.
  destruct (openRoute_fresh flight hook b Hb) as (Hf & Hran & Hroute).
  unfold route. change (hold (set_routes (setField (pretty (issued (issue b))) hook (routes (issue b))) (issue b)))
    with (openRoute hook b). change (pretty (issued (issue b))) with (fresh b).
  pose proof (register_inv flight register (fresh b) hook (openRoute hook b) Hreg Ho Hc Hf Hran Hroute) as Hr.
  assert (routes (register (fresh b) (openRoute hook b)) = routes (openRoute hook b)) as Er
    by (destruct (Hreg (fresh b) (openRoute hook b)) as [->|(c & _ & [-> | ->])]; done).
  pose proof (submit_quiet (envelope (fresh b)) (register (fresh b) (openRoute hook b))) as Hq.
  destruct (submit _ _ _) as [[[]|e] b'] eqn:Hs; cbn [snd] in Hq.
  - by eapply quiet_inv.
  - pose proof (quiet_inv _ _ _ Hq Hr) as Hb'.
    assert (fieldOf (fresh b) (routes b') = Some hook) as Hrt.
    { destruct Hq as [Hcore _]. unfold core in Hcore. injection Hcore as _ -> _ _ _ _ _ _. by rewrite Er. }
    pose proof (take_inv _ _ _ _ Hb' Hrt) as Ht. unfold settle in *. rewrite Hrt. cbn [snd] in Ht.
    exact (settled_inv _ _ (Throw e) _ Ht).
Qed.
Lemma submitRouted_inv flight envelope register hook b :
  registers register → inv flight b → inv flight (submitRouted refuses envelope register hook b).
Proof.
  intros Hreg Hb. unfold submitRouted. destruct (closing b || closed b) eqn:Hc.
  - eapply quiet_inv; [by apply quiet_emit|done].
  - apply route_inv; [done..|]. by apply orb_false_iff in Hc as [_ ?].
Qed.
Lemma registers_none : registers (λ _ b, b).
Proof. intros r b. by left. Qed.
Lemma closeBridge_inv flight b : inv flight b → inv flight (closeBridge refuses b).
Proof.
  intros Hb. unfold closeBridge. destruct (closing b) eqn:Hcg; [done|].
  destruct (closed b) eqn:Hcl.
  { destruct (inv_closed _ _ Hb Hcl) as (_ & _ & _ & ?). congruence. }
  assert (inv flight (hold (set_close false true b))) as Hh.
  { destruct Hb as [H1 H2 H3 H4 H5 H6 H7 H8 H9 H10 H11]. split; try done. cbn. congruence. }
  pose proof (submit_quiet (VObj [str_field "type" "close"]) (hold (set_close false true b))) as Hq.
  destruct (submit _ _ _) as [r b'] eqn:Hs. cbn [snd] in Hq.
  assert (settleClose b' = true ∧ closed b' = false) as [Hsc Hcb].
  { destruct Hq as [Hcore _]. unfold core in Hcore. injection Hcore as _ _ _ _ _ E1 E2 _.
    cbn in E1, E2. split; congruence. }
  pose proof (quiet_inv _ _ _ Hq Hh) as [H1 H2 H3 H4 H5 H6 H7 H8 H9 H10 H11].
  split; try done. cbn. congruence.
Qed.
Lemma call_inv flight c b : inv flight b → inv flight (call refuses c b).
Proof.
  intros Hb. destruct c; cbn [call]; repeat case_match;
    try apply submitRouted_inv; try apply closeBridge_inv; try exact registers_none; try done;
    try (eapply quiet_inv; [|exact Hb]); auto with axton.
  - intros r b0. right. exists (newCallback None None). auto.
  - intros r b0. destruct hasLocal; [|by left]. right. exists (newCallback (Some transactionId) scope). auto.
  - apply answer_quiet.
Qed.
Lemma calls_inv flight l b : inv flight b → inv flight (calls refuses l b).
Proof. revert b. induction l as [|c l IH]; intros b Hb; [done|]. apply IH, call_inv, Hb. Qed.
Lemma invoke_inv flight o fn b : silent o → inv flight b → inv flight (invoke refuses listener o fn b).2.
Proof.
  intros Ho Hb. unfold invoke. destruct (listener fn o) as [l e]. cbn [snd].
  apply calls_inv. eapply quiet_inv; [by apply quiet_emit|done].
Qed.
Lemma guarded_inv flight o fn b : silent o → inv flight b → inv flight (guarded refuses listener o fn b).
Proof.
  intros Ho Hb. unfold guarded. pose proof (invoke_inv flight o fn b Ho Hb) as Hi.
  destruct (invoke _ _ _ _ _) as [[e|] b']; cbn [snd] in Hi; [|done].
  eapply quiet_inv; [by apply quiet_emit|done].
Qed.
Lemma emit_inv flight type e b : inv flight b → inv flight (emit refuses listener type e b).
Proof.
  unfold emit. generalize (base.filter (λ p, sameType p.1 type = true) (listeners b)). intros l. revert b.
  induction l as [|p l IH]; intros b Hb; [done|]. apply IH. by apply guarded_inv.
Qed.
Lemma snapshot_inv flight observerId v b : inv flight b → inv flight (snapshot refuses listener observerId v b).
Proof.
  intros Hb. unfold snapshot. destruct (fieldOf observerId (observers b)) as [fn|]; [|done].
  apply guarded_inv; [done|]. repeat case_match; try done. eapply quiet_inv; [apply quiet_observers|done].
Qed.
Lemma startWith_inv flight r eid t co c b : inv flight b → inv flight (startWith r eid t co c b).
Proof.
  intros Hb. unfold startWith. destruct (started c); [done|]. eapply quiet_inv; [by apply quiet_emit|done].
Qed.
Lemma effect_inv flight effectId op b : inv flight b → inv flight (effect refuses listener effectId op b).
Proof.
  intros Hb. destruct op as [r t|r t co|kind payload]; cbn [effect].
  - destruct (fieldOf r (callbacks b)) as [c|] eqn:Hc.
    + apply startWith_inv. by apply update_callback_inv.
    + eapply quiet_inv; [apply answer_quiet|done].
  - destruct (fieldOf r (locals b)) as [c|] eqn:Hc.
    + apply startWith_inv. by apply update_local_inv.
    + eapply quiet_inv; [apply answer_quiet|done].
  - destruct (fieldOf kind (effects b)) as [fn|]; [by apply guarded_inv|].
    eapply quiet_inv; [apply answer_quiet|done].
Qed.
Lemma taskCompleted_inv flight r outcome b :
  inv flight b → inv flight (taskCompleted refuses listener r outcome b).
Proof.
  intros Hb. unfold taskCompleted. destruct (fieldOf r (routes b)) as [hook|] eqn:Hr.
  - pose proof (take_inv _ _ _ _ Hb Hr) as Ht. unfold settle in *. cbn [snd] in Ht. rewrite Hr.
    destruct outcome as [v|error details]; [destruct hook as [fn|]|]; [|by apply settled_inv..].
    pose proof (invoke_inv (r :: flight) (Hook fn v) fn _ ltac:(done) Ht) as Hi.
    destruct (invoke _ _ _ _ _) as [e b']. by apply settled_inv.
  - pose proof (settle_absent _ _ _ Hb Hr) as Ha. unfold settle in *. cbn [snd] in Ha. rewrite Hr. by rewrite Ha.
Qed.
(** Rejecting every route at the end. *)
Definition rejectAll (l : list (string * option nat)) (b : bridge) : bridge :=
  foldl (λ b p, emit_ (Settled p.1 (Throw (Error "client_closed"))) b) b l.
Lemma rejectAll_spec l b :
  core (rejectAll l b) = core b ∧
  ∃ k, output_log (rejectAll l b) = output_log b ++ k ∧ settledIds k = l.*1 ∧ ranIds k = [].
Proof.
  revert b. induction l as [|p l IH]; intros b; cbn.
  - split; [done|]. exists []. by rewrite app_nil_r.
  - destruct (IH (emit_ (Settled p.1 (Throw (Error "client_closed"))) b)) as [Hc (k & Hl & Hs & Hr)].
    unfold rejectAll in *. split; [done|].
    exists (Settled p.1 (Throw (Error "client_closed")) :: k). rewrite Hl. cbn. rewrite <- app_assoc.
    split_and!; [done| |done]. unfold settledIds in *. cbn. by rewrite Hs.
Qed.
Lemma terminate_inv flight b : inv flight b → inv flight (terminate b).
Proof.
  intros Hb. unfold terminate. destruct (closed b) eqn:Hcl; [done|].
  set (b0 := set_observers _ _). change (foldl _ b0 (routes b)) with (rejectAll (routes b) b0).
  destruct (rejectAll_spec (routes b) b0) as [Hc (k & Hl & Hs & Hr)].
  unfold core in Hc. cbn in Hc. injection Hc as Ci Cr Cc Cll Cg Cs Cd Ck.
  set (b1 := rejectAll (routes b) b0) in *.
  set (b2 := hold (set_close true false (emit_ Detach b1))).
  assert (inv flight b2) as H2.
  { destruct Hb as [H1 H2 H3 H4 H5 H6 H7 H8 H9 H10 H11].
    assert (settledIds (output_log b2) = settledIds (output_log b) ++ (routes b).*1) as Es
      by (unfold b2; cbn; rewrite Hl, !settledIds_app, Hs; cbn; by rewrite app_nil_r).
    assert (ranIds (output_log b2) = ranIds (output_log b)) as Er
      by (unfold b2; cbn; rewrite Hl, !ranIds_app, Hr; cbn; by rewrite !app_nil_r).
    assert (owned flight b2 = owned flight b) as Ew.
    { unfold owned. rewrite Es. unfold b2. cbn. rewrite Cr. cbn. by rewrite app_nil_r. }
    assert (candidates b2 = []) as Ec by (unfold candidates, b2; cbn; by rewrite Cc, Cll).
    split; rewrite ?Er, ?Ew, ?Ec; try done.
    - unfold b2. cbn. by rewrite Ci.
    - intros j. rewrite H3. unfold b2. cbn. by rewrite Ci.
    - constructor.
    - intros j Hj. set_solver.
    - intros j c Hj. set_solver.
    - unfold b2. cbn. rewrite Hl. cbn. rewrite <- app_assoc. apply ordered_app; [done|].
      intros o. rewrite elem_of_app. intros [Ho|Ho%list_elem_of_singleton]; [|by subst].
      destruct (ranId o) as [x|] eqn:Hx; [|done].
      assert (x ∈ ranIds k) as Hin by (apply list_elem_of_omap; eauto). rewrite Hr in Hin. set_solver. }
  destruct (settleClose (emit_ Detach b1)); [|done]. eapply quiet_inv; [by apply quiet_emit|done].
Qed.
Lemma dispatch_inv flight e b : inv flight b → inv flight (dispatch refuses listener e b).
Proof.
  intros Hb. destruct e; cbn [dispatch]; try done; try by apply emit_inv.
  - by apply taskCompleted_inv.
  - by apply effect_inv.
  - by apply terminate_inv.
  - by apply snapshot_inv, emit_inv.
  - by apply emit_inv, cancelCallback_inv.
Qed.
Lemma drain_inv flight answers b : inv flight b → inv flight (drain refuses listener answers b).
Proof.
  intros Hb. unfold drain. destruct (dispatching b); [done|].
  eapply quiet_inv; [apply quiet_dispatching|].
  assert (inv flight (set_dispatching true b)) as Hd by (eapply quiet_inv; [apply quiet_dispatching|done]).
  revert Hd. generalize (set_dispatching true b). clear b Hb. intros b Hb.
  revert b Hb. induction answers as [|[[|e events]|] answers IH]; intros b Hb; cbn [drainLoop];
    destruct (closed b); try done.
  apply IH. change (foldl (λ b e, dispatch refuses listener e b) b (e :: events))
    with (foldl (λ b e, dispatch refuses listener e b) (dispatch refuses listener e b) events).
  assert (inv flight (dispatch refuses listener e b)) as H by by apply dispatch_inv.
  revert H. generalize (dispatch refuses listener e b). clear b Hb.
  induction events as [|x events IHe]; intros b Hb; [done|]. apply IHe, dispatch_inv, Hb.
Qed.
Lemma ran_inv flight r local c b :
  inv flight b → callbackOf r local b = Some c → resumed c = false → mayRun r local b = true →
  inv flight (emit_ (Ran r)
    (if local : bool then set_locals (setField r (resume c) (locals b)) b
     else set_callbacks (setField r (resume c) (callbacks b)) b)).
Proof.
  intros Hb Hc Hres Hmay. unfold callbackOf in Hc.
  assert ((r, c) ∈ candidates b) as Hin.
  { apply fieldOf_elem_of in Hc. unfold candidates. rewrite elem_of_app. destruct local; auto. }
  assert (r ∉ ranIds (output_log b)) as Hfresh
    by (intros Hk; pose proof (inv_resumed _ _ Hb _ _ Hin Hk); congruence).
  assert (r ∈ (routes b).*1) as Hroute.
  { apply (inv_routed _ _ Hb). apply list_elem_of_fmap. by exists (r, c). }
  set (b1 := if local then _ else _).
  assert (inv flight b1) as Hb1.
  { unfold b1. destruct local; [by apply update_local_inv|by apply update_callback_inv]. }
  assert (∀ k c', (k, c') ∈ candidates b1 → k = r → resumed c' = true) as Hnew.
  { intros k c' Hk ->. pose proof (inv_candidates _ _ Hb1) as Hd. apply (fieldOf_NoDup _ _ _ Hd) in Hk as Hf.
    assert (fieldOf r (candidates b1) = Some (resume c)) as Hf'; [|rewrite Hf' in Hf; by simplify_eq].
    apply (fieldOf_NoDup _ _ _ Hd). unfold candidates, b1. rewrite elem_of_app.
    destruct local; [right|left]; cbn; apply fieldOf_elem_of; rewrite fieldOf_setField, String.eqb_refl; done. }
  assert (output_log b1 = output_log b ∧ routes b1 = routes b) as [El Er] by (unfold b1; by destruct local).
  destruct Hb1 as [H1 H2 H3 H4 H5 H6 H7 H8 H9 H10 H11].
  assert (owned flight (emit_ (Ran r) b1) = owned flight b1) as Ew
    by (unfold owned; cbn; rewrite settledIds_app; cbn; by rewrite app_nil_r).
  assert (ranIds (output_log (emit_ (Ran r) b1)) = ranIds (output_log b1) ++ [r]) as Eran
    by (cbn; by rewrite ranIds_app).
  split; rewrite ?Ew, ?Eran; try done.
  - apply NoDup_app. split_and!; [done| |apply NoDup_singleton]. rewrite El. set_solver.
  - intros k. rewrite elem_of_app, list_elem_of_singleton. intros [?| ->]; [auto|].
    unfold owned. rewrite Er. set_solver.
  - intros k c' Hk. rewrite elem_of_app, list_elem_of_singleton. intros [?|?]; eauto.
  - cbn. apply ordered_snoc; [done|]. intros x [= <-]. rewrite El.
    pose proof (inv_nodup _ _ Hb) as Hd. unfold owned in Hd.
    apply NoDup_app in Hd as (_ & _ & Hd). apply NoDup_app in Hd as (_ & Hd & _). intros Hk. by apply (Hd r).
Qed.
Lemma begin_inv flight r local b : inv flight b → inv flight (begin r local b).
Proof.
  intros Hb. unfold begin. destruct (callbackOf r local b) as [c|] eqn:Hc; [|done].
  destruct (started c && negb (resumed c)) eqn:Hs; [|done].
  apply andb_true_iff in Hs as [_ Hres%negb_true_iff]. cbv zeta.
  destruct (mayRun r local b) eqn:Hmay; [by apply ran_inv|].
  unfold callbackOf in Hc. destruct local; [by apply update_local_inv|by apply update_callback_inv].
Qed.
Lemma finish_inv flight r eid t co outcome error b :
  inv flight b → inv flight (finish refuses r eid t co outcome error b).
Proof.
  intros Hb. unfold finish. eapply quiet_inv; [apply answer_quiet|].
  destruct outcome as [|e]; [done|].
  destruct co as [co|]; [destruct (fieldOf r (locals b)) as [c|] eqn:Hc|destruct (fieldOf r (callbacks b)) as [c|] eqn:Hc].
  - by apply (update_local_inv _ (retain e)).
  - by destruct b.
  - by apply (update_callback_inv _ (retain e)).
  - by destruct b.
Qed.
Lemma step_inv flight s b : inv flight b → inv flight (step refuses listener s b).
Proof.
  destruct s; cbn [step]; [apply call_inv|apply drain_inv|apply begin_inv|apply finish_inv].
Qed.
Lemma run_inv request steps : inv [] (run refuses listener request steps).
Proof.
  unfold run. assert (inv [] (opened refuses request)) as Ho.
  { apply route_inv; [exact registers_none| |done].
    assert (∀ A (x : A), x ∉ ([] : list A)) as Hnil by (intros A x; apply not_elem_of_nil).
    split; try done; cbn.
    - constructor.
    - intros k. split; [by intros ?%Hnil|]. intros (n & Hn & _). lia.
    - constructor.
    - constructor.
    - by intros k c ?%Hnil.
    - intros l1 r l2 H. by destruct l1. }
  revert Ho. generalize (opened refuses request). induction steps as [|s steps IH]; intros b Hb; [done|].
  apply IH, step_inv, Hb.
Qed.
End steps.

(** ** The theorems *)

(** C4: every Promise settles at most once and none is lost.  Whatever the
    application, its listeners and the runtime do, and however the carrier
    refuses messages, each request issued is either routed or settled exactly
    once, never both; when the runtime has ended none is routed; and the process
    is kept alive exactly while a route or the close is outstanding. *)
Theorem routes_settle_once refuses listener request steps :
  let b := run refuses listener request steps in
  NoDup (settledIds (output_log b) ++ (routes b).*1) ∧
  (∀ k, k ∈ settledIds (output_log b) ++ (routes b).*1 ↔ ∃ n, 1 ≤ n ≤ issued b ∧ k = pretty n) ∧
  (closed b = false ∨ routes b = []) ∧
  keepAlive b = outstanding b.
Proof.
  intros b. destruct (run_inv refuses listener request steps) as [_ Hd Ho Ha Hc _ _ _ _ _ _].
  split_and!; [done..| |done]. fold b in Hc.
  destruct (closed b); [right; by apply Hc|by left].
Qed.


(** A transaction whose callback throws: the runtime reports a failure, and the
    Promise rejects with the thrown value itself. *)
Example transaction_throws :
  let steps := [Api Transaction; Wake [Ok [EffectAsked "e1" (CallbackOp "2" "t1")]]; Begin "2" false;
    Finish "2" "e1" "t1" None (Throw (Error "mine")) "mine";
    Wake [Ok [TaskCompleted "2" (Failed (Some "rolled back") None)]]; Begin "2" false] in
  let b := run (λ _ _, None) (λ _ _, ([], None)) [] steps in
  settledIds (output_log b) = ["2"] ∧ ranIds (output_log b) = ["2"] ∧
  In (Settled "2" (Throw (Error "mine"))) (output_log b).
Proof. vm_compute. tauto. Qed.
