(* ===== verification/BridgeRoutes.v ===== *)
(** One request of the bridge, from its route to its settlement: whatever the
    application, the carrier and the runtime do, a transaction's task stays routed
    with its callback, and with what the callback threw, until it is settled; and
    it settles well only when the runtime completed it. *)
From S2P Require Import Prelude Text Dates Json Effects Bridge BridgeFacts.
Open Scope Z_scope.

(** The requests settled with an answer *)
Definition resolvedIds (l : list output) : list string :=
  omap (λ o, match o with Settled r (Ok _) => Some r | _ => None end) l.
Lemma resolvedIds_app l k : resolvedIds (l ++ k) = resolvedIds l ++ resolvedIds k.
Proof. apply omap_app. Qed.
Lemma resolvedIds_settled l r : r ∈ resolvedIds l → r ∈ settledIds l.
Proof.
  unfold resolvedIds, settledIds. rewrite !list_elem_of_omap. intros (o & Ho & Hr). exists o. split; [done|].
  destruct o as [|r' [v|e]| | | | | | | | | |]; cbn in *; congruence.
Qed.
Lemma silent_resolved l : Forall silent l → resolvedIds l = [].
Proof.
  induction 1 as [|o l [Hs _] _ IH]; [done|]. unfold resolvedIds in *. cbn. by destruct o as [|r' [v|e]| | | | | | | | | |].
Qed.
(** The requests a batch of events completes with an answer *)
Definition completes (r : string) (e : event) : Prop :=
  match e with TaskCompleted r' (Completed _) => r' = r | _ => False end.

(** A transaction's task, with what its callback threw so far *)
Definition held (r : string) (t : option exn) (b : bridge) : Prop :=
  fieldOf r (routes b) = Some None ∧ ∃ c, fieldOf r (callbacks b) = Some c ∧ thrown c = t.

Section carried.
Variable n : Z.
Variable t : option exn.
Variable Q : Prop.                               (* what the runtime waits for *)
Abbreviation r := (pretty n).

(** [taken]: the route was taken and its Promise is not settled yet. *)
Record carried (taken : Prop) (b : bridge) : Prop := {
  carried_issued : n ≤ issued b;
  carried_held : taken ∨ r ∈ settledIds (output_log b) ∨ held r t b;
  carried_resolved : r ∈ resolvedIds (output_log b) → Q }.

Lemma carried_weaken (p q : Prop) b : (p → q) → carried p b → carried q b.
Proof. intros H [H1 H2 H3]. split; [done| |done]. destruct H2; auto. Qed.
Lemma carried_quiet p b b' : quiet b b' → carried p b → carried p b'.
Proof.
  intros [Hc (l & Hl & Hs)] [H1 H2 H3]. unfold core in Hc. injection Hc as Ci Cr Cc _ _ _ _ _. split.
  - by rewrite Ci.
  - destruct H2 as [|[|Hh]]; [by left|right; left|right; right].
    + rewrite Hl, settledIds_app. set_solver.
    + unfold held. by rewrite Cr, Cc.
  - rewrite Hl, resolvedIds_app, (silent_resolved _ Hs), app_nil_r. done.
Qed.
Lemma carried_settled p r' o b : (r' = r → (∃ v, o = Ok v) → Q) → carried p b → carried p (emit_ (Settled r' o) b).
Proof.
  intros Ho [H1 H2 H3]. split; [done| |].
  - destruct H2 as [|[|]]; [by left|right; left|by right; right]. cbn. rewrite settledIds_app. set_solver.
  - cbn. rewrite resolvedIds_app. destruct o as [v|e]; cbn; rewrite elem_of_app; [|set_solver].
    intros [|Hr%list_elem_of_singleton]; [auto|]. apply Ho; eauto.
Qed.
Lemma carried_own o b : ((∃ v, o = Ok v) → Q) → carried True b → carried False (emit_ (Settled r o) b).
Proof.
  intros Ho Hb. destruct (carried_settled True r o b (λ _, Ho) Hb) as [H1 _ H3]. split; [done| |done].
  right. left. cbn. rewrite settledIds_app. set_solver.
Qed.
(** A route is taken with its callbacks *)
Lemma carried_take p r' b : carried p b → carried (p ∨ r' = r) (forget r' (Bridge.settle r' b).2).
Proof.
  intros [H1 H2 H3]. destruct (decide (r' = r)) as [->|Hne]; [split; [done|by left; right|done]|]. split; [done| |done].
  destruct H2 as [|[|[Hr (c & Hc & Ht)]]]; [auto|by right; left|right; right].
  split; [rewrite <- Hr; by apply fieldOf_removeKey_ne|]. exists c. split; [|done].
  rewrite <- Hc. by apply fieldOf_removeKey_ne.
Qed.
Lemma carried_take_settle p r' o b :
  (r' = r → (∃ v, o = Ok v) → Q) → carried p b → carried p (emit_ (Settled r' o) (forget r' (Bridge.settle r' b).2)).
Proof.
  intros Ho Hb. apply (carried_take p r') in Hb. destruct (decide (r' = r)) as [->|Hne].
  - apply (carried_weaken False); [done|]. apply carried_own; [auto|]. by eapply carried_weaken.
  - apply carried_settled; [done|]. eapply carried_weaken; [|exact Hb]. by intros [|].
Qed.

Lemma carried_register p register hook b :
  registers register → carried p b → carried p (register (fresh b) (openRoute hook b)).
Proof.
  intros Hreg [H1 H2 H3]. assert (fresh b ≠ r) as Hne by (unfold fresh; intros H%pretty_Z_inj; lia).
  assert (held r t b → held r t (register (fresh b) (openRoute hook b))) as Hh.
  { intros [Hr Hc]. destruct (Hreg (fresh b) (openRoute hook b)) as [->|(c & _ & [-> | ->])]; unfold held; cbn;
      rewrite !fieldOf_setField_ne by done; by rewrite Hr. }
  assert (issued (register (fresh b) (openRoute hook b)) = issued b + 1 ∧
          output_log (register (fresh b) (openRoute hook b)) = output_log b) as [Ei El]
    by (by destruct (Hreg (fresh b) (openRoute hook b)) as [->|(c & _ & [-> | ->])]).
  split; rewrite ?Ei, ?El; [lia| |done]. destruct H2 as [|[|]]; auto.
Qed.
Variable refuses : list output → value → option exn.
Variable listener : nat → output → list api * option exn.
Lemma carried_routed p envelope register hook b :
  registers register → carried p b → carried p (submitRouted refuses envelope register hook b).
Proof.
  intros Hreg Hb. unfold submitRouted. case_if; [eapply carried_quiet; [by apply quiet_emit|done]|].
  unfold route. change (hold (set_routes (setField (pretty (issued (issue b))) hook (routes (issue b))) (issue b)))
    with (openRoute hook b). change (pretty (issued (issue b))) with (fresh b).
  pose proof (carried_quiet p _ _ (submit_quiet refuses (envelope (fresh b)) (register (fresh b) (openRoute hook b)))
    (carried_register p register hook b Hreg Hb)) as Hq.
  destruct (submit _ _ _) as [[[]|e] b']; cbn [snd] in Hq; [done|].
  destruct (Bridge.settle (fresh b) b') as [[h|] b2] eqn:Hs; unfold Bridge.settle in Hs; injection Hs as Hs <-.
  - apply (carried_take_settle p (fresh b) (Throw e)) in Hq; [exact Hq|]. by intros _ [v Hv].
  - assert (fresh b ≠ r) as Hne by (unfold fresh; intros H%pretty_Z_inj; destruct Hb; lia).
    apply (carried_weaken (p ∨ fresh b = r)); [by intros [|]|]. by apply carried_take.
Qed.
Lemma carried_closeBridge p b : carried p b → carried p (closeBridge refuses b).
Proof.
  intros Hb. unfold closeBridge. destruct (closing b); [done|]. destruct (closed b).
  - apply (carried_quiet p (set_close true (settleClose b) b)); [by apply quiet_emit|].
    destruct Hb as [H1 H2 H3]. by split.
  - assert (carried p (hold (set_close false true b))) as Hh by (destruct Hb as [H1 H2 H3]; by split).
    pose proof (carried_quiet p _ _ (submit_quiet refuses (VObj [str_field "type" "close"]) _) Hh) as [H1 H2 H3].
    destruct (submit _ _ _) as [r0 b']. cbn [snd] in *. by split.
Qed.
Lemma carried_call p c b : carried p b → carried p (call refuses c b).
Proof.
  intros Hb. destruct c; cbn [call]; repeat case_match;
    try apply carried_routed; try apply carried_closeBridge; try exact registers_none; try done;
    try (eapply carried_quiet; [|exact Hb]); auto with axton.
  - intros r0 b0. right. exists (newCallback None None). auto.
  - intros r0 b0. destruct hasLocal; [|by left]. right. exists (newCallback (Some transactionId) scope). auto.
  - apply answer_quiet.
Qed.
Lemma carried_calls p l b : carried p b → carried p (calls refuses l b).
Proof. revert b. induction l as [|c l IH]; intros b Hb; [done|]. apply IH, carried_call, Hb. Qed.
Lemma carried_invoke p o fn b : silent o → carried p b → carried p (invoke refuses listener o fn b).2.
Proof.
  intros Ho Hb. unfold invoke. destruct (listener fn o) as [l e]. cbn [snd].
  apply carried_calls. eapply carried_quiet; [by apply quiet_emit|done].
Qed.
Lemma carried_guarded p o fn b : silent o → carried p b → carried p (guarded refuses listener o fn b).
Proof.
  intros Ho Hb. unfold guarded. pose proof (carried_invoke p o fn b Ho Hb) as Hi.
  destruct (invoke _ _ _ _ _) as [[e|] b']; cbn [snd] in Hi; [|done]. eapply carried_quiet; [by apply quiet_emit|done].
Qed.
Lemma carried_emit p type e b : carried p b → carried p (emit refuses listener type e b).
Proof.
  unfold emit. generalize (base.filter (λ p, sameType p.1 type = true) (listeners b)). intros l. revert b.
  induction l as [|q l IH]; intros b Hb; [done|]. apply IH. by apply carried_guarded.
Qed.
Lemma carried_snapshot p observerId v b : carried p b → carried p (snapshot refuses listener observerId v b).
Proof.
  intros Hb. unfold snapshot. destruct (fieldOf observerId (observers b)) as [fn|]; [|done].
  apply carried_guarded; [done|]. repeat case_match; try done. eapply carried_quiet; [apply quiet_observers|done].
Qed.
(** Callbacks change, but not what they threw. *)
Lemma carried_callbacks p b b' :
  issued b' = issued b → output_log b' = output_log b → routes b' = routes b →
  (∀ c, fieldOf r (callbacks b) = Some c → ∃ c', fieldOf r (callbacks b') = Some c' ∧ thrown c' = thrown c) →
  carried p b → carried p b'.
Proof.
  intros Ei El Er Hc [H1 H2 H3]. split; rewrite ?Ei, ?El; [done| |done].
  destruct H2 as [|[|[Hr (c & Hcc & <-)]]]; [by left|right; by left|right; right]. unfold held. rewrite Er.
  split; [done|]. by apply Hc.
Qed.
Lemma carried_set_callback p r' (g : callback → callback) c b :
  (∀ c, thrown (g c) = thrown c) → fieldOf r' (callbacks b) = Some c → carried p b →
  carried p (set_callbacks (setField r' (g c) (callbacks b)) b).
Proof.
  intros Hg Hc. apply carried_callbacks; try done. intros c0 Hc0. cbn. rewrite fieldOf_setField.
  destruct (String.eqb_spec r' r) as [->|]; [|eauto]. rewrite Hc0 in Hc. injection Hc as ->. eauto.
Qed.
Lemma carried_locals p l b : carried p b → carried p (set_locals l b).
Proof. apply carried_callbacks; eauto. Qed.
Lemma carried_startWith p r' eid tid co c b : carried p b → carried p (startWith r' eid tid co c b).
Proof.
  intros Hb. unfold startWith. destruct (started c); [done|]. eapply carried_quiet; [by apply quiet_emit|done].
Qed.
Lemma carried_effect p effectId op b : carried p b → carried p (effect refuses listener effectId op b).
Proof.
  intros Hb. destruct op as [r' tid|r' tid co|kind payload]; cbn [effect].
  - destruct (fieldOf r' (callbacks b)) as [c|] eqn:Hc.
    + apply carried_startWith. by apply (carried_set_callback p r' (asked effectId)).
    + eapply carried_quiet; [apply answer_quiet|done].
  - destruct (fieldOf r' (locals b)) as [c|] eqn:Hc.
    + by apply carried_startWith, carried_locals.
    + eapply carried_quiet; [apply answer_quiet|done].
  - destruct (fieldOf kind (effects b)) as [fn|]; [by apply carried_guarded|].
    eapply carried_quiet; [apply answer_quiet|done].
Qed.
Lemma carried_cancel p effectId b : carried p b → carried p (cancelCallback effectId b).
Proof.
  apply carried_callbacks; try done. intros c Hc. cbn. exists (cancel effectId c). split.
  - clear -Hc. induction (callbacks b) as [|[k x] l IH]; [done|]. cbn in *. destruct (String.eqb k r); [congruence|auto].
  - unfold cancel. by case_bool_decide.
Qed.
Lemma carried_completed r' outcome b :
  (completes r (TaskCompleted r' outcome) → Q) → carried False b →
  carried False (taskCompleted refuses listener r' outcome b).
Proof.
  intros HQ Hb. unfold taskCompleted. destruct (Bridge.settle r' b) as [h b1] eqn:Hs.
  unfold Bridge.settle in Hs. injection Hs as <- <-. change (hold _) with (Bridge.settle r' b).2.
  pose proof (carried_take False r' b Hb) as Ht.
  destruct (fieldOf r' (routes b)) as [hook|] eqn:Hr.
  - assert (∀ o b', ((∃ v, o = Ok v) → completes r (TaskCompleted r' outcome) ∨ r' ≠ r) → carried (False ∨ r' = r) b' →
      carried False (emit_ (Settled r' o) b')) as Hown.
    { intros o b' Ho Hb'. destruct (decide (r' = r)) as [->|Hne].
      - apply carried_own; [|by eapply carried_weaken]. intros H. destruct (Ho H); [auto|done].
      - apply carried_settled; [done|]. eapply carried_weaken; [|exact Hb']. by intros [|]. }
    destruct (decide (r' = r)) as [He|He]; destruct outcome as [v|error details]; try destruct hook as [fn|];
      try (apply Hown; [|exact Ht]; intros [v' Hv]; (by left) || (by right) || done);
      pose proof (carried_invoke _ (Hook fn v) fn _ ltac:(done) Ht) as Hi;
      destruct (invoke _ _ _ _ _) as [e b']; apply Hown; [|exact Hi| |exact Hi]; intros _; (by left) || (by right).
  - assert (r' = r → r ∈ settledIds (output_log b)) as Hset.
    { intros ->. destruct Hb as [_ [[]|[|[Hh _]]] _]; congruence || done. }
    destruct Ht as [H1 H2 H3]. split; [done| |done]. destruct H2 as [[[]|Heq]|H2]; [|by right].
    right. left. by apply Hset.
Qed.
Lemma carried_terminate b : carried False b → carried False (terminate b).
Proof.
  intros [H1 H2 H3]. unfold terminate. destruct (closed b); [by split|].
  set (b0 := set_observers _ _). change (foldl _ b0 (routes b)) with (rejectAll (routes b) b0).
  assert (∀ l b, resolvedIds (output_log (rejectAll l b)) = resolvedIds (output_log b)) as Hres.
  { induction l as [|q l IH]; intros b'; [done|]. unfold rejectAll in *. cbn. rewrite IH. cbn.
    rewrite resolvedIds_app. cbn. apply app_nil_r. }
  destruct (rejectAll_spec (routes b) b0) as [Hc (k & Hl & Hs & _)].
  unfold core in Hc. cbn in Hc. injection Hc as Ci _ _ _ _ _ _ _.
  assert (carried False (hold (set_close true false (emit_ Detach (rejectAll (routes b) b0))))) as Hf.
  { split; cbn.
    - by rewrite Ci.
    - right. left. rewrite Hl, !settledIds_app, Hs. cbn. destruct H2 as [[]|[|[Hr%fieldOf_Some_key _]]]; set_solver.
    - rewrite resolvedIds_app, Hres. cbn. rewrite app_nil_r. exact H3. }
  destruct (settleClose _); [|done]. eapply carried_quiet; [by apply quiet_emit|done].
Qed.
Lemma carried_dispatch e b : (completes r e → Q) → carried False b → carried False (dispatch refuses listener e b).
Proof.
  intros He Hb. destruct e; cbn [dispatch]; try done; try by apply carried_emit.
  - by apply carried_completed.
  - by apply carried_effect.
  - by apply carried_terminate.
  - by apply carried_snapshot, carried_emit.
  - by apply carried_emit, carried_cancel.
Qed.
(** A wake, unless it completes the request with an answer *)
Lemma carried_drain answers b :
  (∀ l e, Ok l ∈ answers → e ∈ l → completes r e → Q) → carried False b →
  carried False (drain refuses listener answers b).
Proof.
  intros He Hb. unfold drain. destruct (dispatching b); [done|].
  eapply carried_quiet; [apply quiet_dispatching|].
  assert (carried False (set_dispatching true b)) as Hd by (eapply carried_quiet; [apply quiet_dispatching|done]).
  revert Hd. generalize (set_dispatching true b). clear b Hb.
  induction answers as [|[[|e events]|] answers IH]; intros b Hb; cbn [drainLoop]; destruct (closed b); try done.
  apply IH; [intros l e' Hl; apply He; by right|].
  assert (∀ e', e' ∈ e :: events → completes r e' → Q) as He' by (intros e' Hin; eapply He; [by left|done]).
  revert He' b Hb. clear. induction (e :: events) as [|e' l IH]; intros He b Hb; [done|].
  cbn [foldl]. apply IH; [intros e0 H0; apply He; by right|]. apply carried_dispatch; [|done]. apply He. by left.
Qed.
Lemma carried_output p o b : settledId o = None → carried p b → carried p (emit_ o b).
Proof.
  intros Ho [H1 H2 H3]. split; [done| |]; cbn.
  - rewrite settledIds_app. destruct H2 as [|[|]]; [by left|right; left; set_solver|by right; right].
  - rewrite resolvedIds_app. destruct o; try done; cbn; by rewrite app_nil_r.
Qed.
Lemma carried_begin p r' local b : carried p b → carried p (begin r' local b).
Proof.
  intros Hb. unfold begin. destruct (callbackOf r' local b) as [c|] eqn:Hc; [|done]. case_if; [|done].
  assert (carried p (if local then set_locals (setField r' (resume c) (locals b)) b
                     else set_callbacks (setField r' (resume c) (callbacks b)) b)) as H.
  { destruct local; [by apply carried_locals|]. by apply (carried_set_callback p r' resume). }
  cbv zeta. case_if; [by apply carried_output|done].
Qed.
(** The end of another callback *)
Lemma carried_finish p r' eid tid companion outcome error b :
  (companion = None → r' ≠ r) → carried p b → carried p (finish refuses r' eid tid companion outcome error b).
Proof.
  intros Hne Hb. unfold finish. eapply carried_quiet; [apply answer_quiet|]. destruct outcome as [|e]; [done|].
  destruct companion as [c|]; [by apply carried_locals|]. revert Hb. apply carried_callbacks; try done.
  intros c Hc. exists c. split; [|done]. cbn. destruct (fieldOf r' (callbacks b)); [|done].
  rewrite fieldOf_setField_ne; [done|auto].
Qed.
End carried.

(** The end of its own callback, whose thrown value it retains *)
Lemma carried_finish_own refuses n t Q p eid tid (outcome : result (list (string * value))) error b :
  carried n t Q p b →
  carried n (match outcome with Ok _ => t | Throw e => Some e end) Q p
    (finish refuses (pretty n) eid tid None outcome error b).
Proof.
  intros [H1 H2 H3]. unfold finish. eapply carried_quiet; [apply answer_quiet|]. destruct outcome as [|e]; [by split|].
  split; [done| |done]. destruct H2 as [|[|[Hr (c & Hc & Ht)]]]; [by left|right; by left|right; right].
  split; [done|]. exists (retain e c). split; [|done]. cbn. by rewrite Hc, fieldOf_setField, String.eqb_refl.
Qed.
(** A task's route, opened *)
Lemma carried_opened refuses Q b :
  inv [] b → closing b = false → closed b = false →
  carried (issued b + 1) None Q False (call refuses Transaction b).
Proof.
  intros Hb Hcg Hcl. cbn [call]. unfold submitRouted. rewrite Hcg, Hcl. cbn [orb]. unfold route.
  change (hold (set_routes (setField (pretty (issued (issue b))) None (routes (issue b))) (issue b)))
    with (openRoute None b). change (pretty (issued (issue b))) with (fresh b).
  set (b1 := set_callbacks _ _).
  assert (carried (issued b + 1) None Q False b1) as H1.
  { split; [done| |].
    - right. right. unfold b1, held. cbn. change (pretty (issued b + 1)) with (fresh b).
      rewrite !fieldOf_setField, String.eqb_refl. eauto.
    - intros Hr%resolvedIds_settled. exfalso. apply (fresh_owned [] b Hb). unfold owned. cbn. set_solver. }
  pose proof (submit_quiet refuses (taskMessage (fresh b) [str_field "kind" "transaction"]) b1) as Hq.
  pose proof (carried_quiet _ _ _ _ _ _ Hq H1) as H2.
  destruct (submit _ _ _) as [[[]|e] b2]; cbn [snd] in H2, Hq; [done|].
  assert (fieldOf (fresh b) (routes b2) = Some None) as Hr.
  { destruct Hq as [Hc _]. unfold core in Hc. injection Hc as _ -> _ _ _ _ _ _. unfold b1. cbn.
    rewrite fieldOf_setField. unfold fresh. by rewrite String.eqb_refl. }
  apply (carried_take_settle _ _ _ _ (fresh b) (Throw e)) in H2; [|by intros _ [v Hv]].
  unfold Bridge.settle in *. by rewrite Hr.
Qed.

(** ** The bridge dispatches only during a wake *)
Section idle.
Variable refuses : list output → value → option exn.
Variable listener : nat → output → list api * option exn.
Lemma submit_dispatching message b : dispatching (submit refuses message b).2 = dispatching b.
Proof. unfold submit. by repeat case_match. Qed.
Lemma answer_dispatching message b : dispatching (answer refuses message b) = dispatching b.
Proof. unfold answer. case_if; [done|apply submit_dispatching]. Qed.
Lemma routed_dispatching envelope register hook b :
  registers register → dispatching (submitRouted refuses envelope register hook b) = dispatching b.
Proof.
  intros Hreg. unfold submitRouted. case_if; [done|]. unfold route. cbv zeta.
  match goal with |- context [submit refuses ?m ?b0] =>
    pose proof (submit_dispatching m b0) as Hs; assert (dispatching b0 = dispatching b) as Hb;
    [|rewrite <- Hb, <- Hs; destruct (submit refuses m b0) as [[[]|e] b1]; [done|]] end.
  - match goal with |- context [register ?r ?b0] => by destruct (Hreg r b0) as [->|(c & _ & [-> | ->])] end.
  - unfold settle. cbn. by case_match.
Qed.
Lemma call_dispatching c b : dispatching (call refuses c b) = dispatching b.
Proof.
  destruct c; cbn [call]; repeat case_match; try done; try (apply routed_dispatching; exact registers_none).
  - apply routed_dispatching. intros r b0. right. exists (newCallback None None). auto.
  - apply routed_dispatching. intros r b0. destruct hasLocal; [|by left].
    right. exists (newCallback (Some transactionId) scope). auto.
  - apply answer_dispatching.
  - unfold closeBridge. repeat case_if; try done.
    pose proof (submit_dispatching (VObj [str_field "type" "close"]) (hold (set_close false true b))) as Hs.
    by destruct (submit _ _ _).
Qed.
Lemma begin_dispatching r local b : dispatching (begin r local b) = dispatching b.
Proof. unfold begin. case_match; [|done]. case_if; [|done]. cbv zeta. by case_if; destruct local. Qed.
Lemma finish_dispatching r eid tid companion outcome error b :
  dispatching (finish refuses r eid tid companion outcome error b) = dispatching b.
Proof. unfold finish. rewrite answer_dispatching. destruct outcome; [done|]. by destruct companion. Qed.
Lemma drain_dispatching answers b : dispatching b = false → dispatching (drain refuses listener answers b) = false.
Proof. intros H. unfold drain. by rewrite H. Qed.
End idle.

(** ** The runtime's answer to a transaction settles it *)
Definition verdict (t : option exn) (outcome : completion) : result value :=
  match outcome with
  | Completed v => Ok v
  | Failed error details => Throw (default (taskError (default "task failed"%string error) details) t)
  end.
Lemma drain_settles refuses listener r t outcome b :
  inv [] b → dispatching b = false → held r t b →
  output_log (drain refuses listener [Ok [TaskCompleted r outcome]] b) = output_log b ++ [Settled r (verdict t outcome)].
Proof.
  intros Hb Hd [Hr (c & Hc & Ht)]. assert (closed b = false) as Hcl.
  { destruct (closed b) eqn:E; [|done]. destruct (inv_closed _ _ Hb E) as (Hn & _). by rewrite Hn in Hr. }
  unfold drain. rewrite Hd. cbn [drainLoop].
  change (closed (set_dispatching true b)) with (closed b). rewrite Hcl. cbn [foldl dispatch].
  unfold taskCompleted. destruct (settle r (set_dispatching true b)) as [h b1] eqn:Hs. unfold settle in Hs. injection Hs as <- <-.
  change (fieldOf r (routes (set_dispatching true b))) with (fieldOf r (routes b)). rewrite Hr.
  match goal with |- context [fieldOf r (callbacks ?x)] => change (callbacks x) with (callbacks b) end. rewrite Hc.
  destruct outcome as [v|error details]; cbn; case_if; try done; rewrite Ht; by destruct t.
Qed.
