(* ===== verification/Backend.v ===== *)
(** Starting a backend and running its Mutation batches:
    [backend/server/api/backend.mts].

    [startup] is the part of [createBackend] that checks the options: which
    handler or loader answers which retained version.  A function of the
    application is known by the identifier of its [VFun].  [push] runs a frozen
    batch group by group, each in a transaction of its own. *)
From Stdlib Require Import Ascii.
From S2P Require Import Prelude Text Dates Json Effects.
Open Scope Z_scope.
Open Scope axton_scope.

(** ** [MutationRejected] *)
Definition lowerLetter (c : ascii) : bool := (97 <=? byte c) && (byte c <=? 122).
Definition lowerDigit (c : ascii) : bool := lowerLetter c || isDigit c.
Definition separator (c : ascii) : bool := (byte c =? 46) || (byte c =? 95) || (byte c =? 45).
(** [/^[a-z][a-z0-9]*(?:[._-][a-z0-9]+)*$/]: [need] after a separator. *)
Fixpoint codeRest (need : bool) (s : string) : bool :=
  match s with
  | EmptyString => negb need
  | String c s => if lowerDigit c then codeRest false s
                  else if separator c then negb need && codeRest true s else false
  end.
Definition machineCode (s : string) : bool :=
  match s with String c s => lowerLetter c && codeRest false s | EmptyString => false end.
Definition newMutationRejected (code : string) : result exn :=
  if machineCode code then Ok (MutationRejected code)
  else raise "rejection code must be a stable machine code".

(** ** [versioned] *)
Inductive call_kind := KLoader | KMutation | KQuery.
Definition kindName (k : call_kind) : string :=
  match k with KLoader => "loader" | KMutation => "mutation" | KQuery => "query" end.
Definition kindLabel (k : call_kind) : string :=
  match k with KLoader => "Loader" | KMutation => "Mutation" | KQuery => "Query" end.
Definition vname (version : Z) : string := "v" +:+ pretty version.
Definition versionList (versions : list Z) : string := String.concat ", " (vname <$> versions).

(** [table.set], on a [Map] from versions to functions. *)
Fixpoint setVersion (version : Z) (f : nat) (t : list (Z * nat)) : list (Z * nat) :=
  match t with
  | [] => [(version, f)]
  | (v, g) :: t => if v =? version then (v, f) :: t else (v, g) :: setVersion version f t
  end.
Definition versionOf (version : Z) (t : list (Z * nat)) : option nat :=
  snd <$> find (λ p, p.1 =? version) t.
(** [/^v[1-9][0-9]*$/], and the number after the [v]. *)
Definition versionNumber (s : string) : option Z :=
  match s with
  | String "v" (String c _ as n) =>
      if (49 <=? byte c) && (byte c <=? 57) && String.eqb (snd (spanString isDigit n)) EmptyString then Some (digitsValue 0 n) else None
  | _ => None
  end.
(** [Object.keys] *)
Definition objectKeys (v : value) : list string :=
  match v with
  | VObj fields => fields.*1
  | VArr items => (λ k, pretty (Z.of_nat k)) <$> seq 0 (length items)
  | _ => []
  end.
Section versioned.
Variable kind : call_kind.
Variables name key : string.
Variable registration : value.

Fixpoint versionTable (versions : list Z) (t : list (Z * nat)) : result (list (Z * nat)) :=
  match versions with
  | [] => Ok t
  | version :: rest =>
      match get registration (vname version) with
      | VUndef => raise ("Missing " +:+ kindName kind +:+ " " +:+ key +:+ "." +:+ vname version
                         +:+ " for " +:+ name +:+ " " +:+ vname version)
      | VFun f => versionTable rest (setVersion version f t)
      | _ => raise (kindLabel kind +:+ " " +:+ key +:+ "." +:+ vname version +:+ " for " +:+ name
                    +:+ " " +:+ vname version +:+ " must be a function")
      end
  end.
Definition retains (t : list (Z * nat)) (found : string) : bool :=
  match versionNumber found with
  | Some n => match versionOf n t with Some _ => true | None => false end
  | None => false
  end.
Definition versioned (versions : list Z) : result (list (Z * nat)) :=
  match registration with
  | VFun f =>
      if bool_decide (versions = [1]) then Ok [(1, f)]
      else raise (kindLabel kind +:+ " " +:+ key +:+ " must register " +:+ versionList versions
                  +:+ " of " +:+ name +:+ "; a function registers v1 only")
  | _ =>
      guard! isObject registration
      else raise ("Missing " +:+ kindName kind +:+ " " +:+ key +:+ " for " +:+ name +:+ " " +:+ versionList versions);
      t ← versionTable versions [];
      match find (λ found, negb (retains t found)) (objectKeys registration) with
      | Some found =>
          raise ("Unknown " +:+ kindName kind +:+ " " +:+ key +:+ "." +:+ found +:+ " for " +:+ name
                 +:+ ": retained " +:+ match kind with KLoader => "" | _ => kindName kind +:+ " " end
                 +:+ "versions are " +:+ versionList versions)
      | None => Ok t
      end
  end.
End versioned.

(** ** The options of a backend *)
Record operation := Operation { o_name : string; o_version : Z; o_query : bool }.
Definition o_kind (a : operation) : call_kind := if o_query a then KQuery else KMutation.
Record options := Options {
  effect_models : list effect_model; enums : list effect_enum;
  schema_models : list (string * option Z);        (* name, version *)
  descriptor_models : list (string * Z);           (* the retained read contracts *)
  operations : list operation;
  mutations : list (string * value);
  queries : list (string * value);
  loaders : list (string * value);
  groupSize : option value;                        (* experimentalMutationGroupSize *)
  nativeGroups : bool;                             (* native.processBatchGroup *)
  protocol5 : bool;
  databaseGroups : bool }.                         (* database.mutationCommitGroups *)

Definition mutationGroupSize (o : options) : result Z :=
  let size := match groupSize o with
              | Some v => coalesce v (VNum (NInt (if nativeGroups o && databaseGroups o then 8 else 1)))
              | None => VNum (NInt (if nativeGroups o && databaseGroups o then 8 else 1))
              end in
  match size with
  | VNum (NInt n) =>
      guard! isSafeInteger size && negb (n <? 1) && negb (32 <? n)
      else raise "experimentalMutationGroupSize must be an integer from 1 to 32";
      guard! negb ((1 <? n) && negb (nativeGroups o)) else raise "native Mutation commit groups unavailable";
      guard! negb ((1 <? n) && negb (databaseGroups o))
      else raise "database adapter does not support Mutation commit groups";
      Ok n
  | _ => raise "experimentalMutationGroupSize must be an integer from 1 to 32"
  end.

(** [[...list, v].sort((a, b) => a - b)] *)
Fixpoint insertVersion (v : Z) (l : list Z) : list Z :=
  match l with [] => [v] | w :: l => if v <? w then v :: w :: l else w :: insertVersion v l end.
(** A [Map] from names to their versions, ascending, in order of first mention. *)
Fixpoint addVersion (name : string) (v : Z) (m : list (string * list Z)) : list (string * list Z) :=
  match m with
  | [] => [(name, [v])]
  | (n, l) :: m => if String.eqb n name then (n, insertVersion v l) :: m else (n, l) :: addVersion name v m
  end.
Definition groupVersions (l : list (string * Z)) : list (string * list Z) :=
  foldl (λ m p, addVersion p.1 p.2 m) [] l.
Definition retainedModels (o : options) : list (string * list Z) :=
  groupVersions (match descriptor_models o with
                 | [] => (λ m, (m.1, default 1 m.2)) <$> schema_models o
                 | l => l
                 end).

Definition unknownLoader (o : options) : option string :=
  find (λ key, negb (existsb (λ m, String.eqb (lowerFirst m.1) key) (schema_models o))) (loaders o).*1.
(** The Models with a registered loader; another is device-only. *)
Definition loadedModels (o : options) : list string :=
  base.filter (λ name, negb (strictEq (default VUndef (fieldOf (lowerFirst name) (loaders o))) VUndef) = true)
    (schema_models o).*1.

(** A dispatch table, from ["name:version"] to a function. *)
Definition table : Type := list (string * nat).
Definition dispatchKey (name : string) (version : Z) : string := name +:+ ":" +:+ pretty version.
Definition addTable (name : string) (t : list (Z * nat)) (dispatch : table) : table :=
  foldl (λ d p, setField (dispatchKey name p.1) p.2 d) dispatch t.

Fixpoint registerLoaders (o : options) (names : list string) (dispatch : table) : result table :=
  match names with
  | [] => Ok dispatch
  | name :: rest =>
      let key := lowerFirst name in
      t ← versioned KLoader name key (default VUndef (fieldOf key (loaders o)))
            (default [] (fieldOf name (retainedModels o)));
      registerLoaders o rest (addTable name t dispatch)
  end.

Definition registrations (o : options) (kind : call_kind) : list (string * value) :=
  match kind with KMutation => mutations o | KQuery => queries o | KLoader => [] end.
Definition sameKind (k j : call_kind) : bool :=
  match k, j with KLoader, KLoader | KMutation, KMutation | KQuery, KQuery => true | _, _ => false end.
Definition kindVersions (o : options) (kind : call_kind) : list (string * list Z) :=
  groupVersions ((λ a, (o_name a, o_version a)) <$> base.filter (λ a, sameKind (o_kind a) kind = true) (operations o)).
Fixpoint registerHandlers (kind : call_kind) (map : list (string * value)) (versions : list (string * list Z))
    (dispatch : table) : result table :=
  match versions with
  | [] => Ok dispatch
  | (name, list) :: rest =>
      t ← versioned kind name (lowerFirst name) (default VUndef (fieldOf (lowerFirst name) map)) list;
      registerHandlers kind map rest (addTable name t dispatch)
  end.

(** The text that says where a misplaced registration belongs. *)
Definition retainedVersions (o : options) (key : string) : list operation :=
  base.filter (λ a, String.eqb (lowerFirst (o_name a)) key = true) (operations o).
Fixpoint insertOperation (a : operation) (l : list operation) : list operation :=
  match l with
  | [] => [a]
  | b :: l => if o_version a <? o_version b then a :: b :: l else b :: insertOperation a l
  end.
Definition retainedKinds (o : options) (key : string) : option string :=
  match retainedVersions o key with
  | [] => None
  | first :: _ as l =>
      Some (o_name first +:+ " " +:+ String.concat ", "
        ((λ a, vname (o_version a) +:+ " (" +:+ kindName (o_kind a) +:+ ")") <$> foldl (λ l a, insertOperation a l) [] l))
  end.
Definition registrationGroup (kind : call_kind) : string :=
  match kind with KMutation => "mutations" | _ => "queries" end.
(** Its [sort] never reorders: ["mutations"] is below ["queries"]. *)
Definition groupsFor (o : options) (key except : string) : string :=
  let groups := uniq ((λ a, registrationGroup (o_kind a)) <$> retainedVersions o key) in
  String.concat " or " (base.filter (λ g, g ∈ groups ∧ g ≠ except) ["mutations"; "queries"]).
Definition unknownHandler (o : options) (kind : call_kind) : option string :=
  find (λ key, negb (existsb (λ p, String.eqb (lowerFirst p.1) key) (kindVersions o kind)))
    (registrations o kind).*1.
Definition registerKind (o : options) (kind : call_kind) (dispatch : table) : result table :=
  dispatch ← registerHandlers kind (registrations o kind) (kindVersions o kind) dispatch;
  match unknownHandler o kind with
  | None => Ok dispatch
  | Some key =>
      match retainedKinds o key with
      | Some kinds => raise (registrationGroup kind +:+ "." +:+ key +:+ ": " +:+ kinds +:+ " retains no "
          +:+ kindName kind +:+ " version; register it under " +:+ groupsFor o key (registrationGroup kind))
      | None => raise ("Unknown " +:+ kindName kind +:+ " " +:+ key +:+ ": no retained " +:+ kindName kind
                       +:+ " " +:+ key)
      end
  end.

Record started := Started {
  s_declarations : declarations_of;                (* what every collector shares *)
  s_groupSize : Z; s_loaded : list string; s_loaders : table; s_handlers : table }.
Section startup.
(** What the native engine says of the configuration, given the loaded Models. *)
Variable validateConfig : list string → result unit.
Variable materializationId : bool.
Definition startup (o : options) : result started :=
  size ← mutationGroupSize o;
  match unknownLoader o with
  | Some key => raise ("Unknown loader " +:+ key +:+ ": no Model " +:+ key)
  | None =>
      let loaded := loadedModels o in
      _ ← validateConfig loaded;
      guard! negb (protocol5 o && negb materializationId)
      else raise "protocol5 native materialization derivation unavailable";
      declarations ← declarationsOf (effect_models o) (enums o) (Some loaded);
      loaderTable ← registerLoaders o loaded [];
      actionHandlers ← registerKind o KMutation [];
      actionHandlers ← registerKind o KQuery actionHandlers;
      Ok (Started declarations size loaded loaderTable actionHandlers)
  end.
End startup.

(** ** [push] *)
Section push.
(** A group of members run in one transaction, from the state of the database,
    and what the native engine answers, parsed. *)
Context {S : Type}.
Variable runGroup : Z → Z → io S value.       (* processBatchGroup ordinal length *)
Variable runMember : Z → io S string.         (* processBatchMember ordinal *)

Definition groupResults (length : Z) (answer : value) : result (list string) :=
  match answer with
  | VArr items =>
      match mapM (λ v, match v with VStr s => Some s | _ => None end) items with
      | Some results => if Z.of_nat (base.length items) =? length then Ok results
                        else raise "invalid native Mutation group results"
      | None => raise "invalid native Mutation group results"
      end
  | _ => raise "invalid native Mutation group results"
  end.
(** The loop over ordinals; every turn advances by at least one. *)
Fixpoint pushLoop (fuel : nat) (size count ordinal : Z) (results : list string) : io S (list string) :=
  match fuel with
  | O => mret results
  | Datatypes.S fuel =>
      if count <=? ordinal then mret results
      else if 1 <? size then
        let length := Z.min size (count - ordinal) in
        answer ← runGroup ordinal length;
        group ← check (groupResults length answer);
        pushLoop fuel size count (ordinal + size) (results ++ group)
      else
        result ← runMember ordinal;
        pushLoop fuel size count (ordinal + size) (results ++ [result])
  end.
Definition push (size count : Z) : io S (list string) := pushLoop (Z.to_nat count) size count 0 [].
End push.

(** ** [refusal] *)
Section refusal.
Variable translateRejection : exn → option string.
(** The answer, or what constructing the rejection throws. *)
Inductive refused := Rejection (code : string) | Failure (e : exn).
Definition refusal (error : exn) : result refused :=
  match (match error with MutationRejected code => Some code | _ => translateRejection error end) with
  | Some code => _ ← newMutationRejected code; Ok (Rejection code)
  | None => Ok (Failure error)
  end.
End refusal.
