(* ===== verification/BackendFacts.v ===== *)
(** What starting a backend guarantees, and how a Mutation batch is run. *)
From S2P Require Import Prelude Text Dates Json Effects Backend.
Open Scope Z_scope.
Open Scope axton_scope.

(** ** Retained versions, grouped *)
Definition pairsOf (m : list (string * list Z)) : list (string * Z) :=
  e ← m; (λ v, (e.1, v)) <$> e.2.
Lemma insertVersion_perm v l : Permutation (insertVersion v l) (v :: l).
Proof.
  induction l as [|w l IH]; cbn; [done|]. destruct (v <? w); [done|]. rewrite IH. apply perm_swap.
Qed.
Lemma pairsOf_cons n l m : pairsOf ((n, l) :: m) = ((λ v, (n, v)) <$> l) ++ pairsOf m.
Proof. done. Qed.
Lemma addVersion_perm name v m : Permutation (pairsOf (addVersion name v m)) ((name, v) :: pairsOf m).
Proof.
  induction m as [|[n l] m IH]; cbn [addVersion]; [done|].
  destruct (String.eqb_spec n name) as [->|]; rewrite !pairsOf_cons.
  - by rewrite insertVersion_perm.
  - rewrite IH. by rewrite <- Permutation_middle.
Qed.
Lemma groupVersions_perm l : Permutation (pairsOf (groupVersions l)) l.
Proof.
  unfold groupVersions. rewrite <- (app_nil_r l) at 2. change ([] : list (string * Z)) with (pairsOf []) at 2.
  generalize ([] : list (string * list Z)). induction l as [|p l IH]; intros m; [done|]. cbn [foldl].
  rewrite IH, addVersion_perm, <- surjective_pairing. by rewrite <- Permutation_middle.
Qed.
Lemma groupVersions_names l name : name ∈ (groupVersions l).*1 → name ∈ l.*1.
Proof.
  assert (∀ m, name ∈ (foldl (λ m p, addVersion p.1 p.2 m) m l).*1 → name ∈ l.*1 ∨ name ∈ m.*1) as H.
  { induction l as [|p l IH]; intros m; cbn; [auto|]. intros [?|Hn]%IH; [set_solver|].
    assert (name = p.1 ∨ name ∈ m.*1) as [->|]; [|set_solver..].
    clear IH. induction m as [|[n k] m IHm]; cbn in Hn; [set_solver|].
    destruct (String.eqb_spec n p.1) as [->|]; cbn in *; set_solver. }
  intros Hn. destruct (H [] Hn) as [|Hm]; [done|]. by apply not_elem_of_nil in Hm.
Qed.

(** ** One registration *)
(** The function [registration] names for [version]. *)
Definition answers (registration : value) (version : Z) (f : nat) : Prop :=
  (registration = VFun f ∧ version = 1) ∨
  (isObject registration = true ∧ get registration (vname version) = VFun f).

Lemma setVersion_fresh v f t : v ∉ t.*1 → setVersion v f t = t ++ [(v, f)].
Proof.
  induction t as [|[u h] t IH]; cbn; [done|]. intros Hv.
  destruct (Z.eqb_spec u v) as [->|]; [set_solver|]. rewrite IH; [done|set_solver].
Qed.
Lemma versionTable_spec kind name key r versions : ∀ t t',
  versionTable kind name key r versions t = Ok t' → NoDup (t.*1 ++ versions) →
  ∃ new, t' = t ++ new ∧ new.*1 = versions ∧ Forall (λ p, get r (vname p.1) = VFun p.2) new.
Proof.
  induction versions as [|w rest IH]; intros t t'; cbn [versionTable].
  - intros [= <-] _. exists []. by rewrite app_nil_r.
  - destruct (get r (vname w)) as [ | | | | | | |f| |] eqn:Hw; try done. intros H Hd.
    assert (w ∉ t.*1) as Hf by (apply NoDup_app in Hd as (_ & Hd & _); set_solver).
    rewrite setVersion_fresh in H by done. apply IH in H as (new & -> & <- & Hn).
    + exists ((w, f) :: new). rewrite <- app_assoc. split_and!; [done..|]. by constructor.
    + rewrite fmap_app. cbn. by rewrite <- app_assoc.
Qed.
Lemma versioned_spec kind name key r versions t :
  versioned kind name key r versions = Ok t → NoDup versions →
  t.*1 = versions ∧ Forall (λ p, answers r p.1 p.2) t.
Proof.
  unfold versioned. intros H Hd.
  assert ((∃ f, r = VFun f) ∨ isObject r = true ∧ versionTable kind name key r versions [] = Ok t) as Hr.
  { destruct r; cbn in H; try done; [right|left; by eexists|right..];
      (split; [done|]; destruct (versionTable _ _ _ _ _ _) as [t0|]; [|done]; cbn in H;
       repeat case_match; by simplify_eq). }
  destruct Hr as [[f ->]|[Ho Ht]].
  - case_bool_decide as Hv; [|done]. simplify_eq. split; [done|]. apply Forall_singleton. by left.
  - apply versionTable_spec in Ht as (new & -> & Hk & Hn); [|done]. split; [done|].
    eapply Forall_impl; [exact Hn|]. intros p Hp. by right.
Qed.

(** ** Dispatch tables *)
Definition keysOf (l : list (string * Z)) : list string := (λ p, dispatchKey p.1 p.2) <$> l.
Definition setAll (l d : table) : table := foldl (λ d p, setField p.1 p.2 d) d l.
Lemma setAll_lookup l : ∀ d k, NoDup l.*1 →
  fieldOf k (setAll l d) = match fieldOf k l with Some f => Some f | None => fieldOf k d end.
Proof.
  induction l as [|[j f] l IH]; intros d k Hd; [done|]. cbn in Hd. apply NoDup_cons in Hd as [Hj Hd].
  change (setAll ((j, f) :: l) d) with (setAll l (setField j f d)). rewrite IH by done. cbn.
  rewrite fieldOf_setField. destruct (String.eqb_spec j k) as [->|]; [|done].
  destruct (fieldOf k l) eqn:Hk; [|done]. exfalso. apply Hj. apply list_elem_of_fmap.
  exists (k, n). split; [done|by apply fieldOf_elem_of].
Qed.
Lemma addTable_setAll name t d :
  addTable name t d = setAll ((λ p, (dispatchKey name p.1, p.2)) <$> t) d.
Proof. revert d. induction t as [|p t IH]; intros d; [done|]. apply IH. Qed.
Lemma setAll_app l k d : setAll k (setAll l d) = setAll (l ++ k) d.
Proof. unfold setAll. by rewrite foldl_app. Qed.
(** An entry of a table made for the versions [pairs] from the registrations [map]. *)
Definition entryFor (map : list (string * value)) (pairs : list (string * Z)) (p : string * nat) : Prop :=
  ∃ name v, (name, v) ∈ pairs ∧ p.1 = dispatchKey name v ∧
    answers (default VUndef (fieldOf (lowerFirst name) map)) v p.2.
Lemma registerHandlers_spec kind map vs : ∀ d d',
  registerHandlers kind map vs d = Ok d' → NoDup (keysOf (pairsOf vs)) →
  ∃ l, d' = setAll l d ∧ l.*1 = keysOf (pairsOf vs) ∧ Forall (entryFor map (pairsOf vs)) l.
Proof.
  induction vs as [|[name versions] vs IH]; intros d d'; cbn [registerHandlers].
  - intros [= <-] _. by exists [].
  - destruct (versioned _ _ _ _ _) as [t|] eqn:Ht; [|done]. cbn [mbind result_bind]. intros H Hd.
    rewrite pairsOf_cons in *. unfold keysOf in *. rewrite fmap_app in *. apply NoDup_app in Hd as (Hd1 & _ & Hd2).
    apply NoDup_fmap_1, NoDup_fmap_1 in Hd1.
    apply versioned_spec in Ht as [Htk Hta]; [|done].
    destruct (IH _ _ H Hd2) as (l & -> & Hlk & Hl).
    rewrite addTable_setAll, setAll_app. eexists. split; [done|]. split.
    + rewrite fmap_app, Hlk. f_equal. rewrite <- Htk, <- !list_fmap_compose. done.
    + apply Forall_app. split.
      * apply Forall_fmap. apply Forall_forall. intros p Hp. exists name, p.1. split_and!; [|done|].
        { rewrite elem_of_app. left. apply list_elem_of_fmap. exists p.1. split; [done|].
          rewrite <- Htk. apply list_elem_of_fmap. eauto. }
        exact (proj1 (Forall_forall _ _) Hta _ Hp).
      * eapply Forall_impl; [exact Hl|]. intros p (n & v & Hin & ? & ?). exists n, v.
        rewrite elem_of_app. auto.
Qed.

(** ** Starting *)
Definition kindPairs (o : options) (kind : call_kind) : list (string * Z) :=
  (λ a, (o_name a, o_version a)) <$> base.filter (λ a, sameKind (o_kind a) kind = true) (operations o).
Lemma sameKind_eq k j : sameKind k j = true ↔ k = j.
Proof. by destruct k, j. Qed.
Lemma kindPairs_elem o kind p :
  p ∈ kindPairs o kind ↔ ∃ a, a ∈ operations o ∧ o_kind a = kind ∧ p = (o_name a, o_version a).
Proof.
  unfold kindPairs. rewrite list_elem_of_fmap. setoid_rewrite list_elem_of_filter.
  setoid_rewrite sameKind_eq. naive_solver.
Qed.
Definition operationKey (a : operation) : string := dispatchKey (o_name a) (o_version a).
(** The keys of the two kinds together are the keys of the operations. *)
Lemma kindPairs_keys o :
  Permutation (keysOf (kindPairs o KMutation) ++ keysOf (kindPairs o KQuery)) (operationKey <$> operations o).
Proof.
  unfold keysOf, kindPairs. rewrite <- !list_fmap_compose. unfold compose. cbn.
  induction (operations o) as [|a l IH]; [done|]. rewrite !filter_cons.
  destruct (o_query a) eqn:Hq.
  - assert (o_kind a = KQuery) as Hk by (unfold o_kind; by rewrite Hq).
    rewrite decide_False, decide_True by (by rewrite Hk). cbn. rewrite <- Permutation_middle, IH. done.
  - assert (o_kind a = KMutation) as Hk by (unfold o_kind; by rewrite Hq).
    rewrite decide_True, decide_False by (by rewrite Hk). cbn. rewrite IH. done.
Qed.
(** [f] is registered for the operation [a], in its own kind's map. *)
Definition registered (o : options) (a : operation) (f : nat) : Prop :=
  answers (default VUndef (fieldOf (lowerFirst (o_name a)) (registrations o (o_kind a)))) (o_version a) f.
Lemma registerKind_spec o kind d d' :
  registerKind o kind d = Ok d' → NoDup (keysOf (kindPairs o kind)) →
  (∃ l, d' = setAll l d ∧ Permutation l.*1 (keysOf (kindPairs o kind)) ∧
    Forall (λ p, ∃ a, a ∈ operations o ∧ o_kind a = kind ∧ p.1 = operationKey a ∧ registered o a p.2) l) ∧
  ∀ key, key ∈ (registrations o kind).*1 → ∃ a, a ∈ operations o ∧ o_kind a = kind ∧ lowerFirst (o_name a) = key.
Proof.
  unfold registerKind. intros H Hd.
  assert (Permutation (pairsOf (kindVersions o kind)) (kindPairs o kind)) as Hperm by apply groupVersions_perm.
  destruct (registerHandlers _ _ _ _) as [d1|] eqn:Hr; [|done]. cbn [mbind result_bind] in H.
  destruct (unknownHandler o kind) as [key|] eqn:Hu; [by destruct (retainedKinds o key)|]. simplify_eq.
  apply registerHandlers_spec in Hr as (l & -> & Hl & He);
    [|unfold keysOf; by rewrite Hperm]. split.
  - exists l. split; [done|]. split; [rewrite Hl; unfold keysOf; by rewrite Hperm|].
    eapply Forall_impl; [exact He|]. intros p (name & v & Hin & Hk & Ha).
    rewrite Hperm in Hin. apply kindPairs_elem in Hin as (a & Ha1 & <- & [= -> ->]). by exists a.
  - intros key Hkey. unfold unknownHandler in Hu.
    eapply find_none in Hu; [|by apply list_elem_of_In]. apply negb_false_iff in Hu.
    apply existsb_exists in Hu as ([name vs] & Hin & Heq%String.eqb_eq). cbn in Heq.
    apply list_elem_of_In in Hin.
    assert (name ∈ (kindVersions o kind).*1) as Hn by (apply list_elem_of_fmap; by exists (name, vs)).
    apply groupVersions_names in Hn. apply list_elem_of_fmap in Hn as ([n v] & -> & Hp).
    apply kindPairs_elem in Hp as (a & ? & ? & [= -> ->]). eauto.
Qed.

Definition demo_options : options :=
  Options [] [] [("Todo", None)] [] [Operation "AddTodo" 1 false; Operation "AddTodo" 2 false; Operation "Find" 1 true]
    [("addTodo", VObj [("v1", VFun 1); ("v2", VFun 2)])] [("find", VFun 3)] [("todo", VFun 4)]
    None true false true.
Definition demo_started : started :=
  Started (DeclarationsOf [] (Some ["Todo"])) 8 ["Todo"] [("Todo:1", 4%nat)]
    [("AddTodo:1", 1%nat); ("AddTodo:2", 2%nat); ("Find:1", 3%nat)].

(** ** Batches *)
Definition interval (p : Z * Z) : list Z := range p.1 (Z.to_nat p.2).
(** The groups of [size] members that cover the ordinals from [ordinal]. *)
Fixpoint groupsFrom (fuel : nat) (size count ordinal : Z) : list (Z * Z) :=
  match fuel with
  | O => []
  | S fuel => if count <=? ordinal then []
              else (ordinal, Z.min size (count - ordinal)) :: groupsFrom fuel size count (ordinal + size)
  end.
Definition groups (size count : Z) : list (Z * Z) := groupsFrom (Z.to_nat count) size count 0.

Lemma range_app from n m : range from (n + m) = range from n ++ range (from + Z.of_nat n) m.
Proof.
  unfold range. rewrite seq_app, fmap_app. f_equal. cbn. rewrite <- (Nat.add_0_r n) at 1.
  rewrite <- fmap_add_seq, <- list_fmap_compose. apply list_fmap_ext. intros i k _. cbn. lia.
Qed.
Lemma groupsFrom_covers size count fuel : 1 ≤ size → ∀ ordinal,
  0 ≤ ordinal → (Z.to_nat (count - ordinal) ≤ fuel)%nat →
  concat (interval <$> groupsFrom fuel size count ordinal) = range ordinal (Z.to_nat (count - ordinal)).
Proof.
  intros Hs. induction fuel as [|fuel IH]; intros ordinal Ho Hf; cbn [groupsFrom].
  - by replace (Z.to_nat (count - ordinal)) with 0%nat by lia.
  - destruct (Z.leb_spec count ordinal).
    + by replace (Z.to_nat (count - ordinal)) with 0%nat by lia.
    + cbn. rewrite IH by lia. unfold interval. cbn [fst snd].
      destruct (Z.leb_spec size (count - ordinal)).
      * rewrite Z.min_l by lia.
        replace (Z.to_nat (count - ordinal)) with (Z.to_nat size + Z.to_nat (count - (ordinal + size)))%nat by lia.
        rewrite range_app. do 2 f_equal. lia.
      * rewrite Z.min_r by lia. replace (Z.to_nat (count - (ordinal + size))) with 0%nat by lia.
        cbn. by rewrite app_nil_r.
Qed.

Section push.
Context {S : Type}.
Variable group : Z → Z → io S value.
Variable member : Z → io S string.
(** The transactions run so far, as (first ordinal, members). *)
Definition tracedGroup (ordinal length : Z) : io (S * list (Z * Z)) value := λ w,
  let '(r, s) := group ordinal length w.1 in (r, (s, w.2 ++ [(ordinal, length)])).
Definition tracedMember (ordinal : Z) : io (S * list (Z * Z)) string := λ w,
  let '(r, s) := member ordinal w.1 in (r, (s, w.2 ++ [(ordinal, 1)])).

Lemma groupResults_length n v l : groupResults n v = Ok l → Z.of_nat (length l) = n.
Proof.
  unfold groupResults. destruct v as [| | | | | | | |items|]; try done.
  destruct (mapM _ items) as [results|] eqn:Hm; [|done].
  destruct (Z.eqb_spec (Z.of_nat (length items)) n); [|done]. intros [= <-].
  by rewrite <- (length_mapM _ _ _ Hm).
Qed.
Lemma pushLoop_spec size count fuel : 1 ≤ size → ∀ ordinal results w r w',
  pushLoop tracedGroup tracedMember fuel size count ordinal results w = (r, w') →
  ∃ ran, w'.2 = w.2 ++ ran ∧ ran `prefix_of` groupsFrom fuel size count ordinal ∧
    ∀ l, r = Ok l → ran = groupsFrom fuel size count ordinal ∧
      Z.of_nat (length l) = Z.of_nat (length results) + foldr Z.add 0 (snd <$> ran) ∧ results `prefix_of` l.
Proof.
  intros Hs. induction fuel as [|fuel IH]; intros ordinal results w r w'; cbn [pushLoop groupsFrom].
  - intros [= <- <-]. exists []. rewrite app_nil_r. split_and!; [done..|]. intros l [= <-].
    split_and!; [done|cbn; lia|done].
  - destruct (Z.leb_spec count ordinal).
    { intros [= <- <-]. exists []. rewrite app_nil_r. split_and!; [done..|]. intros l [= <-].
      split_and!; [done|cbn; lia|done]. }
    destruct (Z.ltb_spec 1 size); intros Hrun.
    + set (len := Z.min size (count - ordinal)) in *.
      apply io_bind_inv in Hrun as [(answer & w1 & Hg & Hrun)|(e & Hg & ->)];
        unfold tracedGroup in Hg; destruct (group ordinal len w.1) as [rg sg]; simplify_eq.
      * apply check_bind_inv in Hrun. destruct (groupResults len answer) as [l1|e] eqn:Hl.
        -- apply IH in Hrun as (ran & Hw & Hp & Hok). cbn in Hw. rewrite <- app_assoc in Hw.
           exists ((ordinal, len) :: ran). split; [done|]. split; [by apply prefix_cons|].
           intros l Hr. destruct (Hok l Hr) as (-> & Hlen & Hpre). apply groupResults_length in Hl.
           rewrite length_app in Hlen. split_and!; [done|cbn; lia|].
           etransitivity; [|exact Hpre]. by apply prefix_app_r.
        -- destruct Hrun as [-> ->]. exists [(ordinal, len)]. split; [done|]. split; [|done].
           by apply prefix_cons, prefix_nil.
      * exists [(ordinal, len)]. split; [done|]. split; [|done]. by apply prefix_cons, prefix_nil.
    + assert (size = 1) as -> by lia. rewrite Z.min_l by lia.
      apply io_bind_inv in Hrun as [(answer & w1 & Hg & Hrun)|(e & Hg & ->)];
        unfold tracedMember in Hg; destruct (member ordinal w.1) as [rg sg]; simplify_eq.
      * apply IH in Hrun as (ran & Hw & Hp & Hok). cbn in Hw. rewrite <- app_assoc in Hw.
        exists ((ordinal, 1) :: ran). split; [done|]. split; [by apply prefix_cons|].
        intros l Hr. destruct (Hok l Hr) as (-> & Hlen & Hpre). rewrite length_app in Hlen. cbn in Hlen.
        split_and!; [done|cbn; lia|]. etransitivity; [|exact Hpre]. by apply prefix_app_r.
      * exists [(ordinal, 1)]. split; [done|]. split; [|done]. by apply prefix_cons, prefix_nil.
Qed.
End push.
Lemma sum_intervals l : Forall (λ p, 0 ≤ p.2) l →
  foldr Z.add 0 (snd <$> l) = Z.of_nat (length (concat (interval <$> l))).
Proof.
  induction 1 as [|p l Hp _ IH]; [done|]. cbn. rewrite length_app, IH. unfold interval, range.
  rewrite length_fmap, length_seq. lia.
Qed.
Lemma groupsFrom_bounds size count fuel : 1 ≤ size → ∀ ordinal,
  Forall (λ p, 1 ≤ p.2 ≤ size) (groupsFrom fuel size count ordinal).
Proof.
  intros Hs. induction fuel as [|fuel IH]; intros ordinal; cbn; [done|].
  destruct (Z.leb_spec count ordinal); [done|]. constructor; [cbn; lia|apply IH].
Qed.

(** C15: a batch runs its members in order, each in exactly one transaction of
    at most [size] members.  Acknowledged, every ordinal was run once and there
    is one result per member; failed, the transactions run are a prefix of
    those, so no member is skipped. *)
Theorem push_covers {S} (group : Z → Z → io S value) (member : Z → io S string) size count s :
  1 ≤ size → 0 ≤ count →
  let '(r, (_, ran)) := push (tracedGroup group) (tracedMember member) size count (s, []) in
  Forall (λ p, 1 ≤ p.2 ≤ size) ran ∧
  concat (interval <$> ran) `prefix_of` range 0 (Z.to_nat count) ∧
  ∀ l, r = Ok l → concat (interval <$> ran) = range 0 (Z.to_nat count) ∧ Z.of_nat (length l) = count.
Proof.
  intros Hs Hc. destruct (push _ _ size count (s, [])) as [r [s' ran]] eqn:Hrun.
  unfold push in Hrun. apply pushLoop_spec in Hrun as (ran' & Hr & Hp & Hok); [|done]. cbn in Hr. subst ran'.
  pose proof (groupsFrom_covers size count (Z.to_nat count) Hs 0 ltac:(lia) ltac:(lia)) as Hcov.
  rewrite Z.sub_0_r in Hcov. pose proof (groupsFrom_bounds size count (Z.to_nat count) Hs 0) as Hb.
  split_and!.
  - destruct Hp as [k Hk]. rewrite Hk in Hb. by apply Forall_app in Hb as [? _].
  - rewrite <- Hcov. destruct Hp as [k ->]. rewrite fmap_app, concat_app. by apply prefix_app_r.
  - intros l Hl. destruct (Hok l Hl) as (-> & Hlen & _). split; [done|]. cbn in Hlen.
    rewrite Hlen, sum_intervals; [rewrite Hcov; unfold range; rewrite length_fmap, length_seq; lia|].
    eapply Forall_impl; [exact Hb|]. cbn. lia.
Qed.
Lemma push_covers_witness :
  Forall (λ p, 1 ≤ p.2 ≤ 2) [(0, 2); (2, 1)] ∧
  concat (interval <$> [(0, 2); (2, 1)]) `prefix_of` range 0 (Z.to_nat 3) ∧
  ∀ l, Ok ["r"; "r"; "r"] = Ok l → concat (interval <$> [(0, 2); (2, 1)]) = range 0 (Z.to_nat 3) ∧
    Z.of_nat (length (l : list string)) = 3.
Proof.
  exact (push_covers (S := unit)
    (λ _ n s, (Ok (VArr (replicate (Z.to_nat n) (VStr "r"))), s)) (λ _ s, (Ok "r"%string, s)) 2 3 tt
    ltac:(lia) ltac:(lia)).
Defined.
