(* ===== verification/ModelWatch.v ===== *)
(** Watching a Model's rows: [frontend/client-js/api/model-watch.mts].

    The receiver replays the runtime's sequential splices over a private copy of
    the rows; it refuses, without changing its state, a delivery that does not
    continue the version it holds. *)
From S2P Require Import Prelude.
Open Scope Z_scope.
Open Scope axton_scope.

(** [copyWatchJson] *)
Fixpoint copyWatchJson (v : value) : value :=
  match v with
  | VArr items => VArr ((fix go l := match l with [] => [] | x :: l => copyWatchJson x :: go l end) items)
  | VObj fields =>
      VObj ((fix go l := match l with [] => [] | (k, x) :: l => (k, copyWatchJson x) :: go l end) fields)
  | VDate _ => VObj []
  | _ => v
  end.

Definition integer (v : value) (minimum : Z) : option Z :=
  match v with
  | VNum (NInt z) => if isSafeInteger v && (minimum <=? z) then Some z else None
  | _ => None
  end.
(** [record], of a value whose fields are read *)
Definition record (v : value) : option (list (string * value)) :=
  match v with VObj fields => Some fields | VDate _ => Some [] | _ => None end.
(** [key in snapshot] *)
Definition has (key : string) (fields : list (string * value)) : bool :=
  match fieldOf key fields with Some _ => true | None => false end.
Definition field (fields : list (string * value)) (key : string) : value := get (VObj fields) key.

Section receiver.
Context {T : Type}.
Variable decode : list (string * value) → result T.
Variable copy : T → result T.

Record receiver := Receiver { rows : list T; version : option Z; recovering : bool }.
Definition newReceiver : receiver := Receiver [] None false.

Definition recover : io receiver bool := λ s,
  if recovering s then (Ok false, s) else (Ok true, Receiver (rows s) (version s) true).

Definition decodeRows (v : value) : result (list T) :=
  match v with
  | VArr items =>
      match mapM record items with
      | Some records => mapM decode records
      | None => raise "invalid Model watch rows"
      end
  | _ => raise "invalid Model watch rows"
  end.
Definition invalid : exn := Error "invalid Model watch snapshot".
(** [splice], or [slice] and [concat] for a large batch: the same list. *)
Definition spliced (next : list T) (index deleteCount : Z) (inserted : list T) : list T :=
  take (Z.to_nat index) next ++ inserted ++ drop (Z.to_nat (index + deleteCount)) next.
Definition applySplice (next : list T) (splice : value) : result (list T) :=
  match record splice with
  | None => Throw invalid
  | Some s =>
      match integer (field s "index") 0, integer (field s "deleteCount") 0 with
      | Some index, Some deleteCount =>
          let length := Z.of_nat (length next) in
          guard! negb ((length <? index) || (length - index <? deleteCount)) else Throw invalid;
          inserted ← decodeRows (field s "rows");
          Ok (spliced next index deleteCount inserted)
      | _, _ => Throw invalid
      end
  end.
Fixpoint applySplices (next : list T) (splices : list value) : result (list T) :=
  match splices with
  | [] => Ok next
  | s :: rest => next ← applySplice next s; applySplices next rest
  end.

(** The rows and the version a snapshot leads to, from the state held. *)
Definition nextRows (s : receiver) (snapshot : list (string * value)) : result (list T * option Z) :=
  match field snapshot "kind" with
  | VStr "watch" =>
      match field snapshot "protocol" with
      | VUndef =>
          guard! negb (has "splices" snapshot || has "version" snapshot || has "baseVersion" snapshot)
          else Throw invalid;
          next ← decodeRows (field snapshot "rows"); Ok (next, None)
      | VStr "splice-v1" =>
          match integer (field snapshot "version") 1 with
          | None => Throw invalid
          | Some v =>
              if has "rows" snapshot then
                guard! negb (has "splices" snapshot || has "baseVersion" snapshot
                             || match version s with Some held => v <=? held | None => false end)
                else Throw invalid;
                next ← decodeRows (field snapshot "rows"); Ok (next, Some v)
              else
                match version s, integer (field snapshot "baseVersion") 1, field snapshot "splices" with
                | Some held, Some base, VArr splices =>
                    guard! (base =? held) && (v =? base + 1) else Throw invalid;
                    next ← applySplices (rows s) splices; Ok (next, Some v)
                | _, _, _ => Throw invalid
                end
          end
      | _ => Throw invalid
      end
  | _ => Throw invalid
  end.
(** [receive]: the rows delivered, or none for a snapshot that is ignored. *)
Definition receive (snapshot : list (string * value)) : io receiver (option (list T)) := λ s,
  if strictEq (field snapshot "closed") (VBool true) then (Ok None, s)
  else if recovering s && negb (has "rows" snapshot) then (Ok None, s)
  else
    match nextRows s snapshot with
    | Throw e => (Throw e, s)
    | Ok (next, v) =>
        match mapM copy next with
        | Throw e => (Throw e, s)
        | Ok delivered => (Ok (Some delivered), Receiver next v false)
        end
    end.
End receiver.
Arguments receiver : clear implicits.
Arguments newReceiver {T}.

(** ** The publisher

    The specification: the runtime holds the rows of every version of the Model,
    [history v] for version [v], and publishes either the rows of a version, or
    the splices that lead from a version to the next. *)
Definition row := list (string * value).
Record splice := Splice { s_index : nat; s_delete : nat; s_rows : list row }.
Definition splice_ok (l : list row) (s : splice) : Prop := (s_index s + s_delete s ≤ length l)%nat.
Definition replay1 (l : list row) (s : splice) : list row :=
  take (s_index s) l ++ s_rows s ++ drop (s_index s + s_delete s) l.
Inductive replays : list row → list splice → list row → Prop :=
| replays_nil l : replays l [] l
| replays_cons l s rest k :
    splice_ok l s → replays (replay1 l s) rest k → replays l (s :: rest) k.

Definition num (n : nat) : value := VNum (NInt (Z.of_nat n)).
Definition rowsValue (l : list row) : value := VArr (VObj <$> l).
Definition spliceValue (s : splice) : value :=
  VObj [("index", num (s_index s)); ("deleteCount", num (s_delete s)); ("rows", rowsValue (s_rows s))].
Inductive published (history : nat → list row) : row → Prop :=
| PublishedRows v :
    published history [("kind", VStr "watch"); ("protocol", VStr "splice-v1"); ("version", num v);
                       ("rows", rowsValue (history v))]
| PublishedSplices v splices :
    replays (history v) splices (history (S v)) →
    published history [("kind", VStr "watch"); ("protocol", VStr "splice-v1"); ("version", num (S v));
                       ("baseVersion", num v); ("splices", VArr (spliceValue <$> splices))]
| PublishedLegacy l : published history [("kind", VStr "watch"); ("rows", rowsValue l)]
| PublishedClosed k : published history [("kind", VStr "watch"); ("closed", VBool true); k].

Section refinement.
Context {T : Type}.
Variable decode : row → result T.
Variable copy : T → result T.
Variable history : nat → list row.

(** The receiver at a version holds that version's rows, decoded. *)
Definition refines (s : receiver T) : Prop :=
  match version s with
  | Some v => ∃ n, v = Z.of_nat n ∧ mapM decode (history n) = Ok (rows s)
  | None => True
  end.

Lemma mapM_record (l : list row) : mapM (M := option) record (VObj <$> l) = Some l.
Proof.
  induction l as [|x l IH]; [done|]. rewrite fmap_cons.
  change (mapM record (VObj x :: (VObj <$> l))) with (k ← mapM (M := option) record (VObj <$> l); Some (x :: k)).
  by rewrite IH.
Qed.
Lemma decodeRows_rows l : decodeRows decode (rowsValue l) = mapM decode l.
Proof. unfold decodeRows, rowsValue. cbv beta iota. by rewrite mapM_record. Qed.
Lemma mapM_take {A B} (f : A → result B) n l k : mapM f l = Ok k → mapM f (take n l) = Ok (take n k).
Proof. rewrite !mapM_Ok. apply Forall2_take. Qed.
Lemma mapM_drop {A B} (f : A → result B) n l k : mapM f l = Ok k → mapM f (drop n l) = Ok (drop n k).
Proof. rewrite !mapM_Ok. apply Forall2_drop. Qed.
Lemma mapM_join {A B} (f : A → result B) l k a b :
  mapM f l = Ok a → mapM f k = Ok b → mapM f (l ++ k) = Ok (a ++ b).
Proof. rewrite !mapM_Ok. apply Forall2_app. Qed.
Lemma integer_num n m : integer (num n) m = if (isSafeInteger (num n) && (m <=? Z.of_nat n)) then Some (Z.of_nat n) else None.
Proof. done. Qed.
Lemma integer_num_inv n m z : integer (num n) m = Some z → z = Z.of_nat n ∧ m ≤ z.
Proof.
  rewrite integer_num. destruct (isSafeInteger (num n)); cbn [andb]; [|done].
  destruct (Z.leb_spec m (Z.of_nat n)); [|done]. by intros [= <-].
Qed.

(** One splice over decoded rows is the decoding of the splice. *)
Lemma applySplice_refines l k s next :
  mapM decode l = Ok k → splice_ok l s → applySplice decode k (spliceValue s) = Ok next →
  mapM decode (replay1 l s) = Ok next.
Proof.
  intros Hl Hok. unfold applySplice, spliceValue. cbn [record].
  change (field _ "index") with (num (s_index s)). change (field _ "deleteCount") with (num (s_delete s)).
  change (field _ "rows") with (rowsValue (s_rows s)).
  destruct (integer (num (s_index s)) 0) as [i|] eqn:Hi; [|done].
  destruct (integer (num (s_delete s)) 0) as [c|] eqn:Hc; [|done].
  apply integer_num_inv in Hi as [-> _], Hc as [-> _]. cbv zeta.
  destruct (negb _); [|done]. rewrite decodeRows_rows.
  destruct (mapM decode (s_rows s)) as [inserted|] eqn:Hr; [|done]. cbn [mbind result_bind].
  intros [= <-]. unfold replay1, spliced. rewrite <- Nat2Z.inj_add, !Nat2Z.id.
  apply mapM_join; [by apply mapM_take|]. apply mapM_join; [done|by apply mapM_drop].
Qed.
Lemma applySplices_refines l splices l' : replays l splices l' → ∀ k next,
  mapM decode l = Ok k → applySplices decode k (spliceValue <$> splices) = Ok next →
  mapM decode l' = Ok next.
Proof.
  induction 1 as [l|l s rest l' Hok _ IH]; intros k next Hl; cbn [fmap list_fmap applySplices].
  - intros [= <-]. done.
  - destruct (applySplice decode k (spliceValue s)) as [k1|] eqn:Hs; [|done]. cbn [mbind result_bind].
    apply IH. by eapply applySplice_refines.
Qed.
Lemma nextRows_refines s snapshot next v :
  refines s → published history snapshot → strictEq (field snapshot "closed") (VBool true) = false →
  nextRows decode s snapshot = Ok (next, v) →
  refines (Receiver next v false).
Proof.
  intros Hs Hp Hclosed. destruct Hp as [n|n splices Hrep|l|k]; [| | |done]; unfold nextRows.
  - change (field _ "kind") with (VStr "watch"). change (field _ "protocol") with (VStr "splice-v1").
    change (field _ "version") with (num n). change (has "rows" _) with true. cbv beta iota.
    destruct (integer (num n) 1) as [z|] eqn:Hz; [|done]. apply integer_num_inv in Hz as [-> _].
    destruct (negb _); [|done]. change (field _ "rows") with (rowsValue (history n)).
    rewrite decodeRows_rows. destruct (mapM decode (history n)) as [k|] eqn:Hk; [|done].
    intros [= <- <-]. by exists n.
  - change (field _ "kind") with (VStr "watch"). change (field _ "protocol") with (VStr "splice-v1").
    change (field _ "version") with (num (S n)). change (has "rows" _) with false.
    change (field _ "baseVersion") with (num n). change (field _ "splices") with (VArr (spliceValue <$> splices)).
    cbv beta iota. destruct (integer (num (S n)) 1) as [z|] eqn:Hz; [|done].
    apply integer_num_inv in Hz as [-> _]. unfold refines in Hs. destruct (version s) as [held|]; [|done].
    destruct (integer (num n) 1) as [base|] eqn:Hb; [|done]. apply integer_num_inv in Hb as [-> _].
    destruct ((Z.of_nat n =? held) && _) eqn:Hv; [|done]. apply andb_true_iff in Hv as [Hv%Z.eqb_eq _].
    destruct Hs as (m & -> & Hm). assert (m = n) as -> by lia.
    destruct (applySplices decode (rows s) _) as [k|] eqn:Hk; [|done]. intros [= <- <-].
    exists (S n). split; [done|]. by eapply applySplices_refines.
  - change (field _ "kind") with (VStr "watch"). change (field _ "protocol") with VUndef. cbv beta iota.
    destruct (negb _); [|done]. destruct (decodeRows decode _) as [k|]; [|done]. by intros [= <- <-].
Qed.
Lemma receive_refines s snapshot :
  refines s → published history snapshot → refines (receive decode copy snapshot s).2.
Proof.
  intros Hs Hp. unfold receive. destruct (strictEq _ _) eqn:Hc; [done|].
  destruct (recovering s && _); [done|]. destruct (nextRows decode s snapshot) as [[next v]|] eqn:Hn; [|done].
  destruct (mapM copy next); [|done]. by eapply nextRows_refines.
Qed.
(** What happens to a receiver: a delivery, or a request to recover. *)
Definition receiverStep (s : receiver T) (e : option row) : receiver T :=
  match e with Some snapshot => (receive decode copy snapshot s).2 | None => (recover s).2 end.
Lemma receiverStep_refines s e :
  refines s → (∀ snapshot, e = Some snapshot → published history snapshot) → refines (receiverStep s e).
Proof.
  intros Hs He. destruct e as [snapshot|]; cbn [receiverStep].
  - apply receive_refines; auto.
  - unfold recover. by destruct (recovering s).
Qed.
End refinement.

(** C7: the receiver refines the publisher.  Deliver to a new receiver any
    snapshots of one history, lost, repeated or out of order, with recoveries in
    between: at every moment it holds exactly the decoded rows of the version
    it holds, and what it delivers is the copy of its rows.  A delivery that
    would not continue its version changes nothing. *)
Theorem watch_refines {T} (decode : row → result T) (copy : T → result T) history deliveries s :
  (∀ snapshot, Some snapshot ∈ deliveries → published history snapshot) →
  foldl (receiverStep decode copy) newReceiver deliveries = s →
  refines decode history s ∧
  ∀ snapshot, match receive decode copy snapshot s with
    | (Ok (Some delivered), s') => mapM copy (rows s') = Ok delivered ∧ recovering s' = false
    | (_, s') => s' = s
    end.
Proof.
  intros Hd <-. split.
  - assert (∀ s0, refines decode history s0 → refines decode history (foldl (receiverStep decode copy) s0 deliveries))
      as H; [|by apply H].
    induction deliveries as [|e l IH]; intros s0 Hs; [done|]. cbn [foldl]. apply IH; [set_solver|].
    apply receiverStep_refines; [done|]. intros snapshot ->. apply Hd. by left.
  - intros snapshot. unfold receive. destruct (strictEq _ _); [done|]. destruct (recovering _ && _); [done|].
    destruct (nextRows _ _ _) as [[next v]|]; [|done]. destruct (mapM copy next) eqn:Hc; [|done]. done.
Qed.
Definition demo_history (v : nat) : list row :=
  match v with 1%nat => [[("id", num 1)]] | 2%nat => [[("id", num 1)]; [("id", num 2)]] | _ => [] end.
Definition demo_deliveries : list (option row) :=
  [Some [("kind", VStr "watch"); ("protocol", VStr "splice-v1"); ("version", num 1); ("rows", rowsValue (demo_history 1))];
   Some [("kind", VStr "watch"); ("protocol", VStr "splice-v1"); ("version", num 2); ("baseVersion", num 1);
         ("splices", VArr (spliceValue <$> [Splice 1 0 [[("id", num 2)]]]))]].
Lemma watch_refines_witness :
  refines (λ r, Ok r) demo_history (Receiver [[("id", num 1)]; [("id", num 2)]] (Some 2) false) ∧
  ∀ snapshot, match receive (λ r, Ok r) (λ r, Ok r) snapshot
      (Receiver [[("id", num 1)]; [("id", num 2)]] (Some 2) false) with
    | (Ok (Some delivered), s') => mapM (λ r, Ok r) (rows s') = Ok delivered ∧ recovering s' = false
    | (_, s') => s' = Receiver [[("id", num 1)]; [("id", num 2)]] (Some 2) false
    end.
Proof.
  apply (watch_refines (λ r, Ok r) (λ r, Ok r) demo_history demo_deliveries).
  - intros snapshot Hin. unfold demo_deliveries in Hin. rewrite !elem_of_cons in Hin.
    destruct Hin as [[= ->]|[[= ->]|Hin]].
    + exact (PublishedRows demo_history 1).
    + apply (PublishedSplices demo_history 1 [Splice 1 0 [[("id", num 2)]]]).
      apply replays_cons; [unfold splice_ok; cbn; lia|]. cbn. apply replays_nil.
    + by apply not_elem_of_nil in Hin.
  - vm_compute. reflexivity.
Defined.
