(* ===== verification/Actions.v ===== *)
(** Observing Mutation and Query calls: [frontend/client-js/api/actions.mts].

    A handle ([CallState]) is a cell of a heap, known by a number.  The registry
    holds it weakly until somebody waits for it: a [Collect] step is the garbage
    collector taking a handle the registry does not hold strongly, after which
    [deref] finds nothing. *)
From S2P Require Import Prelude.
Open Scope Z_scope.
Open Scope axton_scope.

(** ** [assertQueryOptions] *)
Definition invalidOptions (message : string) : exn :=
  CallError "action.invalid_options" Rejected (Some (Error message)).
Definition assertQueryOptions (options : value) : result unit :=
  match options with
  | VUndef => Ok tt
  | _ =>
      let keys := match options with VObj fields => fields.*1 | VArr _ => [] | _ => [] end in
      guard! isObject options && negb (isArray options) && negb (existsb (λ k, negb (String.eqb k "store")) keys)
      else Throw (invalidOptions "Query accepts only a boolean store option");
      match get options "store" with
      | VUndef | VBool _ => Ok tt
      | _ => Throw (invalidOptions "store must be a boolean")
      end
  end.

(** ** [actionError] *)
Definition actionError (error : exn) : exn :=
  match error with
  | CallError _ _ _ => error
  | EngineError code _ _ | MutationRejected code =>
      CallError code (if String.eqb code "transaction_active" then Rejected else Unknown) (Some error)
  | Thrown v =>
      let code := match v with VObj _ => get v "code" | _ => VUndef end in
      let code := match code with VStr s => s | _ => "action.transport_failed"%string end in
      let rejected := match v with VObj _ => strictEq (get v "execution") (VStr "rejected") | _ => false end in
      CallError code (if rejected || String.eqb code "transaction_active" then Rejected else Unknown) (Some error)
  | Error m | TypeError m | EnrollmentOverflow m | TaskError m _ =>
      if String.eqb m "transaction_active" then CallError "transaction_active" Rejected (Some error)
      else CallError "action.transport_failed" Unknown (Some error)
  end.

(** ** [CallState] *)
Inductive call_status := Pending | Succeeded | FailedCall.
Inductive lifecycle := Provisional | Committed | RolledBack.
(** [Ok result], or [Throw error] for an outcome with an error. *)
Definition outcome : Type := result value.
Record call_state := CallState {
  c_id : string; status : call_status; life : lifecycle; settledWith : option outcome }.

Definition isProvisional (c : call_state) : bool := match life c with Provisional => true | _ => false end.
Definition commitCall (c : call_state) : call_state :=
  match life c with Provisional => CallState (c_id c) (status c) Committed (settledWith c) | _ => c end.
Definition rollBackCall (c : call_state) : call_state :=
  match life c with Provisional => CallState (c_id c) FailedCall RolledBack (settledWith c) | _ => c end.
Definition settleCall (o : outcome) (c : call_state) : call_state :=
  match settledWith c with
  | Some _ => c
  | None => CallState (c_id c) (match o with Ok _ => Succeeded | Throw _ => FailedCall end) (life c) (Some o)
  end.

(** ** [ActionRegistry] *)
Record registry := Registry {
  calls : gmap nat call_state;               (* the heap of handles *)
  collected : gset nat;
  next_call : nat;
  routes : list (string * (nat * nat));      (* the handle, weakly, and its decoder *)
  active : list (string * nat);              (* handles waited for, strongly *)
  looking : list (string * nat);             (* pending [lookup]s and who asked *)
  lookups : list string;                     (* [lookup] calls made, in order *)
  closed : bool;
  ended : bool }.
Definition newRegistry : registry := Registry ∅ ∅ 0 [] [] [] [] false false.

Definition set_calls c r := Registry c (collected r) (next_call r) (routes r) (active r) (looking r) (lookups r) (closed r) (ended r).
Definition set_routes x r := Registry (calls r) (collected r) (next_call r) x (active r) (looking r) (lookups r) (closed r) (ended r).
Definition set_active x r := Registry (calls r) (collected r) (next_call r) (routes r) x (looking r) (lookups r) (closed r) (ended r).
Definition update (h : nat) (f : call_state → call_state) (r : registry) : registry := set_calls (alter f h (calls r)) r.

(** [ref.deref()] *)
Definition deref (r : registry) (h : nat) : option nat := if decide (h ∈ collected r) then None else Some h.
Definition isActive (r : registry) (id : string) : bool :=
  match fieldOf id (active r) with Some _ => true | None => false end.
Definition sweep (r : registry) : registry :=
  set_routes (filter (λ p, deref r p.2.1 ≠ None ∨ isActive r p.1 = true) (routes r)) r.

Definition clientClosed : outcome := Throw (CallError "client.closed" Unknown None).

Section registry.
Variable lookup : bool.                       (* whether a [lookup] was given *)
Variable decode : nat → value → result value.

(** [register]: the new handle. *)
Definition register (callId : string) (decoder : nat) (provisional : bool) (r : registry) : nat * registry :=
  let r := sweep r in
  let h := next_call r in
  let c := CallState callId Pending (if provisional then Provisional else Committed) None in
  let c := if provisional && ended r then rollBackCall c
           else if closed r && negb provisional then settleCall clientClosed c else c in
  let routed := if provisional && ended r then false else negb (closed r && negb provisional) in
  let r := Registry (<[h := c]> (calls r)) (collected r) (S h) (routes r) (active r) (looking r) (lookups r)
             (closed r) (ended r) in
  (h, if routed then set_routes (setField callId (h, decoder) (routes r)) r else r).

(** [wait]: what it answers at once, when it refuses.  [refused] is what the host's
    [admit] throws, if it does. *)
Definition activate (h : nat) (callId : string) (r : registry) : registry :=
  let r := set_active (setField callId h (active r)) r in
  if lookup && negb (bool_decide (callId ∈ (looking r).*1)) then
    Registry (calls r) (collected r) (next_call r) (routes r) (active r) (looking r ++ [(callId, h)])
      (lookups r ++ [callId]) (closed r) (ended r)
  else r.
Definition wait (h : nat) (refused : option exn) (r : registry) : result (option outcome) * registry :=
  match calls r !! h with
  | None => (Throw (TypeError "not a handle"), r)
  | Some c =>
      match life c with
      | RolledBack => (Throw (CallError "transaction_rolled_back" Rejected None), r)
      | Provisional => (Throw (CallError "transaction_uncommitted" Unknown None), r)
      | Committed =>
          match settledWith c with
          | Some o => (Ok (Some o), r)
          | None => match refused with
                    | Some e => (Throw e, r)
                    | None => (Ok None, activate h (c_id c) r)
                    end
          end
      end
  end.

Inductive completion := Succeeded_ (result : value) | Failed_ (code : string) (how : execution).
Definition observationFailed (cause : exn) : outcome :=
  Throw (CallError "action.observation_failed" Unknown (Some cause)).
Definition outcomeOf (route : option (nat * nat)) (o : completion) : outcome :=
  match o with
  | Failed_ code how => Throw (CallError code how None)
  | Succeeded_ v =>
      match route with
      | None => observationFailed (TypeError "Cannot read properties")
      | Some (_, decoder) => match decode decoder v with Ok w => Ok w | Throw e => observationFailed e end
      end
  end.
(** The handle settles and is routed no more. *)
Definition retire (callId : string) (h : nat) (f : call_state → call_state) (r : registry) : registry :=
  set_active (removeKey callId (active r)) (set_routes (removeKey callId (routes r)) (update h f r)).
Definition complete (callId : string) (o : completion) (r : registry) : registry :=
  let r := sweep r in
  let route := fieldOf callId (routes r) in
  match (match fieldOf callId (active r) with
         | Some h => Some h | None => x ← route; deref r x.1 end) with
  | None => r
  | Some h => retire callId h (λ c, settleCall (outcomeOf route o) (commitCall c)) r
  end.
(** The answer of a [lookup] still pending, for the handle that asked. *)
Definition lookedUp (callId : string) (answer : result (option completion)) (r : registry) : registry :=
  match fieldOf callId (looking r) with None => r | Some h =>
  let r := match answer with
           | Ok (Some o) => complete callId o r
           | Ok None => r
           | Throw cause =>
               if isActive r callId then retire callId h (settleCall (observationFailed cause)) r else r
           end in
  Registry (calls r) (collected r) (next_call r) (routes r) (active r)
    (removeKey callId (looking r)) (lookups r) (closed r) (ended r)
  end.
Definition transition (callId : string) (committed : bool) (r : registry) : registry :=
  let r := sweep r in
  match (x ← fieldOf callId (routes r); deref r x.1) with
  | None => r
  | Some h =>
      match calls r !! h with
      | Some c =>
          guard! isProvisional c else r;
          if committed then
            let r := update h commitCall r in
            if closed r then set_routes (removeKey callId (routes r)) (update h (settleCall clientClosed) r) else r
          else set_routes (removeKey callId (routes r)) (update h rollBackCall r)
      | None => r
      end
  end.
(** [close]: the loop over the routes; a provisional one stays. *)
Fixpoint closeRoutes (l : list (string * (nat * nat))) (r : registry) : registry :=
  match l with
  | [] => r
  | (id, (h, _)) :: l =>
      let state := match fieldOf id (active r) with Some h => Some h | None => deref r h end in
      let provisional := match (h ← state; calls r !! h) with Some c => isProvisional c | None => false end in
      closeRoutes l (if provisional then r
        else set_routes (removeKey id (routes r))
               (match state with Some h => update h (settleCall clientClosed) r | None => r end))
  end.
Definition close (r : registry) : registry :=
  if closed r then r
  else
    let r := Registry (calls r) (collected r) (next_call r) (routes r) (active r) (looking r) (lookups r) true (ended r) in
    let r := closeRoutes (routes r) r in
    set_active [] r.
Definition end_ (r : registry) : registry :=
  let r := close r in
  let r := Registry (calls r) (collected r) (next_call r) (routes r) (active r) (looking r) (lookups r) (closed r) true in
  let r := foldl (λ r p, match deref r p.2.1 with Some h => update h rollBackCall r | None => r end) r (routes r) in
  set_routes [] r.

(** ** Runs *)
Inductive event :=
| Register (callId : string) (decoder : nat) (provisional : bool)
| Wait (h : nat) (refused : option exn)
| LookedUp (callId : string) (answer : result (option completion))
| Transition (callId : string) (committed : bool)
| Complete (callId : string) (o : completion)
| Collect (h : nat)
| Close
| End.
Definition step (r : registry) (e : event) : registry :=
  match e with
  | Register callId decoder provisional => (register callId decoder provisional r).2
  | Wait h refused => if decide (h ∈ collected r) then r else (wait h refused r).2
  | LookedUp callId answer => lookedUp callId answer r
  | Transition callId committed => transition callId committed r
  | Complete callId o => complete callId o r
  | Collect h =>
      if bool_decide (h ∈ (active r).*2) then r
      else Registry (calls r) ({[h]} ∪ collected r) (next_call r) (routes r) (active r) (looking r) (lookups r)
             (closed r) (ended r)
  | Close => close r
  | End => end_ r
  end.
Definition run (events : list event) : registry := foldl step newRegistry events.
Definition registeredIds (events : list event) : list string :=
  omap (λ e, match e with Register callId _ _ => Some callId | _ => None end) events.
End registry.
