(* ===== verification/ActionFacts.v ===== *)
(** Every observed call ends: settled once, or rolled back. *)
From S2P Require Import Prelude Actions.
Open Scope Z_scope.

(** ** The invariant *)
Definition done (c : call_state) : Prop := settledWith c ≠ None ∨ life c = RolledBack.
Record inv (seen : list string) (r : registry) : Prop := {
  inv_route : ∀ k h d, (k, (h, d)) ∈ routes r →
    ∃ c, calls r !! h = Some c ∧ c_id c = k ∧ settledWith c = None ∧ life c ≠ RolledBack;
  inv_routes : NoDup (routes r).*1;
  inv_active : ∀ k h, (k, h) ∈ active r →
    (∃ d, (k, (h, d)) ∈ routes r) ∧ (h ∉ collected r) ∧ ∀ c, calls r !! h = Some c → life c = Committed;
  inv_actives : NoDup (active r).*1;
  inv_live : ∀ h c, calls r !! h = Some c → h ∉ collected r →
    done c ∨ ∃ d, (c_id c, (h, d)) ∈ routes r;
  inv_closed : closed r = true → active r = [] ∧
    ∀ k h d c, (k, (h, d)) ∈ routes r → calls r !! h = Some c → life c = Provisional;
  inv_ended : ended r = true → routes r = [] ∧ closed r = true;
  inv_next : ∀ h c, calls r !! h = Some c → (h < next_call r)%nat;
  inv_unique : ∀ h h' c c', calls r !! h = Some c → calls r !! h' = Some c' → c_id c = c_id c' → h = h';
  inv_seen : ∀ h c, calls r !! h = Some c → c_id c ∈ seen;
  inv_looking : ∀ k h, (k, h) ∈ looking r → ∃ c, calls r !! h = Some c ∧ c_id c = k }.

Lemma alter_lookup h f (m : gmap nat call_state) i c :
  alter f h m !! i = Some c ↔
  (i = h ∧ ∃ c0, m !! h = Some c0 ∧ c = f c0) ∨ (i ≠ h ∧ m !! i = Some c).
Proof.
  destruct (decide (i = h)) as [->|Hne].
  - rewrite lookup_alter_eq, fmap_Some. naive_solver.
  - rewrite lookup_alter_ne by done. naive_solver.
Qed.
Lemma commitCall_id c : c_id (commitCall c) = c_id c.
Proof. unfold commitCall. by destruct (life c). Qed.
Lemma rollBackCall_id c : c_id (rollBackCall c) = c_id c.
Proof. unfold rollBackCall. by destruct (life c). Qed.
Lemma settleCall_id o c : c_id (settleCall o c) = c_id c.
Proof. unfold settleCall. by destruct (settledWith c). Qed.
Lemma settleCall_done o c : done (settleCall o c).
Proof. left. unfold settleCall. by destruct (settledWith c) eqn:H; [rewrite H|]. Qed.

(** ** Operations *)
Section facts.
Variable lookup : bool.
Variable decode : nat → value → result value.
Variable seen : list string.

Lemma sweep_inv r : inv seen r → inv seen (sweep r).
Proof.
  intros [H1 H2 H3 H4 H5 H6 H7 H8 H9 H10 H11]. unfold sweep.
  assert (∀ p, p ∈ routes (sweep r) ↔ (deref r p.2.1 ≠ None ∨ isActive r p.1 = true) ∧ p ∈ routes r) as Hr
    by (intros p; unfold sweep; cbn; by rewrite list_elem_of_filter).
  split; cbn; try done.
  - intros k h d Hin. apply (H1 k h d). by apply Hr.
  - by apply filter_keys_NoDup.
  - intros k h Hin. destruct (H3 k h Hin) as ((d & Hd) & Hc & Hl). split_and!; [|done..].
    exists d. apply Hr. split; [|done]. left. cbn. unfold deref. by rewrite decide_False.
  - intros h c Hc Hn. destruct (H5 h c Hc Hn) as [|[d Hd]]; [by left|right]. exists d. apply Hr.
    split; [|done]. left. cbn. unfold deref. by rewrite decide_False.
  - intros Hc. destruct (H6 Hc) as [Ha Hp]. split; [done|]. intros k h d c Hin. apply (Hp k h d c). by apply Hr.
  - intros He. destruct (H7 He) as [Hz ?]. rewrite Hz. done.
Qed.
Lemma update_inv_calls h f r c :
  calls r !! h = Some c → (∀ c, c_id (f c) = c_id c) →
  (∀ i x, calls (update h f r) !! i = Some x → ∃ y, calls r !! i = Some y ∧ c_id x = c_id y ∧ (i ≠ h → x = y) ∧ (i = h → x = f c)) ∧
  (∀ i y, calls r !! i = Some y → ∃ x, calls (update h f r) !! i = Some x ∧ c_id x = c_id y ∧ (i ≠ h → x = y) ∧ (i = h → x = f c)).
Proof.
  intros Hc Hf. split; intros i x; cbn.
  - rewrite alter_lookup. intros [(-> & c0 & Hc0 & ->)|[Hne Hx]].
    + rewrite Hc in Hc0. injection Hc0 as <-. exists c. split_and!; [done|apply Hf|by intros []|done].
    + exists x. by split_and!.
  - intros Hx. destruct (decide (i = h)) as [->|Hne].
    + rewrite Hc in Hx. injection Hx as <-. exists (f c). rewrite lookup_alter_eq, Hc. split_and!; [done|apply Hf|by intros []|done].
    + exists x. rewrite lookup_alter_ne by done. by split_and!.
Qed.
Lemma retire_inv k h f r c :
  inv seen r → calls r !! h = Some c → c_id c = k → (∀ c, c_id (f c) = c_id c) → done (f c) →
  inv seen (retire k h f r).
Proof.
  intros [H1 H2 H3 H4 H5 H6 H7 H8 H9 H10 H11] Hc Hk Hf Hd. unfold retire.
  destruct (update_inv_calls h f r c Hc Hf) as [Ufrom Uto].
  assert (∀ j i d, (j, (i, d)) ∈ routes r → j ≠ k → i ≠ h) as Hne.
  { intros j i d Hin Hj ->. destruct (H1 _ _ _ Hin) as (c' & Hc' & Hid & _). congruence. }
  split; cbn; try done.
  - intros j i d [Hj Hin]%removeKey_elem. cbn in Hj. destruct (H1 _ _ _ Hin) as (y & Hy & Hid & Hs & Hl).
    destruct (Uto _ _ Hy) as (x & Hx & Hxi & Hxe & _). rewrite Hxe in * by eauto. eauto.
  - by apply filter_keys_NoDup.
  - intros j i [Hj Hin]%removeKey_elem. cbn in Hj. destruct (H3 _ _ Hin) as ((d & Hd') & Hcol & Hl).
    split_and!; [|done|].
    + exists d. by apply removeKey_elem.
    + intros x Hx. destruct (Ufrom _ _ Hx) as (y & Hy & _ & Hxy & _). rewrite Hxy by eauto. eauto.
  - by apply filter_keys_NoDup.
  - intros i x Hx Hcol. destruct (Ufrom _ _ Hx) as (y & Hy & Hid & Hxy & Hxh).
    destruct (decide (i = h)) as [->|Hi]; [left; by rewrite Hxh|]. rewrite Hxy in * by done.
    destruct (H5 _ _ Hy Hcol) as [|[d Hin]]; [by left|right]. exists d. apply removeKey_elem. cbn. split; [|done].
    intros Heq. apply Hi. apply (H9 _ _ _ _ Hy Hc). congruence.
  - intros Hcl. destruct (H6 Hcl) as [-> Hp]. split; [done|].
    intros j i d x [Hj Hin]%removeKey_elem Hx. cbn in Hj.
    destruct (Ufrom _ _ Hx) as (y & Hy & _ & Hxy & _). rewrite Hxy by eauto. eauto.
  - intros He. destruct (H7 He) as [-> ?]. done.
  - intros i x Hx. destruct (Ufrom _ _ Hx) as (y & Hy & _). eauto.
  - intros i i' x x' Hx Hx'. destruct (Ufrom _ _ Hx) as (y & Hy & Hid & _), (Ufrom _ _ Hx') as (y' & Hy' & Hid' & _).
    intros Heq. eapply H9; [exact Hy|exact Hy'|congruence].
  - intros i x Hx. destruct (Ufrom _ _ Hx) as (y & Hy & -> & _). eauto.
  - intros j i Hin. destruct (H11 _ _ Hin) as (y & Hy & Hid). destruct (Uto _ _ Hy) as (x & Hx & Hxi & _).
    exists x. split; [done|congruence].
Qed.
(** The handle a route or a waiter stands for. *)
Lemma routed_handle r k h d : inv seen r → fieldOf k (routes r) = Some (h, d) → ∃ c, calls r !! h = Some c ∧ c_id c = k.
Proof. intros Hr Hk%fieldOf_elem_of. destruct (inv_route _ _ Hr _ _ _ Hk) as (c & ? & ? & _). eauto. Qed.
Lemma active_handle r k h : inv seen r → fieldOf k (active r) = Some h → ∃ c, calls r !! h = Some c ∧ c_id c = k.
Proof.
  intros Hr Hk%fieldOf_elem_of. destruct (inv_active _ _ Hr _ _ Hk) as ((d & Hd) & _).
  destruct (inv_route _ _ Hr _ _ _ Hd) as (c & ? & ? & _). eauto.
Qed.
Lemma complete_inv k o r : inv seen r → inv seen (complete decode k o r).
Proof.
  intros Hr. unfold complete. apply sweep_inv in Hr. revert Hr. generalize (sweep r). clear r. intros r Hr. cbv zeta.
  destruct (fieldOf k (active r)) as [h|] eqn:Ha.
  - destruct (active_handle _ _ _ Hr Ha) as (c & Hc & Hid). eapply retire_inv; eauto using settleCall_done.
    intros x. by rewrite settleCall_id, commitCall_id.
  - destruct (fieldOf k (routes r)) as [[h d]|] eqn:Hf; cbn [mbind option_bind fst]; [|done].
    destruct (deref r h) as [h'|] eqn:Hd; [|done]. unfold deref in Hd. case_decide; [done|]. simplify_eq.
    destruct (routed_handle _ _ _ _ Hr Hf) as (c & Hc & Hid). eapply retire_inv; eauto using settleCall_done.
    intros x. by rewrite settleCall_id, commitCall_id.
Qed.
Lemma looking_inv k r : inv seen r →
  inv seen (Registry (calls r) (collected r) (next_call r) (routes r) (active r) (removeKey k (looking r)) (lookups r) (closed r) (ended r)).
Proof.
  intros [H1 H2 H3 H4 H5 H6 H7 H8 H9 H10 H11]. split; try done. cbn. intros j h [_ Hin]%removeKey_elem. eauto.
Qed.
Lemma lookedUp_inv k answer r : inv seen r → inv seen (lookedUp decode k answer r).
Proof.
  intros Hr. unfold lookedUp. destruct (fieldOf k (looking r)) as [h|] eqn:Hl; [|done]. cbv zeta. apply looking_inv.
  destruct answer as [[o|]|cause]; [by apply complete_inv|done|].
  destruct (isActive r k); [|done].
  destruct (inv_looking _ _ Hr k h (fieldOf_elem_of _ _ _ Hl)) as (c & Hc & Hid).
  eapply retire_inv; eauto using settleCall_done, settleCall_id.
Qed.

Lemma commit_inv h r c :
  inv seen r → calls r !! h = Some c → closed r = false → inv seen (update h commitCall r).
Proof.
  intros [H1 H2 H3 H4 H5 H6 H7 H8 H9 H10 H11] Hc Hcl.
  destruct (update_inv_calls h commitCall r c Hc commitCall_id) as [Ufrom Uto].
  assert (∀ x, settledWith (commitCall x) = settledWith x ∧ (life x ≠ RolledBack → life (commitCall x) = Committed) ∧
    (life (commitCall x) = RolledBack ↔ life x = RolledBack)) as Hcom
    by (intros x; unfold commitCall; destruct (life x) eqn:E; cbn; rewrite ?E; intuition congruence).
  assert (∀ i x, calls (update h commitCall r) !! i = Some x → ∃ y, calls r !! i = Some y ∧ c_id x = c_id y ∧
    settledWith x = settledWith y ∧ (life x = RolledBack ↔ life y = RolledBack) ∧ (life y = Committed → life x = Committed)) as Hback.
  { intros i x Hx. destruct (Ufrom _ _ Hx) as (y & Hy & Hid & Hne & Heq). exists y. split; [done|]. split; [done|].
    destruct (decide (i = h)) as [->|Hi]; [|rewrite Hne by done; by split_and!].
    rewrite Heq by done. assert (y = c) as -> by congruence. destruct (Hcom c) as (? & Hl & ?). split_and!; try tauto.
    intros Hy'. apply Hl. congruence. }
  split; cbn; try done.
  - intros j i d Hin. destruct (H1 _ _ _ Hin) as (y & Hy & Hid & Hs & Hl).
    destruct (Uto _ _ Hy) as (x & Hx & Hxi & _). destruct (Hback _ _ Hx) as (y' & Hy' & _ & Hxs & Hxl & _).
    assert (y' = y) as -> by congruence. exists x. split_and!; [done|congruence|congruence|tauto].
  - intros j i Hin. destruct (H3 _ _ Hin) as (? & ? & Hl). split_and!; try done. intros x Hx.
    destruct (Hback _ _ Hx) as (y & Hy & _ & _ & _ & Hxl). eauto.
  - intros i x Hx Hcol. destruct (Hback _ _ Hx) as (y & Hy & Hid & Hs & Hl & _).
    destruct (H5 _ _ Hy Hcol) as [[?|?]|[d Hd]]; [left; left; congruence|left; right; tauto|right].
    exists d. by rewrite Hid.
  - congruence.
  - intros i x Hx. destruct (Hback _ _ Hx) as (y & Hy & _). eauto.
  - intros i i' x x' Hx Hx' Heq. destruct (Hback _ _ Hx) as (y & Hy & Hid & _), (Hback _ _ Hx') as (y' & Hy' & Hid' & _).
    eapply H9; [exact Hy|exact Hy'|congruence].
  - intros i x Hx. destruct (Hback _ _ Hx) as (y & Hy & -> & _). eauto.
  - intros j i Hin. destruct (H11 _ _ Hin) as (y & Hy & Hid). destruct (Uto _ _ Hy) as (x & Hx & Hxi & _).
    exists x. split; [done|congruence].
Qed.
Lemma transition_inv k committed r : inv seen r → inv seen (transition k committed r).
Proof.
  intros Hr. unfold transition. apply sweep_inv in Hr. revert Hr. generalize (sweep r). clear r. intros r Hr. cbv zeta.
  destruct (fieldOf k (routes r)) as [[h d]|] eqn:Hf; cbn [mbind option_bind fst]; [|done].
  destruct (deref r h) as [h'|] eqn:Hd; [|done]. unfold deref in Hd. case_decide as Hcol; [done|]. simplify_eq.
  destruct (routed_handle _ _ _ _ Hr Hf) as (c & Hc & Hid). rewrite Hc.
  destruct (isProvisional c) eqn:Hp; [|done].
  assert (life c = Provisional) as Hl by (unfold isProvisional in Hp; by destruct (life c)).
  assert (removeKey k (active r) = active r) as Ha.
  { apply removeKey_fresh. intros Hin. apply list_elem_of_fmap in Hin as ([j i] & -> & Hin). cbn in *.
    destruct (inv_active _ _ Hr _ _ Hin) as ((d' & Hd') & _ & Hcom).
    destruct (inv_route _ _ Hr _ _ _ Hd') as (c' & Hc' & Hid' & _).
    assert (i = h') as -> by (eapply (inv_unique _ _ Hr); [exact Hc'|exact Hc|congruence]).
    specialize (Hcom _ Hc). congruence. }
  destruct committed.
  - change (closed (update h' commitCall r)) with (closed r). destruct (closed r) eqn:Hcl.
    + pose proof (retire_inv k h' (settleCall clientClosed ∘ commitCall) r c Hr Hc Hid) as Hret.
      unfold retire in Hret. rewrite Ha in Hret.
      assert (update h' (settleCall clientClosed) (update h' commitCall r) =
              update h' (settleCall clientClosed ∘ commitCall) r) as ->
        by (unfold update, set_calls; cbn; f_equal; apply alter_alter_eq).
      destruct r. apply Hret; [|apply settleCall_done]. intros x. unfold compose. by rewrite settleCall_id, commitCall_id.
    + by eapply commit_inv.
  - pose proof (retire_inv k h' rollBackCall r c Hr Hc Hid rollBackCall_id) as Hret.
    unfold retire in Hret. rewrite Ha in Hret. destruct r. apply Hret. right. unfold rollBackCall. by rewrite Hl.
Qed.
Lemma wait_inv h refused r : h ∉ collected r → inv seen r → inv seen (wait lookup h refused r).2.
Proof.
  intros Hcol Hr. unfold wait. destruct (calls r !! h) as [c|] eqn:Hc; [|done].
  destruct (life c) eqn:Hl; [done| |done]. destruct (settledWith c) as [o|] eqn:Hs; [done|].
  destruct refused; [done|]. cbn [snd].
  destruct (inv_live _ _ Hr _ _ Hc Hcol) as [[Hd|Hd]|[d Hd]]; [by destruct Hd|congruence|].
  assert (closed r = false) as Hcl.
  { destruct (closed r) eqn:E; [|done]. destruct (inv_closed _ _ Hr E) as [_ Hp]. specialize (Hp _ _ _ _ Hd Hc). congruence. }
  assert (inv seen (set_active (setField (c_id c) h (active r)) r)) as Ha.
  { destruct Hr as [H1 H2 H3 H4 H5 H6 H7 H8 H9 H10 H11]. split; cbn; try done; [| |congruence].
    - assert (∀ l, (∀ k i, (k, i) ∈ l → (k, i) ∈ active r) → ∀ k i, (k, i) ∈ setField (c_id c) h l →
        (k, i) ∈ active r ∨ (k, i) = (c_id c, h)) as Hset.
      { induction l as [|[j x] l IH]; cbn; intros Hin k i; [rewrite list_elem_of_singleton; auto|].
        destruct (String.eqb_spec j (c_id c)); rewrite elem_of_cons; intros [?|?]; simplify_eq; auto.
        - left. apply Hin. by right.
        - left. apply Hin. by left.
        - apply IH; [|done]. intros. apply Hin. by right. }
      intros k i Hin. destruct (Hset _ (λ _ _ H, H) _ _ Hin) as [Hold|[= -> ->]]; [by apply H3|].
      split_and!; [eauto|done|]. intros x Hx. congruence.
    - clear -H4. induction (active r) as [|[j x] l IH]; cbn; [by apply NoDup_singleton|].
      cbn in H4. apply NoDup_cons in H4 as [Hj Hl]. destruct (String.eqb_spec j (c_id c)) as [->|]; cbn; apply NoDup_cons; [done|].
      split; [|auto]. intros Hin. apply Hj.
      assert (∀ l : list (string * nat), j ∈ (setField (c_id c) h l).*1 → j = c_id c ∨ j ∈ l.*1) as Hk.
      { induction l0 as [|[a b] l0 IH0]; cbn; [set_solver|]. destruct (String.eqb_spec a (c_id c)); cbn; set_solver. }
      destruct (Hk _ Hin); [congruence|done]. }
  unfold activate. destruct (lookup && _); [|done].
  destruct Ha as [H1 H2 H3 H4 H5 H6 H7 H8 H9 H10 H11]. split; try done. cbn.
  intros k i. rewrite elem_of_app, list_elem_of_singleton. intros [Hin|[= -> ->]]; [by apply H11|]. eauto.
Qed.
Lemma collect_inv h r : (h ∉ (active r).*2) → inv seen r →
  inv seen (Registry (calls r) ({[h]} ∪ collected r) (next_call r) (routes r) (active r) (looking r) (lookups r) (closed r) (ended r)).
Proof.
  intros Ha [H1 H2 H3 H4 H5 H6 H7 H8 H9 H10 H11]. split; cbn; try done.
  - intros k i Hin. destruct (H3 _ _ Hin) as (? & ? & ?). split_and!; try done.
    assert (i ≠ h); [|set_solver]. intros ->. apply Ha. apply list_elem_of_fmap. by exists (k, h).
  - intros i c Hc Hcol. apply H5; [done|set_solver].
Qed.

(** ** Closing and ending *)
Definition reopened (r : registry) : registry :=
  Registry (calls r) (collected r) (next_call r) (routes r) [] (looking r) (lookups r) false (ended r).
Lemma drop_inv k h d r :
  inv seen r → (k, (h, d)) ∈ routes r → h ∈ collected r → active r = [] →
  inv seen (set_routes (removeKey k (routes r)) r).
Proof.
  intros [H1 H2 H3 H4 H5 H6 H7 H8 H9 H10 H11] Hin Hcol Ha. split; cbn; try done.
  - intros j i d' [_ ?]%removeKey_elem. eauto.
  - by apply filter_keys_NoDup.
  - rewrite Ha. intros j i Hj. by apply not_elem_of_nil in Hj.
  - intros i c Hc Hi. destruct (H5 _ _ Hc Hi) as [|[d' Hd]]; [by left|right]. exists d'.
    apply removeKey_elem. split; [|done]. cbn. intros Heq. apply Hi.
    apply (fieldOf_NoDup _ _ _ H2) in Hd. apply (fieldOf_NoDup _ _ _ H2) in Hin. congruence.
  - intros Hcl. destruct (H6 Hcl) as [? Hp]. split; [done|]. intros j i d' c [_ ?]%removeKey_elem. eauto.
  - intros He. destruct (H7 He) as [-> ?]. done.
Qed.
Lemma closeRoutes_shape l r :
  active (closeRoutes l r) = active r ∧ collected (closeRoutes l r) = collected r ∧
  closed (closeRoutes l r) = closed r ∧ ended (closeRoutes l r) = ended r ∧
  (∀ p, p ∈ routes (closeRoutes l r) → p ∈ routes r) ∧
  (∀ h c, calls (closeRoutes l r) !! h = Some c → ∃ c', calls r !! h = Some c' ∧ life c = life c').
Proof.
  revert r. induction l as [|[id [h d]] l IH]; intros r; cbn [closeRoutes]; [by eauto 10|]. cbv zeta.
  match goal with |- context [closeRoutes l ?r'] => destruct (IH r') as (IHa & IHc & IHl & IHe & IHr & IHh);
    assert (active r' = active r ∧ collected r' = collected r ∧ closed r' = closed r ∧ ended r' = ended r ∧
      (∀ p, p ∈ routes r' → p ∈ routes r) ∧
      (∀ h c, calls r' !! h = Some c → ∃ c', calls r !! h = Some c' ∧ life c = life c')) as (Ra & Rc & Rl & Re & Rr & Rh) end.
  - case_match; [by eauto 10|]. split_and!; try by repeat case_match.
    + intros p Hp. destruct (match fieldOf id (active r) with Some h0 => Some h0 | None => deref r h end); cbn in Hp;
        by apply removeKey_elem in Hp as [_ ?].
    + intros i c Hc. destruct (match fieldOf id (active r) with Some h0 => Some h0 | None => deref r h end) as [s|]; cbn in Hc; [|eauto].
      apply alter_lookup in Hc as [(-> & c0 & Hc0 & ->)|[_ ?]]; [|eauto]. exists c0. split; [done|].
      unfold settleCall. by destruct (settledWith c0).
  - split_and!; [congruence..|auto|].
    intros i c Hc. destruct (IHh _ _ Hc) as (c1 & Hc1 & ->). eauto.
Qed.
Definition known (l : list (string * (nat * nat))) (r : registry) : Prop :=
  NoDup l.*1 ∧ (∀ p, p ∈ l → p ∈ routes r) ∧
  ∀ k h h' d, fieldOf k (active r) = Some h → (k, (h', d)) ∈ l → h = h'.
Lemma closeRoutes_inv l r :
  inv seen (reopened r) → known l r →
  inv seen (reopened (closeRoutes l r)) ∧
  ∀ k h d c, (k, (h, d)) ∈ routes (closeRoutes l r) → k ∈ l.*1 → calls (closeRoutes l r) !! h = Some c → life c = Provisional.
Proof.
  revert r. induction l as [|[id [h d]] l IH]; intros r Hr (Hnd & Hsub & Hact); [split; [done|set_solver]|].
  cbn in Hnd. apply NoDup_cons in Hnd as [Hid Hnd].
  assert ((id, (h, d)) ∈ routes r) as Hin by (apply Hsub; by left).
  destruct (inv_route _ _ Hr id h d Hin) as (c & Hc & Hcid & _). cbn in Hc.
  cbn [closeRoutes]. cbv zeta.
  set (state := match fieldOf id (active r) with Some h0 => Some h0 | None => deref r h end).
  assert (state = Some h ∨ state = None ∧ h ∈ collected r) as Hstate.
  { unfold state. destruct (fieldOf id (active r)) as [h0|] eqn:E; [left; f_equal; eapply Hact; [done|by left]|].
    unfold deref. case_decide; auto. }
  assert (∀ r', routes r' = removeKey id (routes r) → active r' = active r → known l r') as Hknown.
  { intros r' Hr' Ha'. split; [done|]. split.
    - intros [k p] Hp. rewrite Hr'. apply removeKey_elem. split; [|by apply Hsub; right]. cbn. intros ->.
      apply Hid. apply list_elem_of_fmap. by exists (id, p).
    - intros k i i' d'. rewrite Ha'. intros Hf Hl. eapply Hact; [done|by right]. }
  match goal with |- context [closeRoutes l ?x] => set (r' := x) end.
  assert (inv seen (reopened r') ∧ known l r' ∧ ((id ∉ (routes r').*1) ∨ r' = r ∧ life c = Provisional)) as (Hr' & Hk & Hhead).
  { subst r'. destruct Hstate as [->|[-> Hcol]]; cbn [mbind option_bind].
    - rewrite Hc. destruct (isProvisional c) eqn:Hp.
      + split_and!; [done| |right; split; [done|]; unfold isProvisional in Hp; by destruct (life c)].
        split; [done|]. split; [intros; apply Hsub; by right|]. intros k i i' d' Hf Hl. eapply Hact; [done|by right].
      + split_and!; [| |left].
        * pose proof (retire_inv id h (settleCall clientClosed) _ c Hr Hc Hcid (settleCall_id _) (settleCall_done _ _)) as H.
          exact H.
        * by apply Hknown.
        * cbn. intros (q & Hq & Hqi)%list_elem_of_fmap. apply removeKey_elem in Hqi. naive_solver.
    - split_and!; [| |left].
      + apply (drop_inv id h d (reopened r)); [done|exact Hin|exact Hcol|done].
      + by apply Hknown.
      + cbn. intros (q & Hq & Hqi)%list_elem_of_fmap. apply removeKey_elem in Hqi. naive_solver. }
  destruct (IH r' Hr' Hk) as [IHr IHp]. split; [done|]. intros k i d' x Hx Hk' Hcx. cbn in Hk'.
  apply elem_of_cons in Hk' as [->|Hk']; [|by eapply IHp].
  destruct (closeRoutes_shape l r') as (_ & _ & _ & _ & Hroutes & Hlife).
  apply Hroutes in Hx. destruct Hhead as [Hn|[-> Hp]].
  - destruct Hn. apply list_elem_of_fmap. by exists (id, (i, d')).
  - destruct (Hlife _ _ Hcx) as (c' & Hc' & ->).
    apply (fieldOf_NoDup _ _ _ (inv_routes _ _ Hr)) in Hx. apply (fieldOf_NoDup _ _ _ (inv_routes _ _ Hr)) in Hin.
    assert (i = h) as -> by congruence. congruence.
Qed.
Lemma close_inv r : inv seen r → inv seen (close r).
Proof.
  intros Hr. unfold close. destruct (closed r) eqn:Hcl; [done|]. cbv zeta.
  assert (ended r = false) as He.
  { destruct (ended r) eqn:E; [|done]. destruct (inv_ended _ _ Hr E). congruence. }
  match goal with |- context [closeRoutes _ ?x] => set (r0 := x) end.
  assert (inv seen (reopened r0)) as Hr0.
  { destruct Hr as [H1 H2 H3 H4 H5 H6 H7 H8 H9 H10 H11]. split; cbn; try done.
    - intros k h Hin. by apply not_elem_of_nil in Hin.
    - by apply NoDup_nil.
    - intros Hx. congruence. }
  assert (known (routes r0) r0) as Hk.
  { split; [apply (inv_routes _ _ Hr)|]. split; [done|]. cbn. intros k h h' d Hf%fieldOf_elem_of Hl.
    destruct (inv_active _ _ Hr _ _ Hf) as ((d' & Hd) & _).
    apply (fieldOf_NoDup _ _ _ (inv_routes _ _ Hr)) in Hd. apply (fieldOf_NoDup _ _ _ (inv_routes _ _ Hr)) in Hl. congruence. }
  destruct (closeRoutes_inv _ _ Hr0 Hk) as [Hres Hp].
  destruct (closeRoutes_shape (routes r0) r0) as (_ & Hcol & Hclo & Hend & Hsub & _).
  destruct Hres as [H1 H2 H3 H4 H5 H6 H7 H8 H9 H10 H11]. split; cbn; try done.
  - intros _. split; [done|]. intros k h d c Hin. apply (Hp k h d c Hin). apply list_elem_of_fmap.
    exists (k, (h, d)). split; [done|]. by apply Hsub.
  - intros E. change (ended (closeRoutes (routes r0) r0) = true) in E. rewrite Hend in E. cbn in E. congruence.
Qed.
Definition rolled (p : string * (nat * nat)) (r : registry) : registry :=
  match deref r p.2.1 with Some h => update h rollBackCall r | None => r end.
Lemma rollBackCall_twice c : rollBackCall (rollBackCall c) = rollBackCall c.
Proof. unfold rollBackCall. destruct (life c) eqn:E; cbn; by rewrite ?E. Qed.
Lemma rollBack_done c : done c → done (rollBackCall c).
Proof. unfold done, rollBackCall. destruct (life c) eqn:E; cbn; auto; rewrite E; auto. Qed.
Lemma rolled_routes l r :
  let r' := foldl (λ r p, rolled p r) r l in
  r' = set_calls (calls r') r ∧
  (∀ h, is_Some (calls r !! h) → is_Some (calls r' !! h)) ∧
  ∀ h c, calls r' !! h = Some c → ∃ c0, calls r !! h = Some c0 ∧ (c = c0 ∨ c = rollBackCall c0) ∧
    (h ∉ collected r → h ∈ (λ p, p.2.1) <$> l → c = rollBackCall c0).
Proof.
  revert r. induction l as [|p l IH]; intros r; cbn [foldl].
  - split; [by destruct r|]. split; [done|]. intros h c Hc. exists c. split_and!; [done|by left|]. intros _ Hin.
    by apply not_elem_of_nil in Hin.
  - cbv zeta. destruct (IH (rolled p r)) as (Heq & Hsome & Hfrom).
    assert (rolled p r = set_calls (calls (rolled p r)) r ∧ (∀ h, is_Some (calls r !! h) → is_Some (calls (rolled p r) !! h)) ∧
      ∀ h c, calls (rolled p r) !! h = Some c → ∃ c0, calls r !! h = Some c0 ∧ (c = c0 ∨ c = rollBackCall c0) ∧
        (h ∉ collected r → h = p.2.1 → c = rollBackCall c0)) as (Peq & Psome & Pfrom).
    { unfold rolled, deref. case_decide as Hcol.
      - split_and!; [by destruct r|done|]. intros h c Hc. exists c. split_and!; [done|by left|]. intros Hn ->. done.
      - split_and!; [done| |].
        + cbn. intros h Hh. destruct (decide (h = p.2.1)) as [->|]; [rewrite lookup_alter_eq; by destruct Hh as [? ->]; eexists|].
          by rewrite lookup_alter_ne.
        + cbn. intros h c [(-> & c0 & Hc0 & ->)|[Hne Hc]]%alter_lookup; [exists c0; by auto|].
          exists c. split_and!; [done|by left|done]. }
    split_and!.
    + rewrite Heq at 1. rewrite Peq. done.
    + auto.
    + intros h c Hc. destruct (Hfrom _ _ Hc) as (c1 & Hc1 & Hor & Hl). destruct (Pfrom _ _ Hc1) as (c0 & Hc0 & Hor0 & Hl0).
      exists c0. split; [done|]. split.
      { destruct Hor as [->| ->], Hor0 as [->| ->]; rewrite ?rollBackCall_twice; auto. }
      intros Hn Hin. apply elem_of_cons in Hin as [Hh|Hin].
      * rewrite (Hl0 Hn Hh) in Hor. destruct Hor as [->| ->]; by rewrite ?rollBackCall_twice.
      * assert (collected (rolled p r) = collected r) as Hcol by (by rewrite Peq). rewrite Hcol in Hl. rewrite (Hl Hn Hin).
        destruct Hor0 as [->| ->]; by rewrite ?rollBackCall_twice.
Qed.
Lemma close_closed r : closed (close r) = true.
Proof.
  unfold close. destruct (closed r) eqn:E; [done|]. cbn. exact (proj1 (proj2 (proj2 (closeRoutes_shape _ _)))).
Qed.
Lemma end_inv r : inv seen r → inv seen (end_ r).
Proof.
  intros Hr%close_inv. unfold end_. pose proof (close_closed r) as Hclo. revert Hr Hclo. generalize (close r). clear r.
  intros r Hr Hclo. cbv zeta.
  match goal with |- context [foldl ?f ?x (routes ?y)] => set (r0 := x); change f with (λ r p, rolled p r); change (routes y) with (routes r0) end.
  destruct (rolled_routes (routes r0) r0) as (Heq & Hsome & Hfrom). rewrite Heq. revert Hsome Hfrom. clear Heq.
  generalize (calls (foldl (λ r p, rolled p r) r0 (routes r0))). intros m Hsome Hfrom.
  destruct Hr as [H1 H2 H3 H4 H5 H6 H7 H8 H9 H10 H11]. cbn in *.
  destruct (H6 Hclo) as [Hact Hprov].
  assert (∀ h c, m !! h = Some c → ∃ c0, calls r !! h = Some c0 ∧ c_id c = c_id c0) as Hid.
  { intros h c Hc. destruct (Hfrom _ _ Hc) as (c0 & Hc0 & [->| ->] & _); exists c0; by rewrite ?rollBackCall_id. }
  split; cbn; try done.
  - intros k h d Hin. by apply not_elem_of_nil in Hin.
  - by apply NoDup_nil.
  - rewrite Hact. intros k h Hin. by apply not_elem_of_nil in Hin.
  - intros h c Hc Hcol. left. destruct (Hfrom _ _ Hc) as (c0 & Hc0 & Hor & Hl).
    destruct (H5 _ _ Hc0 Hcol) as [Hd|[d Hd]].
    + destruct Hor as [->| ->]; auto using rollBack_done.
    + rewrite Hl; [|done|apply list_elem_of_fmap; eexists; by split; [|exact Hd]].
      right. unfold rollBackCall. by rewrite (Hprov _ _ _ _ Hd Hc0).
  - intros _. split; [done|]. intros k h d c Hin. by apply not_elem_of_nil in Hin.
  - intros h c Hc. destruct (Hid _ _ Hc) as (? & ? & _). eauto.
  - intros h h' c c' Hc Hc' He. destruct (Hid _ _ Hc) as (x & Hx & ?), (Hid _ _ Hc') as (x' & Hx' & ?).
    eapply H9; [exact Hx|exact Hx'|congruence].
  - intros h c Hc. destruct (Hid _ _ Hc) as (? & ? & ->). eauto.
  - intros k h Hin. destruct (H11 _ _ Hin) as (x & Hx & Hxi). destruct (Hsome h) as [c Hc]; [by eexists|].
    exists c. split; [done|]. destruct (Hid _ _ Hc) as (? & ? & ->). congruence.
Qed.

Lemma end_ended r : ended (end_ r) = true.
Proof.
  unfold end_. cbv zeta.
  match goal with |- context [foldl ?f ?x (routes ?y)] => set (r0 := x); change f with (λ r p, rolled p r); change (routes y) with (routes r0) end.
  destruct (rolled_routes (routes r0) r0) as (Heq & _). rewrite Heq. done.
Qed.

Lemma setField_fresh {A} k (a : A) l : (k ∉ l.*1) → setField k a l = l ++ [(k, a)].
Proof.
  induction l as [|[j b] l IH]; cbn; [done|]. intros Hk. destruct (String.eqb_spec j k) as [->|]; [set_solver|].
  by rewrite IH by set_solver.
Qed.
End facts.

(** The heap and the routes after a registration. *)
Definition issue (c : call_state) (r : registry) : registry :=
  Registry (<[next_call r := c]> (calls r)) (collected r) (S (next_call r)) (routes r) (active r) (looking r) (lookups r)
    (closed r) (ended r).
Section issue.
Variable seen : list string.
Variable r : registry.
Variable c : call_state.
Hypothesis Hr : inv seen r.
Hypothesis Hfresh : c_id c ∉ seen.

Lemma issued_new : calls r !! next_call r = None.
Proof. destruct (calls r !! next_call r) as [x|] eqn:E; [|done]. pose proof (inv_next _ _ Hr _ _ E). lia. Qed.
Lemma issued_old h x : calls r !! h = Some x → calls (issue c r) !! h = Some x.
Proof. intros Hx. cbn. rewrite lookup_insert_ne; [done|]. intros <-. by rewrite issued_new in Hx. Qed.
Lemma issued_cases h x : calls (issue c r) !! h = Some x → h = next_call r ∧ x = c ∨ calls r !! h = Some x.
Proof.
  cbn. destruct (decide (h = next_call r)) as [->|Hne]; [rewrite lookup_insert_eq; intros [= ->]; auto|].
  rewrite lookup_insert_ne by done. auto.
Qed.
Lemma issued_unique h h' x x' :
  calls (issue c r) !! h = Some x → calls (issue c r) !! h' = Some x' → c_id x = c_id x' → h = h'.
Proof.
  intros [[-> ->]|Hx]%issued_cases [[-> ->]|Hx']%issued_cases Heq; [done| | |by eapply (inv_unique _ _ Hr)].
  - destruct Hfresh. rewrite Heq. by eapply (inv_seen _ _ Hr).
  - destruct Hfresh. rewrite <- Heq. by eapply (inv_seen _ _ Hr).
Qed.
Lemma issue_inv (d : nat) (routed : bool) :
  (routed = false → done c) →
  (routed = true → settledWith c = None ∧ life c ≠ RolledBack ∧ ended r = false ∧ (closed r = true → life c = Provisional)) →
  inv (c_id c :: seen) (if routed then set_routes (setField (c_id c) (next_call r, d) (routes r)) (issue c r) else issue c r).
Proof using Hfresh Hr.
  intros Hdone Hrouted.
  assert (c_id c ∉ (routes r).*1) as Hk.
  { intros ([k [h d']] & Hk & Hin)%list_elem_of_fmap. cbn in Hk. destruct (inv_route _ _ Hr _ _ _ Hin) as (x & Hx & Hxi & _).
    apply Hfresh. rewrite Hk, <- Hxi. by eapply (inv_seen _ _ Hr). }
  assert (inv (c_id c :: seen) (set_routes (if routed then routes r ++ [(c_id c, (next_call r, d))] else routes r) (issue c r))) as H.
  { destruct Hr as [H1 H2 H3 H4 H5 H6 H7 H8 H9 H10 H11]. split; cbn -[issue]; try done.
    - intros k h d' Hin.
      assert ((k, (h, d')) ∈ routes r ∨ routed = true ∧ (k, (h, d')) = (c_id c, (next_call r, d))) as [Hold|[-> [= -> -> ->]]].
      { destruct routed; [|by left]. apply elem_of_app in Hin as [?|?%list_elem_of_singleton]; auto. }
      + destruct (H1 _ _ _ Hold) as (x & Hx & ?). exists x. split; [by apply issued_old|done].
      + exists c. cbn. rewrite lookup_insert_eq. destruct (Hrouted eq_refl) as (? & ? & _). by split_and!.
    - destruct routed; [|done]. rewrite fmap_app. apply NoDup_app. split_and!; [done| |by apply NoDup_singleton].
      intros k Hin ->%list_elem_of_singleton. done.
    - intros k h Hin. destruct (H3 _ _ Hin) as ((d' & Hd) & Hcol & Hl). split_and!; [|done|].
      + exists d'. destruct routed; [|done]. apply elem_of_app. by left.
      + intros x [[-> ->]|Hx]%issued_cases; [|by apply Hl]. destruct (H1 _ _ _ Hd) as (y & Hy & _). by rewrite issued_new in Hy.
    - intros h x [[-> ->]|Hx]%issued_cases Hcol.
      + destruct routed; [right|left; by apply Hdone]. exists d. apply elem_of_app. right. by apply list_elem_of_singleton.
      + destruct (H5 _ _ Hx Hcol) as [?|[d' Hd]]; [by left|right]. exists d'. destruct routed; [|done]. apply elem_of_app. by left.
    - intros Hcl. destruct (H6 Hcl) as [Ha Hp]. split; [done|]. intros k h d' x Hin [[-> ->]|Hx]%issued_cases.
      + destruct routed.
        * by apply Hrouted.
        * destruct (H1 _ _ _ Hin) as (y & Hy & _). by rewrite issued_new in Hy.
      + destruct routed; [|by eapply Hp]. apply elem_of_app in Hin as [Hin|[= -> -> ->]%list_elem_of_singleton]; [by eapply Hp|].
        by rewrite issued_new in Hx.
    - intros He. cbn in He. destruct (H7 He) as [Hz Hcl]. destruct routed; [|done]. destruct (Hrouted eq_refl) as (_ & _ & ? & _). congruence.
    - intros h x [[-> ->]|Hx]%issued_cases; cbn; [lia|]. specialize (H8 _ _ Hx). lia.
    - intros h h' x x'. apply issued_unique.
    - intros h x [[-> ->]|Hx]%issued_cases; [by left|right]. eauto.
    - intros k h Hin. destruct (H11 _ _ Hin) as (x & Hx & Hxi). exists x. split; [by apply issued_old|done]. }
  destruct routed; [rewrite setField_fresh by done|]; exact H.
Qed.
End issue.
Lemma registry_register_inv seen k decoder provisional r :
  (k ∉ seen) → inv seen r → inv (k :: seen) (register k decoder provisional r).2.
Proof.
  intros Hk Hr%sweep_inv. unfold register. revert Hr. generalize (sweep r). clear r. intros r Hr. cbv zeta. cbn [snd].
  set (c := if provisional && ended r then rollBackCall _ else _).
  set (routed := if provisional && ended r then false else negb (closed r && negb provisional)).
  assert (c_id c = k) as Hid by (unfold c; repeat case_match; by rewrite ?rollBackCall_id, ?settleCall_id).
  assert (c_id c ∉ seen) as Hfresh by (by rewrite Hid).
  pose proof (issue_inv seen r c Hr Hfresh decoder routed) as H. rewrite Hid in H. apply H; clear H.
  - unfold routed, c. destruct (provisional && ended r) eqn:Hpe.
    + apply andb_true_iff in Hpe as [-> _]. intros _. by right.
    + destruct (closed r && negb provisional); [|done]. intros _. apply settleCall_done.
  - unfold routed, c. destruct (provisional && ended r) eqn:Hpe; [done|].
    destruct (closed r && negb provisional) eqn:Hcp; [done|]. intros _. cbn. split_and!; [done|by destruct provisional| |].
    + destruct (ended r) eqn:E; [|done]. destruct (inv_ended _ _ Hr E) as [_ Hcl]. rewrite Hcl in Hcp. by destruct provisional.
    + intros Hcl. rewrite Hcl in Hcp. by destruct provisional.
Qed.

(** ** Runs *)
Definition callIds (e : event) : list string := match e with Register k _ _ => [k] | _ => [] end.
Lemma registry_step_inv lookup decode seen e r :
  Forall (λ k, k ∉ seen) (callIds e) → inv seen r → inv (callIds e ++ seen) (step lookup decode r e).
Proof.
  intros Hf Hr. destruct e; cbn [callIds app step].
  - apply registry_register_inv; [|done]. exact (Forall_inv Hf).
  - case_decide; [done|]. by apply wait_inv.
  - by apply lookedUp_inv.
  - by apply transition_inv.
  - by apply complete_inv.
  - case_bool_decide; [done|]. by apply collect_inv.
  - by apply close_inv.
  - by apply end_inv.
Qed.
Lemma registeredIds_cons e l : registeredIds (e :: l) = callIds e ++ registeredIds l.
Proof. by destruct e. Qed.
Lemma registeredIds_app l l' : registeredIds (l ++ l') = registeredIds l ++ registeredIds l'.
Proof. unfold registeredIds. apply omap_app. Qed.
Lemma new_inv : inv [] newRegistry.
Proof.
  split; cbn; try done; intros.
  all: try (match goal with H : _ ∈ [] |- _ => by apply not_elem_of_nil in H end).
  all: try by apply NoDup_nil.
Qed.

(** An outcome, a commit and a rollback are for ever. *)
Definition evolves (c c' : call_state) : Prop :=
  c_id c' = c_id c ∧ (∀ o, settledWith c = Some o → settledWith c' = Some o) ∧ (life c ≠ Provisional → life c' = life c).
#[export] Instance evolves_preorder : PreOrder evolves.
Proof. split; [by intros c|]. intros a b c (? & ? & Hl) (? & ? & Hl'). split_and!; [congruence|auto|].
  intros Hn. rewrite Hl' by (rewrite Hl; done). auto. Qed.
Definition grows (r r' : registry) : Prop :=
  ∀ h c, calls r !! h = Some c → ∃ c', calls r' !! h = Some c' ∧ evolves c c'.
#[export] Instance grows_preorder : PreOrder grows.
Proof.
  split; [by intros r h c Hc; exists c|]. intros a b c Hab Hbc h x Hx.
  destruct (Hab _ _ Hx) as (y & Hy & ?), (Hbc _ _ Hy) as (z & Hz & ?). exists z. split; [done|]. by etrans.
Qed.
Lemma commit_evolves c : evolves c (commitCall c).
Proof. unfold commitCall. by destruct (life c) eqn:E; split_and!; cbn; try congruence. Qed.
Lemma rollBack_evolves c : evolves c (rollBackCall c).
Proof. unfold rollBackCall. by destruct (life c) eqn:E; split_and!; cbn; try congruence. Qed.
Lemma settle_evolves o c : evolves c (settleCall o c).
Proof. unfold settleCall. by destruct (settledWith c) eqn:E; split_and!; cbn; try congruence. Qed.
Lemma update_grows h f r : (∀ c, evolves c (f c)) → grows r (update h f r).
Proof.
  intros Hf i c Hc. cbn. destruct (decide (i = h)) as [->|]; [rewrite lookup_alter_eq, Hc; eauto|].
  rewrite lookup_alter_ne by done. by exists c.
Qed.
Lemma same_grows r r' : calls r = calls r' → grows r r'.
Proof. intros Heq h c Hc. rewrite Heq in Hc. by exists c. Qed.
Lemma grows_routes r r' l : grows r r' → grows r (set_routes l r').
Proof. done. Qed.
Lemma grows_active r r' l : grows r r' → grows r (set_active l r').
Proof. done. Qed.
Lemma retire_grows k h f r : (∀ c, evolves c (f c)) → grows r (retire k h f r).
Proof. intros Hf. etrans; [by apply (update_grows h f)|]. by apply same_grows. Qed.
Lemma complete_grows decode k o r : grows r (complete decode k o r).
Proof.
  unfold complete. etrans; [by apply (same_grows r (sweep r))|]. cbv zeta.
  case_match; [|done]. apply retire_grows. intros c. etrans; [apply commit_evolves|apply settle_evolves].
Qed.
Lemma transition_grows k committed r : grows r (transition k committed r).
Proof.
  unfold transition. etrans; [by apply (same_grows r (sweep r))|]. cbv zeta.
  case_match; [|done]. case_match; [|done]. case_match; [|done]. destruct committed.
  - case_match; [|by apply update_grows, commit_evolves].
    etrans; [apply update_grows, commit_evolves|]. etrans; [apply update_grows, settle_evolves|]. by apply same_grows.
  - etrans; [apply update_grows, rollBack_evolves|]. by apply same_grows.
Qed.
Lemma closeRoutes_grows l r : grows r (closeRoutes l r).
Proof.
  revert r. induction l as [|[id [h d]] l IH]; intros r; cbn [closeRoutes]; [done|]. cbv zeta.
  etrans; [|apply IH]. case_match; [done|]. apply grows_routes.
  match goal with |- grows _ (match ?s with Some _ => _ | None => _ end) => destruct s end; [|done].
  apply update_grows, settle_evolves.
Qed.
Lemma close_grows r : grows r (close r).
Proof.
  unfold close. case_match; [done|]. apply grows_active. etrans; [|apply closeRoutes_grows]. by apply same_grows.
Qed.
Lemma end_grows r : grows r (end_ r).
Proof.
  unfold end_. etrans; [apply close_grows|]. apply grows_routes.
  match goal with |- grows _ (foldl ?f _ _) => assert (∀ ps x, grows x (foldl f x ps)) as H end.
  { induction ps as [|p ps IH]; intros x; cbn [foldl]; [done|]. etrans; [|apply IH].
    case_match; [|done]. apply update_grows, rollBack_evolves. }
  etrans; [|apply H]. by apply same_grows.
Qed.
Lemma step_grows lookup decode seen e r : inv seen r → grows r (step lookup decode r e).
Proof.
  intros Hr. destruct e; cbn [step].
  - unfold register. intros h c Hc. exists c. split; [|done]. cbv zeta. cbn [snd].
    rewrite <- Hc. apply sweep_inv in Hr. pose proof (inv_next _ _ Hr h c Hc) as Hlt. cbn in Hlt.
    case_match; cbn; by rewrite lookup_insert_ne by (cbn; lia).
  - case_decide; [done|]. unfold wait. repeat case_match; try done. cbn [snd]. unfold activate. cbv zeta.
    case_match; by apply same_grows.
  - unfold lookedUp. case_match; [|done]. cbv zeta.
    match goal with |- grows r (Registry (calls ?x) _ _ _ _ _ _ _ _) => change (grows r x) end.
    repeat case_match; try done; [apply complete_grows|apply retire_grows, settle_evolves].
  - apply transition_grows.
  - apply complete_grows.
  - case_bool_decide; [done|]. by apply same_grows.
  - apply close_grows.
  - apply end_grows.
Qed.
Lemma run_facts lookup decode events seen r :
  inv seen r → NoDup (registeredIds events ++ seen) →
  let r' := foldl (step lookup decode) r events in
  grows r r' ∧ ∃ seen', seen' ≡ₚ registeredIds events ++ seen ∧ inv seen' r'.
Proof.
  revert seen r. induction events as [|e events IH]; intros seen r Hr Hnd; cbv zeta; cbn [foldl].
  - split; [done|]. by exists seen.
  - rewrite registeredIds_cons in Hnd |- *. rewrite <- app_assoc in Hnd.
    assert (registeredIds events ++ callIds e ++ seen ≡ₚ callIds e ++ registeredIds events ++ seen) as Hp
      by (rewrite !app_assoc; apply Permutation_app_tail, Permutation_app_comm).
    assert (Forall (λ k, k ∉ seen) (callIds e)) as Hf.
    { apply Forall_forall. intros k Hk Hin. apply NoDup_app in Hnd as (_ & Hd & _). apply (Hd k Hk).
      apply elem_of_app. by right. }
    destruct (IH (callIds e ++ seen) (step lookup decode r e)) as (Hg & seen' & Hs & Hi).
    { by apply registry_step_inv. }
    { by rewrite Hp. }
    split; [etrans; [by eapply step_grows|done]|]. exists seen'. split; [|done]. rewrite Hs, <- app_assoc. exact Hp.
Qed.
Lemma run_app lookup decode events more :
  run lookup decode (events ++ more) = foldl (step lookup decode) (run lookup decode events) more.
Proof. apply foldl_app. Qed.
Lemma close_ended r : ended (close r) = ended r.
Proof. unfold close. case_match; [done|]. cbn. apply (closeRoutes_shape _ (Registry _ _ _ _ _ _ _ _ _)). Qed.
Lemma complete_ended decode k o r : ended (complete decode k o r) = ended r.
Proof. unfold complete. cbv zeta. by case_match. Qed.
Lemma step_ended lookup decode r e : ended r = true → ended (step lookup decode r e) = true.
Proof.
  intros Hr. destruct e; cbn [step].
  - unfold register. cbv zeta. cbn [snd]. by case_match.
  - case_decide; [done|]. unfold wait. repeat case_match; try done. cbn [snd]. unfold activate. cbv zeta. by case_match.
  - unfold lookedUp. case_match; [|done]. cbv zeta. cbn. repeat case_match; try done. by rewrite complete_ended.
  - unfold transition. cbv zeta. by repeat case_match.
  - by rewrite complete_ended.
  - by case_bool_decide.
  - by rewrite close_ended.
  - apply end_ended.
Qed.
Lemma run_ended lookup decode events : End ∈ events → ended (run lookup decode events) = true.
Proof.
  unfold run. assert (∀ l r, ended r = true → ended (foldl (step lookup decode) r l) = true) as Hstay.
  { induction l as [|e l IH]; intros r Hr; cbn [foldl]; [done|]. apply IH. by apply step_ended. }
  generalize newRegistry. induction events as [|e l IH]; intros r Hin; [by apply not_elem_of_nil in Hin|].
  cbn [foldl]. apply elem_of_cons in Hin as [<-|Hin]; [|by apply IH]. apply Hstay. apply end_ended.
Qed.

(** C14: what a handle was told is for ever - its outcome, its commit, its
    rollback - whatever is registered, waited for, looked up, completed or
    closed later; and once the runtime ended, no handle the application still
    has is left waiting: every call ever registered, before or after, is
    settled with an outcome or rolled back. *)
Theorem calls_settle lookup decode events more :
  NoDup (registeredIds (events ++ more)) →
  grows (run lookup decode events) (run lookup decode (events ++ more)) ∧
  (End ∈ events → ∀ h c,
     calls (run lookup decode events) !! h = Some c → h ∉ collected (run lookup decode events) →
     settledWith c ≠ None ∨ life c = RolledBack).
Proof.
  intros Hnd. rewrite registeredIds_app in Hnd.
  destruct (run_facts lookup decode events [] newRegistry new_inv) as (_ & seen & Hs & Hi).
  { rewrite app_nil_r. by apply NoDup_app in Hnd as (? & _). }
  rewrite app_nil_r in Hs. split.
  - rewrite run_app. eapply run_facts; [exact Hi|]. rewrite Hs. by rewrite Permutation_app_comm.
  - intros He%(run_ended lookup decode) h c Hc Hcol.
    destruct (inv_ended _ _ Hi He) as [Hroutes _].
    destruct (inv_live _ _ Hi h c Hc Hcol) as [Hd|[d Hd]]; [exact Hd|].
    rewrite Hroutes in Hd. by apply not_elem_of_nil in Hd.
Qed.
Lemma calls_settle_witness :
  let events := [Register "a" 0 false; Wait 0 None; Register "b" 1 true; Complete "a" (Succeeded_ (VBool true)); End] in
  let more := [Register "c" 0 false] in
  NoDup (registeredIds (events ++ more)) ∧
  calls (run true (λ _ v, Ok v) events) !! 0%nat = Some (CallState "a" Succeeded Committed (Some (Ok (VBool true)))) ∧
  calls (run true (λ _ v, Ok v) events) !! 1%nat = Some (CallState "b" FailedCall RolledBack None) ∧
  grows (run true (λ _ v, Ok v) events) (run true (λ _ v, Ok v) (events ++ more)).
Proof.
  cbv zeta. split_and!; [cbn; repeat constructor; set_solver|vm_compute; reflexivity|vm_compute; reflexivity|].
  refine (proj1 (calls_settle _ _ _ _ _)). cbn. repeat constructor; set_solver.
Defined.
