(* ===== verification/Host.v ===== *)
(** Answering the native engine: [backend/server/bindings/host.mts], and
    [settle] of [backend/server/api/backend.mts].

    A request is the parsed JSON of the engine, so an object with no inherited
    or accessor properties.  The application's functions, the storage and the
    native settlement are parameters; what an application function does with its
    declaration handles is the list of calls it makes on them.  The diagnostics
    spans around the calls are in [Diagnostics], which shows them transparent. *)
From S2P Require Import Prelude Text Dates Json Instants Drivers Effects Streams Backend Sessions.
Open Scope Z_scope.
Open Scope axton_scope.

(** ** [encodeCallbackJson] *)
Definition callbackItem (item : value) : result value :=
  match item with
  | VBig z => if isSafeInteger (VNum (NInt z)) then Ok (VNum (NInt z)) else raise "bigint outside safe integer range"
  | VNum n => if isFinite n then Ok item else raise "nonfinite callback value"
  | VUndef => raise "undefined callback value"
  | _ => Ok item
  end.
Definition encodeCallbackJson (v : value) : result (option string) := serialize callbackItem v.

(** ** Decoding an operation's arguments *)
Section decoding.
(** [Date.parse] of a text that is not an instant, implementation-defined. *)
Variable otherDate : string → option Z.
Definition dateParse (s : string) : option Z :=
  if zoned s then instantTime <$> zonedParts s else otherDate s.
(** [new Date(value)] *)
Definition newDate (v : value) : value :=
  match v with
  | VStr s => VDate (dateParse s)
  | VDate t => VDate t
  | _ => VDate (match toNumber v with NInt z => Some z | _ => None end)
  end.
Definition isString (v : value) (s : string) : bool := strictEq v (VStr s).

Fixpoint decodeActionValue (depth : nat) (type v : value) : result value :=
  if nullish v then Ok v
  else if isString (get type "kind") "list" then
    match v, depth with
    | VArr items, Datatypes.S depth =>
        items ← mapM (decodeActionValue depth (get type "element")) items; Ok (VArr items)
    | _, _ => Throw (TypeError "value.map is not a function")
    end
  else if isString (get type "name") "dateTime" then Ok (newDate v) else Ok v.
(** A list type holds its element type: a type has fewer levels than nodes. *)
Fixpoint depthOf (type : value) : nat :=
  match type with
  | VObj fields => Datatypes.S ((fix go l := match l with [] => O | (_, x) :: l => Nat.max (depthOf x) (go l) end) fields)
  | _ => O
  end.
Definition decodeValue (type v : value) : result value := decodeActionValue (depthOf type) type v.

(** A Model of the descriptor: its version where the descriptor gives one, and
    its fields with their types. *)
Record model := Model { m_name : string; m_version : value; m_fields : list (string * value) }.
(** The record is changed in place; a value that is not an object has no field. *)
Definition decodeActionRecord (v : value) (m : model) : result value :=
  match v with
  | VObj fields =>
      fields ← foldl (λ acc f, fields ← acc;
        match fieldOf f.1 fields with
        | Some x => y ← decodeValue f.2 x; Ok (setField f.1 y fields)
        | None => Ok fields
        end) (Ok fields) (m_fields m);
      Ok (VObj fields)
  | _ => Ok v
  end.
Definition findModel (name : string) (l : list model) : option model := find (λ m, String.eqb (m_name m) name) l.

Record input := Input {
  i_name : string; i_value : bool; i_list : bool; i_type : value; i_model : option string; i_cardinality : value }.
Record action := Action { a_query : bool; a_inputs : list input; a_models : option (list model) }.

Section arguments.
Variable schemaModels : list model.

Definition inputModel (a : action) (name : string) : option model :=
  match (models ← a_models a; findModel name models) with
  | Some m => Some m
  | None => findModel name schemaModels
  end.
Definition shape (m : model) (v : value) : result value :=
  if nullish v then Ok VNull else decodeActionRecord v m.
Definition decodeInput (a : action) (i : input) (args : list (string * value)) : result (list (string * value)) :=
  let value := default VUndef (fieldOf (i_name i) args) in
  if i_value i then
    let type := if i_list i then VObj [("kind", VStr "list"); ("element", i_type i)] else i_type i in
    v ← decodeValue type value; Ok (setField (i_name i) v args)
  else
    match i_model i with
    | None | Some EmptyString => Ok args
    | Some name =>
        match inputModel a name with
        | None => raise ("Missing Action model " +:+ name)
        | Some m =>
            if isString (i_cardinality i) "list" then
              match value with
              | VArr items => items ← mapM (shape m) items; Ok (setField (i_name i) (VArr items) args)
              | _ => Throw (TypeError "value.map is not a function")
              end
            else v ← shape m value; Ok (setField (i_name i) v args)
        end
    end.
Definition decodeArguments (a : action) (arguments : value) : result (list (string * value)) :=
  foldl (λ acc i, args ← acc; decodeInput a i args)
    (Ok (match arguments with VObj fields => fields | _ => [] end)) (a_inputs a).
End arguments.
End decoding.

(** ** Declaration handles while an application function runs *)
Inductive declaration :=
| StreamOf (names : value)
| TrackOn (handle : nat) (accessor : option string) (records : value)
| InvalidateOn (handle : nat) (accessor : option string) (records : value)
| InvalidateCall (accessor : option string) (records : value).
(** The collector behind the handles: none for a legacy Query, [createLoadEffects]
    or [createBootstrapEffects] for a bound Query or Bootstrap, [createEffects]
    for a Mutation. *)
Inductive declarer :=
| NoHandles
| Reading (page : bool) (h : Streams.handler)
| Writing (e : effects) (handles : list (list string)).

Section declaring.
Variable d : declarations_of.

Definition declareCall (x : declaration) (c : declarer) : result unit * declarer :=
  match c with
  | NoHandles => (Throw (TypeError "not a function"), c)
  | Reading page (s, handles) =>
      match x with
      | StreamOf names =>
          let '(r, s) := Streams.declare (streamHandle (trackingCollector d page) names) s in
          match r with Ok names => (Ok tt, Reading page (s, handles ++ [names])) | Throw e => (Throw e, Reading page (s, handles)) end
      | TrackOn handle accessor records =>
          match handles !! handle with
          | Some names => let '(r, s) := streamTrack (trackingCollector d page) names accessor records s in
                          (r, Reading page (s, handles))
          | None => (Throw (TypeError "not a function"), c)
          end
      | _ => (Throw (TypeError "not a function"), c)
      end
  | Writing e handles =>
      let call (m : io effects unit) := let '(r, e) := m e in (r, Writing e handles) in
      match x with
      | StreamOf names =>
          match streamHandle (effectsCollector d) names e with
          | (Ok names, e) => (Ok tt, Writing e (handles ++ [names]))
          | (Throw x, e) => (Throw x, Writing e handles)
          end
      | TrackOn handle accessor records =>
          match handles !! handle with
          | Some names => call (streamTrack (effectsCollector d) names accessor records)
          | None => (Throw (TypeError "not a function"), c)
          end
      | InvalidateOn handle accessor records =>
          match handles !! handle with
          | Some names => call (streamInvalidate (effectsCollector d) (Some names) accessor records)
          | None => (Throw (TypeError "not a function"), c)
          end
      | InvalidateCall accessor records => call (streamInvalidate (effectsCollector d) None accessor records)
      end
  end.
Definition declareAll (l : list declaration) (c : declarer) : declarer := foldl (λ c x, (declareCall x c).2) c l.
(** [close] *)
Definition closeDeclarer (c : declarer) : declarer :=
  match c with
  | NoHandles => NoHandles
  | Reading page h => Reading page (collectorStep d page CloseCollector h)
  | Writing e handles => Writing (Streams.close e) handles
  end.
(** [failure()] of a tracking collector *)
Definition declarerFailure (c : declarer) : option exn :=
  match c with Reading _ h => snd <$> t_failed h.1 | _ => None end.
(** [tracking()], or [settlement().declarations] *)
Definition declaredBy (c : declarer) : list intent :=
  match c with NoHandles => [] | Reading _ h => trackingOf h.1 | Writing e _ => settlement e end.
Definition newReading (page : bool) : declarer := Reading page (newTracking, []).
Definition newWriting : declarer := Writing newEffects [].
End declaring.

Definition settlementFields (l : list intent) : list (string * value) :=
  [("changes", VArr []); ("declarations", VArr (intentValue <$> l))].

(** ** The host *)
Section host.
Context {A : Type}.                              (* the database and the application *)
(** An application function: the declarations it calls for, how it settles, and
    the state it leaves. *)
Definition app_function : Type := A → list declaration * result value * A.

(** What the functions see of [ctx] and of the call *)
Record handler_call := HandlerCall {
  h_userId : value; h_callId : value; h_args : list (string * value);
  h_stream : option value; h_invalidate : bool }.
Record load_call := LoadCall { l_ids : list value; l_userId : value }.
Record bootstrap_call := BootstrapCall { b_userId : value; b_callId : string; b_stream : value }.

(** [HostDependencies] *)
Record dependencies := Dependencies {
  d_groupSize : Z;
  d_records : declarations_of;
  d_actions : list (string * action);
  d_handlers : Backend.table;
  d_loaders : Backend.table;
  d_readModels : list model;                     (* descriptor.models *)
  d_schemaModels : list model;
  d_resultGroups : bool;                         (* database.mutationResultGroups *)
  d_hooks : list (string * nat);                 (* loaderHooks *)
  d_otherDate : string → option Z;
  d_translateRejection : exn → option string;
  d_isRetryable : exn → bool;
  d_handler : nat → handler_call → app_function;
  d_loader : nat → load_call → A → result value * A;
  d_hook : nat → load_call → app_function;
  d_bootstrap : option (bootstrap_call → app_function);
  d_authorize : option (string → value → A → result value * A);
  d_storage : value → A → result value * A }.
Variable deps : dependencies.

(** The session of the transaction, the application's state, what [onError] was
    told, and the collectors that were closed. *)
Record world := World {
  w_session : session; w_app : A; w_errors : list exn; w_retired : list declarer }.
(** [native.settleExternal05], which calls the host back. *)
Variable settleExternal : string → io world unit.

Definition set_app a w := World (w_session w) a (w_errors w) (w_retired w).
Definition set_session s w := World s (w_app w) (w_errors w) (w_retired w).
Definition withApp {R} (m : A → result R * A) : io world R := λ w, let '(r, a) := m (w_app w) in (r, set_app a w).
Definition withSession (f : session → session) : io world unit := λ w, (Ok tt, set_session (f (w_session w)) w).
Definition onError (e : exn) : io world unit := λ w,
  (Ok tt, World (w_session w) (w_app w) (w_errors w ++ [e]) (w_retired w)).
Definition retireCollector (c : declarer) (w : world) : world :=
  World (w_session w) (w_app w) (w_errors w) (w_retired w ++ [closeDeclarer (d_records deps) c]).
Notation "'let!' x ':=' r 'in' k" := (mbind (M := io world) (λ x, k) (check r))
  (at level 100, x pattern at level 99, r at level 99, k at level 200).

(** [refusal], which reports a defect to [onError] *)
Definition refuse (e : exn) : io world value :=
  let! answer := refusal (d_translateRejection deps) e in
  match answer with
  | Rejection code => mret (VObj [("rejection", VStr code)])
  | Failure e => _ ← onError e; throw e
  end.
(** The catch blocks of [handleAction] and [load]. *)
Definition answerRefusal (e : exn) : io world value :=
  if d_isRetryable deps e then throw e else refuse e.

(** Runs an application function over a collector and closes it on every exit.
    [current] is the Stream the host itself opens a handle over; [answer] is
    computed from the collector as the function left it. *)
Definition withCollector {R} (c : declarer) (current : option value) (f : app_function)
    (answer : value → declarer → result R) : io world R := λ w,
  let '(opened, c) :=
    match current with
    | Some names => declareCall (d_records deps) (StreamOf names) c
    | None => (Ok tt, c)
    end in
  match opened with
  | Throw e => (Throw e, retireCollector c w)
  | Ok _ =>
      let '(calls, r, a) := f (w_app w) in
      let c := declareAll (d_records deps) calls c in
      (v ← r; answer v c, retireCollector c (set_app a w))
  end.

(** *** [handleAction] *)
Definition dispatch (request : value) : string :=
  toText (get request "name") +:+ ":" +:+ toText (get request "version").
Definition collectorFor (query : bool) (context : value) : declarer :=
  if query then if truthy context then newReading tracking_page else NoHandles else newWriting.
Definition outputsAnswer (query : bool) (outputs : value) (c : declarer) : result value :=
  match (if query then declarerFailure c else None) with
  | Some e => Throw e
  | None =>
      Ok (VObj (("outputs", match outputs with VUndef => VObj [] | _ => outputs end) :: settlementFields (declaredBy c)))
  end.
Definition handleAction (request : value) : io world value :=
  _ ← withSession (λ s,
        if 1 <? d_groupSize deps
        then Session_ (match get request "callId" with VStr id => Some id | _ => None end)
               (failed s) (Sessions.closed s) (pending s) (touched s) (savepointSets s)
        else s);
  match fieldOf (dispatch request) (d_actions deps), fieldOf (dispatch request) (d_handlers deps) with
  | Some a, Some f =>
      let! args := decodeArguments (d_otherDate deps) (d_schemaModels deps) a (get request "arguments") in
      let context := get request "context" in
      let call := HandlerCall (get request "owner") (get request "callId") args
                    (if truthy context then Some (get context "stream") else None) (negb (a_query a)) in
      catch (withCollector (collectorFor (a_query a) context)
               (if truthy context then Some (get context "stream") else None)
               (d_handler deps f call) (outputsAnswer (a_query a)))
        answerRefusal
  | _, _ => throw (Error ("Missing handler " +:+ toText (get request "name") +:+ " v" +:+ toText (get request "version")))
  end.

(** *** [handleBootstrap05] *)
Definition handleBootstrap (request : value) : io world value :=
  let answer (c : declarer) : result value :=
    match declarerFailure c with
    | Some e => Throw e
    | None => Ok (VObj [("declarations", VArr (intentValue <$> declaredBy c))])
    end in
  let stream := get request "stream" in
  let c := newReading tracking_bootstrap in
  match d_bootstrap deps with
  | Some f =>
      withCollector c (Some stream)
        (f (BootstrapCall (get request "owner") ("bootstrap:" +:+ toText (get request "storeId")) stream))
        (λ _ c, answer c)
  | None => λ w, (answer c, retireCollector c w)
  end.

(** *** [load] *)
Definition loaderModel (request : value) : option model :=
  match find (λ m, strictEq (VStr (m_name m)) (get request "model") && strictEq (m_version m) (get request "version"))
          (d_readModels deps) with
  | Some m => Some m
  | None => find (λ m, strictEq (VStr (m_name m)) (get request "model")) (d_schemaModels deps)
  end.
Definition identities (request : value) : result (list value) :=
  match get request "identities" with
  | VArr ids => mapM (λ id, match loaderModel request with
                            | Some m => decodeActionRecord (d_otherDate deps) id m
                            | None => Ok id end) ids
  | _ => Throw (TypeError "map")
  end.
(** [prepareForViewer], settled before the rows are read *)
Definition prepare (request : value) (call : load_call) : io world unit :=
  match (if isString (get request "mode") "canonical" then None
         else fieldOf (lowerFirst (toText (get request "model"))) (d_hooks deps)) with
  | None => mret tt
  | Some h =>
      intents ← withCollector newWriting None (d_hook deps h call) (λ _ c, Ok (declaredBy c));
      let! text := stringify (VObj (settlementFields intents)) in
      settleExternal (default EmptyString text)
  end.
Definition readRows (request : value) (f : nat) (call : load_call) : io world value :=
  _ ← prepare request call;
  if isString (get request "mode") "prepare" then mret (VArr []) else withApp (d_loader deps f call).
(** [error instanceof Error ? error.message : String(error)] *)
Definition messageOf (e : exn) : string :=
  match e with
  | Error m | TypeError m | EngineError _ m _ | TaskError m _ | EnrollmentOverflow m => m
  | MutationRejected code | CallError code _ _ => code
  | Thrown v => toText v
  end.
(** Why the rows cannot be answered, or the text that answers them. *)
Definition rowsAnswer (rows : value) : string + option string :=
  match rows with
  | VArr items =>
      if existsb (λ v, match v with VUndef => true | _ => false end) items then inl "an undefined entry"%string
      else match encodeCallbackJson rows with Ok text => inr text | Throw e => inl (messageOf e) end
  | _ => inl "a non-array result"%string
  end.
Definition load (request : value) : io world (option string) :=
  match fieldOf (toText (get request "model") +:+ ":" +:+ toText (get request "version")) (d_loaders deps) with
  | None => throw (Error ("Missing loader " +:+ toText (get request "model") +:+ " v" +:+ toText (get request "version")))
  | Some f =>
      let! ids := identities request in
      let call := LoadCall ids (get request "owner") in
      rows ← catch (inl <$> readRows request f call) (λ e, inr <$> answerRefusal e);
      match rows with
      | inr refused => check (encodeCallbackJson refused)
      | inl rows =>
          match rowsAnswer rows with
          | inr text => mret text
          | inl reason =>
              let invalid := ("invalid loader answer for " +:+ toText (get request "model") +:+ " v"
                              +:+ toText (get request "version") +:+ ": " +:+ reason)%string in
              _ ← onError (Error invalid);
              check (encodeCallbackJson (VObj [("error", VStr invalid)]))
          end
      end
  end.

(** *** The persistence's own operations *)
Definition opName (request : value) : string := match get request "op" with VStr s => s | _ => EmptyString end.
(** [request.ordinal + index], on the integers the engine sends *)
Definition ordinalAt (ordinal : value) (index : nat) : value :=
  match toNumber ordinal with NInt z => VNum (NInt (z + Z.of_nat index)) | n => VNum n end.
Definition saveResult (group : value) (index : nat) (outcome : value) : value :=
  VObj [("op", VStr "protocol05");
        ("request", VObj [("op", VStr "saveResult"); ("storeId", get group "storeId");
                          ("batchId", get group "batchId"); ("ordinal", ordinalAt (get group "ordinal") index);
                          ("count", get group "count"); ("result", outcome)])].
Definition setMember (key : string) (v : value) (object : value) : value :=
  match object with VObj fields => VObj (setField key v fields) | _ => object end.
(** The request as stored: a publication carries the scope of its Mutation. *)
Definition scoped (scope : option string) (request : value) : value :=
  let inner := get request "request" in
  match scope with
  | Some (String _ _ as s) =>
      if String.eqb (opName request) "protocol05" && String.eqb (opName inner) "applyStreamMembers"
      then setMember "request" (setMember "publicationScope" (VStr s) inner) request else request
  | _ => request
  end.
Definition publishedDeltas (request : value) : option value :=
  if String.eqb (opName request) "protocol05" && String.eqb (opName (get request "request")) "applyStreamMembers"
  then Some (get (get request "request") "deltas")
  else if String.eqb (opName request) "applyStreamMembers" then Some (get request "deltas") else None.
(** A Stream name is a string: the persistence checked it before it answered. *)
Definition touchDelta (delta : value) : io world unit :=
  let! publish := dot delta "publish" in
  match get delta "stream" with
  | VStr s => if truthy publish then withSession (touch s) else mret tt
  | _ => mret tt
  end.
Definition persist (request : value) : io world value :=
  scope ← gets (λ w, publicationScope (w_session w));
  let stored := scoped scope request in
  let group := get stored "request" in
  result ←
    (if String.eqb (opName stored) "protocol05" && String.eqb (opName group) "saveResults" && negb (d_resultGroups deps)
     then match get group "results" with
          | VArr results =>
              _ ← forEach (λ r : nat * value, _ ← withApp (d_storage deps (saveResult group r.1 r.2)); mret tt)
                    (imap pair results);
              mret VNull
          | _ => throw (TypeError "entries")
          end
     else withApp (d_storage deps stored));
  _ ← match publishedDeltas request with
      | None => mret tt
      | Some (VArr deltas) => forEach touchDelta deltas
      | Some _ => throw (TypeError "not iterable")
      end;
  mret result.

(** *** [execute] *)
(** Ordinals are integers; any other key opens no savepoint a later one names. *)
Definition ordinalOf (request : value) : option Z :=
  match get request "ordinal" with VNum (NInt z) => Some z | _ => None end.
Definition bookkeep (request : value) (s : session) : session :=
  let op := opName request in
  if String.eqb op "savepoint" then match ordinalOf request with Some n => savepoint n s | None => s end
  else if String.eqb op "rollback" then match ordinalOf request with Some n => rollback n s | None => set_touched [] s end
  else if String.eqb op "release" then match ordinalOf request with Some n => release n s | None => s end
  else s.
Definition admitOwner (request : value) : io world value :=
  match d_authorize deps with
  | None => mret (VBool false)
  | Some f =>
      let! stream := dot (get request "context") "stream" in
      withApp (f (toText (get request "owner")) stream)
  end.
Definition answerRequest (request : value) : io world (option string) :=
  let inner := get request "request" in
  let is05 (op : string) := String.eqb (opName request) "protocol05" && String.eqb (opName inner) op in
  let encoded (m : io world value) : io world (option string) := result ← m; check (encodeCallbackJson result) in
  _ ← withSession (bookkeep request);
  _ ← (if String.eqb (opName request) "protocol05" then check (dot inner "op") else mret VUndef);
  if is05 "admit" then encoded (admitOwner inner)
  else if is05 "handleBootstrap05" then encoded (handleBootstrap inner)
  else if String.eqb (opName request) "handleAction" then encoded (handleAction request)
  else if String.eqb (opName request) "load" then load request
  else encoded (persist request).
(** [session.track]: what the body threw fails the session. *)
Definition tracked {R} (m : io world R) : io world R := λ w,
  match track (w_session w) with
  | Throw e => (Throw e, w)
  | Ok s =>
      let '(r, w) := m (set_session s w) in
      (r, set_session (settled (match r with Ok _ => Ok tt | Throw e => Throw e end) (w_session w)) w)
  end.
Definition execute (request : value) : io world (option string) := tracked (answerRequest request).

(** The host itself: the request's text, decoded, named and executed.  A trace
    only feeds the diagnostics. *)
Definition host (raw : string) : io world (option string) :=
  let! request := parse raw in
  let! op := dot request "op" in
  if isString op "trace" then mret (Some "{}"%string)
  else
    _ ← (if isString op "protocol05" then check (dot (get request "request") "op")
         else if isString op "load" then check (dot (get request "identities") "length") else mret VUndef);
    execute request.

(** [settle] of [backend.mts] *)
Definition settle (body : app_function) : io world value :=
  answer ← withCollector newWriting None body (λ v c, Ok (v, declaredBy c));
  _ ← tracked (let! text := stringify (VObj (settlementFields answer.2)) in settleExternal (default EmptyString text));
  mret answer.1.
End host.
