(* ===== verification/HostFacts.v ===== *)
(** What the engine is answered: an Action's outputs, a refusal, or a failure of
    the transaction; never a value JSON would change. *)
From S2P Require Import Prelude Text Dates Json Effects Streams Enrollment Backend Sessions Host.
Open Scope Z_scope.
Open Scope axton_scope.

(** ** Values an answer carries *)
Section value_ind.
Variable P : value → Prop.
Hypothesis Hleaf : ∀ v, match v with VArr _ | VObj _ => True | _ => P v end.
Hypothesis Harr : ∀ l, Forall P l → P (VArr l).
Hypothesis Hobj : ∀ l, Forall (λ p, P p.2) l → P (VObj l).
Fixpoint value_nested_ind (v : value) : P v :=
  match v with
  | VArr l => Harr l ((fix go l : Forall P l := match l with [] => Forall_nil_2 _ | x :: l => Forall_cons_2 _ _ _ (value_nested_ind x) (go l) end) l)
  | VObj l => Hobj l ((fix go l : Forall (λ p, P p.2) l := match l with [] => Forall_nil_2 _ | x :: l => Forall_cons_2 _ x _ (value_nested_ind x.2) (go l) end) l)
  | v => Hleaf v
  end.
End value_ind.

(** Every number is finite, every bigint safe and nothing is undefined. *)
Fixpoint carried (v : value) : bool :=
  match v with
  | VUndef => false
  | VNum n => isFinite n
  | VBig z => isSafeInteger (VNum (NInt z))
  | VArr l => (fix go l := match l with [] => true | x :: l => carried x && go l end) l
  | VObj l => (fix go l := match l with [] => true | (_, x) :: l => carried x && go l end) l
  | _ => true
  end.
(** Each bigint as the number it equals. *)
Fixpoint numbered (v : value) : value :=
  match v with
  | VBig z => VNum (NInt z)
  | VArr l => VArr ((fix go l := match l with [] => [] | x :: l => numbered x :: go l end) l)
  | VObj l => VObj ((fix go l := match l with [] => [] | (k, x) :: l => (k, numbered x) :: go l end) l)
  | _ => v
  end.
Lemma encode_spec v :
  if carried v then encodeCallbackJson v = stringify (numbered v) else ∃ e, encodeCallbackJson v = Throw e.
Proof.
  unfold encodeCallbackJson, stringify. revert v. apply value_nested_ind; [intros v|intros l IH|intros l IH].
  - destruct v as [| |b|n|z|s|[t|]|f|l|l]; cbn [carried]; try done; try (by eexists).
    + destruct n; try done; by eexists.
    + cbn [serialize callbackItem numbered]. destruct (isSafeInteger (VNum (NInt z))); [done|by eexists].
  - cbn [carried numbered serialize callbackItem mbind result_bind].
    match goal with |- if ?b then _ else _ => set (ok := b) end.
    assert (if ok then
      (fix go l := match l with [] => Ok [] | x :: l' => text ← serialize callbackItem x; texts ← go l'; Ok (default "null" text :: texts) end) l
      = (fix go l := match l with [] => Ok [] | x :: l' => text ← serialize Ok x; texts ← go l'; Ok (default "null" text :: texts) end)
          ((fix go l := match l with [] => [] | x :: l => numbered x :: go l end) l)
      else ∃ e, (fix go l := match l with [] => Ok [] | x :: l' => text ← serialize callbackItem x; texts ← go l'; Ok (default "null" text :: texts) end) l = Throw e) as H.
    { subst ok. induction IH as [|x l Hx _ IH]; [done|].
      destruct (carried x); cbn [andb].
      - rewrite Hx. destruct ((fix go l := match l with [] => true | x :: l => carried x && go l end) l).
        + rewrite IH. done.
        + destruct IH as [e ->]. destruct (serialize Ok (numbered x)); by eexists.
      - destruct Hx as [e ->]. by eexists. }
    destruct ok; [by rewrite H|]. destruct H as [e ->]. by eexists.
  - cbn [carried numbered serialize callbackItem mbind result_bind].
    match goal with |- if ?b then _ else _ => set (ok := b) end.
    assert (if ok then
      (fix go l := match l with [] => Ok [] | (key, x) :: l' => text ← serialize callbackItem x; texts ← go l';
          Ok (match text with Some text => member key text :: texts | None => texts end) end) l
      = (fix go l := match l with [] => Ok [] | (key, x) :: l' => text ← serialize Ok x; texts ← go l';
          Ok (match text with Some text => member key text :: texts | None => texts end) end)
          ((fix go l := match l with [] => [] | (k, x) :: l => (k, numbered x) :: go l end) l)
      else ∃ e, (fix go l := match l with [] => Ok [] | (key, x) :: l' => text ← serialize callbackItem x; texts ← go l';
          Ok (match text with Some text => member key text :: texts | None => texts end) end) l = Throw e) as H.
    { subst ok. induction IH as [|[k x] l Hx _ IH]; [done|]. cbn [snd] in Hx.
      destruct (carried x); cbn [andb].
      - rewrite Hx. destruct ((fix go l := match l with [] => true | (_, x) :: l => carried x && go l end) l).
        + rewrite IH. done.
        + destruct IH as [e ->]. destruct (serialize Ok (numbered x)); by eexists.
      - destruct Hx as [e ->]. by eexists. }
    destruct ok; [by rewrite H|]. destruct H as [e ->]. by eexists.
Qed.
(** Without a bigint, [JSON.stringify] does not throw. *)
Lemma numbered_serialized v : ∃ text, stringify (numbered v) = Ok text.
Proof.
  unfold stringify. revert v. apply value_nested_ind; [intros v|intros l IH|intros l IH].
  - destruct v as [| | | | | |[t|]| | |]; cbn; try done; by eexists.
  - cbn [numbered serialize mbind result_bind].
    assert (∃ parts, (fix go l := match l with [] => Ok [] | x :: l' => text ← serialize Ok x; texts ← go l'; Ok (default "null" text :: texts) end)
      ((fix go l := match l with [] => [] | x :: l => numbered x :: go l end) l) = Ok parts) as [parts ->]; [|by eexists].
    induction IH as [|x l [t Ht] _ [parts Hp]]; [by eexists|]. rewrite Ht, Hp. by eexists.
  - cbn [numbered serialize mbind result_bind].
    assert (∃ parts, (fix go l := match l with [] => Ok [] | (key, x) :: l' => text ← serialize Ok x; texts ← go l';
        Ok (match text with Some text => member key text :: texts | None => texts end) end)
      ((fix go l := match l with [] => [] | (k, x) :: l => (k, numbered x) :: go l end) l) = Ok parts) as [parts ->]; [|by eexists].
    induction IH as [|[k x] l [t Ht] _ [parts Hp]]; [by eexists|]. cbn [snd] in Ht. rewrite Ht, Hp. by eexists.
Qed.

(** ** Collectors *)
Section collectors.
Variable d : declarations_of.

(** Whatever a function with reading handles calls is a run of its collector. *)
Lemma declareCall_reading page h x :
  ∃ h', (declareCall d x (Reading page h)).2 = Reading page h' ∧ ∃ calls, h' = foldl (λ h call, collectorStep d page call h) h calls ∧ Forall (λ c, c ≠ CloseCollector) calls.
Proof.
  destruct h as [s handles], x as [names|i accessor v|i accessor v|accessor v]; cbn [declareCall];
    try (eexists; split; [done|]; exists []; by split).
  - eexists. split; cycle 1.
    + exists [MakeStream names]. split; [done|]. by apply Forall_singleton.
    + cbn [foldl collectorStep]. by destruct (Streams.declare _ s) as [[]].
  - destruct (handles !! i) as [names|] eqn:Hi.
    + eexists. split; cycle 1.
      * exists [TrackThrough i accessor v]. split; [done|]. by apply Forall_singleton.
      * cbn [foldl collectorStep]. rewrite Hi. by destruct (streamTrack _ _ _ _ s).
    + eexists. split; [done|]. exists []. by split.
Qed.
Lemma declareAll_reading page l h :
  ∃ h', declareAll d l (Reading page h) = Reading page h' ∧ ∃ calls, h' = foldl (λ h call, collectorStep d page call h) h calls.
Proof.
  revert h. induction l as [|x l IH]; intros h; [eexists; split; [done|]; by exists []|].
  unfold declareAll. cbn [foldl]. destruct (declareCall_reading page h x) as (h1 & -> & c1 & -> & _).
  destruct (IH (foldl (λ h call, collectorStep d page call h) h c1)) as (h2 & Heq & c2 & ->).
  exists (foldl (λ h call, collectorStep d page call h) h (c1 ++ c2)). split; [|by eexists].
  rewrite foldl_app. exact Heq.
Qed.
(** Handles stay of their kind. *)
Definition sameKind (c c' : declarer) : Prop :=
  match c, c' with
  | NoHandles, NoHandles | Writing _ _, Writing _ _ => True
  | Reading p _, Reading p' _ => p = p'
  | _, _ => False
  end.
Lemma declareCall_kind x c : sameKind c (declareCall d x c).2.
Proof.
  destruct c as [|page h|e handles]; [done| |].
  - by destruct (declareCall_reading page h x) as (h' & -> & _).
  - destruct x; cbn [declareCall]; repeat case_match; done.
Qed.
Definition closedDeclarer (c : declarer) : Prop :=
  match c with NoHandles => True | Reading _ h => t_open h.1 = false | Writing e _ => open e = false end.
Lemma closeDeclarer_closed c : closedDeclarer (closeDeclarer d c).
Proof. destruct c as [|page [s handles]|e handles]; done. Qed.

(** A reading collector with no failure kept answered every call that reached it. *)
Definition answered (r : result unit) : Prop := r = Ok tt ∨ r = Throw (TypeError "not a function").
Lemma keepFailure_some e s : t_failed (keepFailure e s) ≠ None.
Proof. destruct s as [o [[[] ?]|] ps b]; unfold keepFailure; cbn; by destruct (kindOf e). Qed.
Lemma streamTrack_inaccessible page names accessor v s :
  ¬ accessible d accessor → streamTrack (trackingCollector d page) names accessor v s = (Throw (TypeError "not a function"), s).
Proof.
  destruct accessor as [key|]; [|intros H; by destruct H]. intros Hn. unfold streamTrack, namespace.
  cbn [c_entries trackingCollector]. destruct (find _ _) as [e|] eqn:Hf; [|done].
  destruct Hn. apply find_some in Hf as [Hin Hk]. exists e. split; [by apply list_elem_of_In|by apply String.eqb_eq].
Qed.
Lemma declareCall_failure page h x h' :
  (declareCall d x (Reading page h)).2 = Reading page h' → t_failed h'.1 = None →
  answered (declareCall d x (Reading page h)).1.
Proof.
  intros Hc Hf. destruct h as [s handles], x as [names|i accessor v|i accessor v|accessor v]; cbn [declareCall] in *; try (by right).
  - destruct (Streams.declare _ s) as [[l|e] s'] eqn:H; [by left|]. apply streamHandle_spec in H.
    cbn in Hc. simplify_eq. by apply keepFailure_some in Hf.
  - destruct (handles !! i) as [names|]; [|by right].
    destruct (streamTrack _ _ _ _ s) as [r s'] eqn:H. cbn in Hc |- *. simplify_eq. cbn in Hf.
    destruct r as [[]|e]; [by left|]. pose proof (streamTrack_spec d page _ _ _ _ _ _ H) as [->|[Hn ->]].
    + by apply keepFailure_some in Hf.
    + rewrite streamTrack_inaccessible in H by done. simplify_eq. by right.
Qed.
Lemma declareAll_failure page l pre x post h' :
  l = pre ++ x :: post → declareAll d l (newReading page) = Reading page h' → t_failed h'.1 = None →
  answered (declareCall d x (declareAll d pre (newReading page))).1.
Proof.
  intros -> Hl Hf. destruct (declareAll_reading page pre (newTracking, [])) as (h1 & H1 & c1 & Hc1).
  unfold newReading in *. rewrite H1. destruct (declareCall_reading page h1 x) as (h2 & H2 & c2 & Hc2 & _).
  eapply declareCall_failure; [exact H2|].
  unfold declareAll in *. rewrite foldl_app in Hl. cbn [foldl] in Hl. rewrite H1, H2 in Hl.
  destruct (declareAll_reading page post h2) as (h3 & H3 & c3 & Hc3). unfold declareAll in H3. rewrite H3 in Hl.
  injection Hl as <-. destruct (t_failed h2.1) as [f|] eqn:E; [|done].
  assert (collectorRun d page (c1 ++ c2) = h2) as Hrun by (unfold collectorRun; by rewrite foldl_app, <- Hc1, <- Hc2).
  pose proof (collectorRun_sticks d page c3 (c1 ++ c2)) as (_ & _ & Hs & _). rewrite Hrun in Hs.
  assert (collectorRun d page ((c1 ++ c2) ++ c3) = h3) as Hrun3.
  { unfold collectorRun in *. by rewrite foldl_app, Hrun, <- Hc3. }
  rewrite Hrun3 in Hs. by destruct Hs; rewrite ?E.
Qed.
End collectors.

(** ** Actions *)
Section host.
Context {A : Type}.
Variable deps : dependencies (A := A).
Variable settleExternal : string → io (world (A := A)) unit.
Abbreviation d := (d_records deps).

(** The calls that reach the collector: the host's own, then the handler's. *)
Definition callsOf (context : value) (calls : list declaration) : list declaration :=
  if truthy context then StreamOf (get context "stream") :: calls else calls.
Lemma answerRefusal_spec e w r w' :
  answerRefusal deps e w = (r, w') →
  w_retired w' = w_retired w ∧ w_app w' = w_app w ∧ w_session w' = w_session w ∧
  match r with
  | Ok v => w_errors w' = w_errors w ∧ ∃ code, v = VObj [("rejection", VStr code)] ∧ machineCode code = true
  | Throw x => x = e ∧ w' = w ∧ d_isRetryable deps e = true ∨ x = e ∧ w_errors w' = w_errors w ++ [e] ∨
               ∃ code, d_translateRejection deps e = Some code ∧ machineCode code = false
                       ∨ e = MutationRejected code ∧ machineCode code = false
  end.
Proof.
  unfold answerRefusal. destruct (d_isRetryable deps e) eqn:Hr.
  { intros [= <- <-]. split_and!; auto. }
  unfold refuse, refusal.
  destruct (match e with MutationRejected code => Some code | _ => d_translateRejection deps e end) as [code|] eqn:Hc.
  - unfold newMutationRejected. destruct (machineCode code) eqn:Hm.
    + intros [= <- <-]. split_and!; [done..|]. by exists code.
    + intros [= <- <-]. split_and!; [done..|]. right. right. exists code.
      destruct e; simplify_eq; auto.
  - intros [= <- <-]. split_and!; [done..|]. right. by left.
Qed.
Lemma withCollector_spec {R} c current (f : app_function) (answer : value → declarer → result R) (w : world) r w' :
  withCollector deps c current f answer w = (r, w') →
  w_session w' = w_session w ∧ w_errors w' = w_errors w ∧
  ∃ l, w_retired w' = w_retired w ++ [closeDeclarer d (declareAll d l c)] ∧
  match r with
  | Ok x => ∃ calls v, f (w_app w) = (calls, Ok v, w_app w') ∧ answer v (declareAll d l c) = Ok x ∧
              l = match current with Some names => StreamOf names :: calls | None => calls end
  | Throw _ => True
  end.
Proof.
  unfold withCollector.
  destruct (match current with Some names => _ | None => _ end) as [opened c1] eqn:Ho.
  assert (c1 = declareAll d (match current with Some names => [StreamOf names] | None => [] end) c) as Hc1.
  { destruct current; [|by injection Ho as <- <-]. unfold declareAll. cbn [foldl]. by rewrite Ho. }
  destruct opened as [[]|e].
  - destruct (f (w_app w)) as [[calls res] a] eqn:Hf. intros [= <- <-]. split_and!; [done..|].
    exists (match current with Some names => StreamOf names :: calls | None => calls end).
    assert (declareAll d calls c1 = declareAll d (match current with Some names => StreamOf names :: calls | None => calls end) c) as Hall
      by (rewrite Hc1; by destruct current).
    rewrite Hall. split; [done|]. destruct res as [v|e]; cbn [mbind result_bind]; [|done].
    destruct (answer v _) eqn:Ha; [|done]. by exists calls, v.
  - intros [= <- <-]. split_and!; [done..|].
    exists (match current with Some names => [StreamOf names] | None => [] end). by rewrite Hc1.
Qed.
Lemma reading_enrollment l h :
  declareAll d l (newReading true) = Reading true h → Z.of_nat (length (declaredBy (Reading true h))) ≤ 1000.
Proof.
  intros Hl. destruct (declareAll_reading d true l (newTracking, [])) as (h' & Heq & calls & Hcalls).
  unfold newReading in Hl. rewrite Heq in Hl. simplify_eq.
  destruct (collectorRun_ok d true calls) as [[_ _ Hb] _]. destruct (Hb eq_refl) as (Hlen & _).
  cbn [declaredBy]. unfold trackingOf. rewrite length_fmap. exact Hlen.
Qed.

Lemma callsOf_current context calls :
  match (if truthy context then Some (get context "stream") else None) with Some names => StreamOf names :: calls | None => calls end
  = callsOf context calls.
Proof. unfold callsOf. by destruct (truthy context). Qed.
(** A query's outputs mean that no declaration was refused. *)
Lemma query_answered context l :
  declarerFailure (declareAll d l (collectorFor true context)) = None →
  (∀ pre x post, l = pre ++ x :: post → answered (declareCall d x (declareAll d pre (collectorFor true context))).1) ∧
  Z.of_nat (length (declaredBy (declareAll d l (collectorFor true context)))) ≤ 1000.
Proof.
  intros Hf. unfold collectorFor in *. destruct (truthy context).
  - destruct (declareAll_reading d true l (newTracking, [])) as (h & Heq & _). change tracking_page with true in *.
    change (Reading true (newTracking, [])) with (newReading true) in Heq. rewrite Heq in Hf.
    assert (t_failed h.1 = None) as Hn by (cbn in Hf; by destruct (t_failed h.1)).
    split.
    + intros pre x post Hl. exact (declareAll_failure d true l pre x post h Hl Heq Hn).
    + rewrite Heq. by eapply reading_enrollment.
  - assert (∀ l, declareAll d l NoHandles = NoHandles) as Hno by (by induction l0). split.
    + intros pre x post _. rewrite Hno. by right.
    + by rewrite Hno.
Qed.


(** ** Loads *)
Lemma rowsAnswer_spec rows :
  match rowsAnswer rows with
  | inr text => ∃ items, rows = VArr items ∧ carried rows = true ∧ stringify (numbered rows) = Ok text
  | inl _ => carried rows = false ∨ ∀ items, rows ≠ VArr items
  end.
Proof.
  unfold rowsAnswer. destruct rows as [| | | | | | | |items|]; try by right.
  destruct (existsb _ items) eqn:Hu.
  - left. apply existsb_exists in Hu as (v & Hin & Hv). destruct v; try done. clear Hv. cbn [carried].
    induction items as [|x items IH]; [done|]. destruct Hin as [->|Hin]; [done|]. rewrite IH by done. by destruct (carried x).
  - pose proof (encode_spec (VArr items)) as He. destruct (carried (VArr items)) eqn:Hc.
    + rewrite He. destruct (numbered_serialized (VArr items)) as [text Ht]. rewrite Ht. by exists items.
    + destruct He as [e ->]. by left.
Qed.
(** What a Load answers with: its loader's rows, none when it only prepares. *)
Definition loaded (request : value) (rows : list value) (w' : world) : Prop :=
  if isString (get request "mode") "prepare" then rows = []
  else ∃ f call a, fieldOf (toText (get request "model") +:+ ":" +:+ toText (get request "version")) (d_loaders deps) = Some f ∧
         d_loader deps f call a = (Ok (VArr rows), w_app w').


(** ** The session *)
Definition published (delta : value) : option string :=
  match get delta "stream" with VStr s => if truthy (get delta "publish") then Some s else None | _ => None end.
Definition publishedStreams (request : value) : list string :=
  match publishedDeltas request with Some (VArr deltas) => omap published deltas | _ => [] end.
Lemma touchDelta_spec delta (w w' : world (A := A)) :
  touchDelta delta w = (Ok tt, w') →
  w' = set_session (match published delta with Some s => touch s (w_session w) | None => w_session w end) w.
Proof.
  unfold touchDelta. intros H. apply check_bind_inv in H. unfold dot in H. destruct (nullish delta); [by destruct H|].
  unfold published, withSession in *. destruct (get delta "stream"); try (injection H as <-; by destruct w).
  destruct (truthy (get delta "publish")); injection H as <-; [done|by destruct w].
Qed.
Lemma touchDeltas_spec deltas (w w' : world (A := A)) :
  forEach touchDelta deltas w = (Ok tt, w') → w' = set_session (foldl (λ s x, touch x s) (w_session w) (omap published deltas)) w.
Proof.
  revert w. induction deltas as [|x l IH]; intros w H; cbn [forEach] in H.
  - injection H as <-. by destruct w.
  - apply io_bind_inv in H as [([] & w1 & H1 & H)|(? & _ & [=])]. apply touchDelta_spec in H1. apply IH in H.
    subst. cbn [omap list_omap]. by destruct (published x).
Qed.
Lemma saveResults_session (l : list (nat * value)) group w w' r :
  forEach (λ r : nat * value, _ ← withApp (d_storage deps (saveResult group r.1 r.2)); mret tt) l w = (r, w') →
  w_session w' = w_session w.
Proof.
  revert w. induction l as [|x l IH]; intros w H; cbn [forEach] in H; [by injection H as _ <-|].
  apply io_bind_inv in H as [(? & w1 & H1 & H)|(e & H1 & _)].
  - apply IH in H. rewrite H. apply io_bind_inv in H1 as [(v & w2 & H2 & H1)|(e & H2 & [=])].
    injection H1 as _ <-. unfold withApp in H2. destruct (d_storage _ _ _). by injection H2 as _ <-.
  - apply io_bind_inv in H1 as [(v & w2 & H2 & [=])|(e' & H2 & _)].
    unfold withApp in H2. destruct (d_storage _ _ _). by injection H2 as _ <-.
Qed.
Lemma persist_session request w v w' :
  persist deps request w = (Ok v, w') →
  w_session w' = foldl (λ s x, touch x s) (w_session w) (publishedStreams request).
Proof.
  unfold persist. intros H. apply io_bind_inv in H as [(scope & w0 & H0 & H)|(? & _ & [=])].
  injection H0 as <- <-. cbv zeta in H. apply io_bind_inv in H as [(result & w1 & H1 & H)|(? & _ & [=])].
  apply io_bind_inv in H as [([] & w2 & H2 & H)|(? & _ & [=])]. injection H as <- <-.
  assert (w_session w1 = w_session w) as <-.
  { clear H2. case_if; [|unfold withApp in H1; destruct (d_storage _ _ _); by injection H1 as _ <-].
    destruct (get _ "results"); try done. apply io_bind_inv in H1 as [(? & w3 & H3 & H1)|(? & _ & [=])].
    injection H1 as _ <-. by eapply saveResults_session. }
  unfold publishedStreams. destruct (publishedDeltas request) as [deltas|]; [|by injection H2 as <-].
  destruct deltas; try done. apply touchDeltas_spec in H2. by rewrite H2.
Qed.
Lemma touches_pending n l s : foldl (λ s x, touch x s) (set_pending n s) l = set_pending n (foldl (λ s x, touch x s) s l).
Proof.
  revert s. induction l as [|x l IH]; intros s; cbn [foldl]; [done|]. rewrite <- IH. f_equal.
  unfold touch. cbn [touched set_pending]. by case_decide.
Qed.
Lemma touches_count l s : pending (foldl (λ s x, touch x s) s l) = pending s.
Proof. revert s. induction l as [|x l IH]; intros s; cbn [foldl]; [done|]. rewrite IH. unfold touch. by case_decide. Qed.
Lemma bookkeep_pending request n s : bookkeep request (set_pending n s) = set_pending n (bookkeep request s).
Proof. unfold bookkeep. by repeat case_match. Qed.
Lemma bookkeep_count request s : pending (bookkeep request s) = pending s.
Proof. unfold bookkeep. by repeat case_match. Qed.
Lemma tracked_touches request l s :
  settled (Ok tt) (foldl (λ s x, touch x s) (bookkeep request (set_pending (S (pending s)) s)) l)
  = foldl (λ s x, touch x s) (bookkeep request s) l.
Proof.
  unfold settled. rewrite bookkeep_pending, touches_pending. cbn [pending set_pending Nat.pred].
  set (s1 := foldl _ (bookkeep request s) l).
  assert (pending s1 = pending s) as <- by (unfold s1; by rewrite touches_count, bookkeep_count). by destruct s1.
Qed.
(** A request the persistence answers, with its session bookkeeping. *)
Definition persistence_request (request : value) : Prop :=
  (opName request ≠ "handleAction" ∧ opName request ≠ "load" ∧
   (opName request = "protocol05" → opName (get request "request") ≠ "admit" ∧ opName (get request "request") ≠ "handleBootstrap05"))%string.

(** C8: a request that fails fails its transaction: whatever else settles, the
    session can no longer commit.  A request the persistence answers changes
    nothing of the session but its savepoint bookkeeping and, only once it was
    stored, the Streams it published to. *)
Theorem execute_session request w r w' n later :
  execute deps settleExternal request w = (r, w') → Sessions.closed (w_session w) = false →
  match r with
  | Throw e => e ≠ Thrown VUndef → e ≠ Thrown VNull →
               ∃ e', assertCommittable n (sessionRun (w_session w') later) = Throw e'
  | Ok _ => persistence_request request →
            w_session w' = foldl (λ s x, touch x s) (bookkeep request (w_session w)) (publishedStreams request)
  end.
Proof.
  intros H Hopen. unfold execute, tracked, track in H. rewrite Hopen in H.
  destruct (answerRequest deps settleExternal request _) as [r1 w1] eqn:H1. injection H as <- <-.
  destruct r1 as [text|e].
  - intros (Hop1 & Hop2 & Hop3). unfold answerRequest in H1. cbv zeta in H1.
    apply io_bind_inv in H1 as [([] & w2 & H2 & H1)|(? & _ & [=])]. injection H2 as <-.
    apply io_bind_inv in H1 as [(op & w3 & H3 & H1)|(? & _ & [=])].
    assert (w3 = set_session (bookkeep request (set_pending (S (pending (w_session w))) (w_session w))) (set_session (set_pending (S (pending (w_session w))) (w_session w)) w)) as ->.
    { destruct (String.eqb _ _); [|by injection H3 as _ <-]. unfold check in H3. by injection H3 as _ <-. }
    assert (∀ op, op = "admit"%string ∨ op = "handleBootstrap05"%string →
      String.eqb (opName request) "protocol05" && String.eqb (opName (get request "request")) op = false) as His.
    { intros o Ho. destruct (String.eqb_spec (opName request) "protocol05") as [Hp|]; [|done]. destruct (Hop3 Hp) as [? ?].
      cbn [andb]. apply String.eqb_neq. by destruct Ho as [->| ->]. }
    rewrite !His in H1 by auto. apply String.eqb_neq in Hop1, Hop2. rewrite Hop1, Hop2 in H1.
    apply io_bind_inv in H1 as [(v & w4 & H4 & H1)|(? & _ & [=])]. unfold check in H1. injection H1 as _ <-.
    apply persist_session in H4. cbn [w_session set_session] in *. rewrite H4.
    apply tracked_touches.
  - intros Hn1 Hn2. set (s1 := settled _ _).
    assert (∃ x, failed s1 = inr x) as [x Hx].
    { unfold s1, settled. cbn. unfold keepFirst. destruct (failed (w_session w1)) as [v|y]; [|by exists y].
      exists e. unfold thrown. destruct e; try done. by destruct v0. }
    exists x. unfold assertCommittable. cbn [w_session set_session]. by rewrite (failed_kept s1 later x Hx).
Qed.
End host.

(** ** A concrete host

    One query [list:1], bound to a Stream, and one loader [todo:1]; a Mutation
    handler that declares is the same with a writing collector. *)
Definition demo_todo (id : string) : value :=
  VObj [("model", VStr "Todo"); ("identity", VObj [("id", VStr id)])].
Definition demo_id : string := "0190a5b4-7c1e-7d10-8f00-0123456789ab".
Definition demo_deps : dependencies (A := nat) := Dependencies 8
  (DeclarationsOf [Entry "Todo" "todo" [("id", CUuid)]] None)
  [("list:1", Action true [Input "since" true false (VObj [("name", VStr "dateTime")]) None VUndef] None)]
  [("list:1", 0%nat)] [("todo:1", 0%nat)] [] [] true [] (λ _, None) (λ _, None) (λ _, false)
  (λ _ _ n, ([TrackOn 0 None (demo_todo demo_id)], Ok VUndef, S n))
  (λ _ _ n, (Ok (VArr [VObj [("id", VBig 7)]]), S n))
  (λ _ _ n, ([], Ok VUndef, n)) None None
  (λ _ n, (Ok VNull, S n)).
Definition demo_settle : string → io (world (A := nat)) unit := λ _ w, (Ok tt, w).
Definition demo_world : world (A := nat) := World newSession 0%nat [] [].
Definition demo_query : value :=
  VObj [("op", VStr "handleAction"); ("name", VStr "list"); ("version", VNum (NInt 1));
        ("arguments", VObj [("since", VStr "2024-02-29T23:30:00-01:30")]); ("owner", VStr "u"); ("callId", VStr "c");
        ("context", VObj [("stream", VStr "s")])].
Definition demo_load : value :=
  VObj [("op", VStr "load"); ("model", VStr "todo"); ("version", VNum (NInt 1));
        ("identities", VArr [VObj [("id", VStr demo_id)]]); ("owner", VStr "u")].
Definition demo_publication : value :=
  VObj [("op", VStr "applyStreamMembers");
        ("deltas", VArr [VObj [("stream", VStr "s"); ("publish", VBool true)]; VObj [("stream", VStr "t"); ("publish", VBool false)]])].

Lemma execute_session_witness :
  ∃ text w', execute demo_deps demo_settle demo_publication demo_world = (Ok text, w') ∧
    touched (w_session w') = ["s"%string].
Proof.
  eexists _, _. split; [vm_compute; reflexivity|].
  rewrite (execute_session demo_deps demo_settle demo_publication demo_world _ _ 0 []
    ltac:(vm_compute; reflexivity) eq_refl ltac:(split_and!; done)).
  vm_compute. reflexivity.
Defined.
(** An invalid Date becomes [null] all the same. *)
Lemma invalid_date_is_null : encodeCallbackJson (VArr [VDate None; VFun 0]) = Ok (Some "[null,null]"%string).
Proof. reflexivity. Qed.
