(* ===== verification/ArgumentTypes.v ===== *)
(** Arguments reach a handler with their declared types: [decodeActionValue],
    [decodeActionRecord] and the argument loop of [handleAction] in
    [backend/server/bindings/host.mts].

    A declared type is a list of a type, [dateTime], or a type whose wire form and
    API form agree.  On the wire a [dateTime] is a zoned RFC 3339 text, in the API
    a valid [Date]; null and undefined are allowed everywhere. *)
From S2P Require Import Prelude Text Dates Json Instants Effects Host.
Open Scope Z_scope.
Open Scope axton_scope.

(** ** Well-typed values *)
Fixpoint wellTyped (date : value → bool) (depth : nat) (type v : value) : bool :=
  nullish v ||
  if isString (get type "kind") "list" then
    match v, depth with
    | VArr items, S depth => forallb (wellTyped date depth (get type "element")) items
    | _, _ => false
    end
  else if isString (get type "name") "dateTime" then date v else true.
Definition wireDate (v : value) : bool := match v with VStr s => zoned s | _ => false end.
Definition apiDate (v : value) : bool := match v with VDate (Some _) => true | _ => false end.
Definition onWire (type v : value) : Prop := wellTyped wireDate (depthOf type) type v = true.
Definition inApi (type v : value) : Prop := wellTyped apiDate (depthOf type) type v = true.

(** A record of a Model, missing or an object whose declared fields are typed. *)
Definition recordTyped (typed : value → value → Prop) (m : model) (v : value) : Prop :=
  nullish v = true ∨
  ∃ fields, v = VObj fields ∧ ∀ f x, f ∈ m_fields m → fieldOf f.1 fields = Some x → typed f.2 x.
Section inputs.
Variable schemaModels : list model.
Definition inputType (i : input) : value :=
  if i_list i then VObj [("kind", VStr "list"); ("element", i_type i)] else i_type i.
Definition inputTyped (typed : value → value → Prop) (a : action) (i : input) (v : value) : Prop :=
  if i_value i then typed (inputType i) v
  else match i_model i with
       | None | Some EmptyString => True
       | Some name =>
           ∃ m, inputModel schemaModels a name = Some m ∧ NoDup (m_fields m).*1 ∧
             if isString (i_cardinality i) "list"
             then ∃ items, v = VArr items ∧ Forall (recordTyped typed m) items
             else recordTyped typed m v
       end.
End inputs.

Section decoding.
Variable otherDate : string → option Z.

Lemma mapM_typed {P Q : value → Prop} (f : value → result value) l :
  (∀ v, P v → ∃ w, f v = Ok w ∧ Q w) → Forall P l → ∃ k, mapM f l = Ok k ∧ Forall Q k.
Proof.
  intros Hf. induction 1 as [|v l Hv _ (k & Hk & HQ)]; [by exists []|].
  destruct (Hf v Hv) as (w & Hw & Hq). exists (w :: k). cbn. rewrite Hw. cbn. rewrite Hk. cbn. split; [done|by constructor].
Qed.
Lemma decodeActionValue_typed d : ∀ type v, wellTyped wireDate d type v = true →
  ∃ w, decodeActionValue otherDate d type v = Ok w ∧ wellTyped apiDate d type w = true.
Proof.
  induction d as [|d IH]; intros type v; cbn [wellTyped decodeActionValue];
    destruct (nullish v) eqn:Hn; cbn [orb]; try (intros _; exists v; by rewrite Hn);
    destruct (isString (get type "kind") "list"); try (by destruct v);
    try (destruct (isString (get type "name") "dateTime"); [|intros _; exists v; by rewrite orb_true_r]).
  - destruct v; try done. cbn [wireDate]. intros Hz. eexists. split; [done|]. cbn [newDate]. unfold dateParse. rewrite Hz.
    unfold zoned in Hz. by destruct (zonedParts s).
  - destruct v as [| | | | | | | |items|]; try done. intros Hl.
    assert (Forall (λ v, wellTyped wireDate d (get type "element") v = true) items) as Hall.
    { apply Forall_forall. intros x Hx. rewrite forallb_forall in Hl. apply Hl. by apply list_elem_of_In. }
    destruct (mapM_typed (decodeActionValue otherDate d (get type "element")) items (IH (get type "element")) Hall)
      as (k & Hk & Hq). exists (VArr k). rewrite Hk. split; [done|]. cbn. apply forallb_forall. intros x Hx.
    rewrite Forall_forall in Hq. apply Hq. by apply list_elem_of_In.
  - destruct v; try done. cbn [wireDate]. intros Hz. eexists. split; [done|]. cbn [newDate]. unfold dateParse. rewrite Hz.
    unfold zoned in Hz. by destruct (zonedParts s).
Qed.
Lemma decodeValue_typed type v : onWire type v → ∃ w, decodeValue otherDate type v = Ok w ∧ inApi type w.
Proof. apply decodeActionValue_typed. Qed.

(** A record's declared fields are decoded in place; the others stay. *)
Lemma fields_typed (l : list (string * value)) : ∀ fields, NoDup l.*1 →
  (∀ f x, f ∈ l → fieldOf f.1 fields = Some x → onWire f.2 x) →
  ∃ out, foldl (λ acc f, fields ← acc;
      match fieldOf f.1 fields with
      | Some x => y ← decodeValue otherDate f.2 x; Ok (setField f.1 y fields)
      | None => Ok fields
      end) (Ok fields) l = Ok out ∧
    (∀ f x, f ∈ l → fieldOf f.1 out = Some x → inApi f.2 x) ∧
    (∀ key, key ∉ l.*1 → fieldOf key out = fieldOf key fields).
Proof.
  induction l as [|[name type] l IH]; intros fields Hd Hw; [exists fields; set_solver|].
  cbn [fmap list_fmap fst] in Hd. apply NoDup_cons in Hd as [Hname Hd]. cbn [foldl mbind result_bind fst snd].
  assert (∃ next, match fieldOf name fields with
      | Some x => y ← decodeValue otherDate type x; Ok (setField name y fields) | None => Ok fields end = Ok next ∧
      (∀ x, fieldOf name next = Some x → inApi type x) ∧ (∀ key, key ≠ name → fieldOf key next = fieldOf key fields))
    as (next & -> & Hn & Hother).
  { destruct (fieldOf name fields) as [x|] eqn:Hx.
    - destruct (decodeValue_typed type x) as (y & Hy & Ht); [by apply (Hw (name, type)); [left|]|]. rewrite Hy.
      eexists. split; [done|]. split; intros *; rewrite fieldOf_setField.
      + rewrite String.eqb_refl. by intros [= <-].
      + intros Hk. destruct (String.eqb_spec name key); congruence.
    - exists fields. split_and!; [done|congruence|done]. }
  destruct (IH next Hd) as (out & Hout & Hin & Hrest).
  { intros f x Hf Hx. rewrite Hother in Hx by (intros <-; apply Hname, list_elem_of_fmap; by exists f).
    apply (Hw f); [by right|done]. }
  exists out. split; [done|]. split.
  - intros f x [->|Hf]%elem_of_cons; [|by apply Hin]. cbn. rewrite Hrest by done. apply Hn.
  - intros key Hk. cbn in Hk. rewrite Hrest by set_solver. apply Hother. set_solver.
Qed.
Lemma shape_typed m v : NoDup (m_fields m).*1 → recordTyped onWire m v →
  ∃ w, shape otherDate m v = Ok w ∧ recordTyped inApi m w.
Proof.
  intros Hd [Hn|(fields & -> & Hw)]; unfold shape.
  - rewrite Hn. exists VNull. split; [done|by left].
  - cbn [nullish]. unfold decodeActionRecord.
    destruct (fields_typed (m_fields m) fields Hd Hw) as (out & -> & Hin & _). exists (VObj out).
    split; [done|]. right. eauto.
Qed.
Section arguments.
Variable schemaModels : list model.
Lemma decodeInput_typed a i args :
  inputTyped schemaModels onWire a i (default VUndef (fieldOf (i_name i) args)) →
  ∃ out, decodeInput otherDate schemaModels a i args = Ok out ∧
    inputTyped schemaModels inApi a i (default VUndef (fieldOf (i_name i) out)) ∧
    ∀ key, key ≠ i_name i → fieldOf key out = fieldOf key args.
Proof.
  assert (∀ v, default VUndef (fieldOf (i_name i) (setField (i_name i) v args)) = v ∧
    ∀ key, key ≠ i_name i → fieldOf key (setField (i_name i) v args) = fieldOf key args) as Hset.
  { intros v. split; intros *; rewrite fieldOf_setField; [by rewrite String.eqb_refl|].
    intros Hk. destruct (String.eqb_spec (i_name i) key); congruence. }
  unfold decodeInput, inputTyped. cbv zeta. destruct (i_value i).
  - intros (w & Hw & Ht)%decodeValue_typed. unfold inputType in Hw. rewrite Hw. cbn [mbind result_bind].
    eexists. split; [done|]. destruct (Hset w) as [-> ?]. done.
  - destruct (i_model i) as [[|c name]|]; [eauto| |eauto]. intros (m & Hm & Hd & Hv). rewrite Hm.
    destruct (isString (i_cardinality i) "list").
    + destruct Hv as (items & -> & Hall).
      destruct (mapM_typed (P := recordTyped onWire m) (Q := recordTyped inApi m) (shape otherDate m) items
        (λ v, shape_typed m v Hd) Hall) as (k & -> & Hk).
      eexists. split; [done|]. destruct (Hset (VArr k)) as [-> ?]. eauto 10.
    + destruct (shape_typed m _ Hd Hv) as (w & -> & Hw). eexists. split; [done|].
      destruct (Hset w) as [-> ?]. eauto 10.
Qed.
End arguments.
End decoding.

(** C25: a handler receives every declared argument with its declared type.  From
    arguments that are well-typed on the wire, decoding never throws: every value
    input has the API form of its type -- a [dateTime], at any depth of lists, is
    a valid Date -- every record input is missing or a record whose declared
    fields are, and arguments the operation does not declare are untouched. *)
Theorem decodeArguments_typed otherDate schemaModels (a : action) args :
  NoDup (i_name <$> a_inputs a) →
  (∀ i, i ∈ a_inputs a → inputTyped schemaModels onWire a i (default VUndef (fieldOf (i_name i) args))) →
  ∃ out, decodeArguments otherDate schemaModels a (VObj args) = Ok out ∧
    (∀ i, i ∈ a_inputs a → inputTyped schemaModels inApi a i (default VUndef (fieldOf (i_name i) out))) ∧
    (∀ key, key ∉ i_name <$> a_inputs a → fieldOf key out = fieldOf key args).
Proof.
  unfold decodeArguments. revert args. induction (a_inputs a) as [|i l IH]; intros args Hd Hw; [exists args; set_solver|].
  rewrite fmap_cons in Hd. apply NoDup_cons in Hd as [Hi Hd]. cbn [foldl mbind result_bind].
  destruct (decodeInput_typed otherDate schemaModels a i args) as (next & -> & Ht & Hother); [by apply Hw; left|].
  destruct (IH next Hd) as (out & Hout & Hin & Hrest).
  { intros j Hj. rewrite Hother; [by apply Hw; right|]. intros Heq. apply Hi, list_elem_of_fmap. by exists j. }
  exists out. split; [done|]. split.
  - intros j [->|Hj]%elem_of_cons; [|by apply Hin]. by rewrite Hrest.
  - intros key Hk. rewrite fmap_cons in Hk. rewrite Hrest by set_solver. apply Hother. set_solver.
Qed.
(** A list of dates and a record with one. *)
Definition demo_dateTime : value := VObj [("kind", VStr "scalar"); ("name", VStr "dateTime")].
Definition demo_model : model := Model "Event" VUndef [("at", demo_dateTime); ("title", VObj [("kind", VStr "scalar"); ("name", VStr "string")])].
Definition demo_action : action := Action false
  [Input "when" true true demo_dateTime None VUndef; Input "event" false false VUndef (Some "Event"%string) VUndef]
  (Some [demo_model]).
Definition demo_arguments : list (string * value) :=
  [("when", VArr [VStr "2024-02-29T23:30:00-01:30"; VNull]);
   ("event", VObj [("at", VStr "2024-02-29T23:30:00Z"); ("title", VStr "t"); ("extra", VNull)])].
Lemma decodeArguments_typed_witness :
  ∃ out, decodeArguments (λ _, None) [] demo_action (VObj demo_arguments) = Ok out ∧
    (∀ i, i ∈ a_inputs demo_action → inputTyped [] inApi demo_action i (default VUndef (fieldOf (i_name i) out))) ∧
    (∀ key, key ∉ i_name <$> a_inputs demo_action → fieldOf key out = fieldOf key demo_arguments).
Proof.
  apply (decodeArguments_typed (λ _, None) [] demo_action demo_arguments).
  - apply NoDup_ListNoDup. repeat constructor; simpl; intuition congruence.
  - intros i Hi. cbn in Hi. rewrite !elem_of_cons in Hi. destruct Hi as [->|[->|Hi]].
    + vm_compute. reflexivity.
    + cbn. exists demo_model. split_and!; [reflexivity| |].
      * apply NoDup_ListNoDup. repeat constructor; simpl; intuition congruence.
      * right. eexists. split; [reflexivity|]. intros f x Hf Hx. cbn in Hf. rewrite !elem_of_cons in Hf.
        destruct Hf as [->|[->|Hf]]; [| |by apply not_elem_of_nil in Hf];
          cbn in Hx; injection Hx as <-; vm_compute; reflexivity.
    + by apply not_elem_of_nil in Hi.
Defined.
