(* ===== verification/Subscriptions.v ===== *)
(** Subscription handles: [frontend/client-js/api/subscriptions.mts].

    A handle is a cell of a heap, known by a number; the runtime's observers are
    the routes the bridge keeps to handles.  A listener is an application
    function: each call of one is a delivery, and what the listener does before
    it returns - watch, unwatch, close the client, and what the listeners it
    calls in turn do - is the tree of its reactions. *)
From S2P Require Import Prelude.
Open Scope Z_scope.
Open Scope axton_scope.

(** ** Statuses *)
Inductive bootstrap_phase :=
| NotRequested | WaitingForInitialization | Loading | PhaseCatchingUp | Complete | PhaseFailed.
Inductive connection := Offline | Connecting | CatchingUp | Live | Stopped.
Record status := Status {
  active : bool; ready : bool; connection_of : connection;
  phase : bootstrap_phase; phase_error : option (string * string) }.
Record subscription_state := SubscriptionState {
  s_stream : string; s_id : Z; startingCursor : option Z; cursor : option Z }.

(** ** [bootstrapError] *)
Definition coded (code message : string) : exn :=
  Thrown (VObj [("message", VStr message); ("code", VStr code)]).
Definition subscriptionClosed : exn := coded "subscription.closed" "subscription.closed".
Definition clientClosed : exn := coded "client_closed" "client_closed".
Definition bootstrapFailed (code message : string) : exn := coded code message.
Definition bootstrapSuperseded (stream : string) : exn :=
  coded "bootstrap.superseded" ("the bootstrap run of " +:+ stream +:+ " this call waited for was superseded").
(** A [TaskError]: its message and, when the runtime decided it, its details. *)
Record task_error := TaskError { t_message : string; t_details : option (string * option string) }.
Definition bootstrapError (stream : string) (e : task_error) : exn + task_error :=
  match t_details e with
  | None => if String.eqb (t_message e) "client_closed" then inl clientClosed else inr e
  | Some (code, message) =>
      inl (if String.eqb code "subscription.closed" then subscriptionClosed
           else if String.eqb code "client_closed" then clientClosed
           else if String.eqb code "bootstrap.superseded" then bootstrapSuperseded stream
           else bootstrapFailed code (default (t_message e) message))
  end.

(** ** Handles *)
Inductive ending := Removed | StoppedHandle.
Record handle := Handle_ {
  h_stream : string; h_id : Z; snapshot : status; ended : option ending; listeners : list nat }.
(** What the application and the bridge hear. *)
Inductive output :=
| Delivered (h l : nat) (s : status)
| Reported (e : exn)
| Submitted (stream : string) (id : Z)        (* a [streamBootstrap] task *)
| Refused (e : exn).
Record subscriptions := Subscriptions_ {
  handles : gmap nat handle; next_handle : nat;
  cache : list (Z * nat);                      (* [#handles]: the identity's handle *)
  observers : list (string * nat);             (* the bridge's routes *)
  closing : bool;
  outputs : list output }.
Definition newSubscriptions : subscriptions := Subscriptions_ ∅ 0 [] [] false [].

Definition say (o : output) (r : subscriptions) : subscriptions :=
  Subscriptions_ (handles r) (next_handle r) (cache r) (observers r) (closing r) (outputs r ++ [o]).
Definition with_handle (h : nat) (f : handle → handle) (r : subscriptions) : subscriptions :=
  Subscriptions_ (alter f h (handles r)) (next_handle r) (cache r) (observers r) (closing r) (outputs r).
Definition set_closing (r : subscriptions) : subscriptions :=
  Subscriptions_ (handles r) (next_handle r) (cache r) (observers r) true (outputs r).
Definition set_snapshot s x := Handle_ (h_stream x) (h_id x) s (ended x) (listeners x).
Definition set_ended w x := Handle_ (h_stream x) (h_id x) (snapshot x) (Some w) (listeners x).
Definition set_listeners l x := Handle_ (h_stream x) (h_id x) (snapshot x) (ended x) l.

Definition new_handle (state : subscription_state) : handle :=
  Handle_ (s_stream state) (s_id state)
    (Status true (match startingCursor state with None => false | Some _ => true end) Offline NotRequested None)
    None [].
Definition open (x : handle) : bool := match ended x with None => true | Some _ => false end.
(** [#listeners.add] *)
Definition addListener (l : nat) (x : handle) : handle :=
  if open x then (if decide (l ∈ listeners x) then x else set_listeners (listeners x ++ [l]) x) else x.
Definition removeListener (l : nat) (x : handle) : handle := set_listeners (filter (λ k, k ≠ l) (listeners x)) x.
(** [forget] *)
Definition cached (id : Z) (r : subscriptions) : option nat :=
  snd <$> find (λ p, Z.eqb p.1 id) (cache r).
Definition forget (h : nat) (r : subscriptions) : subscriptions :=
  match handles r !! h with
  | None => r
  | Some x =>
      if bool_decide (cached (h_id x) r = Some h)
      then Subscriptions_ (handles r) (next_handle r) (filter (λ p, p.1 ≠ h_id x) (cache r)) (observers r) (closing r) (outputs r)
      else r
  end.

(** ** Deliveries *)
Inductive reaction :=
| Watch (h l : nat) (inner : list reaction) (throws : option exn)
| Unwatch (h l : nat)
| CloseClient.
Definition report (e : option exn) (r : subscriptions) : subscriptions :=
  match e with Some e => say (Reported e) r | None => r end.
(** [#deliver]: the listener is called with the current snapshot. *)
Definition hear (h l : nat) (r : subscriptions) : subscriptions :=
  match handles r !! h with Some x => say (Delivered h l (snapshot x)) r | None => r end.
Fixpoint react (x : reaction) (r : subscriptions) : subscriptions :=
  match x with
  | Watch h l inner throws =>
      match handles r !! h with
      | None => r
      | Some _ =>
          let r := hear h l (with_handle h (addListener l) r) in
          let r := (fix go l r := match l with [] => r | y :: l => go l (react y r) end) inner r in
          report throws r
      end
  | Unwatch h l => with_handle h (removeListener l) r
  | CloseClient => set_closing r
  end.
Definition reactAll (l : list reaction) (r : subscriptions) : subscriptions := foldl (λ r x, react x r) r l.
(** What the [n]-th listener of a publication does. *)
Definition behaviour : Type := nat → list reaction * option exn.
Definition deliver (h l : nat) (b : list reaction * option exn) (r : subscriptions) : subscriptions :=
  report b.2 (reactAll b.1 (hear h l r)).
Fixpoint deliverAll (h : nat) (ls : list nat) (n : nat) (b : behaviour) (r : subscriptions) : subscriptions :=
  match ls with
  | [] => r
  | l :: ls => deliverAll h ls (S n) b (deliver h l (b n) r)
  end.
(** [#publish] *)
Definition publish (h : nat) (s : status) (closed : option ending) (b : behaviour) (r : subscriptions) : subscriptions :=
  let r := with_handle h (set_snapshot s) r in
  let r := match closed with Some w => forget h (with_handle h (set_ended w) r) | None => r end in
  let r := deliverAll h (match handles r !! h with Some x => listeners x | None => [] end) 0 b r in
  match closed with Some _ => with_handle h (set_listeners []) r | None => r end.
(** [#receive] *)
Definition receive (h : nat) (s : status) (closed : bool) (b : behaviour) (r : subscriptions) : subscriptions :=
  match handles r !! h with
  | Some x =>
      if open x then publish h s (if closed then Some (if closing r then StoppedHandle else Removed) else None) b r else r
  | None => r
  end.
Definition stop (h : nat) (b : behaviour) (r : subscriptions) : subscriptions :=
  match handles r !! h with
  | Some x =>
      if open x then
        let s := snapshot x in
        publish h (Status false (ready s) Stopped (phase s) (phase_error s)) (Some StoppedHandle) b r
      else r
  | None => r
  end.

(** ** The cache *)
(** [settled] of a [streamSubscribe] task, and the handle it answers. *)
Definition subscribed (state : subscription_state) (observerId : string) (r : subscriptions) : nat * subscriptions :=
  match cached (s_id state) r with
  | Some h => (h, r)
  | None =>
      let h := next_handle r in
      (h, Subscriptions_ (<[h := new_handle state]> (handles r)) (S h) (cache r ++ [(s_id state, h)])
            (setField observerId h (observers r)) (closing r) (outputs r))
  end.
Definition bootstrap (h : nat) (r : subscriptions) : subscriptions :=
  match handles r !! h with
  | Some x => say (if open x then Submitted (h_stream x) (h_id x) else Refused subscriptionClosed) r
  | None => r
  end.
(** [closed]: the handles are those cached when it starts. *)
Fixpoint stopAll (hs : list nat) (b : nat → behaviour) (r : subscriptions) : subscriptions :=
  match hs with
  | [] => r
  | h :: hs => stopAll hs b (stop h (b h) r)
  end.
Definition closed (b : nat → behaviour) (r : subscriptions) : subscriptions :=
  let r := set_closing r in stopAll ((cache r).*2) b r.

(** ** Runs *)
Inductive event :=
| Subscribed (state : subscription_state) (observerId : string)
| Observed (observerId : string) (s : status) (isClosed : bool) (b : behaviour)
| Call (x : reaction)                          (* [watch], its unsubscribe, [close] *)
| Bootstrap (h : nat)
| Closed (b : nat → behaviour).
Definition step (r : subscriptions) (e : event) : subscriptions :=
  match e with
  | Subscribed state observerId => (subscribed state observerId r).2
  | Observed observerId s isClosed b =>
      match fieldOf observerId (observers r) with Some h => receive h s isClosed b r | None => r end
  | Call x => react x r
  | Bootstrap h => bootstrap h r
  | Closed b => closed b r
  end.
Definition run (events : list event) : subscriptions := foldl step newSubscriptions events.
