(* ===== verification/SubscriptionFacts.v ===== *)
(** One live handle for each subscription, and an ended handle never changes. *)
From S2P Require Import Prelude Subscriptions.
Open Scope Z_scope.

(** ** What a delivery leaves alone

    Listeners change listeners, and whether the client is closing. *)
Definition same_but_listeners (x y : handle) : Prop :=
  h_stream y = h_stream x ∧ h_id y = h_id x ∧ snapshot y = snapshot x ∧ ended y = ended x ∧
  (ended x ≠ None → listeners x = [] → listeners y = []).
#[local] Instance same_preorder : PreOrder same_but_listeners.
Proof. split; [by intros x|]. intros x y z (? & ? & ? & E & L) (? & ? & ? & ? & L'). split_and!; try congruence. rewrite E in L'. auto. Qed.
Record calm (r r' : subscriptions) : Prop := {
  calm_next : next_handle r' = next_handle r;
  calm_cache : cache r' = cache r;
  calm_observers : observers r' = observers r;
  calm_to : ∀ h x, handles r !! h = Some x → ∃ y, handles r' !! h = Some y ∧ same_but_listeners x y;
  calm_from : ∀ h y, handles r' !! h = Some y → ∃ x, handles r !! h = Some x ∧ same_but_listeners x y;
  calm_outputs : ∃ new, outputs r' = outputs r ++ new ∧
    ∀ h l s, Delivered h l s ∈ new → ∃ x, handles r !! h = Some x ∧ snapshot x = s }.
#[local] Instance calm_preorder : PreOrder calm.
Proof.
  split.
  - intros r. split; try done; [intros ? x ?; exists x; by split; [|reflexivity]..|]. exists []. rewrite app_nil_r. split; [done|]. intros ??? Hin. by apply not_elem_of_nil in Hin.
  - intros a b c [N1 C1 O1 T1 F1 (l1 & E1 & D1)] [N2 C2 O2 T2 F2 (l2 & E2 & D2)]. split; try congruence.
    + intros h x Hx. destruct (T1 _ _ Hx) as (y & Hy & ?), (T2 _ _ Hy) as (z & Hz & ?). exists z. split; [done|]. by etrans.
    + intros h z Hz. destruct (F2 _ _ Hz) as (y & Hy & ?), (F1 _ _ Hy) as (x & Hx & ?). exists x. split; [done|]. by etrans.
    + exists (l1 ++ l2). split; [by rewrite E2, E1, app_assoc|]. intros h l s [Hin|Hin]%elem_of_app; [eauto|].
      destruct (D2 _ _ _ Hin) as (y & Hy & Hs), (F1 _ _ Hy) as (x & Hx & (_ & _ & Hxy & _)). exists x. split; [done|congruence].
Qed.
Lemma alter_lookup_handle h f (m : gmap nat handle) i y :
  alter f h m !! i = Some y ↔ (i = h ∧ ∃ x, m !! h = Some x ∧ y = f x) ∨ (i ≠ h ∧ m !! i = Some y).
Proof.
  destruct (decide (i = h)) as [->|Hne].
  - rewrite lookup_alter_eq, fmap_Some. naive_solver.
  - rewrite lookup_alter_ne by done. naive_solver.
Qed.
Lemma with_handle_calm h f r : (∀ x, same_but_listeners x (f x)) → calm r (with_handle h f r).
Proof.
  intros Hf. split; try done; cbn.
  - intros i x Hx. destruct (decide (i = h)) as [->|Hne]; [rewrite lookup_alter_eq, Hx; eauto|].
    rewrite lookup_alter_ne by done. by exists x.
  - intros i y [(-> & x & Hx & ->)|[_ Hy]]%alter_lookup_handle; eauto. by exists y.
  - exists []. rewrite app_nil_r. split; [done|]. intros ??? Hin. by apply not_elem_of_nil in Hin.
Qed.
Lemma say_calm o r : (∀ h l s, o = Delivered h l s → ∃ x, handles r !! h = Some x ∧ snapshot x = s) → calm r (say o r).
Proof.
  intros Ho. split; try done; [intros ? x ?; exists x; by split; [|reflexivity]..|]. exists [o]. split; [done|]. intros h l s Hin%list_elem_of_singleton. by eapply Ho.
Qed.
Lemma hear_calm h l r : calm r (hear h l r).
Proof. unfold hear. destruct (handles r !! h) as [x|] eqn:E; [|done]. apply say_calm. intros ? ? ? [= <- <- <-]. eauto. Qed.
Lemma report_calm e r : calm r (report e r).
Proof. destruct e; [|done]. by apply say_calm. Qed.
Lemma addListener_same l x : same_but_listeners x (addListener l x).
Proof. unfold addListener, open. destruct (ended x) eqn:E; [done|]. case_decide; [done|]. by split_and!. Qed.
Lemma removeListener_same l x : same_but_listeners x (removeListener l x).
Proof. split_and!; try done. cbn. by intros _ ->. Qed.
Lemma closing_calm r : calm r (set_closing r).
Proof.
  split; try done; [intros ? x ?; exists x; by split; [|reflexivity]..|]. exists []. rewrite app_nil_r. split; [done|]. intros ??? Hin. by apply not_elem_of_nil in Hin.
Qed.
Section reaction_ind.
Variable P : reaction → Prop.
Hypothesis Hwatch : ∀ h l inner throws, Forall P inner → P (Watch h l inner throws).
Hypothesis Hunwatch : ∀ h l, P (Unwatch h l).
Hypothesis Hclose : P CloseClient.
Fixpoint reaction_nested_ind (x : reaction) : P x :=
  match x with
  | Watch h l inner throws => Hwatch h l inner throws
      ((fix go l : Forall P l := match l with [] => Forall_nil_2 _ | y :: l => Forall_cons_2 _ _ _ (reaction_nested_ind y) (go l) end) inner)
  | Unwatch h l => Hunwatch h l
  | CloseClient => Hclose
  end.
End reaction_ind.
Lemma react_calm x r : calm r (react x r).
Proof.
  revert x r. apply (reaction_nested_ind (λ x, ∀ r, calm r (react x r))); [intros h l inner throws IH r|intros h l r|intros r]; cbn [react].
  - case_match; [|done]. cbv zeta. etrans; [apply (with_handle_calm h (addListener l)), addListener_same|].
    etrans; [apply (hear_calm h l)|]. etrans; [|apply report_calm].
    generalize (hear h l (with_handle h (addListener l) r)). induction IH as [|y inner Hy _ IH]; intros r0; [done|].
    etrans; [apply Hy|apply IH].
  - apply with_handle_calm, removeListener_same.
  - apply closing_calm.
Qed.
Lemma reactAll_calm l r : calm r (reactAll l r).
Proof. unfold reactAll. revert r. induction l as [|x l IH]; intros r; [done|]. cbn [foldl]. etrans; [apply react_calm|apply IH]. Qed.
Lemma deliverAll_calm h ls n b r : calm r (deliverAll h ls n b r).
Proof.
  revert n r. induction ls as [|l ls IH]; intros n r; cbn [deliverAll]; [done|]. etrans; [|apply IH].
  unfold deliver. etrans; [apply hear_calm|]. etrans; [apply reactAll_calm|apply report_calm].
Qed.

(** ** The invariant *)
Record core (r : subscriptions) : Prop := {
  core_cache : ∀ id h, (id, h) ∈ cache r → ∃ x, handles r !! h = Some x ∧ h_id x = id ∧ ended x = None;
  core_keys : NoDup (cache r).*1;
  core_open : ∀ h x, handles r !! h = Some x → ended x = None → (h_id x, h) ∈ cache r;
  core_next : ∀ h x, handles r !! h = Some x → (h < next_handle r)%nat }.
Definition quiet (r : subscriptions) : Prop := ∀ h x, handles r !! h = Some x → ended x ≠ None → listeners x = [].
Lemma calm_core r r' : calm r r' → core r → core r'.
Proof.
  intros [N C O T F _] [H1 H2 H3 H4]. split; rewrite ?N, ?C; [|done| |].
  - intros id h Hin. destruct (H1 _ _ Hin) as (x & Hx & Hid & He), (T _ _ Hx) as (y & Hy & (_ & ? & _ & ? & _)).
    exists y. split_and!; congruence.
  - intros h y Hy He. destruct (F _ _ Hy) as (x & Hx & (_ & -> & _ & Hxy & _)). apply (H3 _ _ Hx). congruence.
  - intros h y Hy. destruct (F _ _ Hy) as (x & Hx & _). eauto.
Qed.
Lemma calm_quiet r r' : calm r r' → quiet r → quiet r'.
Proof.
  intros Hc Hq h y Hy He. destruct (calm_from _ _ Hc _ _ Hy) as (x & Hx & (_ & _ & _ & Hxy & Hl)).
  rewrite Hxy in He. eauto.
Qed.

(** ** What later steps leave of an ended handle *)
Definition over (x : handle) : Prop := ended x ≠ None ∧ listeners x = [].
Definition advances (r r' : subscriptions) : Prop :=
  (∀ h x, handles r !! h = Some x → over x → handles r' !! h = Some x) ∧
  ∃ new, outputs r' = outputs r ++ new ∧
    ∀ h l s x, Delivered h l s ∈ new → handles r !! h = Some x → over x → s = snapshot x.
#[local] Instance advances_preorder : PreOrder advances.
Proof.
  split.
  - intros r. split; [done|]. exists []. rewrite app_nil_r. split; [done|]. intros ???? Hin. by apply not_elem_of_nil in Hin.
  - intros a b c [H1 (l1 & E1 & D1)] [H2 (l2 & E2 & D2)]. split; [auto|]. exists (l1 ++ l2). split; [by rewrite E2, E1, app_assoc|].
    intros h l s x [Hin|Hin]%elem_of_app Hx Ho; eauto.
Qed.
Lemma calm_advances r r' : calm r r' → advances r r'.
Proof.
  intros Hc. split.
  - intros h x Hx [He Hl]. destruct (calm_to _ _ Hc _ _ Hx) as (y & Hy & (? & ? & ? & ? & Hyl)). rewrite Hy. f_equal.
    destruct x, y; cbn in *. rewrite Hyl by done. congruence.
  - destruct (calm_outputs _ _ Hc) as (new & E & D). exists new. split; [done|]. intros h l s x Hin Hx _.
    destruct (D _ _ _ Hin) as (x' & Hx' & <-). congruence.
Qed.
Lemma with_handle_advances h f r : (∀ x, handles r !! h = Some x → over x → f x = x) → advances r (with_handle h f r).
Proof.
  intros Hf. split.
  - intros i x Hx Ho. cbn. destruct (decide (i = h)) as [->|]; [rewrite lookup_alter_eq, Hx; cbn; by rewrite Hf|].
    by rewrite lookup_alter_ne.
  - exists []. rewrite app_nil_r. split; [done|]. intros ???? Hin. by apply not_elem_of_nil in Hin.
Qed.
Lemma forget_shape h r :
  handles (forget h r) = handles r ∧ next_handle (forget h r) = next_handle r ∧ outputs (forget h r) = outputs r ∧
  observers (forget h r) = observers r.
Proof. unfold forget. case_match; [|done]. by case_bool_decide. Qed.
Lemma forget_advances h r : advances r (forget h r).
Proof.
  destruct (forget_shape h r) as (Hh & _ & Ho & _). split; [by rewrite Hh|]. exists []. rewrite app_nil_r.
  split; [done|]. intros ???? Hin. by apply not_elem_of_nil in Hin.
Qed.

(** ** Publications *)
Lemma cached_Some id h r : NoDup (cache r).*1 → cached id r = Some h ↔ (id, h) ∈ cache r.
Proof.
  unfold cached. induction (cache r) as [|[j i] l IH]; cbn; [intros _; split; [done|intros Hin; by apply not_elem_of_nil in Hin]|].
  rewrite NoDup_cons. intros [Hj Hl]. destruct (Z.eqb_spec j id) as [->|Hne]; cbn.
  - split; [intros [= ->]; by left|]. rewrite elem_of_cons. intros [[= ->]|Hin]; [done|].
    destruct Hj. apply list_elem_of_fmap. by exists (id, h).
  - rewrite IH by done. rewrite elem_of_cons. split; [auto|]. intros [[=]|?]; [congruence|done].
Qed.
Lemma cached_None id r : cached id r = None → id ∉ (cache r).*1.
Proof.
  unfold cached. induction (cache r) as [|[j i] l IH]; cbn; [set_solver|]. destruct (Z.eqb_spec j id); [done|set_solver].
Qed.
Lemma with_snapshot_core h s r : core r → core (with_handle h (set_snapshot s) r).
Proof.
  intros [H1 H2 H3 H4]. split; cbn; [|done| |].
  - intros id i Hin. destruct (H1 _ _ Hin) as (x & Hx & ? & ?). destruct (decide (i = h)) as [->|].
    + rewrite lookup_alter_eq, Hx. eexists. by split_and!.
    + rewrite lookup_alter_ne by done. eauto.
  - intros i y [(-> & x & Hx & ->)|[_ Hy]]%alter_lookup_handle Hy'; [exact (H3 _ _ Hx Hy')|exact (H3 _ _ Hy Hy')].
  - intros i y [(-> & x & Hx & ->)|[_ Hy]]%alter_lookup_handle; eauto.
Qed.
Lemma ended_core h w r x :
  core r → handles r !! h = Some x → ended x = None → core (forget h (with_handle h (set_ended w) r)).
Proof.
  intros [H1 H2 H3 H4] Hx He. pose proof (H3 _ _ Hx He) as Hin.
  unfold forget. cbn [handles with_handle]. rewrite lookup_alter_eq, Hx. cbn [fmap option_fmap option_map h_id set_ended].
  rewrite bool_decide_true by (by apply cached_Some). split; cbn [handles cache next_handle].
  - intros id i [Hne Hi]%list_elem_of_filter. cbn in Hne. destruct (H1 _ _ Hi) as (y & Hy & Hid & Hye).
    destruct (decide (i = h)) as [->|]; [congruence|]. exists y. by rewrite lookup_alter_ne.
  - by apply filter_keys_NoDup.
  - intros i y [(-> & z & Hz & ->)|[Hne Hy]]%alter_lookup_handle Hye; [done|].
    apply list_elem_of_filter. cbn. split; [|by apply H3]. intros Heq.
    pose proof (H3 _ _ Hy Hye) as Hi. rewrite Heq in Hi.
    apply (cached_Some _ _ r) in Hi, Hin; [|done..]. congruence.
  - intros i y [(-> & z & Hz & ->)|[Hne Hy]]%alter_lookup_handle; eauto.
Qed.
Lemma clear_core h r : core r → core (with_handle h (set_listeners []) r).
Proof. intros Hr. eapply calm_core; [|exact Hr]. apply with_handle_calm. by intros x. Qed.

(** What a publication does to a live handle, from a good state. *)
Definition good (r : subscriptions) : Prop := core r ∧ quiet r.
Lemma publish_good h s c b r x :
  good r → handles r !! h = Some x → ended x = None →
  good (publish h s c b r) ∧ advances r (publish h s c b r) ∧
  (∀ i y, handles (publish h s c b r) !! i = Some y → ended y = None →
     (i = h → c = None) ∧ ∃ z, handles r !! i = Some z ∧ ended z = None).
Proof.
  intros [Hc Hq] Hx He. unfold publish. cbv zeta.
  set (r1 := with_handle h (set_snapshot s) r).
  assert (core r1) as Hc1 by (by apply with_snapshot_core).
  assert (handles r1 !! h = Some (set_snapshot s x)) as Hx1 by (unfold r1; cbn; by rewrite lookup_alter_eq, Hx).
  assert (advances r r1) as Ha1.
  { apply with_handle_advances. intros x' Hx' [Ho _]. congruence. }
  assert (∀ i y, handles r1 !! i = Some y → ∃ z, handles r !! i = Some z ∧ ended z = ended y ∧ listeners z = listeners y) as Hfrom1.
  { intros i y [(-> & z & Hz & ->)|[_ Hy]]%alter_lookup_handle; eauto. }
  destruct c as [w|].
  - set (r2 := forget h (with_handle h (set_ended w) r1)).
    assert (handles r2 = alter (set_ended w) h (handles r1)) as Hr2 by (by destruct (forget_shape h (with_handle h (set_ended w) r1))).
    assert (core r2) as Hc2 by (by eapply ended_core).
    assert (advances r1 r2) as Ha2.
    { etrans; [|apply forget_advances]. apply with_handle_advances. intros x' Hx' [Ho _]. rewrite Hx1 in Hx'. by simplify_eq. }
    set (r3 := deliverAll h _ 0 b r2). pose proof (deliverAll_calm h (match handles r2 !! h with Some x => listeners x | None => [] end) 0 b r2) as Hcalm.
    change (calm r2 r3) in Hcalm.
    assert (∀ i y, handles (with_handle h (set_listeners []) r3) !! i = Some y → (i = h ∧ ended y ≠ None ∧ listeners y = []) ∨
      (i ≠ h ∧ ∃ z, handles r !! i = Some z ∧ ended z = ended y ∧ (ended z ≠ None → listeners z = [] → listeners y = []))) as Hall.
    { intros i y [(-> & z & Hz & ->)|[Hne Hy]]%alter_lookup_handle.
      - left. split; [done|]. split; [|done]. cbn. destruct (calm_from _ _ Hcalm _ _ Hz) as (z2 & Hz2 & (_ & _ & _ & -> & _)).
        rewrite Hr2, lookup_alter_eq, Hx1 in Hz2. by injection Hz2 as <-.
      - right. split; [done|]. destruct (calm_from _ _ Hcalm _ _ Hy) as (z2 & Hz2 & (_ & _ & _ & E2 & L2)).
        rewrite Hr2, lookup_alter_ne in Hz2 by done. destruct (Hfrom1 _ _ Hz2) as (z & Hz & Ez & Lz).
        exists z. split_and!; [done|congruence|]. rewrite Ez, Lz. auto. }
    split_and!.
    + split; [apply clear_core; by eapply calm_core|]. intros i y Hy Hye. destruct (Hall _ _ Hy) as [(_ & _ & ?)|(_ & z & Hz & Ez & L)]; [done|].
      apply L; [congruence|]. apply (Hq _ _ Hz). congruence.
    + etrans; [exact Ha1|]. etrans; [exact Ha2|]. etrans; [by apply calm_advances|]. apply with_handle_advances.
      intros y _ [_ Hl]. destruct y. cbn in Hl. by rewrite Hl.
    + intros i y Hy Hye. destruct (Hall _ _ Hy) as [(_ & ? & _)|(Hne & z & Hz & Ez & _)]; [done|]. split; [done|].
      exists z. split; [done|congruence].
  - pose proof (deliverAll_calm h (match handles r1 !! h with Some x => listeners x | None => [] end) 0 b r1) as Hcalm.
    assert (quiet r1) as Hq1.
    { intros i y Hy Hye. destruct (Hfrom1 _ _ Hy) as (z & Hz & Ez & <-). apply (Hq _ _ Hz). congruence. }
    split_and!.
    + split; [by eapply calm_core|by eapply calm_quiet].
    + etrans; [exact Ha1|by apply calm_advances].
    + intros i y Hy Hye. split; [done|]. destruct (calm_from _ _ Hcalm _ _ Hy) as (z & Hz & (_ & _ & _ & E & _)).
      destruct (Hfrom1 _ _ Hz) as (z1 & Hz1 & Ez & _). exists z1. split; [done|congruence].
Qed.

(** ** Steps *)
Lemma calm_good r r' : calm r r' → good r → good r'.
Proof. intros Hc [? ?]. split; [by eapply calm_core|by eapply calm_quiet]. Qed.
Lemma receive_good h s isClosed b r : good r → good (receive h s isClosed b r) ∧ advances r (receive h s isClosed b r).
Proof.
  intros Hr. unfold receive, open. destruct (handles r !! h) as [x|] eqn:Hx; [|done].
  destruct (ended x) eqn:He; [done|]. edestruct publish_good as (? & ? & _); eauto.
Qed.
(** The live handles of [r'] are live in [r], and none is [h]. *)
Definition shrinks (h : nat) (r r' : subscriptions) : Prop :=
  ∀ i y, handles r' !! i = Some y → ended y = None → i ≠ h ∧ ∃ z, handles r !! i = Some z ∧ ended z = None.
Lemma stop_good h b r : good r → good (stop h b r) ∧ advances r (stop h b r) ∧ shrinks h r (stop h b r).
Proof.
  intros Hr. unfold stop, open. destruct (handles r !! h) as [x|] eqn:Hx.
  - destruct (ended x) eqn:He.
    + split_and!; [done..|]. intros i y Hy Hye. split; [|eauto]. intros ->. congruence.
    + edestruct publish_good as (? & ? & H); eauto. split_and!; [done..|]. intros i y Hy Hye.
      destruct (H _ _ Hy Hye) as [Hn ?]. split; [|done]. intros Hih. by specialize (Hn Hih).
  - split_and!; [done..|]. intros i y Hy Hye. split; [congruence|eauto].
Qed.
Lemma stopAll_good hs b r :
  good r → good (stopAll hs b r) ∧ advances r (stopAll hs b r) ∧
  ∀ i y, handles (stopAll hs b r) !! i = Some y → ended y = None → (i ∉ hs) ∧ ∃ z, handles r !! i = Some z ∧ ended z = None.
Proof.
  revert r. induction hs as [|h hs IH]; intros r Hr; cbn [stopAll].
  - split_and!; [done..|]. intros i y Hy Hye. split; [apply not_elem_of_nil|eauto].
  - destruct (stop_good h (b h) r Hr) as (H1 & H2 & H3), (IH _ H1) as (H4 & H5 & H6). split_and!; [done|by etrans|].
    intros i y Hy Hye. destruct (H6 _ _ Hy Hye) as (Hn & z & Hz & Hze), (H3 _ _ Hz Hze) as (Hih & ?).
    split; [|done]. apply not_elem_of_cons. auto.
Qed.
Lemma closed_good b r :
  good r → good (closed b r) ∧ advances r (closed b r) ∧ ∀ h y, handles (closed b r) !! h = Some y → ended y ≠ None.
Proof.
  intros Hr. unfold closed. cbv zeta. set (r0 := set_closing r).
  assert (good r0) as Hr0 by (eapply calm_good; [apply closing_calm|done]).
  destruct (stopAll_good (cache r0).*2 b r0 Hr0) as (H1 & H2 & H3). split_and!; [done| |].
  - etrans; [apply calm_advances, closing_calm|done].
  - intros h y Hy Hye. destruct (H3 _ _ Hy Hye) as (Hn & z & Hz & Hze). apply Hn.
    apply list_elem_of_fmap. exists (h_id z, h). split; [done|]. by apply (core_open _ (proj1 Hr0)).
Qed.
Lemma subscribed_good state observerId r :
  good r → good (subscribed state observerId r).2 ∧ advances r (subscribed state observerId r).2.
Proof.
  intros [[H1 H2 H3 H4] Hq]. unfold subscribed. destruct (cached (s_id state) r) as [h|] eqn:Hc; [done|].
  apply cached_None in Hc. cbv zeta. cbn [snd].
  assert (handles r !! next_handle r = None) as Hnew.
  { destruct (handles r !! next_handle r) as [x|] eqn:E; [|done]. pose proof (H4 _ _ E). lia. }
  assert (∀ h x, handles r !! h = Some x → h ≠ next_handle r) as Hne by congruence.
  split; [split; [split|]|split]; cbn.
  - intros id h [Hin|[= -> ->]%list_elem_of_singleton]%elem_of_app.
    + destruct (H1 _ _ Hin) as (x & Hx & ?). exists x. rewrite lookup_insert_ne by (by eapply not_eq_sym, Hne). done.
    + exists (new_handle state). by rewrite lookup_insert_eq.
  - rewrite fmap_app. apply NoDup_app. split_and!; [done| |by apply NoDup_singleton].
    intros id Hin ->%list_elem_of_singleton. done.
  - intros h x. destruct (decide (h = next_handle r)) as [->|Hh].
    + rewrite lookup_insert_eq. intros [= <-] _. apply elem_of_app. right. by apply list_elem_of_singleton.
    + rewrite lookup_insert_ne by done. intros Hx He. apply elem_of_app. left. by apply H3.
  - intros h x. destruct (decide (h = next_handle r)) as [->|Hh]; [lia|]. rewrite lookup_insert_ne by done. intros Hx.
    specialize (H4 _ _ Hx). lia.
  - intros h x. cbn. destruct (decide (h = next_handle r)) as [->|Hh]; [rewrite lookup_insert_eq; by intros [= <-]|].
    rewrite lookup_insert_ne by done. apply Hq.
  - intros h x Hx _. rewrite lookup_insert_ne by (by eapply not_eq_sym, Hne). done.
  - exists []. rewrite app_nil_r. split; [done|]. intros ???? Hin. by apply not_elem_of_nil in Hin.
Qed.
Lemma subscriptionStep_good r e : good r → good (step r e) ∧ advances r (step r e).
Proof.
  intros Hr. destruct e; cbn [step].
  - by apply subscribed_good.
  - case_match; [by apply receive_good|done].
  - split; [eapply calm_good; [apply react_calm|done]|apply calm_advances, react_calm].
  - unfold bootstrap. case_match; [|done]. assert (∀ o, (∀ h l s, o ≠ Delivered h l s) → calm r (say o r)) as Hsay.
    { intros o Ho. apply say_calm. intros h' l s ->. by destruct (Ho h' l s). }
    split; [eapply calm_good; [apply Hsay|done]|apply calm_advances, Hsay]; by case_match.
  - destruct (closed_good b r Hr) as (? & ? & _). done.
Qed.
Lemma steps_good events r : good r → good (foldl step r events) ∧ advances r (foldl step r events).
Proof.
  revert r. induction events as [|e l IH]; intros r Hr; cbn [foldl]; [done|].
  destruct (subscriptionStep_good r e Hr) as [H1 H2], (IH _ H1) as [H3 H4]. split; [done|by etrans].
Qed.
Lemma new_good : good newSubscriptions.
Proof.
  split; [split|]; cbn; try done.
  - intros id h Hin. by apply not_elem_of_nil in Hin.
  - by apply NoDup_nil.
Qed.

(** C20: however subscribing, snapshots, listeners that watch, unwatch and close
    while they are called, and the end of the runtime interleave: a live handle
    is the one cached handle of its identity, and nothing else is cached; an
    ended handle has no listener, never changes again, and whoever still
    watches it hears only its last status; and once the runtime is gone every
    handle has ended. *)
Theorem handles_live events more b :
  let r := run events in
  (∀ id h, cached id r = Some h ↔ ∃ x, handles r !! h = Some x ∧ h_id x = id ∧ ended x = None) ∧
  (∀ h x, handles r !! h = Some x → ended x ≠ None →
     listeners x = [] ∧ handles (run (events ++ more)) !! h = Some x ∧
     ∃ new, outputs (run (events ++ more)) = outputs r ++ new ∧ ∀ l s, Delivered h l s ∈ new → s = snapshot x) ∧
  (∀ h x, handles (run (events ++ [Closed b])) !! h = Some x → ended x ≠ None).
Proof.
  cbv zeta. unfold run. rewrite !foldl_app.
  destruct (steps_good events newSubscriptions new_good) as [[Hc Hq] _]. set (r := foldl step newSubscriptions events) in *.
  split_and!.
  - intros id h. rewrite cached_Some by apply (core_keys _ Hc). split.
    + apply (core_cache _ Hc).
    + intros (x & Hx & <- & He). by apply (core_open _ Hc).
  - intros h x Hx He. pose proof (Hq _ _ Hx He) as Hl. split; [done|].
    destruct (steps_good more r (conj Hc Hq)) as [_ [Hkeep (new & Hnew & Hd)]]. split; [by apply Hkeep|].
    exists new. split; [done|]. intros l s Hin. by eapply Hd.
  - cbn [foldl step]. by apply closed_good.
Qed.
(** Two subscribers of one Stream share a handle; one watches it, and the Store is reset. *)
Definition demo_state : subscription_state := SubscriptionState "s" 7 None None.
Definition demo_gone : status := Status false false Offline NotRequested None.
Definition demo_events : list event :=
  [Subscribed demo_state "o"; Subscribed demo_state "p"; Call (Watch 0 1 [] None);
   Observed "o" demo_gone true (λ _, ([Unwatch 0 1], None))].
Lemma handles_live_witness :
  ∃ x, handles (run demo_events) !! 0%nat = Some x ∧ ended x = Some Removed ∧ snapshot x = demo_gone ∧
    listeners x = [] ∧ handles (run (demo_events ++ [Bootstrap 0; Subscribed demo_state "q"])) !! 0%nat = Some x.
Proof.
  eexists. split; [vm_compute; reflexivity|]. do 2 (split; [reflexivity|]).
  destruct (handles_live demo_events [Bootstrap 0; Subscribed demo_state "q"] (λ _ _, ([], None))) as (_ & H & _).
  destruct (H 0%nat _ ltac:(vm_compute; reflexivity) ltac:(discriminate)) as (H1 & H2 & _). split; [exact H1|exact H2].
Defined.
