(* ===== verification/Http.v ===== *)
(** HTTP routes and admission: [backend/server/connection/http.mts] and
    [admission.mts], and [engineError] of [backend/server/bindings/native.mts].

    A request is what Node's server gives: its line, its headers and the chunks
    of its body, the last of which may be an error of the connection.  The
    application's hooks and the backend's routes are parameters.  The table of
    statuses is read by an engine code, none of which names a property every
    object has. *)
From S2P Require Import Prelude Text Json.
Open Scope Z_scope.
Open Scope axton_scope.

(** ** [engineError] *)
Definition startsWith (prefix s : string) : bool := String.prefix prefix s.
Definition engineError (e : exn) : exn :=
  let text := match e with
              | EngineError _ _ _ => EmptyString
              | Error m | TypeError m | TaskError m _ | EnrollmentOverflow m => m
              | MutationRejected code | CallError code _ _ => code
              | Thrown (VStr s) => s
              | Thrown _ => EmptyString
              end in
  if startsWith "{" text then
    match parse text with
    | Ok parsed =>
        match get parsed "code", get parsed "message" with
        | VStr code, VStr message =>
            EngineError code message
              (match get parsed "details" with
               | VObj fields => Some fields
               | VArr items => Some (imap (λ i v, (pretty (Z.of_nat i), v)) items)
               | _ => None
               end)
        | _, _ => e
        end
    | Throw _ => e
    end
  else e.

(** ** Requests *)
Record request := Request {
  url : option string; method : string; headers : list (string * string);
  chunks : list (result (list Z));                   (* the bytes of each, or a failure *)
  gone : bool }.                                     (* the client has left before the answer *)

(** [devAuth] *)
Definition BEARER : string := "Bearer ".
Definition devAuth (r : request) : option string :=
  match fieldOf "authorization" (headers r) with
  | Some header =>
      if startsWith BEARER header then
        let id := trim (String.substring (String.length BEARER) (String.length header - String.length BEARER) header) in
        if String.eqb id EmptyString then None else Some id
      else None
  | None => None
  end.

(** ** [createAdmission] *)
Definition refusal : Type := Z * string.
Definition checkedRefusal (answer : value) : result (option refusal) :=
  if nullish answer then Ok None
  else
    let body := get answer "body" in
    text ← match body with VUndef => Ok None | _ => stringify body end;
    match get answer "status", text with
    | VNum (NInt status), Some text =>
        guard! negb (status <? 400) && negb (599 <? status)
        else Throw (TypeError "admit must answer null or {status: 400..599, body: JSON}");
        Ok (Some (status, text))
    | _, _ => Throw (TypeError "admit must answer null or {status: 400..599, body: JSON}")
    end.

(** ** The handler *)
Inductive route := Handshake | Materialize | Mutations | Actions | Fetch | Pull.
Definition routeOf (path : string) : option route :=
  if String.eqb path "/sync/mutations" then Some Mutations
  else if String.eqb path "/sync/pull" then Some Pull
  else if String.eqb path "/sync/actions" then Some Actions
  else if String.eqb path "/sync/fetch" then Some Fetch
  else if String.eqb path "/sync/materialize" then Some Materialize
  else if String.eqb path "/sync/handshake" then Some Handshake
  else None.
(** [url?.split("?")[0]] *)
Fixpoint beforeQuery (s : string) : string :=
  match s with
  | String c s => if byte c =? 63 then EmptyString else String c (beforeQuery s)
  | EmptyString => EmptyString
  end.
Definition HTTP_STATUS_BY_CODE : list (string * Z) :=
  [("delivery.capacity", 413); ("request.invalid", 400); ("context_mismatch", 409); ("stream.forbidden", 403);
   ("store.binding", 403); ("principal.invalid", 400); ("batch.conflict", 409); ("batch.sequence", 409);
   ("batch.progress", 409); ("page.capacity", 413); ("constraint_group_capacity", 413);
   ("protocol.unsupported", 426); ("model_version_unsupported", 409)]%string.

(** [new TextDecoder("utf-8", { fatal: true }).decode]: the bytes of a sequence of
    scalar values, after an optional byte order mark. *)
Definition scalarValue (cp : Z) : bool :=
  (0 <=? cp) && (cp <=? MAX_CODE_POINT) && negb ((0xD800 <=? cp) && (cp <=? 0xDFFF)).
Definition dropMark (l : list Z) : list Z :=
  match l with 0xEF :: 0xBB :: 0xBF :: l' => l' | _ => l end.
Definition decodeText (l : list Z) : result string :=
  let l := dropMark l in
  let cps := decode l in
  if bool_decide (concat (utf8 <$> cps) = l) && forallb scalarValue cps then Ok (of_bytes l)
  else Throw (TypeError "The encoded data was not valid for encoding utf-8").

Record response := Response {
  status : Z; text : string; marker : bool;          (* [axton-admission: refused] *)
  allow : bool }.                                    (* [allow: POST] *)

Section handler.
Context {A : Type}.                                  (* the application and its backend *)
Record hooks := Hooks {
  authenticate_ : request → A → result value * A;
  admit_ : option (request → option string → A → result value * A);
  backend : route → string → list Z → A → result string * A;
  maxBodyBytes : option Z }.
Variable hooks_ : hooks.

(** What happened besides the application's own state. *)
Record web := Web { app : A; answers : list response; reported : list exn; served : list (route * string * list Z) }.
Definition set_app a w := Web a (answers w) (reported w) (served w).
Definition applied {R} (m : A → result R * A) : io web R := λ w, let '(r, a) := m (app w) in (r, set_app a w).

Definition authenticate (r : request) : io web (option string) :=
  id ← applied (authenticate_ hooks_ r);
  mret (match id with
        | VStr id => if String.eqb (trim id) EmptyString then None else Some (trim id)
        | _ => None
        end).
Definition createAdmission (r : request) : io web (option string * option refusal) :=
  owner ← authenticate r;
  match admit_ hooks_ with
  | None => mret (owner, None)
  | Some f =>
      answer ← applied (f r owner);
      refused ← check (checkedRefusal answer);
      mret (owner, refused)
  end.

(** Every value sent is JSON: its text is [JSON.stringify]'s. *)
Definition jsonText (v : value) : string :=
  match stringify v with Ok (Some text) => text | _ => EmptyString end.
Definition answer (r : request) (x : response) : io web unit := λ w,
  (Ok tt, if gone r then w else Web (app w) (answers w ++ [x]) (reported w) (served w)).
Definition send (r : request) (status : Z) (text : string) : io web unit := answer r (Response status text false false).
Definition code (c : string) : string := jsonText (VObj [("code", VStr c)]).
Definition onError (e : exn) : io web unit := λ w, (Ok tt, Web (app w) (answers w) (reported w ++ [e]) (served w)).

(** The body within the limit, [None] past it. *)
Fixpoint readBody (limit : Z) (l : list (result (list Z))) (read : list Z) : result (option (list Z)) :=
  match l with
  | [] => Ok (Some read)
  | Throw e :: _ => Throw e
  | Ok chunk :: l =>
      let read := read ++ chunk in
      if limit <? Z.of_nat (length read) then Ok None else readBody limit l read
  end.
Definition parsedBody (bytes : list Z) : result value := text ← decodeText bytes; parse text.
Definition callBackend (p : route) (owner : string) (bytes : list Z) : io web string := λ w,
  let '(r, a) := backend hooks_ p owner bytes (app w) in
  (r, Web a (answers w) (reported w) (served w ++ [(p, owner, bytes)])).
Definition serve (r : request) (p : route) : io web unit :=
  '(owner, refused) ← createAdmission r;
  match refused with
  | Some (status, text) => answer r (Response status text true false)
  | None =>
      match owner with
      | None => send r 401 (code "unauthenticated")
      | Some owner =>
          if blank owner then send r 401 (code "unauthenticated")
          else
            body ← check (readBody (default 1048576 (maxBodyBytes hooks_)) (chunks r) []);
            match body with
            | None => send r 413 (code "request_too_large")
            | Some bytes =>
                match parsedBody bytes with
                | Ok (VObj _) => result ← callBackend p owner bytes; send r 200 result
                | _ => send r 400 (code "request.invalid")
                end
            end
      end
  end.
Definition answerError (r : request) (e : exn) : io web unit :=
  match e with
  | EngineError c _ details =>
      match fieldOf c HTTP_STATUS_BY_CODE with
      | Some status => send r status (jsonText (VObj (foldl (λ l p, setField p.1 p.2 l) [("code"%string, VStr c)] (default [] details))))
      | None => _ ← onError e; send r 500 (code "server")
      end
  | _ => _ ← onError e; send r 500 (code "server")
  end.
Definition httpHandler (r : request) : io web unit :=
  match (path ← url r; routeOf (beforeQuery path)) with
  | None => send r 404 (code "not_found")
  | Some p =>
      if negb (String.eqb (method r) "POST") then
        answer r (Response 405 (code "method_not_allowed") false true)
      else catch (serve r p) (answerError r)
  end.
End handler.
