(* ===== verification/HttpFacts.v ===== *)
(** Every request is answered once, and the backend is reached only through every check. *)
From S2P Require Import Prelude Text Json Http.
Open Scope Z_scope.
Open Scope axton_scope.

Section facts.
Context {A : Type}.
Variable hooks_ : hooks (A := A).
Implicit Types w : web (A := A).

(** ** Reaching the backend *)
Definition limit : Z := default 1048576 (maxBodyBytes hooks_).
(** The request a route of the backend is called for. *)
Record reaches (r : request) (p : route) (owner : string) (body : list Z) : Prop := {
  reach_path : (path ← url r; routeOf (beforeQuery path)) = Some p;
  reach_method : method r = "POST"%string;
  reach_owner : blank owner = false;
  reach_body : ∃ parts, chunks r = Ok <$> parts ∧ body = concat parts;
  reach_size : Z.of_nat (length body) ≤ limit ∨ body = [];
  reach_object : ∃ fields, parsedBody body = Ok (VObj fields) }.
(** What answering leaves: the trace grows by one answer, at most one call and at
    most one report. *)
Record outcome (r : request) (p : option route) (w w' : web (A := A)) : Prop := {
  out_answer : ∃ x, answers w' = answers w ++ (if gone r then [] else [x]) ∧
    (marker x = true → 400 ≤ status x ≤ 599 ∧ served w' = served w) ∧
    (reported w' = reported w ∨ status x = 500 ∧ text x = code "server" ∧ ∃ e, reported w' = reported w ++ [e]);
  out_served : served w' = served w ∨
    ∃ owner body, served w' = served w ++ [(match p with Some p => p | None => Pull end, owner, body)] ∧
      match p with Some p => reaches r p owner body | None => False end }.

Lemma readBody_spec l : ∀ n read body,
  readBody n l read = Ok (Some body) →
  ∃ parts, l = Ok <$> parts ∧ body = read ++ concat parts ∧ (Z.of_nat (length body) ≤ n ∨ parts = []).
Proof.
  induction l as [|[chunk|e] l IH]; intros n read body; cbn [readBody]; [|cbv zeta|done].
  - intros [= <-]. exists []. rewrite app_nil_r. auto.
  - destruct (Z.ltb_spec n (Z.of_nat (length (read ++ chunk)))) as [|Hn]; [done|]. intros H.
    destruct (IH _ _ _ H) as (parts & -> & -> & Hor). exists (chunk :: parts). cbn. rewrite app_assoc. split_and!; [done..|].
    destruct Hor as [?| ->]; [by left|]. left. cbn. by rewrite app_nil_r.
Qed.
Lemma applied_trace {R} (m : A → result R * A) w r w' :
  applied m w = (r, w') → answers w' = answers w ∧ reported w' = reported w ∧ served w' = served w.
Proof. unfold applied. destruct (m (app w)). by intros [= _ <-]. Qed.
Lemma checkedRefusal_status v status text : checkedRefusal v = Ok (Some (status, text)) → 400 ≤ status ≤ 599.
Proof.
  unfold checkedRefusal. destruct (nullish v); [done|]. destruct (match get v "body" with VUndef => _ | _ => _ end) as [o|]; [|done].
  cbn [mbind result_bind]. destruct (get v "status") as [| | |[z| | |]| | | | | |]; try done. destruct o; [|done].
  destruct (Z.ltb_spec z 400); [done|]. destruct (Z.ltb_spec 599 z); [done|]. cbn [negb andb]. intros [= <- <-]. lia.
Qed.
Lemma admission_trace r w x w' :
  createAdmission hooks_ r w = (x, w') →
  answers w' = answers w ∧ reported w' = reported w ∧ served w' = served w ∧
  match x with Ok (_, Some refused) => 400 ≤ refused.1 ≤ 599 | _ => True end.
Proof.
  unfold createAdmission, authenticate. intros H.
  apply io_bind_inv in H as [(owner & w1 & H1 & H)|(e & H1 & ->)].
  - apply io_bind_inv in H1 as [(id & w2 & H2 & H1)|(? & _ & [=])]. injection H1 as <- <-.
    apply applied_trace in H2 as (Ha & Hr & Hs). destruct (admit_ hooks_) as [f|].
    + apply io_bind_inv in H as [(v & w3 & H3 & H)|(e & H3 & ->)]; apply applied_trace in H3 as (Ha3 & Hr3 & Hs3).
      * apply check_bind_inv in H. destruct (checkedRefusal v) as [[[status text]|]|e] eqn:Hc.
        -- injection H as <- <-. split; [congruence|]. split; [congruence|]. split; [congruence|]. by eapply checkedRefusal_status.
        -- injection H as <- <-. split_and!; [congruence..|done].
        -- destruct H as [-> ->]. split_and!; [congruence..|done].
      * split_and!; [congruence..|done].
    + injection H as <- <-. by split_and!.
  - apply io_bind_inv in H1 as [(id & w2 & H2 & [=])|(e' & H2 & [= ->])]. apply applied_trace in H2 as (? & ? & ?). by split_and!.
Qed.

(** A step that only answers. *)
Definition answered (r : request) (w w' : web (A := A)) (x : response) : Prop :=
  answers w' = answers w ++ (if gone r then [] else [x]) ∧ reported w' = reported w ∧ served w' = served w.
Lemma answer_answered r x w : answered r w (answer r x w).2 x ∧ (answer r x w).1 = Ok tt.
Proof. unfold answered, answer. destruct (gone r); cbn; by rewrite ?app_nil_r. Qed.
(** The routes: an answer of theirs, or an error before any answer. *)
Lemma serve_spec r p w x w' :
  (path ← url r; routeOf (beforeQuery path)) = Some p → method r = "POST"%string →
  serve hooks_ r p w = (x, w') →
  reported w' = reported w ∧
  (served w' = served w ∨ ∃ owner body, served w' = served w ++ [(p, owner, body)] ∧ reaches r p owner body) ∧
  match x with
  | Ok _ => ∃ a, answers w' = answers w ++ (if gone r then [] else [a]) ∧
                 (marker a = true → 400 ≤ status a ≤ 599 ∧ served w' = served w)
  | Throw _ => answers w' = answers w
  end.
Proof.
  intros Hp Hm. unfold serve. intros H.
  apply io_bind_inv in H as [([owner refused] & w1 & H1 & H)|(e & H1 & ->)];
    apply admission_trace in H1 as (Ha & Hr & Hs & Hst); [|split_and!; [done|by left|done]].
  assert (∀ a w2, answer r a w1 = (x, w2) → w2 = w' → (marker a = true → 400 ≤ status a ≤ 599) →
    reported w' = reported w ∧ (served w' = served w ∨ ∃ owner body, served w' = served w ++ [(p, owner, body)] ∧ reaches r p owner body) ∧
    match x with
    | Ok _ => ∃ a, answers w' = answers w ++ (if gone r then [] else [a]) ∧ (marker a = true → 400 ≤ status a ≤ 599 ∧ served w' = served w)
    | Throw _ => answers w' = answers w
    end) as Hans.
  { intros a w2 Hw <- Hmark. pose proof (answer_answered r a w1) as [(E1 & E2 & E3) Eok]. rewrite Hw in E1, E2, E3, Eok. cbn in *.
    subst x. rewrite Ha in E1. rewrite Hr in E2. rewrite Hs in E3. split_and!; [done|by left|]. exists a. split; [done|]. auto. }
  destruct refused as [[status text]|]; [by eapply Hans|].
  destruct owner as [owner|]; [|by eapply Hans]. destruct (blank owner) eqn:Hb; [by eapply Hans|].
  apply check_bind_inv in H. destruct (readBody _ _ _) as [[bytes|]|e] eqn:Hread.
  - destruct (parsedBody bytes) as [[]|] eqn:Hparse; try by eapply Hans.
    apply readBody_spec in Hread as (parts & Hparts & -> & Hsize). cbn [app] in *.
    assert (reaches r p owner (concat parts)) as Hreach.
    { split; [done..| | |]; [by exists parts| |by eexists]. destruct Hsize as [?| ->]; [by left|by right]. }
    apply io_bind_inv in H as [(result & w2 & H2 & H)|(e & H2 & ->)]; unfold callBackend in H2; destruct (backend _ _ _ _ _) as [res a].
    + injection H2 as -> <-. pose proof (answer_answered r (Response 200 result false false) (Web a (answers w1) (reported w1) (served w1 ++ [(p, owner, concat parts)]))) as [(E1 & E2 & E3) Eok].
      unfold send in H. rewrite H in E1, E2, E3, Eok. cbn in *. subst x. rewrite E2, E3, E1, Ha, Hr, Hs.
      split_and!; [done|right; eauto|]. eexists. split; [done|]. done.
    + injection H2 as -> <-. cbn. rewrite Ha, Hr, Hs. split_and!; [done|right; eauto|done].
  - by eapply Hans.
  - destruct H as [-> ->]. split_and!; [done|by left|done].
Qed.
Lemma answerError_spec r e w :
  (answerError r e w).1 = Ok tt ∧ served (answerError r e w).2 = served w ∧
  ∃ a, answers (answerError r e w).2 = answers w ++ (if gone r then [] else [a]) ∧ marker a = false ∧
  (reported (answerError r e w).2 = reported w ∨
   status a = 500 ∧ text a = code "server" ∧ reported (answerError r e w).2 = reported w ++ [e]).
Proof.
  assert (∀ a, marker a = false → answer r a w = answerError r e w → 
    (answerError r e w).1 = Ok tt ∧ served (answerError r e w).2 = served w ∧
    ∃ a, answers (answerError r e w).2 = answers w ++ (if gone r then [] else [a]) ∧ marker a = false ∧
    (reported (answerError r e w).2 = reported w ∨
     status a = 500 ∧ text a = code "server" ∧ reported (answerError r e w).2 = reported w ++ [e])) as Hone.
  { intros a Hm <-. destruct (answer_answered r a w) as [(? & ? & ?) ?]. split_and!; [done..|]. exists a. auto. }
  assert ((_ ← onError e; send r 500 (code "server")) w = answerError r e w →
    (answerError r e w).1 = Ok tt ∧ served (answerError r e w).2 = served w ∧
    ∃ a, answers (answerError r e w).2 = answers w ++ (if gone r then [] else [a]) ∧ marker a = false ∧
    (reported (answerError r e w).2 = reported w ∨
     status a = 500 ∧ text a = code "server" ∧ reported (answerError r e w).2 = reported w ++ [e])) as Htwo.
  { intros <-. unfold send.
    destruct (answer_answered r (Response 500 (code "server") false false) (Web (app w) (answers w) (reported w ++ [e]) (served w))) as [(E1 & E2 & E3) ?].
    split; [done|]. split; [exact E3|]. eexists. split; [exact E1|]. split; [done|]. right. split; [done|]. split; [done|]. exact E2. }
  destruct e as [| |c m details| | | | |]; try (by apply Htwo).
  destruct (fieldOf c HTTP_STATUS_BY_CODE) eqn:Hc.
  - eapply Hone; [|unfold answerError; rewrite Hc; unfold send; reflexivity]. done.
  - apply Htwo. unfold answerError. by rewrite Hc.
Qed.

End facts.
