(* ===== verification/Server.v ===== *)
(** A backend at work: [run], [settle], [transaction], [publish] and the routes of
    [backend/server/api/backend.mts], with [typedNative] of
    [backend/server/bindings/native.mts], composed of the host ([Host]), the
    sessions and the wake hub ([Sessions]), a database ([Transact]) and the batch
    loop of [Backend].

    The database is any [database] over the store [D]; the native engine is a
    parameter that is given the host's callback.  An operation of a transaction
    works on the whole backend, so what it does while it runs -- a nested
    [publish], a subscription -- is visible.  Diagnostics are in [Diagnostics]. *)
From S2P Require Import Prelude Once Text Json Drivers Transact Effects Streams Sessions Backend Host Http.
Open Scope Z_scope.
Open Scope axton_scope.

(** ** The state of a backend *)
Record backend (D : Type) := Backend_ {
  b_store : D;                                   (* the database and the application *)
  b_ready : initialization;                      (* [initializing] *)
  b_serving : list nat;                          (* the keys of [sessions] *)
  b_hub : hub;                                   (* [wakes] *)
  b_queued : list nat;                           (* the wakes queued as microtasks *)
  b_errors : list exn }.                         (* what [onError] was told *)
Arguments Backend_ {D}.
Arguments b_store {D}.
Arguments b_ready {D}.
Arguments b_serving {D}.
Arguments b_hub {D}.
Arguments b_queued {D}.
Arguments b_errors {D}.

Definition storeLens {D} : lens (backend D) D :=
  Lens b_store (λ d b, Backend_ d (b_ready b) (b_serving b) (b_hub b) (b_queued b) (b_errors b)).
#[export] Instance backendSlot {D} : Slot (backend D).
Proof.
  by refine {| slot := b_ready;
    setSlot i b := Backend_ (b_store b) i (b_serving b) (b_hub b) (b_queued b) (b_errors b) |}.
Defined.
Definition set_serving {D} (l : list nat) (b : backend D) : backend D :=
  Backend_ (b_store b) (b_ready b) l (b_hub b) (b_queued b) (b_errors b).
Definition set_hub {D} (h : hub) (b : backend D) : backend D :=
  Backend_ (b_store b) (b_ready b) (b_serving b) h (b_queued b) (b_errors b).
Definition report {D} (l : list exn) (b : backend D) : backend D :=
  Backend_ (b_store b) (b_ready b) (b_serving b) (b_hub b) (b_queued b) (b_errors b ++ l).
(** [wakes.notify(streams)] *)
Definition notifyCommitted {D} (streams : list string) (b : backend D) : backend D :=
  Backend_ (b_store b) (b_ready b) (b_serving b) (b_hub b) (b_queued b ++ notify streams (b_hub b)) (b_errors b).
Definition onCommitted {D} (stream : string) (wake : nat) (b : backend D) : backend D * nat :=
  let '(h, set) := subscribe stream wake (b_hub b) in (set_hub h b, set).
Definition closeLive {D} (b : backend D) : backend D := set_hub (clear (b_hub b)) b.

(** ** The native engine *)
Inductive native_call :=
| ProcessBatchGroup (owner frozen : string) (ordinal length : Z)
| ProcessBatchMember (owner frozen : string) (ordinal : Z)
| ProcessRead05 (owner request : string)
| ProcessDelivery05 (owner request : string)
| ProcessLive05 (owner request : string)
| Handshake05 (owner request : string)
| ProcessMaterialization05 (owner request : string)
| NegotiateLive (owner request : string)
| SettleExternal05 (settlement : string).
(** The addon: which functions it has, and what they answer.  A function that
    calls back is given the host of its transaction. *)
Record native (W : Type) := Native_ {
  n_has : native_call → bool;
  n_call : native_call → (string → io W (option string)) → io W string;
  n_validateMutationBatch : option (string → result string);
  n_encodeBatchAcknowledgement : option (string → list string → result string);
  n_liveEvent : nat → string → result string;
  n_liveClose : nat → result unit }.
Arguments Native_ {W}.
Arguments n_has {W}.
Arguments n_call {W}.
Arguments n_validateMutationBatch {W}.
Arguments n_encodeBatchAcknowledgement {W}.
Arguments n_liveEvent {W}.
Arguments n_liveClose {W}.

(** [typedNative]: every failure of the addon surfaces as an [EngineError]. *)
Definition typedResult {R} (r : result R) : result R := match r with Ok a => Ok a | Throw e => Throw (engineError e) end.
Definition typedNative {W} (n : native W) : native W :=
  Native_ (n_has n)
    (λ c callback, catch (n_call n c callback) (λ e, throw (engineError e)))
    ((λ f request, typedResult (f request)) <$> n_validateMutationBatch n)
    ((λ f request results, typedResult (f request results)) <$> n_encodeBatchAcknowledgement n)
    (λ handle event, typedResult (n_liveEvent n handle event))
    (λ handle, typedResult (n_liveClose n handle)).

Section server.
Context {D : Type}.
Abbreviation world := (world (A := backend D)).
Variable data : database D.
(** The tables, hooks and functions of [HostDependencies], without the storage. *)
Variable application : dependencies (A := backend D).
Variable addon : native world.
(** The settlement of a loader hook, which the host starts itself. *)
Variable settleHook : nat → string → io world unit.
(** What another caller's initialization settles with, for one that finds it running. *)
Variable join : io (backend D) unit.
(** The host callbacks an operation left running, until none is. *)
Variable drain : nat → world → world.

Definition loadedNative : native world := typedNative addon.
(** [native.f!(...)]: a function the addon lacks is not a function. *)
Definition callNative (c : native_call) (callback : string → io world (option string)) : io world string :=
  if n_has loadedNative c then n_call loadedNative c callback else throw (TypeError "not a function").

(** *** [host]: [createHost], whose storage is [database.persistence(tx)] *)
Definition hostDependencies (tx : nat) : dependencies (A := backend D) :=
  Dependencies (d_groupSize application) (d_records application) (d_actions application)
    (d_handlers application) (d_loaders application) (d_readModels application) (d_schemaModels application)
    (mutationResultGroups data) (d_hooks application) (d_otherDate application)
    (d_translateRejection application) (d_isRetryable application) (d_handler application)
    (d_loader application) (d_hook application) (d_bootstrap application) (d_authorize application)
    (λ request, within storeLens (db_call data tx request)).
Definition host (tx : nat) : string → io world (option string) := Host.host (hostDependencies tx) (settleHook tx).

(** *** [bound] *)
Definition bound {R} (tx : nat) (operation : io world R) : io (backend D) (R * list string) := λ b,
  match bind_ tx (b_serving b) with
  | Throw e => (Throw e, b)
  | Ok serving =>
      let '(outcome, w1) := operation (World newSession (set_serving serving b) [] []) in
      let w2 := drain tx w1 in
      (boundResult (w_session w1) (w_session w2) outcome,
       report (w_errors w2) (set_serving (unbind tx (b_serving (w_app w2))) (w_app w2)))
  end.

(** *** [initialize], [ready] and [run] *)
Definition initialize (tx : option nat) : io (backend D) unit :=
  once (match db_initialize data with Some f => within storeLens (f tx) | None => mret tt end) join.
Definition ready : io (backend D) unit := initialize None.
(** The database's body: [committed] is the variable of [run] it assigns. *)
Definition runBody {R} (operation : nat → io world R) (tx : nat) : io (backend D * list string) R := λ '(b, committed),
  match bound tx (operation tx) b with
  | (Ok (r, published), b) => (Ok r, (b, published))
  | (Throw e, b) => (Throw e, (b, committed))
  end.
Definition bodyLens : lens (backend D * list string) D :=
  Lens (λ s, b_store s.1) (λ d s, (update storeLens d s.1, s.2)).
(** The transaction, and the wakes that follow its commit. *)
Definition committedRun {R} (operation : nat → io world R) : io (backend D) R := λ b,
  match @transaction D (db_transactor data) _ _ bodyLens (runBody operation) (b, []) with
  | (Ok r, (b, committed)) => (Ok r, notifyCommitted committed b)
  | (Throw e, (b, _)) => (Throw e, b)
  end.
Definition run {R} (operation : nat → io world R) : io (backend D) R := _ ← ready; committedRun operation.

(** *** [settle], [transaction] and [publish] *)
Definition settleBody (tx : nat) (body : app_function (A := backend D)) : io world value :=
  settle (hostDependencies tx)
    (λ settlement, _ ← callNative (SettleExternal05 settlement) (host tx); mret tt) body.
Definition runInTransaction (body : app_function (A := backend D)) : io (backend D) value :=
  run (λ tx, settleBody tx body).
(** The Streams the answered closure notifies. *)
Definition publish (tx : nat) (body : app_function (A := backend D)) : io (backend D) (list string) :=
  _ ← initialize (Some tx);
  '(_, published) ← bound tx (settleBody tx body);
  mret published.

(** *** The routes *)
Definition text (request : string + list Z) : result string :=
  match request with inl s => Ok s | inr bytes => decodeText bytes end.
(** A route whose whole work is one native call in a transaction. *)
Definition route (call : string → native_call) (request : string + list Z) : io (backend D) string :=
  run (λ tx, request ← check (text request); callNative (call request) (host tx)).
Definition action (owner : string) := route (ProcessRead05 owner).
Definition fetch (owner : string) := route (ProcessRead05 owner).
Definition pull (owner : string) := route (ProcessDelivery05 owner).
Definition pull05Live (owner request : string) := route (ProcessLive05 owner) (inl request).
Definition handshake (owner : string) := route (Handshake05 owner).
Definition materialize (owner : string) := route (ProcessMaterialization05 owner).
Definition negotiateLive (owner : string) (request : string + list Z) : io (backend D) value :=
  answer ← route (NegotiateLive owner) request; check (parse answer).
Definition liveEvent (handle : nat) (event : value) : result value :=
  event ← stringify event;
  answer ← n_liveEvent loadedNative handle (default EmptyString event); parse answer.

Definition liveClose (handle : nat) : result unit := n_liveClose loadedNative handle.

(** [JSON.parse(frozen).mutations.length], compared with the ordinals: a string
    has a length in UTF-16 units; the [length] of any other object is read as an
    integer, and no ordinal is below what is not a number. *)
Definition stringLength (s : string) : Z :=
  foldr (λ cp n, (if cp <? 0x10000 then 1 else 2) + n) 0 (codePoints s).
Definition memberCount (frozen : string) : result Z :=
  parsed ← parse frozen;
  mutations ← dot parsed "mutations";
  if nullish mutations then Throw (TypeError "Cannot read properties")
  else Ok (match mutations with
           | VArr l => Z.of_nat (length l)
           | VStr s => stringLength s
           | VObj _ => match toNumber (get mutations "length") with NInt n => n | _ => 0 end
           | _ => 0
           end).
Definition pushRoute (owner : string) (request : string + list Z) : io (backend D) string :=
  wire ← check (text request);
  match n_validateMutationBatch loadedNative, n_encodeBatchAcknowledgement loadedNative with
  | Some validate, Some encode =>
      guard! n_has loadedNative (ProcessBatchMember owner EmptyString 0)
      else throw (Error "protocol05 native Batch support unavailable");
      frozen ← check (validate wire);
      count ← check (memberCount frozen);
      results ← push
        (λ ordinal length,
           answer ← run (λ tx, callNative (ProcessBatchGroup owner frozen ordinal length) (host tx));
           check (parse answer))
        (λ ordinal, run (λ tx, callNative (ProcessBatchMember owner frozen ordinal) (host tx)))
        (d_groupSize application) count;
      check (encode frozen results)
  | _, _ => throw (Error "protocol05 native Batch support unavailable")
  end.

(** *** The backend behind the HTTP handler *)
Definition serveRoute (r : Http.route) (owner : string) (bytes : list Z) : io (backend D) string :=
  match r with
  | Handshake => handshake owner (inr bytes)
  | Materialize => materialize owner (inr bytes)
  | Mutations => pushRoute owner (inr bytes)
  | Actions => action owner (inr bytes)
  | Fetch => fetch owner (inr bytes)
  | Pull => pull owner (inr bytes)
  end.
End server.
