(* ===== verification/ServerFacts.v ===== *)
(** What a backend guarantees of every operation: its transactions are bound and
    released, an acknowledged one was committed with nothing failed or left
    running, and only its Streams are woken. *)
From S2P Require Import Prelude Once Text Json Database Publication Drivers Transact Adapter AdapterFacts Effects Streams Sessions Backend Host Http HttpFacts Server.
Open Scope Z_scope.
Open Scope axton_scope.

(** ** The host changes the application only through the application's functions *)
Section host.
Context {A : Type} (P : A → Prop).
Record calls_keep (deps : dependencies (A := A)) : Prop := {
  keep_handler f call a : P a → P (d_handler deps f call a).2;
  keep_loader f call a : P a → P (d_loader deps f call a).2;
  keep_hook f call a : P a → P (d_hook deps f call a).2;
  keep_bootstrap f call a : d_bootstrap deps = Some f → P a → P (f call a).2;
  keep_authorize f owner stream a : d_authorize deps = Some f → P a → P (f owner stream a).2 }.
Variable deps : dependencies (A := A).
Variable settleExternal : string → io (world (A := A)) unit.
Hypothesis Hcalls : calls_keep deps.
Hypothesis Hstorage : ∀ request a, P a → P (d_storage deps request a).2.
Definition keeps_app {R} (m : io (world (A := A)) R) : Prop := preserves (λ w, P (w_app w)) m.
Hypothesis Hsettle : ∀ s, keeps_app (settleExternal s).

Lemma keeps_withApp {R} (m : A → result R * A) : (∀ a, P a → P (m a).2) → keeps_app (withApp m).
Proof. intros Hm w Hw. unfold withApp. specialize (Hm _ Hw). by destruct (m (w_app w)). Qed.
Lemma keeps_withSession f : keeps_app (withSession f).
Proof. by intros w Hw. Qed.
Lemma keeps_onError e : keeps_app (Host.onError (A := A) e).
Proof. by intros w Hw. Qed.
Lemma keeps_withCollector {R} c current f (answer : value → declarer → result R) :
  (∀ a, P a → P (f a).2) → keeps_app (withCollector deps c current f answer).
Proof.
  intros Hf w Hw. unfold withCollector.
  destruct (match current with Some names => _ | None => _ end) as [[?|e] c1]; [|done].
  specialize (Hf _ Hw). by destruct (f (w_app w)) as [[calls r] a1].
Qed.
Lemma keeps_catch {R} (m : io (world (A := A)) R) h : keeps_app m → (∀ e, keeps_app (h e)) → keeps_app (catch m h).
Proof. apply preserves_catch. Qed.
Lemma keeps_fmap {R Q} (f : R → Q) (m : io (world (A := A)) R) : keeps_app m → keeps_app (f <$> m).
Proof. intros Hm w Hw. specialize (Hm w Hw). unfold fmap, io_fmap. by destruct (m w). Qed.
Ltac keep := repeat first
  [ apply preserves_ret | apply preserves_throw | apply preserves_check
  | apply keeps_withSession | apply keeps_onError | apply Hsettle
  | apply keeps_fmap | apply keeps_catch; [|intros ?]
  | apply preserves_bind; [|intros ?] | apply preserves_if | apply preserves_forEach; intros | case_match ].
Lemma keeps_answerRefusal e : keeps_app (answerRefusal deps e).
Proof. unfold answerRefusal, refuse. keep. Qed.
Lemma keeps_handleAction r : keeps_app (handleAction deps r).
Proof.
  unfold handleAction. apply preserves_bind; [apply keeps_withSession|intros _].
  case_match; [|apply preserves_throw]. case_match; [|apply preserves_throw].
  apply preserves_bind; [apply preserves_check|intros args].
  apply keeps_catch; [|intros; apply keeps_answerRefusal].
  apply keeps_withCollector. intros. by apply Hcalls.
Qed.
Lemma keeps_handleBootstrap r : keeps_app (handleBootstrap deps r).
Proof.
  unfold handleBootstrap. destruct (d_bootstrap deps) as [f|] eqn:Hf; [|by intros w Hw].
  apply keeps_withCollector. intros. by eapply keep_bootstrap.
Qed.
Lemma keeps_readRows r f call : keeps_app (readRows deps settleExternal r f call).
Proof.
  unfold readRows, prepare. apply preserves_bind.
  - destruct (if isString _ _ then _ else _); [|apply preserves_ret].
    apply preserves_bind; [apply keeps_withCollector; intros; by apply Hcalls|intros].
    apply preserves_bind; [apply preserves_check|intros; apply Hsettle].
  - intros _. apply preserves_if; [apply preserves_ret|]. apply keeps_withApp. intros. by apply Hcalls.
Qed.
Lemma keeps_load r : keeps_app (load deps settleExternal r).
Proof.
  unfold load. case_match; [|apply preserves_throw]. apply preserves_bind; [apply preserves_check|intros ids].
  apply preserves_bind.
  - apply keeps_catch; [apply keeps_fmap, keeps_readRows|intros; apply keeps_fmap, keeps_answerRefusal].
  - intros [rows|refused]; [|apply preserves_check]. keep.
Qed.
Lemma keeps_persist r : keeps_app (persist deps r).
Proof.
  assert (∀ v, keeps_app (withApp (d_storage deps v))) as Hs by (intros; apply keeps_withApp; auto).
  unfold persist, touchDelta. apply preserves_bind; [by intros w Hw|intros scope].
  apply preserves_bind; [|intros; keep].
  apply preserves_if; [|apply Hs]. case_match; try apply preserves_throw.
  apply preserves_bind; [|intros; apply preserves_ret]. apply preserves_forEach. intros.
  apply preserves_bind; [apply Hs|intros; apply preserves_ret].
Qed.
Lemma keeps_answerRequest r : keeps_app (answerRequest deps settleExternal r).
Proof.
  unfold answerRequest. apply preserves_bind; [apply keeps_withSession|intros _].
  apply preserves_bind; [apply preserves_if; [apply preserves_check|apply preserves_ret]|intros _].
  repeat (apply preserves_if).
  - apply preserves_bind; [|intros; apply preserves_check]. unfold admitOwner.
    destruct (d_authorize deps) as [f|] eqn:Hf; [|apply preserves_ret].
    apply preserves_bind; [apply preserves_check|intros]. apply keeps_withApp. intros. by eapply keep_authorize.
  - apply preserves_bind; [apply keeps_handleBootstrap|intros; apply preserves_check].
  - apply preserves_bind; [apply keeps_handleAction|intros; apply preserves_check].
  - apply keeps_load.
  - apply preserves_bind; [apply keeps_persist|intros; apply preserves_check].
Qed.
Lemma keeps_tracked {R} (m : io (world (A := A)) R) : keeps_app m → keeps_app (tracked m).
Proof.
  intros Hm w Hw. unfold tracked. destruct (track (w_session w)) as [s|e]; [|done].
  specialize (Hm (set_session s w) Hw). by destruct (m (set_session s w)).
Qed.
Lemma keeps_host raw : keeps_app (Host.host deps settleExternal raw).
Proof.
  unfold Host.host. apply preserves_bind; [apply preserves_check|intros].
  apply preserves_bind; [apply preserves_check|intros]. apply preserves_if; [apply preserves_ret|].
  apply preserves_bind; [repeat (apply preserves_if); auto with axton|intros]. apply keeps_tracked, keeps_answerRequest.
Qed.
Lemma keeps_settle body : (∀ a, P a → P (body a).2) → keeps_app (settle deps settleExternal body).
Proof.
  intros Hb. unfold settle. apply preserves_bind; [by apply keeps_withCollector|intros].
  apply preserves_bind; [|intros; apply preserves_ret]. apply keeps_tracked. keep.
Qed.
End host.

(** ** The HTTP handler changes the application only through its hooks *)
Section http.
Context {A : Type} (P : A → Prop).
Record hooks_keep (h : hooks (A := A)) : Prop := {
  keep_authenticate r a : P a → P (authenticate_ h r a).2;
  keep_admit f r owner a : admit_ h = Some f → P a → P (f r owner a).2;
  keep_backend p owner bytes a : P a → P (Http.backend h p owner bytes a).2 }.
Variable h : hooks (A := A).
Hypothesis Hh : hooks_keep h.
Abbreviation keeps := (preserves (λ w : web (A := A), P (app w))).
Lemma keeps_applied {R} (m : A → result R * A) : (∀ a, P a → P (m a).2) → keeps (applied m).
Proof. intros Hm w Hw. unfold applied. specialize (Hm _ Hw). by destruct (m (app w)). Qed.
Lemma keeps_answer r x : keeps (answer r x).
Proof. intros w Hw. unfold answer. by destruct (gone r). Qed.
Lemma keeps_admission r : keeps (createAdmission h r).
Proof.
  unfold createAdmission, authenticate. apply preserves_bind.
  - apply preserves_bind; [apply keeps_applied; intros; by apply Hh|intros; apply preserves_ret].
  - intros owner. destruct (admit_ h) as [f|] eqn:Hf; [|apply preserves_ret].
    apply preserves_bind; [apply keeps_applied; intros; by eapply keep_admit|intros].
    apply preserves_bind; [apply preserves_check|intros; apply preserves_ret].
Qed.
Lemma keeps_callBackend p owner bytes : keeps (callBackend h p owner bytes).
Proof.
  intros w Hw. unfold callBackend. pose proof (keep_backend _ Hh p owner bytes _ Hw) as H.
  by destruct (Http.backend h p owner bytes (app w)).
Qed.
Lemma keeps_serve r p : keeps (serve h r p).
Proof.
  unfold serve, send. apply preserves_bind; [apply keeps_admission|intros [owner refused]].
  destruct refused as [[]|]; [apply keeps_answer|]. destruct owner as [owner|]; [|apply keeps_answer].
  apply preserves_if; [apply keeps_answer|]. apply preserves_bind; [apply preserves_check|intros [bytes|]].
  - destruct (parsedBody bytes) as [[]|]; try apply keeps_answer.
    apply preserves_bind; [apply keeps_callBackend|intros; apply keeps_answer].
  - apply keeps_answer.
Qed.
Lemma keeps_httpHandler r : keeps (httpHandler h r).
Proof.
  assert (∀ e, keeps (Http.onError (A := A) e)) as He by (by intros e w Hw).
  unfold httpHandler, send. case_match; [|apply keeps_answer].
  apply preserves_if; [apply keeps_answer|]. apply preserves_catch; [apply keeps_serve|].
  intros e. unfold answerError, send. destruct e; try (apply preserves_bind; [apply He|intros; apply keeps_answer]).
  destruct (fieldOf _ _); [apply keeps_answer|]. apply preserves_bind; [apply He|intros; apply keeps_answer].
Qed.
End http.

(** ** The framework's own state through every operation *)
Section server.
Context {D : Type}.
Abbreviation world := (Host.world (A := backend D)).
(** Between two operations, and around one: the same transactions are being
    served, and no queued wake is lost. *)
Record frame (b0 b : backend D) : Prop := {
  frame_serving : b_serving b = b_serving b0;
  frame_queued : b_queued b0 `prefix_of` b_queued b }.
#[export] Instance frame_preorder : PreOrder frame.
Proof.
  split; [by split|]. intros a b c [H1 H2] [H3 H4]. split; [congruence|by etrans].
Qed.

Variable data : database D.
Variable application : dependencies (A := backend D).
Variable addon : native world.
Variable settleHook : nat → string → io world unit.
Variable join : io (backend D) unit.
Variable drain : nat → world → world.

(** The application, the addon, a loader hook's settlement, the callers that share
    an initialization and the callbacks left running keep [P]: the addon acts on
    the backend only through the host it is given. *)
Record obeys (P : backend D → Prop) : Prop := {
  ob_application : calls_keep P application;
  ob_addon c callback : (∀ raw, keeps_app P (callback raw)) → keeps_app P (n_call addon c callback);
  ob_hook tx s : keeps_app P (settleHook tx s);
  ob_join : preserves P join;
  ob_drain tx w : P (w_app w) → P (w_app (drain tx w)) }.
(** They leave the framework's own state to the framework's operations, which
    they may call. *)
Definition obedient : Prop := ∀ b0, obeys (frame b0).

Lemma callNative_keeps P c callback : obeys P →
  (∀ raw, keeps_app P (callback raw)) → keeps_app P (callNative addon c callback).
Proof.
  intros Hob Hc. unfold callNative, loadedNative, typedNative. cbn. apply preserves_if; [|apply preserves_throw].
  apply preserves_catch; [by apply (ob_addon P Hob)|intros; apply preserves_throw].
Qed.
Lemma pushLoop_preserves {S} (P : S → Prop) runGroup runMember fuel size count ordinal results :
  (∀ o l, preserves P (runGroup o l)) → (∀ o, preserves P (runMember o)) →
  preserves P (pushLoop runGroup runMember fuel size count ordinal results).
Proof.
  intros Hg Hm. revert ordinal results. induction fuel as [|fuel IH]; intros o results; cbn [pushLoop];
    [apply preserves_ret|]. apply preserves_if; [apply preserves_ret|]. apply preserves_if; cbv zeta.
  - apply preserves_bind; [done|intros]. apply preserves_bind; [apply preserves_check|intros; apply IH].
  - apply preserves_bind; [done|intros; apply IH].
Qed.
(** A route keeps what a transaction around one call of the engine keeps. *)
Lemma serveRoute_keeps P r owner bytes :
  (∀ x (c : string → native_call), preserves P (run data join drain
     (λ tx, request ← check x; callNative addon (c request) (Server.host data application settleHook tx)))) →
  preserves P (serveRoute data application addon settleHook join drain r owner bytes).
Proof.
  intros Hrun. destruct r; try apply Hrun. unfold serveRoute, pushRoute.
  apply preserves_bind; [apply preserves_check|intros wire].
  destruct (n_validateMutationBatch _); [|apply preserves_throw].
  destruct (n_encodeBatchAcknowledgement _); [|apply preserves_throw].
  apply preserves_if; [|apply preserves_throw]. apply preserves_bind; [apply preserves_check|intros frozen].
  apply preserves_bind; [apply preserves_check|intros count].
  apply preserves_bind; [|intros; apply preserves_check]. apply pushLoop_preserves; intros.
  - apply preserves_bind; [|intros; apply preserves_check].
    exact (Hrun (Ok EmptyString) (λ _, ProcessBatchGroup owner frozen o l)).
  - exact (Hrun (Ok EmptyString) (λ _, ProcessBatchMember owner frozen o)).
Qed.

Hypothesis Hob : obedient.

Lemma frame_within {R} b0 (m : io D R) : preserves (frame b0) (within storeLens m).
Proof. apply within_preserves. intros d b [? ?]. by split. Qed.
Lemma host_frame b0 tx raw : keeps_app (frame b0) (Server.host data application settleHook tx raw).
Proof.
  apply keeps_host.
  - destruct (ob_application _ (Hob b0)). by split.
  - intros request a Ha. exact (frame_within b0 _ a Ha).
  - intros s. apply (ob_hook _ (Hob b0)).
Qed.
Lemma unbind_fresh tx l : tx ∉ l → unbind tx (tx :: l) = l.
Proof.
  intros Hl. unfold unbind. rewrite filter_cons_False by (intros H; by apply H).
  induction l as [|u l IH]; [done|]. rewrite filter_cons_True by set_solver. rewrite IH; [done|set_solver].
Qed.
Lemma bound_frame {R} b0 tx (operation : io world R) :
  (∀ b1, keeps_app (frame b1) operation) → preserves (frame b0) (bound drain tx operation).
Proof.
  intros Hop b Hb. unfold bound, bind_. case_decide as Htx; [done|].
  set (b1 := set_serving (tx :: b_serving b) b).
  pose proof (Hop b1 (World newSession b1 [] []) ltac:(done)) as H1.
  destruct (operation (World newSession b1 [] [])) as [outcome w1].
  apply (ob_drain _ (Hob b1) tx) in H1. cbn in H1. destruct H1 as [Hs Hq], Hb as [Hs0 Hq0]. cbn in Hs, Hq.
  split; cbn.
  - by rewrite Hs, unbind_fresh.
  - by etrans.
Qed.
Lemma initialize_frame b0 tx : preserves (frame b0) (initialize data join tx).
Proof.
  apply once_preserves; [by intros i b [? ?]| |apply (ob_join _ (Hob b0))].
  destruct (db_initialize data); [apply frame_within|apply preserves_ret].
Qed.
Lemma runBody_frame {R} b0 (operation : nat → io world R) tx :
  (∀ b1, keeps_app (frame b1) (operation tx)) →
  preserves (λ s : backend D * list string, frame b0 s.1) (runBody drain operation tx).
Proof.
  intros Hop [b c] Hb. unfold runBody. pose proof (bound_frame b0 tx _ Hop b Hb) as H.
  by destruct (bound drain tx (operation tx) b) as [[[r published]|e] b1].
Qed.
Lemma run_frame {R} b0 (operation : nat → io world R) :
  (∀ tx b1, keeps_app (frame b1) (operation tx)) → preserves (frame b0) (run data join drain operation).
Proof.
  intros Hop. unfold run. apply preserves_bind; [apply initialize_frame|intros _]. intros b Hb.
  unfold committedRun.
  pose proof (@transaction_keeps D (db_transactor data) _ _ bodyLens (runBody drain operation)
    (λ s, frame b0 s.1)) as H.
  specialize (H ltac:(intros d s [? ?]; by split) (λ tx, runBody_frame b0 operation tx (Hop tx)) (b, []) Hb).
  destruct (transaction _ _ _) as [[r|e] [b1 c]]; [|done]. cbn in *. destruct H as [H1 H2].
  split; [done|]. cbn. by apply prefix_app_r.
Qed.
Lemma settleBody_frame b1 tx body : (∀ b0 b, frame b0 b → frame b0 (body b).2) →
  keeps_app (frame b1) (settleBody data application addon settleHook tx body).
Proof.
  intros Hb. apply keeps_settle; [|by apply Hb]. intros s.
  apply preserves_bind; [apply callNative_keeps; [done|apply host_frame]|intros; apply preserves_ret].
Qed.
Lemma publish_frame b0 tx body : (∀ b0 b, frame b0 b → frame b0 (body b).2) →
  preserves (frame b0) (publish data application addon settleHook join drain tx body).
Proof.
  intros Hb. unfold publish. apply preserves_bind; [apply initialize_frame|intros _].
  apply preserves_bind; [|intros []; apply preserves_ret]. apply bound_frame. intros. by apply settleBody_frame.
Qed.
Lemma serveRoute_frame b0 r owner bytes :
  preserves (frame b0) (serveRoute data application addon settleHook join drain r owner bytes).
Proof.
  apply serveRoute_keeps. intros x c. apply run_frame. intros tx b1.
  apply preserves_bind; [apply preserves_check|intros]. apply callNative_keeps; [done|apply host_frame].
Qed.
End server.

(** ** What an acknowledged operation went through *)
Section committed.
Context {D : Type}.
Abbreviation world := (Host.world (A := backend D)).
Variable data : database D.
Variable application : dependencies (A := backend D).
Variable addon : native world.
Variable settleHook : nat → string → io world unit.
Variable join : io (backend D) unit.
Variable drain : nat → world → world.

(** The operation [m] of the transaction [tx] served from [b]: it answered [r],
    left no callback running, none of its tracked calls failed, and touched
    [published]. *)
Record completed {R} (tx : nat) (m : io world R) (b : backend D) (r : R) (published : list string) (w : world) : Prop := {
  completed_fresh : tx ∉ b_serving b;
  completed_run : ∃ w1, m (World newSession (set_serving (tx :: b_serving b) b) [] []) = (Ok r, w1) ∧
    pending (w_session w1) = O ∧ w = drain tx w1;
  completed_clean : ∃ v, failed (w_session w) = inl v ∧ v ≠ VNull;
  completed_published : published = touched (w_session w) }.
Definition released (tx : nat) (w : world) : backend D :=
  report (w_errors w) (set_serving (unbind tx (b_serving (w_app w))) (w_app w)).

Lemma bound_completed {R} tx (m : io world R) b r published b' :
  bound drain tx m b = (Ok (r, published), b') →
  ∃ w, completed tx m b r published w ∧ b' = released tx w.
Proof.
  unfold bound, bind_. case_decide as Htx; [done|].
  destruct (m (World newSession (set_serving (tx :: b_serving b) b) [] [])) as [outcome w1] eqn:Hm.
  intros [= Hr <-]. exists (drain tx w1). split; [|done].
  unfold boundResult in Hr. destruct outcome as [r0|e]; [|by destruct (failed _)].
  unfold assertCommittable in Hr. destruct (failed (w_session (drain tx w1))) as [v|e] eqn:Hf; [|done].
  destruct (0 <? pending (w_session w1))%nat eqn:Hp; [by destruct v|]. apply Nat.ltb_ge in Hp.
  destruct v; try done; destruct (closed _); try done; injection Hr as -> <-;
    (split; [done|exists w1; split_and!; [done|lia|done]|by eexists|done]).
Qed.


(** C12: [publish] settles exactly what its body declared, before it resolves.
    The database was initialized in the caller's transaction, which nobody was
    serving; the body ran once; its handles are closed; the engine received, as one
    tracked call, the settlement of the declarations its calls were accepted for;
    and the answered closure wakes the Streams that settlement touched. *)
Theorem publish_settles tx body b published b' :
  publish data application addon settleHook join drain tx body b = (Ok published, b') →
  ∃ b1 calls v a c text w1,
    initialize data join (Some tx) b = (Ok tt, b1) ∧ (tx ∉ b_serving b1) ∧
    body (set_serving (tx :: b_serving b1) b1) = (calls, Ok v, a) ∧
    c = declareAll (d_records application) calls newWriting ∧
    stringify (VObj (settlementFields (declaredBy c))) = Ok text ∧
    tracked (_ ← callNative addon (SettleExternal05 (default EmptyString text))
                   (Server.host data application settleHook tx); mret tt)
      (World newSession a [] [closeDeclarer (d_records application) c]) = (Ok tt, w1) ∧
    pending (w_session w1) = O ∧ published = touched (w_session (drain tx w1)) ∧
    b' = released tx (drain tx w1).
Proof.
  unfold publish. intros H. apply io_bind_inv in H as [([] & b1 & Hinit & H)|(e & _ & H)]; [|done].
  apply io_bind_inv in H as [([r0 p0] & b2 & Hb & H)|(e & _ & H)]; [|done].
  unfold mret, io_ret in H. injection H as -> ->.
  apply bound_completed in Hb as (w & [Hfresh (w1 & Hm & Hp & ->) Hclean Hpub] & ->).
  unfold settleBody, settle in Hm. apply io_bind_inv in Hm as [([v intents] & w2 & Hc & Hm)|(e & _ & Hm)]; [|done].
  apply io_bind_inv in Hm as [([] & w3 & Ht & Hm)|(e & _ & Hm)]; [|done].
  unfold mret, io_ret in Hm. injection Hm as <- <-.
  unfold withCollector in Hc. cbn [w_app] in Hc.
  destruct (body _) as [[calls [v0|e]] a] eqn:Hbody; [|done]. injection Hc as <- <- <-.
  cbn [snd] in Ht. 
  destruct (stringify (VObj (settlementFields (declaredBy
    (declareAll (d_records application) calls newWriting))))) as [text|e] eqn:Htext.
  - exists b1, calls, v0, a, (declareAll (d_records application) calls newWriting), text, w3.
    by split_and!.
  - discriminate Ht.
Qed.
End committed.

(** C13: no HTTP request leaves a transaction bound or loses a wake.  Whatever the
    route, the engine and the application answer or throw -- and even when their
    calls start transactions and publications of their own -- the transactions
    being served after the request are those served before it, and the wakes
    queued before it are still queued. *)
Theorem http_releases {D} (data : database D) application addon settleHook join drain authenticate admits limit r w :
  obedient application addon settleHook join drain →
  (∀ b0 b, frame b0 b → frame b0 (authenticate r b).2) →
  (∀ f owner b0 b, admits = Some f → frame b0 b → frame b0 (f r owner b).2) →
  let hooks := Hooks (λ _, authenticate r) ((λ f _, f r) <$> admits)
                 (serveRoute data application addon settleHook join drain) limit in
  b_serving (app (httpHandler hooks r w).2) = b_serving (app w) ∧
  b_queued (app w) `prefix_of` b_queued (app (httpHandler hooks r w).2).
Proof.
  intros Hob Ha Hf hooks.
  assert (frame (app w) (app (httpHandler hooks r w).2)) as [? ?]; [|done].
  apply (keeps_httpHandler (frame (app w)) hooks); [|done]. split; cbn.
  - intros r0 b Hb. by apply Ha.
  - intros f r0 owner b Hadmit Hb. destruct admits as [f0|]; [|done]. cbn in Hadmit.
    injection Hadmit as <-. by apply (Hf f0).
  - intros p owner bytes b Hb. by apply serveRoute_frame.
Qed.

(** ** A backend over the PostgreSQL adapter

    One subscriber waits for the Stream "s"; the engine answers every call by
    asking its host for one publication to that Stream. *)
Definition demo_store : adapter server := newAdapter (Server_ demo_identities 0 ∅ false 1700000000000 0).
Definition demo_data : database (adapter server) :=
  persistence demo_driver (serverQuery (H := numberColumns)) (throw (Error "joined")).
Abbreviation demo_world := (Host.world (A := backend (adapter server))).
Definition demo_application : dependencies (A := backend (adapter server)) := Dependencies 1
  (DeclarationsOf [Entry "Todo" "todo" [("id", CUuid)]] None) [] [] [] [] [] true [] (λ _, None) (λ _, None) (λ _, false)
  (λ _ _ b, ([], Ok VUndef, b)) (λ _ _ b, (Ok (VArr []), b)) (λ _ _ b, ([], Ok VUndef, b)) None None
  (λ _ b, (Ok VNull, b)).
Definition demo_publication_text : string :=
  match stringify demo_publish with Ok (Some text) => text | _ => EmptyString end.
Definition demo_addon : native demo_world :=
  Native_ (λ _, true) (λ _ callback, _ ← callback demo_publication_text; mret "{}"%string) None None (λ _ _, Ok "[]"%string) (λ _, Ok tt).
Definition demo_hook (tx : nat) (settlement : string) : io demo_world unit := mret tt.
Definition demo_join : io (backend (adapter server)) unit := throw (Error "joined").
Definition demo_drain (tx : nat) (w : demo_world) : demo_world := w.
Definition demo_backend : backend (adapter server) :=
  (onCommitted "s" 5 (Backend_ demo_store Idle [] newHub [] [])).1.
Lemma demo_obedient : obedient demo_application demo_addon demo_hook demo_join demo_drain.
Proof.
  intros b0. split.
  - by split.
  - intros c callback Hc. cbn. apply preserves_bind; [apply Hc|intros; apply preserves_ret].
  - intros tx s w Hw. exact Hw.
  - intros b Hb. exact Hb.
  - intros tx w Hw. exact Hw.
Defined.
Definition demo_operation (tx : nat) : io demo_world string :=
  callNative demo_addon (ProcessRead05 "ann" "{}") (Server.host demo_data demo_application demo_hook tx).
(** A body that invalidates one record. *)
Definition demo_body : app_function (A := backend (adapter server)) := λ b,
  ([InvalidateCall None (VObj [("model", VStr "Todo"); ("identity", VObj [("id", VStr "0190a5b4-7c1e-7d10-8f00-0123456789ab")])])],
   Ok (VStr "done"), b).
Definition demo_open : backend (adapter server) :=
  (* the application opened a transaction on client 0 itself *)
  update storeLens (update toolLens (serverCommand 0 BEGIN (tool demo_store)).2 demo_store) demo_backend.
Lemma publish_settles_witness :
  ∃ b', publish demo_data demo_application demo_addon demo_hook demo_join demo_drain 0 demo_body demo_open = (Ok ["s"%string], b') ∧
    b_queued b' = [] ∧ b_queued (notifyCommitted ["s"%string] b') = [5%nat] ∧
    ∃ b1 calls v a c text w1,
      initialize demo_data demo_join (Some 0%nat) demo_open = (Ok tt, b1) ∧ (0%nat ∉ b_serving b1) ∧
      demo_body (set_serving (0%nat :: b_serving b1) b1) = (calls, Ok v, a) ∧
      c = declareAll (d_records demo_application) calls newWriting ∧
      stringify (VObj (settlementFields (declaredBy c))) = Ok text ∧
      tracked (_ ← callNative demo_addon (SettleExternal05 (default EmptyString text))
                     (Server.host demo_data demo_application demo_hook 0); mret tt)
        (World newSession a [] [closeDeclarer (d_records demo_application) c]) = (Ok tt, w1) ∧
      pending (w_session w1) = O ∧ ["s"%string] = touched (w_session (demo_drain 0 w1)) ∧
      b' = released 0 (demo_drain 0 w1).
Proof.
  eexists. split; [vm_compute; reflexivity|]. split; [reflexivity|]. split; [vm_compute; reflexivity|].
  apply (publish_settles demo_data demo_application demo_addon demo_hook demo_join demo_drain 0 demo_body demo_open).
  vm_compute. reflexivity.
Defined.
Definition demo_request : request :=
  Request (Some "/sync/actions"%string) "POST" [] [Ok [123; 125]] false.
Lemma http_releases_witness :
  let hooks := Hooks (λ _ b, (Ok (VStr "ann"), b)) ((λ f _, f demo_request) <$> None)
                 (serveRoute demo_data demo_application demo_addon demo_hook demo_join demo_drain) None in
  let w := Web demo_backend [] [] [] in
  (status <$> answers (httpHandler hooks demo_request w).2 = [200]) ∧
  b_serving (app (httpHandler hooks demo_request w).2) = [] ∧
  [] `prefix_of` b_queued (app (httpHandler hooks demo_request w).2).
Proof.
  split; [vm_compute; reflexivity|].
  apply (http_releases demo_data demo_application demo_addon demo_hook demo_join demo_drain
    (λ _ b, (Ok (VStr "ann"), b)) None None demo_request (Web demo_backend [] [] [])).
  - exact demo_obedient.
  - intros b0 b Hb. exact Hb.
  - intros f owner b0 b Hf. discriminate Hf.
Defined.
