(* ===== verification/EndToEnd.v ===== *)
(** A backend over its database, from the request of a client to the committed
    tables: the composition of the HTTP handler ([Http]), the backend ([Server]),
    the host ([Host]), the adapter ([Adapter]), a driver ([Transact]) and
    PostgreSQL ([AdapterFacts]).

    A database is described to the backend by what it [maintains]; the adapter
    over the [pg] driver is shown to maintain the namespace's invariant, and the
    backend to keep whatever its database maintains. *)
From S2P Require Import Prelude Once Text Json Database Wellformed Publication Drivers Transact Adapter AdapterFacts Effects Streams Sessions Backend Host Http HttpFacts Server ServerFacts.
Open Scope Z_scope.
Open Scope axton_scope.

(** * What a database promises of its store *)

(** A part that is read back as it was written. *)
Class Lawful {W S} (l : lens W S) : Prop := view_update s w : view l (update l s w) = s.
#[export] Instance storeLens_lawful {D} : Lawful (storeLens (D := D)).
Proof. done. Qed.
#[export] Instance bodyLens_lawful {D} : Lawful (bodyLens (D := D)).
Proof. done. Qed.
#[export] Instance toolLens_lawful {S} : Lawful (toolLens (S := S)).
Proof. done. Qed.
#[export] Instance compose_lawful {X W S} (k : lens X W) (l : lens W S) `{!Lawful k, !Lawful l} : Lawful (compose k l).
Proof. intros s x. cbn. by rewrite !view_update. Qed.

(** Initializing, answering a request and running a transaction keep [P], the
    transaction when its body does. *)
Class Maintains {D} (data : database D) (P : D → Prop) : Prop := {
  maintains_initialize f tx : db_initialize data = Some f → preserves P (f tx);
  maintains_call tx request : preserves P (db_call data tx request);
  maintains_transaction {W R} (l : lens W D) (body : nat → io W R) : Lawful l →
    (∀ tx, preserves (λ w, P (view l w)) (body tx)) →
    preserves (λ w, P (view l w)) (@transaction D (db_transactor data) W R l body) }.

(** The adapter over the [pg] driver maintains the well-formed namespace, whatever
    fails to serialize, rolls back or is retried. *)
Lemma postgres_maintains `{Columns} isRetryable retries join :
  preserves adapter_ok join →
  Maintains (persistence (postgres isRetryable retries) serverQuery join) adapter_ok.
Proof.
  intros Hj. split.
  - intros f tx [= <-]. by apply initialize_ok.
  - intros tx r. by apply persistenceCall_ok.
  - intros W R l body Hl Hb. cbn. apply driver_keeps; [done| |done].
    intros s w _ Hs. unfold compose. cbn. rewrite view_update. exact Hs.
Qed.

(** * The backend keeps what its database maintains *)
Section store.
Context {D : Type} (P : D → Prop).
Abbreviation world := (Host.world (A := backend D)).
Definition stored (b : backend D) : Prop := P (b_store b).
Variable data : database D.
Variable application : dependencies (A := backend D).
Variable addon : native world.
Variable settleHook : nat → string → io world unit.
Variable join : io (backend D) unit.
Variable drain : nat → world → world.
Hypothesis Hdata : Maintains data P.
Hypothesis Hob : obeys application addon settleHook join drain stored.

Lemma stored_within {R} (m : io D R) : preserves P m → preserves stored (within storeLens m).
Proof. intros Hm b Hb. specialize (Hm _ Hb). unfold within. cbn. by destruct (m (b_store b)). Qed.
Lemma stored_host tx raw : keeps_app stored (Server.host data application settleHook tx raw).
Proof.
  apply keeps_host.
  - destruct (ob_application _ _ _ _ _ _ Hob). by split.
  - intros request. apply stored_within, maintains_call.
  - intros s. by eapply ob_hook.
Qed.
Lemma stored_engine tx c : keeps_app stored (callNative addon c (Server.host data application settleHook tx)).
Proof. eapply callNative_keeps; [exact Hob|apply stored_host]. Qed.
Lemma stored_initialize tx : preserves stored (Server.initialize data join tx).
Proof.
  apply once_preserves; [done| |by eapply ob_join].
  destruct (db_initialize data) as [f|] eqn:Hf; [|apply preserves_ret]. by eapply stored_within, maintains_initialize.
Qed.
Lemma stored_bound {R} tx (operation : io world R) :
  keeps_app stored operation → preserves stored (bound drain tx operation).
Proof.
  intros Hop b Hb. unfold bound, bind_. case_decide; [done|].
  specialize (Hop (World newSession (set_serving (tx :: b_serving b) b) [] []) Hb).
  destruct (operation _) as [outcome w1]. exact (ob_drain _ _ _ _ _ _ Hob tx w1 Hop).
Qed.
Lemma stored_runBody {R} (operation : nat → io world R) tx :
  keeps_app stored (operation tx) → preserves (λ s, P (view bodyLens s)) (runBody drain operation tx).
Proof.
  intros Hop [b c] Hb. pose proof (stored_bound tx _ Hop b Hb) as H. unfold runBody.
  by destruct (bound drain tx (operation tx) b) as [[[r published]|e] b1].
Qed.
Lemma stored_run {R} (operation : nat → io world R) :
  (∀ tx, keeps_app stored (operation tx)) → preserves stored (run data join drain operation).
Proof.
  intros Hop. apply preserves_bind; [apply stored_initialize|intros _]. intros b Hb.
  pose proof (maintains_transaction bodyLens (runBody drain operation) _
    (λ tx, stored_runBody operation tx (Hop tx)) (b, []) Hb) as H.
  unfold committedRun. by destruct (transaction _ _ _) as [[r|e] [b1 c]].
Qed.
Lemma stored_settleBody tx body : (∀ b, stored b → stored (body b).2) →
  keeps_app stored (settleBody data application addon settleHook tx body).
Proof.
  intros Hb. apply keeps_settle; [|done]. intros s.
  apply preserves_bind; [apply stored_engine|intros; apply preserves_ret].
Qed.
Lemma stored_transaction body : (∀ b, stored b → stored (body b).2) →
  preserves stored (runInTransaction data application addon settleHook join drain body).
Proof. intros. apply stored_run. intros tx. by apply stored_settleBody. Qed.
Lemma stored_publish tx body : (∀ b, stored b → stored (body b).2) →
  preserves stored (publish data application addon settleHook join drain tx body).
Proof.
  intros Hb. apply preserves_bind; [apply stored_initialize|intros _].
  apply preserves_bind; [|intros []; apply preserves_ret]. apply stored_bound. by apply stored_settleBody.
Qed.
Lemma stored_route r owner bytes :
  preserves stored (serveRoute data application addon settleHook join drain r owner bytes).
Proof.
  apply serveRoute_keeps. intros x c. apply stored_run. intros tx.
  apply preserves_bind; [apply preserves_check|intros; apply stored_engine].
Qed.
End store.

(** * The operations a backend is used by *)
Section operations.
Context {D : Type}.
Abbreviation world := (Host.world (A := backend D)).
Variable data : database D.
Variable application : dependencies (A := backend D).
Variable addon : native world.
Variable settleHook : nat → string → io world unit.
Variable join : io (backend D) unit.
Variable drain : nat → world → world.
Variable authenticate : request → backend D → result value * backend D.
Variable admit_hook : option (request → option string → backend D → result value * backend D).
Variable limit : option Z.

Inductive operation :=
| Requested (r : request)                                   (* an HTTP request *)
| Transacted (body : app_function (A := backend D))         (* [backend.transaction(body)] *)
| Published (tx : nat) (body : app_function (A := backend D)). (* [backend.publish(tx, body)] *)
Definition served_hooks : hooks (A := backend D) :=
  Hooks authenticate admit_hook (serveRoute data application addon settleHook join drain) limit.
Definition operate (o : operation) (b : backend D) : backend D :=
  match o with
  | Requested r => app (httpHandler served_hooks r (Web b [] [] [])).2
  | Transacted body => (runInTransaction data application addon settleHook join drain body b).2
  | Published tx body => (publish data application addon settleHook join drain tx body b).2
  end.
Definition operateAll (l : list operation) (b : backend D) : backend D := foldl (λ b o, operate o b) b l.

(** The application's own part in an operation keeps [Q]. *)
Definition bodies (Q : backend D → Prop) (o : operation) : Prop :=
  match o with
  | Requested r => True
  | Transacted body | Published _ body => ∀ b, Q b → Q (body b).2
  end.

Lemma stored_operate (P : D → Prop) (Hdata : Maintains data P) o :
  obeys application addon settleHook join drain (stored P) →
  (∀ r b, stored P b → stored P (authenticate r b).2) →
  (∀ f r owner b, admit_hook = Some f → stored P b → stored P (f r owner b).2) →
  bodies (stored P) o → ∀ b, stored P b → stored P (operate o b).
Proof.
  intros Hob Hauth Hadmit Ho b Hb. destruct o as [r|body|tx body]; cbn [operate].
  - apply (keeps_httpHandler (stored P) served_hooks); [|done]. split; cbn; [auto|eauto|].
    intros p owner bytes. by apply stored_route.
  - by apply stored_transaction.
  - by apply stored_publish.
Qed.
End operations.

(** C1: whatever a backend is asked, the committed namespace stays well-formed.
    Over the [pg] driver -- its retries, its serialization failures at COMMIT, its
    rollbacks -- any sequence of HTTP requests, application transactions and
    publications, whatever the engine answers and whichever handlers, loaders and
    authorizations run or throw, leaves the committed tables with every namespace
    invariant: exact settled prefixes, safe counters, unique ids, positions behind
    their heads.  The application, the addon and the other callers of the process
    are only asked not to write the framework's tables themselves. *)
Theorem backend_namespace_wf `{Columns} isRetryable retries adapterJoin
    application addon settleHook join drain authenticate admits limit l b :
  preserves adapter_ok adapterJoin →
  obeys application addon settleHook join drain (stored adapter_ok) →
  (∀ r b, stored adapter_ok b → stored adapter_ok (authenticate r b).2) →
  (∀ f r owner b, admits = Some f → stored adapter_ok b → stored adapter_ok (f r owner b).2) →
  Forall (bodies (stored adapter_ok)) l → stored adapter_ok b →
  wf (committed (tool (b_store (operateAll (persistence (postgres isRetryable retries) serverQuery adapterJoin)
    application addon settleHook join drain authenticate admits limit l b)))).
Proof.
  intros Hj Hob Ha Hf Hl. revert b. pose proof (postgres_maintains isRetryable retries adapterJoin Hj) as Hdata.
  induction Hl as [|o l Ho _ IH]; intros b Hb; [apply Hb|]. apply IH. by apply stored_operate.
Qed.

(** A request and a transaction publish to "s" and commit; then the application,
    which opened a transaction on client 9 before both, publishes in it. *)
Definition demo_operations : list (operation (D := adapter server)) :=
  [Requested demo_request; Transacted demo_body; Published 9 demo_body].
Definition demo_before : backend (adapter server) :=
  update storeLens (update toolLens (serverCommand 9 BEGIN (tool demo_store)).2 demo_store) demo_backend.
Definition demo_after : backend (adapter server) :=
  operateAll (persistence (postgres (λ _, false) None) (serverQuery (H := numberColumns)) (throw (Error "joined")))
    demo_application demo_addon demo_hook demo_join demo_drain
    (λ _ b, (Ok (VStr "ann"), b)) None None demo_operations demo_before.
Lemma demo_obeys Q : obeys demo_application demo_addon demo_hook demo_join demo_drain Q.
Proof.
  split.
  - by split.
  - intros c callback Hc. cbn. apply preserves_bind; [apply Hc|intros; apply preserves_ret].
  - by intros tx s w Hw.
  - by intros b Hb.
  - done.
Qed.
Lemma demo_before_ok : stored adapter_ok demo_before.
Proof.
  apply (serverCommand_ok 9 BEGIN). split; [|intros client v t H; exfalso; exact (lookup_empty_Some _ _ H)].
  apply exec_wf; [exact I|apply wf_empty].
Qed.
Lemma backend_namespace_wf_witness :
  wf (committed (tool (b_store demo_after))) ∧
  streams (committed (tool (b_store demo_after))) !! "s"%string = Some 2 ∧
  (λ x, streams (tables x.2)) <$> opened (tool (b_store demo_after)) !! 9%nat = Some {["s"%string := 1]}.
Proof.
  split; [|split; vm_compute; reflexivity].
  apply (backend_namespace_wf (H := numberColumns) (λ _, false) None (throw (Error "joined")) demo_application
    demo_addon demo_hook demo_join demo_drain (λ _ b, (Ok (VStr "ann"), b)) None None demo_operations demo_before).
  - intros a Ha. exact Ha.
  - exact (demo_obeys _).
  - intros r b Hb. exact Hb.
  - intros f r owner b Hf. discriminate Hf.
  - apply Forall_cons; split; [exact I|]. apply Forall_cons; split; [by intros b Hb|].
    apply Forall_cons; split; [by intros b Hb|]. by apply Forall_nil.
  - exact demo_before_ok.
Defined.
