(* ===== verification/Live.v ===== *)
(** Live sockets: [backend/server/connection/live.mts].

    [serveLive] is a state machine over what its socket, the hub of commits, the
    pulls it started and the negotiation report.  The Rust controller is a
    parameter with a state of its own.  A promise's continuation runs some time
    after it settles, so leaving the session is a step ([Finish]) that other
    events may precede. *)
From S2P Require Import Prelude Text Http.
Open Scope Z_scope.
Open Scope axton_scope.

(** ** [attachLive]: an upgrade and the heartbeat *)
Inductive upgrade_answer :=
| Ignored                                       (* another path: not ours *)
| Refuse (status : Z)
| RefuseAdmission (refused : refusal)
| Accept (owner : string).
(** [closing] when the upgrade starts, and when its admission answered; what
    [onError] is told. *)
Definition upgrade (path : option string) (closing : bool)
    (admission : result (option string * option refusal)) (closingOrDestroyed : bool) : upgrade_answer * list exn :=
  if negb (match path with Some p => String.eqb (beforeQuery p) "/sync/live" | None => false end) then (Ignored, [])
  else if closing then (Refuse 503, [])
  else match admission with
       | Throw e => (Refuse 500, [e])
       | Ok (owner, refused) =>
           if closingOrDestroyed then (Refuse 503, [])
           else match refused with
                | Some refused => (RefuseAdmission refused, [])
                | None => match owner with
                          | Some owner => if blank owner then (Refuse 401, []) else (Accept owner, [])
                          | None => (Refuse 401, [])
                          end
                end
       end.
Definition CRLF : string := String (char 13) (String (char 10) EmptyString).
Definition refuseText (status : Z) : string :=
  "HTTP/1.1 " +:+ pretty status +:+ " " +:+ (if status =? 401 then "Unauthorized" else "Error") +:+ CRLF
  +:+ "Connection: close" +:+ CRLF +:+ CRLF.
(** [reason] is Node's [STATUS_CODES]. *)
Definition refuseAdmissionText (reason : Z → option string) (refused : refusal) : string :=
  let '(status, body) := refused in
  "HTTP/1.1 " +:+ pretty status +:+ " " +:+ default "Error"%string (reason status) +:+ CRLF
  +:+ "Content-Type: application/json; charset=utf-8" +:+ CRLF
  +:+ "Content-Length: " +:+ pretty (Z.of_nat (String.length body)) +:+ CRLF
  +:+ "Cache-Control: no-store" +:+ CRLF +:+ "axton-admission: refused" +:+ CRLF
  +:+ "Connection: close" +:+ CRLF +:+ CRLF +:+ body.
(** One tick: the open clients terminated, those pinged, and who has answered since. *)
Fixpoint heartbeat (clients : list (nat * bool)) (answered : list nat) : list nat * list nat * list nat :=
  match clients with
  | [] => ([], [], answered)
  | (socket, open) :: clients =>
      if negb open then heartbeat clients answered
      else if bool_decide (socket ∈ answered) then
        let '(terminated, pinged, answered) := heartbeat clients (filter (λ s, s ≠ socket) answered) in
        (terminated, socket :: pinged, answered)
      else
        let '(terminated, pinged, answered) := heartbeat clients answered in
        (socket :: terminated, pinged, answered)
  end.

(** ** [serveLive] *)
Inductive live_event := Committed (stream : string) | PulledPage (page : string) | ClosedEvent.
Inductive live_action := PullV05 (request : string) | Listen (stream : string) | SendFrame (frame : string).
Inductive ending := Returned | Failed (e : exn).
Inductive phase := Handshaking | Negotiating | Running | Ending (why : ending) | Draining.
Inductive output :=
| Negotiate (data : string)
| Controller (e : live_event)                   (* [backend.liveEvent] *)
| Released                                      (* [backend.liveClose] *)
| Listened (stream : string)
| Unlistened (stream : string)
| PullStarted (request : string)
| PullSettled
| Sent (frame : string)
| ClosedSocket (code : Z) (reason : string)
| Gone                                          (* the socket closed *)
| Reported (e : exn).

Section live.
Context {C : Type}.                             (* the controller *)
Variable liveEvent : live_event → C → result (list live_action) * C.
Variable hasPull : bool.                        (* [backend.pull05Live] *)

Record live := Live {
  l_phase : phase; settled : bool; negotiated : bool; released : bool; open : bool;
  listening : list string; pulls : nat; controller : C; outputs : list output }.
Definition newLive (c : C) : live := Live Handshaking false false false true [] 0 c [].

Definition say (o : output) (s : live) : live :=
  Live (l_phase s) (settled s) (negotiated s) (released s) (open s) (listening s) (pulls s) (controller s) (outputs s ++ [o]).
Definition set_phase p s := Live p (settled s) (negotiated s) (released s) (open s) (listening s) (pulls s) (controller s) (outputs s).
Definition set_open b s := Live (l_phase s) (settled s) (negotiated s) (released s) b (listening s) (pulls s) (controller s) (outputs s).
Definition set_controller c s := Live (l_phase s) (settled s) (negotiated s) (released s) (open s) (listening s) (pulls s) c (outputs s).
Definition set_pulls n s := Live (l_phase s) (settled s) (negotiated s) (released s) (open s) (listening s) n (controller s) (outputs s).
Definition set_listening l s := Live (l_phase s) (settled s) (negotiated s) (released s) (open s) l (pulls s) (controller s) (outputs s).

(** [connection.close] *)
Definition closeSocket (code : Z) (reason : string) (s : live) : live := set_open false (say (ClosedSocket code reason) s).
Definition fail (e : exn) (s : live) : live :=
  let s := say (Reported e) s in if open s then closeSocket 1011 "server" s else s.
Fixpoint execute (actions : list live_action) (s : live) : live :=
  match actions with
  | [] => s
  | Listen stream :: actions =>
      let s := say (Listened stream) s in execute actions (set_listening (listening s ++ [stream]) s)
  | SendFrame frame :: actions => execute actions (if open s then say (Sent frame) s else s)
  | PullV05 request :: actions =>
      if hasPull then
        let s := say (PullStarted request) s in execute actions (set_pulls (S (pulls s)) s)
      else fail (Error "v05 live carrier unavailable") s
  end.
Definition dispatch (e : live_event) (s : live) : live :=
  if negotiated s && negb (released s) then
    let '(r, c) := liveEvent e (controller s) in
    let s := set_controller c (say (Controller e) s) in
    match r with Ok actions => execute actions s | Throw x => fail x s end
  else s.

(** The client's fault, against a failure to report. *)
Definition refusedCode (e : exn) : option string :=
  match e with
  | EngineError c _ _ =>
      if String.eqb c "protocol.unsupported" || String.eqb c "request.invalid" || String.eqb c "model_version_unsupported"
      then Some c else None
  | _ => None
  end.
Definition catch_ (e : exn) (s : live) : live :=
  match refusedCode e with
  | Some c => if open s then closeSocket 1002 c s else s
  | None => say (Reported e) (if open s then closeSocket 1011 "request.invalid" s else s)
  end.
(** The [finally] block, up to the pulls it waits for. *)
Definition leave (s : live) : live :=
  let s := if negotiated s then
             let s := dispatch ClosedEvent s in
             say Released (Live (l_phase s) (settled s) (negotiated s) true (open s) (listening s) (pulls s) (controller s) (outputs s))
           else s in
  let s := foldl (λ s stream, say (Unlistened stream) s) s (listening s) in
  set_phase Draining (set_listening [] s).

Inductive event :=
| Message (data : string)
| SocketClosed
| SocketError (e : exn)
| Negotiated (answer : result (C * list live_action))
| Wake (stream : string)
| PullDone (r : result string)
| Finish.
(** The socket is gone, and the handlers of [close] run. *)
Definition ended (s : live) : live :=
  match l_phase s with
  | Handshaking => set_phase (Ending (Failed (Error "live handshake closed"))) s
  | Running => set_phase (Ending Returned) (dispatch ClosedEvent s)
  | Ending _ => dispatch ClosedEvent s
  | _ => s
  end.
Definition step (s : live) (e : event) : live :=
  match e with
  | Message data =>
      match l_phase s with
      | Draining => s                           (* no longer listened to *)
      | p =>
          if settled s then closeSocket 1002 "subscribe is the only client frame" s
          else
            let s := Live (l_phase s) true (negotiated s) (released s) (open s) (listening s) (pulls s) (controller s) (outputs s) in
            match p with Handshaking => set_phase Negotiating (say (Negotiate data) s) | _ => s end
      end
  | SocketClosed => ended (set_open false (say Gone s))
  | SocketError x =>
      let s := set_open false (say Gone s) in
      match l_phase s with Handshaking => set_phase (Ending (Failed x)) s | _ => ended s end
  | Negotiated answer =>
      match l_phase s with
      | Negotiating =>
          match answer with
          | Throw x => set_phase (Ending (Failed x)) s
          | Ok (c, actions) =>
              let s := Live (l_phase s) (settled s) true (released s) (open s) (listening s) (pulls s) c (outputs s) in
              if open s then set_phase Running (execute actions s) else set_phase (Ending Returned) s
          end
      | _ => s
      end
  | Wake stream => if bool_decide (stream ∈ listening s) then dispatch (Committed stream) s else s
  | PullDone r =>
      match pulls s with
      | O => s
      | S n =>
          let s := match r with Ok page => dispatch (PulledPage page) s | Throw x => fail x s end in
          say PullSettled (set_pulls (pred (pulls s)) s)
      end
  | Finish =>
      match l_phase s with
      | Ending Returned => leave s
      | Ending (Failed x) => leave (catch_ x s)
      | _ => s
      end
  end.
Definition run (c : C) (events : list event) : live := foldl step (newLive c) events.
(** The session's promise has settled. *)
Definition over (s : live) : Prop := l_phase s = Draining ∧ pulls s = 0%nat.
End live.
