(* ===== verification/LiveFacts.v ===== *)
(** A live session gives back everything it took, and is silent once it ended. *)
From S2P Require Import Prelude Text Http Live.
Open Scope Z_scope.

(** ** What never follows what *)
Section after.
Context {A : Type} (P Q : A → Prop).
Definition after (l : list A) : Prop := ∀ pre x post, l = pre ++ x :: post → P x → Forall (λ y, ¬ Q y) post.
Lemma after_nil : after [].
Proof. intros [] ? ? [=]. Qed.
Lemma after_snoc l y : after l → (Q y → Forall (λ x, ¬ P x) l) → after (l ++ [y]).
Proof.
  intros Hl Hy pre x post Heq Hx.
  destruct post as [|z post _] using rev_ind; [constructor|].
  rewrite app_comm_cons, app_assoc in Heq. apply app_inj_2 in Heq as [-> [= ->]]; [|done].
  apply Forall_app. split; [by eapply Hl|]. apply Forall_singleton. intros Hz. specialize (Hy Hz).
  apply Forall_app in Hy as [_ Hy]. apply Forall_cons in Hy as [Hn _]. by apply Hn.
Qed.
End after.

Definition ends (o : output) : Prop := match o with ClosedSocket _ _ | Gone => True | _ => False end.
Definition sends (o : output) : Prop := match o with Sent _ => True | _ => False end.
Definition releases (o : output) : Prop := match o with Released => True | _ => False end.
(** What only a session that holds its controller does. *)
Definition works (o : output) : Prop :=
  match o with Controller _ | Released | Listened _ | PullStarted _ => True | _ => False end.
Definition listenedTo (o : output) : option string := match o with Listened s => Some s | _ => None end.
Definition unlistenedTo (o : output) : option string := match o with Unlistened s => Some s | _ => None end.
Definition startedPull (o : output) : option string := match o with PullStarted r => Some r | _ => None end.
Definition settledPull (o : output) : option unit := match o with PullSettled => Some tt | _ => None end.

Section facts.
Context {C : Type}.
Variable liveEvent : live_event → C → result (list live_action) * C.
Variable hasPull : bool.
Implicit Types s : live (C := C).

Record inv s : Prop := {
  inv_open : open s = true → Forall (λ o, ¬ ends o) (outputs s);
  inv_sent : after ends sends (outputs s);
  inv_unreleased : released s = false → Forall (λ o, ¬ releases o) (outputs s);
  inv_released : after releases works (outputs s);
  inv_held : released s = true → Released ∈ outputs s;
  inv_listening : omap listenedTo (outputs s) ≡ₚ omap unlistenedTo (outputs s) ++ listening s;
  inv_pulls : length (omap startedPull (outputs s)) = (length (omap settledPull (outputs s)) + pulls s)%nat }.

(** Saying what changes neither the Streams listened to nor the pulls. *)
Definition plain (o : output) : Prop :=
  listenedTo o = None ∧ unlistenedTo o = None ∧ startedPull o = None ∧ settledPull o = None ∧ ¬ ends o ∧ ¬ releases o.
Lemma say_inv o s : inv s → plain o → (sends o → open s = true) → (works o → released s = false) → inv (say o s).
Proof.
  intros [H1 H2 H3 H4 H5 H6 H7] (P1 & P2 & P3 & P4 & P5 & P6) Hs Hw. split; cbn.
  - intros Ho. apply Forall_app. split; [auto|by apply Forall_singleton].
  - apply after_snoc; auto.
  - intros Hr. apply Forall_app. split; [auto|by apply Forall_singleton].
  - apply after_snoc; auto.
  - intros Hr. apply elem_of_app. auto.
  - rewrite !omap_app. cbn. rewrite P1, P2. by rewrite !app_nil_r.
  - rewrite !omap_app. cbn. rewrite P3, P4. by rewrite !app_nil_r.
Qed.
Lemma liveFields_inv s s' :
  inv s → outputs s' = outputs s → released s' = released s → listening s' = listening s → pulls s' = pulls s →
  (open s' = true → open s = true) → inv s'.
Proof. intros [H1 H2 H3 H4 H5 H6 H7] Ho Hr Hl Hp Hop. split; rewrite ?Ho, ?Hr, ?Hl, ?Hp; auto. Qed.
Lemma end_socket_inv o s : inv s → ends o → inv (set_open false (say o s)).
Proof.
  intros [H1 H2 H3 H4 H5 H6 H7] He. destruct o; try done; split; cbn; try done.
  all: try (apply after_snoc; [done|by intros []]); try (intros Hr; apply Forall_app; split; [auto|by apply Forall_singleton; intros []]).
  all: try (intros Hr; apply elem_of_app; auto); rewrite !omap_app; cbn; by rewrite ?app_nil_r.
Qed.
Lemma fail_inv e s : inv s → inv (fail e s).
Proof.
  intros Hs. unfold fail. cbv zeta. assert (inv (say (Reported e) s)) as H by (apply say_inv; [done|by split_and!; [..|intros []|intros []]|by intros []|by intros []]).
  case_match; [by apply end_socket_inv|done].
Qed.
Lemma listen_inv stream s : inv s → released s = false → inv (set_listening (listening s ++ [stream]) (say (Listened stream) s)).
Proof.
  intros [H1 H2 H3 H4 H5 H6 H7] Hr. split; cbn; try done.
  - intros Ho. apply Forall_app. split; [auto|by apply Forall_singleton; intros []].
  - apply after_snoc; [done|by intros []].
  - intros _. apply Forall_app. split; [auto|by apply Forall_singleton; intros []].
  - apply after_snoc; auto.
  - congruence.
  - rewrite !omap_app. cbn. rewrite app_nil_r, app_assoc. by rewrite H6.
  - rewrite !omap_app. cbn. by rewrite !app_nil_r.
Qed.
Lemma pull_inv request s : inv s → released s = false → inv (set_pulls (S (pulls s)) (say (PullStarted request) s)).
Proof.
  intros [H1 H2 H3 H4 H5 H6 H7] Hr. split; cbn; try done.
  - intros Ho. apply Forall_app. split; [auto|by apply Forall_singleton; intros []].
  - apply after_snoc; [done|by intros []].
  - intros _. apply Forall_app. split; [auto|by apply Forall_singleton; intros []].
  - apply after_snoc; auto.
  - congruence.
  - rewrite !omap_app. cbn. by rewrite !app_nil_r.
  - rewrite !omap_app. cbn. rewrite length_app, app_nil_r. cbn. lia.
Qed.
(** What a session's own work leaves alone. *)
Definition frame s s' : Prop :=
  l_phase s' = l_phase s ∧ negotiated s' = negotiated s ∧ released s' = released s ∧ (pulls s ≤ pulls s')%nat.
#[local] Instance frame_preorder : PreOrder frame.
Proof. split; [by intros s|]. intros a b c (? & ? & ? & ?) (? & ? & ? & ?). split_and!; [congruence..|lia]. Qed.
Lemma fail_frame e s : frame s (fail e s).
Proof. unfold fail. cbv zeta. by case_match. Qed.
Lemma execute_inv actions s : inv s → released s = false → inv (execute hasPull actions s) ∧ frame s (execute hasPull actions s).
Proof.
  revert s. induction actions as [|a actions IH]; intros s Hs Hr; [done|]. destruct a as [request|stream|frame_]; cbn [execute].
  - destruct hasPull; [|split; [by apply fail_inv|apply fail_frame]]. cbv zeta.
    destruct (IH (set_pulls (S (pulls s)) (say (PullStarted request) s))) as [H1 H2]; [by apply pull_inv|done|]. split; [done|].
    etrans; [|exact H2]. split_and!; try done. cbn. lia.
  - cbv zeta. destruct (IH (set_listening (listening s ++ [stream]) (say (Listened stream) s))) as [H1 H2]; [by apply listen_inv|done|].
    split; [done|]. etrans; [|exact H2]. by split_and!.
  - destruct (open s) eqn:Ho; [|by apply IH]. destruct (IH (say (Sent frame_) s)) as [H1 H2]; [|done|].
    + apply say_inv; [done|split_and!; [done..|by intros []|by intros []]|done|by intros []].
    + split; [done|]. etrans; [|exact H2]. by split_and!.
Qed.
Lemma liveDispatch_inv e s : inv s → inv (dispatch liveEvent hasPull e s) ∧ frame s (dispatch liveEvent hasPull e s).
Proof.
  intros Hs. unfold dispatch. destruct (negotiated s && negb (released s)) eqn:Hn; [|done].
  apply andb_true_iff in Hn as [_ Hr%negb_true_iff]. destruct (liveEvent e (controller s)) as [r c]. cbv zeta.
  set (s1 := set_controller c (say (Controller e) s)).
  assert (inv s1) as H1.
  { eapply liveFields_inv; [apply (say_inv (Controller e) s); [done|by split_and!; [..|intros []|intros []]|by intros []|done]|done..]. }
  assert (frame s s1) as F1 by done. destruct r as [actions|x].
  - destruct (execute_inv actions s1 H1 Hr) as [? ?]. split; [done|by etrans].
  - split; [by apply fail_inv|]. etrans; [exact F1|apply fail_frame].
Qed.

(** ** Leaving *)
Lemma release_inv s :
  inv s → released s = false →
  inv (say Released (Live (l_phase s) (settled s) (negotiated s) true (open s) (listening s) (pulls s) (controller s) (outputs s))).
Proof.
  intros [H1 H2 H3 H4 H5 H6 H7] Hr. split; cbn; try done.
  - intros Ho. apply Forall_app. split; [auto|by apply Forall_singleton; intros []].
  - apply after_snoc; [done|by intros []].
  - apply after_snoc; auto.
  - intros _. apply elem_of_app. right. by apply list_elem_of_singleton.
  - rewrite !omap_app. cbn. by rewrite !app_nil_r.
  - rewrite !omap_app. cbn. by rewrite !app_nil_r.
Qed.
Lemma unlisten_inv s :
  inv s → inv (set_listening [] (foldl (λ s stream, say (Unlistened stream) s) s (listening s))).
Proof.
  intros [H1 H2 H3 H4 H5 H6 H7].
  assert (∀ l s, foldl (λ s stream, say (Unlistened stream) s) s l =
    Live (l_phase s) (settled s) (negotiated s) (released s) (open s) (listening s) (pulls s) (controller s) (outputs s ++ (Unlistened <$> l))) as Hfold.
  { clear. induction l as [|x l IH]; intros s; cbn [foldl fmap list_fmap]; [destruct s; cbn; by rewrite app_nil_r|].
    rewrite IH. cbn. by rewrite <- app_assoc. }
  rewrite Hfold. cbn.
  assert (∀ (P : output → Prop), (∀ x, ¬ P (Unlistened x)) → Forall (λ o, ¬ P o) (Unlistened <$> listening s)) as Hnone.
  { intros P HP. apply Forall_fmap, Forall_true. intros x. apply HP. }
  assert (∀ (P Q : output → Prop) l, (∀ x, ¬ Q (Unlistened x)) → after P Q l → after P Q (l ++ (Unlistened <$> listening s))) as Hafter.
  { clear. intros P Q l HQ Hl. induction (listening s) as [|x k IH] using rev_ind; [by rewrite app_nil_r|].
    rewrite fmap_app, app_assoc. cbn. apply after_snoc; [exact IH|]. intros Hq. by apply HQ in Hq. }
  assert (∀ {B} (f : output → option B), (∀ x, f (Unlistened x) = None) → omap f (Unlistened <$> listening s) = []) as Homap.
  { clear. intros B f Hf. induction (listening s) as [|x k IH]; [done|]. cbn. by rewrite Hf, IH. }
  split; cbn.
  - intros Ho. apply Forall_app. split; [auto|]. by apply Hnone; intros x [].
  - by apply Hafter; [intros x []|].
  - intros Hr. apply Forall_app. split; [auto|]. by apply Hnone; intros x [].
  - by apply Hafter; [intros x []|].
  - intros Hr. apply elem_of_app. auto.
  - rewrite !omap_app, app_nil_r, Homap, app_nil_r by done. rewrite H6. apply Permutation_app_head.
    clear. induction (listening s) as [|x k IH]; cbn; [done|]. by rewrite <- IH.
  - rewrite !omap_app, !Homap, !app_nil_r by done. exact H7.
Qed.
Lemma leave_inv s :
  inv s → released s = false →
  inv (leave liveEvent hasPull s) ∧ listening (leave liveEvent hasPull s) = [] ∧
  released (leave liveEvent hasPull s) = negotiated (leave liveEvent hasPull s).
Proof.
  intros Hs Hr. unfold leave. cbv zeta.
  match goal with |- context [foldl _ ?x _] => set (s1 := x) end.
  assert (inv s1 ∧ released s1 = negotiated s1) as [Hs1 Hn].
  { subst s1. destruct (negotiated s) eqn:Hneg; [|by rewrite Hr].
    destruct (liveDispatch_inv ClosedEvent s Hs) as [Hd (_ & Fn & Fr & _)]. split; [apply release_inv; [done|congruence]|].
    cbn. congruence. }
  assert (∀ l s, released (foldl (λ s stream, say (Unlistened stream) s) s l) = released s ∧
                 negotiated (foldl (λ s stream, say (Unlistened stream) s) s l) = negotiated s) as Hsame.
  { clear. induction l as [|x l IH]; intros s; cbn [foldl]; [done|]. destruct (IH (say (Unlistened x) s)) as [-> ->]. done. }
  split; [|split; [done|]].
  - eapply liveFields_inv; [by apply unlisten_inv|done..].
  - cbn. destruct (Hsame (listening s1) s1) as [-> ->]. done.
Qed.

(** ** Steps *)
Definition phased s : Prop :=
  match l_phase s with Draining => listening s = [] ∧ released s = negotiated s | _ => released s = false end.
Definition good s : Prop := inv s ∧ phased s.
Lemma phased_frame s s' : l_phase s ≠ Draining → frame s s' → phased s → phased s'.
Proof. unfold phased. intros Hp (-> & _ & -> & _). by destruct (l_phase s). Qed.
Lemma draining_dispatch e s : phased s → l_phase s = Draining → dispatch liveEvent hasPull e s = s.
Proof. unfold phased, dispatch. intros H Hd. rewrite Hd in H. destruct H as [_ ->]. by destruct (negotiated s). Qed.
Lemma dispatch_good e s : good s → good (dispatch liveEvent hasPull e s) ∧ frame s (dispatch liveEvent hasPull e s).
Proof.
  intros [Hi Hp]. destruct (liveDispatch_inv e s Hi) as [H1 H2]. split; [|done]. split; [done|].
  assert (l_phase s = Draining ∨ l_phase s ≠ Draining) as [Hd|Hd] by (destruct (l_phase s); auto).
  - by rewrite draining_dispatch.
  - by eapply phased_frame.
Qed.
Lemma ended_good s : good s → good (ended liveEvent hasPull s).
Proof.
  intros Hs. unfold ended. destruct (l_phase s) eqn:Hp; try done.
  - destruct Hs as [Hi Hph]. split; [by eapply liveFields_inv|]. unfold phased in *. by rewrite Hp in Hph.
  - destruct (dispatch_good ClosedEvent s Hs) as [[Hi Hph] (Hl & _ & Hr & _)]. split; [by eapply liveFields_inv|].
    unfold phased in *. rewrite Hl, Hp in Hph. exact Hph.
  - by apply dispatch_good.
Qed.
Lemma gone_good s : good s → good (set_open false (say Gone s)).
Proof. intros [Hi Hp]. split; [by apply end_socket_inv|exact Hp]. Qed.
Lemma fail_good e s : good s → good (fail e s) ∧ frame s (fail e s).
Proof.
  intros [Hi Hp]. split; [|apply fail_frame]. split; [by apply fail_inv|]. unfold fail, phased in *. cbv zeta. destruct (open (say (Reported e) s)); exact Hp.
Qed.
Lemma catch_good x s : inv s → inv (catch_ x s) ∧ released (catch_ x s) = released s.
Proof.
  intros Hs. unfold catch_. destruct (refusedCode x).
  - case_match; [|done]. split; [by apply end_socket_inv|done].
  - case_match; (split; [|done]); apply say_inv; try (by split_and!; [..|intros []|intros []]); try (by intros []); [by apply end_socket_inv|done].
Qed.
Lemma liveStep_good s e : good s → good (step liveEvent hasPull s e).
Proof.
  intros Hs. pose proof Hs as [Hi Hp]. destruct e as [data| |x|answer|stream|r|]; cbn [step].
  - unfold phased in Hp. destruct (l_phase s) eqn:Hph; try done.
    all: destruct (settled s); cbv zeta; [split; [by apply end_socket_inv|unfold phased; cbn; by rewrite Hph]|].
    all: (split; [|unfold phased; cbn; rewrite ?Hph; exact Hp]).
    1: eapply (liveFields_inv (say (Negotiate data) s)); [apply say_inv; [done|by split_and!; [..|intros []|intros []]|by intros []|by intros []]|done..].
    all: by eapply liveFields_inv.
  - by apply ended_good, gone_good.
  - cbv zeta. change (l_phase (set_open false (say Gone s))) with (l_phase s). apply gone_good in Hs as Hg.
    destruct (l_phase s) eqn:Hph; try (by apply ended_good).
    destruct Hg as [Hgi Hgp]. split; [by eapply liveFields_inv|]. unfold phased in *. cbn in *. by rewrite Hph in Hp.
  - unfold phased in Hp. destruct (l_phase s) eqn:Hph; try done. destruct answer as [[c actions]|x].
    + cbv zeta. set (s1 := Live _ _ true _ _ _ _ c _).
      assert (inv s1) as H1 by (by eapply liveFields_inv). destruct (open s1).
      * destruct (execute_inv actions s1 H1 Hp) as [H2 (_ & _ & Hr & _)]. split; [by eapply liveFields_inv|].
        unfold phased. cbn. by rewrite Hr.
      * split; [by eapply liveFields_inv|exact Hp].
    + split; [by eapply liveFields_inv|exact Hp].
  - case_bool_decide; [by apply dispatch_good|done].
  - destruct (pulls s) as [|n] eqn:Hn; [done|]. cbv zeta.
    match goal with |- good (say PullSettled (set_pulls (pred (pulls ?x)) ?y)) => set (s1 := x) end.
    assert (good s1 ∧ frame s s1) as [[Hi1 Hp1] (Hl & _ & Hr & Hle)] by (subst s1; destruct r; [by apply dispatch_good|by apply fail_good]).
    destruct Hi1 as [H1 H2 H3 H4 H5 H6 H7]. split; [|exact Hp1]. split; cbn.
    + intros Ho. apply Forall_app. split; [auto|by apply Forall_singleton; intros []].
    + apply after_snoc; [done|by intros []].
    + intros Hrel. apply Forall_app. split; [auto|by apply Forall_singleton; intros []].
    + apply after_snoc; [done|by intros []].
    + intros Hrel. apply elem_of_app. auto.
    + rewrite !omap_app. cbn. by rewrite !app_nil_r.
    + rewrite !omap_app, !length_app. cbn. lia.
  - unfold phased in Hp. destruct (l_phase s) as [| | |[|x]|] eqn:Hph; try done.
    + destruct (leave_inv s Hi Hp) as (H1 & H2 & H3). by split.
    + destruct (catch_good x s Hi) as [Hci Hcr]. destruct (leave_inv (catch_ x s) Hci) as (H1 & H2 & H3); [by rewrite Hcr|]. by split.
Qed.
Lemma liveRun_good c events : good (run liveEvent hasPull c events).
Proof.
  unfold run. assert (good (newLive c)) as H0.
  { split; [|done]. split; cbn; try done; apply after_nil. }
  revert H0. generalize (newLive c). induction events as [|e l IH]; intros s Hs; [done|]. apply IH. by apply liveStep_good.
Qed.

(** What a session owes when it is over: its controller released if it was ever opened,
    every Stream it listened to given back as often, every pull it started settled. *)
Definition gaveBack s : Prop :=
  (negotiated s = true → Released ∈ outputs s) ∧
  omap listenedTo (outputs s) ≡ₚ omap unlistenedTo (outputs s) ∧
  length (omap startedPull (outputs s)) = length (omap settledPull (outputs s)).
Lemma good_over s : good s → over s → listening s = [] ∧ gaveBack s.
Proof.
  intros [[H1 H2 H3 H4 H5 H6 H7] Hp] [Hd Hpulls]. unfold phased in Hp. rewrite Hd in Hp. destruct Hp as [Hl Hr].
  unfold gaveBack. split_and!; [done| | |lia].
  - intros Hn. apply H5. congruence.
  - by rewrite H6, Hl, app_nil_r.
Qed.
(** Whatever the client, the socket, the commits, the pulls and the controller do:
    nothing is sent once the socket was closed; the controller is released at most
    once, and afterwards it is never called and nothing new is listened to or pulled;
    and when the session's promise settles it gave everything back. *)
Theorem live_released c events :
  let s := run liveEvent hasPull c events in
  after ends sends (outputs s) ∧ after releases works (outputs s) ∧ (over s → gaveBack s).
Proof.
  cbv zeta. pose proof (liveRun_good c events) as Hg. split_and!; [apply Hg|apply Hg|].
  intros Ho. by apply good_over.
Qed.
End facts.
(** A session that listens, is woken, pulls a page and loses its socket. *)
Definition demo_controller (e : live_event) (n : nat) : result (list live_action) * nat :=
  (Ok (match e with Committed _ => [PullV05 "{}"] | PulledPage page => [SendFrame page] | ClosedEvent => [] end), S n).
Definition demo_events : list (event (C := nat)) :=
  [Message "subscribe"; Negotiated (Ok (0%nat, [Listen "s"; SendFrame "ready"])); Wake "s"; SocketClosed;
   PullDone (Ok "page"%string); Finish].
Example demo_released : over (run demo_controller true 0%nat demo_events)
  ∧ outputs (run demo_controller true 0%nat demo_events) =
    [Negotiate "subscribe"; Listened "s"; Sent "ready"; Controller (Committed "s"); PullStarted "{}"; Gone;
     Controller ClosedEvent; Controller (PulledPage "page"); PullSettled; Controller ClosedEvent; Released; Unlistened "s"].
Proof. by vm_compute. Qed.
