(* ===== verification/Listener.v ===== *)
(** The listener and its shutdown: [backend/server/connection/listener.mts], and
    [attachLive] of [connection/live.mts], which it composes.

    The Promises the two keep -- the work of a request, a pending upgrade, the
    session of a socket -- are numbered as they are made; each settles some time
    later, and the reaction that takes it out of its set is a step of its own.
    What a handler, an admission or a session does is modelled in [Http] and
    [Live]. *)
From S2P Require Import Prelude Text Http Live.
Open Scope nat_scope.
Open Scope axton_scope.

(** ** Starting *)

(** The host a client can reach. *)
Definition urlHost (host : string) : string :=
  if String.eqb host "0.0.0.0" then "127.0.0.1"
  else if String.eqb host "::" then "localhost"
  else if existsb (λ z, z =? 58)%Z (bytes host) then "[" +:+ host +:+ "]" else host.
(** What listening answers: [ready()], the "error" or "listening" event, and the
    port of the server's address, where it has one. *)
Definition startListening (ready : result unit) (listened : result unit) (address : option Z)
    (port : Z) (host : option string) : result string :=
  _ ← ready;
  _ ← listened;
  Ok ("http://" +:+ urlHost (default "127.0.0.1"%string host) +:+ ":" +:+ pretty (default port address)).

(** ** State *)
Inductive owner := Work | Upgrading | Serving.
#[export] Instance owner_eq_dec : EqDecision owner.
Proof. solve_decision. Defined.
Record promise := Promise { p_owner : owner; p_result : option (result unit) }.
Inductive phase :=
| Draining                                       (* [Promise.allSettled([live.close(), ...requests])] *)
| Stopping (drained : list (result unit))        (* [server.close(...)] *)
| Over (r : result unit).
(** [closing], from the first call of [close]. *)
Record shutdown := Shutdown {
  owned : list nat;                              (* what [live.close] waits for *)
  waiting : list nat;                            (* the requests in flight *)
  socketsClosed : bool;                          (* [sockets.close] called back *)
  liveClosed : option (result unit);             (* [live.close()] *)
  serverClosed : option (result unit);           (* [server.close] called back *)
  l_phase : phase }.
Inductive output :=
| Refused503                                     (* a request after [stopping] *)
| Started (p : nat)                              (* the handler, or a session *)
| RefusedUpgrade (a : upgrade_answer)
| IdleClosed                                     (* [closeIdleConnections()] *)
| ServerClose.                                   (* [server.close(...)] *)
Record listener := Listener {
  promises : list promise;
  requests : list nat;                           (* [requests] *)
  upgrades : list nat;                           (* [upgrades] *)
  sessions : list nat;                           (* [sessions] *)
  closing : option shutdown;                     (* [stopping] and live's [closing] are its presence *)
  outputs : list output }.
Definition newListener : listener := Listener [] [] [] [] None [].

Definition stopping (s : listener) : bool := match closing s with Some _ => true | None => false end.
Definition resultOf (s : listener) (p : nat) : option (result unit) := promises s !! p ≫= p_result.
Definition settledAll (s : listener) (l : list nat) : bool :=
  forallb (λ p, match resultOf s p with Some _ => true | None => false end) l.
Definition resultsOf (s : listener) (l : list nat) : list (result unit) := omap (resultOf s) l.
(** The first rejection, thrown; else nothing. *)
Fixpoint firstRejected (l : list (result unit)) : result unit :=
  match l with
  | [] => Ok tt
  | Throw e :: _ => Throw e
  | Ok _ :: l => firstRejected l
  end.
Definition emit (o : output) (s : listener) : listener :=
  Listener (promises s) (requests s) (upgrades s) (sessions s) (closing s) (outputs s ++ [o]).
Definition set_closing (c : shutdown) (s : listener) : listener :=
  Listener (promises s) (requests s) (upgrades s) (sessions s) (Some c) (outputs s).
(** A new Promise, in the set of its owner. *)
Definition opened (o : owner) (s : listener) : listener :=
  let p := length (promises s) in
  let add (k : owner) (l : list nat) := if decide (o = k) then l ++ [p] else l in
  Listener (promises s ++ [Promise o None]) (add Work (requests s)) (add Upgrading (upgrades s))
    (add Serving (sessions s)) (closing s) (outputs s).
Definition settle (p : nat) (r : result unit) (s : listener) : listener :=
  Listener (alter (λ x, Promise (p_owner x) (Some r)) p (promises s)) (requests s) (upgrades s) (sessions s)
    (closing s) (outputs s).
Definition forget (p : nat) (s : listener) : listener :=
  let remove (l : list nat) := filter (λ q, q ≠ p) l in
  Listener (promises s) (remove (requests s)) (remove (upgrades s)) (remove (sessions s)) (closing s) (outputs s).
Definition pending (s : listener) (p : nat) (o : owner) : bool :=
  match promises s !! p with
  | Some x => bool_decide (p_owner x = o) && match p_result x with None => true | Some _ => false end
  | None => false
  end.

(** ** Arrivals and settlements *)
Definition ourPath (path : option string) : bool :=
  match path with Some p => String.eqb (beforeQuery p) "/sync/live" | None => false end.
Definition request (s : listener) : listener :=
  if stopping s then emit Refused503 s else emit (Started (length (promises s))) (opened Work s).
(** The listener of upgrades, which [close] takes off the server *)
Definition arrives (path : option string) (s : listener) : listener :=
  if stopping s then s
  else if ourPath path then opened Upgrading s else settle (length (promises s)) (Ok tt) (opened Upgrading s).
(** The admission of an upgrade settled; [handleUpgrade] starts its session. *)
Definition admitted (p : nat) (admission : result (option string * option refusal)) (destroyed : bool)
    (s : listener) : listener :=
  if pending s p Upgrading then
    match fst (upgrade (Some "/sync/live"%string) false admission (stopping s || destroyed)) with
    | Accept _ => settle p (Ok tt) (emit (Started (length (promises s))) (opened Serving s))
    | a => settle p (Ok tt) (emit (RefusedUpgrade a) s)
    end
  else s.
Definition reacts (p : nat) (s : listener) : listener :=
  match resultOf s p with Some _ => forget p s | None => s end.

(** ** [close], and the [close] of the live sockets it starts *)
Definition starts (s : listener) : shutdown :=
  Shutdown (upgrades s ++ sessions s) (requests s) false None None Draining.
Definition liveDrains (s : listener) (c : shutdown) : shutdown :=
  if socketsClosed c && settledAll s (owned c) then
    Shutdown (owned c) (waiting c) true (Some (firstRejected (resultsOf s (owned c)))) (serverClosed c) (l_phase c)
  else c.
Definition drains (c : shutdown) (s : listener) : listener :=
  match l_phase c, liveClosed c with
  | Draining, Some live =>
      if settledAll s (waiting c) then
        emit ServerClose (emit IdleClosed
          (set_closing (Shutdown (owned c) (waiting c) (socketsClosed c) (liveClosed c) (serverClosed c)
                          (Stopping (live :: resultsOf s (waiting c)))) s))
      else s
  | _, _ => s
  end.
Definition finishes (c : shutdown) : shutdown :=
  match l_phase c, serverClosed c with
  | Stopping drained, Some r =>
      Shutdown (owned c) (waiting c) (socketsClosed c) (liveClosed c) (serverClosed c) (Over (firstRejected (drained ++ [r])))
  | _, _ => c
  end.

(** ** Steps *)
Inductive event :=
| Request                                        (* an HTTP request arrives *)
| Upgrade (path : option string)                 (* an upgrade arrives *)
| AdmissionSettled (p : nat) (admission : result (option string * option refusal)) (destroyed : bool)
| Settles (p : nat) (r : result unit)            (* a handler or a session settles *)
| Reacts (p : nat)                               (* the reaction to a settled Promise *)
| Close                                          (* the application calls [close] *)
| SocketsClosed
| LiveDrained                                    (* [live.close] goes on after its sockets *)
| Drained                                        (* [close] goes on after its first wait *)
| ServerClosed (r : result unit)
| Closed.                                        (* [close] goes on after the server *)
Definition step (s : listener) (e : event) : listener :=
  match e, closing s with
  | Request, _ => request s
  | Upgrade path, _ => arrives path s
  | AdmissionSettled p admission destroyed, _ => admitted p admission destroyed s
  | Settles p r, _ => if pending s p Work || pending s p Serving then settle p r s else s
  | Reacts p, _ => reacts p s
  | Close, Some _ => s
  | Close, None => set_closing (starts s) s
  | SocketsClosed, Some c =>
      set_closing (Shutdown (owned c) (waiting c) true (liveClosed c) (serverClosed c) (l_phase c)) s
  | LiveDrained, Some c => set_closing (liveDrains s c) s
  | Drained, Some c => drains c s
  | ServerClosed r, Some c =>
      match l_phase c, serverClosed c with
      | Stopping _, None =>
          set_closing (Shutdown (owned c) (waiting c) (socketsClosed c) (liveClosed c) (Some r) (l_phase c)) s
      | _, _ => s
      end
  | Closed, Some c => set_closing (finishes c) s
  | _, None => s
  end.
Definition run (l : list event) : listener := foldl step newListener l.
