(* ===== verification/ListenerFacts.v ===== *)
(** A listener that closes takes nothing new, and stops its server only when all
    it accepted has settled. *)
From S2P Require Import Prelude Text Http Live Listener.
Open Scope nat_scope.
Open Scope axton_scope.

Definition unsettled (s : listener) (p : nat) (o : owner) : Prop := promises s !! p = Some (Promise o None).
#[export] Instance output_close_dec (o : output) : Decision (o = ServerClose).
Proof. destruct o; first [by left | by right]. Defined.
Definition serverCloses (l : list output) : nat := length (filter (λ o, o = ServerClose) l).
Arguments serverCloses : simpl never.
Arguments settledAll : simpl never.
Definition started (o : output) : option nat := match o with Started p => Some p | _ => None end.
Definition setOf (o : owner) (s : listener) : list nat :=
  match o with Work => requests s | Upgrading => upgrades s | Serving => sessions s end.
Definition awaited (o : owner) (c : shutdown) : list nat := match o with Work => waiting c | _ => owned c end.
(** The promises [close] waits for, once it got that far. *)
Definition allSettled (s : listener) (l : list nat) : Prop := ∀ p, p ∈ l → resultOf s p ≠ None.

Record shutting (s : listener) (c : shutdown) : Prop := {
  sh_awaited p o : unsettled s p o → p ∈ awaited o c;
  sh_live r : liveClosed c = Some r → allSettled s (owned c) ∧ r = firstRejected (resultsOf s (owned c));
  sh_phase : match l_phase c with
    | Draining => serverClosed c = None ∧ serverCloses (outputs s) = 0
    | Stopping drained => serverCloses (outputs s) = 1 ∧ allSettled s (waiting c) ∧
        ∃ live, liveClosed c = Some live ∧ drained = live :: resultsOf s (waiting c)
    | Over r => serverCloses (outputs s) = 1 ∧ allSettled s (waiting c) ∧
        ∃ live server, liveClosed c = Some live ∧ serverClosed c = Some server ∧
          r = firstRejected (live :: resultsOf s (waiting c) ++ [server])
    end }.
Record listening (s : listener) : Prop := {
  li_sets p o : unsettled s p o → closing s = None → p ∈ setOf o s;
  li_open : closing s = None → serverCloses (outputs s) = 0;
  li_closing c : closing s = Some c → shutting s c }.

Lemma settledAll_spec s l : settledAll s l = true ↔ allSettled s l.
Proof.
  unfold settledAll, allSettled. rewrite forallb_forall. split; intros H p Hp.
  - apply list_elem_of_In, H in Hp. by destruct (resultOf s p).
  - apply list_elem_of_In, H in Hp. by destruct (resultOf s p).
Qed.
Lemma serverCloses_app l k : serverCloses (l ++ k) = serverCloses l + serverCloses k.
Proof. unfold serverCloses. by rewrite filter_app, length_app. Qed.

(** Results are kept: a settled Promise has its result for ever. *)
Definition extends (s s' : listener) : Prop := ∀ p r, resultOf s p = Some r → resultOf s' p = Some r.
Lemma resultsOf_extends s s' l : extends s s' → allSettled s l → resultsOf s' l = resultsOf s l.
Proof.
  intros He Hl. induction l as [|p l IH]; [done|]. unfold resultsOf in *. cbn.
  destruct (resultOf s p) as [r|] eqn:Hr.
  - rewrite (He _ _ Hr). f_equal. apply IH. intros q Hq. apply Hl. by right.
  - exfalso. apply (Hl p); [by left|done].
Qed.
Lemma allSettled_extends s s' l : extends s s' → allSettled s l → allSettled s' l.
Proof.
  intros He Hl p Hp. specialize (Hl p Hp). destruct (resultOf s p) as [r|] eqn:Hr; [|done]. by rewrite (He _ _ Hr).
Qed.
(** A change that starts nothing keeps the shutdown under way. *)
Lemma shutting_mono s s' c :
  extends s s' → (∀ p o, unsettled s' p o → unsettled s p o) →
  serverCloses (outputs s') = serverCloses (outputs s) → shutting s c → shutting s' c.
Proof.
  intros He Hu Hc [Ha Hl Hp]. split.
  - intros p o H. by apply Ha, Hu.
  - intros r Hr. destruct (Hl r Hr) as [Hall ->]. split; [by eapply allSettled_extends|].
    by rewrite (resultsOf_extends _ _ _ He Hall).
  - rewrite Hc. destruct (l_phase c); [done|..].
    + destruct Hp as (H1 & H2 & live & H3 & ->). split_and!; [done|by eapply allSettled_extends|].
      exists live. by rewrite (resultsOf_extends _ _ _ He H2).
    + destruct Hp as (H1 & H2 & live & server & H3 & H4 & ->). split_and!; [done|by eapply allSettled_extends|].
      exists live, server. by rewrite (resultsOf_extends _ _ _ He H2).
Qed.

(** ** What the operations change *)
Lemma emit_quiet o s : o ≠ ServerClose → serverCloses (outputs (emit o s)) = serverCloses (outputs s).
Proof. intros Ho. cbn. rewrite serverCloses_app. unfold serverCloses at 2. rewrite filter_cons_False by done. cbn. lia. Qed.
Lemma emit_listening o s : o ≠ ServerClose → listening s → listening (emit o s).
Proof.
  intros Ho [Hs Hop Hc]. split.
  - intros p k Hu Hn. exact (Hs p k Hu Hn).
  - intros Hn. rewrite emit_quiet by done. by apply Hop.
  - intros c Hcl. apply (shutting_mono s); [by intros p r|by intros p k|by apply emit_quiet|by apply Hc].
Qed.
Lemma settle_result p r s q : resultOf (settle p r s) q =
  if decide (q = p) then (λ _, r) <$> promises s !! p else resultOf s q.
Proof.
  unfold resultOf, settle. cbn. case_decide as Hq.
  - subst. rewrite list_lookup_alter_eq. by destruct (promises s !! p).
  - by rewrite list_lookup_alter_ne by done.
Qed.
Lemma settle_unsettled p r s q o : unsettled (settle p r s) q o → q ≠ p ∧ unsettled s q o.
Proof.
  unfold unsettled, settle. cbn. destruct (decide (q = p)) as [->|Hq].
  - rewrite list_lookup_alter_eq. by destruct (promises s !! p) as [[]|].
  - by rewrite list_lookup_alter_ne by done.
Qed.
Lemma settle_listening p r s : resultOf s p = None → listening s → listening (settle p r s).
Proof.
  intros Hp [Hs Hop Hc]. split.
  - intros q o [_ Hu]%settle_unsettled Hn. exact (Hs q o Hu Hn).
  - intros Hn. by apply Hop.
  - intros c Hcl. apply (shutting_mono s); [|by intros q o [_ ?]%settle_unsettled|done|by apply Hc].
    intros q x Hq. rewrite settle_result. case_decide as Hd; [|done]. subst. congruence.
Qed.
Lemma pending_spec s p o : pending s p o = true → unsettled s p o ∧ resultOf s p = None.
Proof.
  unfold pending, unsettled, resultOf. destruct (promises s !! p) as [[k r]|]; [|done]. cbn.
  rewrite andb_true_iff, bool_decide_eq_true. intros [-> Hr]. by destruct r.
Qed.
Lemma opened_listening o s : closing s = None → listening s → listening (opened o s).
Proof.
  intros Hn [Hs Hop Hc]. split; [|done|by intros c; cbn; rewrite Hn].
  intros p k. unfold unsettled, opened. cbn. rewrite lookup_app_Some. intros [Hp|[Hle Hp]] _.
  - specialize (Hs p k Hp Hn). destruct k, o; cbn; set_solver.
  - apply list_lookup_singleton_Some in Hp as [Hlen Heq]. simplify_eq.
    assert (p = length (promises s)) as -> by lia. destruct k; cbn; set_solver.
Qed.
Lemma opened_fresh o s : resultOf (opened o s) (length (promises s)) = None.
Proof. unfold resultOf, opened. cbn. by rewrite lookup_app_r, Nat.sub_diag by lia. Qed.
Lemma opened_pending o s p : resultOf s p = None → resultOf (opened o s) p = None.
Proof.
  unfold resultOf, opened. cbn. intros Hp. destruct (decide (p < length (promises s))).
  - by rewrite lookup_app_l by done.
  - rewrite lookup_app_r by lia. by destruct (p - length (promises s)).
Qed.
Lemma forget_listening p s : resultOf s p ≠ None → listening s → listening (forget p s).
Proof.
  intros Hp [Hs Hop Hc]. split; [|done|].
  - intros q o Hu Hn. specialize (Hs q o Hu Hn).
    assert (q ≠ p). { intros ->. apply Hp. unfold resultOf, unsettled in *. change (promises (forget p s)) with (promises s) in Hu. by rewrite Hu. }
    destruct o; cbn in *; apply list_elem_of_filter; auto.
  - intros c Hcl. apply (shutting_mono s); [by intros q r|by intros q o|done|by apply Hc].
Qed.
Lemma set_closing_listening c s :
  (closing s = None → shutting s c) → (∀ c0, closing s = Some c0 → shutting s c0 → shutting s c) →
  listening s → listening (set_closing c s).
Proof.
  intros H1 H2 [Hs Hop Hc]. split; [done..|]. intros c' [= <-].
  apply (shutting_mono s); [by intros p r|by intros p o|done|].
  destruct (closing s) as [c0|] eqn:Hcl; [by eapply H2, Hc|by apply H1].
Qed.
Lemma request_listening s : listening s → listening (request s).
Proof.
  intros Hs. unfold request, stopping. destruct (closing s) eqn:Hc; [by apply emit_listening|].
  apply emit_listening; [done|]. by apply opened_listening.
Qed.
Lemma arrives_listening path s : listening s → listening (arrives path s).
Proof.
  intros Hs. unfold arrives, stopping. destruct (closing s) eqn:Hc; [done|]. case_if; [by apply opened_listening|].
  apply settle_listening; [apply opened_fresh|by apply opened_listening].
Qed.
Lemma admitted_listening p admission destroyed s : listening s → listening (admitted p admission destroyed s).
Proof.
  intros Hs. unfold admitted. case_if; [|done]. apply pending_spec in Heqb as [Hu Hr].
  destruct (fst (upgrade _ _ _ _)) as [|z|f|who] eqn:Ha; try (by apply settle_listening; [|apply emit_listening]).
  unfold stopping in Ha. destruct (closing s) as [c|] eqn:Hc.
  { exfalso. unfold upgrade in Ha. cbn in Ha. by destruct admission as [[]|]. }
  apply settle_listening; [by apply opened_pending|]. apply emit_listening; [done|]. by apply opened_listening.
Qed.
(** A step of [close] that only moves its own state *)
Lemma closing_listening s c c' : closing s = Some c →
  (shutting s c → shutting s c') → listening s → listening (set_closing c' s).
Proof.
  intros Hc H. apply set_closing_listening; [congruence|]. intros c0 Hc0. rewrite Hc in Hc0. by injection Hc0 as <-.
Qed.
Lemma liveDrains_shutting s c : shutting s c → shutting s (liveDrains s c).
Proof.
  intros [H1 H2 H3]. unfold liveDrains. case_if; [|by split].
  apply andb_true_iff in Heqb as [_ Hall%settledAll_spec]. split; cbn; [done|by intros r [= <-]|].
  destruct (l_phase c) as [|drained|r0]; [done|..].
  - destruct H3 as (Hn & Hw & live & Hl & ->). split_and!; [done..|]. exists live. destruct (H2 live Hl) as [_ ->]. done.
  - destruct H3 as (Hn & Hw & live & server & Hl & Hsv & ->). split_and!; [done..|]. exists live, server.
    destruct (H2 live Hl) as [_ ->]. done.
Qed.
Lemma drains_listening c s : closing s = Some c → listening s → listening (drains c s).
Proof.
  intros Hc Hs. pose proof Hs as [Hsets Hopen Hcl]. unfold drains. destruct (l_phase c) eqn:Hph; try done.
  destruct (liveClosed c) as [live|] eqn:Hl; [|done]. case_if; [|done]. apply settledAll_spec in Heqb as Hall.
  destruct (Hcl c Hc) as [H1 H2 H3]. rewrite Hph in H3. destruct H3 as [_ Hzero].
  split; [done|done|]. intros c' [= <-]. split; cbn; [done| |].
  - intros r [= <-]. destruct (H2 live Hl) as [Ha ->]. split; [exact Ha|done].
  - rewrite !serverCloses_app, Hzero. split_and!; [done|exact Hall|]. eauto.
Qed.
Lemma finishes_shutting s c : shutting s c → shutting s (finishes c).
Proof.
  intros [H1 H2 H3]. unfold finishes. destruct (l_phase c) eqn:Hph; try (by split; [..|rewrite Hph]).
  destruct (serverClosed c) as [r|] eqn:Hsv; [|by split; [..|rewrite Hph]].
  destruct H3 as (Hn & Hw & live & Hl & ->). split; cbn; [done..|]. split_and!; [done..|]. eauto.
Qed.
Lemma step_listening s e : listening s → listening (step s e).
Proof.
  intros Hs. pose proof Hs as [Hsets Hopen Hcl].
  destruct e as [|path|p admission destroyed|p r|p| | | | |r|]; cbn [step];
    [by apply request_listening|by apply arrives_listening|by apply admitted_listening|..];
    try (destruct (closing s) as [c|] eqn:Hc; [|done]).
  - destruct (pending s p Work) eqn:H1; [apply pending_spec in H1 as [? ?]; by apply settle_listening|].
    destruct (pending s p Serving) eqn:H2; [apply pending_spec in H2 as [? ?]; by apply settle_listening|done].
  - unfold reacts. destruct (resultOf s p) eqn:Hr; [|done]. apply forget_listening; [congruence|done].
  - destruct (closing s) as [c|] eqn:Hc; [done|]. apply set_closing_listening; [|congruence|done].
    intros _. split; [|done|by split; [|apply Hopen]]. intros p o Hu. specialize (Hsets p o Hu eq_refl).
    destruct o; cbn; set_solver.
  - apply (closing_listening s c); [done| |done]. by intros [].
  - apply (closing_listening s c); [done|apply liveDrains_shutting|done].
  - by apply drains_listening.
  - destruct (l_phase c) eqn:Hph; try done. destruct (serverClosed c) eqn:Hsv; [done|].
    apply (closing_listening s c); [done| |done]. intros [H1 H2 H3]. by split; cbn; rewrite Hph in *.
  - apply (closing_listening s c); [done|apply finishes_shutting|done].
Qed.
Lemma run_listening l : listening (run l).
Proof.
  unfold run. assert (listening newListener) as H by (split; [|done|done]; intros p o Hu; by apply lookup_nil_Some in Hu || done).
  revert H. generalize newListener. induction l as [|e l IH]; intros s Hs; [done|]. by apply IH, step_listening.
Qed.

(** ** Nothing starts once [close] was called *)
Lemma step_closing s e : closing s ≠ None → closing (step s e) ≠ None ∧
  omap started (outputs (step s e)) = omap started (outputs s).
Proof.
  intros Hc. assert (∀ o, started o = None → omap started (outputs s ++ [o]) = omap started (outputs s)) as Hq.
  { intros o Ho. rewrite omap_app. cbn. rewrite Ho. by rewrite app_nil_r. }
  destruct e as [|path|p admission destroyed|p r|p| | | | |r|]; cbn [step];
    unfold request, arrives, admitted, reacts, drains, stopping; destruct (closing s) as [c|] eqn:Hcl; try done.
  - split; [by cbn; rewrite Hcl|by apply Hq].
  - by rewrite Hcl.
  - destruct (pending s p Upgrading); [|by rewrite Hcl].
    destruct (fst (upgrade _ _ _ _)) as [|z|f|who] eqn:Ha; try (split; [by cbn; rewrite Hcl|by apply Hq]).
    exfalso. unfold upgrade in Ha. cbn in Ha. by destruct admission as [[]|].
  - case_if; split; cbn; congruence.
  - destruct (resultOf s p); split; cbn; congruence.
  - by rewrite Hcl.
  - destruct (l_phase c), (liveClosed c); try by rewrite Hcl.
    case_if; [|by rewrite Hcl]. split; [done|]. cbn. rewrite !omap_app. cbn. by rewrite !app_nil_r.
  - destruct (l_phase c), (serverClosed c); try done; by rewrite Hcl.
Qed.
Lemma listener_run_app l k : run (l ++ k) = foldl step (run l) k.
Proof. apply foldl_app. Qed.
Lemma closing_starts l s : closing s ≠ None →
  closing (foldl step s l) ≠ None ∧ omap started (outputs (foldl step s l)) = omap started (outputs s).
Proof.
  revert s. induction l as [|e l IH]; intros s Hs; [done|]. cbn [foldl].
  destruct (step_closing s e Hs) as [H1 <-]. by apply IH.
Qed.
Lemma close_called s : closing (step s Close) ≠ None ∧ omap started (outputs (step s Close)) = omap started (outputs s).
Proof. cbn [step]. by destruct (closing s) eqn:H; [rewrite H|]. Qed.

(** By the time the server is told to close, every Promise has settled. *)
Lemma server_closed_settled s : listening s → ServerClose ∈ outputs s → ∀ p x, promises s !! p = Some x → p_result x ≠ None.
Proof.
  intros [Hsets Hopen Hcl] Hin p [o x] Hp Hn. cbn in Hn. subst.
  assert (serverCloses (outputs s) ≠ 0) as Hne.
  { unfold serverCloses. apply list_elem_of_split in Hin as (a & b & ->).
    rewrite filter_app, filter_cons_True, length_app by done. cbn. lia. }
  destruct (closing s) as [c|] eqn:Hc; [|by rewrite Hopen in Hne].
  destruct (Hcl c eq_refl) as [Ha Hl Hph].
  assert (resultOf s p = None) as Hr by (unfold resultOf; by rewrite Hp).
  assert (allSettled s (waiting c) ∧ allSettled s (owned c)) as [Hw Ho].
  { destruct (l_phase c); [by destruct Hph| |].
    - destruct Hph as (_ & Hw & live & Hlive & _). split; [done|]. by destruct (Hl live Hlive).
    - destruct Hph as (_ & Hw & live & server & Hlive & _). split; [done|]. by destruct (Hl live Hlive). }
  specialize (Ha p o Hp). destruct o; cbn in Ha; [by apply (Hw p)|by apply (Ho p)|by apply (Ho p)].
Qed.

(** C28: closing a listener drains it.  Whatever requests, upgrades, sockets and
    callbacks follow one another: once [close] was called no handler and no
    session starts; the server is told to close at most once, and by then every
    request, upgrade and session the listener ever took has settled; and [close]
    answers the first failure among the live sessions, the requests that were in
    flight and the server, in that order, else success. *)
Theorem listener_shutdown l :
  let s := run l in
  (∀ before after, l = before ++ Close :: after →
     omap started (outputs s) = omap started (outputs (run before))) ∧
  serverCloses (outputs s) ≤ 1 ∧
  (ServerClose ∈ outputs s → ∀ p x, promises s !! p = Some x → p_result x ≠ None) ∧
  (∀ c r, closing s = Some c → l_phase c = Over r →
     ∃ server, serverClosed c = Some server ∧ allSettled s (owned c ++ waiting c) ∧
       r = firstRejected (firstRejected (resultsOf s (owned c)) :: resultsOf s (waiting c) ++ [server])).
Proof.
  cbv zeta. pose proof (run_listening l) as Hlis. pose proof Hlis as [Hsets Hopen Hcl]. split_and!.
  - intros before after ->. rewrite listener_run_app. cbn [foldl]. destruct (close_called (run before)) as [H1 <-].
    by apply closing_starts.
  - destruct (closing (run l)) as [c|]; [|by rewrite Hopen; [lia|]].
    destruct (Hcl c eq_refl) as [_ _ H]. destruct (l_phase c); destruct H; lia.
  - by apply server_closed_settled.
  - intros c r Hc Hph. destruct (Hcl c Hc) as [Ha Hl H]. rewrite Hph in H.
    destruct H as (_ & Hw & live & server & Hlive & Hserver & ->). destruct (Hl live Hlive) as [Ho ->].
    exists server. split_and!; [done| |done]. intros p [?|?]%elem_of_app; [by apply Ho|by apply Hw].
Qed.

(** Closing a listener ends.  Whatever happened before, once the sessions,
    upgrades and requests [close] waits for have settled and the sockets have
    closed, its continuations and the server's callback lead to an answer. *)
Theorem listener_closes l r c :
  closing (run l) = Some c → socketsClosed c = true → allSettled (run l) (owned c ++ waiting c) →
  ∃ c' answer, closing (run (l ++ [LiveDrained; Drained; ServerClosed r; Closed])) = Some c' ∧ l_phase c' = Over answer.
Proof.
  intros Hc Hsock Hall. rewrite listener_run_app. pose proof (li_closing _ (run_listening l) c Hc) as [_ _ Hph].
  generalize dependent (run l). intros s Hc Hall Hph.
  assert (settledAll s (owned c) = true) as Ho by (apply settledAll_spec; intros p Hp; apply Hall, elem_of_app; by left).
  assert (settledAll s (waiting c) = true) as Hw by (apply settledAll_spec; intros p Hp; apply Hall, elem_of_app; by right).
  assert (liveDrains s c = Shutdown (owned c) (waiting c) true (Some (firstRejected (resultsOf s (owned c))))
            (serverClosed c) (l_phase c)) as Hd by (unfold liveDrains; by rewrite Hsock, Ho).
  cbn [foldl]. unfold step at 4. rewrite Hc, Hd. clear Hd.
  destruct c as [ow wa so li se ph]. cbn in Hph, Hw |- *. destruct ph as [|drained|r0]; cbn [step closing set_closing l_phase liveClosed].
  - destruct Hph as [-> _]. unfold drains. cbn [l_phase liveClosed waiting].
    match goal with |- context [settledAll ?x ?l] => change (settledAll x l) with (settledAll s wa) end.
    rewrite Hw. cbn. eauto.
  - destruct se; cbn; eauto.
  - destruct se; cbn; eauto.
Qed.

(** A request and a socket in flight when the application closes; the request
    fails, and its failure is what [close] answers. *)
Definition demo_shutdown : list event :=
  [Request; Upgrade (Some "/sync/live"%string); AdmissionSettled 1 (Ok (Some "ann"%string, None)) false; Close; Request;
   Settles 2 (Ok tt); Settles 0 (Throw (Error "broken")); Reacts 0; SocketsClosed].
Lemma listener_closes_witness :
  ∃ c' answer, closing (run (demo_shutdown ++ [LiveDrained; Drained; ServerClosed (Ok tt); Closed])) = Some c' ∧
    l_phase c' = Over answer.
Proof.
  assert (∃ c, closing (run demo_shutdown) = Some c) as [c Hc] by (vm_compute; eauto).
  eapply (listener_closes demo_shutdown (Ok tt) c); [exact Hc|vm_compute in Hc; by injection Hc as <-|].
  vm_compute in Hc. injection Hc as <-. intros p Hp. cbn in Hp.
  rewrite !elem_of_cons in Hp. destruct Hp as [->|[->|[->|Hp]]]; [vm_compute; discriminate..|].
  by apply not_elem_of_nil in Hp.
Defined.
Example demo_shutdown_answers :
  (closing (run (demo_shutdown ++ [LiveDrained; Drained; ServerClosed (Ok tt); Closed])) ≫= λ c,
     Some (l_phase c)) = Some (Over (Throw (Error "broken"))).
Proof. vm_compute. reflexivity. Qed.
