(* ===== verification/Serving.v ===== *)
(** A serving process: the listener and its live sockets ([connection/listener.mts],
    [attachLive] and [serveLive] of [connection/live.mts]) over the wake hub of
    [api/backend.mts].

    [Listener] knows a session by its Promise; [Live] says what the session does, and
    asks for Streams; [Sessions] has the hub that wakes it.  Here they are one state:
    a session listens by subscribing a closure of its own, a commit queues the closures
    of its Streams as microtasks, closing the listener closes every socket, and the
    Promise of a session settles when the session is over, not before.  The hub is not
    cleared while it serves ([closeLive]). *)
From S2P Require Import Prelude Text Http Sessions Live Listener.
Open Scope nat_scope.
Open Scope axton_scope.

Record subscription := Subscription { s_session : nat; s_stream : string; s_wake : nat; s_set : nat }.
(** The first cleanup of a session that has not run, and the others *)
Fixpoint takeCleanup (p : nat) (l : list subscription) : option (subscription * list subscription) :=
  match l with
  | [] => None
  | x :: l =>
      if decide (s_session x = p) then Some (x, l)
      else match takeCleanup p l with Some (y, l) => Some (y, x :: l) | None => None end
  end.

Section serving.
Context {C : Type}.
Variable liveEvent : live_event → C → result (list live_action) * C.
Variable hasPull : bool.
Variable idle : C.                               (* a controller not negotiated yet *)

Record serving := Serving_ {
  net : listener;
  lives : gmap nat (live (C := C));              (* the sessions, by their Promises *)
  wakeHub : hub;
  closures : list (nat * string);                (* every wake made: its session, its Stream *)
  cleanups : list subscription;                  (* those of [onCommitted] not run yet *)
  microtasks : list nat }.
Definition newServing : serving := Serving_ newListener ∅ newHub [] [] [].
Definition set_net n (s : serving) := Serving_ n (lives s) (wakeHub s) (closures s) (cleanups s) (microtasks s).
Definition set_lives l (s : serving) := Serving_ (net s) l (wakeHub s) (closures s) (cleanups s) (microtasks s).
Definition set_microtasks l (s : serving) := Serving_ (net s) (lives s) (wakeHub s) (closures s) (cleanups s) l.

(** What a session says to the hub: [onCommitted], and running a cleanup *)
Definition perform (p : nat) (s : serving) (o : Live.output) : serving :=
  match o with
  | Listened stream =>
      let w := length (closures s) in
      let '(h, set) := subscribe stream w (wakeHub s) in
      Serving_ (net s) (lives s) h (closures s ++ [(p, stream)]) (cleanups s ++ [Subscription p stream w set]) (microtasks s)
  | Unlistened _ =>
      match takeCleanup p (cleanups s) with
      | Some (x, l) =>
          Serving_ (net s) (lives s) (unsubscribe (s_stream x) (s_wake x) (s_set x) (wakeHub s)) (closures s) l (microtasks s)
      | None => s
      end
  | _ => s
  end.
Definition advance (p : nat) (e : Live.event) (s : serving) : serving :=
  match lives s !! p with
  | Some x =>
      let y := Live.step liveEvent hasPull x e in
      foldl (perform p) (set_lives (<[p := y]> (lives s)) s) (drop (length (Live.outputs x)) (Live.outputs y))
  | None => s
  end.
Definition isOver (x : live (C := C)) : bool :=
  match Live.l_phase x, pulls x with Live.Draining, O => true | _, _ => false end.
(** [socket.close(1001, "closing")], of a socket that is not closing already *)
Definition sessionOver (p : nat) (s : serving) : bool :=
  match lives s !! p with Some x => isOver x | None => false end.
Definition closesSocket (x : live (C := C)) : live :=
  if Live.open x then closeSocket 1001 "closing" x else x.

Inductive event :=
| Outside (e : Listener.event)
| OfSession (p : nat) (e : Live.event (C := C))
| Commits (streams : list string)                (* [notifyCommitted] *)
| Microtask.
Definition outside (e : Listener.event) (s : serving) : serving :=
  match e with
  | Settles p _ =>
      if pending (net s) p Serving && negb (sessionOver p s) then s else set_net (Listener.step (net s) e) s
  | AdmissionSettled _ _ _ =>
      let p := length (promises (net s)) in
      let n := Listener.step (net s) e in
      set_net n (match promises n !! p with
                 | Some _ => set_lives (<[p := newLive idle]> (lives s)) s   (* [serveLive] *)
                 | None => s
                 end)
  | Close =>
      let s' := set_net (Listener.step (net s) Close) s in
      if stopping (net s) then s' else set_lives (closesSocket <$> lives s) s'
  | _ => set_net (Listener.step (net s) e) s
  end.
Definition step (s : serving) (e : event) : serving :=
  match e with
  | Outside e => outside e s
  | OfSession p (Wake _) => s                    (* wakes come from the hub *)
  | OfSession p e => advance p e s
  | Commits streams => set_microtasks (microtasks s ++ notify streams (wakeHub s)) s
  | Microtask =>
      match microtasks s with
      | [] => s
      | w :: l =>
          let s := set_microtasks l s in
          match closures s !! w with Some (p, stream) => advance p (Wake stream) s | None => s end
      end
  end.
Definition run (l : list event) : serving := foldl step newServing l.
End serving.
