(* ===== verification/ServingFacts.v ===== *)
(** A serving process that closes leaves nothing listening: the hub wakes exactly the
    sessions that listen, and by the time the server is told to close every session has
    released its controller and given its Streams and pulls back. *)
From S2P Require Import Prelude Text Http Sessions Live LiveFacts Listener ListenerFacts Serving.
Open Scope nat_scope.
Open Scope axton_scope.

(** * What a session says to the hub, against the Streams it listens to *)
Fixpoint replay (d : list Live.output) (l : list string) : option (list string) :=
  match d with
  | [] => Some l
  | Listened stream :: d => replay d (l ++ [stream])
  | Unlistened stream :: d =>
      match l with h :: l => if decide (h = stream) then replay d l else None | [] => None end
  | _ :: d => replay d l
  end.
Lemma replay_app d e l : replay (d ++ e) l = replay d l ≫= replay e.
Proof.
  revert l. induction d as [|o d IH]; intros l; [done|]. destruct o as [| | | |stream| | | | | |]; simpl; try apply IH.
  destruct l as [|h l]; simpl; [done|]. by destruct (decide (h = stream)); [apply IH|].
Qed.
Section sessions.
Context {C : Type}.
Variable liveEvent : live_event → C → result (list live_action) * C.
Variable hasPull : bool.
Implicit Types x y : live (C := C).
(** [y] is [x] after saying more, with the Streams this says. *)
Definition says x y : Prop := ∃ d, Live.outputs y = Live.outputs x ++ d ∧ replay d (Live.listening x) = Some (Live.listening y).
#[local] Instance says_preorder : PreOrder says.
Proof.
  split; [by intros x; exists []; rewrite app_nil_r|].
  intros x y z (d & Hd & Rd) (e & He & Re). exists (d ++ e). split; [by rewrite He, Hd, app_assoc|].
  rewrite replay_app, Rd. exact Re.
Qed.
Lemma says_same x y : Live.outputs y = Live.outputs x → Live.listening y = Live.listening x → says x y.
Proof. intros Ho Hl. exists []. by rewrite app_nil_r, Hl. Qed.
Definition quiet (o : Live.output) : Prop := match o with Listened _ | Unlistened _ => False | _ => True end.
Lemma says_quiet o x y : quiet o → Live.outputs y = Live.outputs x ++ [o] → Live.listening y = Live.listening x → says x y.
Proof. intros Hq Ho Hl. exists [o]. split; [done|]. rewrite Hl. by destruct o. Qed.
Lemma fail_says e x : says x (fail e x).
Proof.
  unfold fail. cbv zeta. etrans; [by apply (says_quiet (Reported e) x (say (Reported e) x))|].
  destruct (Live.open _); [|done]. by eapply (says_quiet (ClosedSocket 1011 "server")).
Qed.
Lemma execute_says actions x : says x (execute hasPull actions x).
Proof.
  revert x. induction actions as [|a actions IH]; intros x; [done|]. destruct a as [request|stream|frame_]; cbn [execute].
  - destruct hasPull; [|apply fail_says]. cbv zeta. etrans; [|apply IH]. by apply (says_quiet (PullStarted request)).
  - cbv zeta. etrans; [|apply IH]. by exists [Listened stream].
  - etrans; [|apply IH]. destruct (Live.open x); [|done]. by apply (says_quiet (Sent frame_)).
Qed.
Lemma dispatch_says e x : says x (dispatch liveEvent hasPull e x).
Proof.
  unfold dispatch. destruct (_ && _); [|done]. destruct (liveEvent e (controller x)) as [r c]. cbv zeta.
  etrans; [by apply (says_quiet (Controller e) x (set_controller c (say (Controller e) x)))|].
  destruct r; [apply execute_says|apply fail_says].
Qed.
Lemma unlisten_says x : says x (set_phase Live.Draining (set_listening [] (foldl (λ s stream, say (Unlistened stream) s) x (Live.listening x)))).
Proof.
  assert (∀ l x, Live.outputs (foldl (λ s stream, say (Unlistened stream) s) x l) = Live.outputs x ++ (Unlistened <$> l)) as H.
  { induction l as [|s l IH]; intros y; cbn [foldl]; [by rewrite app_nil_r|]. rewrite IH. cbn. by rewrite <-app_assoc. }
  exists (Unlistened <$> Live.listening x). split; [apply H|]. cbn.
  induction (Live.listening x) as [|s l IH]; [done|]. cbn. by rewrite decide_True.
Qed.
Lemma leave_says x : says x (leave liveEvent hasPull x).
Proof.
  unfold leave. cbv zeta. etrans; [|apply unlisten_says]. destruct (negotiated x); [|done].
  etrans; [apply (dispatch_says ClosedEvent)|]. by eapply (says_quiet Released).
Qed.
Lemma gone_says x : says x (set_open false (say Gone x)).
Proof. by apply (says_quiet Gone). Qed.
Lemma ended_says x : says x (ended liveEvent hasPull x).
Proof.
  unfold ended. destruct (Live.l_phase x); try done; try (by apply says_same); [|apply dispatch_says].
  etrans; [apply (dispatch_says ClosedEvent)|]. by apply says_same.
Qed.
Lemma catch_says e x : says x (catch_ e x).
Proof.
  unfold catch_. destruct (refusedCode e).
  - destruct (Live.open x); [|done]. by eapply (says_quiet (ClosedSocket 1002 _)).
  - etrans; [|by apply (says_quiet (Reported e))]. destruct (Live.open x); [|done]. by eapply (says_quiet (ClosedSocket 1011 _)).
Qed.
Lemma liveStep_says e x : says x (Live.step liveEvent hasPull x e).
Proof.
  destruct e as [data| |e|answer|stream|r|]; cbn [Live.step].
  - destruct (Live.l_phase x); try done;
      (destruct (settled x); [by eapply (says_quiet (ClosedSocket 1002 _))|]); cbv zeta;
      first [by eapply (says_quiet (Negotiate data))|by apply says_same].
  - etrans; [apply gone_says|apply ended_says].
  - cbv zeta. etrans; [apply gone_says|]. destruct (Live.l_phase _); first [apply ended_says|by apply says_same].
  - destruct (Live.l_phase x); try done. destruct answer as [[c actions]|e]; [|by apply says_same].
    cbv zeta. destruct (Live.open _); [|by apply says_same].
    etrans; [|by apply says_same]. etrans; [|apply execute_says]. by apply says_same.
  - case_bool_decide; [apply dispatch_says|done].
  - destruct (pulls x); [done|]. cbv zeta. etrans; [|by apply (says_quiet PullSettled)].
    destruct r; [apply dispatch_says|apply fail_says].
  - destruct (Live.l_phase x) as [| | |[|e]|]; try done; [apply leave_says|]. etrans; [apply (catch_says e)|apply leave_says].
Qed.
End sessions.

(** * The hub holds exactly the cleanups that have not run *)
Definition onStream (stream : string) (l : list subscription) : list subscription := filter (λ x, s_stream x = stream) l.
Definition ofSession (p : nat) (l : list subscription) : list subscription := filter (λ x, s_session x = p) l.
Record follows (h : hub) (made : list (nat * string)) (l : list subscription) : Prop := {
  fo_ok : hub_ok h;
  fo_set x : x ∈ l → listeners h !! s_stream x = Some (s_set x);
  fo_wakes stream : Sessions.listening h stream = s_wake <$> onStream stream l;
  fo_held stream : is_Some (listeners h !! stream) → onStream stream l ≠ [];
  fo_distinct : NoDup (s_wake <$> l);
  fo_made x : x ∈ l → made !! s_wake x = Some (s_session x, s_stream x) }.
Lemma newHub_follows : follows newHub [] [].
Proof. split; [apply newHub_ok|by intros ? ?%not_elem_of_nil|done|by intros stream [set ?]|constructor|by intros ? ?%not_elem_of_nil]. Qed.
Lemma subscribe_follows h made l p stream : follows h made l →
  let '(h', set) := subscribe stream (length made) h in
  follows h' (made ++ [(p, stream)]) (l ++ [Subscription p stream (length made) set]).
Proof.
  intros [Hok Hset Hw Hheld Hnd Hmade].
  assert (length made ∉ s_wake <$> l) as Hfresh.
  { intros (x & Hx & Hin)%list_elem_of_fmap. apply Hmade, lookup_lt_Some in Hin. lia. }
  pose proof (subscribe_ok stream (length made) h Hok) as Hok'.
  assert (∀ other, Sessions.listening (subscribe stream (length made) h).1 other =
    if decide (other = stream) then addOnce (length made) (Sessions.listening h stream) else Sessions.listening h other) as Hlis.
  { intros other. by apply (wakeHub_subscriptions stream _ 0 h other). }
  assert (∀ x, x ∈ l → listeners (subscribe stream (length made) h).1 !! s_stream x = Some (s_set x)) as Hkeep.
  { intros x Hx. specialize (Hset x Hx). unfold subscribe. destruct (listeners h !! stream) as [set|] eqn:Hs; [done|]. cbn.
    rewrite lookup_insert_ne; [done|]. intros E. rewrite <-E, Hs in Hset. done. }
  assert (listeners (subscribe stream (length made) h).1 !! stream = Some (subscribe stream (length made) h).2
    ∧ ∀ other, other ≠ stream → listeners (subscribe stream (length made) h).1 !! other = listeners h !! other) as [Hnew Hothers].
  { unfold subscribe. destruct (listeners h !! stream) as [set|] eqn:Hs; [done|]. cbn. split; [apply lookup_insert_eq|].
    intros other Ho. by rewrite lookup_insert_ne. }
  destruct (subscribe stream (length made) h) as [h' set]. cbn in *. split; [done|..].
  - intros x [Hx| ->%list_elem_of_singleton]%elem_of_app; [by apply Hkeep|done].
  - intros other. rewrite Hlis. unfold onStream. rewrite filter_app, fmap_app. case_decide as Ho.
    + subst other. rewrite filter_cons_True by done. unfold addOnce. rewrite decide_False; [by rewrite Hw|].
      rewrite Hw. intros (x & Hx & [_ Hin]%list_elem_of_filter)%list_elem_of_fmap. apply Hfresh. rewrite Hx. by apply list_elem_of_fmap_2.
    + rewrite filter_cons_False by (cbn; congruence). cbn. by rewrite app_nil_r, Hw.
  - intros other [x Hx]. unfold onStream. rewrite filter_app. intros [H1 H2]%app_eq_nil.
    destruct (decide (other = stream)) as [->|Ho]; [by rewrite filter_cons_True in H2|].
    apply (Hheld other); [|exact H1]. rewrite <-Hothers by done. by exists x.
  - rewrite fmap_app. apply NoDup_app. split; [done|]. split; [|apply NoDup_singleton].
    intros w Hin ->%list_elem_of_singleton. done.
  - intros x [Hx| ->%list_elem_of_singleton]%elem_of_app; [by apply lookup_app_l_Some, Hmade|]. cbn.
    rewrite lookup_app_r, Nat.sub_diag by lia. done.
Qed.
Lemma takeCleanup_Some p l x l' : takeCleanup p l = Some (x, l') →
  ∃ a b, l = a ++ x :: b ∧ l' = a ++ b ∧ s_session x = p ∧ Forall (λ y, s_session y ≠ p) a.
Proof.
  revert l'. induction l as [|y l IH]; intros l'; cbn; [done|]. case_decide as Hy.
  - intros [= <- <-]. by exists [], l.
  - destruct (takeCleanup p l) as [[z k]|] eqn:E; [|done]. intros [= -> <-].
    destruct (IH _ eq_refl) as (a & b & -> & -> & Hx & Ha). exists (y :: a), b. split_and!; [done..|by constructor].
Qed.
Lemma takeCleanup_None p l : takeCleanup p l = None → ofSession p l = [].
Proof.
  unfold ofSession. induction l as [|y l IH]; cbn [takeCleanup]; [done|]. case_decide as Hy; [done|].
  destruct (takeCleanup p l) as [[]|]; [done|]. intros _. rewrite filter_cons_False by done. by apply IH.
Qed.
Lemma filter_fmap_wakes w (l : list subscription) :
  filter (λ v, v ≠ w) (s_wake <$> l) = s_wake <$> filter (λ y, s_wake y ≠ w) l.
Proof.
  induction l as [|y l IH]; [done|]. rewrite fmap_cons, !filter_cons. destruct (decide (s_wake y ≠ w)); [|exact IH].
  by rewrite fmap_cons, IH.
Qed.
(** Where the wakes are distinct, taking one subscription out takes its wake out. *)
Lemma others_wakes a x b stream : NoDup (s_wake <$> a ++ x :: b) → s_stream x = stream →
  filter (λ w, w ≠ s_wake x) (s_wake <$> onStream stream (a ++ x :: b)) = s_wake <$> onStream stream (a ++ b).
Proof.
  rewrite fmap_app. cbn. intros (_ & Ha & [Hb _]%NoDup_cons)%NoDup_app Hx.
  assert (∀ k, (∀ y, y ∈ k → s_wake y ≠ s_wake x) → filter (λ y, s_wake y ≠ s_wake x) (onStream stream k) = onStream stream k) as Hsame.
  { intros k Hk. induction k as [|y k IH]; [done|]. assert (s_wake y ≠ s_wake x) as Hy by (apply Hk; left).
    unfold onStream. rewrite (filter_cons (λ x, s_stream x = stream)).
    case_decide; [rewrite filter_cons_True by done; f_equal|]; apply IH; intros z Hz; apply Hk; by right. }
  rewrite filter_fmap_wakes. unfold onStream. rewrite !filter_app, (filter_cons_True _ x) by done.
  rewrite filter_cons_False by (intros H; by apply H).
  fold (onStream stream a) (onStream stream b).
  rewrite (Hsame a), (Hsame b); [done|..]; intros y Hy E.
  - apply Hb. rewrite <-E. by apply list_elem_of_fmap_2.
  - apply (Ha (s_wake y)); [by apply list_elem_of_fmap_2|]. rewrite E. left.
Qed.
Lemma unsubscribe_follows h made a x b : follows h made (a ++ x :: b) →
  follows (unsubscribe (s_stream x) (s_wake x) (s_set x) h) made (a ++ b).
Proof.
  intros [Hok Hset Hw Hheld Hnd Hmade].
  assert (x ∈ a ++ x :: b) as Hx by (apply elem_of_app; right; left).
  assert (∀ y, y ∈ a ++ b → y ∈ a ++ x :: b) as Hsub by (intros y; rewrite !elem_of_app, elem_of_cons; tauto).
  assert (∀ stream, stream ≠ s_stream x → onStream stream (a ++ x :: b) = onStream stream (a ++ b)) as Hother.
  { intros stream Hs. unfold onStream. by rewrite !filter_app, filter_cons_False. }
  pose proof (Hset x Hx) as Hsx.
  assert (filter (λ w, w ≠ s_wake x) (members_of h (s_set x)) = s_wake <$> onStream (s_stream x) (a ++ b)) as Hmem.
  { rewrite <-(others_wakes a x b) by done. rewrite <-Hw. unfold Sessions.listening. by rewrite Hsx. }
  split.
  - by apply unsubscribe_ok.
  - intros y Hy. specialize (Hset y (Hsub y Hy)). unfold unsubscribe. cbn [listeners]. case_decide as He; [|done].
    rewrite lookup_delete_ne; [done|]. intros E. rewrite Hmem in He. apply fmap_nil_inv in He.
    assert (y ∈ onStream (s_stream x) (a ++ b)) as Hin by (by apply list_elem_of_filter). rewrite He in Hin. by apply not_elem_of_nil in Hin.
  - intros stream. destruct (wakeHub_subscriptions (s_stream x) (s_wake x) (s_set x) h stream Hok) as [_ H]. rewrite (H Hsx).
    case_decide as E; [subst stream; by rewrite Hw, others_wakes|]. by rewrite Hw, Hother.
  - intros stream Hs E. unfold unsubscribe in Hs. cbn [listeners] in Hs. rewrite Hmem in Hs. destruct (decide (stream = s_stream x)) as [->|Hne].
    + rewrite E in Hs. rewrite decide_True in Hs by done. rewrite lookup_delete_eq in Hs. by destruct Hs.
    + apply (Hheld stream); [|by rewrite Hother]. case_decide; [by rewrite lookup_delete_ne in Hs|done].
  - rewrite fmap_app in *. cbn in Hnd. apply NoDup_app in Hnd as (H1 & H2 & [H3 H4]%NoDup_cons).
    apply NoDup_app. split_and!; [done| |done]. intros w Hw1 Hw2. apply (H2 w Hw1). by right.
  - intros y Hy. by apply Hmade, Hsub.
Qed.

(** * The sessions of the listener *)
Definition settlesOf (e : Listener.event) : option nat := match e with Settles p _ => Some p | _ => None end.
Lemma settle_serving p r (n : listener) q k :
  (∃ x, promises n !! p = Some x ∧ p_owner x ≠ Serving) →
  promises (settle p r n) !! q = Some (Promise Serving k) → promises n !! q = Some (Promise Serving k).
Proof.
  intros (x & Hx & Ho). cbn. destruct (decide (q = p)) as [->|Hne]; [|by rewrite list_lookup_alter_ne].
  rewrite list_lookup_alter_eq, Hx. cbn. intros [= E _]. by destruct Ho.
Qed.
Lemma opened_serving o (n : listener) q k : promises (opened o n) !! q = Some (Promise Serving k) →
  promises n !! q = Some (Promise Serving k) ∨ (q = length (promises n) ∧ o = Serving ∧ k = None).
Proof.
  cbn. rewrite lookup_app_Some. intros [H|[Hle H]]; [by left|right].
  apply list_lookup_singleton_Some in H as [Hq [= <- <-]]. split_and!; [lia|done..].
Qed.
Lemma opened_length o (n : listener) : length (promises (opened o n)) = S (length (promises n)).
Proof. cbn. rewrite length_app. cbn. lia. Qed.
(** Promises keep their owners. *)
Definition keeps (n n' : listener) : Prop :=
  ∀ q o r, promises n !! q = Some (Promise o r) → ∃ r', promises n' !! q = Some (Promise o r').
#[local] Instance keeps_preorder : PreOrder keeps.
Proof.
  split; [by intros n q o r Hq; exists r|]. intros a b c Hab Hbc q o r Hq. destruct (Hab q o r Hq) as [r' Hq']. by eapply Hbc.
Qed.
Lemma keeps_same (n n' : listener) : promises n' = promises n → keeps n n'.
Proof. intros H q o r Hq. exists r. by rewrite H. Qed.
Lemma settle_keeps p r (n : listener) : keeps n (settle p r n).
Proof.
  intros q o k Hq. cbn. destruct (decide (q = p)) as [->|Hne].
  - rewrite list_lookup_alter_eq, Hq. by eexists.
  - rewrite list_lookup_alter_ne by done. by eexists.
Qed.
Lemma opened_keeps o (n : listener) : keeps n (opened o n).
Proof. intros q k r Hq. exists r. cbn. by apply lookup_app_l_Some. Qed.
(** The admission of an upgrade starts at most one session, and settles none. *)
Lemma admitted_keeps p admission destroyed (n : listener) : keeps n (admitted p admission destroyed n).
Proof.
  unfold admitted. destruct (pending n p Upgrading); [|done].
  destruct (fst (upgrade _ _ _ _)); (etrans; [|apply settle_keeps]); try (by apply keeps_same).
  etrans; [apply opened_keeps|by apply keeps_same].
Qed.
Lemma admitted_serving p admission destroyed (n : listener) q k :
  promises (admitted p admission destroyed n) !! q = Some (Promise Serving k) →
  promises n !! q = Some (Promise Serving k) ∨ (q = length (promises n) ∧ k = None).
Proof.
  unfold admitted. destruct (pending n p Upgrading) eqn:Hp; [|by left].
  apply pending_spec in Hp as [Hu _]. unfold unsettled in Hu.
  destruct (fst (upgrade _ _ _ _)) as [|z|f|who]; try (intros H; left; eapply settle_serving; [|exact H]; by eexists).
  intros H. apply settle_serving in H.
  2:{ exists (Promise Upgrading None). split; [|done]. cbn. by rewrite lookup_app_l by by eapply lookup_lt_Some. }
  apply opened_serving in H as [H|(-> & _ & ->)]; auto.
Qed.
(** What an admission opens is a session, and nothing while closing. *)
Lemma admitted_opens p admission destroyed (n : listener) x :
  promises (admitted p admission destroyed n) !! length (promises n) = Some x → x = Promise Serving None ∧ closing n = None.
Proof.
  assert (promises n !! length (promises n) = None) as Hend by by apply lookup_ge_None.
  unfold admitted. destruct (pending n p Upgrading) eqn:Hp; [|by rewrite Hend].
  apply pending_spec in Hp as [Hu _]. unfold unsettled in Hu. apply lookup_lt_Some in Hu.
  destruct (fst (upgrade _ _ _ _)) as [|z|f|who] eqn:Ha; cbn; rewrite list_lookup_alter_ne by lia; rewrite ?Hend; try done.
  rewrite lookup_app_r, Nat.sub_diag by lia. intros [= <-]. split; [done|]. unfold stopping in Ha.
  destruct (closing n); [|done]. unfold upgrade in Ha. cbn in Ha. by destruct admission as [[]|].
Qed.
Lemma net_serving (n : listener) e q k : settlesOf e ≠ Some q → (∀ p a d, e ≠ AdmissionSettled p a d) →
  promises (Listener.step n e) !! q = Some (Promise Serving k) → promises n !! q = Some (Promise Serving k).
Proof.
  intros Hs Ha. destruct e as [|path|p a d|p r|p| | | | |r|]; cbn [Listener.step].
  - unfold request. destruct (stopping n); [done|]. intros H. by apply opened_serving in H as [H|(_ & [=] & _)].
  - unfold arrives. destruct (stopping n); [done|]. destruct (ourPath path).
    + intros H. by apply opened_serving in H as [H|(_ & [=] & _)].
    + intros H. apply settle_serving in H.
      2:{ exists (Promise Upgrading None). split; [|done]. cbn. by rewrite lookup_app_r, Nat.sub_diag by lia. }
      by apply opened_serving in H as [H|(_ & [=] & _)].
  - by destruct (Ha p a d).
  - cbn in Hs. destruct (_ || _); [|done]. cbn. by rewrite list_lookup_alter_ne by congruence.
  - unfold reacts. by destruct (resultOf n p).
  - by destruct (closing n).
  - by destruct (closing n).
  - by destruct (closing n).
  - destruct (closing n) as [c|]; [|done]. unfold drains. destruct (l_phase c), (liveClosed c); try done. by destruct (settledAll _ _).
  - destruct (closing n) as [c|]; [|done]. by destruct (l_phase c), (serverClosed c).
  - by destruct (closing n).
Qed.
Lemma net_keeps (n : listener) e : keeps n (Listener.step n e).
Proof.
  destruct e as [|path|p a d|p r|p| | | | |r|]; cbn [Listener.step].
  - unfold request. destruct (stopping n); [by apply keeps_same|]. etrans; [apply (opened_keeps Work)|by apply keeps_same].
  - unfold arrives. destruct (stopping n); [done|]. destruct (ourPath path); [apply opened_keeps|].
    etrans; [apply (opened_keeps Upgrading)|apply settle_keeps].
  - apply admitted_keeps.
  - destruct (_ || _); [apply settle_keeps|done].
  - unfold reacts. destruct (resultOf n p); by apply keeps_same.
  - destruct (closing n); by apply keeps_same.
  - destruct (closing n); by apply keeps_same.
  - destruct (closing n); by apply keeps_same.
  - destruct (closing n) as [c|]; [|done]. unfold drains. destruct (l_phase c), (liveClosed c); try done.
    destruct (settledAll _ _); by apply keeps_same.
  - destruct (closing n) as [c|]; [|done]. destruct (l_phase c), (serverClosed c); by apply keeps_same.
  - destruct (closing n); by apply keeps_same.
Qed.

(** * The process *)
Section serving.
Context {C : Type}.
Variable liveEvent : live_event → C → result (list live_action) * C.
Variable hasPull : bool.
Variable idle : C.
Implicit Types s : serving (C := C).
Implicit Types x y : live (C := C).

Definition streamsOf (p : nat) s : list string := s_stream <$> ofSession p (cleanups s).
Definition hubFollows s : Prop := follows (wakeHub s) (closures s) (cleanups s).
Lemma perform_ok p o s l : hubFollows s → replay [o] (streamsOf p s) = Some l →
  hubFollows (perform p s o) ∧ streamsOf p (perform p s o) = l ∧ (∀ q, q ≠ p → streamsOf q (perform p s o) = streamsOf q s)
  ∧ net (perform p s o) = net s ∧ lives (perform p s o) = lives s.
Proof.
  intros Hf Hr. destruct o as [| | |stream|stream| | | | | |]; cbn [perform]; try (injection Hr as <-; done).
  - pose proof (subscribe_follows _ _ _ p stream Hf) as H. destruct (subscribe stream _ _) as [h set]. cbn in *.
    injection Hr as <-. unfold streamsOf, ofSession. cbn. split; [exact H|].
    split; [by rewrite filter_app, fmap_app, filter_cons_True|]. split; [|done].
    intros q Hq. rewrite filter_app, filter_cons_False by (cbn; congruence). by rewrite app_nil_r.
  - unfold streamsOf in Hr. destruct (takeCleanup p (cleanups s)) as [[x k]|] eqn:Ht.
    2:{ apply takeCleanup_None in Ht. by rewrite Ht in Hr. }
    apply takeCleanup_Some in Ht as (a & b & Hl & -> & Hx & Ha). unfold hubFollows in *. rewrite Hl in *.
    assert (ofSession p a = []) as Hnone.
    { unfold ofSession. clear -Ha. induction Ha as [|y a Hy Ha IH]; [done|]. by rewrite filter_cons_False. }
    unfold ofSession in *. rewrite filter_app, Hnone, filter_cons_True in Hr by done. cbn in Hr. case_decide as Hs; [|done].
    injection Hr as <-. split; [by apply unsubscribe_follows|]. unfold streamsOf, ofSession. cbn [cleanups net lives].
    split; [by rewrite filter_app, Hnone|]. split; [|done]. intros q Hq. by rewrite Hl, !filter_app, filter_cons_False by congruence.
Qed.
Lemma performs_ok p d s l : hubFollows s → replay d (streamsOf p s) = Some l →
  let s' := foldl (perform p) s d in
  hubFollows s' ∧ streamsOf p s' = l ∧ (∀ q, q ≠ p → streamsOf q s' = streamsOf q s) ∧ net s' = net s ∧ lives s' = lives s.
Proof.
  revert s l. induction d as [|o d IH]; intros s l Hf Hr; cbn [foldl].
  { injection Hr as <-. by split_and!. }
  change (o :: d) with ([o] ++ d) in Hr. rewrite replay_app in Hr. destruct (replay [o] _) as [k|] eqn:Hk; [|done].
  destruct (perform_ok p o s k Hf Hk) as (H1 & H2 & H3 & H4 & H5). cbn in Hr. rewrite <-H2 in Hr.
  destruct (IH _ _ H1 Hr) as (K1 & K2 & K3 & K4 & K5). split_and!; [done|done| |congruence..].
  intros q Hq. by rewrite K3, H3.
Qed.

Record serves s : Prop := {
  sv_net : ListenerFacts.listening (net s);
  sv_good p x : lives s !! p = Some x → good x;
  sv_session p r : promises (net s) !! p = Some (Promise Serving r) → ∃ x, lives s !! p = Some x ∧ (r ≠ None → over x);
  sv_known p : is_Some (lives s !! p) → ∃ r, promises (net s) !! p = Some (Promise Serving r);
  sv_hub : hubFollows s;
  sv_streams p : streamsOf p s = default [] (Live.listening <$> lives s !! p) }.

(** ** Sessions *)
Lemma over_step x e : good x → over x → over (Live.step liveEvent hasPull x e).
Proof.
  intros [_ Hp] [Hd Hn]. unfold phased in Hp. rewrite Hd in Hp. destruct Hp as [Hl Hr].
  destruct e as [data| |e|answer|stream|r|]; cbn [Live.step]; rewrite ?Hd, ?Hn; try done.
  - unfold ended. cbn. by rewrite Hd.
  - cbn. rewrite Hd. unfold ended. cbn. by rewrite Hd.
  - rewrite Hl. by rewrite bool_decide_eq_false_2 by apply not_elem_of_nil.
Qed.
Lemma closesSocket_ok x : good x → good (closesSocket x) ∧ Live.listening (closesSocket x) = Live.listening x
  ∧ (over x → over (closesSocket x)).
Proof.
  intros [Hi Hp]. unfold closesSocket. destruct (Live.open x); [|done]. split; [|done]. split; [|exact Hp].
  by apply (end_socket_inv (ClosedSocket 1001 "closing")).
Qed.
Lemma advance_serves p e s : serves s → serves (advance liveEvent hasPull p e s) ∧ net (advance liveEvent hasPull p e s) = net s.
Proof.
  intros [H1 H2 H3 H4 H5 H6]. unfold advance. destruct (lives s !! p) as [x|] eqn:Hx; [|by split].
  pose proof (liveStep_says liveEvent hasPull e x) as (d & Hd & Hr). pose proof (H2 p x Hx) as Hg.
  pose proof (liveStep_good liveEvent hasPull x e Hg) as Hg'. pose proof (over_step x e Hg) as Hover.
  set (y := Live.step liveEvent hasPull x e) in *. cbv zeta. rewrite Hd, drop_app_length.
  set (s0 := set_lives _ s). specialize (H6 p) as Hs. rewrite Hx in Hs. cbn in Hs.
  destruct (performs_ok p d s0 (Live.listening y)) as (K1 & K2 & K3 & K4 & K5); [exact H5|by rewrite <-Hr, <-Hs|].
  split; [|exact K4]. split; rewrite ?K4, ?K5; try done; cbn.
  - intros q z [[<- <-]|[_ Hq]]%lookup_insert_Some; [done|by eapply H2].
  - intros q r Hq. destruct (H3 q r Hq) as (z & Hz & Ho). destruct (decide (q = p)) as [->|Hne].
    + exists y. rewrite lookup_insert_eq. split; [done|]. rewrite Hx in Hz. injection Hz as <-. auto.
    + exists z. by rewrite lookup_insert_ne.
  - intros q Hq. apply H4. destruct (decide (q = p)) as [->|Hne]; [by rewrite Hx|]. by rewrite lookup_insert_ne in Hq.
  - intros q. destruct (decide (q = p)) as [->|Hne]; [by rewrite K2, lookup_insert_eq|].
    rewrite K3, lookup_insert_ne by done. apply H6.
Qed.

(** ** Steps *)
Lemma set_net_serves n s : serves s → ListenerFacts.listening n →
  (∀ q k, promises n !! q = Some (Promise Serving k) → promises (net s) !! q = Some (Promise Serving k) ∨
     ∃ x, lives s !! q = Some x ∧ over x) →
  keeps (net s) n → serves (set_net n s).
Proof.
  intros [H1 H2 H3 H4 H5 H6] Hn Hp Hl. split; try done; cbn.
  - intros q k Hq. destruct (Hp q k Hq) as [Hold|(x & Hx & Ho)]; [by apply H3|by exists x].
  - intros q [r Hr]%H4. by eapply Hl.
Qed.
Lemma isOver_spec x : isOver x = true → over x.
Proof. unfold isOver, over. destruct (Live.l_phase x), (pulls x); done. Qed.
Lemma settles_serves p r s : serves s → serves (outside idle (Settles p r) s).
Proof.
  intros Hs. cbn [outside]. destruct (pending (net s) p Serving && negb (sessionOver p s)) eqn:Hw; [done|].
  apply set_net_serves; [done|apply step_listening, sv_net, Hs| |apply net_keeps].
  intros q k. cbn [Listener.step]. destruct (pending (net s) p Serving) eqn:Hpend.
  - rewrite orb_true_r. cbn. destruct (decide (q = p)) as [->|Hne]; [right|rewrite list_lookup_alter_ne by done; by left].
    cbn in Hw. apply negb_false_iff in Hw. unfold sessionOver in Hw.
    destruct (lives s !! p) as [x|]; [|done]. exists x. split; [done|by apply isOver_spec].
  - rewrite orb_false_r. destruct (pending (net s) p Work) eqn:Hk; [|by left]. intros H. left. eapply settle_serving; [|exact H].
    apply pending_spec in Hk as [Hk _]. by exists (Promise Work None).
Qed.
Lemma admission_serves p a d s : serves s → serves (outside idle (AdmissionSettled p a d) s).
Proof.
  intros Hs. pose proof Hs as [H1 H2 H3 H4 H5 H6]. cbn [outside]. cbv zeta. cbn [Listener.step].
  set (n := admitted p a d (net s)). set (new := length (promises (net s))).
  assert (ListenerFacts.listening n) as Hn by by apply admitted_listening.
  assert (promises (net s) !! new = None) as Hend by by apply lookup_ge_None.
  assert (lives s !! new = None) as Hfresh.
  { destruct (lives s !! new) eqn:E; [|done]. destruct (H4 new) as [r Hr]; [by eexists|congruence]. }
  destruct (promises n !! new) as [pr|] eqn:Hnew.
  2:{ apply set_net_serves; [done..| |apply admitted_keeps].
      intros q k Hq. apply admitted_serving in Hq as Hold. destruct Hold as [?|[-> ->]]; [by left|]. fold n new in Hq. congruence. }
  apply admitted_opens in Hnew as Hpr. destruct Hpr as [-> _].
  assert (good (newLive idle)) as Hg.
  { split; [|done]. split; cbn; try done; apply after_nil. }
  split; try done; cbn.
  - intros q x [[<- <-]|[_ Hq]]%lookup_insert_Some; [done|by eapply H2].
  - intros q k Hq. apply admitted_serving in Hq as [H|[-> ->]].
    + destruct (H3 q k H) as (x & Hx & Ho). exists x. rewrite lookup_insert_ne; [done|]. intros <-. congruence.
    + exists (newLive idle). by rewrite lookup_insert_eq.
  - intros q Hq. destruct (decide (q = new)) as [->|Hne]; [by exists None|].
    rewrite lookup_insert_ne in Hq by done. destruct (H4 q Hq) as [r Hr]. by eapply admitted_keeps.
  - intros q. destruct (decide (q = new)) as [->|Hne]; [|rewrite lookup_insert_ne by done; apply H6].
    rewrite lookup_insert_eq. etrans; [apply H6|]. by rewrite Hfresh.
Qed.
Lemma close_serves s : serves s → serves (outside idle Close s).
Proof.
  intros Hs. cbn [outside]. cbv zeta. set (n := Listener.step (net s) Close).
  assert (serves (set_net n s)) as [H1 H2 H3 H4 H5 H6].
  { apply set_net_serves; [done|apply step_listening, sv_net, Hs| |apply net_keeps].
    intros q k Hq. left. by apply (net_serving (net s) Close) in Hq. }
  destruct (stopping (net s)); [by split|]. split; try done; cbn.
  - intros q y. rewrite lookup_fmap, fmap_Some. intros (x & Hx & ->). by apply closesSocket_ok, (H2 q).
  - intros q k Hq. destruct (H3 q k Hq) as (x & Hx & Ho). cbn in Hx. exists (closesSocket x). rewrite lookup_fmap, Hx. split; [done|].
    intros Hk. apply closesSocket_ok; [by apply (H2 q)|auto].
  - intros q. rewrite lookup_fmap, fmap_is_Some. apply H4.
  - intros q. specialize (H6 q). unfold streamsOf in *. cbn in *. rewrite H6, lookup_fmap.
    destruct (lives s !! q) as [x|] eqn:Hx; [|done]. cbn. symmetry. by apply closesSocket_ok, (H2 q).
Qed.
Lemma outside_serves e s : serves s → serves (outside idle e s).
Proof.
  intros Hs. assert (settlesOf e = None → (∀ p a d, e ≠ AdmissionSettled p a d) → serves (set_net (Listener.step (net s) e) s)) as Hplain.
  { intros H1 H2. apply set_net_serves; [done|apply step_listening, sv_net, Hs| |apply net_keeps].
    intros q k Hq. left. eapply net_serving; [|exact H2|exact Hq]. by rewrite H1. }
  destruct e; try (by apply Hplain); [by apply admission_serves|by apply settles_serves|by apply close_serves].
Qed.
Lemma step_serves s e : serves s → serves (step liveEvent hasPull idle s e).
Proof.
  intros Hs. destruct e as [e|p e|streams|]; cbn [step].
  - by apply outside_serves.
  - assert (serves (advance liveEvent hasPull p e s)) as Ha by by apply advance_serves. by destruct e.
  - destruct Hs. by split.
  - destruct (microtasks s) as [|w l]; [done|]. cbv zeta.
    assert (serves (set_microtasks l s)) as Hm by by destruct Hs; split.
    destruct (closures (set_microtasks l s) !! w) as [[p stream]|]; [|done]. by apply advance_serves.
Qed.
Lemma run_serves l : serves (run liveEvent hasPull idle l).
Proof.
  unfold run. assert (serves newServing) as H.
  { split; cbn.
    - apply (run_listening []).
    - by intros p x Hx%lookup_empty_Some.
    - by intros p r Hp%lookup_nil_Some || intros p r [=].
    - intros p. rewrite lookup_empty. by intros [? ?].
    - apply newHub_follows.
    - intros p. by rewrite lookup_empty. }
  revert H. generalize (newServing (C := C)). induction l as [|e l IH]; intros s Hs; [done|]. by apply IH, step_serves.
Qed.
(** ** Nothing starts while closing *)
Definition known s : gset nat := dom (lives s).
Lemma advance_known p e s : known (advance liveEvent hasPull p e s) = known s ∧ net (advance liveEvent hasPull p e s) = net s.
Proof.
  unfold advance, known. destruct (lives s !! p) as [x|] eqn:Hx; [|done]. cbv zeta.
  assert (∀ d s, lives (foldl (perform p) s d) = lives s ∧ net (foldl (perform p) s d) = net s) as Hd.
  { induction d as [|o d IH]; intros s0; [done|]. cbn [foldl]. destruct (IH (perform p s0 o)) as [-> ->].
    destruct o; cbn [perform]; try done; [by destruct (subscribe _ _ _)|by destruct (takeCleanup _ _) as [[]|]]. }
  destruct (Hd (drop (length (Live.outputs x)) (Live.outputs (Live.step liveEvent hasPull x e)))
    (set_lives (<[p := Live.step liveEvent hasPull x e]> (lives s)) s)) as [-> ->].
  split; [|done]. cbn. rewrite dom_insert_L. apply elem_of_dom_2 in Hx. set_solver.
Qed.
Lemma step_known s e : closing (net s) ≠ None →
  closing (net (step liveEvent hasPull idle s e)) ≠ None ∧ known (step liveEvent hasPull idle s e) = known s.
Proof.
  intros Hc. assert (∀ e, closing (Listener.step (net s) e) ≠ None) as Hn by (intros x; by apply step_closing).
  destruct e as [e|p e|streams|]; cbn [step].
  - destruct e as [| |p a d|p r| | | | | | |]; cbn [outside]; try (split; [apply Hn|done]).
    + cbv zeta. split; [apply Hn|]. unfold known.
      destruct (promises (Listener.step (net s) (AdmissionSettled p a d)) !! _) eqn:Hx; [|done].
      by apply admitted_opens in Hx as [_ ?].
    + destruct (_ && _); [done|]. by split; [apply (Hn (Settles p r))|].
    + cbv zeta. unfold stopping. destruct (closing (net s)) eqn:E; [|done]. split; [apply (Hn Close)|done].
  - destruct (advance_known p e s) as [H1 H2]. destruct e; by rewrite ?H1, ?H2.
  - done.
  - destruct (microtasks s) as [|w l]; [done|]. cbv zeta. destruct (closures (set_microtasks l s) !! w) as [[p stream]|]; [|done].
    destruct (advance_known p (Wake stream) (set_microtasks l s)) as [-> ->]. done.
Qed.
Lemma closing_known l s : closing (net s) ≠ None → known (foldl (step liveEvent hasPull idle) s l) = known s.
Proof.
  revert s. induction l as [|e l IH]; intros s Hs; [done|]. cbn [foldl]. destruct (step_known s e Hs) as [H1 <-]. by apply IH.
Qed.
Lemma close_known s : closing (net (step liveEvent hasPull idle s (Outside Close))) ≠ None
  ∧ known (step liveEvent hasPull idle s (Outside Close)) = known s.
Proof.
  cbn [step outside]. cbv zeta. destruct (close_called (net s)) as [Hc _]. unfold known, stopping.
  destruct (closing (net s)); (split; [exact Hc|]); [done|]. cbn. by rewrite dom_fmap_L.
Qed.

(** ** The hub, per session *)
Lemma wakes_count p stream s : hubFollows s →
  length (filter (λ w, closures s !! w = Some (p, stream)) (Sessions.listening (wakeHub s) stream))
  = length (filter (λ t, t = stream) (streamsOf p s)).
Proof.
  intros [_ _ Hw _ _ Hmade]. rewrite Hw. unfold streamsOf, onStream, ofSession.
  assert (∀ l : list subscription, (∀ z, z ∈ l → closures s !! s_wake z = Some (s_session z, s_stream z)) →
    length (filter (λ w, closures s !! w = Some (p, stream)) (s_wake <$> filter (λ z, s_stream z = stream) l))
    = length (filter (λ t, t = stream) (s_stream <$> filter (λ z, s_session z = p) l))) as H; [|by apply H].
  induction l as [|z l IH]; intros Hl; [done|].
  assert (closures s !! s_wake z = Some (s_session z, s_stream z)) as Hz by (apply Hl; left).
  specialize (IH ltac:(intros y Hy; apply Hl; by right)). rewrite !filter_cons.
  destruct (decide (s_stream z = stream)) as [Es|Es], (decide (s_session z = p)) as [Ep|Ep];
    rewrite ?fmap_cons, ?filter_cons, ?Hz, ?Es, ?Ep.
  - rewrite !decide_True by done. cbn. by rewrite IH.
  - rewrite decide_False by congruence. exact IH.
  - rewrite decide_False by done. exact IH.
  - exact IH.
Qed.
(** C11: a serving process.  Whatever the clients, the sockets, the controllers, the
    commits and the application do, in whatever order:
    - the hub wakes a session for a Stream exactly as often as the session listens to it,
      and wakes nobody else;
    - a session sends nothing once its socket closed, releases its controller at most
      once and afterwards neither calls it nor listens or pulls;
    - once [close] was called no session starts;
    - and when the server is told to close every session is over and has given back its
      controller, its Streams and its pulls, and the hub holds nothing. *)
Theorem serving_drains l :
  let s := run liveEvent hasPull idle l in
  (∀ p x stream, lives s !! p = Some x →
     length (filter (λ w, closures s !! w = Some (p, stream)) (Sessions.listening (wakeHub s) stream))
     = length (filter (λ t, t = stream) (Live.listening x))) ∧
  (∀ stream w, w ∈ Sessions.listening (wakeHub s) stream →
     ∃ p x, closures s !! w = Some (p, stream) ∧ lives s !! p = Some x ∧ stream ∈ Live.listening x) ∧
  (∀ p x, lives s !! p = Some x → after ends sends (Live.outputs x) ∧ after releases works (Live.outputs x)) ∧
  (∀ before later, l = before ++ Outside Close :: later → known s = known (run liveEvent hasPull idle before)) ∧
  (ServerClose ∈ outputs (net s) →
     listeners (wakeHub s) = ∅ ∧ ∀ p x, lives s !! p = Some x → over x ∧ gaveBack x).
Proof.
  cbv zeta. pose proof (run_serves l) as Hs. set (s := run liveEvent hasPull idle l) in *.
  pose proof Hs as [H1 H2 H3 H4 H5 H6].
  assert (∀ p x, lives s !! p = Some x → streamsOf p s = Live.listening x) as Hstr by (intros p x Hx; by rewrite H6, Hx).
  assert (∀ z, z ∈ cleanups s → ∃ x, lives s !! s_session z = Some x ∧ s_stream z ∈ Live.listening x) as Hown.
  { intros z Hz. specialize (H6 (s_session z)).
    assert (s_stream z ∈ streamsOf (s_session z) s) as Hin by (apply list_elem_of_fmap_2, list_elem_of_filter; done).
    rewrite H6 in Hin. destruct (lives s !! s_session z) as [x|]; [by exists x|by apply not_elem_of_nil in Hin]. }
  split_and!.
  - intros p x stream Hx. by rewrite <-(Hstr p x Hx), wakes_count.
  - intros stream w. rewrite (fo_wakes _ _ _ H5). intros (z & -> & [Hz Hin]%list_elem_of_filter)%list_elem_of_fmap.
    destruct (Hown z Hin) as (x & Hx & Hl). exists (s_session z), x. rewrite (fo_made _ _ _ H5 z Hin), <-Hz. done.
  - intros p x Hx. destruct (H2 p x Hx) as [Hi _]. by destruct Hi.
  - intros before later ->. unfold s, run. rewrite foldl_app. cbn [foldl].
    destruct (close_known (foldl (step liveEvent hasPull idle) newServing before)) as [Hc <-]. by apply closing_known.
  - intros Hclose. assert (∀ p x, lives s !! p = Some x → over x) as Hover.
    { intros p x Hx. destruct (H4 p) as [r Hr]; [by eexists|]. destruct (H3 p r Hr) as (y & Hy & Ho).
      rewrite Hx in Hy. injection Hy as <-. apply Ho. by apply (server_closed_settled _ H1 Hclose _ _ Hr). }
    split; [|intros p x Hx; split; [by eapply Hover|by apply good_over; [eapply H2|eapply Hover]]].
    apply map_empty. intros stream. destruct (listeners (wakeHub s) !! stream) as [set|] eqn:E; [|done].
    exfalso. apply (fo_held _ _ _ H5 stream); [by eexists|]. destruct (onStream stream (cleanups s)) as [|z k] eqn:Ek; [done|].
    assert (z ∈ onStream stream (cleanups s)) as [_ Hz]%list_elem_of_filter by (rewrite Ek; left).
    destruct (Hown z Hz) as (x & Hx & Hl). destruct (good_over x (H2 _ _ Hx) (Hover _ _ Hx)) as [Hn _].
    rewrite Hn in Hl. by apply not_elem_of_nil in Hl.
Qed.
End serving.
(** Two sessions on one Stream; a commit wakes both; one loses its socket, then the
    listener closes. *)
Definition demo_serving : list (event (C := nat)) :=
  [Outside (Upgrade (Some "/sync/live"%string)); Outside (AdmissionSettled 0 (Ok (Some "owner"%string, None)) false);
   Outside (Upgrade (Some "/sync/live"%string)); Outside (AdmissionSettled 2 (Ok (Some "owner"%string, None)) false);
   OfSession 1 (Message "subscribe"); OfSession 1 (Negotiated (Ok (0, [Listen "s"])));
   OfSession 3 (Message "subscribe"); OfSession 3 (Negotiated (Ok (0, [Listen "s"; Listen "t"])));
   Commits ["s"%string]; Microtask; Microtask; OfSession 1 SocketClosed; OfSession 1 Finish].
Definition demo_close : list (event (C := nat)) :=
  [OfSession 1 (PullDone (Ok "page"%string)); Outside Close; OfSession 3 SocketClosed; OfSession 3 Finish;
   OfSession 3 (PullDone (Ok "page"%string)); Outside (Settles 1 (Ok tt)); Outside (Settles 3 (Ok tt));
   Outside SocketsClosed; Outside LiveDrained; Outside Drained].
Example demo_wakes : Sessions.listening (wakeHub (run demo_controller true 0 demo_serving)) "s" = [1]
  ∧ ServerClose ∈ outputs (net (run demo_controller true 0 (demo_serving ++ demo_close))).
Proof. split; [by vm_compute|]. apply list_elem_of_In. vm_compute. tauto. Qed.
Lemma serving_drains_witness :
  let s := run demo_controller true 0 (demo_serving ++ demo_close) in
  listeners (wakeHub s) = ∅ ∧ ∀ p x, lives s !! p = Some x → over x ∧ gaveBack x.
Proof. apply serving_drains, demo_wakes. Defined.
