(* ===== verification/Transactions.v ===== *)
(** The application's transaction handle: [frontend/client-js/api/transaction.mts],
    [local.mts], [command-accounting.mts] and the commands [unsent.mts] gives it.

    Application code is not modelled: it issues calls, each in some async context,
    and its callbacks return when they like.  The runtime settles the commands it
    was sent when it likes.  A run is any sequence of such events; a continuation
    of one of the module's own async functions ([Resume]) does nothing until what
    it awaits has settled. *)
From S2P Require Import Prelude.
Open Scope axton_scope.

(** ** Rejection reasons

    What a Promise rejects with, with the identity [!==] compares: [Rejection] is
    an object the runtime or the application threw, known by a number; [Own n] is
    an [Error] made here when [n] commands were tracked.  [Undefined] is what a
    field holds that was never set. *)
Inductive reason :=
| Undefined
| Rejection (object : nat) (e : exn)
| Own (n : nat) (message : string).
Definition identical (a b : reason) : bool :=
  match a, b with
  | Undefined, Undefined => true
  | Rejection i _, Rejection j _ | Own i _, Own j _ => Nat.eqb i j
  | _, _ => false
  end.
Definition nullishReason (r : reason) : bool :=
  match r with Undefined => true | Rejection _ (Thrown v) => nullish v | _ => false end.
Definition truthyReason (r : reason) : bool :=
  match r with Undefined => false | Rejection _ (Thrown v) => truthy v | _ => true end.
(** [a ??= b] *)
Definition orElse (a b : reason) : reason := if nullishReason a then b else a.
(** How a Promise settles. *)
Definition settlement : Type := value + reason.

(** ** [CommandAccounting]

    The tracked commands, in order, with what [submit] threw if it threw and how
    the command settled. *)
Record tracking := Tracking { refusedAtOnce : option reason; settledAs : option settlement }.
Record accounting := Accounting { pending : nat; failure : reason; commands : list tracking }.
Definition noCommands : accounting := Accounting 0 Undefined [].
Definition outstanding (a : accounting) : bool := negb (Nat.eqb (pending a) 0).
Definition restoreFailure (r : reason) (a : accounting) : accounting := Accounting (pending a) r (commands a).
Definition track (threw : option reason) (a : accounting) : accounting :=
  Accounting (S (pending a)) (failure a) (commands a ++ [Tracking threw None]).
(** The reactions [track] hung on a command that settles. *)
Definition settles (c : nat) (how : settlement) (a : accounting) : option settlement :=
  match commands a !! c with
  | Some (Tracking threw None) => Some (match threw with Some r => inr r | None => how end)
  | _ => None
  end.
Definition settled (c : nat) (how : settlement) (a : accounting) : accounting :=
  Accounting (pred (pending a)) (match how with inl _ => failure a | inr r => orElse (failure a) r end)
    (alter (λ t, Tracking (refusedAtOnce t) (Some how)) c (commands a)).
(** [drain()] taken when [n] commands were tracked has resolved. *)
Definition drained (n : nat) (a : accounting) : bool :=
  forallb (λ t, match settledAs t with Some _ => true | None => false end) (take n (commands a)).
Definition outcomeOf (c : nat) (a : accounting) : option settlement := t ← commands a !! c; settledAs t.

(** ** [LocalTransaction]: the handle of a [local] callback, and [runLocal] *)
Inductive local_phase :=
| LRunning
| LFinishing (n : nat) (unawaited : bool) (input : value)
| LUnwinding (n : nat) (r : reason)
| LDone (how : settlement).
Record local := Local { l_open : bool; l_commands : accounting; l_phase : local_phase }.
Definition newLocal : local := Local true noCommands LRunning.
(** [#finish] up to its [await]; the Promise it awaits is [drain()]. *)
Definition finishLocal (p : nat → bool → local_phase) (l : local) : local :=
  Local false (l_commands l) (p (length (commands (l_commands l))) (outstanding (l_commands l))).
Definition localReturned (how : settlement) (l : local) : local :=
  match l_phase l with
  | LRunning =>
      match how with
      | inl input => finishLocal (λ n o, LFinishing n o input) l
      | inr r => finishLocal (λ n _, LUnwinding n r) l
      end
  | _ => l
  end.
Definition unawaited (n : nat) : reason := Own n "unawaited transaction operation".
Definition localResume (l : local) : local :=
  let a := l_commands l in
  match l_phase l with
  | LFinishing n o input =>
      guard! drained n a else l;
      if o then finishLocal (λ n _, LUnwinding n (unawaited n)) l
      else if truthyReason (failure a) then finishLocal (λ n _, LUnwinding n (failure a)) l
      else Local (l_open l) a (LDone (inl input))
  | LUnwinding n r =>
      guard! drained n a else l;
      Local (l_open l) a (LDone (inr r))
  | _ => l
  end.

(** [mutationCommand] *)
Definition mutationCommand (name : string) (version : value) (input : value) : result (list (string * value) * bool) :=
  let local := match input with VFun _ => true | _ => false end in
  if isObject input || local then
    Ok ([("kind", VStr "submitMutation"); ("name", VStr name); ("version", version);
         if local then ("local", VBool true) else ("args", input)], local)
  else Throw (CallError "action.invalid" Rejected None).

(** ** [SubmissionHost]: what a transaction lends [submitMutation] *)
Class SubmissionHost (S : Type) := {
  admitHost : S → option exn * S;
  trackHost : option reason → list (string * value) → bool → S → S;  (* and whether it has a callback *)
  runningHost : S → S;                (* [running(1)] *)
  commandCount : S → nat;
  mutationPort : bool;
  refuseHost : exn → S → S }.
Definition submitMutation {S} `{SubmissionHost S} (name : string) (version input : value) (s : S) : S :=
  match mutationCommand name version input with
  | Throw e => refuseHost e s
  | Ok (command, local) =>
      match admitHost s with
      | (Some e, s) => refuseHost e s
      | (None, s) =>
          let s := if local then runningHost s else s in
          trackHost (if mutationPort then None
                     else Some (Own (commandCount s) "transaction cannot submit a Mutation")) command local s
      end
  end.

Definition CAPABILITY : string := "invalid transaction capability".
Definition closedMessage : string := "transaction_closed".

(** ** The Node transaction *)
(** One savepoint's [run], by what it awaits. *)
Inductive phase :=
| Opening                                        (* [await opened] *)
| Body                                           (* [await body()] *)
| Draining (n : nat) (v : value)                 (* the [drain] after the body *)
| Releasing (c : nat) (v : value)
| Unwinding (n : nat) (r : reason)               (* the [drain] of [catch] *)
| RollingBack (c : nat) (r : reason)
| Done (how : settlement).
Record frame := Frame {
  scope : option string; parent : option nat; opened : nat; saved : reason; f_phase : phase }.

(** The async context a call comes from: whether another transaction's callback
    owns it, and the savepoint whose context it is. *)
Record context := Context_ { foreign : bool; inside : option nat }.

Inductive entry :=
| Sent (c : nat) (scope : option string) (command : list (string * value))
| Settled (c : nat) (how : settlement)
| Opened (t : nat)
| Restored (t : nat)                             (* a rolled-back savepoint *)
| Poisoned (message : string)                    (* a structural refusal *)
| Refused (e : exn)
| Finishing.

Record transaction := Transaction {
  open : bool;
  locals : nat;
  accounts : accounting;
  structural : reason;
  active : option nat;
  frames : list frame;                           (* by token *)
  scopes : list nat;                             (* [run]s not yet forgotten *)
  withLocal : list nat;                          (* commands whose settlement is [running(-1)] *)
  handles : list local;
  finishing : option (nat * bool);
  finished : option (unit + reason);
  log : list entry }.
Definition newTransaction : transaction :=
  Transaction true 0 noCommands Undefined None [] [] [] [] None None [].

Definition set_accounts a s := Transaction (open s) (locals s) a (structural s) (active s) (frames s) (scopes s)
  (withLocal s) (handles s) (finishing s) (finished s) (log s).
Definition set_structural r s := Transaction (open s) (locals s) (accounts s) r (active s) (frames s) (scopes s)
  (withLocal s) (handles s) (finishing s) (finished s) (log s).
Definition set_active t s := Transaction (open s) (locals s) (accounts s) (structural s) t (frames s) (scopes s)
  (withLocal s) (handles s) (finishing s) (finished s) (log s).
Definition set_frames f s := Transaction (open s) (locals s) (accounts s) (structural s) (active s) f (scopes s)
  (withLocal s) (handles s) (finishing s) (finished s) (log s).
Definition set_scopes l s := Transaction (open s) (locals s) (accounts s) (structural s) (active s) (frames s) l
  (withLocal s) (handles s) (finishing s) (finished s) (log s).
Definition set_handles l s := Transaction (open s) (locals s) (accounts s) (structural s) (active s) (frames s) (scopes s)
  (withLocal s) l (finishing s) (finished s) (log s).
Definition set_locals n l s := Transaction (open s) n (accounts s) (structural s) (active s) (frames s) (scopes s)
  l (handles s) (finishing s) (finished s) (log s).
Definition set_finish f r s := Transaction (open s) (locals s) (accounts s) (structural s) (active s) (frames s) (scopes s)
  (withLocal s) (handles s) f r (log s).
(** [cancel()] *)
Definition cancel s := Transaction false (locals s) (accounts s) (structural s) (active s) (frames s) (scopes s)
  (withLocal s) (handles s) (finishing s) (finished s) (log s).
Definition note e s := Transaction (open s) (locals s) (accounts s) (structural s) (active s) (frames s) (scopes s)
  (withLocal s) (handles s) (finishing s) (finished s) (log s ++ [e]).

Definition count (s : transaction) : nat := length (commands (accounts s)).
(** [#poison] keeps the first refusal; an overlap replaces it. *)
Definition poison (m : string) (s : transaction) : transaction :=
  note (Poisoned m) (set_structural (orElse (structural s) (Own (count s) m)) s).
Definition overlap (m : string) (s : transaction) : transaction :=
  note (Poisoned m) (set_structural (Own (count s) m) s).

(** [#queue], [#track]: in the scope of the active savepoint *)
Definition activeScope (s : transaction) : option string := t ← active s; f ← frames s !! t; scope f.
Definition queue (threw : option reason) (command : list (string * value)) (local : bool) (s : transaction) : transaction :=
  let c := count s in
  let s := match threw with None => note (Sent c (activeScope s) command) s | Some _ => s end in
  let s := set_accounts (track threw (accounts s)) s in
  if local then set_locals (locals s) (withLocal s ++ [c]) s else s.

(** [#foreign] *)
Definition checkForeign (c : context) (s : transaction) : option exn * transaction :=
  if foreign c then (Some (Error "foreign transaction scope"), poison "foreign transaction scope" s) else (None, s).
(** [callbackRefusal] *)
Definition callbackRefusal (s : transaction) : option exn * transaction :=
  if Nat.eqb (locals s) 0 then (None, s) else (Some (Error CAPABILITY), poison CAPABILITY s).
(** [expiredRefusal] *)
Definition expiredRefusal (s : transaction) : exn * transaction :=
  if open s then (Error CAPABILITY, poison CAPABILITY s) else (Error closedMessage, s).
Definition outsideActive (c : context) (s : transaction) : bool :=
  match active s with Some t => negb (bool_decide (inside c = Some t)) | None => false end.
(** [#admit], and the same checks at the start of [savepoint] *)
Definition admitIn (c : context) (overlapping : string) (s : transaction) : option exn * transaction :=
  match checkForeign c s with
  | (Some e, s) => (Some e, s)
  | (None, s) =>
      guard! open s else (Some (Error closedMessage), s);
      match callbackRefusal s with
      | (Some e, s) => (Some e, s)
      | (None, s) => guard! negb (outsideActive c s) else (Some (Error overlapping), overlap overlapping s); (None, s)
      end
  end.
Definition admit_ (c : context) : transaction → option exn * transaction := admitIn c "overlapping savepoint work".
Definition refuse (e : exn) (s : transaction) : transaction := note (Refused e) s.
(** [#call] *)
Definition call (c : context) (command : list (string * value)) (s : transaction) : transaction :=
  match admit_ c s with
  | (Some e, s) => refuse e s
  | (None, s) => queue None command false s
  end.

(** The commands of the public methods, and those of [unsent.mts] in a transaction
    ([unsentTransaction]). *)
Inductive method :=
| Read (model : string) (identity : value)
| Query (model : string) (where_ : option value)
| ReadSql (sql : string) (parameters : list value)
| QuerySpec (model : string) (query : option value)
| Related (model : string) (identity : value) (relation : string)
| Referencing (model : string) (identity : value) (source relation : string)
| Direct (operation : value)
| Dismiss (id : value)
| RetryTasks (taskKeys : list string)
| Discard (ordinal : value).
Definition keyOf (model : string) (identity : value) : string * value :=
  ("key", VObj [("model", VStr model); ("identity", identity)]).
Definition commandOf (m : method) : list (string * value) :=
  match m with
  | Read model identity => [("kind", VStr "read"); keyOf model identity]
  | Query model where_ => [("kind", VStr "query"); ("model", VStr model); ("filter", default (VObj []) where_)]
  | ReadSql sql parameters => [("kind", VStr "sql"); ("sql", VStr sql); ("parameters", VArr parameters)]
  | QuerySpec model query => [("kind", VStr "querySpec"); ("model", VStr model); ("query", default (VObj []) query)]
  | Related model identity relation => [("kind", VStr "related"); keyOf model identity; ("relation", VStr relation)]
  | Referencing model identity source relation =>
      [("kind", VStr "referencing"); keyOf model identity; ("source", VStr source); ("relation", VStr relation)]
  | Direct operation => [("kind", VStr "direct"); ("operation", operation)]
  | Dismiss id => [("kind", VStr "dismiss"); ("ordinal", id)]
  | RetryTasks taskKeys => [("kind", VStr "retryTasks"); ("keys", VArr (VStr <$> taskKeys))]
  | Discard ordinal => [("kind", VStr "discard"); ("ordinal", ordinal)]
  end.
(** What [dismiss], [retry] and [drop] answer: [.then(() => undefined)]. *)
Definition answerOf (m : method) (v : value) : value :=
  match m with Dismiss _ | RetryTasks _ | Discard _ => VUndef | _ => v end.

(** ** Savepoints *)
Definition set_phase (t : nat) (p : phase) (s : transaction) : transaction :=
  set_frames (alter (λ f, Frame (scope f) (parent f) (opened f) (saved f) p) t (frames s)) s.
Definition set_scope (t : nat) (sc : option string) (s : transaction) : transaction :=
  set_frames (alter (λ f, Frame sc (parent f) (opened f) (saved f) (f_phase f)) t (frames s)) s.
Definition savepointCommand : list (string * value) := [("kind", VStr "savepoint")].
(** [scopeOf] *)
Definition scopeOf (f : frame) : list (string * value) :=
  match scope f with Some sc => [("scope", VStr sc)] | None => [] end.
Definition savepoint (c : context) (s : transaction) : transaction :=
  match admitIn c "overlapping savepoints" s with
  | (Some e, s) => refuse e s
  | (None, s) =>
      let t := length (frames s) in
      let f := Frame None (active s) (count s) (failure (accounts s)) Opening in
      let s := queue None savepointCommand false s in
      note (Opened t) (set_scopes (scopes s ++ [t]) (set_active (Some t) (set_frames (frames s ++ [f]) s)))
  end.
(** The [finally] block, and the settlement of [run] *)
Definition done_ (t : nat) (f : frame) (how : settlement) (s : transaction) : transaction :=
  set_phase t (Done how) (if bool_decide (active s = Some t) then set_active (parent f) s else s).
(** A throw inside the [try] block: [catch] starts with a [drain] *)
Definition enterCatch (t : nat) (r : reason) (s : transaction) : transaction := set_phase t (Unwinding (count s) r) s.
Definition nested : string := "unawaited nested savepoint".
Definition closedReason (s : transaction) : reason := Own (count s) closedMessage.
Definition tracked_ (s : transaction) (c : nat) : option settlement := outcomeOf c (accounts s).

Definition bodyReturned (t : nat) (how : settlement) (s : transaction) : transaction :=
  match f_phase <$> frames s !! t with
  | Some Body =>
      match how with
      | inl v => set_phase t (Draining (count s) v) s
      | inr r => enterCatch t r s
      end
  | _ => s
  end.
(** After the body's [drain]: the checks, then [release] *)
Definition release (t : nat) (f : frame) (v : value) (s : transaction) : transaction :=
  guard! open s else enterCatch t (closedReason s) s;
  guard! bool_decide (active s = Some t)
    else (let s := overlap nested s in enterCatch t (structural s) s);
  guard! identical (failure (accounts s)) (saved f) else enterCatch t (failure (accounts s)) s;
  guard! negb (truthyReason (structural s)) else enterCatch t (structural s) s;
  set_phase t (Releasing (count s) v) (queue None (("kind", VStr "release") :: scopeOf f) false s).
(** After the [drain] of [catch]: [rollbackSavepoint] *)
Definition unwind (t : nat) (f : frame) (r : reason) (s : transaction) : transaction :=
  guard! open s && negb (truthyReason (structural s)) else done_ t f (inr r) s;
  guard! bool_decide (active s = Some t)
    else (let s := overlap nested s in done_ t f (inr (structural s)) s);
  set_phase t (RollingBack (count s) r) (queue None (("kind", VStr "rollbackSavepoint") :: scopeOf f) false s).
(** What [await opened] answers.  It is awaited before the [try] block: when it
    throws, no [finally] makes the parent active again. *)
Definition opened_ (t : nat) (how : settlement) (s : transaction) : transaction :=
  match how with
  | inr r => set_phase t (Done (inr r)) s
  | inl v =>
      let s := match v with
               | VObj _ => match get v "scope" with VStr sc => set_scope t (Some sc) s | _ => s end
               | _ => s
               end in
      if open s then set_phase t Body s else enterCatch t (closedReason s) s
  end.
Definition resume (t : nat) (s : transaction) : transaction :=
  match frames s !! t with
  | None => s
  | Some f =>
      match f_phase f with
      | Opening => match tracked_ s (opened f) with Some how => opened_ t how s | None => s end
      | Body | Done _ => s
      | Draining n v => guard! drained n (accounts s) else s; release t f v s
      | Releasing c v =>
          match tracked_ s c with
          | None => s
          | Some (inl _) => done_ t f (inl v) s
          | Some (inr r) => enterCatch t r s
          end
      | Unwinding n r => guard! drained n (accounts s) else s; unwind t f r s
      | RollingBack c r =>
          match tracked_ s c with
          | None => s
          | Some (inl _) =>
              done_ t f (inr r) (note (Restored t) (set_accounts (restoreFailure (saved f) (accounts s)) s))
          | Some (inr r') => done_ t f (inr r') s
          end
      end
  end.
(** The reaction of [run]: [scopes.delete(run)] *)
Definition forget (t : nat) (s : transaction) : transaction :=
  match f_phase <$> frames s !! t with
  | Some (Done _) => set_scopes (filter (λ u, u ≠ t) (scopes s)) s
  | _ => s
  end.

(** ** [finish] *)
Definition finish (s : transaction) : transaction :=
  match finishing s with
  | Some _ => s
  | None =>
      let o := outstanding (accounts s) || negb (bool_decide (scopes s = [])) in
      note Finishing (set_finish (Some (count s, o)) None (cancel s))
  end.
Definition finishResume (s : transaction) : transaction :=
  match finishing s, finished s with
  | Some (n, o), None =>
      guard! drained n (accounts s) else s;
      set_finish (finishing s)
        (Some (if truthyReason (structural s) then inr (structural s)
               else if o then inr (unawaited (count s))
               else if truthyReason (failure (accounts s)) then inr (failure (accounts s))
               else inl tt)) s
  | _, _ => s
  end.

(** A command settled: its reactions *)
Definition settleCommand (c : nat) (how : settlement) (s : transaction) : transaction :=
  match settles c how (accounts s) with
  | None => s
  | Some how =>
      let s := note (Settled c how) (set_accounts (settled c how (accounts s)) s) in
      if bool_decide (c ∈ withLocal s) then set_locals (pred (locals s)) (filter (λ d, d ≠ c) (withLocal s)) s else s
  end.

(** ** [local] handles in the transaction *)
Definition with_handle (h : nat) (f : local → local) (s : transaction) : transaction :=
  set_handles (alter f h (handles s)) s.
(** [#call] of a handle, called in the context [c] *)
Definition localCall (c : context) (h : nat) (s : transaction) : transaction :=
  match handles s !! h with
  | None => s
  | Some l =>
      if l_open l then
        match checkForeign c s with
        | (Some e, s) => refuse e s
        | (None, s) => with_handle h (λ l, Local (l_open l) (track None (l_commands l)) (l_phase l)) s
        end
      else let '(e, s) := expiredRefusal s in refuse e s
  end.
Definition localSettle (h c : nat) (how : settlement) (s : transaction) : transaction :=
  with_handle h (λ l, match settles c how (l_commands l) with
                      | Some how => Local (l_open l) (settled c how (l_commands l)) (l_phase l)
                      | None => l
                      end) s.

Section run.
Variable port : bool.                            (* whether the host passed [mutations] *)

#[export] Instance nodeHost (c : context) : SubmissionHost transaction := {
  admitHost := admit_ c;
  trackHost := queue;
  runningHost s := set_locals (S (locals s)) (withLocal s) s;
  commandCount := count;
  mutationPort := port;
  refuseHost := refuse }.

Inductive event :=
| Call (c : context) (m : method)
| SubmitMutation (c : context) (name : string) (version input : value)
| Savepoint (c : context)
| Settle (c : nat) (how : settlement)
| BodyReturned (t : nat) (how : settlement)
| Resume (t : nat)
| Forget (t : nat)
| Cancel
| Finish
| FinishResume
| LocalStart
| LocalCall (c : context) (h : nat)
| LocalSettle (h c : nat) (how : settlement)
| LocalReturned (h : nat) (how : settlement)
| LocalResume (h : nat).
Definition step (s : transaction) (e : event) : transaction :=
  match e with
  | Call c m => call c (commandOf m) s
  | SubmitMutation c name version input => submitMutation (H := nodeHost c) name version input s
  | Savepoint c => savepoint c s
  | Settle c how => settleCommand c how s
  | BodyReturned t how => bodyReturned t how s
  | Resume t => resume t s
  | Forget t => forget t s
  | Cancel => cancel s
  | Finish => finish s
  | FinishResume => finishResume s
  | LocalStart => set_handles (handles s ++ [newLocal]) s
  | LocalCall c h => localCall c h s
  | LocalSettle h c how => localSettle h c how s
  | LocalReturned h how => with_handle h (localReturned how) s
  | LocalResume h => with_handle h localResume s
  end.
Definition run (events : list event) : transaction := foldl step newTransaction events.
End run.
