(* ===== verification/TransactionFacts.v ===== *)
(** What a transaction answers when its callback returned: nothing poisoned it,
    nothing was left unawaited and every command that failed was rolled back with
    a savepoint - or it throws the reason. *)
From S2P Require Import Prelude Transactions.
Open Scope axton_scope.

(** ** Accounting *)
Definition unsettled (t : tracking) : Prop := settledAs t = None.
#[export] Instance unsettled_dec t : Decision (unsettled t).
Proof. unfold unsettled. destruct (settledAs t); [right|left]; done. Defined.
Definition balanced (a : accounting) : Prop := pending a = length (filter unsettled (commands a)).

Lemma settles_inv c how a how' :
  settles c how a = Some how' →
  ∃ threw, commands a !! c = Some (Tracking threw None) ∧ how' = match threw with Some r => inr r | None => how end.
Proof.
  unfold settles. destruct (commands a !! c) as [[threw [h|]]|] eqn:Hc; intros [= <-]. eauto.
Qed.
Lemma filter_alter_settle c threw how (l : list tracking) :
  l !! c = Some (Tracking threw None) →
  length (filter unsettled l) = S (length (filter unsettled (alter (λ t, Tracking (refusedAtOnce t) (Some how)) c l))).
Proof.
  revert c. induction l as [|x l IH]; intros [|c] Hc; [done..| |].
  - injection Hc as ->. change (alter ?f 0 (?x :: l)) with (f x :: l). rewrite !filter_cons.
    by rewrite decide_True, decide_False by done.
  - change (alter ?f (S c) (x :: l)) with (x :: alter f c l). rewrite !filter_cons.
    case_decide; cbn [length]; by rewrite (IH c).
Qed.
Lemma balanced_track threw a : balanced a → balanced (track threw a).
Proof. 
  unfold balanced, track. cbn [pending commands]. intros ->.
  rewrite filter_app, length_app, filter_cons_True by done. cbn. lia.
Qed.
Lemma balanced_settled c how how' a : balanced a → settles c how a = Some how' → balanced (settled c how' a).
Proof.
  unfold balanced. intros Hp (threw & Hc & _)%settles_inv. cbn. rewrite Hp, (filter_alter_settle _ _ how' _ Hc). done.
Qed.
Lemma balanced_restore r a : balanced a → balanced (restoreFailure r a).
Proof. done. Qed.

Definition answered (t : tracking) : Prop := settledAs t ≠ None.
Lemma drained_Forall n a : drained n a = true ↔ Forall answered (take n (commands a)).
Proof.
  unfold drained, answered. induction (take n (commands a)) as [|t l IH]; cbn; [split; [constructor|done]|].
  rewrite andb_true_iff, IH, Forall_cons. by destruct (settledAs t); intuition.
Qed.
Lemma balanced_answered a : balanced a → outstanding a = false → Forall answered (commands a).
Proof.
  unfold balanced, outstanding. intros -> Ho%negb_false_iff%Nat.eqb_eq%nil_length_inv.
  apply Forall_forall. intros t Ht Hn. 
  assert (t ∈ filter unsettled (commands a)) by by apply list_elem_of_filter. rewrite Ho in *. set_solver.
Qed.

(** ** The ledger

    A failure is rolled back when it settled between the opening of a savepoint
    and the rollback of that savepoint. *)
Definition rolledBack (l : list entry) (i : nat) : Prop :=
  ∃ t j k, j < i < k ∧ l !! j = Some (Opened t) ∧ l !! k = Some (Restored t).
Definition clean (l : list entry) (n : nat) : Prop :=
  ∀ i c r, i < n → l !! i = Some (Settled c (inr r)) → rolledBack l i.
Definition recorded (l : list entry) (r : reason) : Prop :=
  r = Undefined ∨ truthyReason r = true ∧ ∃ c, Settled c (inr r) ∈ l.

Lemma rolledBack_app l l' i : rolledBack l i → rolledBack (l ++ l') i.
Proof.
  intros (t & j & k & Hi & Hj & Hk). exists t, j, k. split; [done|]. split; by apply lookup_app_l_Some.
Qed.
Lemma clean_app l l' n : n ≤ length l → clean l n → clean (l ++ l') n.
Proof.
  intros Hn Hc i c r Hi Hl. rewrite lookup_app_l in Hl by lia. eapply rolledBack_app, Hc; eauto.
Qed.
Lemma recorded_app l l' r : recorded l r → recorded (l ++ l') r.
Proof. intros [->|[Ht [c Hc]]]; [by left|right]. split; [done|]. exists c. set_solver. Qed.
Lemma clean_note l e : clean l (length l) → (∀ c r, e ≠ Settled c (inr r)) → clean (l ++ [e]) (length (l ++ [e])).
Proof.
  intros Hc He i c r Hi Hl. apply lookup_app_Some in Hl as [Hl|[Hge Hl]].
  - eapply rolledBack_app, Hc; [|done]. by eapply lookup_lt_Some.
  - apply list_lookup_singleton_Some in Hl as [_ Hl]. by destruct (He c r).
Qed.
Lemma clean_restored l j t :
  l !! j = Some (Opened t) → clean l j → clean (l ++ [Restored t]) (length (l ++ [Restored t])).
Proof.
  intros Hj Hc i c r Hi Hl. apply lookup_app_Some in Hl as [Hl|[Hge Hl]].
  - destruct (Nat.lt_trichotomy i j) as [Hlt|[->|Hgt]]; [eapply rolledBack_app, Hc; eauto|congruence|].
    exists t, j, (length l). split; [apply lookup_lt_Some in Hl; lia|].
    split; [by apply lookup_app_l_Some|]. by rewrite lookup_app_r, Nat.sub_diag.
  - by apply list_lookup_singleton_Some in Hl as [_ Hl].
Qed.

(** ** The invariant *)
Definition isDone (f : frame) : Prop := match f_phase f with Done _ => True | _ => False end.
Record Inv (s : transaction) : Prop := {
  inv_balanced : balanced (accounts s);
  inv_threw : Forall (λ t, ∀ r, refusedAtOnce t = Some r → truthyReason r = true) (commands (accounts s));
  inv_scopes : ∀ t f, frames s !! t = Some f → t ∈ scopes s ∨ isDone f;
  inv_structural : structural s = Undefined ∧ (∀ m, Poisoned m ∉ log s) ∨
                   ∃ n m, structural s = Own n m ∧ Poisoned m ∈ log s;
  inv_failure : recorded (log s) (failure (accounts s));
  inv_saved : ∀ t f, frames s !! t = Some f → recorded (log s) (saved f);
  inv_clean : failure (accounts s) = Undefined → clean (log s) (length (log s));
  inv_opened : ∀ t f, frames s !! t = Some f → saved f = Undefined →
               ∃ j, log s !! j = Some (Opened t) ∧ clean (log s) j }.

Lemma inv_new : Inv newTransaction.
Proof.
  split; try done; [|by left]. left. split; [done|]. intros m. cbn. set_solver.
Qed.

(** [Inv] reads only some fields. *)
Lemma inv_same s s' :
  accounts s' = accounts s → frames s' = frames s → scopes s' = scopes s → structural s' = structural s →
  log s' = log s → Inv s → Inv s'.
Proof. intros Ha Hf Hs Hst Hl []. split; rewrite ?Ha, ?Hf, ?Hs, ?Hst, ?Hl; done. Qed.
Lemma inv_active t s : Inv s → Inv (set_active t s). Proof. by apply inv_same. Qed.
Lemma inv_locals n l s : Inv s → Inv (set_locals n l s). Proof. by apply inv_same. Qed.
Lemma inv_handles l s : Inv s → Inv (set_handles l s). Proof. by apply inv_same. Qed.
Lemma inv_finish f r s : Inv s → Inv (set_finish f r s). Proof. by apply inv_same. Qed.
Lemma inv_cancel s : Inv s → Inv (cancel s). Proof. by apply inv_same. Qed.

(** Frames keep what they saved; a phase moves on. *)
Lemma inv_frames s t (g : frame → frame) :
  Inv s → (∀ f, frames s !! t = Some f → saved (g f) = saved f ∧ (isDone f → isDone (g f))) →
  Inv (set_frames (alter g t (frames s)) s).
Proof.
  intros [] Hg.
  assert (∀ u f, alter g t (frames s) !! u = Some f → ∃ f', frames s !! u = Some f' ∧ saved f = saved f' ∧
            (isDone f' → isDone f)) as Hfr.
  { intros u f. destruct (decide (u = t)) as [->|].
    - rewrite list_lookup_alter_eq. destruct (frames s !! t) as [f'|] eqn:E; intros [= <-]. exists f'. split; [done|]. by apply Hg.
    - rewrite list_lookup_alter_ne by done. eauto. }
  split; cbn; try done.
  - intros u f (f' & Hf & _ & Hd)%Hfr. destruct (inv_scopes0 u f' Hf); [by left|right; auto].
  - intros u f (f' & Hf & -> & _)%Hfr. eauto.
  - intros u f (f' & Hf & -> & _)%Hfr. eauto.
Qed.
Lemma inv_phase t p s f :
  Inv s → frames s !! t = Some f → ¬ isDone f → Inv (set_phase t p s).
Proof. intros Hi Hf Hd. apply inv_frames; [done|]. intros f' Hf'. simplify_eq. by split. Qed.
Lemma inv_scope t sc s : Inv s → Inv (set_scope t sc s).
Proof. intros Hi. apply inv_frames; [done|]. intros [] _. done. Qed.

(** Adding to the log what is neither a failure, a refusal nor a mark. *)
Lemma inv_note e s :
  (∀ m, e ≠ Poisoned m) → (∀ c r, e ≠ Settled c (inr r)) → Inv s → Inv (note e s).
Proof.
  intros Hm He []. split; cbn; try done.
  - destruct inv_structural0 as [[? Hp]|(n & m & ? & ?)]; [left|right].
    + split; [done|]. intros m [?|Hx]%elem_of_app; [set_solver|]. apply list_elem_of_singleton in Hx. by destruct (Hm m).
    + exists n, m. set_solver.
  - by apply recorded_app.
  - intros t f Hf. by eapply recorded_app, inv_saved0.
  - intros Hf. apply clean_note; auto.
  - intros t f Hf Hs. destruct (inv_opened0 t f Hf Hs) as (j & Hj & Hc). exists j.
    split; [by apply lookup_app_l_Some|]. apply clean_app; [|done]. apply lookup_lt_Some in Hj. lia.
Qed.
(** A structural refusal. *)
Lemma inv_poisoned n m s r :
  Inv s → r = Own n m ∨ (r = structural s ∧ structural s ≠ Undefined) → Inv (note (Poisoned m) (set_structural r s)).
Proof.
  intros Hi Hr. destruct Hi. split; cbn; try done.
  - right. destruct Hr as [->|[-> Hu]]; [exists n, m; set_solver|].
    destruct inv_structural0 as [[? _]|(n' & m' & ? & ?)]; [done|]. exists n', m'. set_solver.
  - by apply recorded_app.
  - intros t f Hf. by eapply recorded_app, inv_saved0.
  - intros Hf. apply clean_note; auto.
  - intros t f Hf Hs. destruct (inv_opened0 t f Hf Hs) as (j & Hj & Hc). exists j.
    split; [by apply lookup_app_l_Some|]. apply clean_app; [|done]. apply lookup_lt_Some in Hj. lia.
Qed.
Lemma inv_overlap m s : Inv s → Inv (overlap m s).
Proof. intros Hi. eapply inv_poisoned; [done|by left]. Qed.
Lemma inv_poison m s : Inv s → Inv (poison m s).
Proof.
  intros Hi. apply (inv_poisoned (count s) m s); [done|]. unfold orElse.
  destruct (inv_structural s Hi) as [[-> _]|(n & m' & -> & _)]; [by left|by right].
Qed.
Lemma inv_track threw s :
  (∀ r, threw = Some r → truthyReason r = true) → Inv s → Inv (set_accounts (track threw (accounts s)) s).
Proof.
  intros Ht []. split; cbn; try done; [by apply balanced_track|].
  apply Forall_app. split; [done|]. by apply Forall_singleton.
Qed.
Lemma inv_queue threw command l s :
  (∀ r, threw = Some r → truthyReason r = true) → Inv s → Inv (queue threw command l s).
Proof.
  intros Ht Hi. unfold queue.
  assert (Inv (set_accounts (track threw (accounts s))
    (match threw with None => note (Sent (count s) (activeScope s) command) s | Some _ => s end))) as Hx.
  { destruct threw; [by apply inv_track|]. apply (inv_track None (note _ s)); [done|]. by apply inv_note. }
  destruct threw; destruct l; [by apply inv_locals|done|by apply inv_locals|done].
Qed.
#[local] Hint Resolve inv_active inv_locals inv_handles inv_finish inv_cancel inv_scope inv_overlap inv_poison : axton.
Lemma truthy_defined r : truthyReason r = true → nullishReason r = false ∧ r ≠ Undefined.
Proof. destruct r as [|o []|]; try done; by destruct v. Qed.
Lemma inv_settle c how s :
  (∀ r, how = inr r → truthyReason r = true) → Inv s → Inv (settleCommand c how s).
Proof.
  intros Ht Hi. unfold settleCommand. destruct (settles c how (accounts s)) as [how'|] eqn:Hs; [|done].
  assert (∀ r, how' = inr r → truthyReason r = true) as Ht'.
  { intros r ->. apply settles_inv in Hs as (threw & Hc & Hh). destruct threw as [r'|]; [|by apply Ht].
    injection Hh as ->. pose proof (inv_threw s Hi) as Hf. rewrite Forall_lookup in Hf. by eapply (Hf c). }
  assert (Inv (note (Settled c how') (set_accounts (settled c how' (accounts s)) s))); [|by case_if; [apply inv_locals|]].
  destruct Hi. split; cbn; try done.
  - by eapply balanced_settled.
  - apply Forall_lookup. intros i t Hi. destruct (decide (i = c)) as [->|].
    + rewrite list_lookup_alter_eq in Hi. destruct (commands (accounts s) !! c) as [t'|] eqn:E; [|done].
      injection Hi as <-. cbn. rewrite Forall_lookup in inv_threw0. by eapply inv_threw0.
    + rewrite list_lookup_alter_ne in Hi by done. rewrite Forall_lookup in inv_threw0. by eapply inv_threw0.
  - destruct inv_structural0 as [[? Hp]|(n & m & ? & ?)]; [left|right].
    + split; [done|]. intros m. specialize (Hp m). set_solver.
    + exists n, m. set_solver.
  - destruct how' as [v|r]; [by apply recorded_app|]. unfold orElse. case_if; [right|by apply recorded_app].
    split; [by apply Ht'|]. exists c. set_solver.
  - intros t f Hf. by eapply recorded_app, inv_saved0.
  - destruct how' as [v|r]; [intros Hf; apply clean_note; auto|]. unfold orElse. specialize (Ht' r eq_refl).
    apply truthy_defined in Ht' as [_ Hr]. case_if; [done|]. intros Hu. by rewrite Hu in *.
  - intros t f Hf Hu. destruct (inv_opened0 t f Hf Hu) as (j & Hj & Hc). exists j.
    split; [by apply lookup_app_l_Some|]. apply clean_app; [|done]. apply lookup_lt_Some in Hj. lia.
Qed.
Lemma inv_restored t f s :
  frames s !! t = Some f → Inv s →
  Inv (note (Restored t) (set_accounts (restoreFailure (saved f) (accounts s)) s)).
Proof.
  intros Hf []. split; cbn; try done.
  - destruct inv_structural0 as [[? Hp]|(n & m & ? & ?)]; [left|right].
    + split; [done|]. intros m. specialize (Hp m). set_solver.
    + exists n, m. set_solver.
  - by eapply recorded_app, inv_saved0.
  - intros u g Hg. by eapply recorded_app, inv_saved0.
  - intros Hu. destruct (inv_opened0 t f Hf Hu) as (j & Hj & Hc). by eapply clean_restored.
  - intros u g Hg Hu. destruct (inv_opened0 u g Hg Hu) as (j & Hj & Hc). exists j.
    split; [by apply lookup_app_l_Some|]. apply clean_app; [|done]. apply lookup_lt_Some in Hj. lia.
Qed.
(** A new frame and its mark. *)
Lemma inv_open_frame t f s :
  t = length (frames s) → saved f = failure (accounts s) → Inv s →
  Inv (note (Opened t) (set_scopes (scopes s ++ [t]) (set_active (Some t) (set_frames (frames s ++ [f]) s)))).
Proof.
  intros -> Hs [].
  assert (∀ u g, (frames s ++ [f]) !! u = Some g → frames s !! u = Some g ∨ u = length (frames s) ∧ g = f) as Hfr.
  { intros u g [Hg|[Hge Hg]]%lookup_app_Some; [by left|right].
    apply list_lookup_singleton_Some in Hg as [Hu ->]. split; [lia|done]. }
  split; cbn; try done.
  - intros u g [Hg|[-> ->]]%Hfr; [|set_solver]. destruct (inv_scopes0 u g Hg); [set_solver|by right].
  - destruct inv_structural0 as [[? Hp]|(n & m & ? & ?)]; [left|right].
    + split; [done|]. intros m. specialize (Hp m). set_solver.
    + exists n, m. set_solver.
  - by apply recorded_app.
  - intros u g [Hg|[-> ->]]%Hfr; apply recorded_app; [eauto|by rewrite Hs].
  - intros Hu. apply clean_note; auto.
  - intros u g [Hg|[-> ->]]%Hfr Hu.
    + destruct (inv_opened0 u g Hg Hu) as (j & Hj & Hc). exists j.
      split; [by apply lookup_app_l_Some|]. apply clean_app; [|done]. apply lookup_lt_Some in Hj. lia.
    + exists (length (log s)). split; [by rewrite lookup_app_r, Nat.sub_diag|].
      apply clean_app; [done|]. apply inv_clean0. by rewrite <- Hs.
Qed.

(** ** Every event keeps it *)
Lemma inv_refuse e s : Inv s → Inv (refuse e s).
Proof. by apply inv_note. Qed.
Lemma inv_checkForeign c s : Inv s → Inv (checkForeign c s).2.
Proof. unfold checkForeign. case_if; cbn; auto with axton. Qed.
Lemma inv_admitIn c o s : Inv s → Inv (admitIn c o s).2.
Proof.
  intros Hi. unfold admitIn, checkForeign, callbackRefusal. repeat case_if; cbn; auto with axton.
Qed.
#[local] Hint Resolve inv_refuse inv_admitIn inv_checkForeign : axton.
Lemma inv_call c command s : Inv s → Inv (call c command s).
Proof.
  intros Hi. unfold call, admit_. pose proof (inv_admitIn c "overlapping savepoint work" s Hi) as Ha.
  destruct (admitIn c _ s) as [[e|] s1]; cbn in Ha; [auto with axton|by apply inv_queue].
Qed.
Lemma inv_submit port c name version input s :
  Inv s → Inv (submitMutation (H := nodeHost port c) name version input s).
Proof.
  intros Hi. unfold submitMutation. destruct (mutationCommand _ _ _) as [[command l]|e]; cbn; [|by apply inv_refuse].
  unfold admit_. pose proof (inv_admitIn c "overlapping savepoint work" s Hi) as Ha.
  destruct (admitIn c _ s) as [[e|] s1]; cbn in Ha; [auto with axton|].
  apply inv_queue; [intros r; by destruct port; [|intros [= <-]]|]. destruct l; auto with axton.
Qed.
Lemma queue_frames threw command l s :
  frames (queue threw command l s) = frames s ∧ failure (accounts (queue threw command l s)) = failure (accounts s) ∧
  scopes (queue threw command l s) = scopes s.
Proof. by destruct threw, l. Qed.
Lemma inv_savepoint c s : Inv s → Inv (savepoint c s).
Proof.
  intros Hi. unfold savepoint. pose proof (inv_admitIn c "overlapping savepoints" s Hi) as Ha.
  destruct (admitIn c _ s) as [[e|] s1]; cbn in Ha; [auto with axton|].
  destruct (queue_frames None savepointCommand false s1) as (Hf & Hfail & _).
  apply inv_open_frame; [by rewrite Hf|by rewrite Hfail|by apply inv_queue].
Qed.
Lemma inv_done t f how s g :
  Inv s → frames s !! t = Some g → ¬ isDone g → Inv (done_ t f how s).
Proof.
  intros Hi Hg Hd. unfold done_. case_if; eapply inv_phase; eauto using inv_active.
Qed.
Lemma inv_queue_phase t f p command s :
  Inv s → frames s !! t = Some f → ¬ isDone f → Inv (set_phase t p (queue None command false s)).
Proof. intros Hi Hf Hd. eapply inv_phase; [by apply inv_queue|exact Hf|done]. Qed.
Lemma inv_resume t s : Inv s → Inv (resume t s).
Proof.
  intros Hi. unfold resume. destruct (frames s !! t) as [f|] eqn:Hf; [|done].
  destruct (f_phase f) as [| |n v|c v|n r|c r|how] eqn:Hp; [|done| | | | |done].
  all: assert (¬ isDone f) as Hd by (unfold isDone; rewrite Hp; auto).
  - destruct (tracked_ s (opened f)) as [[v|r]|]; [|by eapply inv_phase|done]. unfold opened_.
    set (s1 := match v with VObj _ => _ | _ => _ end).
    assert (Inv s1 ∧ ∃ g, frames s1 !! t = Some g ∧ ¬ isDone g) as (Hi1 & g & Hg & Hdg).
    { subst s1. destruct v; eauto. destruct (get _ _); eauto. split; [by apply inv_scope|].
      cbn. rewrite list_lookup_alter_eq, Hf. eexists. split; [reflexivity|]. by destruct f. }
    clearbody s1. case_if; by eapply inv_phase.
  - case_if; [|done]. unfold release. repeat case_if; first [by eapply inv_queue_phase | by eapply inv_phase
      | eapply inv_phase; [by apply inv_overlap|exact Hf|done]].
  - destruct (tracked_ s c) as [[?|?]|]; [by eapply inv_done|by eapply inv_phase|done].
  - case_if; [|done]. unfold unwind. repeat case_if; first [by eapply inv_queue_phase | by eapply inv_done
      | eapply inv_done; [by apply inv_overlap|exact Hf|done]].
  - destruct (tracked_ s c) as [[?|?]|]; [|by eapply inv_done|done].
    eapply inv_done; [by eapply inv_restored|exact Hf|done].
Qed.
Lemma inv_bodyReturned t how s : Inv s → Inv (bodyReturned t how s).
Proof.
  intros Hi. unfold bodyReturned. destruct (frames s !! t) as [f|] eqn:Hf; cbn; [|done].
  destruct (f_phase f) eqn:Hp; try done.
  assert (¬ isDone f) by (unfold isDone; rewrite Hp; auto). destruct how; by eapply inv_phase.
Qed.
Lemma inv_forget t s : Inv s → Inv (forget t s).
Proof.
  intros Hi. unfold forget. destruct (frames s !! t) as [f|] eqn:Hf; cbn; [|done]. destruct (f_phase f) eqn:Hp; try done.
  destruct Hi. split; cbn; try done. intros u g Hg. destruct (decide (u = t)) as [->|].
  - right. unfold isDone. simplify_eq. by rewrite Hp.
  - destruct (inv_scopes0 u g Hg); [left; by apply list_elem_of_filter|by right].
Qed.
Definition throwsError (e : event) : Prop :=
  match e with Settle _ (inr r) => truthyReason r = true | _ => True end.
Lemma inv_step port s e : throwsError e → Inv s → Inv (step port s e).
Proof.
  intros He Hi. destruct e as [c m|c name version input|c|c how|t how|t|t| | | | |c h|h c how|h how|h]; cbn.
  - by apply inv_call.
  - by apply inv_submit.
  - by apply inv_savepoint.
  - apply inv_settle; [|done]. intros r ->. exact He.
  - by apply inv_bodyReturned.
  - by apply inv_resume.
  - by apply inv_forget.
  - by apply inv_cancel.
  - unfold finish. destruct (finishing s); [done|]. apply inv_note; [done..|]. auto with axton.
  - unfold finishResume. destruct (finishing s) as [[n o]|], (finished s); try done. case_if; auto with axton.
  - by apply inv_handles.
  - unfold localCall, expiredRefusal, checkForeign. destruct (handles s !! h) as [l|]; [|done].
    repeat case_if; cbn; auto with axton. by apply inv_handles.
  - by apply inv_handles.
  - by apply inv_handles.
  - by apply inv_handles.
Qed.

(** ** A closed handle sends nothing *)
Definition silent (s s' : transaction) : Prop :=
  open s' = false ∧ count s' = count s ∧ ∃ l, log s' = log s ++ l ∧ ∀ c sc command, Sent c sc command ∉ l.
Lemma silent_refl s s' :
  open s' = false → count s' = count s → log s' = log s → silent s s'.
Proof. intros ? ? Hl. split; [done|]. split; [done|]. exists []. rewrite app_nil_r. split; [done|]. set_solver. Qed.
Lemma silent_trans s1 s2 s3 : silent s1 s2 → silent s2 s3 → silent s1 s3.
Proof.
  intros (_ & H12 & l & Hl & Hn) (H3 & H23 & l' & Hl' & Hn'). split; [done|]. split; [congruence|].
  exists (l ++ l'). split; [by rewrite Hl', Hl, app_assoc|]. intros c sc command. specialize (Hn c sc command).
  specialize (Hn' c sc command). set_solver.
Qed.
Lemma silent_note s s' e :
  (∀ c sc command, e ≠ Sent c sc command) → silent s s' → silent s (note e s').
Proof.
  intros He Hs. eapply silent_trans; [exact Hs|]. destruct Hs as [Ho _]. split; [done|]. split; [done|].
  exists [e]. split; [done|]. intros c sc command. specialize (He c sc command). set_solver.
Qed.
Lemma silent_frames s t (g : frame → frame) s' : silent s s' → silent s (set_frames (alter g t (frames s')) s').
Proof. done. Qed.
Lemma silent_phase s t p s' : silent s s' → silent s (set_phase t p s').
Proof. done. Qed.
Lemma silent_overlap s m s' : silent s s' → silent s (overlap m s').
Proof. intros Hs. unfold overlap. by apply silent_note. Qed.
Lemma silent_poison s m s' : silent s s' → silent s (poison m s').
Proof. intros Hs. unfold poison. by apply silent_note. Qed.
Lemma silent_refuse s e s' : silent s s' → silent s (refuse e s').
Proof. intros Hs. unfold refuse. by apply silent_note. Qed.
Lemma silent_done s t f how s' : silent s s' → silent s (done_ t f how s').
Proof. intros Hs. unfold done_. by case_if. Qed.
#[local] Hint Resolve silent_phase silent_overlap silent_poison silent_refuse silent_done : axton.

Lemma silent_admitIn c o s : open s = false → ∃ e, (admitIn c o s).1 = Some e ∧ silent s (admitIn c o s).2.
Proof.
  intros Ho. assert (silent s s) by by apply silent_refl.
  unfold admitIn, checkForeign. case_if; cbn; [|rewrite Ho]; eauto with axton.
Qed.
Lemma silent_step port s e : open s = false → silent s (step port s e).
Proof.
  intros Ho. assert (silent s s) as Hs by by apply silent_refl.
  destruct e as [c m|c name version input|c|c how|t how|t|t| | | | |c h|h c how|h how|h]; cbn; try done.
  - unfold call, admit_. destruct (silent_admitIn c "overlapping savepoint work" s Ho) as (e & He & Hsi).
    destruct (admitIn _ _ _) as [[?|] ?]; [auto with axton|done].
  - unfold submitMutation. destruct (mutationCommand _ _ _) as [[command l]|e]; cbn; [|auto with axton].
    unfold admit_. destruct (silent_admitIn c "overlapping savepoint work" s Ho) as (e & He & Hsi).
    destruct (admitIn _ _ _) as [[?|] ?]; [auto with axton|done].
  - unfold savepoint. destruct (silent_admitIn c "overlapping savepoints" s Ho) as (e & He & Hsi).
    destruct (admitIn _ _ _) as [[?|] ?]; [auto with axton|done].
  - unfold settleCommand. destruct (settles c how (accounts s)) as [how'|]; [|done].
    assert (silent s (note (Settled c how') (set_accounts (settled c how' (accounts s)) s))); [|by case_if].
    apply silent_note; [done|]. apply silent_refl; [done| |done]. unfold count. cbn. by rewrite length_alter.
  - unfold bodyReturned. destruct (f_phase <$> frames s !! t) as [[]|]; try done. by destruct how.
  - unfold resume. destruct (frames s !! t) as [f|]; [|done]. destruct (f_phase f); try done.
    + destruct (tracked_ s (opened f)) as [[v|r]|]; [|done..]. unfold opened_.
      set (s1 := match v with VObj _ => _ | _ => _ end).
      assert (silent s s1) as H1 by (subst s1; destruct v; try done; by destruct (get _ _)).
      clearbody s1. case_if; unfold enterCatch; auto with axton.
    + case_if; [|done]. unfold release, enterCatch. rewrite Ho. auto with axton.
    + destruct (tracked_ s c) as [[?|?]|]; unfold enterCatch; auto with axton.
    + case_if; [|done]. unfold unwind. rewrite Ho. cbn. auto with axton.
    + destruct (tracked_ s c) as [[?|?]|]; [|auto with axton..]. apply silent_done, silent_note; [done|].
      by apply silent_refl.
  - unfold forget. by destruct (f_phase <$> frames s !! t) as [[]|].
  - by apply silent_refl.
  - unfold finish. destruct (finishing s); [done|]. apply silent_note; [done|]. by apply silent_refl.
  - unfold finishResume. destruct (finishing s) as [[]|], (finished s); try done. by case_if.
  - unfold localCall, expiredRefusal, checkForeign. destruct (handles s !! h) as [l|]; [|done].
    repeat case_if; cbn; auto with axton.
Qed.
Lemma silent_run port events s : open s = false → silent s (foldl (step port) s events).
Proof.
  revert s. induction events as [|e events IH]; intros s Ho; cbn; [by apply silent_refl|].
  pose proof (silent_step port s e Ho) as Hs. eapply silent_trans; [exact Hs|]. apply IH, Hs.
Qed.

(** ** [finish] is called once *)
Lemma run_snoc port events e : run port (events ++ [e]) = step port (run port events) e.
Proof. unfold run. by rewrite foldl_snoc. Qed.
Definition ending (s : transaction) := (finishing s, finished s).
Lemma queue_ending threw command l s : ending (queue threw command l s) = ending s.
Proof. by destruct threw, l. Qed.
Lemma admitIn_ending c o s : ending (admitIn c o s).2 = ending s.
Proof. unfold admitIn, checkForeign, callbackRefusal. by repeat case_if. Qed.
Lemma step_ending port s e : ending (step port s e) = ending s ∨ e = Finish ∧ finishing s = None ∨ e = FinishResume.
Proof.
  destruct e as [c m|c name version input|c|c how|t how|t|t| | | | |c h|h c how|h how|h]; cbn; try (by left).
  - left. unfold call, admit_. pose proof (admitIn_ending c "overlapping savepoint work" s) as Ha.
    destruct (admitIn _ _ _) as [[?|] ?]; [done|by rewrite queue_ending].
  - left. unfold submitMutation. destruct (mutationCommand _ _ _) as [[command l]|e]; cbn; [|done].
    unfold admit_. pose proof (admitIn_ending c "overlapping savepoint work" s) as Ha.
    destruct (admitIn _ _ _) as [[?|] ?]; [done|rewrite queue_ending; by destruct l].
  - left. unfold savepoint. pose proof (admitIn_ending c "overlapping savepoints" s) as Ha.
    by destruct (admitIn _ _ _) as [[?|] ?].
  - left. unfold settleCommand. destruct (settles _ _ _); [by case_if|done].
  - left. unfold bodyReturned. destruct (f_phase <$> frames s !! t) as [[]|]; try done. by destruct how.
  - left. unfold resume, opened_, release, unwind, done_, enterCatch. destruct (frames s !! t) as [f|]; [|done].
    destruct (f_phase f); try done.
    + destruct (tracked_ s (opened f)) as [[v|r]|]; [|done..]. destruct v; try (by case_if).
      destruct (get _ _); by case_if.
    + by repeat case_if.
    + destruct (tracked_ s c) as [[?|?]|]; [by case_if|done..].
    + by repeat case_if.
    + destruct (tracked_ s c) as [[?|?]|]; [by case_if..|done].
  - left. unfold forget. by destruct (f_phase <$> frames s !! t) as [[]|].
  - unfold finish. destruct (finishing s) eqn:Hf; [by left|by right; left].
  - by right; right.
  - left. unfold localCall, expiredRefusal, checkForeign. destruct (handles s !! h) as [l|]; [|done].
    by repeat case_if.
Qed.
Lemma step_finishing port s e : finishing (step port s e) = finishing s ∨ e = Finish ∧ finishing s = None.
Proof.
  destruct (step_ending port s e) as [[= H _]|[H| ->]]; [by left|by right|left]. cbn. unfold finishResume.
  destruct (finishing s) as [[]|] eqn:Hf, (finished s); try done. case_if; done.
Qed.
Lemma unfinished port events : FinishResume ∉ events → finished (run port events) = None.
Proof.
  induction events as [|e events IH] using rev_ind; [done|]. rewrite not_elem_of_app, not_elem_of_cons.
  intros [H1 [H2 _]]. rewrite run_snoc. destruct (step_ending port (run port events) e) as [[= _ ->]|[[-> Hn]| ->]];
    [auto| |done]. cbn. unfold finish. by rewrite Hn.
Qed.
Lemma unclosed port events : Finish ∉ events → finishing (run port events) = None.
Proof.
  induction events as [|e events IH] using rev_ind; [done|]. rewrite not_elem_of_app, not_elem_of_cons.
  intros [H1 [H2 _]]. rewrite run_snoc. destruct (step_finishing port (run port events) e) as [->|[-> _]]; [auto|done].
Qed.
Definition left_unawaited (s : transaction) : bool :=
  outstanding (accounts s) || negb (bool_decide (scopes s = [])).
Lemma finishing_keeps port events s p :
  finishing s = Some p → finishing (foldl (step port) s events) = Some p.
Proof.
  revert s. induction events as [|e events IH]; intros s Hf; cbn; [done|]. apply IH.
  destruct (step_finishing port s e) as [->|[_ Hn]]; [done|congruence].
Qed.
Lemma inv_run port events : Forall throwsError events → Inv (run port events).
Proof.
  induction events as [|e events IH] using rev_ind; [intros _; apply inv_new|].
  rewrite Forall_app, Forall_singleton. intros [H He]. rewrite run_snoc. apply inv_step; auto.
Qed.
(** Nothing is tracked after the callback returned. *)
Lemma count_after port before after :
  finishing (run port before) = None →
  let s := run port (before ++ Finish :: after) in
  count s = count (run port before) ∧
  finishing s = Some (count (run port before), left_unawaited (run port before)) ∧
  ∃ l, log s = log (run port before) ++ [Finishing] ++ l ∧ ∀ c sc command, Sent c sc command ∉ l.
Proof.
  intros Hn. cbv zeta. replace (run port (before ++ Finish :: after))
    with (foldl (step port) (finish (run port before)) after) by (unfold run; by rewrite foldl_app).
  unfold finish. rewrite Hn. set (s1 := note Finishing _).
  destruct (silent_run port after s1 eq_refl) as (_ & Hc & l & Hl & Hsent).
  split; [by rewrite Hc|]. split; [by apply finishing_keeps|]. exists l. rewrite Hl. subst s1. cbn. by rewrite <- app_assoc.
Qed.
Lemma returned_awaited s :
  Inv s → left_unawaited s = false → Forall answered (commands (accounts s)) ∧ Forall isDone (frames s).
Proof.
  intros Hi [Ho Hs]%orb_false_iff. split; [by apply balanced_answered; [apply Hi|]|].
  apply negb_false_iff, bool_decide_eq_true in Hs. apply Forall_lookup. intros t f Hf.
  destruct (inv_scopes s Hi t f Hf) as [Hin|]; [|done]. rewrite Hs in Hin. set_solver.
Qed.

(** [finish] resolves only over a transaction in which nothing was refused,
    unawaited or left failed. *)
Definition succeeded (returned s : transaction) : Prop :=
  (∀ m, Poisoned m ∉ log s) ∧
  Forall answered (commands (accounts returned)) ∧ Forall isDone (frames returned) ∧
  ∀ i c r, log s !! i = Some (Settled c (inr r)) → rolledBack (log s) i.
Lemma finish_succeeds port before after :
  Forall throwsError (before ++ Finish :: after) → finishing (run port before) = None →
  let s := run port (before ++ Finish :: after) in
  finished s = None → finished (finishResume s) = Some (inl tt) → succeeded (run port before) s.
Proof.
  intros He Hn s Hu. destruct (count_after port before after Hn) as (_ & Hfin & _). fold s in Hfin.
  assert (Inv s) as Hi by by apply inv_run.
  assert (Inv (run port before)) as Hr by (apply inv_run; apply Forall_app in He; apply He).
  unfold finishResume. rewrite Hfin, Hu. destruct (drained _ _); [|congruence]. cbn. intros [= Hok].
  destruct (inv_structural s Hi) as [[Es Hp]|(n & m & Es & _)]; rewrite Es in Hok; [|done]. cbn in Hok.
  destruct (left_unawaited (run port before)) eqn:Ho; [done|].
  destruct (inv_failure s Hi) as [Hf|[Ht _]]; [|by rewrite Ht in Hok].
  destruct (returned_awaited _ Hr Ho) as [Ha Hdone]. split_and!; [done..|].
  intros i c r Hl. eapply (inv_clean s Hi Hf); [|exact Hl]. by eapply lookup_lt_Some.
Qed.

(** C3: When the callback of a transaction returned, [finish] waits for every
    command and then answers.  Nothing is sent from then on.  It succeeds only if
    no refusal ever poisoned the transaction, every command had settled and every
    savepoint ended by the time the callback returned, and every command that
    failed did so inside a savepoint that was rolled back afterwards.  Otherwise
    it throws a refusal that poisoned the transaction; else the refusal of
    unawaited work, when there was some; else the very reason one of its commands
    failed with. *)
Theorem finish_answers port before after :
  Forall throwsError (before ++ Finish :: after) → finishing (run port before) = None →
  let returned := run port before in
  let s := run port (before ++ Finish :: after) in
  (∃ l, log s = log returned ++ [Finishing] ++ l ∧ ∀ c sc command, Sent c sc command ∉ l) ∧
  (finished s = None → (finished (finishResume s) ≠ None ↔ Forall answered (commands (accounts s)))) ∧
  ∀ answer, finished s = None → finished (finishResume s) = Some answer →
    match answer with
    | inl _ =>
        (∀ m, Poisoned m ∉ log s) ∧
        Forall answered (commands (accounts returned)) ∧ Forall isDone (frames returned) ∧
        ∀ i c r, log s !! i = Some (Settled c (inr r)) → rolledBack (log s) i
    | inr r =>
        (∃ n m, r = Own n m ∧ Poisoned m ∈ log s) ∨
        (∀ m, Poisoned m ∉ log s) ∧
        (r = unawaited (count s) ∧ (pending (accounts returned) ≠ 0 ∨ scopes returned ≠ []) ∨
         ∃ c, Settled c (inr r) ∈ log s)
    end.
Proof.
  intros He Hn returned s. destruct (count_after port before after Hn) as (Hcount & Hfin & Hlog).
  fold s returned in Hcount, Hfin, Hlog. assert (Inv s) as Hi by by apply inv_run.
  assert (Inv returned) as Hr by (apply inv_run; apply Forall_app in He; apply He).
  assert (drained (count returned) (accounts s) = true ↔ Forall answered (commands (accounts s))) as Hd.
  { rewrite drained_Forall, <- Hcount. unfold count. by rewrite firstn_all. }
  split; [exact Hlog|]. unfold finishResume. rewrite Hfin.
  destruct (finished s) eqn:Hu; [by split|]. destruct (drained _ _) eqn:Hdr.
  2: { rewrite Hu. split; [intros _|done]. rewrite <- Hd. split; [by intros []|done]. }
  split; [intros _; split; [|done]; intros _; by apply Hd|]. intros answer _ [= <-].
  destruct (inv_structural s Hi) as [[Es Hp]|(n & m & Es & Hp)]; rewrite Es; cbn; [|left; eauto].
  destruct (left_unawaited returned) eqn:Ho.
  - right. split; [done|]. left. split; [done|]. apply orb_true_iff in Ho as [Ho|Ho].
    + left. unfold outstanding in Ho. apply negb_true_iff, Nat.eqb_neq in Ho. done.
    + right. apply negb_true_iff, bool_decide_eq_false in Ho. done.
  - destruct (inv_failure s Hi) as [Hf|[Ht Hf]].
    + rewrite Hf. cbn. apply (finish_succeeds port before after He Hn Hu). fold s. unfold finishResume.
      by rewrite Hfin, Hu, Hdr, Es, Hf.
    + rewrite Ht. right. split; [done|]. by right.
Qed.

Definition outer : context := Context_ false None.
Definition within (t : nat) : context := Context_ false (Some t).
Definition writing : method := Direct VNull.
Definition failedWrite : reason := Rejection 1 (Error "constraint").
Definition settledOk : settlement := inl VNull.
Definition scopeAnswer : settlement := inl (VObj [("scope", VStr "s1")]).
(** A savepoint whose write failed is rolled back; the transaction goes on. *)
Definition rolled_back_run : list event :=
  [Savepoint outer; Settle 0 scopeAnswer; Resume 0; Call (within 0) writing; Settle 1 (inr failedWrite);
   BodyReturned 0 settledOk; Resume 0; Resume 0; Settle 2 settledOk; Resume 0; Forget 0;
   Call outer writing; Settle 3 settledOk].
Lemma finish_answers_witness :
  Forall throwsError (rolled_back_run ++ Finish :: []) ∧ finishing (run true rolled_back_run) = None ∧
  let s := run true (rolled_back_run ++ Finish :: []) in
  finished (finishResume s) = Some (inl tt) ∧ rolledBack (log s) 4.
Proof.
  assert (Forall throwsError (rolled_back_run ++ Finish :: [])) as He by (repeat constructor).
  split; [exact He|]. split; [reflexivity|]. cbv zeta. split; [by vm_compute|].
  destruct (finish_answers true rolled_back_run [] He eq_refl) as (_ & _ & Ha).
  destruct (Ha (inl tt) eq_refl eq_refl) as (_ & _ & _ & Hc). apply (Hc 4 1 failedWrite). reflexivity.
Defined.

(** A command of the enclosing scope that fails while a savepoint is open is taken
    for the savepoint's: rolling the savepoint back forgets it, and [finish] does
    not throw it, though it was sent outside the savepoint. *)
Lemma enclosing_failure_forgotten :
  let s := run true [Call outer writing; Savepoint outer; Settle 1 scopeAnswer; Resume 0; Settle 0 (inr failedWrite);
    BodyReturned 0 settledOk; Resume 0; Resume 0; Settle 2 settledOk; Resume 0; Forget 0; Finish; FinishResume] in
  finished s = Some (inl tt) ∧ log s !! 0 = Some (Sent 0 None (commandOf writing)).
Proof. by vm_compute. Qed.
(** A savepoint whose opening fails stays the active one: the savepoint around it
    cannot roll back, and the transaction is refused whatever was caught. *)
Lemma failed_opening_stays_active :
  let s := run true [Savepoint outer; Settle 0 scopeAnswer; Resume 0; Savepoint (within 0);
    Settle 1 (inr failedWrite); Resume 1; BodyReturned 0 (inr failedWrite); Resume 0; Forget 0; Forget 1;
    Finish; FinishResume] in
  active s = Some 1 ∧ finished s = Some (inr (Own 2 nested)).
Proof. by vm_compute. Qed.
