(* ===== verification/MobileTransactions.v ===== *)
(** React Native's transaction handle: [client-react-native/api/transaction.mts].
    It has no async contexts, hence neither savepoints nor foreign callers; the
    rest it shares with the Node handle, which simulates it ([mobile_simulated]). *)
From S2P Require Import Prelude Transactions TransactionFacts.
Open Scope axton_scope.

(** ** State and operations *)
Record mobile := Mobile {
  m_open : bool;
  m_locals : nat;
  m_structural : reason;
  m_accounts : accounting;
  m_withLocal : list nat;
  m_handles : list local;
  m_finishing : option (nat * bool);
  m_finished : option (unit + reason);
  m_log : list entry }.
Definition newMobile : mobile := Mobile true 0 Undefined noCommands [] [] None None [].
Definition m_note e m := Mobile (m_open m) (m_locals m) (m_structural m) (m_accounts m) (m_withLocal m) (m_handles m)
  (m_finishing m) (m_finished m) (m_log m ++ [e]).
Definition m_set_accounts a m := Mobile (m_open m) (m_locals m) (m_structural m) a (m_withLocal m) (m_handles m)
  (m_finishing m) (m_finished m) (m_log m).
Definition m_set_locals n l m := Mobile (m_open m) n (m_structural m) (m_accounts m) l (m_handles m)
  (m_finishing m) (m_finished m) (m_log m).
Definition m_set_handles h m := Mobile (m_open m) (m_locals m) (m_structural m) (m_accounts m) (m_withLocal m) h
  (m_finishing m) (m_finished m) (m_log m).
Definition m_count (m : mobile) : nat := length (commands (m_accounts m)).
Definition m_poison (text : string) (m : mobile) : mobile :=
  m_note (Poisoned text)
    (Mobile (m_open m) (m_locals m) (orElse (m_structural m) (Own (m_count m) text)) (m_accounts m) (m_withLocal m)
       (m_handles m) (m_finishing m) (m_finished m) (m_log m)).
Definition m_cancel (m : mobile) : mobile :=
  Mobile false (m_locals m) (m_structural m) (m_accounts m) (m_withLocal m) (m_handles m) (m_finishing m) (m_finished m) (m_log m).
(** [#queue] and the host's [track]: the scope is always [undefined] *)
Definition m_queue (threw : option reason) (command : list (string * value)) (local : bool) (m : mobile) : mobile :=
  let c := m_count m in
  let m := match threw with None => m_note (Sent c None command) m | Some _ => m end in
  let m := m_set_accounts (track threw (m_accounts m)) m in
  if local then m_set_locals (m_locals m) (m_withLocal m ++ [c]) m else m.
(** [#admit] *)
Definition m_admit (m : mobile) : option exn * mobile :=
  guard! m_open m else (Some (Error closedMessage), m);
  if Nat.eqb (m_locals m) 0 then (None, m) else (Some (Error CAPABILITY), m_poison CAPABILITY m).
Definition m_refuse (e : exn) (m : mobile) : mobile := m_note (Refused e) m.
Definition m_call (command : list (string * value)) (m : mobile) : mobile :=
  match m_admit m with
  | (Some e, m) => m_refuse e m
  | (None, m) => m_queue None command false m
  end.
Definition m_finish (m : mobile) : mobile :=
  match m_finishing m with
  | Some _ => m
  | None => m_note Finishing (Mobile false (m_locals m) (m_structural m) (m_accounts m) (m_withLocal m) (m_handles m)
              (Some (m_count m, outstanding (m_accounts m))) None (m_log m))
  end.
Definition m_finishResume (m : mobile) : mobile :=
  match m_finishing m, m_finished m with
  | Some (n, o), None =>
      guard! drained n (m_accounts m) else m;
      Mobile (m_open m) (m_locals m) (m_structural m) (m_accounts m) (m_withLocal m) (m_handles m) (m_finishing m)
        (Some (if truthyReason (m_structural m) then inr (m_structural m)
               else if o then inr (unawaited (m_count m))
               else if truthyReason (failure (m_accounts m)) then inr (failure (m_accounts m))
               else inl tt)) (m_log m)
  | _, _ => m
  end.
Definition m_settle (c : nat) (how : settlement) (m : mobile) : mobile :=
  match settles c how (m_accounts m) with
  | None => m
  | Some how =>
      let m := m_note (Settled c how) (m_set_accounts (settled c how (m_accounts m)) m) in
      if bool_decide (c ∈ m_withLocal m) then m_set_locals (pred (m_locals m)) (filter (λ d, d ≠ c) (m_withLocal m)) m else m
  end.
Definition m_with_handle (h : nat) (f : local → local) (m : mobile) : mobile :=
  m_set_handles (alter f h (m_handles m)) m.
(** A handle is opened without [localAdmit]. *)
Definition m_localCall (h : nat) (m : mobile) : mobile :=
  match m_handles m !! h with
  | None => m
  | Some l =>
      if l_open l then
        m_with_handle h (λ l, Local (l_open l) (track None (l_commands l)) (l_phase l)) m
      else if m_open m then m_refuse (Error CAPABILITY) (m_poison CAPABILITY m) else m_refuse (Error closedMessage) m
  end.

Section run.
Variable port : bool.
#[export] Instance mobileHost : SubmissionHost mobile := {
  admitHost := m_admit;
  trackHost := m_queue;
  runningHost m := m_set_locals (S (m_locals m)) (m_withLocal m) m;
  commandCount := m_count;
  mutationPort := port;
  refuseHost := m_refuse }.

(** Node's events, without contexts and savepoints. *)
Inductive m_event :=
| MCall (m : method)
| MSubmit (name : string) (version input : value)
| MSettle (c : nat) (how : settlement)
| MCancel
| MFinish
| MFinishResume
| MLocalStart
| MLocalCall (h : nat)
| MLocalSettle (h c : nat) (how : settlement)
| MLocalReturned (h : nat) (how : settlement)
| MLocalResume (h : nat).
Definition m_step (m : mobile) (e : m_event) : mobile :=
  match e with
  | MCall x => m_call (commandOf x) m
  | MSubmit name version input => submitMutation (H := mobileHost) name version input m
  | MSettle c how => m_settle c how m
  | MCancel => m_cancel m
  | MFinish => m_finish m
  | MFinishResume => m_finishResume m
  | MLocalStart => m_set_handles (m_handles m ++ [newLocal]) m
  | MLocalCall h => m_localCall h m
  | MLocalSettle h c how =>
      m_with_handle h (λ l, match settles c how (l_commands l) with
                            | Some how => Local (l_open l) (settled c how (l_commands l)) (l_phase l)
                            | None => l
                            end) m
  | MLocalReturned h how => m_with_handle h (localReturned how) m
  | MLocalResume h => m_with_handle h localResume m
  end.
Definition m_run (events : list m_event) : mobile := foldl m_step newMobile events.
End run.

(** ** [runCallback]: one callback at a time in the whole process

    [scopedCallbacks] and the transactions whose [#activeCallback] is set. *)
Definition enterCallback (tx : nat) (scoped : list nat) : result (list nat) :=
  match scoped with
  | [] => Ok [tx]
  | _ => raise "overlapping transaction callbacks require async context support"
  end.
Definition leaveCallback (tx : nat) (scoped : list nat) : list nat := filter (λ t, t ≠ tx) scoped.
Definition inCallback (tx : nat) (scoped : list nat) : bool := bool_decide (tx ∈ scoped).

(** ** The Node handle simulates it *)
Definition embed (m : mobile) : transaction :=
  Transaction (m_open m) (m_locals m) (m_accounts m) (m_structural m) None [] [] (m_withLocal m) (m_handles m)
    (m_finishing m) (m_finished m) (m_log m).
Definition nodeEvent (e : m_event) : event :=
  match e with
  | MCall m => Call outer m
  | MSubmit name version input => SubmitMutation outer name version input
  | MSettle c how => Settle c how
  | MCancel => Cancel
  | MFinish => Finish
  | MFinishResume => FinishResume
  | MLocalStart => LocalStart
  | MLocalCall h => LocalCall outer h
  | MLocalSettle h c how => LocalSettle h c how
  | MLocalReturned h how => LocalReturned h how
  | MLocalResume h => LocalResume h
  end.
Lemma embed_admit o m : admitIn outer o (embed m) = prod_map id embed (m_admit m).
Proof.
  unfold admitIn, m_admit, callbackRefusal. cbn. destruct (m_open m), (Nat.eqb (m_locals m) 0); done.
Qed.
Lemma embed_queue threw command l m : queue threw command l (embed m) = embed (m_queue threw command l m).
Proof. by destruct threw, l. Qed.
Lemma embed_step port m e : step port (embed m) (nodeEvent e) = embed (m_step port m e).
Proof.
  destruct e as [x|name version input|c how| | | | |h|h c how|h how|h]; cbn; try done.
  - unfold call, admit_, m_call. rewrite embed_admit. destruct (m_admit m) as [[e|] m1]; cbn; [done|reflexivity].
  - unfold submitMutation. destruct (mutationCommand _ _ _) as [[command l]|e]; [|done].
    cbn [admitHost nodeHost mobileHost]. unfold admit_. rewrite embed_admit. destruct (m_admit m) as [[e|] m1]; cbn; [done|].
    by destruct l, port.
  - unfold settleCommand, m_settle. cbn. destruct (settles _ _ _); [|done]. by case_if.
  - unfold finish, m_finish. cbn. destruct (m_finishing m); [done|]. cbn. by rewrite orb_false_r.
  - unfold finishResume, m_finishResume. cbn. destruct (m_finishing m) as [[]|], (m_finished m); try done. by case_if.
  - unfold localCall, m_localCall, expiredRefusal. cbn. destruct (m_handles m !! h) as [l|]; [|done].
    destruct (l_open l), (m_open m); done.
Qed.
(** C31: React Native's transaction is the Node transaction seen from a single async
    context: on the same calls, settlements and callbacks, whatever their order, it
    sends the same commands, refuses the same ones, keeps the same accounts and
    answers [finish] the same. *)
Theorem mobile_simulated port events : run port (nodeEvent <$> events) = embed (m_run port events).
Proof.
  unfold run, m_run. change newTransaction with (embed newMobile). generalize newMobile.
  induction events as [|e events IH]; intros m; cbn; [done|]. by rewrite embed_step, IH.
Qed.
