(* ===== verification/Executor.v ===== *)
(** The client's effect executor: [frontend/client-js/bindings/connection.mts].

    The runtime asks for platform work as effects; the executor keeps how to abort
    each running one and lets at most one final answer out.  Each run of an effect
    has a number, the closure the platform calls back: it knows its effect only by
    the identifier, so a late answer is recognised by the running table alone. *)
From S2P Require Import Prelude Text Json.
Open Scope Z_scope.
Open Scope axton_scope.

(** ** Thrown values as a handler sees them *)
Inductive thrown :=
| ErrorThrown (name message : string) (props : list (string * value)) (retry : bool)  (* [instanceof PrerequisiteRetry] *)
| ValueThrown (v : value)
| Unprintable (props : list (string * value)).      (* an object [String] throws for *)
Definition reason (t : thrown) : string :=
  match t with
  | ErrorThrown name "" _ _ => name
  | ErrorThrown _ message _ _ => message
  | ValueThrown v => toText v
  | Unprintable _ => "failed"
  end.
(** [(error ?? {}).key] *)
Definition property (t : thrown) (key : string) : value :=
  match t with
  | ErrorThrown _ _ props _ | Unprintable props => default VUndef (fieldOf key props)
  | ValueThrown v => get v key
  end.
Definition isRetry (t : thrown) : bool := match t with ErrorThrown _ _ _ retry => retry | _ => false end.

(** ** Outcomes *)
Definition okOutcome : value := VObj [("ok", VBool true)].
Definition okValue (v : value) : value := VObj [("ok", VBool true); ("value", v)].
Definition failedOutcome (error : list (string * value)) : value := VObj [("ok", VBool false); ("error", VObj error)].
Definition failure (t : thrown) : value :=
  failedOutcome ([("message", VStr (reason t))]
    ++ match property t "status" with VNum n => [("status", VNum n)] | _ => [] end
    ++ match property t "refusal" with VStr s => [("refusal", VStr s)] | _ => [] end).
Definition prerequisiteFailure (t : thrown) : value :=
  failedOutcome (("message", VStr (reason t)) :: if isRetry t then [("retry", VBool true)] else []).

(** ** [directTimeout] *)
Definition MAX_DELAY : Z := 2147483647.
Definition directTimeout (directTimeoutMs : value) : result Z :=
  match coalesce directTimeoutMs (VNum (NInt 30000)) with
  | VNum (NInt z) =>
      if isSafeInteger (VNum (NInt z)) && (0 <? z) && (z <=? MAX_DELAY) then Ok z
      else raise "directTimeoutMs must be an integer from 1 to 2147483647"
  | _ => raise "directTimeoutMs must be an integer from 1 to 2147483647"
  end.

(** ** Reports *)
Record report_details := ReportDetails {
  r_kind : string; r_model : string; r_identity : value; r_code : option string; r_ordinal : option Z }.
Inductive diagnostic :=
| Records (reports : list report_details)
| ErrorReport (message : string) (status : option value)
| Protocol (message : string)
| RefusedReport (message : string) (status : Z) (body : value).
(** The message of an [AxtonReport] *)
Definition reportText (r : report_details) : result string :=
  identity ← stringify (r_identity r);
  Ok (r_kind r +:+ ": " +:+ r_model r +:+ " " +:+ default "undefined" identity
      +:+ match r_code r with Some "" | None => "" | Some code => " (" +:+ code +:+ ")" end
      +:+ match r_ordinal r with None => "" | Some n => " (mutation " +:+ pretty n +:+ ")" end).
Inductive connection_error :=
| AxtonReport (text : string) (details : report_details)
| AdmissionRefused (message : string) (status : Z) (body : value)
| LaneError (message : string) (status : option value).
Definition errorsOf (d : diagnostic) : result (list connection_error) :=
  match d with
  | Records reports => mapM (λ r, text ← reportText r; Ok (AxtonReport text r)) reports
  | RefusedReport message status body => Ok [AdmissionRefused message status body]
  | ErrorReport message status => Ok [LaneError message status]
  | Protocol message => Ok [LaneError message None]
  end.

(** ** The executor *)
Inductive kind := Timer | Http | SocketKind | RefreshAuth | Prerequisite.
#[export] Instance kind_eq_dec : EqDecision kind.
Proof. solve_decision. Defined.
(** A running effect: the run that started it, its owner and whether [run] said
    how to abort it. *)
Record running_effect := RunningEffect { r_run : nat; r_owner : nat; abortable : bool }.
Inductive output :=
| Ran (n : nat) (effectId : string) (k : kind) (delay : Z)     (* platform work starts *)
| Outcome (effectId : string) (outcome : value) (final : bool) (* [effectResult] *)
| Aborted (n : nat)
| AbortThrew (n : nat)
| Ended                                                        (* [ended()] *)
| Heard (e : connection_error)                                 (* [onError] *)
| ReportedThrown (t : thrown).
Record executor := Executor {
  running : list (string * running_effect);
  handlers : list (kind * nat);                (* the owner of the kind's handler *)
  listening : list nat;                        (* connections whose [report] listener is on *)
  runs : list (string * kind);                 (* of every run, its effect and its kind *)
  outputs : list output }.
(** The executor owns the timers: it is owner 0. *)
Definition newExecutor : executor := Executor [] [(Timer, 0%nat)] [] [] [].
Definition emit (o : output) (x : executor) : executor :=
  Executor (running x) (handlers x) (listening x) (runs x) (outputs x ++ [o]).
Definition set_running r (x : executor) : executor := Executor r (handlers x) (listening x) (runs x) (outputs x).

(** [answer] *)
Definition answer (effectId : string) (outcome : value) (final : bool) (x : executor) : executor :=
  match fieldOf effectId (running x) with
  | None => x
  | Some _ => emit (Outcome effectId outcome final) (if final then set_running (removeKey effectId (running x)) x else x)
  end.
(** [#cancel]; [throws n] is whether aborting run [n] throws. *)
Definition cancel (throws : nat → bool) (effectId : string) (x : executor) : executor :=
  match fieldOf effectId (running x) with
  | None => x
  | Some r =>
      let x := set_running (removeKey effectId (running x)) x in
      if abortable r then
        let x := emit (Aborted (r_run r)) x in
        if throws (r_run r) then emit (AbortThrew (r_run r)) x else x
      else x
  end.
(** [abort(owner)]: over a copy of the running effects *)
Definition abort (throws : nat → bool) (owner : nat) (x : executor) : executor :=
  foldl (λ x p, if Nat.eqb (r_owner p.2) owner then cancel throws p.1 x else x) x (running x).

(** What [run] does before it returns: answers given synchronously, then an abort
    function, nothing or a throw. *)
Record started := Started { sync : list (value * bool); ends : option thrown }.
(** Whether the kind's [run] says how to abort it *)
Definition saysAbort (k : kind) : bool := match k with RefreshAuth => false | _ => true end.
Definition answerAll (effectId : string) (l : list (value * bool)) (x : executor) : executor :=
  foldl (λ x a, answer effectId a.1 a.2 x) x l.
Definition setAbort (n : nat) (r : running_effect) : running_effect :=
  if Nat.eqb (r_run r) n then RunningEffect (r_run r) (r_owner r) true else r.
(** [entry.abort = abort]: the entry, wherever it still is *)
Definition giveAbort (n : nat) (x : executor) : executor := set_running (prod_map id (setAbort n) <$> running x) x.
Definition handlerOf (k : kind) (x : executor) : option nat := snd <$> find (λ p, bool_decide (p.1 = k)) (handlers x).
Definition delayOf (millis : Z) : Z := Z.min millis MAX_DELAY.
Definition handle (k : kind) (effectId : string) (millis : Z) (s : started) (x : executor) : executor :=
  match handlerOf k x with
  | None => x                                                  (* the bridge refuses it itself *)
  | Some owner =>
      let n := length (runs x) in
      let x := Executor (setField effectId (RunningEffect n owner false) (running x)) (handlers x) (listening x)
                 (runs x ++ [(effectId, k)]) (outputs x ++ [Ran n effectId k (delayOf millis)]) in
      let x := answerAll effectId (sync s) x in
      match ends s with
      | Some t => answer effectId (failure t) true x
      | None => if saysAbort k then giveAbort n x else x
      end
  end.

(** What the platform answers for a run: [frame]s are not final. *)
Inductive platform :=
| Fired                                       (* a timer *)
| Settled_ (how : string + thrown)            (* an HTTP response, [refreshAuth], a handler *)
| Frame (body : string)
| Overflow
| SocketClosed (t : thrown).
Definition outcomeOf (k : kind) (p : platform) : option (value * bool) :=
  match k, p with
  | Timer, Fired => Some (okOutcome, true)
  | Http, Settled_ (inl text) => Some (okValue (VStr text), true)
  | (Http | RefreshAuth), Settled_ (inr t) => Some (failure t, true)
  | (RefreshAuth | Prerequisite), Settled_ (inl _) => Some (okOutcome, true)
  | Prerequisite, Settled_ (inr t) => Some (prerequisiteFailure t, true)
  | SocketKind, Frame body => Some (okValue (VObj [("event", VStr "message"); ("body", VStr body)]), false)
  | SocketKind, Overflow => Some (okValue (VObj [("event", VStr "overflow")]), false)
  | SocketKind, SocketClosed t => Some (failure t, true)
  | _, _ => None
  end.
Definition platformAnswers (n : nat) (p : platform) (x : executor) : executor :=
  match runs x !! n with
  | Some (effectId, k) =>
      match outcomeOf k p with Some (o, final) => answer effectId o final x | None => x end
  | None => x
  end.
(** [prerequisites]: what the handler settled with, or there is none *)
Definition prerequisiteRun (handlers : list string) (name : string) (how : string + thrown) : string + thrown :=
  if bool_decide (name ∈ handlers) then how else inr (ErrorThrown "Error" "missing prerequisite handler" [] false).

(** ** [startConnection] and [prerequisites] *)
Definition kinds_of (refreshAuth : bool) : list kind := [Http; SocketKind] ++ (if refreshAuth then [RefreshAuth] else []).
Definition setHandler (owner : nat) (l : list (kind * nat)) (k : kind) : list (kind * nat) :=
  filter (λ p, p.1 ≠ k) l ++ [(k, owner)].
Definition install (owner : nat) (kinds : list kind) (x : executor) : executor :=
  Executor (running x) (foldl (setHandler owner) (handlers x) kinds) (listening x) (runs x) (outputs x).
Definition uninstall (throws : nat → bool) (owner : nat) (x : executor) : executor :=
  abort throws owner
    (Executor (running x) (filter (λ p, p.2 ≠ owner) (handlers x)) (filter (λ o, o ≠ owner) (listening x)) (runs x) (outputs x)).
Definition startConnection (owner : nat) (refreshAuth : bool) (x : executor) : executor :=
  let x := install owner (kinds_of refreshAuth) x in
  Executor (running x) (handlers x) (listening x ++ [owner]) (runs x) (outputs x).
(** The [report] listener.  [halts] is whether [ended] uninstalls the connection, which
    it does once the connection is established; [hears] is [onError]: what it throws
    for the n-th error, when there is a hook at all. *)
Definition hear (hears : option (nat → option thrown)) (errors : list connection_error) (x : executor) : executor :=
  match hears with
  | None => x
  | Some h => foldl (λ x p, let x := emit (Heard p.2) x in
                            match h p.1 with Some t => emit (ReportedThrown t) x | None => x end)
                x (zip (seq 0 (length errors)) errors)
  end.
Definition report (throws : nat → bool) (owner : nat) (d : diagnostic) (halts : bool)
    (hears : option (nat → option thrown)) (x : executor) : executor :=
  if bool_decide (owner ∈ listening x) then
    let x := match d with
             | RefusedReport _ _ _ => let x := emit Ended x in if halts then uninstall throws owner x else x
             | _ => x
             end in
    match hears, errorsOf d with
    | Some _, Ok errors => hear hears errors x
    | _, _ => x
    end
  else x.

(** ** Runs *)
Section run.
Variable throws : nat → bool.
Inductive event :=
| Ask (k : kind) (effectId : string) (millis : Z) (s : started)
| Platform (n : nat) (p : platform)
| CancelEffect (effectId : string)
| Connect (owner : nat) (refreshAuth : bool)
| Prerequisites (owner : nat)
| Uninstall (owner : nat)
| Report (owner : nat) (d : diagnostic) (halts : bool) (hears : option (nat → option thrown)).
Definition step (x : executor) (e : event) : executor :=
  match e with
  | Ask k effectId millis s => handle k effectId millis s x
  | Platform n p => platformAnswers n p x
  | CancelEffect effectId => cancel throws effectId x
  | Connect owner refreshAuth => startConnection owner refreshAuth x
  | Prerequisites owner => install owner [Prerequisite] x
  | Uninstall owner => uninstall throws owner x
  | Report owner d halts hears => report throws owner d halts hears x
  end.
Definition run (events : list event) : executor := foldl step newExecutor events.
End run.
