(* ===== verification/ExecutorFacts.v ===== *)
(** Every effect the executor runs is answered for the last time once at most, or
    aborted once at most, and is silent afterwards; nothing a connection started
    survives its uninstall. *)
From S2P Require Import Prelude Executor.
Open Scope nat_scope.
Open Scope axton_scope.

(** ** What ends an effect *)
Definition ends_at (o : output) (effectId : string) (n : nat) : Prop :=
  match o with
  | Outcome e _ true => e = effectId
  | Aborted m => m = n
  | _ => False
  end.
Definition concerns (o : output) (effectId : string) (n : nat) : Prop :=
  match o with
  | Outcome e _ _ => e = effectId
  | Aborted m => m = n
  | _ => False
  end.
Definition over (l : list output) (effectId : string) (n : nat) : Prop := ∃ o, o ∈ l ∧ ends_at o effectId n.
(** Once a run is over, nothing more concerns it. *)
Definition quiet (l : list output) (effectId : string) (n : nat) : Prop :=
  ∀ i j o o', i < j → l !! i = Some o → l !! j = Some o' → ends_at o effectId n → ¬ concerns o' effectId n.

Lemma quiet_snoc l o effectId n :
  quiet l effectId n → (over l effectId n → ¬ concerns o effectId n) → quiet (l ++ [o]) effectId n.
Proof.
  intros Hq Ho i j a b Hij Ha Hb Hends. apply lookup_app_Some in Hb as [Hb|[Hlen Hb]].
  - rewrite lookup_app_l in Ha by (apply lookup_lt_Some in Hb; lia). eapply Hq; eauto.
  - apply list_lookup_singleton_Some in Hb as [Hb <-]. rewrite lookup_app_l in Ha by lia.
    apply Ho. exists a. split; [by eapply list_elem_of_lookup_2|done].
Qed.
Lemma over_snoc l o effectId n : over (l ++ [o]) effectId n ↔ over l effectId n ∨ ends_at o effectId n.
Proof.
  unfold over. split.
  - intros (a & [Ha|Ha%list_elem_of_singleton]%elem_of_app & He); [left; eauto|right; by subst].
  - intros [(a & Ha & He)|He]; [exists a|exists o]; split; set_solver.
Qed.

(** ** The invariant *)
Record Inv (x : executor) : Prop := {
  i_runs : NoDup (runs x).*1;
  i_keys : NoDup (running x).*1;
  i_running : ∀ effectId r, (effectId, r) ∈ running x →
    ∃ k, runs x !! r_run r = Some (effectId, k) ∧ ¬ over (outputs x) effectId (r_run r);
  i_bounded : ∀ n o, o ∈ outputs x → (o = Aborted n → n < length (runs x)) ∧
    ∀ effectId v f, o = Outcome effectId v f → effectId ∈ (runs x).*1;
  i_quiet : ∀ n effectId k, runs x !! n = Some (effectId, k) → quiet (outputs x) effectId n }.
(** A run that says how to abort it is running with that abort, or over. *)
Definition held (x : executor) (n : nat) : Prop :=
  ∀ effectId k, runs x !! n = Some (effectId, k) → saysAbort k = true →
    (∃ r, (effectId, r) ∈ running x ∧ r_run r = n ∧ abortable r = true) ∨ over (outputs x) effectId n.

Lemma runs_inj x n m effectId k k' :
  NoDup (runs x).*1 → runs x !! n = Some (effectId, k) → runs x !! m = Some (effectId, k') → n = m.
Proof.
  intros Hn H1 H2. eapply (NoDup_lookup _ n m effectId Hn); by rewrite list_lookup_fmap, ?H1, ?H2.
Qed.

Lemma effects_new : Inv newExecutor.
Proof.
  split; cbn; try (by constructor); [set_solver|set_solver|]. intros n effectId k Hn. by rewrite lookup_nil in Hn.
Qed.
(** Handlers and listeners are not looked at. *)
Lemma effects_same x x' :
  running x' = running x → runs x' = runs x → outputs x' = outputs x → Inv x → Inv x'.
Proof. intros H1 H2 H3 []. split; rewrite ?H1, ?H2, ?H3; done. Qed.
Lemma held_same x x' n :
  running x' = running x → runs x' = runs x → outputs x' = outputs x → held x n → held x' n.
Proof. unfold held. by intros -> -> ->. Qed.

(** An output that concerns no run. *)
Definition neutral (o : output) : Prop := match o with Outcome _ _ _ | Aborted _ => False | _ => True end.
Lemma inv_neutral o x : neutral o → Inv x → Inv (emit o x).
Proof.
  intros Ho []. assert (∀ effectId n, ¬ concerns o effectId n ∧ ¬ ends_at o effectId n) as Hn.
  { intros e n. destruct o; cbn in *; tauto. }
  split; cbn; try done.
  - intros effectId r Hr. destruct (i_running0 effectId r Hr) as (k & Hk & Hov). exists k. split; [done|].
    rewrite over_snoc. specialize (Hn effectId (r_run r)). tauto.
  - intros n p [Hp| ->%list_elem_of_singleton]%elem_of_app; [by apply i_bounded0|].
    split; [intros ->|intros e v f ->]; destruct Ho.
  - intros n effectId k Hk. apply quiet_snoc; [eauto|]. intros _. apply Hn.
Qed.
Lemma held_neutral o x n : held x n → held (emit o x) n.
Proof.
  intros Hh effectId k Hk Hs. destruct (Hh effectId k Hk Hs) as [?|?]; [by left|right]. cbn. rewrite over_snoc. by left.
Qed.

(** An output of a running effect, which stops running when the output ends it. *)
Lemma inv_speak o effectId r b x :
  Inv x → fieldOf effectId (running x) = Some r → concerns o effectId (r_run r) →
  (ends_at o effectId (r_run r) → b = true) →
  Inv (emit o (if b then set_running (removeKey effectId (running x)) x else x)).
Proof.
  intros Hi Hf Hc He. pose proof (fieldOf_elem_of _ _ _ Hf) as Hin.
  destruct (i_running x Hi effectId r Hin) as (k & Hk & Hov).
  assert (∀ e q, (e, q) ∈ (if b then removeKey effectId (running x) else running x) →
            (e, q) ∈ running x ∧ (b = true → e ≠ effectId)) as Hsub.
  { intros e q. destruct b; [rewrite removeKey_elem; naive_solver|done]. }
  assert (∀ n e k', runs x !! n = Some (e, k') → concerns o e n → e = effectId ∧ n = r_run r) as Hwho.
  { intros n e k' Hn Hcon. destruct o; cbn in Hc, Hcon; try done; subst.
    - split; [done|]. by eapply runs_inj; [apply Hi| |].
    - split; [|done]. congruence. }
  assert (∀ n e, ends_at o e n → concerns o e n) as Hec by (intros n e; by destruct o as [|? ? []| | | | |]).
  destruct b eqn:Hb; (split; cbn; [apply Hi| | | |]).
  1,5: first [apply filter_keys_NoDup, Hi | apply Hi].
  1,4: intros e q Hq; destruct (Hsub e q Hq) as [Hq' Hne]; destruct (i_running x Hi e q Hq') as (k' & Hk' & Hov');
       exists k'; (split; [done|]); rewrite over_snoc; intros [?|Hend]; [done|];
       destruct (Hwho _ _ _ Hk' (Hec _ _ Hend)) as [-> Hr];
       first [by apply Hne | rewrite Hr in Hend; by apply He in Hend].
  1,3: intros n p [Hp| ->%list_elem_of_singleton]%elem_of_app; [by apply Hi|];
       split; [intros ->; cbn in Hc; subst; by eapply lookup_lt_Some|];
       intros e v f ->; cbn in Hc; subst; apply list_elem_of_fmap; exists (effectId, k); (split; [done|]);
       by eapply list_elem_of_lookup_2.
  all: intros n e k' Hk'; apply quiet_snoc; [by eapply i_quiet|]; intros Hover Hcon;
       destruct (Hwho _ _ _ Hk' Hcon) as [-> ->]; done.
Qed.

(** ** Answers and cancellations *)
Definition Good (x : executor) : Prop := Inv x ∧ ∀ n, held x n.
Lemma inv_answer effectId v f x : Inv x → Inv (answer effectId v f x).
Proof.
  intros Hi. unfold answer. destruct (fieldOf effectId (running x)) as [r|] eqn:Hf; [|done].
  apply (inv_speak _ effectId r f); [done..|]. by destruct f.
Qed.
Lemma inv_removed effectId x : Inv x → Inv (set_running (removeKey effectId (running x)) x).
Proof.
  intros []. split; cbn; try done; [by apply filter_keys_NoDup|].
  intros e r [_ Hr]%removeKey_elem. by apply i_running0.
Qed.
Lemma effects_cancel throws effectId x : Inv x → Inv (cancel throws effectId x).
Proof.
  intros Hi. unfold cancel. destruct (fieldOf effectId (running x)) as [r|] eqn:Hf; [|done].
  destruct (abortable r); [|by apply inv_removed].
  assert (Inv (emit (Aborted (r_run r)) (set_running (removeKey effectId (running x)) x))).
  { by apply (inv_speak _ effectId r true). }
  case_if; [by apply inv_neutral|done].
Qed.
(** Removing an entry leaves a run held if the entry was not its abort, or it is over. *)
Lemma held_removed effectId r l x n :
  Inv x → fieldOf effectId (running x) = Some r → (abortable r = true → r_run r = n → l ≠ [] ∧ ∀ o, last l = Some o → ends_at o effectId n) →
  held x n → held (foldl (λ x o, emit o x) (set_running (removeKey effectId (running x)) x) l) n.
Proof.
  intros Hi Hf Hend Hh e k.
  assert (∀ y, runs (foldl (λ x o, emit o x) y l) = runs y ∧ running (foldl (λ x o, emit o x) y l) = running y ∧
            outputs (foldl (λ x o, emit o x) y l) = outputs y ++ l) as Hl.
  { clear. induction l as [|o l IH]; intros y; cbn; [by rewrite app_nil_r|]. destruct (IH (emit o y)) as (-> & -> & ->).
    cbn. by rewrite <- app_assoc. }
  destruct (Hl (set_running (removeKey effectId (running x)) x)) as (-> & -> & ->). cbn. intros Hk Hs.
  destruct (Hh e k Hk Hs) as [(q & Hq & Hn & Ha)|(o & Ho & He)]; [|right; exists o; split; [set_solver|done]].
  destruct (decide (e = effectId)) as [->|Hne].
  - rewrite (fieldOf_NoDup _ _ _ (i_keys x Hi) Hq) in Hf. simplify_eq. destruct (Hend Ha eq_refl) as [Hnil Hlast].
    right. destruct (last l) as [o|] eqn:E; [|by apply last_None in E]. exists o. split; [|by apply Hlast].
    apply last_Some in E as (l' & ->). set_solver.
  - left. exists q. rewrite removeKey_elem. done.
Qed.
Lemma held_answer effectId v f x n : Inv x → held x n → held (answer effectId v f x) n.
Proof.
  intros Hi Hh. unfold answer. destruct (fieldOf effectId (running x)) as [r|] eqn:Hf; [|done].
  destruct f; [|].
  - apply (held_removed effectId r [Outcome effectId v true]); [done..| |done].
    intros _ _. split; [done|]. by intros o [= <-].
  - intros e k Hk Hs. destruct (Hh e k Hk Hs) as [?|?]; [by left|right]. cbn. rewrite over_snoc. by left.
Qed.
Lemma held_cancel throws effectId x n : Inv x → held x n → held (cancel throws effectId x) n.
Proof.
  intros Hi Hh. unfold cancel. destruct (fieldOf effectId (running x)) as [r|] eqn:Hf; [|done].
  destruct (abortable r) eqn:Ha.
  - assert (held (emit (Aborted (r_run r)) (set_running (removeKey effectId (running x)) x)) n).
    { apply (held_removed effectId r [Aborted (r_run r)]); [done..| |done].
      intros _ ->. split; [done|]. by intros o [= <-]. }
    case_if; [by apply held_neutral|done].
  - apply (held_removed effectId r []); [done..| |done]. intros; congruence.
Qed.
Lemma good_answer effectId v f x : Good x → Good (answer effectId v f x).
Proof. intros [Hi Hh]. split; [by apply inv_answer|]. intros n. by apply held_answer. Qed.
Lemma good_cancel throws effectId x : Good x → Good (cancel throws effectId x).
Proof. intros [Hi Hh]. split; [by apply effects_cancel|]. intros n. by apply held_cancel. Qed.
Lemma good_neutral o x : neutral o → Good x → Good (emit o x).
Proof. intros Ho [Hi Hh]. split; [by apply inv_neutral|]. intros n. by apply held_neutral. Qed.
Lemma good_same x x' : running x' = running x → runs x' = runs x → outputs x' = outputs x → Good x → Good x'.
Proof. intros ? ? ? [Hi Hh]. split; [by eapply effects_same|]. intros n. by eapply held_same. Qed.
Lemma good_foldl {A} (f : executor → A → executor) l x :
  (∀ y a, Good y → Good (f y a)) → Good x → Good (foldl f x l).
Proof. intros Hf. revert x. induction l as [|a l IH]; intros x Hx; cbn; [done|]. apply IH, Hf, Hx. Qed.
Lemma good_uninstall throws owner x : Good x → Good (uninstall throws owner x).
Proof.
  intros Hx. unfold uninstall, abort. apply good_foldl; [|by eapply good_same; [..|exact Hx]].
  intros y p Hy. case_if; [by apply good_cancel|done].
Qed.
Lemma good_report throws owner d halts hears x : Good x → Good (report throws owner d halts hears x).
Proof.
  intros Hx. unfold report. case_if; [|done].
  assert (Good (match d with
    | RefusedReport _ _ _ => if halts then uninstall throws owner (emit Ended x) else emit Ended x | _ => x end)) as Hy.
  { destruct d; try done. destruct halts; [apply good_uninstall|]; by apply good_neutral. }
  destruct hears as [h|]; [|done]. destruct (errorsOf d) as [errors|]; [|done]. unfold hear. apply good_foldl; [|exact Hy].
  intros y [i e] Hgy. cbn. destruct (h i); repeat apply good_neutral; done.
Qed.

(** ** A new run *)
Lemma inv_giveAbort n x : Inv x → Inv (giveAbort n x).
Proof.
  intros []. assert (∀ r, r_run (setAbort n r) = r_run r) as Hr by (intros []; unfold setAbort; cbn; by case_if).
  split; cbn; try done.
  - rewrite <- list_fmap_compose. by erewrite list_fmap_ext; [|by intros ? []].
  - intros e r ([e' r'] & Heq & Hin)%list_elem_of_fmap. cbn in Heq. simplify_eq. rewrite Hr. by apply i_running0.
Qed.
Lemma held_giveAbort n m x : held x m → held (giveAbort n x) m.
Proof.
  intros Hh e k Hk Hs. destruct (Hh e k Hk Hs) as [(r & Hr & Hm & Ha)|?]; [left|by right].
  exists (setAbort n r). split.
  - apply list_elem_of_fmap. by exists (e, r).
  - unfold setAbort. by case_if.
Qed.
(** The run [n] of [effectId], which does not say yet how to abort it, is running or over. *)
Definition pendingRun (effectId : string) (n : nat) (x : executor) : Prop :=
  (∃ r, (effectId, r) ∈ running x ∧ r_run r = n) ∨ over (outputs x) effectId n.
Lemma pending_answer effectId n v f x : Inv x → pendingRun effectId n x → pendingRun effectId n (answer effectId v f x).
Proof.
  intros Hi Hp. unfold answer. destruct (fieldOf effectId (running x)) as [r|] eqn:Hf; [|done].
  destruct f.
  - right. cbn. rewrite over_snoc. by right.
  - destruct Hp as [?|?]; [by left|right]. cbn. rewrite over_snoc. by left.
Qed.
Lemma answer_runs effectId v f x : runs (answer effectId v f x) = runs x.
Proof. unfold answer. destruct (fieldOf effectId (running x)); [by destruct f|done]. Qed.
Lemma answerAll_runs effectId l x : runs (answerAll effectId l x) = runs x.
Proof.
  unfold answerAll. revert x. induction l as [|a l IH]; intros x; cbn; [done|]. by rewrite IH, answer_runs.
Qed.
Lemma started_answers effectId n l x :
  Inv x → (∀ m, m ≠ n → held x m) → pendingRun effectId n x →
  let y := answerAll effectId l x in Inv y ∧ (∀ m, m ≠ n → held y m) ∧ pendingRun effectId n y.
Proof.
  revert x. induction l as [|a l IH]; intros x Hi Hh Hp; cbn; [done|].
  apply IH; [by apply inv_answer|intros m Hm; by apply held_answer, Hh|by apply pending_answer].
Qed.
Lemma inv_start effectId k owner d x :
  effectId ∉ (runs x).*1 → Inv x →
  Inv (Executor (setField effectId (RunningEffect (length (runs x)) owner false) (running x)) (handlers x) (listening x)
         (runs x ++ [(effectId, k)]) (outputs x ++ [Ran (length (runs x)) effectId k d])).
Proof.
  intros Hfresh Hi. destruct (inv_neutral (Ran (length (runs x)) effectId k d) x I Hi) as [_ _ Hrun Hb Hq]. cbn in *.
  assert (effectId ∉ (running x).*1) as Hfr.
  { intros ([e r] & -> & Hin)%list_elem_of_fmap. destruct (i_running x Hi e r Hin) as (k' & Hk & _). apply Hfresh.
    apply list_elem_of_fmap. exists (e, k'). split; [done|]. by eapply list_elem_of_lookup_2. }
  assert (¬ over (outputs x ++ [Ran (length (runs x)) effectId k d]) effectId (length (runs x))) as Hno.
  { intros (o & Ho & He). destruct (Hb 0 o Ho) as [_ Hout]. destruct o as [|e v []|m| | | |]; cbn in He; try done; subst.
    - by destruct Hfresh; eapply Hout.
    - destruct (Hb (length (runs x)) _ Ho) as [Hlt _]. specialize (Hlt eq_refl). lia. }
  split; cbn.
  - rewrite fmap_app, NoDup_app. split; [apply Hi|]. split; [|apply NoDup_singleton].
    intros e He Hx. cbn in Hx. apply list_elem_of_singleton in Hx. by subst.
  - rewrite setField_keys_new by done. apply NoDup_app. split; [apply Hi|]. split; [|apply NoDup_singleton].
    intros e He Hx. apply list_elem_of_singleton in Hx. by subst.
  - intros e r [[= -> ->]|Hin]%setField_elem.
    + exists k. split; [by rewrite lookup_app_r, Nat.sub_diag|done].
    + destruct (Hrun e r Hin) as (k' & Hk' & Hov). exists k'. split; [by apply lookup_app_l_Some|done].
  - intros n o Ho. destruct (Hb n o Ho) as [H1 H2]. split.
    + intros Ha. specialize (H1 Ha). rewrite length_app. lia.
    + intros e v f Hv. rewrite fmap_app. apply elem_of_app. left. by eapply H2.
  - intros n e k' Hn. apply lookup_app_Some in Hn as [Hn|[Hge Hn]]; [by eapply Hq|].
    apply list_lookup_singleton_Some in Hn as [Hn [= -> ->]]. assert (n = length (runs x)) as -> by lia.
    intros i j o o' Hij Ho _ He. destruct Hno. exists o. split; [by eapply list_elem_of_lookup_2|done].
Qed.
Lemma good_handle k effectId millis s x :
  effectId ∉ (runs x).*1 → Good x → Good (handle k effectId millis s x).
Proof.
  intros Hfresh [Hi Hh]. unfold handle. destruct (handlerOf k x) as [owner|]; [|done].
  set (n := length (runs x)). set (y := Executor _ _ _ _ _).
  assert (Inv y) as Hiy by by apply inv_start.
  assert (∀ m, m ≠ n → held y m) as Hhy.
  { intros m Hm e k' Hk' Hs. subst y. cbn in *. apply lookup_app_Some in Hk' as [Hk'|[Hge Hk']].
    - destruct (Hh m e k' Hk' Hs) as [(r & Hr & ? & ?)|?]; [left|right; rewrite over_snoc; by left].
      exists r. split; [|done]. apply fieldOf_elem_of. rewrite fieldOf_setField.
      destruct (String.eqb_spec effectId e) as [->|]; [|by apply fieldOf_NoDup; [apply Hi|]].
      destruct Hfresh. apply list_elem_of_fmap. exists (e, k'). split; [done|]. by eapply list_elem_of_lookup_2.
    - apply list_lookup_singleton_Some in Hk' as [? _]. subst n. lia. }
  assert (pendingRun effectId n y) as Hpy.
  { left. exists (RunningEffect n owner false). split; [|done]. subst y. cbn. apply fieldOf_elem_of. by rewrite fieldOf_setField, String.eqb_refl. }
  assert (runs y !! n = Some (effectId, k)) as Hny by (subst y n; cbn; by rewrite lookup_app_r, Nat.sub_diag).
  destruct (started_answers effectId n (sync s) y Hiy Hhy Hpy) as (Hiz & Hhz & Hpz).
  pose proof (answerAll_runs effectId (sync s) y) as Hrz. rewrite <- Hrz in Hny.
  clearbody y. set (z := answerAll effectId (sync s) y) in *. clearbody z.
  destruct (ends s) as [t|].
  - split; [by apply inv_answer|]. intros m. destruct (decide (m = n)) as [->|]; [|by apply held_answer, Hhz].
    intros e k' Hk' _. rewrite answer_runs, Hny in Hk'. injection Hk' as <- <-. right. unfold answer.
    destruct (fieldOf effectId (running z)) as [r|] eqn:Hf; [cbn; rewrite over_snoc; by right|].
    destruct Hpz as [(r & Hr & _)|]; [|done]. by rewrite (fieldOf_NoDup _ _ _ (i_keys z Hiz) Hr) in Hf.
  - destruct (saysAbort k) eqn:Hsa.
    + split; [by apply inv_giveAbort|]. intros m. destruct (decide (m = n)) as [->|]; [|by apply held_giveAbort, Hhz].
      intros e k' Hk' _. cbn in Hk'. rewrite Hny in Hk'. injection Hk' as <- <-.
      destruct Hpz as [(r & Hr & Hrn)|?]; [left|by right]. exists (setAbort n r). split.
      * apply list_elem_of_fmap. by exists (effectId, r).
      * unfold setAbort. by rewrite Hrn, Nat.eqb_refl.
    + split; [done|]. intros m. destruct (decide (m = n)) as [->|]; [|by apply Hhz].
      intros e k' Hk' Hs. rewrite Hny in Hk'. injection Hk' as <- <-. congruence.
Qed.

(** ** Runs of the executor *)
Section run.
Variable throws : nat → bool.
Definition asked (events : list event) : list string := omap (λ e, match e with Ask _ effectId _ _ => Some effectId | _ => None end) events.

Lemma cancel_runs effectId x : runs (cancel throws effectId x) = runs x.
Proof. unfold cancel. destruct (fieldOf _ _) as [r|]; [destruct (abortable r); [by case_if|done]|done]. Qed.
Lemma uninstall_runs owner x : runs (uninstall throws owner x) = runs x.
Proof.
  unfold uninstall, abort. cbn. set (y := Executor _ _ _ _ _). change (runs x) with (runs y). generalize (running x). clearbody y.
  intros l. revert y. induction l as [|p l IH]; intros y; cbn; [done|]. rewrite IH. case_if; [apply cancel_runs|done].
Qed.
Lemma hear_runs hears errors x : runs (hear hears errors x) = runs x.
Proof.
  unfold hear. destruct hears as [h|]; [|done]. generalize (zip (seq 0 (length errors)) errors). intros l. revert x.
  induction l as [|p l IH]; intros x; cbn; [done|]. rewrite IH. by destruct (h p.1).
Qed.
Lemma step_runs x e :
  (runs (step throws x e)).*1 = (runs x).*1 ∨
  ∃ effectId, asked [e] = [effectId] ∧ (runs (step throws x e)).*1 = (runs x).*1 ++ [effectId].
Proof.
  destruct e as [k effectId millis s|n p|effectId|owner refreshAuth|owner|owner|owner d halts hears]; cbn.
  - unfold handle. destruct (handlerOf k x) as [owner|]; [right|by left]. exists effectId. split; [done|].
    destruct (ends s); [rewrite answer_runs|case_if; cbn]; by rewrite answerAll_runs; cbn; rewrite fmap_app.
  - left. unfold platformAnswers. destruct (runs x !! n) as [[e k]|]; [|done].
    destruct (outcomeOf k p) as [[o f]|]; [by rewrite answer_runs|done].
  - left. by rewrite cancel_runs.
  - by left.
  - by left.
  - left. exact (f_equal (fmap fst) (uninstall_runs owner x)).
  - left. unfold report. case_if; [|done].
    assert (runs (match d with
      | RefusedReport _ _ _ => if halts then uninstall throws owner (emit Ended x) else emit Ended x | _ => x end) = runs x) as Hy.
    { destruct d; try done. destruct halts; [by rewrite uninstall_runs|done]. }
    destruct hears as [h|]; [|by rewrite Hy]. destruct (errorsOf d) as [errors|]; [|by rewrite Hy]. by rewrite hear_runs, Hy.
Qed.
Lemma good_step x e :
  (∀ effectId, asked [e] = [effectId] → effectId ∉ (runs x).*1) → Good x → Good (step throws x e).
Proof.
  intros Hf Hx. destruct e as [k effectId millis s|n p|effectId|owner refreshAuth|owner|owner|owner d halts hears]; cbn.
  - apply good_handle; [by apply Hf|done].
  - unfold platformAnswers. destruct (runs x !! n) as [[e k]|]; [|done].
    destruct (outcomeOf k p) as [[o f]|]; [by apply good_answer|done].
  - by apply good_cancel.
  - by eapply good_same; [..|exact Hx].
  - by eapply good_same; [..|exact Hx].
  - by apply good_uninstall.
  - by apply good_report.
Qed.
Lemma effects_run_snoc events e : run throws (events ++ [e]) = step throws (run throws events) e.
Proof. unfold run. by rewrite foldl_snoc. Qed.
Lemma asked_app l l' : asked (l ++ l') = asked l ++ asked l'.
Proof. apply omap_app. Qed.
Lemma run_asked events : ∀ effectId, effectId ∈ (runs (run throws events)).*1 → effectId ∈ asked events.
Proof.
  induction events as [|e events IH] using rev_ind; [by cbn|]. intros effectId. rewrite effects_run_snoc, asked_app, elem_of_app.
  destruct (step_runs (run throws events) e) as [->|(e' & -> & ->)]; [auto|].
  intros [?|?]%elem_of_app; auto.
Qed.
Lemma good_run events : NoDup (asked events) → Good (run throws events).
Proof.
  induction events as [|e events IH] using rev_ind; intros Hn.
  - split; [apply effects_new|]. intros n effectId k Hk. by destruct n.
  - rewrite effects_run_snoc. rewrite asked_app, NoDup_app in Hn. destruct Hn as (H1 & H2 & _).
    apply good_step; [|auto]. intros effectId He Hin. apply (H2 effectId); [by apply run_asked|rewrite He; by left].
Qed.
Lemma cancel_running effectId x p :
  p ∈ running (cancel throws effectId x) → p ∈ running x ∧ p.1 ≠ effectId.
Proof.
  unfold cancel. destruct (fieldOf effectId (running x)) as [r|] eqn:Hf.
  - assert (∀ y, running y = removeKey effectId (running x) → p ∈ running y → p ∈ running x ∧ p.1 ≠ effectId) as H.
    { intros y ->. rewrite removeKey_elem. tauto. }
    destruct (abortable r); [case_if|]; by apply H.
  - intros Hp. split; [done|]. intros <-. apply fieldOf_None_key in Hf. apply Hf. apply list_elem_of_fmap. eauto.
Qed.
Lemma abort_running owner x p :
  NoDup (running x).*1 → p ∈ running (abort throws owner x) → p ∈ running x ∧ r_owner p.2 ≠ owner.
Proof.
  unfold abort. intros Hn.
  assert (∀ l y, p ∈ running (foldl (λ x p, if Nat.eqb (r_owner p.2) owner then cancel throws p.1 x else x) y l) →
            p ∈ running y ∧ (p ∈ l → r_owner p.2 ≠ owner)) as H.
  { induction l as [|q l IH]; intros y; cbn; [set_solver|]. intros [Hp Hl]%IH. rewrite elem_of_cons. case_if.
    - apply cancel_running in Hp as [Hp Hne]. split; [done|]. intros [->|]; [done|auto].
    - split; [done|]. intros [->|]; [by apply Nat.eqb_neq|auto]. }
  intros [Hp Ho]%H. auto.
Qed.
End run.

(** C22: Whatever the runtime asks for - each effect under its own identifier - and
    however late, often or wrongly the platform answers, each effect that ran is
    over at most once: after its final answer or its abort, it is never answered
    and never aborted again.  An effect whose platform work can be aborted is
    running, finally answered or aborted, so none is lost; and uninstalling a
    connection leaves none of its effects running. *)
Theorem effects_over_once throws events :
  NoDup (asked events) →
  let x := run throws events in
  (∀ n effectId k, runs x !! n = Some (effectId, k) →
     quiet (outputs x) effectId n ∧
     (saysAbort k = true →
        (∃ r, fieldOf effectId (running x) = Some r ∧ r_run r = n ∧ abortable r = true) ∨ over (outputs x) effectId n)) ∧
  (∀ effectId r, fieldOf effectId (running x) = Some r → ¬ over (outputs x) effectId (r_run r)) ∧
  ∀ owner effectId r, fieldOf effectId (running (uninstall throws owner x)) = Some r → r_owner r ≠ owner.
Proof.
  intros Hn x. destruct (good_run throws events Hn) as [Hi Hh]. fold x in Hi, Hh. split; [|split].
  - intros n effectId k Hk. split; [by eapply i_quiet|]. intros Hs.
    destruct (Hh n effectId k Hk Hs) as [(r & Hr & ? & ?)|?]; [left|by right].
    exists r. split; [|done]. by apply fieldOf_NoDup; [apply Hi|].
  - intros effectId r Hr%fieldOf_elem_of. by destruct (i_running x Hi effectId r Hr) as (k & _ & ?).
  - intros owner effectId r Hr%fieldOf_elem_of. unfold uninstall in Hr.
    apply (abort_running throws owner _ (effectId, r)) in Hr; [apply Hr|]. apply Hi.
Qed.
(** An HTTP effect cancelled before its response arrives, and a socket that ends. *)
Definition cancelled_run : list event :=
  [Connect 1 false; Ask Http "h" 0 (Started [] None); Ask SocketKind "s" 0 (Started [] None);
   Platform 1 (Frame "f"); CancelEffect "h"; Platform 0 (Settled_ (inl "late"%string));
   Platform 1 (SocketClosed (ErrorThrown "Error" "closed" [] false)); Platform 1 (Frame "late")].
Lemma effects_over_once_witness :
  NoDup (asked cancelled_run) ∧ let x := run (λ _, false) cancelled_run in
  runs x !! 0 = Some ("h"%string, Http) ∧ length (outputs x) = 5 ∧ over (outputs x) "h" 0.
Proof.
  assert (NoDup (asked cancelled_run)) as Hn by (vm_compute; repeat constructor; set_solver).
  split; [exact Hn|]. cbv zeta. split; [reflexivity|]. split; [reflexivity|].
  destruct (effects_over_once (λ _, false) cancelled_run Hn) as (Hq & _ & _).
  destruct (Hq 0 "h"%string Http eq_refl) as [_ Ha]. destruct (Ha eq_refl) as [(r & Hr & _)|Hov]; [|exact Hov].
  vm_compute in Hr. discriminate.
Defined.
