(* ===== verification/ClientSockets.v ===== *)
(** The client's network: [frontend/client-js/bindings/transport.mts], the Node socket
    of [frontend/client-js/bindings/live.mts] and React Native's
    [client-react-native/bindings/live.mts].

    One [open] of a server connection is a state machine over what the token
    source, the socket, the abort signal and the executor behind [SocketEvents]
    report; a frame is handed over by calling [message] and awaiting it. *)
From S2P Require Import Prelude Text.
From Stdlib Require Import Ascii.
Open Scope Z_scope.
Open Scope axton_scope.

(** ** Headers, routes and errors of [transport.mts] *)
Definition ADMISSION_HEADER : string := "axton-admission".
Definition lowerAscii (c : ascii) : ascii := let b := byte c in if (65 <=? b) && (b <=? 90) then char (b + 32) else c.
Fixpoint lower (s : string) : string :=
  match s with EmptyString => EmptyString | String c s => String (lowerAscii c) (lower s) end.
Definition RESERVED : list string :=
  ["authorization"; "content-type"; "content-length"; "host"; "connection"; "upgrade"]%string.
(** [.] of the pattern matches no line terminator; a header name that has one is refused by the platform. *)
Definition reserved (name : string) : bool :=
  let name := lower name in bool_decide (name ∈ RESERVED) || String.prefix "sec-websocket-" name.
Fixpoint clientHeaders (headers : list (string * value)) (checked : list (string * string)) : result (list (string * string)) :=
  match headers with
  | [] => Ok checked
  | (name, v) :: headers =>
      guard! negb (reserved name) else Throw (Error ("reserved header " +:+ name));
      match v with
      | VStr text => clientHeaders headers (setField name text checked)
      | _ => Throw (Error ("header " +:+ name +:+ " must be a string"))
      end
  end.
Definition ROUTES : list (string * string) :=
  [("handshake", "handshake"); ("materialize", "materialize"); ("push", "mutations"); ("pull", "pull");
   ("action", "actions"); ("fetch", "fetch")]%string.
(** An error with its HTTP status and, for an admission refusal, the body *)
Record response_error := ResponseError { e_message : string; e_status : Z; e_refusal : option string }.
Definition responseError (what : string) (status : Z) (text : string) (refused : bool) : response_error :=
  ResponseError (what +:+ " failed: " +:+ pretty status +:+ " " +:+ text) status (if refused then Some text else None).
(** [options.url.replace(/\/$/, "")] *)
Fixpoint dropSlash (s : string) : string :=
  match s with
  | EmptyString => EmptyString
  | String c EmptyString => if Ascii.eqb c "/" then EmptyString else s
  | String c s' => String c (dropSlash s')
  end.
Record request := Request { q_url : string; q_headers : list (string * string); q_body : string }.
Record response := Response { status : Z; admission : option string; text : string }.
Inductive transport_error :=
| RouteError (message : string)
| Refused (e : response_error)
| PlatformError (e : exn).                        (* the token source's or [fetch]'s *)
Definition requestOf (base : string) (headers : list (string * string)) (route token body : string) : request :=
  Request (base +:+ "/sync/" +:+ route)
    (setField "content-type" "application/json"%string (setField "authorization" ("Bearer " +:+ token)%string headers)) body.
(** [httpTransport]: the request it makes, if any, and its answer.  [token] is what
    the token source answers, [aborted] the signal after it, [fetch] the platform. *)
Definition httpTransport (url : string) (headers : list (string * string)) (token : result string) (aborted : bool)
    (fetch : request → result response) (kind body : string) : option request * (string + transport_error) :=
  match fieldOf kind ROUTES with
  | None => (None, inr (RouteError ("unknown route " +:+ kind)))
  | Some route =>
      match token with
      | Throw e => (None, inr (PlatformError e))
      | Ok token =>
          if aborted then (None, inr (PlatformError (Error "connection_closed")))
          else
            let r := requestOf (dropSlash url) headers route token body in
            (Some r, match fetch r with
                     | Throw e => inr (PlatformError e)
                     | Ok answer =>
                         if (200 <=? status answer) && (status answer <=? 299) then inl (text answer)
                         else inr (Refused (responseError kind (status answer) (text answer)
                                              (bool_decide (admission answer = Some "refused"%string))))
                     end)
      end
  end.

(** ** [createServerConnection], the same on both platforms *)

(** The platform's [URL] *)
Class Urls (U : Type) := {
  parseUrl : string → result U;
  protocol : U → string;
  setProtocol : string → U → U;
  hrefOf : U → string }.
Definition socketProtocol (p : string) : string :=
  if bool_decide (p ∈ ["https:"; "wss:"]%string) then "wss:" else "ws:".
Definition httpProtocol (p : string) : string :=
  if bool_decide (p ∈ ["wss:"; "https:"]%string) then "https:" else "http:".
(** What its closures share: the socket's URL, the transport's base and the headers. *)
Record connection (U : Type) := Connection { live : U; http : string; shared : list (string * string) }.
Arguments Connection {U}.
Arguments live {U}.
Arguments http {U}.
Arguments shared {U}.
Definition createServerConnection `{Urls U} (url : string) (headers : list (string * value)) : result (connection U) :=
  base ← parseUrl (dropSlash url +:+ "/sync/live");
  let base := setProtocol (socketProtocol (protocol base)) base in
  plain ← parseUrl url;
  let plain := setProtocol (httpProtocol (protocol plain)) plain in
  checked ← clientHeaders headers [];
  Ok (Connection base (dropSlash (hrefOf plain)) checked).
(** [push], and the headers of the socket [open] creates with a token *)
Definition push {U} (c : connection U) (token : result string) (aborted : bool) (fetch : request → result response)
    (kind body : string) : option request * (string + transport_error) :=
  httpTransport (http c) (shared c) token aborted fetch kind body.
Definition upgradeHeaders {U} (c : connection U) (token : string) : list (string * string) :=
  setField "authorization" ("Bearer " +:+ token)%string (shared c).

(** ** One live socket *)
Inductive platform := Node | ReactNative.
Definition REFUSAL_BYTES : Z := 64 * 1024.
Definition BUFFERED_FRAMES : nat := 64.
(** [text.length] *)
Definition utf16Length (s : string) : Z := foldr (λ cp n, n + (if cp <? 0x10000 then 1 else 2)) 0 (codePoints s).
Definition MAX_PAYLOAD : Z := 8 * 1024 * 1024.
(** Why a socket ends; [undefined] reports nothing. *)
Inductive cause :=
| Undefined
| Failed (e : exn)
| Upgrade (e : response_error).
Inductive output :=
| Create (token : string)
| Send                                            (* the subscribe frame *)
| Message (frame : string)                        (* [on.message], awaited *)
| Overflow                                        (* [on.overflow], awaited *)
| Pause
| ResumeSocket
| Terminate
| Destroy                                         (* the refused upgrade's response *)
| Closed (c : cause).
Record socket := Socket {
  ended : bool;
  created : bool;
  frames : list string;
  overflowed : bool;
  draining : bool;                                (* a handing is awaited *)
  refusal : option (Z * string);                  (* a refused upgrade whose body arrives *)
  outputs : list output }.
Definition newSocket : socket := Socket false false [] false false None [].
Definition emit (o : output) (s : socket) : socket :=
  Socket (ended s) (created s) (frames s) (overflowed s) (draining s) (refusal s) (outputs s ++ [o]).
Definition set_buffer (f : list string) (o d : bool) (s : socket) : socket :=
  Socket (ended s) (created s) f o d (refusal s) (outputs s).

(** [finish] *)
Definition emitIf (b : bool) (o : output) (s : socket) : socket := if b then emit o s else s.
Definition finish (p : platform) (c : cause) (s : socket) : socket :=
  if ended s then s
  else
    let s := Socket true (created s) (match p with Node => frames s | ReactNative => [] end) (overflowed s) (draining s)
               (refusal s) (outputs s) in
    let s := emitIf (created s) Terminate s in
    match c with Undefined => s | _ => emit (Closed c) s end.
(** One turn of [drain]'s loop up to its [await], or its end *)
Definition drainTurn (p : platform) (s : socket) : socket :=
  if ended s then set_buffer (frames s) (overflowed s) false s
  else if overflowed s then emit Overflow (set_buffer (frames s) false true s)
  else match frames s with
       | frame :: rest => emit (Message frame) (set_buffer rest false true s)
       | [] => emitIf (match p with Node => true | _ => false end) ResumeSocket (set_buffer [] false false s)
       end.
Definition drain (p : platform) (s : socket) : socket :=
  if draining s || ended s then s
  else drainTurn p (emitIf (match p with Node => true | _ => false end) Pause s).
(** What the awaited handing answered *)
Definition handed (p : platform) (threw : option cause) (s : socket) : socket :=
  if draining s then
    match threw with
    | None => drainTurn p s
    | Some c => set_buffer (frames (finish p c s)) (overflowed s) false (finish p c s)
    end
  else s.
(** A frame arrives *)
Definition received (p : platform) (frame : string) (s : socket) : socket :=
  let full := Nat.eqb (length (frames s)) BUFFERED_FRAMES in
  let s := if full then set_buffer [] true (draining s) s else s in
  drain p (set_buffer (frames s ++ [frame]) (overflowed s) (draining s) s).
Definition abnormal (code reason : string) : cause := Failed (Error ("live disconnected: " +:+ code +:+ " " +:+ reason)).

Inductive event :=
| Abort
| Token (token : result string) (throws : option exn)  (* the token and what [new WebSocket] throws *)
| Opened (throws : option exn)                    (* what React Native's [send] throws *)
| Arrived (data : option string)                  (* a text, or not *)
| Errored (e : exn)
| Disconnected (code reason : string)
| Handed (threw : option cause)
| UnexpectedResponse (status : Z) (admission : option string)  (* Node only *)
| RefusalData (chunk : string)
| RefusalEnd
| RefusalClose
| RefusalError (e : exn).
Definition causeOf (e : exn) : cause := match e with Thrown VUndef => Undefined | _ => Failed e end.
(** [current.on(...)]: the listeners exist once the socket does. *)
Definition nodeSocket (s : socket) (e : event) : socket :=
  match e with
  | Opened _ => if ended s then emit Terminate s else emit Send s
  | Arrived (Some frame) => if ended s then s else received Node frame s
  | Errored e => finish Node (causeOf e) s
  | Disconnected code reason => finish Node (abnormal code reason) s
  | UnexpectedResponse status admission =>
      if bool_decide (admission = Some "refused"%string)
      then Socket (ended s) (created s) (frames s) (overflowed s) (draining s) (Some (status, EmptyString)) (outputs s)
      else finish Node (Upgrade (responseError "live" status "" false)) s
  | RefusalData chunk =>
      match refusal s with
      | Some (status, text) =>
          let text := text +:+ chunk in
          emitIf (REFUSAL_BYTES <? utf16Length text) Destroy
            (Socket (ended s) (created s) (frames s) (overflowed s) (draining s) (Some (status, text)) (outputs s))
      | None => s
      end
  | RefusalEnd =>
      match refusal s with Some (status, text) => finish Node (Upgrade (responseError "live" status text true)) s | None => s end
  | RefusalClose =>
      match refusal s with Some (status, text) => finish Node (Upgrade (responseError "live" status text false)) s | None => s end
  | RefusalError e => match refusal s with Some _ => finish Node (causeOf e) s | None => s end
  | _ => s
  end.
(** React Native's handlers, which [finish] takes off the socket *)
Definition rnSocket (s : socket) (e : event) : socket :=
  if ended s then s
  else match e with
  | Opened throws => match throws with Some e => finish ReactNative (causeOf e) s | None => emit Send s end
  | Arrived data =>
      match data with
      | Some frame =>
          if MAX_PAYLOAD <? utf16Length frame then finish ReactNative (Failed (Error "invalid live message")) s
          else received ReactNative frame s
      | None => finish ReactNative (Failed (Error "invalid live message")) s
      end
  | Errored e => finish ReactNative (Failed e) s
  | Disconnected code reason => finish ReactNative (abnormal code reason) s
  | _ => s
  end.
Section run.
Variable p : platform.
Definition step (s : socket) (e : event) : socket :=
  match e with
  | Abort => finish p Undefined s
  | Token token throws =>
      if created s then s
      else match token with
           | Throw e => finish p (causeOf e) s
           | Ok token =>
               if ended s then s
               else match throws with
                    | Some e => finish p (causeOf e) s
                    | None => emit (Create token) (Socket (ended s) true (frames s) (overflowed s) (draining s) (refusal s) (outputs s))
                    end
           end
  | Handed threw => handed p threw s
  | _ => if created s then match p with Node => nodeSocket s e | ReactNative => rnSocket s e end else s
  end.
Definition run (events : list event) : socket := foldl step newSocket events.
End run.
