(* ===== verification/SocketFacts.v ===== *)
(** What a live socket conveys: the frames that arrived, in order and one at a
    time, less whole buffers whose loss is announced where they were lost. *)
From S2P Require Import Prelude Text ClientSockets.
Open Scope nat_scope.
Open Scope axton_scope.

(** ** The credential of a connection is the framework's *)
Definition unreserved (h : string * string) : Prop := reserved h.1 = false.
Lemma clientHeaders_unreserved headers checked l :
  clientHeaders headers checked = Ok l → Forall unreserved checked → Forall unreserved l.
Proof.
  revert checked. induction headers as [|[name v] headers IH]; intros checked; cbn [clientHeaders]; [by intros [= <-]|].
  destruct (reserved name) eqn:Hn; [done|]. cbn. destruct v; try done. intros Hl Hc. eapply IH; [exact Hl|].
  apply Forall_forall. intros h [->|Hin]%setField_elem; [done|]. rewrite Forall_forall in Hc. auto.
Qed.
(** A header the application named cannot stand for one the framework sets, in
    any spelling: the upgrade and every request carry the token as it is. *)
Lemma connection_credentials `{Urls U} url headers c token route body :
  createServerConnection (U := U) url headers = Ok c →
  Forall unreserved (shared c) ∧
  fieldOf "authorization" (upgradeHeaders c token) = Some ("Bearer " +:+ token)%string ∧
  fieldOf "authorization" (q_headers (requestOf (http c) (shared c) route token body)) = Some ("Bearer " +:+ token)%string.
Proof.
  intros Hc. split; [|split].
  - unfold createServerConnection in Hc. apply result_bind_inv in Hc as (b & _ & Hc).
    apply result_bind_inv in Hc as (p & _ & Hc). apply result_bind_inv in Hc as (l & Hl & [= <-]).
    by apply (clientHeaders_unreserved _ _ _ Hl).
  - unfold upgradeHeaders. by rewrite fieldOf_setField.
  - unfold requestOf. cbn [q_headers]. rewrite fieldOf_setField_ne by done. by rewrite fieldOf_setField.
Qed.

(** ** What the handings stand for *)
Definition handing (o : output) : bool := match o with Message _ | Overflow => true | _ => false end.
Definition isOverflow (o : output) : bool := match o with Overflow => true | _ => false end.
Definition isClosed (o : output) : bool := match o with Closed _ => true | _ => false end.
Definition counted (f : output → bool) (l : list output) : nat := length (filter (λ o, f o = true) l).
#[local] Arguments counted : simpl never.
(** The frames a log of handings stands for, when each overflow is given the frames
    it announces the loss of. *)
Fixpoint weave (l : list output) (drops : list (list string)) : list string :=
  match l with
  | [] => []
  | Message frame :: l => frame :: weave l drops
  | Overflow :: l => match drops with d :: drops => d ++ weave l drops | [] => weave l [] end
  | _ :: l => weave l drops
  end.
(** Some whole buffers *)
Definition buffers (d : list string) : Prop := ∃ k, 0 < k ∧ length d = k * BUFFERED_FRAMES.

Lemma counted_snoc f l o : counted f (l ++ [o]) = counted f l + if f o then 1 else 0.
Proof.
  unfold counted. rewrite filter_app, length_app. destruct (f o) eqn:Hf.
  - by rewrite filter_cons_True.
  - by rewrite filter_cons_False by congruence.
Qed.
Lemma weave_app l l' drops drops' :
  length drops = counted isOverflow l → weave (l ++ l') (drops ++ drops') = weave l drops ++ weave l' drops'.
Proof.
  revert drops. induction l as [|o l IH]; intros drops Hd; cbn.
  - by destruct drops.
  - assert (counted isOverflow (o :: l) = (if isOverflow o then 1 else 0) + counted isOverflow l) as Hc.
    { unfold counted. rewrite filter_cons. by destruct o. }
    rewrite Hc in Hd. destruct o; cbn in *; try by rewrite IH.
    destruct drops as [|d drops]; cbn in *; [done|]. rewrite IH by lia. by rewrite app_assoc.
Qed.
Lemma weave_plain l o drops :
  length drops = counted isOverflow l → handing o = false → weave (l ++ [o]) drops = weave l drops.
Proof.
  intros Hd Ho. pose proof (weave_app l [o] drops [] Hd) as H. rewrite app_nil_r in H. rewrite H.
  destruct o; try done; by rewrite app_nil_r.
Qed.

(** ** The invariant

    [n] counts the answers of handings; [drops] what the overflows announced, [lost]
    what the next one will. *)
Record Inv (s : socket) (arrived : list string) (n : nat) (drops : list (list string)) (lost : list string) : Prop := {
  i_drops : length drops = counted isOverflow (outputs s);
  i_buffers : Forall buffers drops;
  i_open : ended s = false → arrived = weave (outputs s) drops ++ lost ++ frames s ∧
           length (frames s) ≤ BUFFERED_FRAMES ∧ (if overflowed s then buffers lost else lost = []) ∧
           counted isClosed (outputs s) = 0;
  i_ended : ∃ rest, arrived = weave (outputs s) drops ++ rest;
  i_handings : counted handing (outputs s) ≤ n;
  i_closed : counted isClosed (outputs s) ≤ 1 }.
(** Between two events, moreover, a buffer waits only behind a handing. *)
Definition Settled (s : socket) (arrived : list string) (n : nat) : Prop :=
  (∃ drops lost, Inv s arrived (n + if draining s then 1 else 0) drops lost) ∧
  (ended s = false → draining s = false → frames s = [] ∧ overflowed s = false).

(** Another view of the same buffer, or one that only ends. *)
Lemma inv_view s s' arrived n m drops lost :
  outputs s' = outputs s → frames s' = frames s → overflowed s' = overflowed s → (ended s = true → ended s' = true) →
  n ≤ m → Inv s arrived n drops lost → Inv s' arrived m drops lost.
Proof.
  intros Ho Hf Hov He Hnm []. split; rewrite ?Ho, ?Hf, ?Hov; try done; [|lia].
  intros Hn. apply i_open0. destruct (ended s); [|done]. by rewrite He in Hn.
Qed.
(** An output that hands nothing over and closes nothing. *)
Lemma inv_plain o s arrived n drops lost :
  handing o = false → isClosed o = false → Inv s arrived n drops lost → Inv (emit o s) arrived n drops lost.
Proof.
  intros Hh Hc []. assert (isOverflow o = false) as Hov by by destruct o.
  split; cbn; rewrite ?counted_snoc, ?Hov, ?Hc, ?Hh, ?weave_plain by done; cbn; rewrite ?Nat.add_0_r; done.
Qed.
Lemma inv_emitIf b o s arrived n drops lost :
  handing o = false → isClosed o = false → Inv s arrived n drops lost → Inv (emitIf b o s) arrived n drops lost.
Proof. intros. unfold emitIf. destruct b; [by apply inv_plain|done]. Qed.
(** The end of a socket; what was buffered is no longer of interest. *)
Lemma inv_end s arrived n drops lost f :
  ended s = false → Inv s arrived n drops lost →
  Inv (Socket true (created s) f (overflowed s) (draining s) (refusal s) (outputs s)) arrived n drops lost ∧
  counted isClosed (outputs s) = 0.
Proof.
  intros He []. destruct (i_open0 He) as (? & ? & ? & ?). by split.
Qed.
Lemma emitIf_fields b o s :
  ended (emitIf b o s) = ended s ∧ frames (emitIf b o s) = frames s ∧ overflowed (emitIf b o s) = overflowed s ∧
  draining (emitIf b o s) = draining s ∧ outputs (emitIf b o s) = outputs s ++ (if b then [o] else []).
Proof. destruct b; cbn; [done|]. by rewrite app_nil_r. Qed.
Lemma socket_finish p c s arrived n drops lost :
  Inv s arrived n drops lost → Inv (finish p c s) arrived n drops lost ∧ ended (finish p c s) = true ∧
    draining (finish p c s) = draining s.
Proof.
  intros Hi. unfold finish. destruct (ended s) eqn:He; [done|].
  set (f := match p with Node => frames s | ReactNative => [] end).
  destruct (inv_end s arrived n drops lost f He Hi) as [Hi1 Hc]. set (s1 := Socket true _ _ _ _ _ _) in *.
  assert (Inv (emitIf (created s1) Terminate s1) arrived n drops lost) as Hi2 by by apply inv_emitIf.
  destruct (emitIf_fields (created s1) Terminate s1) as (He2 & _ & _ & Hd2 & Ho2).
  assert (counted isClosed (outputs (emitIf (created s1) Terminate s1)) = 0) as Hc2.
  { rewrite Ho2. change (outputs s1) with (outputs s). destruct (created s1); [by rewrite counted_snoc, Hc|by rewrite app_nil_r]. }
  set (s2 := emitIf _ _ s1) in *. clearbody s2.
  assert (Inv (emit (Closed c) s2) arrived n drops lost) as Hi3.
  { destruct Hi2. split; cbn; rewrite ?counted_snoc; cbn; rewrite ?Nat.add_0_r; try done.
    - by rewrite He2.
    - by rewrite weave_plain.
    - lia. }
  by destruct c.
Qed.
(** A handing, given the answers so far allow it. *)
Lemma inv_drainTurn p s arrived n drops lost :
  Inv s arrived n drops lost → Settled (drainTurn p s) arrived n.
Proof.
  intros Hi. unfold drainTurn. destruct (ended s) eqn:He.
  { split; [exists drops, lost|by cbn; rewrite He]. cbn. eapply inv_view; [..|exact Hi]; cbn; auto. lia. }
  destruct (i_open _ _ _ _ _ Hi He) as (Ha & Hlen & Hlost & Hcl). destruct (overflowed s) eqn:Hov.
  - split; [|done]. exists (drops ++ [lost]), []. destruct Hi.
    assert (weave (outputs s ++ [Overflow]) (drops ++ [lost]) = weave (outputs s) drops ++ lost) as Hw.
    { rewrite weave_app by done. cbn. by rewrite app_nil_r. }
    split; cbn; rewrite ?counted_snoc, ?Hw; cbn; rewrite ?Nat.add_0_r; try done.
    + rewrite length_app, i_drops0. cbn. lia.
    + by apply Forall_app; split; [|apply Forall_singleton].
    + intros _. split; [by rewrite Ha, <- app_assoc|done].
    + exists (frames s). by rewrite Ha, <- app_assoc.
    + lia.
  - subst lost. destruct (frames s) as [|frame rest] eqn:Hf.
    + assert (Inv (set_buffer [] false false s) arrived (n + 0) drops []) as H1.
      { eapply inv_view; [..|exact Hi]; cbn; auto. lia. }
      destruct (emitIf_fields (match p with Node => true | _ => false end) ResumeSocket (set_buffer [] false false s))
        as (He1 & Hf1 & Ho1 & Hd1 & _).
      split; [exists drops, []; rewrite Hd1; by apply inv_emitIf|by rewrite Hf1, Ho1].
    + split; [|done]. exists drops, []. destruct Hi.
      assert (weave (outputs s ++ [Message frame]) drops = weave (outputs s) drops ++ [frame]) as Hw.
      { pose proof (weave_app (outputs s) [Message frame] drops [] i_drops0) as Hx. rewrite app_nil_r in Hx. by rewrite Hx. }
      split; cbn; rewrite ?counted_snoc, ?Hw; cbn; rewrite ?Nat.add_0_r; try done.
      * intros _. split; [by rewrite Ha, <- app_assoc|]. split; [cbn in Hlen; lia|done].
      * exists rest. by rewrite Ha, <- app_assoc.
      * lia.
Qed.
(** A frame joins the buffer, which a full one is cleared for. *)
Lemma inv_push frame s arrived n drops lost :
  ended s = false → Inv s arrived n drops lost →
  let full := Nat.eqb (length (frames s)) BUFFERED_FRAMES in
  let s1 := if full then set_buffer [] true (draining s) s else s in
  Inv (set_buffer (frames s1 ++ [frame]) (overflowed s1) (draining s1) s1) (arrived ++ [frame]) n drops
    (if full then lost ++ frames s else lost).
Proof.
  intros He Hi. destruct (i_open _ _ _ _ _ Hi He) as (Ha & Hlen & Hlost & Hcl). destruct Hi.
  assert (arrived ++ [frame] = weave (outputs s) drops ++ (lost ++ frames s ++ [frame])) as Ha'.
  { rewrite Ha. by rewrite <- !app_assoc. }
  destruct (Nat.eqb_spec (length (frames s)) BUFFERED_FRAMES) as [Hfull|Hnot]; (split; cbn; try done; [intros _|eauto]).
  - split; [by rewrite Ha', <- app_assoc|]. split; [unfold BUFFERED_FRAMES; lia|]. split; [|done].
    destruct (overflowed s).
    + destruct Hlost as (k & Hk & Hkl). exists (S k). rewrite length_app, Hkl, Hfull. split; [lia|done || lia].
    + subst lost. exists 1. split; [lia|]. cbn. by rewrite Hfull.
  - split; [done|]. split; [|done]. rewrite length_app. cbn. lia.
Qed.
Lemma settled_drain p s arrived n drops lost :
  Inv s arrived (n + if draining s then 1 else 0) drops lost → Settled (drain p s) arrived n.
Proof.
  intros Hi. unfold drain. destruct (draining s) eqn:Hd; cbn.
  { split; [exists drops, lost; by rewrite Hd|by rewrite Hd]. }
  destruct (ended s) eqn:He; [split; [exists drops, lost; by rewrite Hd|by rewrite He]|].
  eapply inv_drainTurn, inv_emitIf; [done..|]. rewrite Nat.add_0_r in Hi. exact Hi.
Qed.
Lemma settled_received p frame s arrived n :
  ended s = false → Settled s arrived n → Settled (received p frame s) (arrived ++ [frame]) n.
Proof.
  intros He [(drops & lost & Hi) _]. pose proof (inv_push frame s _ _ _ _ He Hi) as Hp. cbv zeta in Hp.
  unfold received. destruct (Nat.eqb _ _); eapply settled_drain; exact Hp.
Qed.
Lemma settled_finish p c s arrived n : Settled s arrived n → Settled (finish p c s) arrived n.
Proof.
  intros [(drops & lost & Hi) _]. destruct (socket_finish p c s _ _ _ _ Hi) as (Hi' & He & Hd).
  split; [exists drops, lost; by rewrite Hd|]. by rewrite He.
Qed.
Lemma settled_handed p threw s arrived n :
  Settled s arrived n → Settled (handed p threw s) arrived (S n).
Proof.
  intros [(drops & lost & Hi) Hq]. unfold handed. destruct (draining s) eqn:Hd.
  - destruct threw as [c|].
    + destruct (socket_finish p c s _ _ _ _ Hi) as (Hi' & He & _). split.
      * exists drops, lost. eapply inv_view; [..|exact Hi']; cbn; auto; [|lia].
        unfold finish. destruct (ended s); [done|]. destruct (created s), c; done.
      * cbn. by rewrite He.
    + rewrite Nat.add_1_r in Hi. by eapply inv_drainTurn.
  - split; [|by rewrite Hd]. exists drops, lost. rewrite Hd. eapply inv_view; [..|exact Hi]; auto. lia.
Qed.
Lemma settled_plain o s arrived n :
  handing o = false → isClosed o = false → Settled s arrived n → Settled (emit o s) arrived n.
Proof.
  intros ? ? [(drops & lost & Hi) Hq]. split; [|done]. exists drops, lost. by apply inv_plain.
Qed.
Lemma settled_fields s c r arrived n :
  Settled s arrived n → Settled (Socket (ended s) c (frames s) (overflowed s) (draining s) r (outputs s)) arrived n.
Proof.
  intros [(drops & lost & Hi) Hq]. split; [|done]. exists drops, lost. by eapply inv_view; [..|exact Hi].
Qed.
#[local] Hint Resolve settled_finish settled_plain settled_fields settled_received : axton.

(** ** Runs *)
(** The frame an event delivers to an open socket *)
Definition accepted (p : platform) (s : socket) (e : event) : list string :=
  match e with
  | Arrived (Some frame) =>
      if created s && negb (ended s)
         && match p with Node => true | ReactNative => negb (MAX_PAYLOAD <? utf16Length frame)%Z end
      then [frame] else []
  | _ => []
  end.
Definition answers (e : event) : nat := match e with Handed _ => 1 | _ => 0 end.
(** A run with the frames that arrived in it. *)
Definition conveyed (p : platform) (events : list event) : socket * list string :=
  foldl (λ '(s, arrived) e, (step p s e, arrived ++ accepted p s e)) (newSocket, []) events.
Lemma settled_step p s e arrived n :
  Settled s arrived n → Settled (step p s e) (arrived ++ accepted p s e) (n + answers e).
Proof.
  intros Hs. rewrite (Nat.add_comm n). destruct e as [|token throws|throws|data|x|code rsn|threw|st adm|chunk| | |x]; cbn;
    rewrite ?app_nil_r; cbn; auto with axton.
  - destruct (created s) eqn:Hc; [done|]. destruct token as [token|x]; [|auto with axton].
    destruct (ended s) eqn:He; [done|]. destruct throws; [auto with axton|]. apply settled_plain; [done..|].
    rewrite <- He. by apply settled_fields.
  - destruct (created s); [|done]. destruct p; unfold rnSocket; cbn.
    + case_if; by apply settled_plain.
    + destruct (ended s); [done|]. destruct throws; auto with axton.
  - destruct (created s); [|destruct data; by rewrite ?app_nil_r]. destruct p; unfold rnSocket; cbn.
    + destruct data as [frame|]; [|by rewrite app_nil_r]. destruct (ended s) eqn:He; cbn; [by rewrite app_nil_r|].
      by apply settled_received.
    + destruct (ended s) eqn:He; cbn; [destruct data; by rewrite app_nil_r|].
      destruct data as [frame|]; [|rewrite app_nil_r; auto with axton].
      case_if; cbn; [rewrite app_nil_r; auto with axton|by apply settled_received].
  - destruct (created s); [|done]. destruct p; unfold rnSocket; cbn; [auto with axton|]. destruct (ended s); auto with axton.
  - destruct (created s); [|done]. destruct p; unfold rnSocket; cbn; [auto with axton|]. destruct (ended s); auto with axton.
  - by apply settled_handed.
  - destruct (created s); [|done]. destruct p; unfold rnSocket; cbn; [case_if; auto with axton|by destruct (ended s)].
  - destruct (created s); [|done]. destruct p; unfold rnSocket; cbn; [|by destruct (ended s)]. destruct (refusal s) as [[? ?]|]; [|done].
    unfold emitIf. case_if; auto with axton.
  - destruct (created s); [|done]. destruct p; unfold rnSocket; cbn; [|by destruct (ended s)].
    destruct (refusal s) as [[? ?]|]; auto with axton.
  - destruct (created s); [|done]. destruct p; unfold rnSocket; cbn; [|by destruct (ended s)].
    destruct (refusal s) as [[? ?]|]; auto with axton.
  - destruct (created s); [|done]. destruct p; unfold rnSocket; cbn; [|by destruct (ended s)].
    destruct (refusal s) as [[? ?]|]; auto with axton.
Qed.
Lemma conveyed_settled p events :
  Settled (conveyed p events).1 (conveyed p events).2 (sum_list (answers <$> events)).
Proof.
  unfold conveyed. assert (Settled newSocket [] 0) as H0.
  { split; [|done]. exists [], []. split; cbn; try done; [|by exists []|by apply Nat.le_0_l].
    intros _. repeat split; try done. apply Nat.le_0_l. }
  change (sum_list (answers <$> events)) with (0 + sum_list (answers <$> events)).
  revert H0. generalize newSocket, (@nil string), 0.
  induction events as [|e events IH]; intros s arrived n Hs; cbn; [by rewrite Nat.add_0_r|].
  rewrite Nat.add_assoc. by apply IH, settled_step.
Qed.

(** An ended socket says nothing more. *)
Definition afterEnd (o : output) : bool := match o with Terminate | Destroy => true | _ => false end.
Lemma ended_step p s e :
  ended s = true → ended (step p s e) = true ∧ ∃ l, outputs (step p s e) = outputs s ++ l ∧ Forall (λ o, afterEnd o = true) l.
Proof.
  intros He.
  assert (∀ s', ended s' = true → outputs s' = outputs s →
            ended s' = true ∧ ∃ l, outputs s' = outputs s ++ l ∧ Forall (λ o, afterEnd o = true) l) as Hsame.
  { intros s' H1 H2. split; [done|]. exists []. by rewrite H2, app_nil_r. }
  assert (∀ c, finish p c s = s) as Hf by (intros c; unfold finish; by rewrite He).
  assert (∀ e, rnSocket s e = s) as Hrn by (intros e'; unfold rnSocket; by rewrite He).
  assert (∀ (o : output) s', afterEnd o = true → s' = emit o s →
            ended s' = true ∧ ∃ l, outputs s' = outputs s ++ l ∧ Forall (λ o, afterEnd o = true) l) as Hone.
  { intros o s' Ho ->. split; [done|]. exists [o]. split; [done|]. by apply Forall_singleton. }
  destruct e as [|token throws|throws|data|x|code rsn|threw|st adm|chunk| | |x]; cbn.
  all: try (destruct (created s); [|by apply Hsame]; destruct p; rewrite ?Hrn; [cbn|by apply Hsame]).
  all: try (rewrite Hf; by apply Hsame).
  - destruct (created s); [by apply Hsame|]. destruct token; [|rewrite Hf; by apply Hsame].
    destruct (ended s) eqn:E; [by apply Hsame|done].
  - destruct (ended s) eqn:E; [by apply (Hone Terminate)|done].
  - destruct data; [|by apply Hsame]. destruct (ended s) eqn:E; [by apply Hsame|done].
  - unfold handed, drainTurn. destruct (draining s); [|by apply Hsame]. destruct threw; [rewrite Hf; by apply Hsame|].
    destruct (ended s) eqn:E; [by apply Hsame|done].
  - case_if; rewrite ?Hf; by apply Hsame.
  - destruct (refusal s) as [[? ?]|]; [|by apply Hsame]. unfold emitIf. case_if; [|by apply Hsame].
    split; [done|]. exists [Destroy]. split; [done|]. by apply Forall_singleton.
  - destruct (refusal s) as [[? ?]|]; rewrite ?Hf; by apply Hsame.
  - destruct (refusal s) as [[? ?]|]; rewrite ?Hf; by apply Hsame.
  - destruct (refusal s) as [[? ?]|]; rewrite ?Hf; by apply Hsame.
Qed.
Lemma ended_run p events s :
  ended s = true → ∃ l, outputs (foldl (step p) s events) = outputs s ++ l ∧ Forall (λ o, afterEnd o = true) l.
Proof.
  revert s. induction events as [|e events IH]; intros s He; cbn; [exists []; by rewrite app_nil_r|].
  destruct (ended_step p s e He) as (He' & l & Hl & Hal). destruct (IH _ He') as (l' & Hl' & Hal').
  exists (l ++ l'). split; [by rewrite Hl', Hl, app_assoc|]. by apply Forall_app.
Qed.
Lemma conveyed_run p events : (conveyed p events).1 = run p events.
Proof.
  unfold conveyed, run. generalize newSocket, (@nil string). induction events as [|e events IH]; intros s arrived; cbn; [done|].
  apply IH.
Qed.

(** C21: Whatever the network, the runtime and the token source do, on Node and on
    React Native, the frames that reach a live socket are handed over in order,
    one at a time, each at most once.  What is not handed over is whole buffers of
    64 frames, announced by an overflow exactly where they are missing.  While the
    socket is open at most 64 frames wait, and none wait without a handing that is
    under way, so every frame is handed over or announced.  The end is reported at
    most once, and afterwards nothing is handed over, sent or reported. *)
Theorem frames_conveyed p events after :
  let s := run p events in
  let arrived := (conveyed p events).2 in
  (∃ drops rest, arrived = weave (outputs s) drops ++ rest ∧
     length drops = counted isOverflow (outputs s) ∧ Forall buffers drops ∧
     (ended s = false →
        length (frames s) ≤ BUFFERED_FRAMES ∧ (draining s = false → rest = []) ∧
        ∃ lost, rest = lost ++ frames s ∧ if overflowed s then buffers lost else lost = [])) ∧
  counted handing (outputs s) ≤ S (sum_list (answers <$> events)) ∧
  (ended s = false → counted isClosed (outputs s) = 0) ∧ counted isClosed (outputs s) ≤ 1 ∧
  (ended s = true →
     ∃ l, outputs (run p (events ++ after)) = outputs s ++ l ∧ Forall (λ o, o = Terminate ∨ o = Destroy) l).
Proof.
  intros s arrived. pose proof (conveyed_settled p events) as [(drops & lost & Hi) Hq].
  rewrite conveyed_run in Hi, Hq. fold s arrived in Hi, Hq. split; [|split; [|split; [|split]]].
  - destruct (ended s) eqn:He.
    + destruct (i_ended _ _ _ _ _ Hi) as (rest & Hr). exists drops, rest. split; [done|].
      split; [apply Hi|]. split; [apply Hi|done].
    + destruct (i_open _ _ _ _ _ Hi He) as (Ha & Hlen & Hlost & _). exists drops, (lost ++ frames s).
      split; [done|]. split; [apply Hi|]. split; [apply Hi|]. intros _. split; [done|]. split; [|by exists lost].
      intros Hd. destruct (Hq eq_refl Hd) as [-> Hov]. rewrite Hov in Hlost. by subst.
  - pose proof (i_handings _ _ _ _ _ Hi). destruct (draining s); lia.
  - intros He. by destruct (i_open _ _ _ _ _ Hi He) as (_ & _ & _ & ?).
  - apply Hi.
  - intros He. unfold run. rewrite foldl_app. destruct (ended_run p after s He) as (l & Hl & Hal). exists l.
    split; [exact Hl|]. eapply Forall_impl; [exact Hal|]. intros []; cbn; auto; done.
Qed.
(** A socket whose executor is slow: a buffer of 64 frames is lost and announced. *)
Example overflow_announced :
  let frames := (λ n, Arrived (Some (pretty n))) <$> seq 0 67 in
  let s := run Node ([Token (Ok "t"%string) None; Opened None] ++ frames ++ [Handed None; Handed None]) in
  outputs s = [Create "t"; Send; Pause; Message "0"; Overflow; Message "65"]%string ∧
  ClientSockets.frames s = ["66"]%string.
Proof. by vm_compute. Qed.
