(* ===== verification/Client.v ===== *)
(** The client that joins the parts: [createClient] of
    [frontend/client-js/api/runtime.mts].

    [Observers]: one call of [#observe], from its registration to its release.
    [Client]: the admission of calls behind the transaction guard, connecting and
    closing, over the effects of [Executor].  The runtime behind the bridge settles
    the client's tasks when it likes: each settlement is an event. *)
From S2P Require Import Prelude Text Json Actions Executor.
Open Scope nat_scope.
Open Scope axton_scope.

(** ** Errors and options *)
Definition observationFailed (cause : option exn) : exn := CallError "action.observation_failed" Unknown cause.
Record direct_outcome := DirectOutcome {
  o_failed : bool; o_result : value; o_code : option string; o_execution : option string }.
Definition decodeOutcome (outcome : option direct_outcome) (decode : value → result value) : result value :=
  match outcome with
  | None => Throw (observationFailed None)
  | Some o =>
      if o_failed o then
        Throw (CallError (default "action.failed"%string (o_code o))
                 (if bool_decide (o_execution o = Some "rejected"%string) then Rejected else Unknown) None)
      else match decode (o_result o) with Ok v => Ok v | Throw cause => Throw (observationFailed (Some cause)) end
  end.
Definition messageOf (e : exn) : option string :=
  match e with
  | Error m | TypeError m | EnrollmentOverflow m | EngineError _ m _ | TaskError m _ => Some m
  | MutationRejected code | CallError code _ _ => Some code
  | Thrown v => match get v "message" with VStr m => Some m | _ => None end
  end.
Definition detailsOf (e : exn) : value :=
  match e with
  | TaskError _ d => d
  | EngineError _ _ (Some d) => VObj d
  | Thrown v => get v "details"
  | _ => VUndef
  end.
(** Looked up as own properties: no message of the runtime is a name that every
    JavaScript object inherits. *)
Definition INVOKE_CODES : list (string * execution) :=
  [("action.unavailable", Unknown); ("action.execution_unknown", Unknown);
   ("action.observation_failed", Unknown); ("action.invalid_options", Rejected)]%string.
(** [directCause]: the status rides on the error as a property *)
Definition directCause (e : exn) : exn :=
  match get (detailsOf e) "message" with
  | VStr m =>
      match get (detailsOf e) "status" with
      | VNum n => Thrown (VObj [("message", VStr m); ("status", VNum n)])
      | _ => Error m
      end
  | _ => e
  end.
Definition invokeError (e : exn) : exn :=
  match messageOf e with
  | Some m =>
      if String.eqb m "client_closed" then CallError "action.unavailable" Unknown (Some e)
      else match fieldOf m INVOKE_CODES with
           | Some how => CallError m how (Some (directCause e))
           | None => e
           end
  | None => e
  end.
Definition fetchRefused : exn :=
  CallError "fetch.invalid_options" Rejected (Some (Error "Fetch accepts only a boolean store option")).
(** [Object.keys] of an array are its indices *)
Definition fetchStore (options : value) : result (list (string * value)) :=
  match options with
  | VUndef => Ok []
  | VObj fields =>
      if existsb (λ p, negb (String.eqb p.1 "store")) fields then Throw fetchRefused
      else match get options "store" with VUndef => Ok [] | store => Ok [("store", store)] end
  | VArr (_ :: _) => Throw fetchRefused
  | VArr [] | VDate _ => Ok []
  | _ => Throw fetchRefused
  end.
(** [cause]: the error's own [cause], when it has one *)
Definition fetchError (cause : option exn) (e : exn) : exn :=
  match e with
  | CallError _ _ _ => e
  | _ =>
      match get (detailsOf e) "code" with
      | VStr code =>
          if String.prefix "fetch." code then
            CallError code (if String.eqb code "fetch.invalid_options" then Rejected else Unknown)
              (Some (default (directCause e) cause))
          else if bool_decide (messageOf e = Some "transaction_active"%string) then actionError e else e
      | _ => if bool_decide (messageOf e = Some "transaction_active"%string) then actionError e else e
      end
  end.

(** ** The commands of the client's calls *)
(** [{...fields, ...options}] *)
Definition setAll (options fields : list (string * value)) : list (string * value) :=
  foldl (λ l p, setField p.1 p.2 l) fields options.
Inductive call :=
| SyncState (record : option (string * value))    (* [syncState] *)
| PendingTasks
| SetReadiness (key state : string)
| Drop (ordinal : value)
| DismissRejection (ordinal : value)
| ResetStore (options : list (string * value))
| RejectionGet (id : value)                       (* [rejections.get] *)
| RejectionDismiss (id : value)
| FailuresRetry (taskKeys : list string)
| FailuresDrop (ordinal : value)
| Invoke (name : string) (version args : value) (store : option value)
| Fetch (model : string) (version identity : value) (store : list (string * value)).
Definition callCommand (c : call) : list (string * value) :=
  match c with
  | SyncState None => [("kind", VStr "status")]
  | SyncState (Some (model, identity)) =>
      [("kind", VStr "recordStatus"); ("key", VObj [("model", VStr model); ("identity", identity)])]
  | PendingTasks => [("kind", VStr "tasks")]
  | SetReadiness key state => [("kind", VStr "readiness"); ("key", VStr key); ("state", VStr state)]
  | Drop ordinal => [("kind", VStr "drop"); ("ordinal", ordinal)]
  | DismissRejection ordinal | RejectionDismiss ordinal => [("kind", VStr "dismiss"); ("ordinal", ordinal)]
  | ResetStore options => setAll options [("kind", VStr "resetStore")]
  | RejectionGet id => [("kind", VStr "rejectionGet"); ("id", id)]
  | FailuresRetry taskKeys => [("kind", VStr "retryTasks"); ("keys", VArr (VStr <$> taskKeys))]
  | FailuresDrop ordinal => [("kind", VStr "discard"); ("ordinal", ordinal)]
  | Invoke name version args store =>
      [("kind", VStr "invoke"); ("name", VStr name); ("version", version); ("args", args)]
      ++ match store with Some b => [("store", b)] | None => [] end
  | Fetch model version identity store =>
      [("kind", VStr "fetch"); ("model", VStr model); ("version", version); ("identity", identity)] ++ store
  end.
(** The observers of [watch], [watchSql] and [unsent.mts], and what each picks from
    a snapshot; a Model watch hands it to its receiver. *)
Inductive view := WatchModel (model : string) (where_ : value) | WatchSql (sql : string) (parameters : list value)
  | Rejections | Failures | Pending.
Definition viewCommand (v : view) : list (string * value) :=
  match v with
  | WatchModel model where_ =>
      [("kind", VStr "watch"); ("model", VStr model);
       ("spec", VObj [("filter", where_); ("delivery", VStr "splice-v1")])]
  | WatchSql sql parameters => [("kind", VStr "watchSql"); ("sql", VStr sql); ("parameters", VArr parameters)]
  | Rejections => [("kind", VStr "unsentWatch"); ("view", VStr "rejections")]
  | Failures => [("kind", VStr "unsentWatch"); ("view", VStr "failures")]
  | Pending => [("kind", VStr "unsentWatch"); ("view", VStr "pending")]
  end.
Definition pickOf (v : view) (snapshot : value) : value :=
  match v with
  | WatchModel _ _ => snapshot
  | WatchSql _ _ => get snapshot "rows"
  | Rejections | Failures => get snapshot "items"
  | Pending => get snapshot "count"
  end.

(** ** One [#observe] *)
Module Observers.
Inductive output :=
| Registered (command : list (string * value))   (* the task that registers it *)
| Heard (v : value)                               (* [listener] *)
| Failed (e : exn)                                (* [onError] *)
| Reported (e : exn)                              (* [onError] itself threw *)
| Resnapshot (observerId : string)
| Unwatch (observerId : string)
| Detached (observerId : string).
Record observer := Observer {
  stopped : bool;
  route : option string;                          (* the observer, while the bridge routes it *)
  registered : option string;                     (* whether [unwatch] is set *)
  refused : bool;                                 (* the registration failed *)
  unwatching : bool;                              (* the [unwatch] task was submitted *)
  outputs : list output }.
(** What an application function does when it is called: stop the watch, throw. *)
Record behaviour := Behaviour { stops : bool; throws : option exn }.

Definition say (o : output) (s : observer) : observer :=
  Observer (stopped s) (route s) (registered s) (refused s) (unwatching s) (outputs s ++ [o]).
Definition set_stopped (s : observer) : observer := Observer true (route s) (registered s) (refused s) (unwatching s) (outputs s).
(** The returned function *)
Definition unwatch (s : observer) : observer :=
  
  match registered s with
  | Some id => Observer (stopped s) (route s) (registered s) (refused s) true (outputs s ++ [Unwatch id])
  | None => s
  end.
Definition stop (s : observer) : observer := if stopped s then s else unwatch (set_stopped s).
Definition stopIf (b : bool) (s : observer) : observer := if b then stop s else s.
(** [fail] *)
Definition fail (e : exn) (b : behaviour) (s : observer) : observer :=
  let s := stopIf (stops b) (say (Failed e) s) in
  match throws b with Some thrown => say (Reported thrown) s | None => s end.
Definition observe (command : list (string * value)) : observer := Observer false None None false false [Registered command].

(** The registration's [settled] hook: the route is attached even when stopped. *)
Definition registers (id : string) (s : observer) : observer :=
  match registered s with
  | Some _ => s
  | None =>
      if refused s then s
      else
        let s := Observer (stopped s) (Some id) (Some id) (refused s) (unwatching s) (outputs s) in
        if stopped s then unwatch s else s
  end.
Definition refuses (e : exn) (b : behaviour) (s : observer) : observer :=
  match registered s with
  | Some _ => s
  | None =>
      if refused s then s
      else
        let s := Observer (stopped s) (route s) (registered s) true (unwatching s) (outputs s) in
        if stopped s then s else fail e b s
  end.
(** A snapshot, with what [pick] answers, whether [recover] asks for a new one,
    and what the application does. *)
Definition snapshot (closed : bool) (picked : result (option value)) (recovers : bool) (listener onError : behaviour)
    (s : observer) : observer :=
  match route s with
  | None => s
  | Some id =>
      if stopped s then s
      else if closed then set_stopped s
      else match picked with
           | Throw e =>
               let s := fail e onError s in
               if recovers && negb (stopped s) then say (Resnapshot id) s else s
           | Ok None => s
           | Ok (Some v) =>
               let s := stopIf (stops listener) (say (Heard v) s) in
               match throws listener with Some e => fail e onError s | None => s end
           end
  end.
(** The bridge drops the route of a terminal snapshot *)
Definition terminal (closed : bool) (s : observer) : observer :=
  if closed then Observer (stopped s) None (registered s) (refused s) (unwatching s) (outputs s) else s.
(** The [unwatch] task settled either way *)
Definition detach (s : observer) : observer :=
  match registered s with
  | Some id =>
      if unwatching s then Observer (stopped s) None (registered s) (refused s) (unwatching s) (outputs s ++ [Detached id]) else s
  | None => s
  end.
Inductive event :=
| Registers (id : string)
| Refuses (e : exn) (onError : behaviour)
| Snapshot (closed : bool) (picked : result (option value)) (recovers : bool) (listener onError : behaviour)
| ResnapshotFails (e : exn) (onError : behaviour)
| Stop
| UnwatchSettled.
Definition step (s : observer) (e : event) : observer :=
  match e with
  | Registers id => registers id s
  | Refuses e b => refuses e b s
  | Snapshot closed picked recovers listener onError =>
      terminal closed (snapshot closed picked recovers listener onError s)
  | ResnapshotFails e b =>
      match registered s with Some _ => if stopped s then s else fail e b s | None => s end
  | Stop => stop s
  | UnwatchSettled => detach s
  end.
Definition run (command : list (string * value)) (events : list event) : observer := foldl step (observe command) events.
End Observers.

(** ** The client *)
Inductive closing_phase :=
| AwaitStarted (bridgeFirst : bool)               (* [await this.#started] *)
| AwaitBridge                                     (* [await this.#bridge.close()] *)
| ClosedDown.
Inductive output :=
| Task (command : list (string * value))
| ConnectTask (owner : nat) (directTimeoutMs : Z) (refreshAuth : bool)
| ControlTask (owner : nat) (event : string)
| TransactionTask
| BridgeClose
| CallsClosed                                     (* the calls and subscriptions close *)
| RuntimeEnded                                    (* and end *)
| RefusedCall (e : exn).
Record client := Client_ {
  ex : executor;
  next_owner : nat;
  connecting : option nat;                        (* the connection whose task is awaited *)
  connection : option nat;
  halted : list nat;                              (* connections that ended *)
  transactions : nat;
  activeTx : option nat;                          (* [#activePublicTx] *)
  callbackRuns : bool;
  closing : option closing_phase;
  closed : bool;
  outputs : list output }.
(** The executor is owner 0 and the prerequisite handlers owner 1. *)
Definition FIRST_CONNECTION : nat := 2.
Definition newClient : client :=
  Client_ (install 1 [Prerequisite] newExecutor) FIRST_CONNECTION None None [] 0 None false None false [].

Definition say (o : output) (c : client) : client :=
  Client_ (ex c) (next_owner c) (connecting c) (connection c) (halted c) (transactions c) (activeTx c) (callbackRuns c)
    (closing c) (closed c) (outputs c ++ [o]).
Definition with_ex (x : executor) (c : client) : client :=
  Client_ x (next_owner c) (connecting c) (connection c) (halted c) (transactions c) (activeTx c) (callbackRuns c)
    (closing c) (closed c) (outputs c).
Definition set_connection (pending established : option nat) (c : client) : client :=
  Client_ (ex c) (next_owner c) pending established (halted c) (transactions c) (activeTx c) (callbackRuns c)
    (closing c) (closed c) (outputs c).
Definition set_transactions (n : nat) (t : option nat) (r : bool) (c : client) : client :=
  Client_ (ex c) (next_owner c) (connecting c) (connection c) (halted c) n t r (closing c) (closed c) (outputs c).
Definition set_closing (p : closing_phase) (b : bool) (c : client) : client :=
  Client_ (ex c) (next_owner c) (connecting c) (connection c) (halted c) (transactions c) (activeTx c) (callbackRuns c)
    (Some p) b (outputs c).

Section client.
Variable exact : bool.                            (* [exactCallbackGuard] *)
Variable throws : nat → bool.                     (* whether aborting a run throws *)

(** [#inCallback], called in the callback context [inside]: Node compares the
    context with the transaction's while its callback runs, React Native only
    knows that one runs. *)
Definition inCallback (inside : option nat) (c : client) : bool :=
  match activeTx c with
  | None => false
  | Some t => callbackRuns c && (negb exact || bool_decide (inside = Some t))
  end.
(** [#guard] *)
Definition guarded (writes : bool) (inside : option nat) (c : client) : bool := (writes || exact) && inCallback inside c.
Definition transactionActive : exn := Error "transaction_active".
(** [#task], and the calls that submit one behind the guard *)
Definition task (writes : bool) (inside : option nat) (command : list (string * value)) (c : client) : client :=
  if guarded writes inside c then say (RefusedCall transactionActive) c else say (Task command) c.

(** [halt] *)
Definition halt (owner : nat) (c : client) : client :=
  let c := with_ex (uninstall throws owner (ex c)) c in
  Client_ (ex c) (next_owner c) (connecting c) (if bool_decide (connection c = Some owner) then None else connection c)
    (owner :: halted c) (transactions c) (activeTx c) (callbackRuns c) (closing c) (closed c) (outputs c).
(** [connect] up to its task.  [valid] is whether [server] has a url and a token;
    [network] what [createServerConnection] throws. *)
Definition connect (inside : option nat) (valid : bool) (network : option exn) (directTimeoutMs : value) (refreshAuth : bool)
    (c : client) : client :=
  guard! negb (closed c || bool_decide (closing c ≠ None)) else say (RefusedCall (Error "client_closed")) c;
  guard! negb (guarded false inside c) else say (RefusedCall transactionActive) c;
  guard! bool_decide (connecting c = None) && bool_decide (connection c = None)
    else say (RefusedCall (Error "connection already active")) c;
  guard! valid else say (RefusedCall (Error "connect requires server: {url, token}")) c;
  match directTimeout directTimeoutMs, network with
  | Throw e, _ | Ok _, Some e => say (RefusedCall e) c
  | Ok millis, None =>
      let owner := next_owner c in
      let c := with_ex (startConnection owner refreshAuth (ex c)) c in
      say (ConnectTask owner millis refreshAuth)
        (Client_ (ex c) (S owner) (Some owner) (connection c) (halted c) (transactions c) (activeTx c) (callbackRuns c)
           (closing c) (closed c) (outputs c))
  end.
(** The connect task settled *)
Definition connected (refused : option exn) (c : client) : client :=
  match connecting c with
  | None => c
  | Some owner =>
      match refused with
      | Some e => say (RefusedCall e) (set_connection None (connection c) (with_ex (uninstall throws owner (ex c)) c))
      | None => set_connection None (Some owner) c
      end
  end.
(** [pause], [resume], [wake] of a connection *)
Definition control (inside : option nat) (owner : nat) (event : string) (c : client) : client :=
  if bool_decide (owner ∈ halted c) then c
  else if guarded false inside c then say (RefusedCall transactionActive) c
  else say (ControlTask owner event) c.
Definition closeConnection (inside : option nat) (owner : nat) (c : client) : client :=
  if bool_decide (owner ∈ halted c) then c
  else if guarded false inside c then say (RefusedCall transactionActive) c
  else say (ControlTask owner "stop") (halt owner c).
(** Whether [connect] has answered the connection's handle: only then can it be used *)
Definition hasHandle (owner : nat) (c : client) : bool :=
  Nat.leb FIRST_CONNECTION owner && Nat.ltb owner (next_owner c) && negb (bool_decide (connecting c = Some owner)).
(** A report of the runtime for a connection: [ended] is [halt] once it is established *)
Definition reported (owner : nat) (d : diagnostic) (hears : option (nat → option thrown)) (c : client) : client :=
  let established := bool_decide (connection c = Some owner) in
  let heard := bool_decide (owner ∈ listening (ex c)) in
  let c := with_ex (report throws owner d established hears (ex c)) c in
  match d with
  | RefusedReport _ _ _ =>
      if heard && established then
        Client_ (ex c) (next_owner c) (connecting c) None (owner :: halted c) (transactions c) (activeTx c) (callbackRuns c)
          (closing c) (closed c) (outputs c)
      else c
  | _ => c
  end.

(** [close] and [#finishClose] *)
Definition close (c : client) : client :=
  let c := say CallsClosed c in
  match closing c with
  | Some _ => c
  | None =>
      let first := negb (Nat.eqb (transactions c) 0) in
      let c := if first then say BridgeClose c else c in
      set_closing (AwaitStarted first) (closed c) c
  end.
Definition closeResume (c : client) : client :=
  match closing c, connecting c with
  | Some (AwaitStarted first), None =>
      let c := match connection c with Some owner => halt owner c | None => c end in
      let c := if first then c else say BridgeClose c in
      set_closing AwaitBridge (closed c) c
  | _, _ => c
  end.
Definition bridgeClosed (c : client) : client :=
  match closing c with
  | Some AwaitBridge => say RuntimeEnded (set_closing ClosedDown true c)
  | _ => c
  end.

(** [transaction]: its admission, its callback and its settlement *)
Definition enter (inside : option nat) (c : client) : client :=
  if guarded false inside c then say (RefusedCall transactionActive) c
  else say TransactionTask (set_transactions (S (transactions c)) (activeTx c) (callbackRuns c) c).
Definition begins (t : nat) (c : client) : client := set_transactions (transactions c) (Some t) true c.
Definition callbackEnds (c : client) : client := set_transactions (transactions c) (activeTx c) false c.
Definition ends_ (t : nat) (c : client) : client :=
  set_transactions (transactions c) (if bool_decide (activeTx c = Some t) then None else activeTx c) (callbackRuns c) c.
Definition leave (c : client) : client := set_transactions (pred (transactions c)) (activeTx c) (callbackRuns c) c.

Inductive event :=
| Submit (writes : bool) (inside : option nat) (command : list (string * value))
| Connects (inside : option nat) (valid : bool) (network : option exn) (directTimeoutMs : value) (refreshAuth : bool)
| Connected (refused : option exn)
| Control (inside : option nat) (owner : nat) (event : string)
| CloseConnection (inside : option nat) (owner : nat)
| Reports (owner : nat) (d : diagnostic) (hears : option (nat → option thrown))
| Enter (inside : option nat)
| Begins (t : nat)
| CallbackEnds
| Ends (t : nat)
| Leave
| CloseClient
| CloseResume
| BridgeClosed
| Asks (k : kind) (effectId : string) (millis : Z) (s : started)
| Answers (n : nat) (p : platform)
| Cancels (effectId : string).
Definition step (c : client) (e : event) : client :=
  match e with
  | Submit writes inside command => task writes inside command c
  | Connects inside valid network directTimeoutMs refreshAuth => connect inside valid network directTimeoutMs refreshAuth c
  | Connected refused => connected refused c
  | Control inside owner event => if hasHandle owner c then control inside owner event c else c
  | CloseConnection inside owner => if hasHandle owner c then closeConnection inside owner c else c
  | Reports owner d hears => reported owner d hears c
  | Enter inside => enter inside c
  | Begins t => begins t c
  | CallbackEnds => callbackEnds c
  | Ends t => ends_ t c
  | Leave => leave c
  | CloseClient => close c
  | CloseResume => closeResume c
  | BridgeClosed => bridgeClosed c
  | Asks k effectId millis s => with_ex (handle k effectId millis s (ex c)) c
  | Answers n p => with_ex (platformAnswers n p (ex c)) c
  | Cancels effectId => with_ex (cancel throws effectId (ex c)) c
  end.
Definition run (events : list event) : client := foldl step newClient events.
End client.
