(* ===== verification/ClientFacts.v ===== *)
(** What the client releases: a watch that stopped is silent and given back, and a
    connection that ended, or a client that closed, leaves no platform work. *)
From S2P Require Import Prelude Text Json Actions Executor ExecutorFacts Client.
Open Scope nat_scope.
Open Scope axton_scope.

(** ** One observer *)
Section observer.
Import Observers.
Definition isUnwatch (o : output) : bool := match o with Unwatch _ => true | _ => false end.
(** What an observer may still do once it stopped *)
Definition parting (o : output) : Prop := match o with Unwatch _ | Detached _ => True | _ => False end.
Definition unwatches (l : list output) : nat := length (filter (λ o, isUnwatch o = true) l).
#[local] Arguments unwatches : simpl never.
Lemma unwatches_snoc l o : unwatches (l ++ [o]) = unwatches l + if isUnwatch o then 1 else 0.
Proof.
  unfold unwatches. rewrite filter_app, length_app. destruct (isUnwatch o) eqn:Ho.
  - by rewrite filter_cons_True.
  - by rewrite filter_cons_False by congruence.
Qed.
Record Watched (s : observer) : Prop := {
  w_count : unwatches (outputs s) = if unwatching s then 1 else 0;
  w_unwatching : unwatching s = true → stopped s = true ∧ registered s ≠ None;
  w_stopped : stopped s = true → registered s ≠ None → unwatching s = true ∨ route s = None;
  w_route : route s ≠ None → route s = registered s;
  w_told : ∀ id, Unwatch id ∈ outputs s → registered s = Some id }.

Lemma watched_say o s : isUnwatch o = false → Watched s → Watched (say o s).
Proof.
  intros Ho []. split; cbn; try done; [by rewrite unwatches_snoc, Ho, Nat.add_0_r|].
  intros id [?|Hx]%elem_of_app; [auto|]. apply list_elem_of_singleton in Hx. by subst.
Qed.
Lemma watched_stop s : Watched s → Watched (stop s).
Proof.
  intros Hw. unfold stop. destruct (stopped s) eqn:Hs; [done|]. destruct Hw as [Hc Hu Hst Hr Ht]. unfold unwatch. cbn.
  destruct (registered s) as [id|] eqn:Hreg.
  - assert (unwatching s = false) as Hf by (destruct (unwatching s); [destruct (Hu eq_refl); congruence|done]).
    split; cbn; try done; [by rewrite unwatches_snoc, Hc, Hf|by left|].
    intros j [Hj%Ht|Hj]%elem_of_app; [congruence|]. apply list_elem_of_singleton in Hj. congruence.
  - split; cbn; rewrite ?Hreg; try done. intros H. destruct (Hu H). congruence.
Qed.
Lemma watched_stopIf b s : Watched s → Watched (stopIf b s).
Proof. destruct b; [apply watched_stop|done]. Qed.
Lemma watched_fail e b s : Watched s → Watched (fail e b s).
Proof.
  intros Hw. unfold fail. assert (Watched (stopIf (stops b) (say (Failed e) s))) by by apply watched_stopIf, watched_say.
  destruct (throws b); [by apply watched_say|done].
Qed.
Lemma watched_terminal closed s :
  (closed = true → stopped s = true) → Watched s → Watched (terminal closed s).
Proof.
  intros Hcl []. unfold terminal. destruct closed; [|done]. split; cbn; try done. by right.
Qed.
Lemma watched_registers id s : Watched s → Watched (registers id s).
Proof.
  intros Hw. unfold registers. destruct (registered s) eqn:Hreg; [done|]. destruct (refused s); [done|].
  destruct Hw as [Hc Hu Hst Hr Ht].
  assert (unwatching s = false) as Hf by (destruct (unwatching s); [by destruct (Hu eq_refl)|done]).
  assert (∀ j, Unwatch j ∉ outputs s) as Hno by (intros j Hj; specialize (Ht j Hj); congruence).
  destruct (stopped s) eqn:Hs; cbn.
  - split; cbn; try done; [by rewrite unwatches_snoc, Hc, Hf|auto|].
    intros j [Hj|Hj]%elem_of_app; [by destruct (Hno j)|]. apply list_elem_of_singleton in Hj. congruence.
  - split; cbn; try done; [congruence|]. intros j Hj. by destruct (Hno j).
Qed.
Lemma watched_step s e : Watched s → Watched (step s e).
Proof.
  intros Hw. destruct e as [id|e b|closed picked recovers listener onError|e b| |]; cbn.
  - by apply watched_registers.
  - unfold refuses. destruct (registered s) eqn:Hreg; [done|]. destruct (refused s); [done|].
    set (s1 := Observer _ _ _ _ _ _). assert (Watched s1) by (subst s1; rewrite <- Hreg; destruct Hw; by split).
    change (stopped s1) with (stopped s). destruct (stopped s); [done|by apply watched_fail].
  - destruct (route s) as [id|] eqn:Hroute.
    2: { unfold snapshot. rewrite Hroute. unfold terminal. destruct closed; [|done]. destruct Hw. split; cbn; try done. by right. }
    unfold snapshot. rewrite Hroute. destruct (stopped s) eqn:Hs; [by apply watched_terminal|].
    destruct closed.
    { destruct Hw as [Hc Hu Hst Hr Ht]. split; cbn; try done; [|by right]. intros H. by destruct (Hu H). }
    apply watched_terminal; [done|]. destruct picked as [[v|]|e].
    + assert (Watched (stopIf (stops listener) (say (Heard v) s))) by by apply watched_stopIf, watched_say.
      destruct (throws listener); [by apply watched_fail|done].
    + done.
    + assert (Watched (fail e onError s)) by by apply watched_fail. case_if; [by apply watched_say|done].
  - destruct (registered s); [|done]. destruct (stopped s); [done|by apply watched_fail].
  - by apply watched_stop.
  - unfold detach. destruct (registered s) as [id|] eqn:Hreg; [|done]. destruct (unwatching s) eqn:Hu; [|done].
    destruct Hw as [Hc Hun Hst Hr Ht]. split; cbn; rewrite ?Hreg; try done.
    + rewrite unwatches_snoc, Hc, Hu. done.
    + intros _. rewrite Hu in Hun. destruct (Hun eq_refl). done.
    + by right.
    + intros j [Hj|Hj]%elem_of_app; [rewrite <- Hreg; auto|]. by apply list_elem_of_singleton in Hj.
Qed.
Lemma watched_run command events : Watched (run command events).
Proof.
  unfold run. assert (Watched (observe command)) as H by (split; cbn; try done; set_solver).
  revert H. generalize (observe command). induction events as [|e events IH]; intros s Hs; cbn; [done|].
  by apply IH, watched_step.
Qed.
Lemma stopped_step s e :
  stopped s = true → stopped (step s e) = true ∧ ∃ l, outputs (step s e) = outputs s ++ l ∧ Forall parting l.
Proof.
  intros Hs. assert (stopped s = true ∧ ∃ l, outputs s = outputs s ++ l ∧ Forall parting l) as Hsame.
  { split; [done|]. exists []. by rewrite app_nil_r. }
  destruct e as [id|e b|closed picked recovers listener onError|e b| |]; cbn.
  - unfold registers. destruct (registered s); [done|]. destruct (refused s); [done|]. cbn. rewrite Hs. cbn.
    split; [done|]. exists [Unwatch id]. split; [done|]. by repeat constructor.
  - unfold refuses. destruct (registered s); [done|]. destruct (refused s); [done|]. cbn. destruct (stopped s) eqn:E; [|congruence]. split; [done|apply Hsame].
  - assert (snapshot closed picked recovers listener onError s = s) as ->
      by (unfold snapshot; destruct (route s); [by rewrite Hs|done]). destruct closed; [|done]. split; [done|apply Hsame].
  - destruct (registered s); [|done]. destruct (stopped s) eqn:E; [|congruence]. split; [done|apply Hsame].
  - unfold stop. destruct (stopped s) eqn:E; [|congruence]. split; [done|apply Hsame].
  - unfold detach. destruct (registered s) as [id|]; [|done]. destruct (unwatching s); [|done].
    split; [done|]. exists [Detached id]. split; [done|]. by repeat constructor.
Qed.
Lemma stopped_run events s :
  stopped s = true → ∃ l, outputs (foldl step s events) = outputs s ++ l ∧ Forall parting l.
Proof.
  revert s. induction events as [|e events IH]; intros s Hs; cbn; [exists []; by rewrite app_nil_r|].
  destruct (stopped_step s e Hs) as (Hs' & l & Hl & Hp). destruct (IH _ Hs') as (l' & Hl' & Hp').
  exists (l ++ l'). split; [by rewrite Hl', Hl, app_assoc|]. by apply Forall_app.
Qed.

(** C32: A watch, whenever it is stopped - before its registration answered, while it
    is told a snapshot, by its own listener or by its error handler - and whatever
    the runtime publishes: once stopped, neither its listener nor its error
    handler hears anything and no new snapshot is asked for.  The runtime is told
    to end the observer at most once, with the observer's own identifier, and
    only for a stopped watch; a stopped watch that was registered was told so, or
    the runtime had already ended it.  Snapshots are heard only of the observer
    registered. *)
Theorem observer_released command events after :
  let s := run command events in
  (stopped s = true →
     ∃ l, outputs (run command (events ++ after)) = outputs s ++ l ∧ Forall parting l) ∧
  unwatches (outputs s) ≤ 1 ∧
  (∀ id, Unwatch id ∈ outputs s → stopped s = true ∧ registered s = Some id) ∧
  (∀ id, stopped s = true → registered s = Some id → Unwatch id ∈ outputs s ∨ route s = None) ∧
  (∀ id, route s = Some id → registered s = Some id).
Proof.
  intros s. pose proof (watched_run command events) as [Hc Hu Hst Hr Ht]. fold s in Hc, Hu, Hst, Hr, Ht.
  assert (unwatching s = true ↔ ∃ id, Unwatch id ∈ outputs s) as Hex.
  { unfold unwatches in Hc. destruct (unwatching s).
    - split; [intros _|done]. destruct (filter _ (outputs s)) as [|o l] eqn:Hf; [done|].
      assert (o ∈ filter (λ o, isUnwatch o = true) (outputs s)) as Ho by (rewrite Hf; by left).
      apply list_elem_of_filter in Ho as [Ho Hin]. destruct o; try done. eauto.
    - split; [done|]. intros [id Hid]. apply nil_length_inv in Hc.
      assert (Unwatch id ∈ filter (λ o, isUnwatch o = true) (outputs s)) as H by by apply list_elem_of_filter.
      rewrite Hc in H. set_solver. }
  split; [|split; [|split; [|split]]].
  - intros Hs. unfold run. rewrite foldl_app. by apply stopped_run.
  - rewrite Hc. destruct (unwatching s); lia.
  - intros id Hid. split; [|auto]. apply Hu, Hex. eauto.
  - intros id Hs Hid. destruct (Hst Hs) as [Hw|?]; [congruence| |by right]. left.
    apply Hex in Hw as [j Hj]. specialize (Ht j Hj). congruence.
  - intros id Hid. rewrite <- Hr; congruence.
Qed.
End observer.

(** ** The client *)
Section client.
Variable exact : bool.
Variable throws : nat → bool.
Abbreviation step := (Client.step exact throws).
Abbreviation run := (Client.run exact throws).

(** The client's effects are a run of the executor. *)
Definition askedBy (events : list event) : list string :=
  omap (λ e, match e with Asks _ effectId _ _ => Some effectId | _ => None end) events.
Lemma say_ex o c : ex (say o c) = ex c. Proof. done. Qed.
Lemma executor_step c e :
  (ex (step c e) = ex c ∧ askedBy [e] = []) ∨
  ∃ e', ex (step c e) = Executor.step throws (ex c) e' ∧ askedBy [e] = asked [e'].
Proof.
  assert (∀ owner, Executor.step throws (ex c) (Uninstall owner) = uninstall throws owner (ex c)) as Hun by done.
  destruct e as [w i command|i valid network ms auth|refused|i owner ev|i owner|owner d hears|i|t| |t| | | | |k id ms s|n p|id]; cbn.
  - left. unfold task. by case_if.
  - unfold connect. repeat (case_if; [|by left]). destruct (directTimeout ms); [|by left].
    destruct network; [by left|]. right. by exists (Connect (next_owner c) auth).
  - unfold connected. destruct (connecting c) as [owner|]; [|by left]. destruct refused; [|by left].
    right. by exists (Uninstall owner).
  - left. unfold control. by repeat case_if.
  - case_if; [|by left]. unfold closeConnection. repeat (case_if; [by left|]). right. by exists (Uninstall owner).
  - right. exists (Report owner d (bool_decide (connection c = Some owner)) hears). split; [|done].
    unfold reported. destruct d; try done. by case_if.
  - left. unfold enter. by case_if.
  - by left.
  - by left.
  - by left.
  - by left.
  - left. unfold close. destruct (closing (say CallsClosed c)); [done|]. by case_if.
  - unfold closeResume. destruct (closing c) as [[first| |]|]; try by left. destruct (connecting c); [by left|].
    destruct (connection c) as [owner|]; [right; exists (Uninstall owner)|left]; by destruct first.
  - left. unfold bridgeClosed. by destruct (closing c) as [[| |]|].
  - right. by exists (Ask k id ms s).
  - right. by exists (Platform n p).
  - right. by exists (CancelEffect id).
Qed.
Lemma client_snoc events e : run (events ++ [e]) = step (run events) e.
Proof. unfold Client.run. by rewrite foldl_snoc. Qed.
Lemma executor_run events : ∃ es, ex (run events) = Executor.run throws es ∧ asked es = askedBy events.
Proof.
  induction events as [|e events IH] using rev_ind; [by exists [Prerequisites 1]|].
  destruct IH as (es & Hes & Ha). rewrite client_snoc.
  assert (askedBy (events ++ [e]) = askedBy events ++ askedBy [e]) as -> by apply omap_app.
  destruct (executor_step (run events) e) as [[He Hn]|(e' & He & Hn)].
  - exists es. rewrite He, Hn, app_nil_r. done.
  - exists (es ++ [e']). rewrite effects_run_snoc, asked_app, He, Hes, Ha, Hn. done.
Qed.
Lemma client_good events : NoDup (askedBy events) → Good (ex (run events)).
Proof. intros Hn. destruct (executor_run events) as (es & -> & Ha). apply good_run. by rewrite Ha. Qed.

(** Who may hold handlers, listeners and effects *)
Definition owners (c : client) : list nat := option_list (connecting c) ++ option_list (connection c).
Definition held_by (x : executor) (allowed : nat → Prop) : Prop :=
  (∀ k o, (k, o) ∈ handlers x → allowed o) ∧ (∀ o, o ∈ listening x → allowed o) ∧
  (∀ p, p ∈ running x → allowed (r_owner p.2)).
Definition own (c : client) (o : nat) : Prop := o < FIRST_CONNECTION ∨ o ∈ owners c.
Record Tidy (c : client) : Prop := {
  t_held : held_by (ex c) (own c);
  t_one : connecting c ≠ None → connection c = None;
  t_closing : closing c = Some AwaitBridge ∨ closing c = Some ClosedDown → owners c = [];
  t_closed : closed c = true → closing c = Some ClosedDown;
  t_owners : ∀ o, o ∈ owners c → FIRST_CONNECTION ≤ o < next_owner c;
  t_halted : ∀ o, o ∈ halted c → o < next_owner c ∧ o ∉ owners c;
  t_next : FIRST_CONNECTION ≤ next_owner c }.

Lemma held_weaken x (P Q : nat → Prop) : (∀ o, P o → Q o) → held_by x P → held_by x Q.
Proof. intros HPQ (H1 & H2 & H3). split; [|split]; eauto. Qed.
Lemma answer_held id v f x P : held_by x P → held_by (answer id v f x) P.
Proof.
  intros (H1 & H2 & H3). unfold answer. destruct (fieldOf id (running x)); [|done].
  destruct f; split; cbn; auto. split; [auto|]. intros p [_ Hp]%removeKey_elem. auto.
Qed.
Lemma cancel_held id x P : held_by x P → held_by (cancel throws id x) P.
Proof.
  intros (H1 & H2 & H3).
  assert (handlers (cancel throws id x) = handlers x ∧ listening (cancel throws id x) = listening x) as [Hh Hl].
  { unfold cancel. destruct (fieldOf id (running x)) as [r|]; [|done]. destruct (abortable r); [by case_if|done]. }
  split; [by rewrite Hh|]. split; [by rewrite Hl|]. intros p Hp%cancel_running. apply H3, Hp.
Qed.
Lemma answerAll_held id l x P : held_by x P → held_by (answerAll id l x) P.
Proof.
  unfold answerAll. revert x. induction l as [|a l IH]; intros x Hx; cbn; [done|]. by apply IH, answer_held.
Qed.
Lemma giveAbort_held n x P : held_by x P → held_by (giveAbort n x) P.
Proof.
  intros (H1 & H2 & H3). split; [done|]. split; [done|]. intros p ([e q] & -> & Hq)%list_elem_of_fmap. cbn.
  unfold setAbort. case_if; cbn; by apply (H3 (e, q)).
Qed.
Lemma handle_held k id ms s x P : held_by x P → held_by (handle k id ms s x) P.
Proof.
  intros Hx. unfold handle, handlerOf.
  destruct (find (λ p, bool_decide (p.1 = k)) (handlers x)) as [[k' owner]|] eqn:Hf; cbn; [|done].
  apply find_some in Hf as [Hin _]. apply list_elem_of_In in Hin.
  match goal with |- context [answerAll id (sync s) ?y] => assert (held_by y P) as Hy end.
  { destruct Hx as (H1 & H2 & H3). split; [done|]. split; [done|]. intros p [->|Hp]%setField_elem; [|auto]. cbn. eauto. }
  apply (answerAll_held id (sync s)) in Hy. destruct (ends s); [by apply answer_held|].
  case_if; [by apply giveAbort_held|done].
Qed.
Lemma abort_fields owner x : handlers (abort throws owner x) = handlers x ∧ listening (abort throws owner x) = listening x.
Proof.
  unfold abort. generalize (running x). intros l. revert x. induction l as [|p l IH]; intros x; cbn; [done|].
  case_if; [|apply IH]. destruct (IH (cancel throws p.1 x)) as [-> ->].
  unfold cancel. destruct (fieldOf p.1 (running x)) as [r|]; [|done]. destruct (abortable r); [by case_if|done].
Qed.
(** An uninstall leaves nothing of its owner. *)
Lemma uninstall_held owner x P :
  NoDup (running x).*1 → held_by x P → held_by (uninstall throws owner x) (λ o, P o ∧ o ≠ owner).
Proof.
  intros Hn (H1 & H2 & H3). unfold uninstall. set (y := Executor _ _ _ _ _).
  destruct (abort_fields owner y) as [Hh Hl]. split; [|split].
  - rewrite Hh. intros k o [Ho Hin]%list_elem_of_filter. split; [eauto|exact Ho].
  - rewrite Hl. intros o [Ho Hin]%list_elem_of_filter. split; [eauto|exact Ho].
  - intros p Hp. apply (abort_running throws owner y) in Hp; [|done]. destruct Hp as [Hp Ho]. split; [by apply H3|done].
Qed.
Lemma hear_held hears errors x P : held_by x P → held_by (hear hears errors x) P.
Proof.
  intros Hx. unfold hear. destruct hears as [h|]; [|done]. revert x Hx. generalize (zip (seq 0 (length errors)) errors).
  induction l as [|p l IH]; intros x Hx; cbn; [done|]. apply IH. by destruct (h p.1).
Qed.
Lemma report_held owner d halts hears x P :
  NoDup (running x).*1 → held_by x P →
  held_by (report throws owner d halts hears x)
    (λ o, P o ∧ (owner ∈ listening x → halts = true → (∃ m n b, d = RefusedReport m n b) → o ≠ owner)).
Proof.
  intros Hn Hx. unfold report. case_bool_decide as Hl; [|by eapply held_weaken; [|exact Hx]].
  assert (held_by (match d with
    | RefusedReport _ _ _ => if halts then uninstall throws owner (emit Ended x) else emit Ended x | _ => x end)
    (λ o, P o ∧ (owner ∈ listening x → halts = true → (∃ m n b, d = RefusedReport m n b) → o ≠ owner))) as Hy.
  { destruct d; try (eapply held_weaken; [|exact Hx]; intros o Ho; split; [done|]; by intros _ _ (? & ? & ? & ?)).
    destruct halts; [|eapply held_weaken; [|exact Hx]; by intros o Ho].
    eapply held_weaken; [|by apply (uninstall_held owner (emit Ended x) P)]. intros o [? ?]. by split. }
  destruct hears; [|done]. destruct (errorsOf d); [by apply hear_held|done].
Qed.

Lemma owners_connection c o : o ∈ owners c ↔ connecting c = Some o ∨ connection c = Some o.
Proof.
  unfold owners. rewrite elem_of_app. destruct (connecting c), (connection c); cbn; rewrite ?elem_of_nil, ?list_elem_of_singleton; naive_solver.
Qed.
Lemma tidy_same c c' :
  ex c' = ex c → next_owner c' = next_owner c → connecting c' = connecting c → connection c' = connection c →
  halted c' = halted c → closing c' = closing c → closed c' = closed c → Tidy c → Tidy c'.
Proof.
  intros H1 H2 H3 H4 H5 H6 H7 [].
  assert (owners c' = owners c) as Ho by (unfold owners; by rewrite H3, H4).
  split; unfold own; rewrite ?Ho, ?H1, ?H2, ?H3, ?H4, ?H5, ?H6, ?H7; done.
Qed.
Lemma tidy_say o c : Tidy c → Tidy (say o c).
Proof. by apply tidy_same. Qed.
Lemma tidy_ex x c : held_by x (own c) → Tidy c → Tidy (with_ex x c).
Proof. intros Hx []. by split. Qed.
(** The end of a connection that has a handle. *)
Lemma tidy_halt owner c :
  NoDup (running (ex c)).*1 → owner < next_owner c → connecting c ≠ Some owner → Tidy c →
  Tidy (halt throws owner c) ∧ (connection c = Some owner → connecting c = None → owners (halt throws owner c) = []).
Proof.
  intros Hn Hlt Hc [].
  assert (∀ o, o ∈ owners (halt throws owner c) ↔ o ∈ owners c ∧ (connection c = Some o → o ≠ owner)) as Ho.
  { intros o. rewrite !owners_connection. cbn. case_bool_decide as Hd; [rewrite Hd|]; split; naive_solver. }
  split.
  - split; try done.
    + cbn. eapply held_weaken; [|by apply uninstall_held]. intros o [[Hlow|Hin] Hne]; [by left|right].
      apply Ho. split; [done|]. by intros _.
    + cbn. intros H. by rewrite (t_one0 H), bool_decide_false.
    + intros H. specialize (t_closing0 H). apply elem_of_nil_inv. intros o Hx%Ho. rewrite t_closing0 in Hx. set_solver.
    + intros o [Hx _]%Ho. by apply t_owners0.
    + cbn. intros o [->|Hin]%elem_of_cons.
      * split; [done|]. rewrite Ho, owners_connection. naive_solver.
      * destruct (t_halted0 o Hin). split; [done|]. rewrite Ho. naive_solver.
  - intros H1 H2. apply elem_of_nil_inv. intros o [Hx Hne]%Ho. apply owners_connection in Hx. naive_solver.
Qed.
Lemma setHandlers_held owner kinds l (P : nat → Prop) :
  P owner → (∀ k o, (k, o) ∈ l → P o) → ∀ k o, (k, o) ∈ foldl (setHandler owner) l kinds → P o.
Proof.
  intros Hown. revert l. induction kinds as [|k kinds IH]; intros l Hl; cbn; [done|]. apply IH.
  intros j o. unfold setHandler. rewrite elem_of_app, list_elem_of_filter, list_elem_of_singleton. intros [[_ Hin]|Hx]; [eauto|by simplify_eq].
Qed.
Lemma tidy_connect inside valid network ms auth c : Tidy c → Tidy (connect exact inside valid network ms auth c).
Proof.
  intros Ht. unfold connect. destruct (closed c || bool_decide (closing c ≠ None)) eqn:Hcl; cbn; [by apply tidy_say|].
  destruct (guarded exact false inside c); cbn; [by apply tidy_say|].
  destruct (bool_decide (connecting c = None)) eqn:H1; cbn; [|by apply tidy_say].
  destruct (bool_decide (connection c = None)) eqn:H2; cbn; [|by apply tidy_say].
  apply bool_decide_eq_true in H1, H2. destruct valid; [|by apply tidy_say].
  destruct (directTimeout ms) as [millis|]; [|by apply tidy_say]. destruct network; [by apply tidy_say|]. apply tidy_say.
  apply orb_false_iff in Hcl as [Hcl Hcg%bool_decide_eq_false].
  destruct Ht as [(Hh & Hl & Hr) Hone Hclosing Hclosed Hown Hhalt Hnext].
  assert (owners c = []) as Hnil by (unfold owners; by rewrite H1, H2).
  set (c' := Client_ _ _ _ _ _ _ _ _ _ _ _).
  assert (owners c' = [next_owner c]) as Ho by (unfold owners, c'; cbn; by rewrite H2).
  assert (∀ o, own c o → own c' o) as Hsub by (intros o [?|Hx]; [by left|]; rewrite Hnil in Hx; set_solver).
  assert (own c' (next_owner c)) as Hnew by (right; rewrite Ho; by left).
  split.
  - split; [|split].
    + change (handlers (ex c')) with (foldl (setHandler (next_owner c)) (handlers (ex c)) (kinds_of auth)).
      apply (setHandlers_held _ _ _ _ Hnew). intros k o Hin. eapply Hsub, Hh, Hin.
    + change (listening (ex c')) with (listening (ex c) ++ [next_owner c]). intros o [Hin|Hx]%elem_of_app; [by apply Hsub, Hl|]. apply list_elem_of_singleton in Hx. by subst.
    + intros p Hp. by apply Hsub, Hr.
  - done.
  - cbn. destruct (closing c); [by destruct Hcg|]. by intros [|].
  - cbn. congruence.
  - intros o. rewrite Ho. intros ->%list_elem_of_singleton. cbn. split; [done|lia].
  - intros o Hin. destruct (Hhalt o Hin) as [Hlt _]. rewrite Ho. cbn. split; [lia|]. intros ->%list_elem_of_singleton. lia.
  - cbn. lia.
Qed.
Lemma tidy_connected refused c : NoDup (running (ex c)).*1 → Tidy c → Tidy (connected throws refused c).
Proof.
  intros Hn Ht. unfold connected. destruct (connecting c) as [owner|] eqn:Hc; [|done].
  assert (connection c = None) as Hnone by (apply Ht; congruence).
  destruct Ht as [Hheld Hone Hclosing Hclosed Hown Hhalt Hnext].
  assert (owners c = [owner]) as Ho by (unfold owners; by rewrite Hc, Hnone).
  assert (closing c = Some AwaitBridge ∨ closing c = Some ClosedDown → False) as Hopen.
  { intros H. specialize (Hclosing H). rewrite Ho in Hclosing. done. }
  destruct refused as [e|].
  - apply tidy_say. set (c' := set_connection _ _ _).
    assert (owners c' = []) as Ho' by (unfold owners, c'; cbn; by rewrite Hnone).
    split; try done.
    + eapply held_weaken; [|by apply uninstall_held]. intros o [[?|Hin] Hne]; [by left|].
      rewrite Ho in Hin. apply list_elem_of_singleton in Hin. done.
    + intros o. rewrite Ho'. set_solver.
    + intros o Hin. split; [by apply Hhalt|]. rewrite Ho'. set_solver.
  - set (c' := set_connection _ _ _). assert (owners c' = [owner]) as Ho' by done.
    split; try done.
    + eapply held_weaken; [|exact Hheld]. intros o. unfold own. by rewrite Ho, Ho'.
    + intros o. rewrite Ho'. rewrite <- Ho. apply Hown.
    + intros o Hin. rewrite Ho', <- Ho. by apply Hhalt.
Qed.
Lemma tidy_reported owner d hears c :
  NoDup (running (ex c)).*1 → Tidy c → Tidy (reported throws owner d hears c).
Proof.
  intros Hn Ht. pose proof (report_held owner d (bool_decide (connection c = Some owner)) hears _ _ Hn (t_held c Ht)) as Hr.
  set (x := report throws owner d (bool_decide (connection c = Some owner)) hears (ex c)) in *.
  assert (Tidy (with_ex x c)) as Hw.
  { apply tidy_ex; [|done]. eapply held_weaken; [|exact Hr]. by intros o [? _]. }
  unfold reported. fold x. destruct d as [| | |m st b]; try done. case_if; [|done].
  match goal with H : _ && _ = true |- _ => apply andb_true_iff in H as [Hin%bool_decide_eq_true He] end.
  apply bool_decide_eq_true in He as Hc. rewrite Hc in Hr.
  assert (connecting c = None) as Hcn.
  { destruct (connecting c) eqn:E; [|done]. assert (connection c = None) by (apply Ht; congruence). congruence. }
  destruct Hw as [Hheld Hone Hclosing Hclosed Hown Hhalt Hnext]. set (c' := Client_ _ _ _ _ _ _ _ _ _ _ _).
  assert (owners c' = []) as Ho' by (unfold owners, c'; cbn; by rewrite Hcn).
  assert (owners c = [owner]) as Ho by (unfold owners; by rewrite Hcn, Hc).
  split; try done.
  - eapply held_weaken; [|exact Hr]. cbn. intros o [[?|Hx] Hne]; [by left|]. rewrite Ho in Hx.
    apply list_elem_of_singleton in Hx. destruct (Hne Hin); [by apply bool_decide_eq_true|eauto|done].
  - intros o. rewrite Ho'. set_solver.
  - intros o. rewrite Ho'. intros [->|Hx]%elem_of_cons; [|split; [by apply Hhalt|set_solver]].
    split; [|set_solver]. apply (Hown owner). unfold owners, with_ex. cbn. rewrite Hcn, Hc. by left.
Qed.
Lemma tidy_step c e : NoDup (running (ex c)).*1 → Tidy c → Tidy (step c e).
Proof.
  intros Hn Ht.
  destruct e as [w i command|i valid network ms auth|refused|i owner ev|i owner|owner d hears|i|t| |t| | | | |k id ms s|n p|id]; cbn.
  - unfold task. case_if; by apply tidy_say.
  - by apply tidy_connect.
  - by apply tidy_connected.
  - case_if; [|done]. unfold control. repeat case_if; try done; by apply tidy_say.
  - destruct (hasHandle owner c) eqn:Hh; [|done]. unfold closeConnection. case_if; [done|]. case_if; [by apply tidy_say|]. apply tidy_say.
    unfold hasHandle in Hh. apply andb_true_iff in Hh as [[_ Hlt%Nat.ltb_lt]%andb_true_iff Hc%negb_true_iff%bool_decide_eq_false].
    by apply tidy_halt.
  - by apply tidy_reported.
  - unfold enter. case_if; [by apply tidy_say|by apply tidy_same with c].
  - by apply tidy_same with c.
  - by apply tidy_same with c.
  - by apply tidy_same with c.
  - by apply tidy_same with c.
  - unfold close. destruct (closing (say CallsClosed c)) eqn:Hcl; [by apply tidy_say|]. cbn in Hcl.
    assert (∀ c1, Tidy c1 → closing c1 = None → Tidy (set_closing (AwaitStarted (negb (Nat.eqb (transactions c) 0))) (closed c) c1)) as H.
    { intros c1 [] H1. split; try done; cbn; [by intros [|]|]. intros Hd. rewrite (t_closed c Ht Hd) in Hcl. done. }
    cbn. case_if; apply H; try done; repeat apply tidy_say; done.
  - unfold closeResume. destruct (closing c) as [[first| |]|] eqn:Hcl; try done. destruct (connecting c) eqn:Hcn; [done|].
    set (c1 := match connection c with Some owner => halt throws owner c | None => c end).
    assert (Tidy c1 ∧ owners c1 = [] ∧ closed c1 = closed c) as (H1 & H2 & H3).
    { subst c1. destruct (connection c) as [owner|] eqn:Hc.
      - destruct (tidy_halt owner c Hn) as [Hx Hy]; [apply (t_owners c Ht), owners_connection; by right|congruence|done|]. auto.
      - split; [done|]. unfold owners. by rewrite Hcn, Hc. }
    assert (closed c = false) as Hopen.
    { destruct (closed c) eqn:E; [|done]. rewrite (t_closed c Ht E) in Hcl. done. }
    clearbody c1. set (c2 := if first then c1 else say BridgeClose c1).
    assert (Tidy c2 ∧ owners c2 = [] ∧ closed c2 = closed c) as (H4 & H5 & H6) by (subst c2; destruct first; auto using tidy_say).
    clearbody c2. destruct H4. split; try done. cbn. congruence.
  - unfold bridgeClosed. destruct (closing c) as [[| |]|] eqn:Hcl; try done. apply tidy_say.
    assert (owners c = []) as Ho by (apply Ht; by left). destruct Ht. by split.
  - apply tidy_ex; [|done]. apply handle_held, Ht.
  - apply tidy_ex; [|done]. unfold platformAnswers. destruct (runs (ex c) !! n) as [[e k]|]; [|apply Ht].
    destruct (outcomeOf k p) as [[o f]|]; [apply answer_held|]; apply Ht.
  - apply tidy_ex; [|done]. apply cancel_held, Ht.
Qed.
Lemma tidy_new : Tidy newClient.
Proof.
  assert (owners newClient = []) as Ho by done.
  split; try done; rewrite ?Ho; try set_solver.
  split; [|split]; [|cbn; set_solver..]. intros k o Hin. left. unfold FIRST_CONNECTION.
  change (handlers (ex newClient)) with [(Timer, 0); (Prerequisite, 1)] in Hin.
  rewrite !elem_of_cons, elem_of_nil in Hin. naive_solver lia.
Qed.
Lemma askedBy_app l l' : askedBy (l ++ l') = askedBy l ++ askedBy l'.
Proof. apply omap_app. Qed.
Lemma tidy_run events : NoDup (askedBy events) → Tidy (run events).
Proof.
  induction events as [|e events IH] using rev_ind; [intros _; apply tidy_new|].
  rewrite askedBy_app, NoDup_app. intros (Hn & _). rewrite client_snoc. apply tidy_step; [|auto].
  apply client_good in Hn as [Hi _]. apply Hi.
Qed.
Lemma closed_step c e : closed c = true → closed (step c e) = true.
Proof.
  intros Hc. assert (∀ o x, closed (say o x) = closed x) as Hs by done.
  destruct e as [w i command|i valid network ms auth|refused|i owner ev|i owner|owner d hears|i|t| |t| | | | |k id ms s|n p|id]; cbn; try done.
  - unfold task. by case_if.
  - unfold connect. rewrite Hc. done.
  - unfold connected. destruct (connecting c); [|done]. by destruct refused.
  - case_if; [|done]. unfold control. by repeat case_if.
  - case_if; [|done]. unfold closeConnection. by repeat case_if.
  - unfold reported. destruct d; try done. by case_if.
  - unfold enter. by case_if.
  - unfold close. destruct (closing (say CallsClosed c)); [done|]. cbn. by case_if.
  - unfold closeResume. destruct (closing c) as [[first| |]|]; try done. destruct (connecting c); [done|].
    destruct (connection c), first; done.
  - unfold bridgeClosed. by destruct (closing c) as [[| |]|].
Qed.
End client.

(** C19: Whatever the application, the runtime and the platform do, at most one
    connection is being established or active at a time, and only it has effect
    handlers, a report listener or running platform work: a connection that was
    closed, or that the server refused, has none.  Once the client's close
    settled no connection has any, none can be established again, and it stays so. *)
Theorem client_releases exact throws events after :
  NoDup (askedBy (events ++ after)) →
  let c := run exact throws events in
  let c' := run exact throws (events ++ after) in
  length (owners c) ≤ 1 ∧
  held_by (ex c) (own c) ∧
  (∀ owner, owner ∈ halted c → owner ∉ owners c) ∧
  (closed c = true →
     closed c' = true ∧ connecting c' = None ∧ connection c' = None ∧
     held_by (ex c') (λ owner, owner < FIRST_CONNECTION)).
Proof.
  intros Hn c c'. assert (NoDup (askedBy events)) as Hn1 by (rewrite askedBy_app in Hn; apply NoDup_app in Hn; apply Hn).
  pose proof (tidy_run exact throws _ Hn1) as Ht. pose proof (tidy_run exact throws _ Hn) as Ht'. fold c in Ht. fold c' in Ht'.
  split; [|split; [apply Ht|split; [by intros owner Ho; apply Ht|]]].
  - unfold owners. destruct (connecting c) eqn:Hc, (connection c) eqn:Hd; cbn; try lia.
    assert (connection c = None) by (apply Ht; congruence). congruence.
  - intros Hcl.
    assert (closed c' = true) as Hcl'.
    { assert (c' = foldl (step exact throws) c after) as -> by (unfold c', c, run; by rewrite foldl_app).
      revert Hcl. generalize c. clear. induction after as [|e after IH]; intros c Hc; cbn; [done|].
      by apply IH, closed_step. }
    assert (owners c' = []) as Ho by (apply Ht'; right; by apply Ht').
    split; [done|]. unfold owners in Ho. apply app_nil in Ho as [H1 H2].
    destruct (connecting c') eqn:E1, (connection c') eqn:E2; try done. split; [done|]. split; [done|].
    eapply held_weaken; [|apply Ht']. intros o [?|Hin]; [done|]. unfold owners in Hin. rewrite E1, E2 in Hin. set_solver.
Qed.
(** A client that connects, is refused admission, connects again and closes. *)
Definition refused_run : list event :=
  [Connects None true None VUndef false; Connected None; Asks SocketKind "s" 0 (Started [] None);
   Reports 2 (RefusedReport "update required" 426 VNull) None;
   Connects None true None VUndef true; Connected None; Asks Http "h" 0 (Started [] None); CloseClient].
Lemma client_releases_witness :
  let events := refused_run ++ [CloseResume; BridgeClosed] in
  let c := run true (λ _, false) events in
  NoDup (askedBy (events ++ [Connects None true None VUndef false])) ∧ closed c = true ∧
  owners (run true (λ _, false) refused_run) = [3] ∧ halted c = [3; 2] ∧ held_by (ex c) (λ owner, owner < FIRST_CONNECTION).
Proof.
  cbv zeta. set (events := refused_run ++ [CloseResume; BridgeClosed]).
  assert (NoDup (askedBy (events ++ []))) as Hn by (vm_compute; repeat constructor; set_solver).
  split; [vm_compute; repeat constructor; set_solver|]. split; [reflexivity|]. split; [reflexivity|]. split; [reflexivity|].
  destruct (client_releases true (λ _, false) events [] Hn) as (_ & _ & _ & Hc). destruct (Hc eq_refl) as (_ & _ & _ & Hh).
  exact Hh.
Defined.
