(* ===== verification/Contexts.v ===== *)
(** Async contexts: the [AsyncLocalStorage]s of
    [frontend/client-js/api/transaction.mts], with [runCallback] and [inCallback].

    The other files give each call the context it is made in -- [inside] of
    [Client], [context] of [Transactions]; here those are computed.  A place is an
    async context: code that runs in it, and every continuation of that code, sees
    its stores.  [run] makes a new place under the one it is called in; [disable]
    empties a storage everywhere, as the platform documents it. *)
From S2P Require Import Prelude.
From S2P Require Transactions Client.
Open Scope nat_scope.
Open Scope axton_scope.

(** [callbackOwner] of the module; [#publicContext] and [#context] of a transaction *)
Inductive storage := CallbackOwner | PublicContext (tx : nat) | SavepointContext (tx : nat).
#[export] Instance storage_eq_dec : EqDecision storage.
Proof. solve_decision. Defined.
(** What a place was made for; [Outside] is a caller of its own. *)
Inductive purpose := Outside | Body (tx : nat) | Scope (tx t : nat).
#[export] Instance purpose_eq_dec : EqDecision purpose.
Proof. solve_decision. Defined.
Record place := Place { made_for : list purpose; stores : list (storage * nat) }.
Record world := World {
  places : list place;
  transactions : nat;                            (* created so far *)
  savepoints : nat;                              (* the [Frame] tokens made so far *)
  disabled : list storage }.
Definition newWorld : world := World [] 0 0 [].

(** The transaction's [#publicToken], an object of its own *)
Definition TOKEN : nat := 0.
Definition stored (s : storage) (l : list (storage * nat)) : option nat := snd <$> head (filter (λ e, e.1 = s) l).
(** [getStore()] in a place *)
Definition getStore (w : world) (c : nat) (s : storage) : option nat :=
  if bool_decide (s ∈ disabled w) then None else p ← places w !! c; stored s (stores p).
(** [run(...)]: the stores of the new place, over those of the caller's *)
Definition within (c : nat) (why : purpose) (l : list (storage * nat)) (w : world) : world :=
  match places w !! c with
  | Some p => World (places w ++ [Place (why :: made_for p) (l ++ stores p)]) (transactions w) (savepoints w) (disabled w)
  | None => w
  end.
(** [#runTransactionBody] makes the transaction and calls [runCallback]. *)
Definition runCallback (c : nat) (w : world) : world :=
  let tx := transactions w in
  let w := within c (Body tx) [(PublicContext tx, TOKEN); (CallbackOwner, tx)] w in
  World (places w) (S tx) (savepoints w) (disabled w).
(** Its [finally] *)
Definition callbackEnds (tx : nat) (w : world) : world :=
  World (places w) (transactions w) (savepoints w) (disabled w ++ [PublicContext tx]).
(** [savepoint] *)
Definition enterSavepoint (c tx : nat) (w : world) : world :=
  let t := savepoints w in
  let w := within c (Scope tx t) [(SavepointContext tx, t)] w in
  World (places w) (transactions w) (S t) (disabled w).
Definition inCallback (tx c : nat) (w : world) : bool :=
  bool_decide (getStore w c (PublicContext tx) = Some TOKEN).
(** What the checks of a transaction read: [#foreign], and [#context.getStore()] *)
Definition contextOf (tx c : nat) (w : world) : Transactions.context :=
  Transactions.Context_
    match getStore w c CallbackOwner with Some owner => negb (Nat.eqb owner tx) | None => false end
    (getStore w c (SavepointContext tx)).
(** The context the client's guard is given *)
Definition insideOf (c : nat) (w : world) : option nat := getStore w c CallbackOwner.

Inductive event :=
| Caller                                         (* code in no callback *)
| RunCallback (c : nat)
| CallbackEnds (tx : nat)
| Savepoint (c tx : nat).
Definition step (w : world) (e : event) : world :=
  match e with
  | Caller => World (places w ++ [Place [Outside] []]) (transactions w) (savepoints w) (disabled w)
  | RunCallback c => runCallback c w
  | CallbackEnds tx => if tx <? transactions w then callbackEnds tx w else w
  | Savepoint c tx => if tx <? transactions w then enterSavepoint c tx w else w
  end.
Definition run (l : list event) : world := foldl step newWorld l.

(** * What the contexts mean *)

(** The stores a purpose pushed *)
Definition pushed (why : purpose) : list (storage * nat) :=
  match why with
  | Outside => []
  | Body tx => [(PublicContext tx, TOKEN); (CallbackOwner, tx)]
  | Scope tx t => [(SavepointContext tx, t)]
  end.
(** The callback and, for a transaction, the savepoint that enclose a place most
    closely *)
Definition callbackAt (l : list purpose) : option nat := head (omap (λ why, match why with Body tx => Some tx | _ => None end) l).
Definition savepointAt (tx : nat) (l : list purpose) : option nat :=
  head (omap (λ why, match why with Scope u t => if Nat.eqb u tx then Some t else None | _ => None end) l).
Record traced (w : world) : Prop := {
  t_stores c p : places w !! c = Some p → stores p = concat (pushed <$> made_for p);
  t_bodies c p tx : places w !! c = Some p → Body tx ∈ made_for p → tx < transactions w;
  (* a callback is newer than those around it *)
  t_outer c p tx u l k : places w !! c = Some p → made_for p = l ++ Body tx :: k → Body u ∈ k → u < tx;
  t_disabled s : s ∈ disabled w → ∃ tx, s = PublicContext tx }.

Lemma within_lookup c why l w c' p :
  places (within c why l w) !! c' = Some p →
  places w !! c' = Some p ∨
  ∃ q, places w !! c = Some q ∧ p = Place (why :: made_for q) (l ++ stores q).
Proof.
  unfold within. destruct (places w !! c) as [q|]; [|by left]. cbn [places].
  intros [Hp|[Hlen Hp]]%lookup_app_Some; [by left|].
  destruct (c' - length (places w)); [|done]. injection Hp as <-. right. by exists q.
Qed.
Lemma stored_app s l k : stored s (l ++ k) = match stored s l with Some v => Some v | None => stored s k end.
Proof. unfold stored. rewrite filter_app. by destruct (filter (λ e, e.1 = s) l). Qed.
Lemma stored_owner l : stored CallbackOwner (concat (pushed <$> l)) = callbackAt l.
Proof. induction l as [|[] l IH]; [done|..]; cbn; exact IH || done. Qed.
Lemma stored_savepoint tx l : stored (SavepointContext tx) (concat (pushed <$> l)) = savepointAt tx l.
Proof.
  induction l as [|why l IH]; [done|]. cbn [fmap list_fmap concat]. rewrite stored_app, IH.
  unfold savepointAt. destruct why as [|u|u t]; cbn; [done..|]. unfold stored. rewrite filter_cons. cbn.
  destruct (Nat.eqb_spec u tx) as [->|Hne]; [by rewrite decide_True|]. by rewrite decide_False by congruence.
Qed.
Lemma stored_public tx l : stored (PublicContext tx) (concat (pushed <$> l)) = Some TOKEN ↔ Body tx ∈ l.
Proof.
  induction l as [|why l IH]; [split; [done|by intros ?%elem_of_nil]|]. cbn [fmap list_fmap concat].
  rewrite stored_app, elem_of_cons. destruct why as [|u|u t]; cbn.
  - rewrite IH. intuition congruence.
  - unfold stored at 1. rewrite !filter_cons. cbn. rewrite (decide_False (P := CallbackOwner = _)) by done.
    destruct (decide (PublicContext u = PublicContext tx)) as [[= ->]|Hne]; cbn; [by intuition|]. rewrite IH. intuition congruence.
  - unfold stored at 1. rewrite filter_cons. cbn. rewrite decide_False by done. cbn. rewrite IH. intuition congruence.
Qed.

(** A place made under another: its purpose is new, or a savepoint. *)
Definition fresh (why : purpose) (w : world) : Prop :=
  match why with Body tx => tx = transactions w | Scope _ _ => True | Outside => False end.
Lemma within_traced c why n m w :
  traced w → fresh why w → (∀ tx, why = Body tx → tx < n) → transactions w ≤ n →
  traced (World (places (within c why (pushed why) w)) n m (disabled w)).
Proof.
  intros T Hf Hn Hle. split; cbn [places transactions disabled].
  - intros c' p [Hp|(q & Hq & ->)]%within_lookup; [by apply (t_stores w T c')|].
    cbn. by rewrite (t_stores w T _ _ Hq).
  - intros c' p tx [Hp|(q & Hq & ->)]%within_lookup Hin; [pose proof (t_bodies w T _ _ _ Hp Hin); lia|].
    cbn in Hin. apply elem_of_cons in Hin as [<-|Hin]; [by apply Hn|]. pose proof (t_bodies w T _ _ _ Hq Hin). lia.
  - intros c' p tx u l k [Hp|(q & Hq & ->)]%within_lookup Hm Hu; [by apply (t_outer w T c' p tx u l k)|]. cbn in Hm.
    destruct l as [|x l]; injection Hm as -> Hm.
    + cbn in Hf. subst tx. apply (t_bodies w T _ _ _ Hq). by rewrite Hm.
    + by apply (t_outer w T c q tx u l k).
  - apply (t_disabled w T).
Qed.
Lemma step_traced w e : traced w → traced (step w e).
Proof.
  intros T. destruct e as [|c|tx|c tx]; cbn [step].
  - split; cbn.
    + intros c p [Hp|[_ Hp]]%lookup_app_Some; [by apply (t_stores w T c)|].
      by destruct (c - _); [injection Hp as <-|].
    + intros c p tx [Hp|[_ Hp]]%lookup_app_Some Hin; [by apply (t_bodies w T c p)|].
      destruct (c - _); [injection Hp as <-|done]. cbn in Hin. by apply list_elem_of_singleton in Hin.
    + intros c p tx u l k [Hp|[_ Hp]]%lookup_app_Some Hm Hu; [by apply (t_outer w T c p tx u l k)|].
      destruct (c - _); [injection Hp as <-|done]. cbn in Hm. by destruct l as [|? [|]].
    + apply (t_disabled w T).
  - unfold runCallback. assert (disabled (within c (Body (transactions w)) [(PublicContext (transactions w), TOKEN);
      (CallbackOwner, transactions w)] w) = disabled w) as -> by (unfold within; by case_match).
    apply (within_traced c (Body (transactions w))); [done|done|intros tx [= <-]; lia|lia].
  - case_match; [|done]. split; try apply T. cbn. intros s [Hs| ->%list_elem_of_singleton]%elem_of_app; [by apply T|eauto].
  - case_match; [|done]. unfold enterSavepoint.
    assert (disabled (within c (Scope tx (savepoints w)) [(SavepointContext tx, savepoints w)] w) = disabled w) as ->
      by (unfold within; by case_match).
    assert (transactions (within c (Scope tx (savepoints w)) [(SavepointContext tx, savepoints w)] w) = transactions w) as ->
      by (unfold within; by case_match).
    by apply (within_traced c (Scope tx (savepoints w))).
Qed.
Lemma run_traced l : traced (run l).
Proof.
  unfold run. assert (traced newWorld) as H by (split; cbn; try done; intros s Hs; by apply elem_of_nil in Hs).
  revert H. generalize newWorld. induction l as [|e l IH]; intros w H; [done|]. cbn. by apply IH, step_traced.
Qed.

(** What the storages answer is where the code was started.  A place is in a
    transaction's callback when it descends from its body, until the body settled;
    a call is foreign when another transaction's body encloses it more closely; and
    the savepoint it is in is the closest one of that transaction around it. *)
Theorem contexts_exact l c p tx :
  places (run l) !! c = Some p →
  (inCallback tx c (run l) = true ↔ Body tx ∈ made_for p ∧ PublicContext tx ∉ disabled (run l)) ∧
  Transactions.foreign (contextOf tx c (run l)) =
    match callbackAt (made_for p) with Some owner => negb (Nat.eqb owner tx) | None => false end ∧
  Transactions.inside (contextOf tx c (run l)) = savepointAt tx (made_for p).
Proof.
  intros Hp. pose proof (run_traced l) as T. pose proof (t_stores _ T _ _ Hp) as Hs.
  assert (∀ s, (∀ u, s ≠ PublicContext u) → getStore (run l) c s = stored s (concat (pushed <$> made_for p))) as Hg.
  { intros s Hne. unfold getStore. rewrite bool_decide_false by (intros Hin; by destruct (t_disabled _ T _ Hin) as [u ->]; apply (Hne u)).
    rewrite Hp. cbn. by rewrite Hs. }
  split; [|split].
  - unfold inCallback, getStore. rewrite bool_decide_eq_true. case_bool_decide as Hd; [split; [done|by intros []]|].
    rewrite Hp. cbn. rewrite Hs, stored_public. tauto.
  - unfold contextOf. cbn. rewrite Hg by done. by rewrite stored_owner.
  - unfold contextOf. cbn. rewrite Hg by done. by rewrite stored_savepoint.
Qed.
Lemma callbackAt_Some l tx : callbackAt l = Some tx → ∃ a b, l = a ++ Body tx :: b ∧ callbackAt a = None.
Proof.
  induction l as [|why l IH]; [done|]. destruct why as [|u|u t]; cbn.
  - intros Hl. destruct (IH Hl) as (a & b & -> & Ha). exists (Outside :: a), b. by split.
  - intros [= ->]. by exists [], l.
  - intros Hl. destruct (IH Hl) as (a & b & -> & Ha). exists (Scope u t :: a), b. by split.
Qed.
Lemma callbackAt_None l tx : callbackAt l = None → Body tx ∉ l.
Proof.
  induction l as [|why l IH]; cbn; [by intros _ ?%elem_of_nil|]. intros Hl [<-|Hin]%elem_of_cons; [done|].
  by destruct why; try done; apply IH.
Qed.
(** The client's guard compares one callback with the active one; for the newest
    transaction, which is the active one, that is [inCallback]. *)
Theorem inCallback_guard l c p tx :
  places (run l) !! c = Some p → transactions (run l) = S tx →
  inCallback tx c (run l) =
  negb (bool_decide (PublicContext tx ∈ disabled (run l))) && bool_decide (insideOf c (run l) = Some tx).
Proof.
  intros Hp Ht. pose proof (run_traced l) as T. destruct (contexts_exact l c p tx Hp) as (Hin & _ & _).
  assert (insideOf c (run l) = callbackAt (made_for p)) as ->.
  { unfold insideOf, getStore. rewrite bool_decide_false by (intros Hd; by destruct (t_disabled _ T _ Hd)).
    rewrite Hp. cbn. by rewrite (t_stores _ T _ _ Hp), stored_owner. }
  apply eq_bool_prop_intro. rewrite !Is_true_true, andb_true_iff, negb_true_iff, bool_decide_eq_false, bool_decide_eq_true, Hin.
  assert (Body tx ∈ made_for p ↔ callbackAt (made_for p) = Some tx) as ->; [|tauto].
  split.
  - intros Hb. destruct (callbackAt (made_for p)) as [u|] eqn:Hu; [|by destruct (callbackAt_None _ tx Hu)].
    apply callbackAt_Some in Hu as (a & b & Hm & Ha). rewrite Hm in Hb.
    apply elem_of_app in Hb as [Hb|[[= ->]|Hb]%elem_of_cons]; [by destruct (callbackAt_None _ tx Ha)|done|].
    pose proof (t_outer _ T _ _ _ _ _ _ Hp Hm Hb). assert (u < transactions (run l)); [|lia].
    apply (t_bodies _ T _ _ u Hp). rewrite Hm. set_solver.
  - intros (a & b & -> & _)%callbackAt_Some. set_solver.
Qed.
