(* ===== verification/ClientCalls.v ===== *)
(** Opening, direct calls, completions and Model watches of the client: [open],
    [bootstrap], the constructor's wiring, [invokeQuery], [fetchModel], [onActionCompletion], [#deliverCompletions] and [watchDecoded] of
    [frontend/client-js/api/runtime.mts], which join the guard of [Client], the
    errors of [Actions], its registry, and the receiver of [ModelWatch]. *)
From S2P Require Import Prelude Text Json Actions Executor Client.
From S2P Require Bridge ModelWatch.
Open Scope nat_scope.
Open Scope axton_scope.

(** ** Opening *)
(** The [open] request, completed by [Bridge.opened] *)
Definition openRequest (path : string) (schema : value) (stream : string) (generation : option string)
    (handlers : list string) : list (string * value) :=
  [("path", VStr path); ("schema", schema); ("stream", VStr stream);
   ("projectionGeneration", VStr (default "1"%string generation)); ("prerequisiteHandlers", VArr (VStr <$> handlers))].
(** What [open] answers, and whether it closed the client again.  [opened] and
    [connected] are the settlements of the runtime's opening and of [connect]. *)
Definition open (connection : option (list (string * value))) (opened connected : result unit) : result unit * bool :=
  let identity := match connection with Some fields => bool_decide ("identity"%string ∈ fields.*1) | None => false end in
  if identity then (Throw (Error "connection identity is no longer supported"), false)
  else
    match opened, connection, connected with
    | Throw e, _, _ => (Throw e, false)
    | Ok _, Some _, Throw e => (Throw e, true)
    | Ok _, _, _ => (Ok tt, false)
    end.
(** [bootstrap]: of the handle of the client's own Stream *)
Definition bootstrap (refused : bool) (subscribed : result nat) (run : nat → result unit) : result unit :=
  if refused then Throw transactionActive else h ← subscribed; run h.

(** ** Direct calls

    One [await]: a call is refused at once, or submits a task and answers what it
    makes of the task's settlement. *)
Inductive awaiting :=
| Refuses (e : exn)
| Submits (command : list (string * value)) (continue : result value → result value).

(** The [outcome] of a direct task, as the runtime types it *)
Definition outcomeOfValue (v : value) : option direct_outcome :=
  if truthy v then
    Some (DirectOutcome (strictEq (get v "status") (VStr "failed")) (get v "result")
            (match get v "code" with VStr s => Some s | _ => None end)
            (match get v "execution" with VStr s => Some s | _ => None end))
  else None.
(** [({ outcome } = await task)] *)
Definition outcomeOfTask (task : result value) : result (option direct_outcome) :=
  v ← task; outcome ← dot v "outcome"; Ok (outcomeOfValue outcome).
(** [try { await } catch (error) { throw f(error) }] *)
Definition rethrow {A} (f : exn → exn) (r : result A) : result A := match r with Ok a => Ok a | Throw e => Throw (f e) end.

(** [#callAction]; the engine's own settlement reads no field. *)
Definition callAction (refused : bool) (name : string) (version args options : value)
    (k : result value → result value) : awaiting :=
  if refused then Refuses transactionActive
  else
    let store := match get options "store" with VUndef => None | s => Some s end in
    Submits (callCommand (Invoke name version args store)) (λ task, k (rethrow invokeError task)).
(** [#invokeQueryAttempt] *)
Definition invokeQueryAttempt (refused : bool) (name : string) (version args options : value)
    (decode : value → result value) : awaiting :=
  match callAction refused name version args options
          (λ task, outcome ← rethrow actionError (outcomeOfTask task); decodeOutcome outcome decode) with
  | Refuses e => Refuses (actionError e)
  | submits => submits
  end.
Definition invokeQuery (refused : bool) (name : string) (version args options : value)
    (decode : value → result value) : awaiting :=
  match assertQueryOptions options with
  | Throw e => Refuses e
  | Ok _ => invokeQueryAttempt refused name version args options decode
  end.
(** [fetchModel]: [cause] is the failure's own [cause], when it has one *)
Definition fetchModel (refused : bool) (model : string) (version identity options : value)
    (cause : exn → option exn) (decode : value → result value) : awaiting :=
  let fetchError e := fetchError (cause e) e in
  if refused then Refuses (fetchError transactionActive)
  else
    match fetchStore options with
    | Throw e => Refuses (fetchError e)
    | Ok store =>
        Submits (callCommand (Fetch model version identity store)) (λ task,
          outcome ← rethrow fetchError (outcomeOfTask task);
          decodeOutcome outcome (λ v, match v with VNull => Ok VNull | _ => decode v end))
    end.

(** ** Completions *)
Record completions := Completions {
  registry_ : registry;
  listeners : list nat;                          (* [#completionListeners], a Set *)
  heard : list (nat * string);                   (* listener, call *)
  reported_ : list exn }.
Section completions.
Variable lookup : bool.
Variable decode : nat → value → result value.
(** What a listener throws on a completion, and how it changes the set. *)
Variable hears : nat → string → option exn.
Variable during : nat → string → list nat → list nat.

Definition onActionCompletion (listener : nat) (s : completions) : completions :=
  Completions (registry_ s) (if decide (listener ∈ listeners s) then listeners s else listeners s ++ [listener])
    (heard s) (reported_ s).
Definition offActionCompletion (listener : nat) (s : completions) : completions :=
  Completions (registry_ s) (filter (λ l, l ≠ listener) (listeners s)) (heard s) (reported_ s).
Definition hear (callId : string) (s : completions) (listener : nat) : completions :=
  Completions (registry_ s) (during listener callId (listeners s)) (heard s ++ [(listener, callId)])
    (reported_ s ++ option_list (hears listener callId)).
(** Every handle is finished before the first listener is called; a listener that
    throws is reported, and the next ones are called. *)
Definition deliverCompletions (l : list (string * completion)) (s : completions) : completions :=
  let s := Completions (foldl (λ r p, complete decode p.1 p.2 r) (registry_ s) l) (listeners s) (heard s) (reported_ s) in
  foldl (λ s p, foldl (hear p.1) s (listeners s)) s l.
(** The constructor's listeners.  The runtime's event types name the two states of
    a transaction's Call and the two of an outcome. *)
Definition completionOf (outcome : value) : completion :=
  if strictEq (get outcome "status") (VStr "failed") then
    Failed_ (match get outcome "code" with VStr s => s | _ => EmptyString end)
      (if strictEq (get outcome "execution") (VStr "rejected") then Rejected else Unknown)
  else Succeeded_ (get outcome "result").
Definition bridgeEvent (e : Bridge.event) (s : completions) : completions :=
  match e with
  | Bridge.CallCompleted payload =>
      match get payload "callId" with
      | VStr callId => deliverCompletions [(callId, completionOf (get payload "outcome"))] s
      | _ => s
      end
  | Bridge.TransactionCallState payload =>
      match get payload "callId" with
      | VStr callId =>
          Completions (transition callId (strictEq (get payload "state") (VStr "committed")) (registry_ s))
            (listeners s) (heard s) (reported_ s)
      | _ => s
      end
  | _ => s
  end.
End completions.

(** ** Watching a Model *)
Section watching.
Context {T : Type}.
Variable decode : list (string * value) → result T.
Variable copy : T → result T.
Record watching := Watching { w_observer : Observers.observer; w_receiver : ModelWatch.receiver T }.
(** What the application's functions do when they are called *)
Variable toValue : list T → value.

Definition watchDecoded (model : string) (where_ : value) : watching :=
  Watching (Observers.observe (viewCommand (WatchModel model where_))) ModelWatch.newReceiver.
(** A snapshot of its observer: [receive] when it is not stopped or closed, and
    [recover] when that threw. *)
Definition watchSnapshot (snapshot : list (string * value)) (listener onError : Observers.behaviour)
    (w : watching) : watching :=
  let closed := truthy (ModelWatch.field snapshot "closed") in
  let o := w_observer w in
  match Observers.route o with
  | Some _ =>
      if Observers.stopped o || closed then
        Watching (Observers.step o (Observers.Snapshot closed (Ok None) false listener onError)) (w_receiver w)
      else
        match ModelWatch.receive decode copy snapshot (w_receiver w) with
        | (Ok rows, r) =>
            Watching (Observers.step o (Observers.Snapshot closed (Ok (toValue <$> rows)) false listener onError)) r
        | (Throw e, r) =>
            let '(again, r) := ModelWatch.recover r in
            Watching (Observers.step o (Observers.Snapshot closed (Throw e)
              (match again with Ok b => b | Throw _ => false end) listener onError)) r
        end
  | None => w
  end.
End watching.

(** * Theorems *)
Definition isCallError (e : exn) : Prop := ∃ code how cause, e = CallError code how cause.
Lemma actionError_call e : isCallError (actionError e).
Proof.
  unfold isCallError, actionError. destruct e; try case_if; by eexists _, _, _.
Qed.
Lemma decodeOutcome_answers outcome decode :
  match decodeOutcome outcome decode with
  | Ok v => ∃ o, outcome = Some o ∧ o_failed o = false ∧ decode (o_result o) = Ok v
  | Throw e => ∃ code how cause, e = CallError code how cause ∧
      (how = Rejected → ∃ o, outcome = Some o ∧ o_failed o = true ∧ o_execution o = Some "rejected"%string)
  end.
Proof.
  unfold decodeOutcome, observationFailed. destruct outcome as [o|]; [|by eexists _, _, _].
  destruct (o_failed o) eqn:Hf.
  - eexists _, _, _. split; [done|]. case_bool_decide; [eauto|done].
  - destruct (decode (o_result o)) eqn:Hd; [eauto|by eexists _, _, _].
Qed.
(** A Query answers its decoded result or rejects with a [CallError].  One that is
    refused before anything is sent was rejected; one whose task succeeded counts
    as rejected only when the outcome says so. *)
Theorem invokeQuery_answers refused name version args options decode :
  match invokeQuery refused name version args options decode with
  | Refuses e => ∃ code cause, e = CallError code Rejected (Some cause)
  | Submits command k =>
      refused = false ∧ ∀ task, match k task with
      | Ok v => ∃ o, outcomeOfTask task = Ok (Some o) ∧ o_failed o = false ∧ decode (o_result o) = Ok v
      | Throw e => isCallError e ∧ ∀ outcome code cause, outcomeOfTask task = Ok outcome → e = CallError code Rejected cause →
          ∃ o, outcome = Some o ∧ o_failed o = true ∧ o_execution o = Some "rejected"%string
      end
  end.
Proof.
  unfold invokeQuery. destruct (assertQueryOptions options) as [[]|e] eqn:Ho.
  2: { unfold assertQueryOptions, invalidOptions in Ho. destruct options; repeat case_match; try done; injection Ho as <-; eauto. }
  unfold invokeQueryAttempt, callAction. destruct refused; [by eexists _, _|]. split; [done|]. intros task.
  destruct task as [w|e]; cbn.
  - destruct (dot w "outcome") as [x|e]; cbn; [|split; [apply actionError_call|done]].
    pose proof (decodeOutcome_answers (outcomeOfValue x) decode) as H. destruct (decodeOutcome _ _) as [v|e].
    + destruct H as (o & -> & H). eauto.
    + destruct H as (code & how & cause & -> & H). split; [by eexists _, _, _|].
      intros outcome code' cause' [= <-] [= -> -> ->]. by apply H.
  - split; [apply actionError_call|done].
Qed.

Lemma hear_agrees hears1 hears2 during callId l s1 s2 :
  listeners s1 = listeners s2 → heard s1 = heard s2 → registry_ s1 = registry_ s2 →
  let t1 := foldl (hear hears1 during callId) s1 l in let t2 := foldl (hear hears2 during callId) s2 l in
  listeners t1 = listeners t2 ∧ heard t1 = heard t2 ∧ registry_ t1 = registry_ t2.
Proof.
  revert s1 s2. induction l as [|x l IH]; intros s1 s2 H1 H2 H3; [done|]. cbn. apply IH; cbn; congruence.
Qed.
(** What a listener throws changes nothing of what is delivered: every handle is
    completed, and the same listeners hear the same completions. *)
Lemma deliverCompletions_isolated decode hears during l s :
  let s' := deliverCompletions decode hears during l s in
  registry_ s' = foldl (λ r p, complete decode p.1 p.2 r) (registry_ s) l ∧
  heard s' = heard (deliverCompletions decode (λ _ _, None) during l s).
Proof.
  cbv zeta. unfold deliverCompletions. set (s0 := Completions _ _ _ _).
  change (foldl (λ r p, complete decode p.1 p.2 r) (registry_ s) l) with (registry_ s0).
  assert (∀ l s1 s2, listeners s1 = listeners s2 → heard s1 = heard s2 → registry_ s1 = registry_ s2 →
    let t1 := foldl (λ s (p : string * completion), foldl (hear hears during p.1) s (listeners s)) s1 l in
    let t2 := foldl (λ s (p : string * completion), foldl (hear (λ _ _, None) during p.1) s (listeners s)) s2 l in
    registry_ t1 = registry_ s1 ∧ heard t1 = heard t2) as H; [|by apply (H l s0 s0)].
  clear. induction l as [|p l IH]; intros s1 s2 H1 H2 H3; [done|]. cbn. rewrite H1.
  destruct (hear_agrees hears (λ _ _, None) during p.1 (listeners s2) s1 s2 H1 H2 H3) as (E1 & E2 & E3).
  assert (∀ k s, registry_ (foldl (hear hears during p.1) s k) = registry_ s) as Hr.
  { induction k as [|x k IHk]; intros s'; [done|]. cbn. by rewrite IHk. }
  destruct (IH _ _ E1 E2 E3) as [F1 F2]. split; [|done]. rewrite F1. apply Hr.
Qed.

(** A Model watch that lost a delivery asks for one new snapshot: until a whole one
    is accepted it asks for no other. *)
Definition isResnapshot (o : Observers.output) : bool := match o with Observers.Resnapshot _ => true | _ => false end.
Definition resnapshots (o : Observers.observer) : nat := length (List.filter isResnapshot (Observers.outputs o)).
Lemma fail_resnapshots e b o : resnapshots (Observers.fail e b o) = resnapshots o.
Proof.
  unfold resnapshots, Observers.fail, Observers.stopIf, Observers.stop, Observers.unwatch.
  destruct (Observers.stops b), (Observers.throws b); cbn; repeat case_match; cbn;
    rewrite ?List.filter_app; cbn; rewrite ?app_nil_r; done.
Qed.
Lemma snapshot_resnapshots closed picked recovers listener onError o :
  resnapshots (Observers.step o (Observers.Snapshot closed picked recovers listener onError)) ≤
    resnapshots o + (if recovers then 1 else 0).
Proof.
  cbn [Observers.step]. assert (∀ x, resnapshots (Observers.terminal closed x) = resnapshots x) as Ht.
  { intros x. unfold Observers.terminal. by case_if. }
  rewrite Ht. unfold Observers.snapshot. destruct (Observers.route o); [|apply Nat.le_add_r].
  case_if; [apply Nat.le_add_r|]. case_if; [apply Nat.le_add_r|].
  assert (∀ e b x, resnapshots (match e with Some e => Observers.fail e b x | None => x end) = resnapshots x) as Hf.
  { intros [e|] b x; [apply fail_resnapshots|done]. }
  assert (∀ v x, resnapshots (Observers.say (Observers.Heard v) x) = resnapshots x) as Hs.
  { intros v x. unfold resnapshots. cbn. by rewrite List.filter_app, app_nil_r. }
  assert (∀ b x, resnapshots (Observers.stopIf b x) = resnapshots x) as Hi.
  { intros b x. unfold resnapshots, Observers.stopIf, Observers.stop, Observers.unwatch.
    repeat case_match; cbn; rewrite ?List.filter_app; cbn; by rewrite ?app_nil_r. }
  destruct picked as [[v|]|e]; [rewrite Hf, Hi, Hs; apply Nat.le_add_r|apply Nat.le_add_r|].
  destruct recovers; cbn [andb]; [|rewrite fail_resnapshots; lia].
  case_if; [|rewrite fail_resnapshots; lia]. rewrite <- (fail_resnapshots e onError o).
  unfold resnapshots. cbn. rewrite List.filter_app, length_app. cbn. lia.
Qed.
Lemma snapshot_silent closed picked listener onError o :
  resnapshots (Observers.step o (Observers.Snapshot closed picked false listener onError)) ≤ resnapshots o.
Proof. etransitivity; [apply snapshot_resnapshots|apply Nat.eq_le_incl, Nat.add_0_r]. Qed.
(** While a watch recovers it asks for no further snapshot, and it goes on
    recovering unless a whole snapshot was accepted. *)
Theorem watch_recovers_once {T} (decode : list (string * value) → result T) copy toValue snapshot listener onError (w : watching) :
  ModelWatch.recovering (w_receiver w) = true →
  let w' := watchSnapshot decode copy toValue snapshot listener onError w in
  resnapshots (w_observer w') ≤ resnapshots (w_observer w) ∧
  (ModelWatch.recovering (w_receiver w') = true ∨ ModelWatch.has "rows" snapshot = true).
Proof.
  intros Hr. cbv zeta. unfold watchSnapshot. destruct (Observers.route _); [|by auto].
  case_if; cbn [w_observer w_receiver].
  { split; [|by left]. apply snapshot_silent. }
  destruct (ModelWatch.receive decode copy snapshot (w_receiver w)) as [[rows|e] r] eqn:Hv; cbn [w_observer w_receiver].
  - split; [apply snapshot_silent|]. unfold ModelWatch.receive in Hv.
    destruct (strictEq _ _); [injection Hv as _ <-; by left|]. rewrite Hr in Hv. cbn [andb] in Hv.
    destruct (ModelWatch.has "rows" snapshot); [by right|]. injection Hv as _ <-. by left.
  - assert (ModelWatch.recovering r = true) as Hrec
      by (unfold ModelWatch.receive in Hv; rewrite Hr in Hv; repeat case_match; try done; by injection Hv as _ <-).
    unfold ModelWatch.recover. rewrite Hrec. cbn [w_observer w_receiver].
    split; [apply snapshot_silent|by left].
Qed.
