(* ===== verification/Callbacks.v ===== *)
(** The application's transactions end to end: [transaction] and
    [#runTransactionBody] of [frontend/client-js/api/runtime.mts], over the guard
    of [Client], the routes and callbacks of [Bridge] and the handle of
    [Transactions].

    A transaction is asked for with a task; the runtime answers by asking for the
    callback, whose commands travel as tasks of their own; the callback's end is
    answered to the runtime, and the runtime's answer to the first task settles
    the call.  Any number of calls, the rest of the client and the runtime
    interleave, one [step] each.  The command a handle sends is handed to the
    bridge in the same step, and settles as the bridge settled its request. *)
From S2P Require Import Prelude Text Json Effects.
From S2P Require Bridge Transactions Client.
Open Scope nat_scope.
Open Scope axton_scope.

Abbreviation reason := Transactions.reason.
Abbreviation settlement := Transactions.settlement.

(** ** One call of [transaction] *)
Inductive phase :=
| Waiting                                        (* for the runtime to ask for the callback *)
| InBody                                         (* [await tx.runCallback(...)] *)
| BodyDone (how : settlement)
| Finishing (v : value)                          (* [await tx.finish()] *)
| Catching (n : nat) (r : reason)                (* [await tx.finish().catch(...)] *)
| Returned (how : settlement)                    (* [#runTransactionBody] settled *)
| Answered (how : settlement).                   (* and the bridge answered the effect *)
Record call := Call_ {
  request : option string;                       (* its task, when the bridge took it *)
  effect : string * string;                      (* the effect and the transaction it is asked for with *)
  history : list Transactions.event;             (* what happened to its handle *)
  sent : list (nat * option string);             (* the requests of its commands *)
  c_phase : phase;
  answer : option (result value) }.
Record world := World { client : Client.client; bridge : Bridge.bridge; calls : list call }.
Definition newWorld (b : Bridge.bridge) : world := World Client.newClient b [].

Definition set_phase (p : phase) (c : call) : call := Call_ (request c) (effect c) (history c) (sent c) p (answer c).
Definition set_history (l : list Transactions.event) (c : call) : call :=
  Call_ (request c) (effect c) l (sent c) (c_phase c) (answer c).
Definition with_call (k : nat) (f : call → call) (w : world) : world := World (client w) (bridge w) (alter f k (calls w)).
Definition with_bridge (b : Bridge.bridge) (w : world) : world := World (client w) b (calls w).
Definition with_client (c : Client.client) (w : world) : world := World c (bridge w) (calls w).

(** The handle: the client passes it the port for Mutations. *)
Definition handle (c : call) : Transactions.transaction := Transactions.run true (history c).
Definition happens (e : Transactions.event) (c : call) : call := set_history (history c ++ [e]) c.
(** What a Promise rejects with, as the bridge retains it. *)
Definition exnOf (r : reason) : exn :=
  match r with
  | Transactions.Undefined => Thrown VUndef
  | Transactions.Rejection _ e => e
  | Transactions.Own _ m => Error m
  end.
(** [result], assigned when [#runTransactionBody] resolved *)
Definition resultOf (c : call) : value := match c_phase c with Answered (inl v) => v | _ => VUndef end.

(** ** What the bridge's log says *)
Definition settledWith (r : string) (l : list Bridge.output) : option (result value) :=
  head (omap (λ o, match o with Bridge.Settled r' o => if String.eqb r r' then Some o else None | _ => None end) l).
(** The settlement of a task's Promise; one the bridge never took rejects at once. *)
Definition outcomeOf (r : option string) (b : Bridge.bridge) : option (result value) :=
  match r with
  | Some r => settledWith r (Bridge.output_log b)
  | None => Some (Throw (Error "client_closed"))
  end.
(** What [started] resolved to: the first time the callback was asked for. *)
Definition startOf (r : string) (l : list Bridge.output) : string * string :=
  default (EmptyString, EmptyString) (head (omap (λ o,
    match o with Bridge.Start r' e t None => if String.eqb r r' then Some (e, t) else None | _ => None end) l)).

Section world.
Variable exact : bool.                           (* [exactCallbackGuard] *)
Variable throws : nat → bool.                    (* whether aborting a run throws *)
Variable refuses : list Bridge.output → value → option exn.
Variable listener : nat → Bridge.output → list Bridge.api * option exn.
Variable registers : nat.                        (* the hook that registers a Call *)
Variable describe : reason → string.             (* [describe(error)] *)

(** The request a routed call of the bridge gets *)
Definition requestOf (b : Bridge.bridge) : option string :=
  if Bridge.closing b || Bridge.closed b then None else Some (pretty (Bridge.issued b + 1)%Z).

(** [transaction] up to its [await] *)
Definition transact (inside : option nat) (w : world) : world :=
  let c := Client.enter exact inside (client w) in
  if Client.guarded exact false inside (client w) then
    World c (bridge w) (calls w ++ [Call_ None (EmptyString, EmptyString) [] [] Waiting
                                      (Some (Throw Client.transactionActive))])
  else
    World c (Bridge.call refuses Bridge.Transaction (bridge w))
      (calls w ++ [Call_ (requestOf (bridge w)) (EmptyString, EmptyString) [] [] Waiting None]).
(** Its Promise settled: [transactions--], and the answer. *)
Definition settles (k : nat) (w : world) : world :=
  match calls w !! k with
  | None => w
  | Some c =>
      match answer c, outcomeOf (request c) (bridge w) with
      | None, Some o =>
          let a := match o with Ok _ => Ok (resultOf c) | Throw e => Throw e end in
          with_client (Client.leave (client w))
            (with_call k (λ c, Call_ (request c) (effect c) (history c) (sent c) (c_phase c) (Some a)) w)
      | _, _ => w
      end
  end.

(** ** [#runTransactionBody] *)
(** The continuation of [started]: unless the transaction was refused meanwhile,
    a new handle becomes the active one and the callback is called. *)
Definition willRun (r : string) (b : Bridge.bridge) : bool :=
  match Bridge.callbackOf r false b with
  | Some c => Bridge.started c && negb (Bridge.resumed c) && Bridge.mayRun r false b
  | None => false
  end.
Definition begins (k : nat) (w : world) : world :=
  match calls w !! k with
  | Some (Call_ (Some r) _ _ _ Waiting _) =>
      let w' := with_bridge (Bridge.begin r false (bridge w)) w in
      if willRun r (bridge w) then
        with_client (Client.begins k (client w))
          (with_call k (λ c, Call_ (request c) (startOf r (Bridge.output_log (bridge w))) (history c) (sent c) InBody
                               (answer c)) w')
      else w'
  | _ => w
  end.
(** The callback settled, and [runCallback] gives its context up. *)
Definition bodyEnds (k : nat) (how : settlement) (w : world) : world :=
  match c_phase <$> calls w !! k with
  | Some InBody =>
      with_client (if bool_decide (Client.activeTx (client w) = Some k) then Client.callbackEnds (client w) else client w)
        (with_call k (set_phase (BodyDone how)) w)
  | _ => w
  end.
(** [tx.finish()] is called: after a result, or in [catch]. *)
Definition catches (r : reason) (c : call) : call :=
  let c := happens Transactions.Finish c in set_phase (Catching (Transactions.count (handle c)) r) c.
Definition finishes (k : nat) (w : world) : world :=
  match c_phase <$> calls w !! k with
  | Some (BodyDone (inl v)) => with_call k (λ c, set_phase (Finishing v) (happens Transactions.Finish c)) w
  | Some (BodyDone (inr r)) => with_call k (catches r) w
  | _ => w
  end.
(** What that [finish] answers; [finally] gives the active handle up. *)
Definition returns (k : nat) (how : settlement) (w : world) : world :=
  with_client (Client.ends_ k (client w)) (with_call k (set_phase (Returned how)) w).
Definition finishResumes (k : nat) (w : world) : world :=
  match calls w !! k with
  | None => w
  | Some c =>
      match c_phase c with
      | Finishing v =>
          let w' := with_call k (happens Transactions.FinishResume) w in
          match Transactions.finished (handle (happens Transactions.FinishResume c)) with
          | None => w
          | Some (inl _) => returns k (inl v) w'
          | Some (inr r) => with_call k (catches r) w'
          end
      | Catching n r => if Transactions.drained n (Transactions.accounts (handle c)) then returns k (inr r) w else w
      | _ => w
      end
  end.
(** The callback the bridge started settled: it answers the effect. *)
Definition answers (k : nat) (w : world) : world :=
  match calls w !! k with
  | Some (Call_ (Some r) (e, t) _ _ (Returned how) _) =>
      let outcome := match how with inl _ => Ok [] | inr r => Throw (exnOf r) end in
      let error := match how with inl _ => EmptyString | inr r => describe r end in
      with_bridge (Bridge.finish refuses r e t None outcome error (bridge w)) (with_call k (set_phase (Answered how)) w)
  | _ => w
  end.

(** ** The handle's commands *)
(** [transactionCommand], or [submitMutation] with the hook that registers its Call *)
Definition apiOf (t : string) (scope : option string) (command : list (string * value)) : Bridge.api :=
  match fieldOf "kind" command with
  | Some (VStr kind) =>
      if String.eqb kind "submitMutation" then
        Bridge.SubmitMutation t scope command
          (match fieldOf "local" command with Some _ => true | None => false end) (Some registers)
      else Bridge.TransactionCommand t scope command
  | _ => Bridge.TransactionCommand t scope command
  end.
Definition send (k : nat) (t : string) (w : world) (e : Transactions.entry) : world :=
  match e with
  | Transactions.Sent n scope command =>
      let r := requestOf (bridge w) in
      with_call k (λ c, Call_ (request c) (effect c) (history c) (sent c ++ [(n, r)]) (c_phase c) (answer c))
        (with_bridge (Bridge.call refuses (apiOf t scope command) (bridge w)) w)
  | _ => w
  end.
(** What the application and the handle's own continuations do. *)
Definition ownEvent (e : Transactions.event) : bool :=
  match e with
  | Transactions.Settle _ _ | Transactions.Cancel | Transactions.Finish | Transactions.FinishResume => false
  | _ => true
  end.
Definition does (k : nat) (e : Transactions.event) (w : world) : world :=
  match calls w !! k with
  | Some c =>
      match c_phase c with
      | Waiting => w
      | _ =>
          if ownEvent e then
            let c' := happens e c in
            foldl (send k (effect c).2) (with_call k (happens e) w)
              (drop (length (Transactions.log (handle c))) (Transactions.log (handle c')))
          else w
      end
  | None => w
  end.
(** A command's Promise settled as its request did; [object] is the identity of
    what it rejected with. *)
Definition commandSettles (k n object : nat) (w : world) : world :=
  match calls w !! k with
  | Some c =>
      match (list_find (λ p : nat * option string, p.1 = n) (sent c)) with
      | Some (_, (_, r)) =>
          match outcomeOf r (bridge w) with
          | Some (Ok v) => with_call k (happens (Transactions.Settle n (inl v))) w
          | Some (Throw e) => with_call k (happens (Transactions.Settle n (inr (Transactions.Rejection object e)))) w
          | None => w
          end
      | None => w
      end
  | None => w
  end.

(** ** Steps *)
Inductive event :=
| Transact (inside : option nat)
| Begins (k : nat)
| BodyEnds (k : nat) (how : settlement)
| Finishes (k : nat)
| FinishResumes (k : nat)
| Answers (k : nat)
| Settles (k : nat)
| Does (k : nat) (e : Transactions.event)
| CommandSettles (k n object : nat)
| Wake (l : list (result (list Bridge.event)))
| Api (c : Bridge.api)                           (* any other call of the bridge *)
| LocalBegins (requestId : string)
| LocalEnds (requestId effectId transactionId companionId : string)
    (outcome : result (list (string * value))) (error : string)
| Others (e : Client.event).                     (* anything else the client does *)
Definition otherEvent (e : Client.event) : bool :=
  match e with
  | Client.Enter _ | Client.Begins _ | Client.CallbackEnds | Client.Ends _ | Client.Leave => false
  | _ => true
  end.
Definition step (w : world) (e : event) : world :=
  match e with
  | Transact inside => transact inside w
  | Begins k => begins k w
  | BodyEnds k how => bodyEnds k how w
  | Finishes k => finishes k w
  | FinishResumes k => finishResumes k w
  | Answers k => answers k w
  | Settles k => settles k w
  | Does k e => does k e w
  | CommandSettles k n object => commandSettles k n object w
  | Wake l => with_bridge (Bridge.drain refuses listener l (bridge w)) w
  | Api c => with_bridge (Bridge.call refuses c (bridge w)) w
  | LocalBegins r => with_bridge (Bridge.begin r true (bridge w)) w
  | LocalEnds r e t companion outcome error =>
      with_bridge (Bridge.finish refuses r e t (Some companion) outcome error (bridge w)) w
  | Others e => if otherEvent e then with_client (Client.step exact throws (client w) e) w else w
  end.
Definition run (open : list (string * value)) (l : list event) : world :=
  foldl step (newWorld (Bridge.opened refuses open)) l.
End world.
