(* ===== verification/CallbackFacts.v ===== *)
(** A transaction resolves only over what its callback did and the runtime
    confirmed, and rejects with the callback's own error. *)
From S2P Require Import Prelude Text Json Effects BridgeRoutes Callbacks.
From S2P Require Bridge BridgeFacts Transactions TransactionFacts Client.
Open Scope nat_scope.
Open Scope axton_scope.

(** ** What each call keeps *)
Definition thrownOf (p : phase) : option exn :=
  match p with Answered (inr r) => Some (exnOf r) | _ => None end.
Definition confirmed (p : phase) : Prop := match p with Answered (inl _) => True | _ => False end.
(** The callback's handle is the active one. *)
Definition running (p : phase) : Prop :=
  match p with InBody | BodyDone _ | Finishing _ | Catching _ _ => True | _ => False end.
Abbreviation FINISH := Transactions.Finish.
Abbreviation RESUME := Transactions.FinishResume.
(** The handle's history, split where [finish] was called and where it answered. *)
Definition finishedWell (l : list Transactions.event) : Prop :=
  ∃ before mid after, l = before ++ FINISH :: mid ++ RESUME :: after ∧ (FINISH ∉ before) ∧
    (RESUME ∉ before ++ FINISH :: mid) ∧
    Transactions.finished (Transactions.finishResume (Transactions.run true (before ++ FINISH :: mid))) = Some (inl tt).
Definition history_ok (c : call) : Prop :=
  match c_phase c with
  | Waiting | InBody | BodyDone _ => (FINISH ∉ history c) ∧ RESUME ∉ history c
  | Finishing _ => (∃ before after, history c = before ++ FINISH :: after ∧ (FINISH ∉ before)) ∧ (RESUME ∉ history c)
  | Catching _ _ => True
  | Returned (inl _) | Answered (inl _) => finishedWell (history c)
  | Returned (inr _) | Answered (inr _) => True
  end.
Record call_ok (b : Bridge.bridge) (c : call) : Prop := {
  co_request : ∀ r, request c = Some r →
    ∃ n, (1 ≤ n)%Z ∧ r = pretty n ∧ carried n (thrownOf (c_phase c)) (confirmed (c_phase c)) False b;
  co_answer : ∀ v, answer c = Some (Ok v) → c_phase c = Answered (inl v);
  co_history : history_ok c }.
Definition unanswered (c : call) : Prop := answer c = None.
#[export] Instance unanswered_dec c : Decision (unanswered c).
Proof. unfold unanswered. destruct (answer c); [by right|by left]. Defined.
Record good (w : world) : Prop := {
  g_bridge : BridgeFacts.inv [] (bridge w);
  g_calls : ∀ k c, calls w !! k = Some c → call_ok (bridge w) c;
  g_distinct : ∀ j k c d r, calls w !! j = Some c → calls w !! k = Some d →
    request c = Some r → request d = Some r → j = k;
  g_count : Client.transactions (client w) = length (filter unanswered (calls w));
  g_active : ∀ k, Client.activeTx (client w) = Some k → ∃ c, calls w !! k = Some c ∧ running (c_phase c) }.

(** ** A change to one call, to the bridge, to the client *)
Lemma alter_filter {A} (P : A → Prop) `{∀ a, Decision (P a)} (f : A → A) k (l : list A) :
  (∀ a, l !! k = Some a → P (f a) ↔ P a) → length (filter P (alter f k l)) = length (filter P l).
Proof.
  revert k. induction l as [|a l IH]; intros k Hf; [done|]. destruct k as [|k]; cbn.
  - specialize (Hf a eq_refl). repeat case_decide; tauto || done.
  - case_decide; cbn; by rewrite IH.
Qed.
Lemma calls_with_call k f w j c : calls (with_call k f w) !! j = Some c →
  (j = k ∧ ∃ d, calls w !! k = Some d ∧ c = f d) ∨ (j ≠ k ∧ calls w !! j = Some c).
Proof.
  cbn. destruct (decide (k = j)) as [->|Hne].
  - rewrite list_lookup_alter_eq. intros (d & Hd & ->)%fmap_Some_1. eauto.
  - rewrite list_lookup_alter_ne by done. auto.
Qed.
(** What an update of the call [k] must keep. *)
Record updates (w : world) (k : nat) (c d : call) : Prop := {
  u_ok : call_ok (bridge w) d;
  u_request : request d = request c;
  u_answer : answer d = answer c;
  u_running : running (c_phase c) → running (c_phase d) ∨ Client.activeTx (client w) ≠ Some k }.
Lemma with_call_good k f w : (∀ c, calls w !! k = Some c → updates w k c (f c)) → good w → good (with_call k f w).
Proof.
  intros Hf [H1 H2 H3 H4 H5]. split; [done|..].
  - intros j c [(-> & d & Hd & ->)|[_ Hc]]%calls_with_call; [by apply Hf|by eapply H2].
  - intros i j c d r Hc Hd Hrc Hrd. apply calls_with_call in Hc, Hd.
    destruct Hc as [(-> & c0 & Hc & ->)|[_ Hc]], Hd as [(-> & d0 & Hd & ->)|[_ Hd]]; [done|..];
      rewrite ?(u_request _ _ _ _ (Hf _ Hc)) in *; rewrite ?(u_request _ _ _ _ (Hf _ Hd)) in *; by eapply H3.
  - cbn. rewrite H4. symmetry. apply alter_filter. intros c Hc. unfold unanswered. by rewrite (u_answer _ _ _ _ (Hf c Hc)).
  - intros j Hj. cbn in Hj. destruct (H5 j Hj) as (c & Hc & Hr). cbn.
    destruct (decide (k = j)) as [->|Hne].
    + rewrite list_lookup_alter_eq, Hc. cbn. eexists. split; [done|]. by destruct (u_running _ _ _ _ (Hf c Hc) Hr).
    + rewrite list_lookup_alter_ne by done. eauto.
Qed.
Lemma with_bridge_good b w :
  BridgeFacts.inv [] b → (∀ k c n, calls w !! k = Some c → request c = Some (pretty n) →
    carried n (thrownOf (c_phase c)) (confirmed (c_phase c)) False (bridge w) →
    carried n (thrownOf (c_phase c)) (confirmed (c_phase c)) False b) →
  good w → good (with_bridge b w).
Proof.
  intros Hb Hc [H1 H2 H3 H4 H5]. split; try done. intros k c Hk. destruct (H2 k c Hk) as [Ha Hb' Hd].
  split; try done. intros r Hr. destruct (Ha r Hr) as (n & Hn & -> & Hcar). eauto 10.
Qed.
Lemma with_client_good c w :
  Client.transactions c = Client.transactions (client w) →
  (∀ k, Client.activeTx c = Some k → Client.activeTx (client w) = Some k ∨ ∃ d, calls w !! k = Some d ∧ running (c_phase d)) →
  good w → good (with_client c w).
Proof.
  intros Ht Ha [H1 H2 H3 H4 H5]. split; try done; [by cbn; rewrite Ht|]. intros k Hk. cbn in Hk.
  destruct (Ha k Hk); [by apply H5|done].
Qed.
Lemma with_call_compose f g k w : with_call k f (with_call k g w) = with_call k (f ∘ g) w.
Proof. unfold with_call. cbn. by rewrite list_alter_alter_eq. Qed.

(** A change of the handle's history or of what was sent, in the same phase *)
Lemma same_phase w k c d :
  call_ok (bridge w) c → request d = request c → c_phase d = c_phase c → answer d = answer c → history_ok d →
  updates w k c d.
Proof.
  intros [H1 H2 H3] Hr Hp Ha Hh. split; try done; [|rewrite Hp; auto].
  split; [by rewrite Hr, Hp|by rewrite Ha, Hp|done].
Qed.
(** A change of phase before the effect was answered *)
Lemma next_phase w k c d :
  call_ok (bridge w) c → request d = request c → answer d = answer c → history_ok d →
  ¬ confirmed (c_phase c) → ¬ confirmed (c_phase d) → thrownOf (c_phase c) = None → thrownOf (c_phase d) = None →
  (running (c_phase c) → running (c_phase d) ∨ Client.activeTx (client w) ≠ Some k) → updates w k c d.
Proof.
  intros [H1 H2 H3] Hr Ha Hh Hc Hd Htc Htd Hrun. split; try done. split; [| |done].
  - intros r Hrr. rewrite Hr in Hrr. destruct (H1 r Hrr) as (n & Hn & -> & Hcar). exists n. split_and!; [done..|].
    rewrite Htd, <- Htc. destruct Hcar as [C1 C2 C3]. split; [done..|]. intros Hin. by destruct (Hc (C3 Hin)).
  - intros v Hv. rewrite Ha in Hv. exfalso. apply Hc. by rewrite (H2 v Hv).
Qed.

(** ** Every step keeps it *)
Lemma settledWith_resolved r v l : settledWith r l = Some (Ok v) → r ∈ resolvedIds l.
Proof.
  unfold settledWith, resolvedIds. intros Hh. apply head_Some_elem_of in Hh.
  apply list_elem_of_omap in Hh as (o & Ho & Hs). apply list_elem_of_omap. exists o. split; [done|].
  destruct o as [|r' o| | | | | | | | | |]; try done. destruct (String.eqb_spec r r'); [|done]. by simplify_eq.
Qed.
Lemma alter_filter_out {A} (P : A → Prop) `{∀ a, Decision (P a)} (f : A → A) k a (l : list A) :
  l !! k = Some a → P a → ¬ P (f a) → length (filter P (alter f k l)) = pred (length (filter P l)).
Proof.
  revert k. induction l as [|b l IH]; intros k Hk Hc Hd; [done|]. destruct k as [|k]; cbn in Hk |- *.
  - injection Hk as ->. by repeat case_decide.
  - specialize (IH k Hk Hc Hd). case_decide; cbn [length]; [|exact IH]. etransitivity; [exact (f_equal S IH)|]. cbn.
    assert (a ∈ filter P l) as Hin by (apply list_elem_of_filter; split; [done|by eapply list_elem_of_lookup_2]).
    change (S (pred (length (filter P l))) = length (filter P l)).
    destruct (filter P l); [by apply not_elem_of_nil in Hin|done].
Qed.
(** The runtime's part of the contract: a transaction is confirmed only after its
    callback was answered to have succeeded. *)
Definition confirms (w : world) (e : event) : Prop :=
  match e with
  | Wake l => ∀ events e' k c r, Ok events ∈ l → e' ∈ events → calls w !! k = Some c → request c = Some r →
      completes r e' → confirmed (c_phase c)
  | _ => True
  end.

Section steps.
Variable exact : bool.
Variable throws : nat → bool.
Variable refuses : list Bridge.output → value → option exn.
Variable listener : nat → Bridge.output → list Bridge.api * option exn.
Variable registers : nat.
Variable describe : reason → string.

Lemma add_call_good c b d w :
  BridgeFacts.inv [] b → (∀ n t Q, carried n t Q False (bridge w) → carried n t Q False b) →
  call_ok b d → (∀ r, request d = Some r → ∀ n, (n ≤ Bridge.issued (bridge w))%Z → r ≠ pretty n) →
  Client.activeTx c = Client.activeTx (client w) →
  Client.transactions c = Client.transactions (client w) + (if decide (unanswered d) then 1 else 0) →
  good w → good (World c b (calls w ++ [d])).
Proof.
  intros Hb Hcar Hd Hfresh Ha Ht [H1 H2 H3 H4 H5].
  assert (∀ k e, (calls w ++ [d]) !! k = Some e → (calls w !! k = Some e) ∨ (k = length (calls w) ∧ e = d)) as Hl.
  { intros k e [Hk|[Hk He]]%lookup_app_Some; [by left|right]. apply list_lookup_singleton_Some in He as [? <-]. split; [lia|done]. }
  split; [done|..]; cbn.
  - intros k e [Hk|[-> ->]]%Hl; [|done]. destruct (H2 k e Hk) as [Hx Hy Hz]. split; [|done..]. intros r Hr.
    destruct (Hx r Hr) as (n & Hn & -> & Hcr). eauto 10.
  - assert (∀ k e r, calls w !! k = Some e → request e = Some r → request d ≠ Some r) as Hne.
    { intros k e r Hk Hr Hdr. destruct (co_request _ _ (H2 k e Hk) r Hr) as (n & _ & -> & Hcr).
      eapply Hfresh; [exact Hdr|apply Hcr|done]. }
    intros j k e f r [Hj|[-> ->]]%Hl [Hk|[-> ->]]%Hl Her Hfr; [by eapply H3|exfalso..|done]; by eapply Hne.
  - rewrite filter_app, length_app, <- H4, Ht. cbn. by case_decide.
  - intros k Hk. rewrite Ha in Hk. destruct (H5 k Hk) as (e & He & Hr). exists e. split; [|done].
    by apply lookup_app_l_Some.
Qed.
Lemma transact_good inside w : good w → good (transact exact refuses inside w).
Proof.
  intros Hw. pose proof (g_bridge w Hw) as Hb. unfold transact, Client.enter.
  destruct (Client.guarded exact false inside (client w)).
  - apply add_call_good; try done. split; [done..|]. split; apply not_elem_of_nil.
  - apply add_call_good; try done.
    + by apply BridgeFacts.call_inv.
    + intros n t Q. apply carried_call.
    + split; [|done|split; apply not_elem_of_nil]. cbn. unfold requestOf. intros r Hr. case_if; [done|]. injection Hr as <-.
      apply orb_false_iff in Heqb as [Hcg Hcl]. exists (Bridge.issued (bridge w) + 1)%Z.
      split_and!; [pose proof (BridgeFacts.inv_issued _ _ Hb); lia|done|by apply carried_opened].
    + cbn. unfold requestOf. intros r Hr n Hn. case_if; [done|]. injection Hr as <-. intros H%pretty_Z_inj. lia.
    + cbn. rewrite decide_True by done. lia.
Qed.
Lemma settles_good k w : good w → good (settles k w).
Proof.
  intros Hw. pose proof Hw as [H1 H2 H3 H4 H5]. unfold settles. destruct (calls w !! k) as [c|] eqn:Hk; [|done].
  destruct (answer c) eqn:Ha; [done|]. destruct (outcomeOf (request c) (bridge w)) as [o|] eqn:Ho; [|done].
  set (a := match o with Ok _ => _ | Throw e => _ end).
  set (d := Call_ (request c) (effect c) (history c) (sent c) (c_phase c) (Some a)).
  assert (∀ j e, alter (λ c, Call_ (request c) (effect c) (history c) (sent c) (c_phase c) (Some a)) k (calls w) !! j = Some e →
    (j = k ∧ e = d) ∨ (j ≠ k ∧ calls w !! j = Some e)) as Hl.
  { intros j e [(-> & c0 & Hc & ->)|?]%(calls_with_call k _ w); [left|by right]. rewrite Hk in Hc. by injection Hc as <-. }
  destruct (H2 k c Hk) as [Hx Hy Hz]. split; [done|..]; cbn.
  - intros j e [[-> ->]|[_ Hj]]%Hl; [|by eapply H2]. split; [exact Hx| |exact Hz]. cbn. intros v [= Hv].
    unfold a in Hv. destruct o as [u|]; [|done]. injection Hv as <-. destruct (request c) as [r|] eqn:Hr; [|done].
    destruct (Hx r eq_refl) as (n & _ & -> & Hcar). pose proof (carried_resolved _ _ _ _ _ Hcar) as Hres.
    apply settledWith_resolved in Ho. specialize (Hres Ho). unfold resultOf. by destruct (c_phase c) as [| | | | | |[]].
  - intros i j e f r [[-> ->]|[_ Hi]]%Hl [[-> ->]|[_ Hj]]%Hl Her Hfr; [done|..]; by eapply H3.
  - rewrite H4. symmetry. by apply (alter_filter_out _ _ _ c).
  - intros j Hj. destruct (H5 j Hj) as (e & He & Hr). destruct (decide (k = j)) as [<-|Hne].
    + rewrite list_lookup_alter_eq, He. cbn. eexists. split; [done|]. rewrite Hk in He. by injection He as <-.
    + rewrite list_lookup_alter_ne by done. eauto.
Qed.
(** Most of [next_phase] is seen from the two phases. *)
Ltac next_phase_ := apply next_phase; try done; try (by intros []).
Lemma phase_call w k p : c_phase <$> calls w !! k = Some p → ∃ c, calls w !! k = Some c ∧ c_phase c = p.
Proof. destruct (calls w !! k) as [c|]; [|done]. intros [= <-]. eauto. Qed.
Lemma begins_good k w : good w → good (begins k w).
Proof.
  intros Hw. unfold begins. destruct (calls w !! k) as [[[r|] eff h s [] a]|] eqn:Hk; try done. cbv zeta.
  assert (good (with_bridge (Bridge.begin r false (bridge w)) w)) as Hb.
  { apply with_bridge_good; [by apply BridgeFacts.begin_inv, Hw| |done]. intros j c n _ _. by apply carried_begin. }
  case_if; [|done]. set (f := λ c : call, _). set (w' := with_bridge _ w) in *.
  assert (good (with_call k f w')) as Hf.
  { apply with_call_good; [|done]. intros c Hc. change (calls w !! k = Some c) in Hc. rewrite Hk in Hc. injection Hc as <-.
    pose proof (g_calls _ Hb k _ Hk) as Hok. pose proof (co_history _ _ Hok) as Hh.
    unfold f. by next_phase_. }
  apply with_client_good; [done| |done]. intros j [= <-]. right.
  change (∃ d, alter f k (calls w) !! k = Some d ∧ running (c_phase d)). rewrite list_lookup_alter_eq, Hk.
  eexists. split; [reflexivity|exact I].
Qed.
Lemma bodyEnds_good k how w : good w → good (bodyEnds k how w).
Proof.
  intros Hw. unfold bodyEnds. destruct (c_phase <$> calls w !! k) as [[]|] eqn:Hp; try done.
  apply phase_call in Hp as (c & Hk & Hp). apply with_client_good; [by case_bool_decide|by case_bool_decide; auto|].
  apply with_call_good; [|done]. intros c' Hc'. rewrite Hk in Hc'. injection Hc' as <-.
  pose proof (g_calls w Hw k c Hk) as Hok. pose proof (co_history _ _ Hok) as Hh. unfold history_ok in Hh. rewrite Hp in Hh.
  apply next_phase; rewrite ?Hp; try done; try (by intros []). by left.
Qed.
Lemma finishes_good k w : good w → good (finishes k w).
Proof.
  intros Hw. unfold finishes. destruct (c_phase <$> calls w !! k) as [p|] eqn:Hp; [|done].
  apply phase_call in Hp as (c & Hk & Hp). pose proof (g_calls w Hw k c Hk) as Hok.
  pose proof (co_history _ _ Hok) as Hh. unfold history_ok in Hh. rewrite Hp in Hh.
  assert (∀ f, updates w k c (f c) → good (with_call k f w)) as Hup.
  { intros f Hf. apply with_call_good; [|done]. intros c' Hc'. rewrite Hk in Hc'. by injection Hc' as <-. }
  destruct p as [| |[v|r]| | | |]; try done; apply Hup, next_phase; rewrite ?Hp; try done; try (by intros []); try by left.
  destruct Hh as [H1 H2]. split; cbn; [by exists (history c), []|]. rewrite not_elem_of_app, list_elem_of_singleton. by split.
Qed.
Lemma finishResumes_good k w : good w → good (finishResumes k w).
Proof.
  intros Hw. unfold finishResumes. destruct (calls w !! k) as [c|] eqn:Hk; [|done].
  pose proof (g_calls w Hw k c Hk) as Hok. pose proof (co_history _ _ Hok) as Hh. unfold history_ok in Hh.
  assert (good (with_client (Client.ends_ k (client w)) w)) as He.
  { apply with_client_good; [done| |done]. intros j. cbn. case_bool_decide; [done|auto]. }
  assert (Client.activeTx (Client.ends_ k (client w)) ≠ Some k) as Hend by (cbn; by case_bool_decide).
  destruct (c_phase c) as [| | |v|n r| |] eqn:Hp; try done.
  - destruct Hh as [(before & mid & Hl & H1) H2].
    destruct (Transactions.finished _) as [[[]|r]|] eqn:Hf; [|rewrite with_call_compose|done].
    + unfold returns. rewrite with_call_compose. change (good (with_call k (set_phase (Returned (inl v)) ∘ happens RESUME)
        (with_client (Client.ends_ k (client w)) w))).
      apply with_call_good; [|done]. intros c' Hc'. change (calls w !! k = Some c') in Hc'. rewrite Hk in Hc'. injection Hc' as <-.
      apply next_phase; rewrite ?Hp; try done; try (by intros []); [|by right].
      exists before, mid, []. cbn. split_and!; [by rewrite Hl, <- app_assoc|done|by rewrite <- Hl|].
      rewrite <- Hl. change (handle _) with (Transactions.run true (history c ++ [RESUME])) in Hf.
      by rewrite TransactionFacts.run_snoc in Hf.
    + apply with_call_good; [|done]. intros c' Hc'. rewrite Hk in Hc'. injection Hc' as <-.
      apply next_phase; rewrite ?Hp; try done; try (by intros []). by left.
  - case_if; [|done]. unfold returns. change (good (with_call k (set_phase (Returned (inr r)))
        (with_client (Client.ends_ k (client w)) w))).
    apply with_call_good; [|done]. intros c' Hc'. change (calls w !! k = Some c') in Hc'. rewrite Hk in Hc'. injection Hc' as <-.
    apply next_phase; rewrite ?Hp; try done; try (by intros []). by right.
Qed.
Lemma answers_good k w : good w → good (answers refuses describe k w).
Proof.
  intros Hw. pose proof Hw as [H1 H2 H3 H4 H5]. unfold answers.
  destruct (calls w !! k) as [[[r|] [eid tid] h s [] a]|] eqn:Hk; try done. cbv zeta.
  pose proof (H2 k _ Hk) as [Hx Hy Hz]. cbn in Hx, Hy, Hz. destruct (Hx r eq_refl) as (n & Hn & -> & Hcar).
  set (b' := Bridge.finish _ _ _ _ _ _ _ _).
  assert (∀ j c, alter (set_phase (Answered how)) k (calls w) !! j = Some c →
    (j = k ∧ c = Call_ (Some (pretty n)) (eid, tid) h s (Answered how) a) ∨ (j ≠ k ∧ calls w !! j = Some c)) as Hl.
  { intros j c [(-> & c0 & Hc & ->)|?]%(calls_with_call k _ w); [left|by right]. rewrite Hk in Hc. by injection Hc as <-. }
  split; cbn.
  - by apply BridgeFacts.finish_inv.
  - intros j c [[-> ->]|[Hne Hj]]%Hl.
    + split; cbn; [|by intros v Hv; specialize (Hy v Hv)|exact Hz]. intros r [= <-]. exists n. split_and!; [done..|].
      pose proof (carried_finish_own refuses n None False False eid tid
        (match how with inl _ => Ok [] | inr r => Throw (exnOf r) end)
        (match how with inl _ => EmptyString | inr r => describe r end) (bridge w)) as Hown.
      destruct how; destruct Hown as [C1 C2 C3]; try done; split; try done; intros Hin; by destruct (C3 Hin).
    + destruct (H2 j c Hj) as [Ha Hb Hc]. split; [|done..]. intros r Hr. destruct (Ha r Hr) as (m & Hm & -> & Hcm).
      exists m. split_and!; [done..|]. apply carried_finish; [|done]. intros _ Heq. apply Hne.
      eapply (H3 j k); [exact Hj|exact Hk|exact Hr|cbn; by rewrite Heq].
  - intros i j c d r [[-> ->]|[_ Hi]]%Hl [[-> ->]|[_ Hj]]%Hl Hcr Hdr; [done|..]; by eapply H3.
  - rewrite H4. symmetry. apply alter_filter. done.
  - intros j Hj. destruct (H5 j Hj) as (c & Hc & Hr). destruct (decide (k = j)) as [<-|Hne].
    + rewrite Hk in Hc. by injection Hc as <-.
    + rewrite list_lookup_alter_ne by done. eauto.
Qed.
Lemma happens_history e c : e ≠ FINISH → e ≠ RESUME → history_ok c → history_ok (happens e c).
Proof.
  intros He1 He2. unfold history_ok. cbn. destruct (c_phase c) as [| |how|v|n r|[]|[]]; try done.
  all: try (intros [H1 H2]; rewrite !not_elem_of_app, !list_elem_of_singleton; split_and!; congruence || done).
  - intros [(before & after & -> & H1) H2]. split.
    + exists before, (after ++ [e]). by rewrite <- app_assoc.
    + rewrite not_elem_of_app, list_elem_of_singleton. split; congruence.
  - intros (before & mid & after & -> & H). exists before, mid, (after ++ [e]). split; [|done]. by rewrite <- !app_assoc, <- !app_comm_cons, <- app_assoc.
  - intros (before & mid & after & -> & H). exists before, mid, (after ++ [e]). split; [|done]. by rewrite <- !app_assoc, <- !app_comm_cons, <- app_assoc.
Qed.
Lemma happens_good k e w c : calls w !! k = Some c → e ≠ FINISH → e ≠ RESUME →
  good w → good (with_call k (happens e) w).
Proof.
  intros Hk He1 He2 Hw. apply with_call_good; [|done]. intros c' Hc'. rewrite Hk in Hc'. injection Hc' as <-.
  pose proof (g_calls w Hw k c Hk) as Hok. apply same_phase; try done. by apply happens_history, Hok.
Qed.
Lemma send_good k tid e w : good w → good (send refuses registers k tid w e).
Proof.
  intros Hw. destruct e as [i scope command| | | | | |]; try done. cbn. apply with_call_good.
  - intros c Hc. apply same_phase; try done; [|exact (co_history _ _ (g_calls w Hw k c Hc))].
    destruct (g_calls w Hw k c Hc) as [Hx Hy Hz]. split; try done.
    intros r Hr. destruct (Hx r Hr) as (n & Hn & -> & Hcar). exists n. split_and!; [done..|]. by apply carried_call.
  - apply with_bridge_good; [by apply BridgeFacts.call_inv, Hw| |done]. intros j c n _ _. by apply carried_call.
Qed.
Lemma does_good k e w : good w → good (does refuses registers k e w).
Proof.
  intros Hw. unfold does. destruct (calls w !! k) as [c|] eqn:Hk; [|done].
  assert (ownEvent e = true → good (with_call k (happens e) w)) as Hh.
  { intros He. eapply happens_good; try done; by intros ->. }
  assert (∀ l w', good w' → good (foldl (send refuses registers k (effect c).2) w' l)) as Hs.
  { induction l as [|x l IH]; intros w' Hw'; [done|]. by apply IH, send_good. }
  destruct (c_phase c) eqn:Hp; try done; (destruct (ownEvent e); [|done]); apply Hs; by apply Hh.
Qed.
Lemma commandSettles_good k n object w : good w → good (commandSettles k n object w).
Proof.
  intros Hw. unfold commandSettles. destruct (calls w !! k) as [c|] eqn:Hk; [|done].
  destruct (list_find _ _) as [[i [j r]]|]; [|done].
  destruct (outcomeOf r (bridge w)) as [[v|e]|]; [by eapply happens_good..|done].
Qed.
Lemma others_keep c e : otherEvent e = true →
  Client.transactions (Client.step exact throws c e) = Client.transactions c ∧
  Client.activeTx (Client.step exact throws c e) = Client.activeTx c.
Proof.
  intros Ho. destruct e; try done; cbn.
  - unfold Client.task. by case_if.
  - unfold Client.connect. repeat (case_if; [|done]). destruct (Executor.directTimeout _); [|done]. by destruct network.
  - unfold Client.connected. destruct (Client.connecting c); [|done]. by destruct refused.
  - unfold Client.control. by repeat case_if.
  - unfold Client.closeConnection. by repeat case_if.
  - unfold Client.reported. destruct d; try done. by case_if.
  - unfold Client.close. destruct (Client.closing _); [done|]. by case_if.
  - unfold Client.closeResume. destruct (Client.closing c) as [[first| |]|]; try done.
    destruct (Client.connecting c); [done|]. by destruct (Client.connection c), first.
  - unfold Client.bridgeClosed. by destruct (Client.closing c) as [[| |]|].
Qed.
Lemma step_good w e : confirms w e → good w → good (step exact throws refuses listener registers describe w e).
Proof.
  intros He Hw. pose proof (g_bridge w Hw) as Hb. destruct e as [inside|k|k how|k|k|k|k|k e|k n object|l|c|r|r e t companion outcome error|e]; cbn [step].
  - by apply transact_good.
  - by apply begins_good.
  - by apply bodyEnds_good.
  - by apply finishes_good.
  - by apply finishResumes_good.
  - by apply answers_good.
  - by apply settles_good.
  - by apply does_good.
  - by apply commandSettles_good.
  - apply with_bridge_good; [by apply BridgeFacts.drain_inv| |done]. intros k c n Hk Hr. apply carried_drain.
    intros events e Hl Hin Hc. by eapply He.
  - apply with_bridge_good; [by apply BridgeFacts.call_inv| |done]. intros k d n _ _. by apply carried_call.
  - apply with_bridge_good; [by apply BridgeFacts.begin_inv| |done]. intros k d n _ _. by apply carried_begin.
  - apply with_bridge_good; [by apply BridgeFacts.finish_inv| |done]. intros k d n _ _. by apply carried_finish.
  - destruct (otherEvent e) eqn:Ho; [|done]. destruct (others_keep (client w) e Ho) as [Ht Ha].
    apply with_client_good; [done|intros k; rewrite Ha; auto|done].
Qed.
(** Every wake of the run obeys the contract. *)
Fixpoint honest (w : world) (l : list event) : Prop :=
  match l with
  | [] => True
  | e :: l => confirms w e ∧ honest (step exact throws refuses listener registers describe w e) l
  end.
Lemma run_good request l :
  honest (newWorld (Bridge.opened refuses request)) l →
  good (run exact throws refuses listener registers describe request l).
Proof.
  assert (good (newWorld (Bridge.opened refuses request))) as Hw.
  { split; try done. exact (BridgeFacts.run_inv refuses (λ _ _, ([], None)) request []). }
  unfold run. revert Hw. generalize (newWorld (Bridge.opened refuses request)). induction l as [|e l IH]; intros w Hw; [done|].
  intros [He Hl]. apply IH; [by apply step_good|done].
Qed.
Abbreviation run := (run exact throws refuses listener registers describe).
Lemma world_run_snoc request l e :
  run request (l ++ [e]) = step exact throws refuses listener registers describe (run request l) e.
Proof. unfold Callbacks.run. by rewrite foldl_snoc. Qed.
(** The bridge dispatches nothing between steps. *)
Lemma send_idle k tid w e :
  Bridge.dispatching (bridge (send refuses registers k tid w e)) = Bridge.dispatching (bridge w).
Proof. destruct e; try done. apply call_dispatching. Qed.
Lemma step_idle w e : Bridge.dispatching (bridge w) = false →
  Bridge.dispatching (bridge (step exact throws refuses listener registers describe w e)) = false.
Proof.
  intros Hw. destruct e as [inside|k|k how|k|k|k|k|k e|k n object|l|c|r|r e t companion outcome error|e]; cbn [step].
  - unfold transact. case_if; [done|]. cbn [bridge]. by rewrite call_dispatching.
  - unfold begins. repeat case_match; try done; cbn; by rewrite begin_dispatching.
  - unfold bodyEnds. by repeat case_match.
  - unfold finishes. by repeat case_match.
  - unfold finishResumes. by repeat case_match.
  - unfold answers. repeat case_match; try done; cbn; by rewrite finish_dispatching.
  - unfold settles. by repeat case_match.
  - unfold does. destruct (calls w !! k) as [c|]; [|done].
    assert (∀ l w', Bridge.dispatching (bridge w') = false →
      Bridge.dispatching (bridge (foldl (send refuses registers k (effect c).2) w' l)) = false) as Hs.
    { induction l as [|x l IH]; intros w' Hw'; [done|]. apply IH. by rewrite send_idle. }
    destruct (c_phase c); try done; (case_if; [|done]); by apply Hs.
  - unfold commandSettles. by repeat case_match.
  - by apply drain_dispatching.
  - cbn. by rewrite call_dispatching.
  - cbn. by rewrite begin_dispatching.
  - cbn. by rewrite finish_dispatching.
  - by case_if.
Qed.
Lemma run_idle request l : Bridge.dispatching (bridge (run request l)) = false.
Proof.
  induction l as [|e l IH] using rev_ind; [|by rewrite world_run_snoc; apply step_idle].
  exact (routed_dispatching refuses _ (λ _ b, b) None Bridge.newBridge BridgeFacts.registers_none).
Qed.
End steps.

(** ** The theorem *)
Section answers.
Variable exact : bool.
Variable throws : nat → bool.
Variable refuses : list Bridge.output → value → option exn.
Variable listener : nat → Bridge.output → list Bridge.api * option exn.
Variable registers : nat.
Variable describe : reason → string.
Abbreviation run := (run exact throws refuses listener registers describe).
Abbreviation honest := (honest exact throws refuses listener registers describe).

Lemma finishedWell_succeeded l : finishedWell l → Forall TransactionFacts.throwsError l →
  ∃ before mid after, l = before ++ FINISH :: mid ++ RESUME :: after ∧
    TransactionFacts.succeeded (Transactions.run true before) (Transactions.run true (before ++ FINISH :: mid)).
Proof.
  intros (before & mid & after & -> & H1 & H2 & Hf) Ht. exists before, mid, after. split; [done|].
  apply TransactionFacts.finish_succeeds.
  - rewrite app_comm_cons, app_assoc, Forall_app in Ht. apply Ht.
  - by apply TransactionFacts.unclosed.
  - by apply TransactionFacts.unfinished.
  - done.
Qed.
Lemma settledWith_last r o l : r ∉ BridgeFacts.settledIds l → settledWith r (l ++ [Bridge.Settled r o]) = Some o.
Proof.
  intros Hr. unfold settledWith. rewrite omap_app. cbn. rewrite String.eqb_refl.
  induction l as [|x l IH]; [done|]. cbn. destruct x as [|r' o'| | | | | | | | | |]; try apply IH; try done.
  unfold BridgeFacts.settledIds in Hr. cbn in Hr. apply not_elem_of_cons in Hr as [Hne Hr].
  destruct (String.eqb_spec r r'); [done|]. by apply IH.
Qed.

(** C5: a transaction resolves only over what its callback did and the runtime
    confirmed.  If the runtime confirms a transaction only after its callback's
    success was answered, then however calls, commands, savepoints, closing and the
    rest of the client interleave: a call of [transaction] resolves only with the
    value its callback returned, after [finish] succeeded over a handle on which
    nothing was refused, unawaited or left failed; once a callback's end was
    answered, the runtime's next answer settles the call with that value, with the
    very error the callback ended with, or with the runtime's own reason; and the
    transactions counted as running are those not yet answered, the active one's
    callback not having ended. *)
Theorem transaction_answers request l :
  honest (newWorld (Bridge.opened refuses request)) l →
  let w := run request l in
  (∀ k c v, calls w !! k = Some c → answer c = Some (Ok v) →
     c_phase c = Answered (inl v) ∧
     (Forall TransactionFacts.throwsError (history c) →
      ∃ before mid after, history c = before ++ FINISH :: mid ++ RESUME :: after ∧
        TransactionFacts.succeeded (Transactions.run true before) (Transactions.run true (before ++ FINISH :: mid)))) ∧
  (∀ k c how r outcome, calls w !! k = Some c → c_phase c = Answered how → answer c = None → Callbacks.request c = Some r →
     r ∉ BridgeFacts.settledIds (Bridge.output_log (bridge w)) →
     ∃ c', calls (run request (l ++ [Wake [Ok [Bridge.TaskCompleted r outcome]]; Settles k])) !! k = Some c' ∧
       match outcome, how with
       | Bridge.Completed _, inl v => answer c' = Some (Ok v)
       | Bridge.Failed _ _, inr e => answer c' = Some (Throw (exnOf e))
       | Bridge.Failed error details, inl _ =>
           answer c' = Some (Throw (Bridge.taskError (default "task failed"%string error) details))
       | Bridge.Completed _, inr _ => True
       end) ∧
  Client.transactions (client w) = length (filter unanswered (calls w)) ∧
  (∀ k, Client.activeTx (client w) = Some k → ∃ c, calls w !! k = Some c ∧ running (c_phase c)).
Proof.
  intros Hh w. pose proof (run_good exact throws refuses listener registers describe request l Hh) as Hw. fold w in Hw.
  pose proof (run_idle exact throws refuses listener registers describe request l) as Hi. fold w in Hi.
  split_and!; [| |apply Hw..].
  - intros k c v Hk Ha. destruct (g_calls w Hw k c Hk) as [_ Hv Hp]. specialize (Hv v Ha). split; [done|].
    unfold history_ok in Hp. rewrite Hv in Hp. by apply finishedWell_succeeded.
  - intros k c how r outcome Hk Hp Ha Hr Hn. destruct (g_calls w Hw k c Hk) as [Hx _ _].
    destruct (Hx r Hr) as (n & _ & -> & [_ [[]|[?|Hheld]] _]); [done|].
    pose proof (drain_settles refuses listener _ _ outcome _ (g_bridge w Hw) Hi Hheld) as Hd.
    rewrite cons_middle, app_assoc, !world_run_snoc. fold w. cbn [step]. unfold settles.
    change (calls (with_bridge ?b w)) with (calls w). rewrite Hk, Ha, Hr. cbn [outcomeOf with_bridge bridge].
    rewrite Hd, settledWith_last by done. eexists. cbn. rewrite list_lookup_alter_eq, Hk. split; [done|].
    rewrite Hp. unfold resultOf. rewrite Hp. destruct outcome, how; done.
Qed.
End answers.

(** ** A transaction that writes *)
Definition confirmsb (w : world) (e : event) : bool :=
  match e with
  | Wake l => forallb (λ x, match x with
      | Ok events => forallb (λ e', forallb (λ c,
          match Callbacks.request c, e' with
          | Some r, Bridge.TaskCompleted r' (Bridge.Completed _) =>
              negb (String.eqb r' r) || match c_phase c with Answered (inl _) => true | _ => false end
          | _, _ => true
          end) (calls w)) events
      | Throw _ => true
      end) l
  | _ => true
  end.
Lemma confirmsb_spec w e : confirmsb w e = true → confirms w e.
Proof.
  destruct e as [| | | | | | | | |l| | | |]; try done. cbn. rewrite forallb_forall. intros H events e' k c r Hl He Hk Hr Hc.
  apply list_elem_of_In in Hl. specialize (H _ Hl). rewrite forallb_forall in H.
  apply list_elem_of_In in He. specialize (H _ He). rewrite forallb_forall in H.
  apply list_elem_of_lookup_2, list_elem_of_In in Hk. specialize (H _ Hk). rewrite Hr in H.
  destruct e' as [r' [v|]| | | | | | | |]; try done. cbn in Hc. subst r'. rewrite String.eqb_refl in H. cbn in H.
  by destruct (c_phase c) as [| | | | | |[]].
Qed.
Definition demo_step : world → event → world := step true (λ _, false) (λ _ _, None) (λ _ _, ([], None)) 0 (λ _, EmptyString).
Definition demo_transaction : list event :=
  [Transact None; Wake [Ok [Bridge.EffectAsked "e1" (Bridge.CallbackOp "2" "t1")]]; Begins 0;
   Does 0 (Transactions.Call (Transactions.Context_ false None) (Transactions.Direct VNull));
   Wake [Ok [Bridge.TaskCompleted "3" (Bridge.Completed VNull)]]; CommandSettles 0 0 0;
   BodyEnds 0 (inl (VBool true)); Finishes 0; FinishResumes 0; Answers 0;
   Wake [Ok [Bridge.TaskCompleted "2" (Bridge.Completed VNull)]]; Settles 0]%string.
Lemma transaction_answers_witness :
  let w := run true (λ _, false) (λ _ _, None) (λ _ _, ([], None)) 0 (λ _, EmptyString) [] demo_transaction in
  ∃ c, calls w !! 0 = Some c ∧ answer c = Some (Ok (VBool true)) ∧ c_phase c = Answered (inl (VBool true)) ∧
    length (history c) = 4.
Proof.
  cbv zeta.
  assert (∃ c, calls (run true (λ _, false) (λ _ _, None) (λ _ _, ([], None)) 0 (λ _, EmptyString) [] demo_transaction)
            !! 0 = Some c ∧ answer c = Some (Ok (VBool true)) ∧ length (history c) = 4) as (c & Hc & Ha & Hl)
    by (vm_compute; eexists; done).
  exists c. split; [exact Hc|]. split; [exact Ha|]. split; [|exact Hl].
  refine (proj1 (proj1 (transaction_answers true (λ _, false) (λ _ _, None) (λ _ _, ([], None)) 0 (λ _, EmptyString)
    [] demo_transaction _) 0 c (VBool true) Hc Ha)).
  repeat (split; [apply confirmsb_spec; vm_compute; reflexivity|]). exact I.
Defined.
