(* ===== verification/Regexp.v ===== *)
(** ECMAScript regular expressions: the part of them the release scripts use.

    [run] is the backtracking matcher of the language's definition, in continuation
    passing style: alternatives in order, stars greedy or lazy, an iteration that
    consumes nothing refused, the groups of an iteration cleared before it.  [den] is
    what an expression matches, with no search; [run_sound] and [run_complete] relate
    the two, and [lang] is the language of an expression without assertions.

    A character is a byte: the classes the scripts use are of ASCII characters or
    their complements, which do not tell the bytes of one code point apart. *)
From Stdlib Require Import Ascii.
From S2P Require Import Prelude Text Json.
From stdpp Require Import relations.
Open Scope Z_scope.
Open Scope axton_scope.

Inductive regex :=
| Empty
| Chr (p : ascii → bool)
| Seq (r s : regex)
| Alt (r s : regex)
| Star (greedy : bool) (r : regex)
| Group (n : nat) (r : regex)
| NotAhead (r : regex)          (* a negative lookahead *)
| Start | Finish                (* the ends of the input *)
| LineStart | LineEnd.          (* the ends of a line, of the flag m *)

(** A position in the input: what was read, backwards, what is left, the captures. *)
Record place := Place { behind : list ascii; ahead : list ascii; captures : list (nat * string) }.
Definition read (c : ascii) (t : list ascii) (x : place) : place := Place (c :: behind x) t (captures x).
Definition NEWLINE_CHAR : ascii := char 10.
(** A line terminator among the bytes; the two of Unicode are not in the inputs. *)
Definition lineTerminator (c : ascii) : bool := (byte c =? 10) || (byte c =? 13).
Fixpoint groupsOf (r : regex) : list nat :=
  match r with
  | Seq r s | Alt r s => groupsOf r ++ groupsOf s
  | Star _ r | NotAhead r => groupsOf r
  | Group n r => n :: groupsOf r
  | _ => []
  end.
Definition clear (groups : list nat) (x : place) : place :=
  Place (behind x) (ahead x) (filter (λ c, c.1 ∉ groups) (captures x)).
(** What was read since [x] *)
Definition readSince (x y : place) : string :=
  String.string_of_list_ascii (rev (take (length (behind y) - length (behind x)) (behind y))).
Definition capture (n : nat) (x y : place) : place :=
  Place (behind y) (ahead y) ((n, readSince x y) :: filter (λ c, c.1 ≠ n) (captures y)).
(** The assertions *)
Definition holds (r : regex) (x : place) : bool :=
  match r with
  | Start => match behind x with [] => true | _ => false end
  | Finish => match ahead x with [] => true | _ => false end
  | LineStart => match behind x with [] => true | c :: _ => lineTerminator c end
  | LineEnd => match ahead x with [] => true | c :: _ => lineTerminator c end
  | _ => true
  end.
Definition progress (x y : place) : bool := (length (ahead y) <? length (ahead x))%nat.
Definition orElse {A} (a b : option A) : option A := match a with Some _ => a | None => b end.

Section star.
Variable body : place → (place → option place) → option place.
Variable greedy : bool.
Variable groups : list nat.
(** At most [n] iterations.  Each consumes, so what is left to read is enough. *)
Fixpoint loop (n : nat) (x : place) (k : place → option place) : option place :=
  match n with
  | O => k x
  | S n =>
      let more := body (clear groups x) (λ y, if progress x y then loop n y k else None) in
      if greedy then orElse more (k x) else orElse (k x) more
  end.
End star.
Fixpoint run (r : regex) (x : place) (k : place → option place) : option place :=
  match r with
  | Empty => k x
  | Chr p => match ahead x with c :: t => if p c then k (read c t x) else None | [] => None end
  | Seq r s => run r x (λ y, run s y k)
  | Alt r s => orElse (run r x k) (run s x k)
  | Star greedy r => loop (run r) greedy (groupsOf r) (length (ahead x)) x k
  | Group n r => run r x (λ y, k (capture n x y))
  | NotAhead r => match run r x Some with Some _ => None | None => k x end
  | Start | Finish | LineStart | LineEnd => if holds r x then k x else None
  end.

(** [pattern.exec] from the first position at which the pattern matches: where the
    match starts and where it ends. *)
Fixpoint search (n : nat) (r : regex) (before rest : list ascii) : option (place * place) :=
  let x := Place before rest [] in
  match run r x Some with
  | Some y => Some (x, y)
  | None => match n, rest with S n, c :: rest => search n r (c :: before) rest | _, _ => None end
  end.
Definition exec (r : regex) (s : string) : option (place * place) :=
  let l := String.list_ascii_of_string s in search (length l) r [] l.
(** [pattern.test(s)] *)
Definition test (r : regex) (s : string) : bool := match exec r s with Some _ => true | None => false end.
(** [match\[n\]]: [None] for undefined *)
Definition group (n : nat) (y : place) : option string := (λ f, f.2.2) <$> list_find (λ c, c.1 = n) (captures y).
(** [text.matchAll(pattern)]: every match, each from where the last one ended, or one
    further when it was empty. *)
Fixpoint matchAll (n : nat) (r : regex) (before rest : list ascii) : list (place * place) :=
  match n with
  | O => []
  | S n =>
      match search (length rest) r before rest with
      | None => []
      | Some (x, y) =>
          (x, y) :: (if progress x y then matchAll n r (behind y) (ahead y)
                     else match ahead y with c :: t => matchAll n r (c :: behind y) t | [] => [] end)
      end
  end.

(** ** The usual pieces *)
Definition only (c : ascii) : regex := Chr (λ d, byte d =? byte c).
(** A literal text *)
Fixpoint text (s : string) : regex :=
  match s with EmptyString => Empty | String c EmptyString => only c | String c s => Seq (only c) (text s) end.
Definition star (r : regex) : regex := Star true r.
Definition oneOrMore (r : regex) : regex := Seq r (star r).
Definition optional (r : regex) : regex := Alt r Empty.
Fixpoint all (l : list regex) : regex :=
  match l with [] => Empty | [r] => r | r :: l => Seq r (all l) end.
Fixpoint oneOf (l : list regex) : regex :=
  match l with [] => Empty | [r] => r | r :: l => Alt r (oneOf l) end.
Definition isLetter (c : ascii) : bool :=
  ((65 <=? byte c) && (byte c <=? 90)) || ((97 <=? byte c) && (byte c <=? 122)).
Definition digit : regex := Chr isDigit.                                            (* \d *)
Definition wordChar : regex := Chr (λ c, isLetter c || isDigit c || (byte c =? 95)).   (* \w *)
Definition spaceChar : regex :=                                                     (* \s, of ASCII *)
  Chr (λ c, (byte c =? 32) || ((9 <=? byte c) && (byte c <=? 13))).
Definition anyChar : regex := Chr (λ c, negb (lineTerminator c)).                    (* . *)
Definition noneOf (cs : list Z) : regex := Chr (λ c, negb (existsb (Z.eqb (byte c)) cs)).  (* a negated class *)

(** * What an expression matches *)
Definition steps (S : place → place → Prop) (groups : list nat) (x y : place) : Prop :=
  S (clear groups x) y ∧ progress x y = true.
Fixpoint den (r : regex) (x y : place) : Prop :=
  match r with
  | Empty => y = x
  | Chr p => ∃ c t, ahead x = c :: t ∧ p c = true ∧ y = read c t x
  | Seq r s => ∃ z, den r x z ∧ den s z y
  | Alt r s => den r x y ∨ den s x y
  | Star _ r => rtc (steps (den r) (groupsOf r)) x y
  | Group n r => ∃ z, den r x z ∧ y = capture n x z
  | NotAhead r => y = x ∧ ∀ z, ¬ den r x z
  | _ => y = x ∧ holds r x = true
  end.
Lemma orElse_Some {A} (a b : option A) z : orElse a b = Some z → a = Some z ∨ b = Some z.
Proof. destruct a; auto. Qed.
Lemma orElse_is_Some {A} (a b : option A) : is_Some (orElse a b) ↔ is_Some a ∨ is_Some b.
Proof. destruct a; cbn; [|by split; [right|intros [[? [=]]|]]]. split; eauto. Qed.
(** [body] computes the relation [S]. *)
Definition computes (body : place → (place → option place) → option place) (S : place → place → Prop) : Prop :=
  ∀ x k, (∀ z, body x k = Some z → ∃ y, S x y ∧ k y = Some z) ∧ (∀ y, S x y → is_Some (k y) → is_Some (body x k)).
Section loop_computes.
Context (body : place → (place → option place) → option place) (S : place → place → Prop).
Context (greedy : bool) (groups : list nat) (Hbody : computes body S).
Lemma loop_sound n x k z : loop body greedy groups n x k = Some z → ∃ y, rtc (steps S groups) x y ∧ k y = Some z.
Proof using Hbody.
  revert x. induction n as [|n IH]; intros x; cbn; [by exists x; split; [constructor|]|].
  intros H. assert (k x = Some z ∨ body (clear groups x) (λ y, if progress x y then loop body greedy groups n y k else None) = Some z) as Hz.
  { destruct greedy; apply orElse_Some in H; tauto. }
  destruct Hz as [Hz|Hz]; [by exists x; split; [constructor|]|].
  apply Hbody in Hz as (y & Hy & Hz). destruct (progress x y) eqn:Hp; [|done].
  apply IH in Hz as (w & Hw & Hz). exists w. split; [|done]. eapply rtc_l; [|exact Hw]. by split.
Qed.
Lemma loop_complete n x y k : (length (ahead x) ≤ n)%nat → rtc (steps S groups) x y → is_Some (k y) →
  is_Some (loop body greedy groups n x k).
Proof using Hbody.
  intros Hn Hs Hk. revert n Hn. induction Hs as [x|x w y [Hw Hp] Hs IH]; intros n Hn.
  - destruct n as [|n]; cbn; [done|]. destruct greedy; apply orElse_is_Some; auto.
  - pose proof Hp as Hlt. unfold progress in Hlt. apply Nat.ltb_lt in Hlt.
    destruct n as [|n]; cbn; [lia|].
    assert (is_Some (body (clear groups x) (λ v, if progress x v then loop body greedy groups n v k else None))) as Hm.
    { eapply Hbody; [exact Hw|]. rewrite Hp. apply IH; [done|lia]. }
    destruct greedy; apply orElse_is_Some; auto.
Qed.
End loop_computes.
Lemma assertion_computes r :
  computes (λ x k, if holds r x then k x else None) (λ x y, y = x ∧ holds r x = true).
Proof.
  intros x k. split.
  - intros z. destruct (holds r x); [|done]. by exists x.
  - by intros y [-> ->].
Qed.
Lemma run_computes r : computes (run r) (den r).
Proof.
  induction r as [|p|r IHr s IHs|r IHr s IHs|greedy r IH|n r IH|r IH| | | |]; intros x k; cbn.
  - split; [by exists x|by intros ? ->].
  - destruct (ahead x) as [|c t]; [split; [done|by intros ? (?&?&?&_)]|]. destruct (p c) eqn:Hp.
    + split; [by intros z Hz; exists (read c t x); split; [exists c, t|]|]. by intros y (?&?&[= <- <-]&_&->).
    + split; [done|]. intros y (?&?&[= <- <-]&?&_). congruence.
  - split.
    + intros z (w & Hw & (y & Hy & Hz)%IHs)%IHr. exists y. split; [by exists w|done].
    + intros y (w & Hw & Hy) Hk. eapply IHr; [exact Hw|]. by eapply IHs.
  - split.
    + intros z [(y & ? & ?)%IHr|(y & ? & ?)%IHs]%orElse_Some; eauto.
    + intros y [H|H] Hk; apply orElse_is_Some; [left; by eapply IHr|right; by eapply IHs].
  - split.
    + intros z. by apply loop_sound.
    + intros y. by apply loop_complete.
  - split.
    + intros z (y & Hy & Hz)%IH. exists (capture n x y). split; [by exists y|done].
    + intros y (w & Hw & ->) Hk. by eapply IH.
  - destruct (run r x Some) as [w|] eqn:Hr.
    + apply IH in Hr as (y & Hy & _). split; [done|]. intros ? [_ H]. by destruct (H y).
    + split; [|by intros ? [-> _]]. intros z Hz. exists x. split; [|done]. split; [done|].
      intros y Hy. destruct (IH x Some) as [_ Hc]. rewrite Hr in Hc. by destruct (Hc y Hy).
  - apply (assertion_computes Start).
  - apply (assertion_computes Finish).
  - apply (assertion_computes LineStart).
  - apply (assertion_computes LineEnd).
Qed.
Lemma run_sound r x y : run r x Some = Some y → den r x y.
Proof. intros (w & Hw & [= ->])%run_computes. done. Qed.
Lemma run_complete r x y : den r x y → is_Some (run r x Some).
Proof. intros H. eapply run_computes; [exact H|done]. Qed.

(** * Languages *)
(** An expression without assertions matches by what it reads alone. *)
Fixpoint plain (r : regex) : bool :=
  match r with
  | Empty | Chr _ => true
  | Seq r s | Alt r s => plain r && plain s
  | Star _ r | Group _ r => plain r
  | _ => false
  end.
Inductive iterated (P : list ascii → Prop) : list ascii → Prop :=
| iterated_nil : iterated P []
| iterated_app w v : P w → iterated P v → iterated P (w ++ v).
Fixpoint lang (r : regex) (w : list ascii) : Prop :=
  match r with
  | Empty => w = []
  | Chr p => ∃ c, w = [c] ∧ p c = true
  | Seq r s => ∃ u v, w = u ++ v ∧ lang r u ∧ lang s v
  | Alt r s => lang r w ∨ lang s w
  | Star _ r => iterated (lang r) w
  | Group _ r => lang r w
  | _ => False
  end.
(** [y] is [x] after reading [w], whatever the captures. *)
Definition after (x : place) (w : list ascii) (y : place) : Prop :=
  ahead x = w ++ ahead y ∧ behind y = rev w ++ behind x.
Lemma after_trans x u z v y : after x u z → after z v y → after x (u ++ v) y.
Proof. intros [H1 H2] [H3 H4]. split; [by rewrite H1, H3, app_assoc|]. by rewrite H4, H2, rev_app_distr, app_assoc. Qed.
Lemma den_lang r x y : plain r = true → den r x y → ∃ w, after x w y ∧ lang r w.
Proof.
  revert x y. induction r as [|p|r IHr s IHs|r IHr s IHs|greedy r IH|n r IH|r IH| | | |]; intros x y Hp; cbn in *; try done.
  - intros ->. by exists [].
  - intros (c & t & Ha & Hc & ->). exists [c]. split; [done|by exists c].
  - apply andb_prop in Hp as [Hr Hs]. intros (z & (u & Hu & Lu)%IHr & (v & Hv & Lv)%IHs); [|done..].
    exists (u ++ v). split; [by eapply after_trans|by exists u, v].
  - apply andb_prop in Hp as [Hr Hs]. intros [(w & ? & ?)%IHr|(w & ? & ?)%IHs]; eauto.
  - induction 1 as [x|x z y [Hz _] _ (v & Hv & Lv)]; [exists []; split; [done|constructor]|].
    apply IH in Hz as (w & Hw & Lw); [|done]. exists (w ++ v). split; [|by constructor].
    eapply after_trans; [|exact Hv]. exact Hw.
  - intros (z & (w & Hw & Lw)%IH & ->); [|done]. by exists w.
Qed.
Lemma lang_den r x w t : plain r = true → lang r w → ahead x = w ++ t →
  ∃ y, den r x y ∧ after x w y ∧ ahead y = t.
Proof.
  revert x w t. induction r as [|p|r IHr s IHs|r IHr s IHs|greedy r IH|n r IH|r IH| | | |]; intros x w t Hp; cbn in *; try done.
  - intros -> Hx. by exists x.
  - intros (c & -> & Hc) Hx. exists (read c t x). split; [by exists c, t|]. by split.
  - apply andb_prop in Hp as [Hr Hs]. intros (u & v & -> & Lu & Lv) Hx. rewrite <-app_assoc in Hx.
    destruct (IHr x u (v ++ t)) as (z & Dz & Az & Hz); [done..|]. destruct (IHs z v t) as (y & Dy & Ay & Hy); [done..|].
    exists y. split; [by exists z|]. split; [by eapply after_trans|done].
  - apply andb_prop in Hp as [Hr Hs]. intros [Lw|Lw] Hx.
    + destruct (IHr x w t) as (y & ? & ?); eauto.
    + destruct (IHs x w t) as (y & ? & ?); eauto.
  - intros Lw. revert x. induction Lw as [|w v Lw Lv IHv]; intros x Hx; [exists x; split; [constructor|by split]|].
    destruct w as [|c w]; [by apply IHv|]. rewrite <-app_assoc in Hx.
    destruct (IH (clear (groupsOf r) x) (c :: w) (v ++ t)) as (z & Dz & Az & Hz); [done..|].
    destruct (IHv z Hz) as (y & Dy & Ay & Hy). exists y. split; [|by split; [eapply after_trans|]].
    eapply rtc_l; [split; [exact Dz|]|exact Dy]. unfold progress. rewrite Hx, Hz. apply Nat.ltb_lt. cbn. rewrite !length_app. lia.
  - intros Lw Hx. destruct (IH x w t) as (z & Dz & Az & Hz); [done..|]. exists (capture n x z). split; [by exists z|done].
Qed.

(** [^r$] tests the whole input. *)
Lemma search_anchored n r before rest : before ≠ [] → search n (Seq Start r) before rest = None.
Proof.
  revert before rest. induction n as [|n IH]; intros before rest Hb; destruct before as [|c before]; [done| |done|]; cbn; [done|].
  destruct rest; [done|]. by apply IH.
Qed.
Lemma test_anchored r s : plain r = true →
  test (Seq Start (Seq r Finish)) s = true ↔ lang r (String.list_ascii_of_string s).
Proof.
  intros Hp. unfold test, exec. set (l := String.list_ascii_of_string s).
  assert (is_Some (search (length l) (Seq Start (Seq r Finish)) [] l) ↔ is_Some (run (Seq Start (Seq r Finish)) (Place [] l []) Some)) as Hs.
  { destruct l as [|c l]; cbn [search length]; destruct (run _ _ _); [by split; eauto|done|by split; eauto|].
    by rewrite search_anchored. }
  transitivity (is_Some (search (length l) (Seq Start (Seq r Finish)) [] l)).
  { by destruct (search _ _ _ _). }
  rewrite Hs. split.
  - intros [y Hy%run_sound]. destruct Hy as (z & [-> _] & w & Hw & -> & Hf).
    apply den_lang in Hw as (v & [Hv _] & Lv); [|done]. cbn in *. destruct (ahead w); [|done].
    rewrite app_nil_r in Hv. by rewrite Hv.
  - intros Ll. destruct (lang_den r (Place [] l []) l []) as (y & Dy & _ & Hy); [done..|cbn; by rewrite app_nil_r|].
    apply (run_complete _ _ y). exists (Place [] l []). split; [done|]. exists y. split; [done|]. split; [done|]. cbn. by rewrite Hy.
Qed.
