(* ===== verification/Semver.v ===== *)
(** [isSemver] of [scripts/release/version.mjs]: the pattern of the versions, and the
    grammar of Semantic Versioning 2.0.0 it must accept exactly. *)
From Stdlib Require Import Ascii.
From S2P Require Import Prelude Text Json Regexp.
Open Scope Z_scope.
Open Scope axton_scope.

Definition DOT : ascii := char 46.
Definition HYPHEN : ascii := char 45.
Definition PLUS : ascii := char 43.
Definition ZERO : ascii := char 48.
Definition nonzero (c : ascii) : bool := (49 <=? byte c) && (byte c <=? 57).
Definition letterOrHyphen (c : ascii) : bool := isLetter c || (byte c =? 45).
Definition identifierChar (c : ascii) : bool := isDigit c || isLetter c || (byte c =? 45).

Definition numeric : regex := Alt (only ZERO) (Seq (Chr nonzero) (star digit)).
Definition preIdent : regex :=
  oneOf [only ZERO; Seq (Chr nonzero) (star digit); all [star digit; Chr letterOrHyphen; star (Chr identifierChar)]].
Definition buildIdent : regex := oneOrMore (Chr identifierChar).
Definition dotted (r : regex) : regex := Seq r (star (Seq (only DOT) r)).
Definition semverBody : regex :=
  all [Group 1 numeric; only DOT; Group 2 numeric; only DOT; Group 3 numeric;
       optional (Seq (only HYPHEN) (Group 4 (dotted preIdent)));
       optional (Seq (only PLUS) (Group 5 (dotted buildIdent)))].
Definition SEMVER : regex := Seq Start (Seq semverBody Finish).
Definition isSemver (v : value) : bool := match v with VStr s => test SEMVER s | _ => false end.

Example semver_ex :
  (isSemver ∘ VStr) <$> ["1.0.0"; "0.12.3-rc.1+sha.5114f85"; "1.0.0--.x-y.0a"; "01.0.0"; "1.0"; "1.0.0-01"; "1.0.0-"; " 1.0.0"]
  = [true; true; true; false; false; false; false; false].
Proof. vm_compute. reflexivity. Qed.

(** * The grammar *)
Definition noLeadingZero (w : list ascii) : Prop := ∀ v, w = ZERO :: v → v = [].
Definition numericIdentifier (w : list ascii) : Prop := w ≠ [] ∧ Forall isDigit w ∧ noLeadingZero w.
Definition identifier (w : list ascii) : Prop := w ≠ [] ∧ Forall identifierChar w.
(** Identifiers are of letters, digits and hyphens; a numeric one has no leading zero. *)
Definition preIdentifier (w : list ascii) : Prop := identifier w ∧ (Forall isDigit w → noLeadingZero w).
(** Identifiers separated by dots, after a mark; nothing when there are none. *)
Fixpoint dots (l : list (list ascii)) : list ascii :=
  match l with [] => [] | [w] => w | w :: l => w ++ DOT :: dots l end.
Definition suffix (mark : ascii) (l : list (list ascii)) : list ascii :=
  match l with [] => [] | _ => mark :: dots l end.
Definition semver (w : list ascii) : Prop := ∃ major minor patch pre build,
  numericIdentifier major ∧ numericIdentifier minor ∧ numericIdentifier patch
  ∧ Forall preIdentifier pre ∧ Forall identifier build
  ∧ w = dots [major; minor; patch] ++ suffix HYPHEN pre ++ suffix PLUS build.

(** * The pattern accepts the grammar *)
Lemma only_lang c w : lang (only c) w ↔ w = [c].
Proof.
  cbn. split; [|intros ->; exists c; by rewrite Z.eqb_refl].
  by intros (d & -> & ->%Z.eqb_eq%byte_inj).
Qed.
Lemma star_Chr p w : lang (star (Chr p)) w ↔ Forall p w.
Proof.
  cbn. split.
  - induction 1 as [|? v (c & -> & Hc) _ IH]; [constructor|]. constructor; [by apply Is_true_true|done].
  - induction 1 as [|c w Hc _ IH]; [constructor|]. apply (iterated_app _ [c]); [|done]. exists c. by apply Is_true_true in Hc.
Qed.
Lemma Chr_star p q w : lang (Seq (Chr p) (star (Chr q))) w ↔ ∃ c v, w = c :: v ∧ p c ∧ Forall q v.
Proof.
  change (lang (Seq (Chr p) (star (Chr q))) w) with (∃ u v, w = u ++ v ∧ lang (Chr p) u ∧ lang (star (Chr q)) v).
  setoid_rewrite star_Chr. split.
  - intros (u & v & -> & (c & -> & Hc) & Hv). exists c, v. split_and!; [done|by apply Is_true_true|done].
  - intros (c & v & -> & Hc & Hv). exists [c], v. split_and!; [done|exists c; by apply Is_true_true in Hc|done].
Qed.
Lemma buildIdent_lang w : lang buildIdent w ↔ identifier w.
Proof.
  unfold buildIdent, oneOrMore. rewrite Chr_star. split.
  - intros (c & v & -> & Hc & Hv). split; [done|by constructor].
  - intros [Hn Hw]. destruct Hw as [|c v Hc Hv]; [done|]. by exists c, v.
Qed.
Lemma zero_or_nonzero c : isDigit c → c = ZERO ∨ nonzero c.
Proof.
  intros Hc%Is_true_true. unfold isDigit in Hc. apply andb_prop in Hc as [H1%Z.leb_le H2%Z.leb_le].
  destruct (Z.eq_dec (byte c) 48) as [E|N]; [left; by apply byte_inj|right].
  apply Is_true_true. unfold nonzero. apply andb_true_intro. split; apply Z.leb_le; lia.
Qed.
Lemma nonzero_digit c : nonzero c → isDigit c ∧ c ≠ ZERO.
Proof.
  intros Hc%Is_true_true. unfold nonzero in Hc. apply andb_prop in Hc as [H1%Z.leb_le H2%Z.leb_le]. split.
  - apply Is_true_true. unfold isDigit. apply andb_true_intro. split; apply Z.leb_le; lia.
  - intros ->. vm_compute in H1. done.
Qed.
Lemma numeric_lang w : lang numeric w ↔ numericIdentifier w.
Proof.
  change (lang numeric w) with (lang (only ZERO) w ∨ lang (Seq (Chr nonzero) (star digit)) w).
  unfold digit. rewrite only_lang, Chr_star. split.
  - intros [->|(c & v & -> & [Hc Hz]%nonzero_digit & Hv)]; split_and!; try done.
    + by repeat constructor.
    + by intros v [= <-].
    + by constructor.
    + by intros ? [= -> _].
  - intros (Hn & Hw & Hz). destruct Hw as [|c v Hc Hv]; [done|].
    destruct (zero_or_nonzero c Hc) as [->|Hc']; [left; by rewrite (Hz v)|right; by exists c, v].
Qed.
Lemma digit_identifierChar c : isDigit c → identifierChar c.
Proof. intros Hc%Is_true_true. apply Is_true_true. unfold identifierChar. by rewrite Hc. Qed.
Lemma identifierChar_split c : identifierChar c ↔ isDigit c ∨ letterOrHyphen c.
Proof.
  unfold identifierChar, letterOrHyphen. rewrite <-!orb_assoc. destruct (isDigit c); cbn; naive_solver.
Qed.
Lemma letterOrHyphen_digit c : letterOrHyphen c → ¬ isDigit c.
Proof.
  intros Hc%Is_true_true Hd%Is_true_true. unfold isDigit in Hd. apply andb_prop in Hd as [H1%Z.leb_le H2%Z.leb_le].
  unfold letterOrHyphen, isLetter in Hc.
  rewrite !orb_true_iff, !andb_true_iff, !Z.leb_le, Z.eqb_eq in Hc. lia.
Qed.
(** Digits up to the first character that is none *)
Lemma digits_split w : Forall identifierChar w →
  Forall isDigit w ∨ ∃ u c v, w = u ++ c :: v ∧ Forall isDigit u ∧ letterOrHyphen c ∧ Forall identifierChar v.
Proof.
  induction 1 as [|c w Hc Hw IH]; [by left|]. apply identifierChar_split in Hc as [Hc|Hc].
  - destruct IH as [IH|(u & d & v & -> & ? & ? & ?)]; [left; by constructor|right].
    exists (c :: u), d, v. split_and!; try done. by constructor.
  - right. by exists [], c, w.
Qed.
Lemma preIdent_lang w : lang preIdent w ↔ preIdentifier w.
Proof.
  transitivity (lang numeric w ∨ lang (Seq (star digit) (Seq (Chr letterOrHyphen) (star (Chr identifierChar)))) w).
  { change (lang preIdent w) with
      (lang (only ZERO) w ∨ lang (Seq (Chr nonzero) (star digit)) w ∨ lang (Seq (star digit) (Seq (Chr letterOrHyphen) (star (Chr identifierChar)))) w).
    change (lang numeric w) with (lang (only ZERO) w ∨ lang (Seq (Chr nonzero) (star digit)) w). tauto. }
  rewrite numeric_lang.
  transitivity (numericIdentifier w ∨ ∃ u c v, w = u ++ c :: v ∧ Forall isDigit u ∧ letterOrHyphen c ∧ Forall identifierChar v).
  { apply or_iff_compat_l. change (lang (Seq ?r ?s) w) with (∃ u v, w = u ++ v ∧ lang r u ∧ lang s v).
    unfold digit. setoid_rewrite star_Chr. setoid_rewrite Chr_star. naive_solver. }
  split.
  - intros [(Hn & Hd & Hz)|(u & c & v & -> & Hu & Hc & Hv)].
    + split; [|done]. split; [done|]. eapply Forall_impl; [exact Hd|]. apply digit_identifierChar.
    + split; [split|].
      * by destruct u.
      * apply Forall_app. split; [eapply Forall_impl; [exact Hu|]; apply digit_identifierChar|].
        constructor; [|done]. apply identifierChar_split. by right.
      * intros [_ [Hd _]%Forall_cons]%Forall_app. by apply letterOrHyphen_digit in Hc.
  - intros [[Hn Hw] Hz]. destruct (digits_split w Hw) as [Hd|H]; [left; split_and!; auto|by right].
Qed.
Lemma dotted_lang r P w : (∀ v, lang r v ↔ P v) → lang (dotted r) w ↔ ∃ l, l ≠ [] ∧ Forall P l ∧ w = dots l.
Proof.
  intros Hr. change (lang (dotted r) w) with (∃ u v, w = u ++ v ∧ lang r u ∧ iterated (lang (Seq (only DOT) r)) v).
  assert (∀ v, iterated (lang (Seq (only DOT) r)) v ↔ ∃ l, Forall P l ∧ ∀ u, u ++ v = dots (u :: l)) as Hs.
  { intros v. split.
    - induction 1 as [|? t (d & x & -> & Hd & Hx) _ (l & Hl & Ht)]; [exists []; split; [done|]; intros u; by rewrite app_nil_r|].
      apply only_lang in Hd as ->. exists (x :: l). split; [constructor; [by apply Hr|done]|].
      intros u. rewrite <-app_assoc. change (dots (u :: x :: l)) with (u ++ DOT :: dots (x :: l)). by rewrite <-Ht.
    - intros (l & Hl & Hv). specialize (Hv []). rewrite app_nil_l in Hv. subst v.
      induction Hl as [|x l Hx Hl IH]; [constructor|].
      assert (dots ([] :: x :: l) = ([DOT] ++ x) ++ dots ([] :: l)) as ->.
      { cbn. destruct l; cbn; [by rewrite app_nil_r|done]. }
      constructor; [|done]. exists [DOT], x. split_and!; [done|by apply only_lang|by apply Hr]. }
  split.
  - intros (u & v & -> & Hu & (l & Hl & Hv)%Hs). exists (u :: l). split_and!; [done|constructor; [by apply Hr|done]|apply Hv].
  - intros (l & Hn & Hl & ->). destruct Hl as [|u l Hu Hl]; [done|]. exists u, (match l with [] => [] | _ => DOT :: dots l end).
    split_and!; [destruct l; cbn; [by rewrite app_nil_r|done]|by apply Hr|]. apply Hs. exists l. split; [done|].
    intros x. destruct l; cbn; [by rewrite app_nil_r|done].
Qed.
(** An optional tail of identifiers *)
Lemma tail_lang c n r P w : (∀ v, lang r v ↔ P v) →
  lang (optional (Seq (only c) (Group n (dotted r)))) w ↔ ∃ l, Forall P l ∧ w = suffix c l.
Proof.
  intros Hr. change (lang (optional ?s) w) with (lang s w ∨ w = []).
  change (lang (Seq (only c) (Group n (dotted r))) w) with (∃ u v, w = u ++ v ∧ lang (only c) u ∧ lang (dotted r) v).
  setoid_rewrite only_lang. setoid_rewrite (dotted_lang r P); [|done]. split.
  - intros [(u & v & -> & -> & l & Hn & Hl & ->)| ->]; [exists l; split; [done|]; by destruct l|by exists []].
  - intros ([|x l] & Hl & ->); [by right|left]. exists [c], (dots (x :: l)). split_and!; [done..|]. by exists (x :: l).
Qed.
Lemma semverBody_lang w : lang semverBody w ↔ semver w.
Proof.
  change (lang semverBody w) with (∃ a w1, w = a ++ w1 ∧ lang numeric a ∧ ∃ d w2, w1 = d ++ w2 ∧ lang (only DOT) d ∧
    ∃ b w3, w2 = b ++ w3 ∧ lang numeric b ∧ ∃ e w4, w3 = e ++ w4 ∧ lang (only DOT) e ∧
    ∃ p w5, w4 = p ++ w5 ∧ lang numeric p ∧ ∃ u v, w5 = u ++ v ∧
      lang (optional (Seq (only HYPHEN) (Group 4 (dotted preIdent)))) u ∧
      lang (optional (Seq (only PLUS) (Group 5 (dotted buildIdent)))) v).
  setoid_rewrite numeric_lang. setoid_rewrite only_lang.
  setoid_rewrite (tail_lang HYPHEN 4 preIdent preIdentifier); [|apply preIdent_lang].
  setoid_rewrite (tail_lang PLUS 5 buildIdent identifier); [|apply buildIdent_lang]. split.
  - intros (a & ? & -> & Ha & ? & ? & -> & -> & b & ? & -> & Hb & ? & ? & -> & -> & p & ? & -> & Hp & u & v & -> & (pre & Hpre & ->) & (build & Hbuild & ->)).
    exists a, b, p, pre, build. split_and!; [done..|]. cbn. by repeat (rewrite <-app_assoc; cbn).
  - intros (a & b & p & pre & build & Ha & Hb & Hp & Hpre & Hbuild & ->).
    exists a, ([DOT] ++ b ++ [DOT] ++ p ++ suffix HYPHEN pre ++ suffix PLUS build).
    split; [by cbn; repeat (rewrite <-app_assoc; cbn)|]. split; [done|]. do 2 eexists. split; [done|]. split; [done|].
    do 2 eexists. split; [done|]. split; [done|]. do 2 eexists. split; [done|]. split; [done|].
    do 2 eexists. split; [done|]. split; [done|]. do 2 eexists. split; [done|]. split; eauto.
Qed.
Theorem isSemver_grammar v : isSemver v = true ↔ ∃ s, v = VStr s ∧ semver (String.list_ascii_of_string s).
Proof.
  unfold isSemver. split.
  - destruct v as [| | | | |s| | | |]; try done. intros H. exists s. split; [done|].
    apply semverBody_lang, test_anchored; done.
  - intros (s & -> & H). apply test_anchored; [done|]. by apply semverBody_lang.
Qed.
