(* ===== verification/Versions.v ===== *)
(** One release version for every artifact: [check] of [scripts/release/version.mjs].

    The repository is a tree of directories and files; a symbolic link is not followed
    and no path climbs above the root.  Its documents are parsed JSON, where a key that
    objects inherit ([constructor] and the like) does not occur. *)
From Stdlib Require Import Ascii.
From S2P Require Import Prelude Text Json Regexp Semver.
From stdpp Require Import sorting.
Open Scope Z_scope.
Open Scope axton_scope.

(** * Files *)
Inductive node := File (content : string) | Directory (entries : list (string * node)).
(** [s.split(c)] *)
Fixpoint splitOn (c : ascii) (s : string) : list string :=
  match s with
  | EmptyString => [EmptyString]
  | String d s =>
      if Ascii.eqb d c then EmptyString :: splitOn c s
      else match splitOn c s with w :: l => String d w :: l | [] => [] end
  end.
Definition SLASH : ascii := char 47.
(** [path.join]: empty and dot segments vanish, a double dot drops the one before. *)
Fixpoint normalize (done : list string) (segments : list string) : option (list string) :=
  match segments with
  | [] => Some (rev done)
  | s :: l =>
      if String.eqb s EmptyString || String.eqb s "." then normalize done l
      else if String.eqb s ".." then match done with [] => None | _ :: d => normalize d l end
      else normalize (s :: done) l
  end.
Fixpoint descend (n : node) (path : list string) : option node :=
  match path, n with
  | [], _ => Some n
  | s :: path, Directory entries => n ← fieldOf s entries; descend n path
  | _, File _ => None
  end.
Definition at_ (root : node) (path : string) : option node := normalize [] (splitOn SLASH path) ≫= descend root.
Definition existsSync (root : node) (path : string) : bool := match at_ root path with Some _ => true | None => false end.
Definition readFileSync (root : node) (path : string) : result string :=
  match at_ root path with
  | Some (File t) => Ok t
  | Some (Directory _) => Throw (Error "EISDIR")
  | None => Throw (Error "ENOENT")
  end.
Definition readdirSync (root : node) (path : string) : result (list string) :=
  match at_ root path with
  | Some (Directory entries) => Ok entries.*1
  | Some (File _) => Throw (Error "ENOTDIR")
  | None => Throw (Error "ENOENT")
  end.
Definition readJson (root : node) (path : string) : result value := t ← readFileSync root path; parse t.

(** * Values of documents *)
Definition INTERNAL_SCOPE : string := "@axtonjs/".
Definition DEPENDENCY_FIELDS : list string :=
  ["dependencies"; "optionalDependencies"; "peerDependencies"; "devDependencies"].
Definition SKIPPED_DIRECTORIES : list string :=
  [".git"; ".dart_tool"; ".tools"; ".venv"; "build"; "dist"; "node_modules"; "site"; "target"].
(** [Object.entries]; the characters of a string are left out, since no key of the
    program is a number. *)
Definition entries (v : value) : list (string * value) :=
  match v with
  | VObj fields => fields
  | VArr items => imap (λ i x, (pretty (Z.of_nat i), x)) items
  | _ => []
  end.
(** [key in v] with [v\[key\]], of an object *)
Definition own (v : value) (key : string) : option value :=
  match v with
  | VArr items => if String.eqb key "length" then Some (VNum (NInt (Z.of_nat (length items)))) else fieldOf key (entries v)
  | _ => fieldOf key (entries v)
  end.
(** [v?.\[key\]] *)
Definition optionalGet (v : value) (key : string) : value := if nullish v then VUndef else get v key.
(** [for (const x of v)]; of a string, its code points *)
Definition iterate (v : value) : result (list value) :=
  match v with
  | VArr items => Ok items
  | VStr s => Ok ((λ cp, VStr (fromCodePoints [cp])) <$> codePoints s)
  | _ => Throw (TypeError "is not iterable")
  end.

Definition segmentStart : regex := Chr (λ c, isLetter c || (byte c =? 95)).
Definition segmentChar : regex := Chr (λ c, isLetter c || isDigit c || (byte c =? 95) || (byte c =? 45)).
Definition segmentPattern : regex :=
  oneOf [Seq (only DOT) (Group 1 (Seq segmentStart (star segmentChar)));
         all [text "['"; Group 2 (star (noneOf [39])); text "']"];
         all [only "["; only QUOTE; Group 3 (star (noneOf [34])); only QUOTE; only "]"]].
(** From a position on; every segment consumes, so the length of the path is enough. *)
Fixpoint segmentsFrom (fuel : nat) (path : string) (x : place) : result (list string) :=
  match ahead x, fuel with
  | [], _ | _, O => Ok []
  | _, S fuel =>
      match run segmentPattern (Place (behind x) (ahead x) []) Some with
      | None => Throw (Error ("unsupported JSONPath " +:+ path))
      | Some y =>
          segments ← segmentsFrom fuel path y;
          Ok (default EmptyString (orElse (group 1 y) (orElse (group 2 y) (group 3 y))) :: segments)
      end
  end.
Definition jsonPathSegments (path : value) : result (list string) :=
  match path with
  | VStr s =>
      match s with
      | String c rest =>
          if byte c =? 36 then segmentsFrom (String.length s) s (Place [c] (String.list_ascii_of_string rest) [])
          else Throw (Error ("unsupported JSONPath " +:+ s))
      | EmptyString => Throw (Error ("unsupported JSONPath " +:+ s))
      end
  | _ => Throw (TypeError "path.startsWith is not a function")
  end.
Fixpoint follow (v : value) (segments : list string) : value :=
  match segments with
  | [] => v
  | s :: segments => match own v s with Some x => follow x segments | None => VUndef end
  end.
Definition jsonPathValue (document path : value) : result value :=
  segments ← jsonPathSegments path; Ok (follow document segments).

Example segments_ex :
  jsonPathSegments (VStr "$.packages['packages/native'].dependencies['@axtonjs/native']")
  = Ok ["packages"; "packages/native"; "dependencies"; "@axtonjs/native"]
  ∧ jsonPathSegments (VStr "$..x") = Throw (Error "unsupported JSONPath $..x").
Proof. vm_compute. done. Qed.

Definition LINE_FEED : ascii := char 10.
Definition headerPattern : regex :=
  all [Start; star spaceChar; only "["; Group 1 (oneOrMore (noneOf [93])); only "]"; star spaceChar; Finish].
Definition keyChar : regex := Chr (λ c, isLetter c || isDigit c || (byte c =? 95) || (byte c =? 45)).
Definition quoted (n : nat) : regex := all [only QUOTE; Group n (star (noneOf [34])); only QUOTE].
Definition entryPattern : regex :=
  all [Start; star spaceChar; Group 1 (oneOrMore keyChar); star spaceChar; only "="; star spaceChar; quoted 2].
Fixpoint tomlLines (table : string) (key : option string) (current : string) (lines : list string) : value :=
  match lines with
  | [] => VUndef
  | line :: lines =>
      match exec headerPattern line with
      | Some (_, y) => tomlLines table key (trim (default EmptyString (group 1 y))) lines
      | None =>
          match exec entryPattern line with
          | Some (_, y) =>
              if String.eqb current table && bool_decide (group 1 y = key) then VStr (default EmptyString (group 2 y))
              else tomlLines table key current lines
          | None => tomlLines table key current lines
          end
      end
  end.
Definition tomlValue (content : string) (path : value) : result value :=
  segments ← jsonPathSegments path;
  Ok (tomlLines (String.concat "." (removelast segments)) (last segments) EmptyString (splitOn LINE_FEED content)).

(** * The release *)
Definition releaseVersion (root : node) : result value := doc ← readJson root ".release-please-manifest.json"; dot doc ".".
Definition releaseConfig (root : node) : result value :=
  config ← readJson root "release-please-config.json";
  packages ← dot config "packages";
  let unit := optionalGet packages "." in
  if negb (truthy unit) || negb (length (entries packages) =? 1)%nat then
    Throw (Error "release-please-config.json must define exactly one root release unit")
  else Ok (VObj (foldl (λ fields '(k, x), setField k x fields) (entries config) (entries unit))).

(** [walk]: the paths of the files of a name, of no skipped directory *)
Definition text_le (a b : string) : Prop := String.leb a b = true.
#[export] Instance text_le_dec : RelDecision text_le.
Proof. intros a b. unfold text_le. apply _. Defined.
Fixpoint walkFrom (name prefix : string) (n : node) : list string :=
  match n with
  | File _ => []
  | Directory entries =>
      (fix go (l : list (string * node)) : list string := match l with
       | [] => []
       | (entry, n) :: l =>
           (match n with
            | Directory _ =>
                if bool_decide (entry ∈ SKIPPED_DIRECTORIES) then [] else walkFrom name (prefix +:+ entry +:+ "/") n
            | File _ => if String.eqb entry name then [prefix +:+ entry] else []
            end) ++ go l
       end) entries
  end.
Definition walk (root : node) (name : string) : list string := merge_sort text_le (walkFrom name EmptyString root).
Definition lockfiles (root : node) : list string * list string := (walk root "Cargo.lock", walk root "pubspec.lock").

Definition line (r : regex) : regex := Seq r (only LINE_FEED).
Definition quotedName (n : nat) : regex := all [only QUOTE; Group n (oneOrMore (noneOf [34])); only QUOTE].
Definition cargoPattern : regex :=
  all [line (text "[[package]]"); line (Seq (text "name = ") (quotedName 1));
       line (Seq (text "version = ") (quotedName 2)); NotAhead (text "source = ")].
Definition cargoLock (content : string) : list (string * string) :=
  let l := String.list_ascii_of_string content in
  (λ m, (default EmptyString (group 1 m.2), default EmptyString (group 2 m.2))) <$> matchAll (S (length l)) cargoPattern [] l.
Definition pubspecPattern : regex :=
  all [LineStart; line (text "  axton:");
       Star false (Alt (line (Seq (text "    ") (star anyChar))) (line (Seq (text "      ") (star anyChar))));
       line (text "    source: path"); text "    version: "; quotedName 1; LineEnd].
Definition pubspecLock (content : string) : list (string * string) :=
  match exec pubspecPattern content with Some (_, y) => [("axton"%string, default EmptyString (group 1 y))] | None => [] end.

(** ** [check] *)
(** What release-please rewrites: a file and a path in it *)
Definition place_ : Type := string * list string.
Definition genericPattern : regex :=
  all [oneOrMore digit; only DOT; oneOrMore digit; only DOT; oneOrMore digit;
       optional (Seq (only HYPHEN) (oneOrMore (Chr (λ c, isDigit c || isLetter c || (byte c =? 46) || (byte c =? 45)))));
       optional (Seq (only PLUS) (oneOrMore (Chr (λ c, isDigit c || isLetter c || (byte c =? 46) || (byte c =? 45)))))].
Definition includes (needle s : string) : bool := match String.index 0 needle s with Some _ => true | None => false end.
Definition genericValue (content : string) : value :=
  match list_find (λ l, includes "x-release-please-version" l = true) (splitOn LINE_FEED content) with
  | Some (_, l) => match exec genericPattern l with Some (x, y) => VStr (readSince x y) | None => VUndef end
  | None => VUndef
  end.
Section check.
Variable root : node.
Variable version : string.
Definition agrees (v : value) : bool := strictEq v (VStr version).
Definition report (b : bool) (message : string) : list string := if b then [] else [message].
(** What an entry of [extra-files] finds wrong, and what it covers *)
Definition extraFile (extra : value) : result (list string * list place_) :=
  file ← match extra with VStr _ => Ok extra | _ => dot extra "path" end;
  match file with
  | VStr file =>
      if negb (existsSync root file) then Ok ([file +:+ ": listed in extra-files but missing"], [])
      else
        content ← readFileSync root file;
        let kind := get extra "type" in
        let jsonpath := get extra "jsonpath" in
        let verdict (v : value) (covers : list place_) :=
          let where_ := if truthy jsonpath then file +:+ " " +:+ toText jsonpath else file in
          (match v with
           | VUndef => [where_ +:+ ": not found"]
           | _ => report (agrees v) (where_ +:+ ": " +:+ toText v +:+ ", expected " +:+ version)
           end, covers) in
        if strictEq kind (VStr "json") then
          document ← parse content;
          v ← jsonPathValue document jsonpath;
          segments ← jsonPathSegments jsonpath;
          Ok (verdict v [(file, segments)])
        else if strictEq kind (VStr "toml") then v ← tomlValue content jsonpath; Ok (verdict v [])
        else if strictEq kind (VStr "generic") then Ok (verdict (genericValue content) [])
        else Ok ([file +:+ ": unsupported extra-files type " +:+ toText kind], [])
  | _ => Throw (TypeError "The path argument must be of type string")
  end.
(** Every item of a loop, in order *)
Fixpoint gather {A B} (f : A → result (list B)) (l : list A) : result (list B) :=
  match l with [] => Ok [] | x :: l => a ← f x; b ← gather f l; Ok (a ++ b) end.
Fixpoint extraFiles (l : list value) : result (list string * list place_) :=
  match l with
  | [] => Ok ([], [])
  | extra :: l => a ← extraFile extra; b ← extraFiles l; Ok (a.1 ++ b.1, a.2 ++ b.2)
  end.
Section covered.
Variable covered : list place_.
Definition isCovered (file : string) (segments : list string) : bool := bool_decide ((file, segments) ∈ covered).
Definition internal (label : string) (document : value) (file : string) (prefix : list string) : result (list string) :=
  gather (λ field,
    dependencies ← dot document field;
    gather (λ '(name, spec),
      if negb (String.prefix INTERNAL_SCOPE name) then Ok []
      else Ok (
        report (agrees spec) (label +:+ ": " +:+ field +:+ " " +:+ name +:+ " is " +:+ toText spec +:+ ", expected exactly " +:+ version)
        ++ report (isCovered file (prefix ++ [field; name]))
             (label +:+ ": " +:+ field +:+ " " +:+ name +:+ " is not updated by release-please-config.json")))
      (entries dependencies)) DEPENDENCY_FIELDS.
Definition platformPackages (workspace : string) : result (list string) :=
  let platforms := workspace +:+ "/npm" in
  if negb (existsSync root platforms) then Ok []
  else
    targets ← readdirSync root platforms;
    gather (λ target,
      let platformFile := workspace +:+ "/npm/" +:+ target +:+ "/package.json" in
      if negb (existsSync root platformFile) then Ok []
      else Ok (report (isCovered platformFile ["version"]) (platformFile +:+ ": version is not updated by release-please-config.json")))
      targets.
Definition workspaceProblems (rootLock : value) (item : value) : result (list string) :=
  let workspace := toText item in
  let file := workspace +:+ "/package.json" in
  manifest ← readJson root file;
  let a := report (isCovered file ["version"]) (file +:+ ": version is not updated by release-please-config.json") in
  b ← internal file manifest file [];
  packages ← dot rootLock "packages";
  let entry := optionalGet packages workspace in
  if negb (truthy entry) then Ok (a ++ b ++ ["package-lock.json: no entry for workspace " +:+ workspace])
  else
    let c := report (agrees (get entry "version"))
      ("package-lock.json: " +:+ workspace +:+ " is " +:+ toText (get entry "version") +:+ ", expected " +:+ version) in
    let d := report (isCovered "package-lock.json" ["packages"; workspace; "version"]%string)
      ("package-lock.json: " +:+ workspace +:+ " version is not updated by release-please-config.json") in
    e ← internal ("package-lock.json " +:+ workspace) entry "package-lock.json" ["packages"; workspace]%string;
    f ← match item with
        | VStr _ => platformPackages workspace
        | _ => Throw (TypeError "The path argument must be of type string")
        end;
    Ok (a ++ b ++ c ++ d ++ e ++ f).
End covered.
Definition lockProblems (label : bool) (pattern : string → list (string * string)) (file : string) : result (list string) :=
  content ← readFileSync root file;
  gather (λ '(name, v), Ok (report (String.eqb v version)
    (file +:+ ": " +:+ (if label then name else "axton"%string) +:+ " is " +:+ v +:+ ", expected " +:+ version))) (pattern content).
End check.
Definition notSemver (v : value) : string :=
  ".release-please-manifest.json: " +:+ String QUOTE (toText v +:+ String QUOTE " is not a valid SemVer version").
Definition check (root : node) : result (list string) :=
  v ← releaseVersion root;
  match v with
  | VStr version =>
      if negb (isSemver v) then Ok [notSemver v]
      else
        config ← releaseConfig root;
        let a := report (strictEq (get config "release-type") (VStr "node"))
          "release-please-config.json: the root release unit must use release-type node" in
        rootPackage ← readJson root "package.json";
        packageVersion ← dot rootPackage "version";
        let b := report (agrees version packageVersion)
          ("package.json: version is " +:+ toText packageVersion +:+ ", expected " +:+ version) in
        rootLock ← readJson root "package-lock.json";
        lockVersion ← dot rootLock "version";
        let rootEntry := optionalGet (get rootLock "packages") EmptyString in
        let c := report (agrees version lockVersion && agrees version (optionalGet rootEntry "version"))
          ("package-lock.json: root version is " +:+ toText lockVersion +:+ ", expected " +:+ version) in
        extras ← iterate (coalesce (get config "extra-files") (VArr []));
        '(d, covered) ← extraFiles root version extras;
        workspaces ← iterate (coalesce (get rootPackage "workspaces") (VArr []));
        e ← gather (workspaceProblems root version covered rootLock) workspaces;
        f ← gather (lockProblems root version true cargoLock) (lockfiles root).1;
        g ← gather (lockProblems root version false pubspecLock) (lockfiles root).2;
        Ok (a ++ b ++ c ++ d ++ e ++ f ++ g)
  | _ => Ok [notSemver v]
  end.
