(* ===== verification/VersionFacts.v ===== *)
(** What an empty report of [check] means: every place that records the release agrees
    with it, every internal dependency is pinned to it, and release-please rewrites them
    all. *)
From S2P Require Import Prelude Text Json Regexp Semver Versions.
From stdpp Require Import sorting.
Open Scope Z_scope.
Open Scope axton_scope.

Section consistent.
Variable root : node.
Variable V : string.

(** An entry of [extra-files] finds the version where it looks. *)
Definition pathOf (extra : value) : value := match extra with VStr _ => extra | _ => get extra "path" end.
Definition finds (extra : value) : Prop := ∃ file content, pathOf extra = VStr file ∧ readFileSync root file = Ok content ∧
  let kind := get extra "type" in let jsonpath := get extra "jsonpath" in
  (kind = VStr "json" ∧ ∃ document, parse content = Ok document ∧ jsonPathValue document jsonpath = Ok (VStr V))
  ∨ (kind = VStr "toml" ∧ tomlValue content jsonpath = Ok (VStr V))
  ∨ (kind = VStr "generic" ∧ genericValue content = VStr V).
(** release-please rewrites the value at a path of a file. *)
Definition rewrites (extras : list value) (file : string) (segments : list string) : Prop := ∃ extra,
  extra ∈ extras ∧ pathOf extra = VStr file ∧ existsSync root file = true
  ∧ get extra "type" = VStr "json" ∧ jsonPathSegments (get extra "jsonpath") = Ok segments.
Definition pinned (extras : list value) (file : string) (prefix : list string) (document : value) : Prop :=
  ∀ field name spec, field ∈ DEPENDENCY_FIELDS → (name, spec) ∈ entries (get document field) →
    String.prefix INTERNAL_SCOPE name = true → spec = VStr V ∧ rewrites extras file (prefix ++ [field; name]).
(** A package whose own manifest records the version *)
Definition versioned (extras : list value) (file : string) : Prop :=
  rewrites extras file ["version"] ∧ ∃ manifest, readJson root file = Ok manifest ∧ own manifest "version" = Some (VStr V).
Definition workspaceConsistent (extras : list value) (rootLock item : value) : Prop := ∃ w manifest,
  let entry := optionalGet (get rootLock "packages") w in
  item = VStr w ∧ readJson root (w +:+ "/package.json") = Ok manifest ∧ versioned extras (w +:+ "/package.json")
  ∧ pinned extras (w +:+ "/package.json") [] manifest
  ∧ get entry "version" = VStr V ∧ rewrites extras "package-lock.json" ["packages"%string; w; "version"%string]
  ∧ pinned extras "package-lock.json" ["packages"%string; w] entry
  ∧ ∀ targets target, readdirSync root (w +:+ "/npm") = Ok targets → target ∈ targets →
      let file := w +:+ "/npm/" +:+ target +:+ "/package.json" in
      existsSync root file = true → versioned extras file.
Record consistent : Prop := {
  c_version : releaseVersion root = Ok (VStr V);
  c_semver : semver (String.list_ascii_of_string V);
  c_documents : ∃ config package lock extras workspaces,
    releaseConfig root = Ok config ∧ get config "release-type" = VStr "node"
    ∧ readJson root "package.json" = Ok package ∧ get package "version" = VStr V
    ∧ readJson root "package-lock.json" = Ok lock ∧ get lock "version" = VStr V
    ∧ get (get (get lock "packages") EmptyString) "version" = VStr V
    ∧ iterate (coalesce (get config "extra-files") (VArr [])) = Ok extras ∧ Forall finds extras
    ∧ iterate (coalesce (get package "workspaces") (VArr [])) = Ok workspaces
    ∧ Forall (workspaceConsistent extras lock) workspaces;
  c_cargo : ∀ file content name v, file ∈ (lockfiles root).1 → readFileSync root file = Ok content →
    (name, v) ∈ cargoLock content → v = V;
  c_pub : ∀ file content name v, file ∈ (lockfiles root).2 → readFileSync root file = Ok content →
    (name, v) ∈ pubspecLock content → v = V }.

(** * Lemmas *)
Lemma report_nil b m : report b m = [] ↔ b = true.
Proof. by destruct b. Qed.
Lemma strictEq_string v s : strictEq v (VStr s) = true ↔ v = VStr s.
Proof. destruct v as [| | |[]| |t| | | |]; cbn; try done. rewrite String.eqb_eq. naive_solver. Qed.
Lemma agrees_iff v : agrees V v = true ↔ v = VStr V.
Proof. apply strictEq_string. Qed.
Lemma gather_nil {A B} (f : A → result (list B)) l r : gather f l = Ok r → (r = [] ↔ Forall (λ x, f x = Ok []) l).
Proof.
  revert r. induction l as [|x l IH]; cbn; intros r; [by intros [= <-]|].
  intros (a & Ha & H)%result_bind_inv. apply result_bind_inv in H as (b & Hb & [= <-]).
  rewrite Forall_cons, <-(IH b Hb), Ha. split; [by intros [-> ->]%app_eq_nil|]. by intros [[= ->] ->].
Qed.
Lemma gather_Ok {A B} (f : A → result (list B)) l r x : gather f l = Ok r → x ∈ l → ∃ a, f x = Ok a.
Proof.
  revert r. induction l as [|y l IH]; cbn; intros r; [by intros _ ?%not_elem_of_nil|].
  intros (a & Ha & H)%result_bind_inv. apply result_bind_inv in H as (b & Hb & _).
  intros [->|Hx]%elem_of_cons; eauto.
Qed.
Lemma dot_Ok v key x : dot v key = Ok x → x = get v key.
Proof. unfold dot. destruct (nullish v); [done|]. by intros [= <-]. Qed.
Lemma optionalGet_get v key : optionalGet v key = get v key.
Proof. unfold optionalGet. by destruct v. Qed.
Lemma exists_read file content : readFileSync root file = Ok content → existsSync root file = true.
Proof. unfold readFileSync, existsSync. by destruct (at_ root file). Qed.
Lemma follow_version doc : follow doc ["version"] = VStr V ↔ own doc "version" = Some (VStr V).
Proof. cbn. destruct (own doc "version"); naive_solver. Qed.

Lemma verdict_nil (v : value) (a b : string) :
  match v with VUndef => [a] | _ => report (agrees V v) b end = [] ↔ v = VStr V.
Proof. rewrite <-agrees_iff. destruct v; [done|apply report_nil..]. Qed.
(** What an entry covers, and when it is content *)
Lemma extraFile_spec extra r : extraFile root V extra = Ok r →
  (r.1 = [] ↔ finds extra) ∧
  ∀ file segments, (file, segments) ∈ r.2 ↔ pathOf extra = VStr file ∧ existsSync root file = true
    ∧ get extra "type" = VStr "json" ∧ jsonPathSegments (get extra "jsonpath") = Ok segments.
Proof.
  intros H. unfold extraFile in H. apply result_bind_inv in H as (path & Hp & H).
  assert (pathOf extra = path) as Hpath.
  { unfold pathOf. by destruct extra; cbn in Hp; (done || injection Hp as <-). }
  unfold finds. cbv zeta. rewrite Hpath. destruct path as [| | | | |file| | | |]; try done.
  destruct (existsSync root file) eqn:Hex; cbn [negb] in H.
  2:{ injection H as <-. split.
      - split; [done|]. intros (? & content & [= <-] & Hc & _). apply exists_read in Hc. congruence.
      - intros f s. cbn. split; [by intros ?%not_elem_of_nil|]. intros ([= <-] & Hf & _). congruence. }
  apply result_bind_inv in H as (content & Hc & H).
  destruct (strictEq (get extra "type") (VStr "json")) eqn:Hj.
  { apply strictEq_string in Hj. apply result_bind_inv in H as (document & Hd & H).
    apply result_bind_inv in H as (v & Hv & H). apply result_bind_inv in H as (segments & Hs & [= <-]). cbn [fst snd].
    rewrite verdict_nil. split.
    - split; [intros ->; exists file, content; do 2 (split; [done|]); eauto 10|].
      intros (? & ? & [= <-] & Hc' & [(_ & d & Hd' & Hv')|[[Hk _]|[Hk _]]]); congruence.
    - intros f s. rewrite list_elem_of_singleton, Hj, Hs. split; [by intros [= -> ->]|by intros ([= ->] & _ & _ & [= ->])]. }
  assert (get extra "type" ≠ VStr "json") as Hnj by (intros E; by rewrite E in Hj).
  assert (∀ l : list place_, l = [] → ∀ f s, (f, s) ∈ l ↔ VStr file = VStr f ∧ existsSync root f = true
    ∧ get extra "type" = VStr "json" ∧ jsonPathSegments (get extra "jsonpath") = Ok s) as Hnone.
  { intros l -> f s. split; [by intros ?%not_elem_of_nil|]. tauto. }
  destruct (strictEq (get extra "type") (VStr "toml")) eqn:Ht.
  { apply strictEq_string in Ht. apply result_bind_inv in H as (v & Hv & [= <-]). cbn [fst snd]. rewrite verdict_nil.
    split; [|by apply Hnone]. split; [intros ->; exists file, content; do 2 (split; [done|]); eauto 10|].
    intros (? & ? & [= <-] & Hc' & [[Hk _]|[[_ Hv']|[Hk _]]]); congruence. }
  destruct (strictEq (get extra "type") (VStr "generic")) eqn:Hg.
  { apply strictEq_string in Hg. injection H as <-. cbn [fst snd]. rewrite verdict_nil.
    split; [|by apply Hnone]. split; [intros Hv; exists file, content; do 2 (split; [done|]); eauto 10|].
    intros (? & ? & [= <-] & Hc' & [[Hk _]|[[Hk _]|[_ Hv']]]); congruence. }
  injection H as <-. split; [|by apply Hnone]. cbn. split; [done|].
  intros (? & ? & _ & _ & [[Hk _]|[[Hk _]|[Hk _]]]); rewrite Hk in *; done.
Qed.
Lemma extraFiles_spec l r : extraFiles root V l = Ok r →
  (r.1 = [] ↔ Forall finds l) ∧ ∀ file segments, (file, segments) ∈ r.2 ↔ rewrites l file segments.
Proof.
  revert r. induction l as [|extra l IH]; cbn; intros r.
  - intros [= <-]. split; [by split|]. intros f s. cbn. split; [by intros ?%not_elem_of_nil|]. by intros (? & ?%not_elem_of_nil & _).
  - intros (a & [Ha Hca]%extraFile_spec & H)%result_bind_inv. apply result_bind_inv in H as (b & Hb & [= <-]).
    apply IH in Hb as [Hb Hcb]. cbn. split.
    + rewrite Forall_cons, <-Ha, <-Hb. split; [by intros [-> ->]%app_eq_nil|by intros [-> ->]].
    + intros f s. rewrite elem_of_app, Hca, Hcb. unfold rewrites. setoid_rewrite elem_of_cons. naive_solver.
Qed.
(** What a consistent entry covers holds the version. *)
Lemma rewrites_value extras file segments document : Forall finds extras → rewrites extras file segments →
  readJson root file = Ok document → follow document segments = VStr V.
Proof.
  intros Hall (extra & Hin & Hp & _ & Hk & Hs) Hd. rewrite Forall_forall in Hall.
  destruct (Hall _ Hin) as (? & content & Hp' & Hc & Hf). rewrite Hp in Hp'. injection Hp' as <-.
  destruct Hf as [(_ & d & Hpd & Hv)|[[Hk' _]|[Hk' _]]]; [|congruence..].
  unfold readJson in Hd. rewrite Hc in Hd. cbn in Hd. rewrite Hd in Hpd. injection Hpd as <-.
  unfold jsonPathValue in Hv. rewrite Hs in Hv. by injection Hv.
Qed.
Lemma rewrites_readable extras file segments : Forall finds extras → rewrites extras file segments →
  ∃ document, readJson root file = Ok document.
Proof.
  intros Hall (extra & Hin & Hp & _ & Hk & Hs). rewrite Forall_forall in Hall.
  destruct (Hall _ Hin) as (? & content & Hp' & Hc & Hf). rewrite Hp in Hp'. injection Hp' as <-.
  destruct Hf as [(_ & d & Hpd & Hv)|[[Hk' _]|[Hk' _]]]; [|congruence..].
  exists d. unfold readJson. by rewrite Hc.
Qed.
Lemma versioned_iff extras file : Forall finds extras → versioned extras file ↔ rewrites extras file ["version"].
Proof.
  intros Hall. split; [by intros [? _]|]. intros Hr. split; [done|].
  destruct (rewrites_readable _ _ _ Hall Hr) as [d Hd]. exists d. split; [done|]. apply follow_version. by eapply rewrites_value.
Qed.

Section covered.
Variable extras : list value.
Variable covered : list place_.
Hypothesis Hextras : Forall finds extras.
Hypothesis Hcovered : ∀ file segments, (file, segments) ∈ covered ↔ rewrites extras file segments.
Lemma isCovered_iff file segments : isCovered covered file segments = true ↔ rewrites extras file segments.
Proof using Hcovered. unfold isCovered. by rewrite bool_decide_eq_true, Hcovered. Qed.
Lemma internal_nil label document file prefix r : internal V covered label document file prefix = Ok r →
  (r = [] ↔ pinned extras file prefix document).
Proof using Hcovered.
  intros H. pose proof H as Hr%gather_nil. rewrite Hr, Forall_forall. unfold pinned.
  split.
  - intros Hall field name spec Hf Hin Hpre. specialize (Hall field Hf).
    apply result_bind_inv in Hall as (dependencies & ->%dot_Ok & Hg). apply gather_nil in Hg as [Hg _].
    specialize (Hg eq_refl). rewrite Forall_forall in Hg. specialize (Hg _ Hin). cbn beta iota in Hg. rewrite Hpre in Hg. cbn [negb] in Hg.
    injection Hg as [Ha%report_nil Hb%report_nil]%app_eq_nil. split; [by apply agrees_iff|by apply isCovered_iff].
  - intros Hall field Hf. destruct (gather_Ok _ _ _ field H Hf) as [a Ha]. rewrite Ha. f_equal.
    apply result_bind_inv in Ha as (dependencies & ->%dot_Ok & Hg). apply (gather_nil _ _ _ Hg), Forall_forall.
    intros [name spec] Hin. destruct (String.prefix INTERNAL_SCOPE name) eqn:Hpre; [|done]. cbn [negb]. f_equal.
    destruct (Hall field name spec Hf Hin Hpre) as [Hs%agrees_iff Hc%isCovered_iff]. by rewrite Hs, Hc.
Qed.
Lemma platformPackages_nil w r : platformPackages root covered w = Ok r →
  (r = [] ↔ ∀ targets target, readdirSync root (w +:+ "/npm") = Ok targets → target ∈ targets →
      let file := w +:+ "/npm/" +:+ target +:+ "/package.json" in
      existsSync root file = true → versioned extras file).
Proof using Hcovered Hextras.
  unfold platformPackages. destruct (existsSync root (w +:+ "/npm")) eqn:Hex; cbn [negb].
  2:{ intros [= <-]. split; [|done]. intros _ targets target Hd.
      unfold existsSync, readdirSync in *. by destruct (at_ root (w +:+ "/npm")). }
  intros (targets & Hd & H)%result_bind_inv. rewrite (gather_nil _ _ _ H), Forall_forall. split.
  - intros Hall ? target Hd' Hin Hf. rewrite Hd in Hd'. injection Hd' as <-. specialize (Hall _ Hin).
    rewrite Hf in Hall. cbn [negb] in Hall.
    injection Hall as Hc%report_nil%isCovered_iff. by apply versioned_iff.
  - intros Hall target Hin. destruct (existsSync root (w +:+ "/npm/" +:+ target +:+ "/package.json")) eqn:Hf; [|done]. cbn [negb]. f_equal.
    apply report_nil, isCovered_iff.
    by apply versioned_iff, (Hall _ _ Hd Hin).
Qed.
Lemma workspaceProblems_nil rootLock item r : workspaceProblems root V covered rootLock item = Ok r →
  (r = [] ↔ workspaceConsistent extras rootLock item).
Proof using Hcovered Hextras.
  intros H. unfold workspaceProblems in H. apply result_bind_inv in H as (manifest & Hm & H).
  apply result_bind_inv in H as (b & Hb%internal_nil & H). apply result_bind_inv in H as (packages & ->%dot_Ok & H).
  rewrite optionalGet_get in H. unfold workspaceConsistent. setoid_rewrite optionalGet_get.
  set (w := toText item) in *.
  destruct (truthy (get (get rootLock "packages") w)) eqn:Ht; cbn [negb] in H.
  2:{ injection H as <-. split.
      - intros E. apply app_eq_nil in E as [_ [_ E]%app_eq_nil]. done.
      - intros (w' & m & -> & _ & _ & _ & Hv & _). cbn in w. subst w.
        by destruct (get (get rootLock "packages") w'). }
  apply result_bind_inv in H as (e & He%internal_nil & H). apply result_bind_inv in H as (f & Hf & [= <-]).
  destruct item as [| | | | |w0| | | |]; try done. apply platformPackages_nil in Hf. cbn in w. subst w.
  split.
  - intros [Ha [-> [Hc [Hd [-> ->]%app_eq_nil]%app_eq_nil]%app_eq_nil]%app_eq_nil]%app_eq_nil.
    exists w0, manifest. apply report_nil in Ha, Hc, Hd. split_and!; try done.
    + apply versioned_iff; [done|]. by apply isCovered_iff.
    + by apply Hb.
    + by apply agrees_iff.
    + by apply isCovered_iff.
    + by apply He.
    + by apply Hf.
  - intros (w & m & [= <-] & Hm' & [Hv _] & Hp & Hver & Hr & Hp' & Hpl). rewrite Hm in Hm'. injection Hm' as <-.
    apply isCovered_iff in Hv, Hr. apply agrees_iff in Hver. apply Hb in Hp as ->. apply He in Hp' as ->. apply Hf in Hpl as ->.
    by rewrite Hv, Hr, Hver.
Qed.
End covered.
End consistent.
Lemma lockProblems_nil root V label pattern file r : lockProblems root V label pattern file = Ok r →
  (r = [] ↔ ∀ content name v, readFileSync root file = Ok content → (name, v) ∈ pattern content → v = V).
Proof.
  unfold lockProblems. intros (content & Hc & H)%result_bind_inv. rewrite (gather_nil _ _ _ H), Forall_forall. split.
  - intros Hall c name v Hc' Hin. rewrite Hc in Hc'. injection Hc' as <-. specialize (Hall _ Hin). cbn beta iota in Hall.
    by injection Hall as Hv%report_nil%String.eqb_eq.
  - intros Hall [name v] Hin. f_equal. by apply report_nil, String.eqb_eq, (Hall content name).
Qed.
Lemma locks_nil root V label pattern files r : gather (lockProblems root V label pattern) files = Ok r →
  (r = [] ↔ ∀ file content name v, file ∈ files → readFileSync root file = Ok content → (name, v) ∈ pattern content → v = V).
Proof.
  intros H. rewrite (gather_nil _ _ _ H), Forall_forall. split.
  - intros Hall file content name v Hin. specialize (Hall _ Hin). apply lockProblems_nil in Hall as [Hall _]. by apply Hall.
  - intros Hall file Hin. destruct (gather_Ok _ _ _ file H Hin) as [a Ha]. rewrite Ha. f_equal.
    apply (lockProblems_nil _ _ _ _ _ _ Ha). intros content name v. by apply Hall.
Qed.
Lemma workspaces_nil root V extras covered lock l r : Forall (finds root V) extras →
  (∀ file segments, (file, segments) ∈ covered ↔ rewrites root extras file segments) →
  gather (workspaceProblems root V covered lock) l = Ok r →
  (r = [] ↔ Forall (workspaceConsistent root V extras lock) l).
Proof.
  intros Hx Hc H. rewrite (gather_nil _ _ _ H), !Forall_forall. split; intros Hall item Hin.
  - specialize (Hall _ Hin). apply (workspaceProblems_nil root V extras covered Hx Hc) in Hall. by apply Hall.
  - destruct (gather_Ok _ _ _ item H Hin) as [a Ha]. rewrite Ha. f_equal.
    by apply (workspaceProblems_nil root V extras covered Hx Hc _ _ _ Ha), Hall.
Qed.

(** C39: the release check.  When it answers at all, it reports nothing exactly when the
    repository is consistent at one version [V]: [V] is a SemVer version, the root
    documents record it, every entry of [extra-files] finds it where it looks, every
    workspace and platform package records it and depends on [V] of its siblings, in its
    manifest and in the lockfile, all of these are places release-please rewrites, and no
    lockfile records another version of a package of the repository. *)
Theorem check_consistent root problems : check root = Ok problems → (problems = [] ↔ ∃ V, consistent root V).
Proof.
  unfold check. intros (v & Hv & H)%result_bind_inv.
  destruct v as [| | | | |V| | | |];
    try (injection H as <-; split; [done|]; intros (V & [Hc _ _ _ _]); congruence).
  destruct (isSemver (VStr V)) eqn:Hs; cbn [negb] in H.
  2:{ injection H as <-. split; [done|]. intros (W & [Hc Hw _ _ _]). assert (W = V) as -> by congruence.
      assert (isSemver (VStr V) = true) by (apply isSemver_grammar; eauto). congruence. }
  apply isSemver_grammar in Hs as (? & [= <-] & Hs).
  apply result_bind_inv in H as (config & Hconfig & H). apply result_bind_inv in H as (package & Hpackage & H).
  apply result_bind_inv in H as (? & ->%dot_Ok & H). apply result_bind_inv in H as (lock & Hlock & H).
  apply result_bind_inv in H as (? & ->%dot_Ok & H). apply result_bind_inv in H as (extras & Hextras & H).
  apply result_bind_inv in H as ([d covered] & [Hd Hcov]%extraFiles_spec & H).
  apply result_bind_inv in H as (workspaces & Hws & H). apply result_bind_inv in H as (e & He & H).
  apply result_bind_inv in H as (f & Hf%locks_nil & H). apply result_bind_inv in H as (g & Hg%locks_nil & [= <-]).
  rewrite !optionalGet_get in *. cbn [fst snd] in *. split.
  - intros [Ha [Hb [Hc [-> [-> [-> ->]%app_eq_nil]%app_eq_nil]%app_eq_nil]%app_eq_nil]%app_eq_nil]%app_eq_nil.
    apply report_nil in Ha, Hb, Hc. apply strictEq_string in Ha. apply agrees_iff in Hb.
    apply andb_prop in Hc as [Hc Hc']. apply agrees_iff in Hc, Hc'.
    assert (Forall (finds root V) extras) as Hfinds by by apply Hd.
    exists V. split; [done..| | |]; [|by apply Hf|by apply Hg].
    exists config, package, lock, extras, workspaces. split_and!; try done. by apply (workspaces_nil root V extras covered lock _ []).
  - intros (W & [Hv' _ Hdocs Hcargo Hpub]). assert (W = V) as -> by congruence.
    destruct Hdocs as (? & ? & ? & ? & ? & Hconfig' & Ha & Hp' & Hb & Hl' & Hc & Hc' & Hx' & Hfinds & Hw' & Hall).
    rewrite Hconfig in Hconfig'. injection Hconfig' as <-. rewrite Hpackage in Hp'. injection Hp' as <-.
    rewrite Hlock in Hl'. injection Hl' as <-. rewrite Hextras in Hx'. injection Hx' as <-. rewrite Hws in Hw'. injection Hw' as <-.
    apply strictEq_string in Ha. apply agrees_iff in Hb, Hc, Hc'.
    apply (workspaces_nil root V extras covered lock _ _ Hfinds Hcov He) in Hall as ->.
    apply Hf in Hcargo as ->. apply Hg in Hpub as ->. apply Hd in Hfinds as ->. by rewrite Ha, Hb, Hc, Hc'.
Qed.

(** A small repository: one workspace with a platform package, a Dart package and both
    lockfiles.  A backquote stands for a quotation mark. *)
Fixpoint quoting (s : string) : string :=
  match s with EmptyString => EmptyString | String c s => String (if byte c =? 96 then QUOTE else c) (quoting s) end.
Definition lines (l : list string) : node := File (quoting (String.concat (String LINE_FEED EmptyString) l)).
Definition packageJson (version pin : string) : node :=
  lines ["{`name`: `@axtonjs/x`, `version`: `" +:+ version +:+ "`, `dependencies`: {`@axtonjs/native`: `" +:+ pin +:+ "`, `ws`: `^8`}}"].
Definition sample (version pin : string) : node := Directory [
  (".release-please-manifest.json", lines ["{`.`: `1.2.3-rc.1`}"]);
  ("release-please-config.json", lines ["{`release-type`: `node`, `packages`: {`.`: {`extra-files`: [";
     "{`type`: `json`, `path`: `packages/x/package.json`, `jsonpath`: `$.version`},";
     "{`type`: `json`, `path`: `packages/x/package.json`, `jsonpath`: `$.dependencies['@axtonjs/native']`},";
     "{`type`: `json`, `path`: `packages/x/npm/linux/package.json`, `jsonpath`: `$.version`},";
     "{`type`: `json`, `path`: `package-lock.json`, `jsonpath`: `$.packages['packages/x'].version`},";
     "{`type`: `generic`, `path`: `dart/pubspec.yaml`},";
     "{`type`: `toml`, `path`: `Cargo.toml`, `jsonpath`: `$.workspace.package.version`}]}}}"]);
  ("package.json", lines ["{`version`: `1.2.3-rc.1`, `workspaces`: [`packages/x`]}"]);
  ("package-lock.json", lines ["{`version`: `1.2.3-rc.1`, `packages`: {``: {`version`: `1.2.3-rc.1`},";
     "`packages/x`: {`version`: `1.2.3-rc.1`}}}"]);
  ("Cargo.toml", lines ["[workspace]"; "members = []"; "[workspace.package]"; "version = `1.2.3-rc.1`"]);
  ("Cargo.lock", lines ["[[package]]"; "name = `axton-core`"; "version = `1.2.3-rc.1`"; "";
     "[[package]]"; "name = `serde`"; "version = `1.0.0`"; "source = `registry`"; ""]);
  ("dart", Directory [
     ("pubspec.yaml", lines ["name: axton"; "version: 1.2.3-rc.1 # x-release-please-version"]);
     ("pubspec.lock", lines ["packages:"; "  axton:"; "    dependency: direct"; "    description:";
        "      path: `..`"; "    source: path"; "    version: `1.2.3-rc.1`"; ""])]);
  ("node_modules", Directory [("Cargo.lock", lines ["not read"])]);
  ("packages", Directory [("x", Directory [
     ("package.json", packageJson version pin);
     ("npm", Directory [("linux", Directory [("package.json", lines ["{`version`: `1.2.3-rc.1`}"])])])])])].
Example check_pin : check (sample "1.2.3-rc.1" "^1.2.3")
  = Ok ["packages/x/package.json $.dependencies['@axtonjs/native']: ^1.2.3, expected 1.2.3-rc.1";
        "packages/x/package.json: dependencies @axtonjs/native is ^1.2.3, expected exactly 1.2.3-rc.1"].
Proof. vm_compute. reflexivity. Qed.
Lemma check_consistent_witness : ∃ V, consistent (sample "1.2.3-rc.1" "1.2.3-rc.1") V.
Proof. apply (check_consistent _ []); [vm_compute; reflexivity|reflexivity]. Defined.
