(* ===== verification/ReleaseManifest.v ===== *)
(** The inventory of a release and the rule for publishing it again:
    [scripts/release/manifest.mjs].

    The hashes, the registries' answers and [tar] are parameters.  A release directory
    is its entries by name, with the manifest apart: it is written by [JSON.stringify]
    and read back by [JSON.parse], which keep such data as it is. *)
From Stdlib Require Import Ascii.
From S2P Require Import Prelude Text Json Versions.
From stdpp Require Import sorting.
Open Scope Z_scope.
Open Scope axton_scope.

Definition MANIFEST : string := "release-manifest.json".

(** * The release's files *)
Record hostTarget := HostTarget { hostName : string; dartLibrary : option string }.
Record mobileTarget := MobileTarget { mobileName : string; dynamicLibrary : string }.
Record targets := Targets { host : list hostTarget; mobile : list mobileTarget }.
Inductive artifactKind := Npm | DartLibrary | DartPackage.
#[export] Instance artifactKind_eq_dec : EqDecision artifactKind.
Proof. solve_decision. Defined.
Record artifact := Artifact { kind : artifactKind; package : option string; target : option string; file : string }.

Definition revString (s : string) : string := String.string_of_list_ascii (rev (String.list_ascii_of_string s)).
Definition endsWith (suffix s : string) : bool := String.prefix (revString suffix) (revString s).
(** [s.slice(s.lastIndexOf("."))]: the last character when there is no dot *)
Definition extension (s : string) : string :=
  match last (splitOn (char 46) s), splitOn (char 46) s with
  | Some e, _ :: _ :: _ => "." +:+ e
  | _, _ => match last (String.list_ascii_of_string s) with Some c => String c EmptyString | None => EmptyString end
  end.
Definition npmNames (t : targets) : list string :=
  (host t ≫= λ h, ["native-" +:+ hostName h; "cli-" +:+ hostName h]) ++ ["native"; "cli"; "server"; "client"; "postgres"].
Definition npmArtifact (t : targets) (version name : string) : artifact :=
  Artifact Npm (Some ("@axtonjs/" +:+ name))
    ((λ f, hostName f.2) <$> list_find (λ h, endsWith ("-" +:+ hostName h) name = true) (host t))
    ("axtonjs-" +:+ name +:+ "-" +:+ version +:+ ".tgz").
Definition libraries (t : targets) : list (string * string) :=
  omap (λ h, pair (hostName h) <$> dartLibrary h) (host t) ++ ((λ m, (mobileName m, dynamicLibrary m)) <$> mobile t).
Definition libraryArtifact (version : string) (l : string * string) : artifact :=
  Artifact DartLibrary None (Some l.1) ("libaxton_dart-" +:+ version +:+ "-" +:+ l.1 +:+ extension l.2).
Definition expectedArtifacts (t : targets) (version : string) : list artifact :=
  (npmArtifact t version <$> npmNames t) ++ (libraryArtifact version <$> libraries t)
  ++ [Artifact DartPackage (Some "axton"%string) None ("axton-dart-" +:+ version +:+ ".tar.gz")].

(** * [write] and [verify] *)
Record entry := Entry { of_ : artifact; size : Z; digest : string; integrityOf : option string }.
Record manifest := Manifest { version : string; commit : string; artifacts : list entry }.
(** The entries of the directory, [None] for one that is a directory itself *)
Definition directory : Type := list (string * option string).
Definition contentOf (d : directory) (name : string) : result (option string) :=
  match fieldOf name d with
  | None => Ok None
  | Some None => Throw (Error "EISDIR")
  | Some (Some content) => Ok (Some content)
  end.
Definition lengthOf (content : string) : Z := Z.of_nat (String.length content).
(** [new Map(packed.map((entry) => \[entry.filename, entry\]))]: the last of a name *)
Definition packedMap (packed : list value) : result (list (value * value)) :=
  mapM (λ entry, filename ← dot entry "filename"; Ok (filename, entry)) packed.
Definition packOf (name : string) (m : list (value * value)) : value :=
  match list_find (λ p, strictEq p.1 (VStr name) = true) (rev m) with Some (_, p) => p.2 | None => VUndef end.
Section hashes.
Variable sha256 : string → string.
Variable integrity : string → string.
Definition packReported (m : list (value * value)) (v : string) (a : artifact) (i : string) : bool :=
  let pack := packOf (file a) m in
  negb (nullish pack) && strictEq (get pack "name") (match package a with Some p => VStr p | None => VUndef end)
  && strictEq (get pack "version") (VStr v) && strictEq (get pack "integrity") (VStr i).
(** One expected file: what is wrong with it, and its entry *)
Definition inventory (d : directory) (m : list (value * value)) (v : string) (a : artifact)
    : result (list string * list entry) :=
  content ← contentOf d (file a);
  match content with
  | None => Ok ([file a +:+ ": missing"], [])
  | Some bytes =>
      let e := Entry a (lengthOf bytes) (sha256 bytes) in
      match kind a with
      | Npm =>
          Ok (if packReported m v a (integrity bytes) then []
              else [file a +:+ ": not the archive npm pack reported for " +:+ default EmptyString (package a) +:+ "@" +:+ v],
              [e (Some (integrity bytes))])
      | _ => Ok ([], [e None])
      end
  end.
Fixpoint inventories (d : directory) (m : list (value * value)) (v : string) (l : list artifact)
    : result (list string * list entry) :=
  match l with
  | [] => Ok ([], [])
  | a :: l => x ← inventory d m v a; y ← inventories d m v l; Ok (x.1 ++ y.1, x.2 ++ y.2)
  end.
(** The names of the directory that no expected file has *)
Definition strangers (d : directory) (expected : list artifact) : list string :=
  filter (λ name, name ≠ MANIFEST ∧ name ∉ (file <$> expected)) d.*1.
Definition NEWLINE_TEXT : string := String (char 10) EmptyString.
Definition refuse {A} (problems : list string) (answer : A) : result A :=
  match problems with [] => Ok answer | _ => Throw (Error (String.concat NEWLINE_TEXT problems)) end.
Definition write (d : directory) (packed : list value) (commit_ : string) (t : targets) (v : string) : result manifest :=
  m ← packedMap packed;
  x ← inventories d m v (expectedArtifacts t v);
  refuse (x.1 ++ ((λ name, name +:+ ": not a release file") <$> strangers d (expectedArtifacts t v)))
    (Manifest v commit_ x.2).
Definition verifyEntry (d : directory) (e : entry) : result (list string) :=
  content ← contentOf d (file (of_ e));
  Ok (match content with
      | None => [file (of_ e) +:+ ": missing"]
      | Some bytes =>
          if (lengthOf bytes =? size e) && String.eqb (sha256 bytes) (digest e) then []
          else [file (of_ e) +:+ ": does not match " +:+ MANIFEST]
      end).
Definition verify (d : directory) (m : manifest) : result unit :=
  problems ← gather (verifyEntry d) (artifacts m); refuse problems tt.

(** * Publishing again *)
Record response := Response { status : Z; body : result value; bytesOf : result string }.
Definition isOk (r : response) : bool := (200 <=? status r) && (status r <=? 299).
Inductive decision := Publish | Skip.
Section registry.
Variable fetch : string → result response.
Variable messageOf : exn → string.
Definition getUrl (url : string) : result (option response) :=
  match fetch url with
  | Throw e => Throw (Error ("GET " +:+ url +:+ " failed: " +:+ messageOf e))
  | Ok r =>
      if status r =? 404 then Ok None
      else if negb (isOk r) then Throw (Error ("GET " +:+ url +:+ " answered HTTP " +:+ pretty (status r)))
      else Ok (Some r)
  end.
(** [name.replace("/", "%2f")]: the first one *)
Fixpoint escapeSlash (s : string) : string :=
  match s with
  | EmptyString => EmptyString
  | String c s => if byte c =? 47 then "%2f" +:+ s else String c (escapeSlash s)
  end.
Definition NPM_REGISTRY : string := "https://registry.npmjs.org".
Definition PUB_REGISTRY : string := "https://pub.dev".
(** [npmState] once the registry's document is read *)
Definition npmDecision (name v i : string) (doc : value) : result decision :=
  versions ← dot doc "versions";
  let published := optionalGet versions v in
  if negb (truthy published) then Ok Publish
  else
    let held := optionalGet (get published "dist") "integrity" in
    if strictEq held (VStr i) then Ok Skip
    else Throw (Error (name +:+ "@" +:+ v +:+ " is already on npm with integrity " +:+ toText held +:+ ", but this release built " +:+ i)).
Definition npmState (name v i : string) : result decision :=
  response ← getUrl (NPM_REGISTRY +:+ "/" +:+ escapeSlash name);
  match response with None => Ok Publish | Some r => doc ← body r; npmDecision name v i doc end.
(** [manifest.mjs npm]: what it prints, up to the first failure *)
Fixpoint npmCommand (v : string) (l : list entry) : list (decision * string) * result unit :=
  match l with
  | [] => ([], Ok tt)
  | e :: l =>
      if bool_decide (kind (of_ e) = Npm) then
        match npmState (default EmptyString (package (of_ e))) v (default EmptyString (integrityOf e)) with
        | Ok s => let '(lines, r) := npmCommand v l in ((s, file (of_ e)) :: lines, r)
        | Throw x => ([], Throw x)
        end
      else npmCommand v l
  end.

(** ** The archives, compared file by file *)
Variable tar : string → result node.
(** The temporary directories: how many were made, and which are there *)
Record temporary := Temporary { made : nat; live : list nat }.
Definition extract (archive : string) : io temporary (nat * node) := λ s,
  let n := made s in
  let s := Temporary (S n) (n :: live s) in
  match tar archive with
  | Ok tree => (Ok (n, tree), s)
  | Throw e => (Throw (Error ("tar could not extract an archive: " +:+ messageOf e)), s)
  end.
Definition discard (n : nat) (s : temporary) : temporary := Temporary (made s) (filter (λ m, m ≠ n) (live s)).
Fixpoint treeFrom (prefix : string) (n : node) : list (string * string) :=
  match n with
  | File _ => []
  | Directory entries =>
      (fix go (l : list (string * node)) : list (string * string) := match l with
       | [] => []
       | (name, n) :: l =>
           (match n with
            | Directory _ => treeFrom (prefix +:+ name +:+ "/") n
            | File content => [(prefix +:+ name, sha256 content)]
            end) ++ go l
       end) entries
  end.
Definition tree (n : node) : list (string * string) := treeFrom EmptyString n.
Definition changedPaths (x y : list (string * string)) : list string :=
  merge_sort text_le (filter (λ p, fieldOf p x ≠ fieldOf p y) (remove_dups (x.*1 ++ y.*1))).
Definition differences (left right : string) : io temporary (list string) :=
  '(a, x) ← extract left;
  '(b, y) ← extract right;
  finally (mret (changedPaths (tree x) (tree y))) (discard b ∘ discard a).
(** [versions.find((entry) => entry.version === version)] *)
Fixpoint findVersion (v : string) (items : list value) : result (option value) :=
  match items with
  | [] => Ok None
  | e :: items => x ← dot e "version"; if strictEq x (VStr v) then Ok (Some e) else findVersion v items
  end.
Definition pubState (name v archive : string) : io temporary decision :=
  let url := PUB_REGISTRY +:+ "/api/packages/" +:+ name in
  response ← Prelude.check (getUrl url);
  match response with
  | None => mret Publish
  | Some r =>
      doc ← Prelude.check (body r);
      versions ← Prelude.check (dot doc "versions");
      published ← Prelude.check (if nullish versions then Ok None else match versions with
        | VArr items =>
            findVersion v items
        | _ => Throw (TypeError "find is not a function")
        end);
      match published with
      | None => mret Publish
      | Some p =>
          let url := toText (get p "archive_url") in
          download ← Prelude.check (getUrl url);
          match download with
          | None => throw (Error (url +:+ " is missing"))
          | Some r =>
              bytes ← Prelude.check (bytesOf r);
              if negb (strictEq (get p "archive_sha256") (VStr (sha256 bytes))) then
                throw (Error (url +:+ " does not match pub.dev's archive_sha256"))
              else
                changed ← differences bytes archive;
                match changed with
                | [] => mret Skip
                | _ => throw (Error (name +:+ " " +:+ v +:+ " is already on pub.dev with different files: " +:+ String.concat ", " changed))
                end
          end
      end
  end.
End registry.
End hashes.
