(* ===== verification/ReleaseFacts.v ===== *)
(** A release is written only when it is exactly the expected files, is verified
    against what was written, and is never published over other bytes. *)
From S2P Require Import Prelude Text Json Versions VersionFacts ReleaseManifest.
From stdpp Require Import sorting.
Open Scope Z_scope.
Open Scope axton_scope.

Section hashes.
Variable sha256 : string → string.
Variable integrity : string → string.

(** * [write] and [verify] *)
Definition measured (d : directory) (a : artifact) (e : entry) : Prop := ∃ bytes,
  fieldOf (file a) d = Some (Some bytes)
  ∧ e = Entry a (lengthOf bytes) (sha256 bytes) (if bool_decide (kind a = Npm) then Some (integrity bytes) else None).
Definition reported (d : directory) (m : list (value * value)) (v : string) (a : artifact) : Prop :=
  ∀ bytes, fieldOf (file a) d = Some (Some bytes) → kind a = Npm → packReported m v a (integrity bytes) = true.
Lemma contentOf_Some d name bytes : contentOf d name = Ok (Some bytes) ↔ fieldOf name d = Some (Some bytes).
Proof. unfold contentOf. destruct (fieldOf name d) as [[]|]; naive_solver. Qed.
Lemma refuse_Ok {A} problems (a b : A) : refuse problems a = Ok b ↔ problems = [] ∧ a = b.
Proof. destruct problems; cbn; naive_solver. Qed.
(** An expected file that is there, and that npm pack reported *)
Definition present (d : directory) (m : list (value * value)) (v : string) (a : artifact) : Prop := ∃ bytes,
  fieldOf (file a) d = Some (Some bytes) ∧ (kind a = Npm → packReported m v a (integrity bytes) = true).
Lemma inventory_nil d m v a x : inventory sha256 integrity d m v a = Ok x →
  (x.1 = [] ↔ present d m v a) ∧ (x.1 = [] → Forall2 (measured d) [a] x.2).
Proof.
  unfold inventory, present. intros (content & Hc & H)%result_bind_inv.
  destruct content as [bytes|].
  2:{ injection H as <-. split; [|done]. split; [done|]. intros (bytes & Hb%contentOf_Some & _). congruence. }
  apply contentOf_Some in Hc. rewrite Hc.
  destruct (decide (kind a = Npm)) as [Hk|Hk].
  - assert (measured d a (Entry a (lengthOf bytes) (sha256 bytes) (Some (integrity bytes)))) as Hme.
    { exists bytes. split; [done|]. by rewrite bool_decide_eq_true_2. }
    rewrite Hk in *. injection H as <-. cbn [fst snd].
    destruct (packReported m v a (integrity bytes)) eqn:Hp.
    + split; [split; [by exists bytes|done]|]. intros _. by repeat constructor.
    + split; [split; [done|]|done]. intros (? & [= <-] & H). rewrite H in Hp by done. done.
  - assert (measured d a (Entry a (lengthOf bytes) (sha256 bytes) None)) as Hme.
    { exists bytes. split; [done|]. by rewrite bool_decide_eq_false_2. }
    assert (x = ([], [Entry a (lengthOf bytes) (sha256 bytes) None])) as ->.
    { by destruct (kind a); injection H as <-. }
    split; [split; [by exists bytes|done]|]. intros _. by repeat constructor.
Qed.
Lemma inventory_Ok d m v a : present d m v a → ∃ x, inventory sha256 integrity d m v a = Ok x.
Proof.
  intros (bytes & Hb%contentOf_Some & _). unfold inventory. rewrite Hb. cbn. destruct (kind a); by eexists.
Qed.
Lemma inventories_nil d m v l x : inventories sha256 integrity d m v l = Ok x →
  (x.1 = [] ↔ Forall (present d m v) l) ∧ (x.1 = [] → Forall2 (measured d) l x.2).
Proof.
  revert x. induction l as [|a l IH]; cbn; intros x; [by intros [= <-]|].
  intros (y & [Hy Hy']%inventory_nil & H)%result_bind_inv. apply result_bind_inv in H as (z & [Hz Hz']%IH & [= <-]). cbn [fst snd].
  rewrite Forall_cons, <-Hy, <-Hz. split; [split; [by intros []%app_eq_nil|by intros [-> ->]]|].
  intros [H1 H2]%app_eq_nil. change (a :: l) with ([a] ++ l). apply Forall2_app; auto.
Qed.
Lemma inventories_Ok d m v l : Forall (present d m v) l → ∃ x, inventories sha256 integrity d m v l = Ok x.
Proof.
  induction 1 as [|a l Ha%inventory_Ok Hl IH]; cbn; [by eexists|].
  destruct Ha as [x ->], IH as [y ->]. by eexists.
Qed.
Lemma strangers_nil d expected : strangers d expected = [] ↔
  ∀ name, name ∈ d.*1 → name = MANIFEST ∨ name ∈ (file <$> expected).
Proof.
  unfold strangers. split.
  - intros H name Hn. destruct (decide (name = MANIFEST)); [by left|]. destruct (decide (name ∈ (file <$> expected))); [by right|].
    assert (name ∈ filter (λ name, name ≠ MANIFEST ∧ name ∉ (file <$> expected)) d.*1) as Hf by by apply list_elem_of_filter.
    rewrite H in Hf. by apply not_elem_of_nil in Hf.
  - intros H. destruct (filter _ _) as [|name l] eqn:E; [done|].
    assert (name ∈ name :: l) as Hn by by left. rewrite <-E in Hn. apply list_elem_of_filter in Hn as [[H1 H2] Hn].
    by destruct (H _ Hn).
Qed.
Lemma measured_unique d l x y : Forall2 (measured d) l x → Forall2 (measured d) l y → x = y.
Proof.
  intros Hx. revert y. induction Hx as [|a e l x (b & Hb & ->) Hx IH]; intros y Hy; inversion_clear Hy as [|? e' ? ? (b' & Hb' & ->)]; [done|].
  rewrite Hb in Hb'. injection Hb' as <-. f_equal. auto.
Qed.

Theorem write_exact d packed c t v m : write sha256 integrity d packed c t v = Ok m ↔
  (∃ packs, packedMap packed = Ok packs ∧ Forall (present d packs v) (expectedArtifacts t v))
  ∧ (∀ name, name ∈ d.*1 → name = MANIFEST ∨ name ∈ (file <$> expectedArtifacts t v))
  ∧ version m = v ∧ commit m = c ∧ Forall2 (measured d) (expectedArtifacts t v) (artifacts m).
Proof.
  unfold write. split.
  - intros (packs & Hp & H)%result_bind_inv. apply result_bind_inv in H as (x & [Hx Hx']%inventories_nil & H).
    apply refuse_Ok in H as [[Hn Hs]%app_eq_nil <-]. apply fmap_nil_inv in Hs. rewrite strangers_nil in Hs.
    split; [exists packs; split; [done|by apply Hx]|]. split; [done|]. split_and!; [done..|by apply Hx'].
  - intros ((packs & -> & Hl) & Hs & Hv & Hc & Hf). cbn. destruct (inventories_Ok _ _ _ _ Hl) as [x Hx]. rewrite Hx. cbn.
    apply inventories_nil in Hx as [Hn Hm]. apply Hn in Hl. rewrite Hl. apply strangers_nil in Hs. rewrite Hs. cbn.
    f_equal. destruct m as [v' c' l]. cbn in *. subst. f_equal.
    apply (measured_unique d (expectedArtifacts t v)); auto.
Qed.

(** The same file for the manifest: its length and its digest *)
Definition sameFile (d d' : directory) (name : string) : Prop := ∃ bytes bytes',
  fieldOf name d = Some (Some bytes) ∧ fieldOf name d' = Some (Some bytes')
  ∧ String.length bytes' = String.length bytes ∧ sha256 bytes' = sha256 bytes.
Lemma verifyEntry_measured d d' a e : measured d a e → (verifyEntry sha256 d' e = Ok [] ↔ sameFile d d' (file a)).
Proof.
  intros (bytes & Hb & ->). unfold verifyEntry, sameFile. cbn. rewrite Hb. unfold contentOf.
  destruct (fieldOf (file a) d') as [[bytes'|]|]; cbn.
  - destruct (lengthOf bytes' =? lengthOf bytes) eqn:Hl; [apply Z.eqb_eq in Hl|apply Z.eqb_neq in Hl]; unfold lengthOf in Hl; cbn.
    + destruct (String.eqb_spec (sha256 bytes') (sha256 bytes)); [|naive_solver].
      split; [|done]. intros _. exists bytes, bytes'. split_and!; [done..|lia|done].
    + split; [done|]. intros (? & ? & [= <-] & [= <-] & E & _). lia.
  - naive_solver.
  - naive_solver.
Qed.
Theorem verify_written d packed c t v m d' : write sha256 integrity d packed c t v = Ok m →
  (verify sha256 d' m = Ok tt ↔ ∀ a, a ∈ expectedArtifacts t v → sameFile d d' (file a)).
Proof.
  unfold write. intros (packs & Hp & H)%result_bind_inv.
  apply result_bind_inv in H as (x & [Hx Hx']%inventories_nil & H). apply refuse_Ok in H as [[Hn _]%app_eq_nil <-].
  specialize (Hx' Hn). unfold verify. cbn.
  transitivity (Forall (λ e, verifyEntry sha256 d' e = Ok []) x.2).
  - split.
    + intros (r & Hr & [-> _]%refuse_Ok)%result_bind_inv. by apply (gather_nil _ _ _ Hr).
    + intros Hall. assert (gather (verifyEntry sha256 d') x.2 = Ok []) as ->; [|done].
      clear -Hall. induction Hall as [|e l He Hl IH]; [done|]. cbn. by rewrite He, IH.
  - rewrite <-Forall_forall. clear -Hx'. induction Hx' as [|a e l es He Hl IH]; [done|].
    by rewrite !Forall_cons, IH, (verifyEntry_measured d).
Qed.

(** * The registries *)
Section registry.
Variable fetch : string → result response.
Variable messageOf : exn → string.
(** What a registry holds of a version: nothing, or its entry *)
Definition answers (url : string) (doc : option value) : Prop := ∃ r, fetch url = Ok r ∧
  match doc with None => status r = 404 | Some v => status r ≠ 404 ∧ isOk r = true ∧ body r = Ok v end.
Definition npmUrl (name : string) : string := NPM_REGISTRY +:+ "/" +:+ escapeSlash name.
Definition holdsNpm (name v : string) (published : value) : Prop := ∃ doc, answers (npmUrl name) (Some doc)
  ∧ nullish doc = false ∧ published = get (get doc "versions") v.
Lemma getUrl_Ok url r : getUrl fetch messageOf url = Ok r ↔
  ∃ a, fetch url = Ok a ∧ ((status a = 404 ∧ r = None) ∨ (status a ≠ 404 ∧ isOk a = true ∧ r = Some a)).
Proof.
  unfold getUrl. destruct (fetch url) as [a|e]; [|split; [done|by intros (? & ? & _)]].
  destruct (Z.eqb_spec (status a) 404) as [Hs|Hs].
  - split; [intros [= <-]; eauto 10|]. by intros (? & [= <-] & [[_ ->]|[? _]]).
  - destruct (isOk a) eqn:Ho; cbn.
    + split; [intros [= <-]; eauto 10|]. by intros (? & [= <-] & [[? _]|(_ & _ & ->)]).
    + split; [done|]. intros (? & [= <-] & [[? _]|(_ & ? & _)]); congruence.
Qed.
Lemma npmDecision_Ok name v i doc decision : npmDecision name v i doc = Ok decision ↔
  nullish doc = false ∧ let published := get (get doc "versions") v in
  match decision with
  | Publish => truthy published = false
  | Skip => get (get published "dist") "integrity" = VStr i
  end.
Proof.
  unfold npmDecision, dot. destruct (nullish doc); [by split; [|intros []]|]. cbn. rewrite !optionalGet_get.
  set (published := get (get doc "versions") v).
  destruct (truthy published) eqn:Ht; cbn [negb].
  - pose proof (strictEq_string (get (get published "dist") "integrity") i) as He.
    destruct (strictEq _ _) eqn:E; destruct decision; (split; [intros [= ]|intros [_ H]]); try done.
    + by split; [|apply He].
    + by apply He in H.
  - destruct decision; [naive_solver|]. split; [done|]. intros [_ Hi]. by destruct published.
Qed.
Theorem npmState_rule name v i decision : npmState fetch messageOf name v i = Ok decision ↔
  match decision with
  | Publish => answers (npmUrl name) None ∨ ∃ published, holdsNpm name v published ∧ truthy published = false
  | Skip => ∃ published, holdsNpm name v published ∧ get (get published "dist") "integrity" = VStr i
  end.
Proof.
  unfold npmState. fold (npmUrl name). split.
  - intros (r & Hr & H)%result_bind_inv. apply getUrl_Ok in Hr as (a & Ha & [[Hs ->]|(Hs & Ho & ->)]).
    { injection H as <-. left. by exists a. }
    apply result_bind_inv in H as (doc & Hd & [Hn H]%npmDecision_Ok).
    assert (holdsNpm name v (get (get doc "versions") v)) as Hh by by exists doc; split; [exists a|].
    destruct decision; [right|]; eauto.
  - assert (∀ published, holdsNpm name v published → ∃ doc, nullish doc = false ∧ published = get (get doc "versions") v
      ∧ (r ← getUrl fetch messageOf (npmUrl name); match r with None => Ok Publish | Some r => doc ← body r; npmDecision name v i doc end)
        = npmDecision name v i doc) as Hrun.
    { intros published (doc & (a & Ha & Hs & Ho & Hb) & Hn & ->). exists doc. split_and!; [done..|].
      assert (getUrl fetch messageOf (npmUrl name) = Ok (Some a)) as -> by (apply getUrl_Ok; eauto 10).
      cbn. by rewrite Hb. }
    destruct decision.
    + intros [(a & Ha & Hs)|(published & (doc & Hn & -> & ->)%Hrun & Ht)].
      * assert (getUrl fetch messageOf (npmUrl name) = Ok None) as -> by (apply getUrl_Ok; eauto 10). done.
      * by apply npmDecision_Ok.
    + intros (published & (doc & Hn & -> & ->)%Hrun & Hi). by apply npmDecision_Ok.
Qed.
(** The archives in order, up to the first the registry refuses *)
Theorem npmCommand_runs v l lines r : npmCommand fetch messageOf v l = (lines, r) →
  ∃ done rest, filter (λ e, kind (of_ e) = Npm) l = done ++ rest
  ∧ Forall2 (λ line e, line.2 = file (of_ e)
      ∧ npmState fetch messageOf (default EmptyString (package (of_ e))) v (default EmptyString (integrityOf e)) = Ok line.1) lines done
  ∧ match r with Ok _ => rest = [] | Throw x => ∃ e rest', rest = e :: rest'
      ∧ npmState fetch messageOf (default EmptyString (package (of_ e))) v (default EmptyString (integrityOf e)) = Throw x end.
Proof.
  revert lines r. induction l as [|e l IH]; intros lines r; cbn [npmCommand].
  { intros [= <- <-]. exists [], []. split_and!; constructor. }
  rewrite filter_cons. case_bool_decide as Hk; [rewrite decide_True by done|rewrite decide_False by done; apply IH].
  destruct (npmState _ _ _ _ _) as [s|x] eqn:Hs.
  - destruct (npmCommand fetch messageOf v l) as [lines' r'] eqn:Hl. intros [= <- <-].
    destruct (IH _ _ eq_refl) as (done & rest & -> & Hf & Hr). exists (e :: done), rest. split_and!; [done|by constructor|done].
  - intros [= <- <-]. exists [], (e :: filter (λ e, kind (of_ e) = Npm) l). split_and!; [done|constructor|eauto].
Qed.

(** ** The comparison of two archives *)
Variable tar : string → result node.
Definition sameTree (x y : node) : Prop := ∀ path, fieldOf path (tree sha256 x) = fieldOf path (tree sha256 y).
Lemma fieldOf_notin {A} (l : list (string * A)) k : k ∉ l.*1 → fieldOf k l = None.
Proof.
  induction l as [|[j a] l IH]; cbn; [done|]. rewrite not_elem_of_cons. intros [Hk Hl].
  destruct (String.eqb_spec j k); [done|auto].
Qed.
Lemma changedPaths_nil x y : changedPaths x y = [] ↔ ∀ path, fieldOf path x = fieldOf path y.
Proof.
  unfold changedPaths. split.
  - intros H path. destruct (decide (fieldOf path x = fieldOf path y)) as [|Hn]; [done|]. exfalso.
    assert (path ∈ merge_sort text_le (filter (λ p, fieldOf p x ≠ fieldOf p y) (remove_dups (x.*1 ++ y.*1)))) as Hin.
    { rewrite (merge_sort_Permutation text_le). apply list_elem_of_filter. split; [done|]. apply elem_of_remove_dups, elem_of_app.
      destruct (decide (path ∈ x.*1)); [by left|]. destruct (decide (path ∈ y.*1)); [by right|].
      rewrite !fieldOf_notin in Hn by done. done. }
    rewrite H in Hin. by apply not_elem_of_nil in Hin.
  - intros H. destruct (merge_sort _ _) as [|p l] eqn:E; [done|]. exfalso.
    assert (p ∈ p :: l) as Hp by by left. rewrite <-E, (merge_sort_Permutation text_le) in Hp.
    apply list_elem_of_filter in Hp as [Hn _]. by apply Hn.
Qed.
(** Every live directory was made. *)
Definition fresh (s : temporary) : Prop := Forall (λ n, (n < made s)%nat) (live s).
Lemma discard_fresh n l : Forall (λ m, (m < n)%nat) l → filter (λ m, m ≠ n) l = l.
Proof. induction 1 as [|m l Hm Hl IH]; [done|]. rewrite filter_cons, decide_True by lia. by rewrite IH. Qed.
Lemma differences_run left right s : fresh s →
  differences sha256 messageOf tar left right s =
  match tar left, tar right with
  | Ok x, Ok y => (Ok (changedPaths (tree sha256 x) (tree sha256 y)), Temporary (S (S (made s))) (live s))
  | Throw e, _ => (Throw (Error ("tar could not extract an archive: " +:+ messageOf e)), Temporary (S (made s)) (made s :: live s))
  | Ok _, Throw e => (Throw (Error ("tar could not extract an archive: " +:+ messageOf e)),
      Temporary (S (S (made s))) (S (made s) :: made s :: live s))
  end.
Proof.
  intros Hf. unfold differences, extract, mbind, io_bind, finally, mret, io_ret. destruct (tar left) as [x|]; [|done].
  cbn [made live]. destruct (tar right) as [y|]; [|done]. unfold compose, discard. cbn [made live].
  assert (∀ n : nat, ¬ n ≠ n) as Hself by lia.
  rewrite filter_cons, decide_True by lia. rewrite filter_cons, decide_False by apply Hself.
  rewrite filter_cons, decide_False by apply Hself. rewrite (discard_fresh (made s)) by exact Hf.
  rewrite discard_fresh; [done|]. eapply Forall_impl; [exact Hf|]. cbn. lia.
Qed.
(** What pub.dev holds of a version *)
Definition pubUrl (name : string) : string := PUB_REGISTRY +:+ "/api/packages/" +:+ name.
Definition holdsPub (name v : string) (published : value) : Prop := ∃ doc items i, answers (pubUrl name) (Some doc)
  ∧ get doc "versions" = VArr items ∧ items !! i = Some published ∧ get published "version" = VStr v
  ∧ ∀ j e, (j < i)%nat → items !! j = Some e → get e "version" ≠ VStr v.
Lemma findVersion_Some v items published : findVersion v items = Ok (Some published) →
  ∃ i, items !! i = Some published ∧ get published "version" = VStr v
  ∧ ∀ j e, (j < i)%nat → items !! j = Some e → get e "version" ≠ VStr v.
Proof.
  induction items as [|e items IH]; cbn; [done|]. intros (x & ->%dot_Ok & H)%result_bind_inv.
  destruct (strictEq _ _) eqn:He.
  - injection H as <-. apply strictEq_string in He. exists 0%nat. split_and!; [done..|lia].
  - destruct (IH H) as (i & Hi & Hv & Hmin). exists (S i). split_and!; [done..|].
    intros [|j] e' Hj He'; [|apply (Hmin j e'); [lia|done]]. injection He' as <-.
    intros E. apply strictEq_string in E. congruence.
Qed.
(** A version is skipped only when the archive pub.dev serves, intact, holds the same
    files; every temporary directory is then gone. *)
Theorem pubState_skip name v archive s s' : fresh s →
  pubState sha256 fetch messageOf tar name v archive s = (Ok Skip, s') →
  live s' = live s ∧ ∃ published url r bytes x y, holdsPub name v published
    ∧ url = toText (get published "archive_url") ∧ fetch url = Ok r ∧ status r ≠ 404 ∧ isOk r = true ∧ bytesOf r = Ok bytes
    ∧ get published "archive_sha256" = VStr (sha256 bytes) ∧ tar bytes = Ok x ∧ tar archive = Ok y ∧ sameTree x y.
Proof.
  intros Hf. unfold pubState, mbind, io_bind, Prelude.check. fold (pubUrl name).
  destruct (getUrl fetch messageOf (pubUrl name)) as [[a|]|] eqn:Ha; try done. apply getUrl_Ok in Ha as (? & Ha & [[_ ?]|(Hs & Ho & [= <-])]); [done|].
  destruct (body a) as [doc|] eqn:Hb; [|done]. destruct (dot doc "versions") as [versions|] eqn:Hd; [|done]. apply dot_Ok in Hd.
  destruct (nullish versions) eqn:Hn; [done|]. destruct versions as [| | | | | | | |items|]; try done.
  destruct (findVersion v items) as [[p|]|] eqn:Hp; try done. apply findVersion_Some in Hp as (i & Hi & Hv & Hmin).
  destruct (getUrl fetch messageOf (toText (get p "archive_url"))) as [[r|]|] eqn:Hr; try done.
  apply getUrl_Ok in Hr as (? & Hr & [[_ ?]|(Hrs & Hro & [= <-])]); [done|].
  destruct (bytesOf r) as [bytes|] eqn:Hbytes; [|done]. destruct (strictEq _ _) eqn:He; [|done]. apply strictEq_string in He. cbn [negb].
  rewrite differences_run by done. destruct (tar bytes) as [x|] eqn:Hx; [|done]. destruct (tar archive) as [y|] eqn:Hy; [|done].
  destruct (changedPaths (tree sha256 x) (tree sha256 y)) eqn:Hc; [|done]. intros [= <-]. split; [done|].
  exists p, (toText (get p "archive_url")), r, bytes, x, y. split_and!; try done; [|exact (proj1 (changedPaths_nil _ _) Hc)].
  exists doc, items, i. split_and!; try done. by exists a.
Qed.
End registry.
End hashes.
