(* ===== verification/Clocks.v ===== *)
(** Placing the traces of several clocks on one axis:
    [integration/performance/support/clock.mjs], and the alignment and the coverage
    gaps of [integration/performance/timeline.mjs].

    Readings and offsets are integers of microseconds.  A placement is the middle of
    an interval, so it is kept doubled.  What the file proves is about the clocks
    behind the readings: nanoseconds whose microseconds a reading truncates. *)
From S2P Require Import Prelude.
From stdpp Require Import sorting.
Open Scope Z_scope.
Open Scope axton_scope.

(** * Calibration: [clock.mjs] *)
Record probe := Probe { localSendUs : Z; remoteReceiveUs : Z; remoteSendUs : Z; localReceiveUs : Z }.
(** [assert.ok(condition, message)] *)
Definition assert (b : bool) (message : string) : result unit := if b then Ok tt else Throw (Error message).
Definition probeBounds (p : probe) : result (Z * Z) :=
  _ ← assert ((localSendUs p <=? localReceiveUs p) && (remoteReceiveUs p <=? remoteSendUs p)) "monotonic clock probe";
  let lowerUs := localSendUs p - remoteReceiveUs p - 1 in
  let upperUs := localReceiveUs p - remoteSendUs p + 1 in
  _ ← assert (lowerUs <=? upperUs) "clock probe has impossible elapsed times";
  Ok (lowerUs, upperUs).
(** An edge of the clock graph: the offset of a domain against its reference *)
Record edge := Edge { clockDomain : string; referenceClockDomain : string; offsetLowerUs : Z; offsetUpperUs : Z }.
(** [Math.max(...l)] and [Math.min(...l)] of a list that is not empty *)
Definition maximum (a : Z) (l : list Z) : Z := foldl Z.max a l.
Definition minimum (a : Z) (l : list Z) : Z := foldl Z.min a l.
Definition calibration (domain reference : string) (probes : list probe) : result edge :=
  match probes with
  | [] => Throw (Error "clock calibration needs probes")
  | _ =>
      bounds ← mapM probeBounds probes;
      match bounds with
      | [] => Throw (Error "clock calibration needs probes")
      | (lower, upper) :: bounds =>
          let lower := maximum lower bounds.*1 in
          let upper := minimum upper bounds.*2 in
          _ ← assert (lower <=? upper) "clock probes disagree; preserve raw clocks instead of inventing alignment";
          Ok (Edge domain reference lower upper)
      end
  end.
Definition combineCalibrations (first last : edge) : result edge :=
  _ ← assert (String.eqb (clockDomain first) (clockDomain last)) "Expected values to be strictly equal";
  _ ← assert (String.eqb (referenceClockDomain first) (referenceClockDomain last)) "Expected values to be strictly equal";
  let lower := Z.max (offsetLowerUs first) (offsetLowerUs last) in
  let upper := Z.min (offsetUpperUs first) (offsetUpperUs last) in
  _ ← assert (lower <=? upper) "clock offset changed outside measured bounds; common-axis trace unavailable";
  Ok (Edge (clockDomain first) (referenceClockDomain first) lower upper).

(** ** [ClockHandshake]: the parent's side of the probes *)
Record round := Round { phase : string; domain : string; probes : list probe; pendingId : Z; pendingSendUs : Z }.
Inductive message := ProbeAsked (id : Z) | DoneSent.
Record handshake := Handshake {
  endpoints : list (string * (string * list probe));
  current : option round;
  written : list message }.
Definition newHandshake : handshake := Handshake [] None [].
Inductive reply :=
| Ready (calibrationPhase clockDomain : string)
| Reply (calibrationPhase : string) (id remoteReceiveUs remoteSendUs : Z)
| OtherPhase.
Definition PROBES : nat := 8.
(** [#probe] at the time [now] *)
Definition ask (now : Z) (r : round) (h : handshake) : handshake :=
  let id := Z.of_nat (length (probes r)) in
  Handshake (endpoints h) (Some (Round (phase r) (domain r) (probes r) id now)) (written h ++ [ProbeAsked id]).
(** [accept], received at [at_]; [now] is the clock when the next probe is sent *)
Definition accept (e : reply) (at_ now : Z) : io handshake bool := λ h,
  match e with
  | Ready calibrationPhase domain =>
      match current h with
      | Some _ => (Throw (Error "overlapping clock calibration"), h)
      | None => (Ok true, ask now (Round calibrationPhase domain [] 0 0) h)
      end
  | Reply calibrationPhase id receive send =>
      match current h with
      | None => (Throw (Error "clock reply correlation"), h)
      | Some r =>
          if (pendingId r =? id) && String.eqb (phase r) calibrationPhase then
            let l := probes r ++ [Probe (pendingSendUs r) receive send at_] in
            if (length l <? PROBES)%nat then (Ok true, ask now (Round (phase r) (domain r) l 0 0) h)
            else (Ok true, Handshake (setField (phase r) (domain r, l) (endpoints h)) None (written h ++ [DoneSent]))
          else (Throw (Error "clock reply correlation"), h)
      end
  | OtherPhase => (Ok false, h)
  end.

(** * Alignment: [clockAlignment] of [timeline.mjs] *)
Definition endpointPair (domain reference : string) (ends : option (list probe * list probe)) : result edge :=
  match ends with
  | None => Throw (Error ("missing before/after clock probes for " +:+ domain))
  | Some (first, last) =>
      a ← calibration domain reference first;
      b ← calibration domain reference last;
      combineCalibrations a b
  end.
(** One record: intersected with what is known of its domain *)
Definition addEdge (edges : list (string * edge)) (e : edge) : result (list (string * edge)) :=
  _ ← assert (offsetLowerUs e <=? offsetUpperUs e) "valid clock-origin bounds";
  match fieldOf (clockDomain e) edges with
  | None => Ok (setField (clockDomain e) e edges)
  | Some previous =>
      _ ← assert (String.eqb (referenceClockDomain previous) (referenceClockDomain e)) "clock has conflicting reference domains";
      let lower := Z.max (offsetLowerUs previous) (offsetLowerUs e) in
      let upper := Z.min (offsetUpperUs previous) (offsetUpperUs e) in
      _ ← assert (lower <=? upper) "clock origins disagree";
      Ok (setField (clockDomain e) (Edge (clockDomain e) (referenceClockDomain e) lower upper) edges)
  end.
Fixpoint addEdges (edges : list (string * edge)) (l : list edge) : result (list (string * edge)) :=
  match l with
  | [] => Ok edges
  | e :: l => edges ← addEdge edges e; addEdges edges l
  end.
(** [offset]: the sum of the edges up to the root.  Every turn visits a domain it
    has not visited and that has an edge, so the number of edges is enough. *)
Fixpoint offset (root : string) (edges : list (string * edge)) (fuel : nat) (visiting : list string) (domain : string)
    : option (result (Z * Z)) :=
  if String.eqb domain root then Some (Ok (0, 0))
  else if bool_decide (domain ∈ visiting) then Some (Throw (Error "clock-correlation cycle"))
  else match fieldOf domain edges with
       | None => Some (Throw (Error ("uncalibrated clock domain " +:+ domain)))
       | Some e =>
           match fuel with
           | O => None
           | S fuel =>
               match offset root edges fuel (domain :: visiting) (referenceClockDomain e) with
               | Some (Ok (lower, upper)) => Some (Ok (lower + offsetLowerUs e, upper + offsetUpperUs e))
               | r => r
               end
           end
       end.
(** What a sample says of its clocks *)
Record correlation := Correlation {
  runnerClockDomain : string;
  dartRunnerProbes : option ((string * list probe) * (string * list probe));
  childReference : string;
  dartClockDomain : string;
  dartProbes : option (list probe * list probe);
  measurementClockDomain : string;
  traced : bool;                                 (* a diagnostic of the Rust engine *)
  nodeNative : string * option (list probe * list probe);
  native : string * option (list probe * list probe);
  clockRecords : list edge }.
Definition linksOf (c : correlation) : result (list edge) :=
  match dartRunnerProbes c with
  | Some ((d, first), (d', last)) =>
      _ ← assert (String.eqb d (childReference c) && String.eqb d' (childReference c)) "Dart reference clock changed";
      a ← endpointPair (childReference c) (runnerClockDomain c) (Some (first, last));
      b ← endpointPair (dartClockDomain c) (childReference c) (dartProbes c);
      if traced c then
        n ← endpointPair (nodeNative c).1 (runnerClockDomain c) (nodeNative c).2;
        m ← endpointPair (native c).1 (childReference c) (native c).2;
        Ok [a; b; n; m]
      else Ok [a; b]
  | None => Throw (Error "Dart reference clock changed")
  end.
(** A placement, doubled, and its bounds *)
Record placement := Placement { at2 : Z; uncertainty2 : Z; lowerUs : Z; upperUs : Z }.
Definition place (origin o : Z * Z) (rawUs : Z) : placement :=
  Placement (2 * rawUs + (o.1 + o.2) - (origin.1 + origin.2)) ((o.2 - o.1) + (origin.2 - origin.1) + 2) o.1 o.2.
Definition resolve (root : string) (edges : list (string * edge)) (domain : string) : result (Z * Z) :=
  default (Throw (Error "out of fuel")) (offset root edges (length edges) [] domain).
Definition clockAlignment (c : correlation) : result (string → Z → result placement) :=
  links ← linksOf c;
  edges ← addEdges [] (links ++ clockRecords c);
  origin ← resolve (runnerClockDomain c) edges (measurementClockDomain c);
  Ok (λ domain rawUs, o ← resolve (runnerClockDomain c) edges domain; Ok (place origin o rawUs)).

(** * Coverage: the unattributed intervals of [timeline] *)
Definition clip (end_ : Z) (i : Z * Z) : Z * Z := (Z.max 0 i.1, Z.min end_ i.2).
Definition proper (i : Z * Z) : Prop := i.1 < i.2.
#[export] Instance proper_dec i : Decision (proper i).
Proof. unfold proper. apply _. Defined.
Definition starts_le (a b : Z * Z) : Prop := a.1 ≤ b.1.
#[export] Instance starts_le_dec : RelDecision starts_le.
Proof. intros a b. unfold starts_le. apply _. Defined.
Fixpoint sweepGaps (covered : Z) (l : list (Z * Z)) : list (Z * Z) * Z :=
  match l with
  | [] => ([], covered)
  | (start, finish) :: l =>
      let '(gaps, c) := sweepGaps (Z.max covered finish) l in
      (if covered <? start then (covered, start) :: gaps else gaps, c)
  end.
Definition unattributed (end_ : Z) (spans : list (Z * Z)) : list (Z * Z) :=
  let intervals := merge_sort starts_le (filter proper (clip end_ <$> spans)) in
  let '(gaps, covered) := sweepGaps 0 intervals in
  if covered <? end_ then gaps ++ [(covered, end_)] else gaps.
