(* ===== verification/ClockFacts.v ===== *)
(** Placements are sound: the clocks behind the readings agree with every bound the
    alignment keeps, and the coverage gaps are exactly what no span covers. *)
From S2P Require Import Prelude Clocks.
From stdpp Require Import sorting.
Open Scope Z_scope.
Open Scope axton_scope.

Lemma assert_Ok b m u : assert b m = Ok u → b = true.
Proof. by destruct b. Qed.
(** Peel an [Ok] chain of assertions. *)
Ltac peel H := repeat match type of H with
  | mbind _ (assert _ _) = Ok _ =>
      let Ha := fresh "Ha" in apply result_bind_inv in H as ([] & Ha%assert_Ok & H)
  end.

(** * The clocks

    [truth d] is when the clock of [d] reads zero, in nanoseconds of the root's; a
    reading truncates to microseconds. *)
Section truth.
Variable truth : string → Z.
Definition reading (d : string) (t : Z) : Z := (t - truth d) / 1000.
(** A probe whose remote side ran between its local ends *)
Definition honest (domain reference : string) (p : probe) : Prop := ∃ sent received answered returned,
  sent ≤ received ≤ answered ∧ answered ≤ returned ∧
  p = Probe (reading reference sent) (reading domain received) (reading domain answered) (reading reference returned).
Definition bounds (domain reference : string) (b : Z * Z) : Prop :=
  1000 * b.1 ≤ truth domain - truth reference ≤ 1000 * b.2.
Definition sound (e : edge) : Prop := bounds (clockDomain e) (referenceClockDomain e) (offsetLowerUs e, offsetUpperUs e).

Lemma reading_bound d t : 1000 * reading d t ≤ t - truth d < 1000 * (reading d t + 1).
Proof. unfold reading. Z.to_euclidean_division_equations. lia. Qed.
Lemma probe_sound domain reference p b : honest domain reference p → probeBounds p = Ok b → bounds domain reference b.
Proof.
  intros (s & r & a & t & Hs & Ht & ->) Hb. unfold probeBounds in Hb. peel Hb. injection Hb as <-.
  unfold bounds. cbn.
  pose proof (reading_bound reference s). pose proof (reading_bound domain r).
  pose proof (reading_bound domain a). pose proof (reading_bound reference t). lia.
Qed.
Lemma maximum_bounded x a l : a ≤ x → Forall (λ y, y ≤ x) l → maximum a l ≤ x.
Proof. intros Ha Hl. revert a Ha. induction Hl as [|y l Hy Hl IH]; intros a Ha; [done|]. cbn. apply IH. lia. Qed.
Lemma minimum_bounded x a l : x ≤ a → Forall (λ y, x ≤ y) l → x ≤ minimum a l.
Proof. intros Ha Hl. revert a Ha. induction Hl as [|y l Hy Hl IH]; intros a Ha; [done|]. cbn. apply IH. lia. Qed.
Lemma maximum_mult a l x : 1000 * a ≤ x → Forall (λ y, 1000 * y ≤ x) l → 1000 * maximum a l ≤ x.
Proof. intros Ha Hl. revert a Ha. induction Hl as [|y l Hy Hl IH]; intros a Ha; [done|]. cbn. apply IH. lia. Qed.
Lemma minimum_mult a l x : x ≤ 1000 * a → Forall (λ y, x ≤ 1000 * y) l → x ≤ 1000 * minimum a l.
Proof. intros Ha Hl. revert a Ha. induction Hl as [|y l Hy Hl IH]; intros a Ha; [done|]. cbn. apply IH. lia. Qed.
Lemma calibration_sound domain reference l e :
  Forall (honest domain reference) l → calibration domain reference l = Ok e →
  sound e ∧ clockDomain e = domain ∧ referenceClockDomain e = reference.
Proof.
  intros Hl He. destruct l as [|p l]; [done|]. unfold calibration in He.
  apply result_bind_inv in He as (bs & Hbs & He). apply mapM_Ok in Hbs.
  assert (Forall (bounds domain reference) bs) as Hb.
  { clear He. revert Hl. induction Hbs as [|q b l' bs Hq Hbs IH]; intros Hh; constructor; inversion_clear Hh; [|auto].
    by eapply probe_sound. }
  destruct bs as [|[lower upper] bs]; [done|]. peel He. injection He as <-. split; [|done].
  apply Forall_cons in Hb as [[Hlo Hup] Hb]. unfold sound, bounds. cbn in *. split.
  - apply maximum_mult; [done|]. apply Forall_fmap. eapply Forall_impl; [exact Hb|]. by intros b [? _].
  - apply minimum_mult; [done|]. apply Forall_fmap. eapply Forall_impl; [exact Hb|]. by intros b [_ ?].
Qed.
Lemma endpointPair_sound domain reference ends e :
  (∀ first last, ends = Some (first, last) → Forall (honest domain reference) (first ++ last)) →
  endpointPair domain reference ends = Ok e → sound e.
Proof.
  intros Hh He. destruct ends as [[first last]|]; [|done]. cbn in He.
  specialize (Hh _ _ eq_refl). apply Forall_app in Hh as [Hf Hl].
  apply result_bind_inv in He as (a & (Ha & Hd & Hr)%(calibration_sound _ _ _ _ Hf) & He).
  apply result_bind_inv in He as (b & (Hb & Hd' & Hr')%(calibration_sound _ _ _ _ Hl) & He).
  unfold combineCalibrations in He. peel He. injection He as <-.
  unfold sound, bounds in *. cbn in *. rewrite Hd, Hr in *. rewrite Hd', Hr' in Hb. lia.
Qed.

(** * The graph of edges *)
Definition graph_ok (edges : list (string * edge)) : Prop := ∀ d e, fieldOf d edges = Some e → clockDomain e = d ∧ sound e.
Lemma addEdge_ok edges e edges' : graph_ok edges → sound e → addEdge edges e = Ok edges' → graph_ok edges'.
Proof.
  intros Hg He H. unfold addEdge in H. peel H.
  assert (∀ e', clockDomain e' = clockDomain e → sound e' → graph_ok (setField (clockDomain e) e' edges)) as Hset.
  { intros e' Hd Hs d x. rewrite fieldOf_setField. destruct (String.eqb_spec (clockDomain e) d) as [<-|]; [|apply Hg].
    by intros [= <-]. }
  destruct (fieldOf (clockDomain e) edges) as [previous|] eqn:Hp.
  - peel H. injection H as <-. apply Hset; [done|]. destruct (Hg _ _ Hp) as [Hd Hs].
    unfold sound, bounds in *. cbn in *. apply String.eqb_eq in Ha0. rewrite Hd, Ha0 in Hs. lia.
  - injection H as <-. by apply Hset.
Qed.
Lemma addEdges_ok l edges edges' : graph_ok edges → Forall sound l → addEdges edges l = Ok edges' → graph_ok edges'.
Proof.
  intros Hg Hl. revert edges Hg. induction Hl as [|e l He Hl IH]; intros edges Hg; cbn; [by intros [= <-]|].
  intros (g & H1 & H2)%result_bind_inv. eapply IH; [|done]. by eapply addEdge_ok.
Qed.
Lemma offset_sound root edges fuel visiting d o : graph_ok edges →
  offset root edges fuel visiting d = Some (Ok o) → bounds d root o.
Proof.
  intros Hg. revert visiting d o. induction fuel as [|fuel IH]; intros visiting d o; cbn.
  - destruct (String.eqb_spec d root) as [->|]; [intros [= <-]; unfold bounds; cbn; lia|].
    case_bool_decide; [done|]. by destruct (fieldOf d edges).
  - destruct (String.eqb_spec d root) as [->|]; [intros [= <-]; unfold bounds; cbn; lia|].
    case_bool_decide; [done|]. destruct (fieldOf d edges) as [e|] eqn:He; [|done].
    destruct (offset root edges fuel _ _) as [[[lower upper]|]|] eqn:Ho; try done. intros [= <-].
    apply IH in Ho. destruct (Hg _ _ He) as [Hd Hs]. unfold sound, bounds in *. cbn in *. rewrite Hd in Hs. lia.
Qed.
Lemma resolve_sound root edges d o : graph_ok edges → resolve root edges d = Ok o → bounds d root o.
Proof.
  intros Hg Ho. unfold resolve in Ho. destruct (offset _ _ _ _ _) as [r|] eqn:Hr; cbn in Ho; [|done]. subst r.
  by eapply offset_sound.
Qed.

(** A sample whose probes are honest and whose recorded edges are sound *)
Record honest_sample (c : correlation) : Prop := {
  h_runner f l : dartRunnerProbes c = Some (f, l) →
    Forall (honest (childReference c) (runnerClockDomain c)) (f.2 ++ l.2);
  h_dart f l : dartProbes c = Some (f, l) → Forall (honest (dartClockDomain c) (childReference c)) (f ++ l);
  h_node f l : (nodeNative c).2 = Some (f, l) → Forall (honest (nodeNative c).1 (runnerClockDomain c)) (f ++ l);
  h_native f l : (native c).2 = Some (f, l) → Forall (honest (native c).1 (childReference c)) (f ++ l);
  h_records : Forall sound (clockRecords c) }.
Lemma linksOf_sound c links : honest_sample c → linksOf c = Ok links → Forall sound links.
Proof.
  intros Hc Hl. unfold linksOf in Hl. destruct (dartRunnerProbes c) as [[[d f] [d' l]]|] eqn:Hr; [|done]. peel Hl.
  apply result_bind_inv in Hl as (a & Ha' & Hl). apply result_bind_inv in Hl as (b & Hb & Hl).
  apply endpointPair_sound in Ha'; [|intros ?? [= <- <-]; apply (h_runner c Hc _ _ Hr)].
  apply endpointPair_sound in Hb; [|apply (h_dart c Hc)].
  destruct (traced c); [|injection Hl as <-; auto using Forall_cons_2, Forall_nil_2].
  apply result_bind_inv in Hl as (n & Hn & Hl). apply result_bind_inv in Hl as (m & Hm & Hl).
  apply endpointPair_sound in Hn; [|apply (h_node c Hc)]. apply endpointPair_sound in Hm; [|apply (h_native c Hc)].
  injection Hl as <-. auto 6 using Forall_cons_2, Forall_nil_2.
Qed.

(** The placement of a reading taken at [t] is within its uncertainty of the time since
    the measurement clock read zero. *)
Lemma place_sound root (origin o : Z * Z) m d t : truth root = 0 → bounds m root origin → bounds d root o →
  let p := place origin o (reading d t) in
  Z.abs (2 * (t - truth m) - 1000 * at2 p) ≤ 1000 * uncertainty2 p ∧ 1000 * lowerUs p ≤ truth d ≤ 1000 * upperUs p.
Proof.
  intros Hr Hm Hd. unfold bounds in *. rewrite Hr in *. pose proof (reading_bound d t). cbn. lia.
Qed.
End truth.

(** ** The fuel of [offset] is enough *)
Lemma fieldOf_key {A} d (edges : list (string * A)) e : fieldOf d edges = Some e → d ∈ edges.*1.
Proof.
  induction edges as [|[k x] edges IH]; cbn; [done|]. destruct (String.eqb_spec k d) as [->|]; [by left|].
  intros H. right. by apply IH.
Qed.
Lemma offset_fuel root edges fuel visiting d : NoDup visiting → visiting ⊆ edges.*1 →
  (length edges ≤ fuel + length visiting)%nat → is_Some (offset root edges fuel visiting d).
Proof.
  revert visiting d. induction fuel as [|fuel IH]; intros visiting d Hn Hs Hl; cbn;
    (destruct (String.eqb d root); [by eexists|]);
    (case_bool_decide as Hv; [by eexists|]);
    (destruct (fieldOf d edges) as [e|] eqn:He; [|by eexists]);
    apply fieldOf_key in He;
    (assert (NoDup (d :: visiting)) as Hn' by by constructor);
    (assert (d :: visiting ⊆ edges.*1) as Hs' by set_solver).
  - pose proof (submseteq_length _ _ (NoDup_submseteq _ _ Hn' Hs')) as Hlen. rewrite length_fmap in Hlen. cbn in *. lia.
  - destruct (IH (d :: visiting) (referenceClockDomain e) Hn' Hs') as [r ->]; [cbn in *; lia|].
    destruct r as [[lower upper]|]; by eexists.
Qed.
(** [resolve] never runs out: it is the answer of [offset] at its fuel. *)
Lemma resolve_total root edges d : offset root edges (length edges) [] d = Some (resolve root edges d).
Proof.
  unfold resolve. destruct (offset_fuel root edges (length edges) [] d) as [r Hr].
  - constructor.
  - set_solver.
  - cbn. lia.
  - by rewrite Hr.
Qed.


(** C40: the soundness of placements.  Let [truth d] be when the clock of the domain [d]
    reads zero, on the axis of the runner's clock, in nanoseconds.  If every probe of the
    sample was honest - the remote side ran between its local ends, with any delays - and
    the recorded edges bound the clocks they relate, then whatever [clockAlignment]
    answers is sound: the placement of a reading taken at [t] is within its uncertainty of
    the time from the zero of the measurement clock to [t], and its bounds hold the
    clock's zero. *)
Theorem alignment_sound (truth : string → Z) c map d t p :
  truth (runnerClockDomain c) = 0 → honest_sample truth c → clockAlignment c = Ok map → map d (reading truth d t) = Ok p →
  Z.abs (2 * (t - truth (measurementClockDomain c)) - 1000 * at2 p) ≤ 1000 * uncertainty2 p
  ∧ 1000 * lowerUs p ≤ truth d ≤ 1000 * upperUs p.
Proof.
  intros Hr Hc Hm Hp. unfold clockAlignment in Hm.
  apply result_bind_inv in Hm as (links & Hl%(linksOf_sound truth _ _ Hc) & Hm).
  apply result_bind_inv in Hm as (edges & He & Hm). apply result_bind_inv in Hm as (origin & Ho & Hm).
  injection Hm as <-. apply result_bind_inv in Hp as (o & Hd & Hp). injection Hp as <-.
  assert (graph_ok truth edges) as Hg.
  { eapply addEdges_ok; [|apply Forall_app; split; [exact Hl|apply (h_records truth c Hc)]|exact He]. by intros ??. }
  apply (place_sound truth (runnerClockDomain c)); [done|by eapply resolve_sound..].
Qed.

(** * The coverage gaps *)
#[export] Instance starts_le_total : Total starts_le.
Proof. intros a b. unfold starts_le. lia. Qed.
Definition within (t : Z) (i : Z * Z) : Prop := i.1 ≤ t < i.2.
Lemma sweepGaps_exact t l covered : Sorted starts_le l → Forall proper l →
  let '(gaps, c) := sweepGaps covered l in
  covered ≤ c ∧ Forall (λ i, i.2 ≤ c) l ∧ (Exists (within t) gaps ↔ covered ≤ t < c ∧ ¬ Exists (within t) l).
Proof.
  intros Hs. apply (Sorted_StronglySorted) in Hs; [|intros ???; unfold starts_le; lia].
  revert covered. induction Hs as [|[s f] l Hs IH Hle]; intros covered Hp.
  { cbn. rewrite Exists_nil. split; [lia|]. split; [done|]. lia. }
  apply Forall_cons in Hp as [Hp Hps]. unfold proper in Hp. cbn in *. specialize (IH (Z.max covered f) Hps).
  destruct (sweepGaps _ l) as [gaps c]. destruct IH as (Hc & Hf & IH).
  assert (t < s → ¬ Exists (within t) l) as Hlt.
  { intros Ht (i & Hi & Hw)%Exists_exists. rewrite Forall_forall in Hle. specialize (Hle i Hi).
    unfold starts_le, within in *. cbn in *. lia. }
  split; [lia|]. split; [constructor; [cbn; lia|done]|].
  destruct (Z.ltb_spec covered s); rewrite !Exists_cons, IH; unfold within in *; cbn [fst snd].
  - destruct (Z.lt_ge_cases t s) as [Ht|Ht]; [|intuition lia]. specialize (Hlt Ht). intuition lia.
  - intuition lia.
Qed.
Lemma clip_within end_ t i : 0 ≤ t < end_ → within t (clip end_ i) ↔ within t i.
Proof. unfold within, clip. cbn. lia. Qed.
Lemma clipped_within end_ t spans : 0 ≤ t < end_ →
  Exists (within t) (merge_sort starts_le (filter proper (clip end_ <$> spans))) ↔ Exists (within t) spans.
Proof.
  intros Ht. rewrite (merge_sort_Permutation starts_le). rewrite !Exists_exists. split.
  - intros (i & [_ Hi]%list_elem_of_filter & Hw). apply list_elem_of_fmap in Hi as (x & -> & Hx).
    exists x. split; [done|]. by apply (clip_within end_).
  - intros (x & Hx & Hw). exists (clip end_ x). apply (clip_within end_ t x Ht) in Hw. split; [|done].
    apply list_elem_of_filter. split; [unfold proper, within in *; lia|]. by apply list_elem_of_fmap_2.
Qed.
Theorem unattributed_exact end_ spans t : 0 ≤ t < end_ →
  Exists (within t) (unattributed end_ spans) ↔ ¬ Exists (within t) spans.
Proof.
  intros Ht. rewrite <-(clipped_within end_ t spans Ht). unfold unattributed.
  set (l := merge_sort starts_le _).
  assert (Sorted starts_le l) as Hs by apply (Sorted_merge_sort starts_le).
  assert (Forall proper l) as Hp.
  { unfold l. rewrite (merge_sort_Permutation starts_le). apply Forall_forall. by intros i [? _]%list_elem_of_filter. }
  pose proof (sweepGaps_exact t l 0 Hs Hp) as H. destruct (sweepGaps 0 l) as [gaps c]. destruct H as (Hc & Hf & H).
  assert (c ≤ t → ¬ Exists (within t) l) as Hlate.
  { intros Hct (i & Hi & Hw)%Exists_exists. rewrite Forall_forall in Hf. specialize (Hf i Hi). unfold within in Hw. lia. }
  destruct (Z.ltb_spec c end_).
  - rewrite Exists_app, Exists_cons, Exists_nil, H. unfold within in *. cbn [fst snd] in *.
    destruct (Z.lt_ge_cases t c); intuition lia.
  - rewrite H. intuition lia.
Qed.

(** * The handshake: every phase it records has all its probes, in the order asked *)
Definition handshake_ok (h : handshake) : Prop :=
  Forall (λ e, length e.2.2 = PROBES) (endpoints h)
  ∧ match current h with
    | Some r => (length (probes r) < PROBES)%nat ∧ pendingId r = Z.of_nat (length (probes r))
    | None => True
    end.
Lemma setField_Forall {A} (P : string * A → Prop) k a l : P (k, a) → Forall P l → Forall P (setField k a l).
Proof. intros Ha Hl. apply Forall_forall. intros p [->|Hp]%setField_elem; [done|]. by rewrite Forall_forall in Hl; apply Hl. Qed.
Lemma accept_ok e at_ now h : handshake_ok h → handshake_ok (accept e at_ now h).2.
Proof.
  intros Hok. pose proof Hok as [He Hc]. destruct e as [phase domain|phase id receive send|]; cbn [accept]; [|destruct (current h) as [r|] eqn:Hr|done].
  - destruct (current h); [exact Hok|]. split; [done|]. cbn. unfold PROBES. lia.
  - destruct (_ && _); [|exact Hok]. rewrite length_app. cbn [length].
    destruct (Nat.ltb_spec (length (probes r) + 1) PROBES) as [Hlt|Hge]; cbn.
    + split; [done|]. cbn. rewrite !length_app. cbn. lia.
    + split; [|done]. apply setField_Forall; [|done]. cbn. rewrite length_app. cbn. lia.
  - exact Hok.
Qed.
(** However the replies come, a recorded phase has [PROBES] probes. *)
Theorem handshake_records l : Forall (λ e, length e.2.2 = PROBES)
  (endpoints (foldl (λ h '(e, at_, now), (accept e at_ now h).2) newHandshake l)).
Proof.
  assert (∀ h, handshake_ok h → handshake_ok (foldl (λ h '(e, at_, now), (accept e at_ now h).2) h l)) as H.
  { induction l as [|[[e a] n] l IH]; intros h Hh; [done|]. cbn [foldl]. by apply IH, accept_ok. }
  apply H. by split.
Qed.

(** Three clocks: the runner's, its child's and Dart's, each probed before and after. *)
Definition exampleTruth (d : string) : Z :=
  if String.eqb d "node" then 7000000500 else if String.eqb d "dart" then 9000123456 else 0.
Definition exampleProbe (d reference : string) (t : Z) : probe :=
  Probe (reading exampleTruth reference t) (reading exampleTruth d (t + 2000))
    (reading exampleTruth d (t + 3000)) (reading exampleTruth reference (t + 9000)).
Definition exampleCorrelation : correlation :=
  Correlation "runner" (Some (("node", [exampleProbe "node" "runner" 10000000000; exampleProbe "node" "runner" 10000050700]),
                              ("node", [exampleProbe "node" "runner" 90000000000])))
    "node" "dart" (Some ([exampleProbe "dart" "node" 10000200000], [exampleProbe "dart" "node" 90000200000]))
    "dart" false (EmptyString, None) (EmptyString, None) [].
Lemma exampleProbe_honest d reference t : honest exampleTruth d reference (exampleProbe d reference t).
Proof. exists t, (t + 2000), (t + 3000), (t + 9000). split_and!; [lia..|done]. Qed.
Lemma example_honest : honest_sample exampleTruth exampleCorrelation.
Proof.
  split; cbn; try (intros f l [= <- <-] || intros f l [=]); cbn; auto 6 using Forall_cons_2, Forall_nil_2, exampleProbe_honest.
Qed.
Example example_placed : (map ← clockAlignment exampleCorrelation; map "node"%string (reading exampleTruth "node" 20000000000))
  = Ok (Placement 21999748 30 6999998 7000007).
Proof. vm_compute. reflexivity. Qed.
Lemma alignment_sound_witness : ∃ map p, clockAlignment exampleCorrelation = Ok map
  ∧ map "node"%string (reading exampleTruth "node" 20000000000) = Ok p
  ∧ Z.abs (2 * (20000000000 - exampleTruth "dart") - 1000 * at2 p) ≤ 1000 * uncertainty2 p.
Proof.
  destruct (result_bind_inv _ _ _ example_placed) as (map & Hm & Hp). eexists map, _. split; [exact Hm|]. split; [exact Hp|].
  exact (proj1 (alignment_sound exampleTruth exampleCorrelation map "node" 20000000000 _ eq_refl example_honest Hm Hp)).
Defined.
